(* ===== verification/_CoqProject ===== *)
-Q . S2P
Prelude.v
Wire.v
Ring.v
Spsc.v
BlockedQueue.v
Metrics.v
Pool.v
EngineV1.v
ThreadsV1.v
Packet.v
EngineV3.v
Dpdk.v
Os.v
Sender.v
Generator.v
Receiver.v
Latency.v
LatencyThreads.v
EngineV2.v
TcpFrames.v
UdpServer.v
TcpServer.v
TcpBlock.v
Logger.v
Config.v
Programs.v
Lifecycle.v
Control.v
Reporter.v
Affinity.v
