(* ===== verification/Prelude.v ===== *)
(** * Market-data engine: verification library

    The program receives fixed-size market-data messages from the network, checks
    their sequence numbers and counts what it saw; a generator produces the
    traffic.  There are three engines (v1: UDP server thread, frame pool, consumer
    thread; v2: batched receive into the pool's slots; v3: polling a DPDK port in
    one thread) and two generators.  This library models them function by function
    as executable definitions and proves what makes them correct.  Paths below are
    under [src/src/].

    ** Files

    - [Prelude]: machine integers ([wrapu], [wraps]: an integer is a [Z] kept in
      range, every wrap-around written out), byte lists, memory copies, the error
      and list lemmas shared by the components.
    - [Wire]: [protocol/encode.hpp], [protocol/decode.hpp] (both host byte orders),
      [engine/normalize].
    - [Ring]: [containers/ring_buffer.hpp] as a sequential object, with counters
      that wrap at 2^64; it refines a bounded FIFO (class [BoundedQueue]).  Also
      [push] cut at its accesses, for the ring that two threads push to.
    - [Spsc]: the same ring as a concurrent object.  Each member function is cut at
      its atomic accesses; acquire loads may return stale values no older than what
      the thread saw before.
    - [BlockedQueue]: [containers/blocked_bounded_queue.hpp], any number of threads
      with the mutex and the two condition variables.
    - [Metrics]: [common/metrics] and the sequence tracker of the consumer loops.
    - [Pool]: [containers/frame_pool.hpp], [containers/numa_frame_pool.hpp]: slots
      whose indices travel through a free and a ready ring; [pool_inv] says that
      every index is in exactly one place.
    - [EngineV1]: the treatment of a datagram in [common/net/v1/udp_server.hpp] and
      [engine/v1/engine.cpp]'s consumer loop, whole iterations interleaved.
    - [ThreadsV1]: the same two threads with program counters, from the start to the
      consumer's exit; datagrams may still arrive after it.
    - [Packet], [EngineV3], [Dpdk]: [engine/v3/engine.cpp]: the Ethernet/IPv4/UDP
      parser with its memory accesses, the engine against the packet-source
      interface (class [RxSource] with laws [RxSourceLaws]), the DPDK source that
      implements the interface.
    - [Os]: the kernel as a parameter: system calls, their replies, the history of
      calls, a state-and-history monad [M] with a weakest precondition [wp], the
      set of open descriptors [live], and the documented behaviour [KernelOk].
    - [Sender], [Receiver]: [common/net/v2/udp_sender.cpp] (both branches of
      [send_batch]), [udp_receiver.cpp] and [common/net/v1/udp_client.hpp].
    - [Generator]: [generator/v1], [generator/v2].
    - [Latency], [LatencyThreads]: the latency histogram of [engine/v2/engine.cpp];
      each function undisturbed, and the consumer's [record_latency] and the
      reporter's [snapshot_latency] cut at their atomic accesses and interleaved.
    - [EngineV2]: the I/O and processing threads of [engine/v2/engine.cpp], step by
      step and interleaved, also in the middle of their pushes to the free ring.
    - [UdpServer]: the server thread of [common/net/v1/udp_server.hpp], from the
      socket's set-up over the epoll loop to the shutdown.
    - [TcpFrames], [TcpServer]: [common/net/v1/tcp_server_nonblock_epoll.hpp]: the
      reassembly of frames, and the server thread with its table of connections.
    - [TcpBlock]: [common/net/v1/tcp_server_block.hpp], [tcp_client_block.hpp].
    - [Control]: [start_server] and [stop_server] interleaved with the server thread
      (its tests of the flag, its events and the calls of its receive loops), and
      [Engine::run], [Engine::stop] of engine v1 on top.
    - [Lifecycle]: [Engine::receive], [Engine::stop] of engine v2: the frame pool,
      the receiver and the three [std::thread] members, with every failure.
    - [Reporter]: the metrics threads of engines v1 and v2.
    - [Logger]: [common/logging], [Affinity]: [common/thread/affinity.hpp].
    - [Config], [Programs]: [engine/main.cpp], [generator/main.cpp]: the settings
      read from the environment, and the two programs composed from the parts
      above.

    The interfaces between the parts: [BoundedQueue] (the ring to the pool),
    [RxSource] (the DPDK source to engine v3), [Kernel] (the system to everything
    that makes system calls) and [DpdkLib], [Numa] (the libraries).

    ** What the theorems show

    - Wire format: encode and decode are inverse to each other for every pair of
      hosts, and use network order.
    - Ring: a FIFO in every interleaving of one producer and one consumer, free of
      data races; with two producers items get lost.
    - Blocking queue: linearizable, and no wake-up is lost except by [clear].
    - Engine v1: in every interleaving every slot index is owned once, the messages
      consumed are in order among those received, every datagram is consumed,
      queued or counted as dropped; after a stop the consumer leaves its loop, and
      it has then processed everything published before its last test of the ready
      ring.  When the pool is large enough nothing else is lost; what the server
      receives later stays in the ring ([ThreadsV1.v1_shutdown_leaves_frame]).  TCP
      reassembly, for every way of cutting the stream, has the effect of one
      datagram per frame.
    - Engine v2: the same ownership and delivery in every interleaving in which the
      two threads are never both in the middle of a push to the free ring; nothing
      in the code ensures this, and [EngineV2.v2_overlap_loses_slot] is a run in
      which a slot is lost.  The consumer drains the ready ring in any case.
    - Engine v3: the parser accepts exactly the frames its specification
      describes, never reads outside the frame; the engine processes every packet
      once, gives every buffer back before the next poll, and over DPDK follows the
      library's protocol with all resources given back, whatever the calls answer;
      its tracker agrees with v1.
    - Sockets: no descriptor is leaked or used after close, sends and receives
      deliver what they report, in order, and the statistics account for it.
    - Generators: the stream is well-formed and increasing, its gaps are counted by
      the engine, runs terminate and v1 and v2 send the same datagrams.
    - Latency: in every interleaving of recording and reporting nothing is lost or
      reported twice; a snapshot that no record overlaps has exact counts and
      maxima and quantiles within one bucket, one that is overlapped may not.
    - Servers: whatever the kernel answers, what arrives is treated once and in
      order, the TCP streams of all connections become frames wherever they are
      cut, only open descriptors are used and the server's own are closed at the
      end; a stop gets through if the traffic leaves a gap, which is needed, and
      starting and stopping is safe unless the server has ended by itself.
    - Blocking TCP: exactly the messages the stream spells are passed on, and
      [send_all] tells whether every byte was accepted.
    - Life of engine v2: [receive] gets everything or leaves nothing behind; over
      any disciplined use nothing leaks and the process is not terminated; a
      restart after an I/O error without a stop is shown to fail.
    - Programs: the settings are read exactly or replaced by their defaults, the
      engine program releases what it acquired on every path, and the generator
      program sends a prefix of the configured stream, all of it when it reports
      success.  Log lines of different threads are never mixed or lost.

    ** Parameters, bounds and fuel

    The kernel and the DPDK library are parameters with documented behaviour as
    laws, satisfied by concrete instances.  Loops that retry on [EINTR] are bounded
    by the law that at most [patience] calls in a row are interrupted; they are run
    with more fuel than that ([201 * (patience + 1)] for the loops that also allow
    200 pauses) and are proved not to run out.  Loops that read a non-blocking
    descriptor until nothing is left end only if the traffic leaves a gap: class
    [Traffic] bounds the successful reads in a row, and [drain_fuel] is enough for
    that many.  The endless server loops run over a list of what other threads do
    between two tests of their flag.  Loops over data use the data's length as
    fuel.  Ring capacities are powers of two below 2^64, as the
    [static_assert]s of the source require.

    Interleavings are sequences of accesses in one total order; only [Spsc] has
    loads that return stale values, and it is what justifies that an operation on a
    ring with one producer and one consumer is a single step elsewhere.  [send_batch]
    keeps its counts in [int]; they are modelled as unbounded and
    [Sender.batch_outer_int_eq] shows that the conversions change nothing below
    2^31 frames.  [BlockedQueue.capacity] reads the size without the mutex; the read
    is taken to be indivisible.  Time stamps and clock readings are inputs.

    ** Not modelled

    The empty source files ([common/time.hpp], [engine/act], [engine/ingest],
    [engine/process]), the tests, scripts and build files, and output to the
    standard streams.  [install_signal_handler] is an answer of the environment
    and the signal's delivery an input of the engine's loop.  Data races are shown
    absent for the ring only; elsewhere threads interleave at the granularity of
    their accesses to atomics and locks. *)

From Stdlib Require Import ZArith Lia.
From stdpp Require Import base numbers list.

Local Open Scope Z_scope.

(** ** Machine integers

    A [w]-bit unsigned integer is a [Z] in [0, 2^w); a [w]-bit two's complement
    integer is a [Z] in [-2^(w-1), 2^(w-1)).  [wrapu] and [wraps] are the
    conversions the C++ language performs on assignment, cast and arithmetic. *)

Definition wrapu (w z : Z) : Z := z mod 2 ^ w.

Definition wraps (w z : Z) : Z := (z + 2 ^ (w - 1)) mod 2 ^ w - 2 ^ (w - 1).

Definition is_u (w z : Z) : Prop := 0 <= z < 2 ^ w.

Definition is_s (w z : Z) : Prop := - 2 ^ (w - 1) <= z < 2 ^ (w - 1).

Abbreviation u8 := (wrapu 8).
Abbreviation u16 := (wrapu 16).
Abbreviation u32 := (wrapu 32).
Abbreviation u64 := (wrapu 64).
Abbreviation s32 := (wraps 32).
Abbreviation s64 := (wraps 64).

Declare Scope mde_scope.
Delimit Scope mde_scope with mde.
(** [size_t] and [uint64_t] arithmetic wraps modulo [2^64]. *)
Notation "a +% b" := (wrapu 64 (a + b)) (at level 50, left associativity) : mde_scope.
Notation "a -% b" := (wrapu 64 (a - b)) (at level 50, left associativity) : mde_scope.
Global Open Scope mde_scope.

#[global] Instance is_u_dec w z : Decision (is_u w z).
Proof. unfold is_u; apply _. Defined.

#[global] Instance is_s_dec w z : Decision (is_s w z).
Proof. unfold is_s; apply _. Defined.

Create HintDb mde.
Create Rewrite HintDb mde_wrap.

(** Constant powers of two are computed before [lia] sees them. *)
Ltac norm_pow :=
  repeat match goal with
  | |- context [2 ^ ?a] =>
      let c := eval compute in (2 ^ a) in
      lazymatch c with Z.pos _ => change (2 ^ a) with c end
  | H : context [2 ^ ?a] |- _ =>
      let c := eval compute in (2 ^ a) in
      lazymatch c with Z.pos _ => change (2 ^ a) with c in H end
  end.

(** [word_lia]: linear arithmetic over wrapped integers of constant width. *)
Ltac word_lia :=
  unfold is_u, is_s, wrapu, wraps in *; norm_pow;
  Z.div_mod_to_equations; lia.

Lemma wrapu_range w z : 0 <= w -> is_u w (wrapu w z).
Proof. intros. apply Z.mod_pos_bound. apply Z.pow_pos_nonneg; lia. Qed.

Lemma wrapu_small w z : is_u w z -> wrapu w z = z.
Proof. apply Z.mod_small. Qed.

Lemma wraps_range w z : 0 < w -> is_s w (wraps w z).
Proof.
  intros Hw. unfold is_s, wraps.
  pose proof (Z.mod_pos_bound (z + 2 ^ (w - 1)) (2 ^ w) ltac:(lia)).
  replace (2 ^ w) with (2 * 2 ^ (w - 1)) in *; [lia|].
  rewrite <- Z.pow_succ_r by lia. f_equal; lia.
Qed.

Lemma wraps_small w z : 0 < w -> is_s w z -> wraps w z = z.
Proof.
  intros Hw Hz. unfold is_s, wraps in *.
  rewrite Z.mod_small; [lia|].
  replace (2 ^ w) with (2 * 2 ^ (w - 1)); [lia|].
  rewrite <- Z.pow_succ_r by lia. f_equal; lia.
Qed.

Lemma wraps_wrapu w z : 0 < w -> wraps w (wrapu w z) = wraps w z.
Proof. intros. unfold wraps, wrapu. by rewrite Zplus_mod_idemp_l. Qed.

Lemma wrapu_wraps w z : 0 < w -> wrapu w (wraps w z) = wrapu w z.
Proof.
  intros. unfold wraps, wrapu.
  rewrite Zminus_mod_idemp_l. f_equal; lia.
Qed.

(** Reading back an [int] stored through the unsigned type of its width. *)
Lemma wraps_wrapu_small w z : 0 < w -> is_s w z -> wraps w (wrapu w z) = z.
Proof. intros. rewrite wraps_wrapu by done. by apply wraps_small. Qed.

Lemma wrapu_wraps_small w z : 0 < w -> is_u w z -> wrapu w (wraps w z) = z.
Proof. intros. rewrite wrapu_wraps by done. by apply wrapu_small. Qed.

Lemma wrapu_idemp w z : 0 <= w -> wrapu w (wrapu w z) = wrapu w z.
Proof. intros. apply wrapu_small, wrapu_range; lia. Qed.

Lemma wrapu_add_l w a b : wrapu w (wrapu w a + b) = wrapu w (a + b).
Proof. apply Zplus_mod_idemp_l. Qed.

Lemma wrapu_add_r w a b : wrapu w (a + wrapu w b) = wrapu w (a + b).
Proof. apply Zplus_mod_idemp_r. Qed.

Lemma wrapu_sub_l w a b : wrapu w (wrapu w a - b) = wrapu w (a - b).
Proof. apply Zminus_mod_idemp_l. Qed.

Lemma wrapu_sub_r w a b : wrapu w (a - wrapu w b) = wrapu w (a - b).
Proof. apply Zminus_mod_idemp_r. Qed.

#[export] Hint Resolve wrapu_range wraps_range : mde.
#[export] Hint Rewrite wrapu_add_l wrapu_add_r wrapu_sub_l wrapu_sub_r : mde_wrap.

(** ** Arrays

    A C array (or [std::array], [std::vector]) of known length is a list; an
    in-range store is stdpp's list insert, a [memcpy] into it is
    [list_inserts]. *)

Definition arr_get {A} `{Inhabited A} (a : list A) (i : Z) : A := a !!! Z.to_nat i.

Definition arr_set {A} (a : list A) (i : Z) (x : A) : list A := <[Z.to_nat i := x]> a.

Definition memcpy_at {A} (dst : list A) (off : Z) (src : list A) : list A :=
  list_inserts (Z.to_nat off) src dst.

Definition mem_read {A} (src : list A) (off n : Z) : list A :=
  take (Z.to_nat n) (drop (Z.to_nat off) src).

#[global] Arguments mem_read : simpl never.
#[global] Arguments memcpy_at : simpl never.
#[global] Arguments arr_get : simpl never.
#[global] Arguments arr_set : simpl never.
#[global] Arguments wrapu : simpl never.
#[global] Arguments wraps : simpl never.

Lemma length_arr_set {A} (a : list A) i x : length (arr_set a i x) = length a.
Proof. apply length_insert. Qed.

Lemma arr_get_set_eq {A} `{Inhabited A} (a : list A) i x :
  0 <= i < Z.of_nat (length a) -> arr_get (arr_set a i x) i = x.
Proof. intros. unfold arr_get, arr_set. apply list_lookup_total_insert_eq. lia. Qed.

Lemma arr_get_set_ne {A} `{Inhabited A} (a : list A) i j x :
  0 <= i -> 0 <= j -> i <> j -> arr_get (arr_set a i x) j = arr_get a j.
Proof. intros. unfold arr_get, arr_set. apply list_lookup_total_insert_ne. lia. Qed.

Lemma length_memcpy_at {A} (dst : list A) off src :
  length (memcpy_at dst off src) = length dst.
Proof. apply length_inserts. Qed.

(** ** Byte strings

    [le_split n v] is the [n]-byte little-endian representation of [v];
    [le_join] reads one back. *)

Definition bytes_ok (bs : list Z) : Prop := Forall (is_u 8) bs.

#[global] Instance bytes_ok_dec bs : Decision (bytes_ok bs).
Proof. unfold bytes_ok; apply _. Defined.

Fixpoint le_split (n : nat) (v : Z) : list Z :=
  match n with
  | O => []
  | S n => v mod 256 :: le_split n (v / 256)
  end.

Fixpoint le_join (bs : list Z) : Z :=
  match bs with
  | [] => 0
  | b :: bs => b + 256 * le_join bs
  end.

Lemma length_le_split n v : length (le_split n v) = n.
Proof. revert v. induction n as [|n IH]; intros v; simpl; auto. Qed.

Lemma le_split_ok n v : bytes_ok (le_split n v).
Proof.
  revert v. induction n as [|n IH]; intros v; simpl; constructor; [|apply IH].
  unfold is_u. apply Z.mod_pos_bound. lia.
Qed.

Lemma pow_bytes_succ n : 2 ^ (8 * Z.of_nat (S n)) = 256 * 2 ^ (8 * Z.of_nat n).
Proof.
  replace (8 * Z.of_nat (S n)) with (8 + 8 * Z.of_nat n) by lia.
  by rewrite Z.pow_add_r by lia.
Qed.

Lemma le_join_split n v : le_join (le_split n v) = wrapu (8 * Z.of_nat n) v.
Proof.
  unfold wrapu. revert v. induction n as [|n IH]; intros v; simpl le_join; simpl le_split.
  - by rewrite Z.mod_1_r.
  - rewrite IH, pow_bytes_succ, Z.rem_mul_r by lia. lia.
Qed.

Lemma le_join_range bs : bytes_ok bs -> is_u (8 * Z.of_nat (length bs)) (le_join bs).
Proof.
  induction 1 as [|b bs Hb Hbs IH]; simpl le_join; simpl length.
  - unfold is_u. lia.
  - unfold is_u in *. rewrite pow_bytes_succ. change (2 ^ 8) with 256 in Hb. nia.
Qed.

Lemma le_split_join bs : bytes_ok bs -> le_split (length bs) (le_join bs) = bs.
Proof.
  induction 1 as [|b bs Hb Hbs IH]; simpl; [done|].
  unfold is_u in Hb. change (2 ^ 8) with 256 in Hb. f_equal.
  - rewrite (Z.mul_comm 256), Z.mod_add, Z.mod_small; lia.
  - rewrite (Z.mul_comm 256), Z.div_add, Z.div_small by lia. exact IH.
Qed.

Lemma bytes_ok_rev bs : bytes_ok bs -> bytes_ok (rev bs).
Proof. intros H. apply Forall_rev in H. exact H. Qed.

#[export] Hint Resolve le_split_ok bytes_ok_rev : mde.

(** Reading [n] bytes from the concatenation of a prefix of known length and a
    field of [n] bytes. *)
Lemma mem_read_app {A} (l1 l2 l3 : list A) off n :
  off = Z.of_nat (length l1) -> n = Z.of_nat (length l2) ->
  mem_read (l1 ++ l2 ++ l3) off n = l2.
Proof.
  intros -> ->. unfold mem_read. rewrite !Nat2Z.id, drop_app_length.
  apply take_app_length.
Qed.

Lemma memcpy_at_app {A} (l1 l2 l3 src : list A) off :
  off = Z.of_nat (length l1) -> length l2 = length src ->
  memcpy_at (l1 ++ l2 ++ l3) off src = l1 ++ src ++ l3.
Proof.
  intros -> Hlen. unfold memcpy_at. rewrite Nat2Z.id.
  rewrite <- (Nat.add_0_r (length l1)), list_inserts_app_r.
  by rewrite list_inserts_0_r.
Qed.

Lemma memcpy_at_end {A} (l1 l2 src : list A) off :
  off = Z.of_nat (length l1) -> (length src <= length l2)%nat ->
  memcpy_at (l1 ++ l2) off src = (l1 ++ src) ++ drop (length src) l2.
Proof.
  intros Hoff Hlen. rewrite <- (take_drop (length src) l2) at 1.
  rewrite (memcpy_at_app l1 (take _ l2) (drop _ l2)); [by rewrite app_assoc|done|].
  rewrite length_take. lia.
Qed.

Lemma mem_read_take {A} (l : list A) m off n :
  0 <= off -> 0 <= n -> off + n <= Z.of_nat m -> mem_read (take m l) off n = mem_read l off n.
Proof.
  intros. unfold mem_read. rewrite !take_drop_commute, take_take. do 2 f_equal. lia.
Qed.

Lemma length_mem_read {A} (l : list A) off n :
  0 <= off -> 0 <= n -> off + n <= Z.of_nat (length l) ->
  length (mem_read l off n) = Z.to_nat n.
Proof. intros. unfold mem_read. rewrite length_take, length_drop. lia. Qed.

Lemma mem_read_Forall {A} (P : A -> Prop) (l : list A) off n :
  Forall P l -> Forall P (mem_read l off n).
Proof. intros. unfold mem_read. by apply Forall_take, Forall_drop. Qed.

Lemma mem_read_0_app {A} (l1 l2 : list A) n :
  n = Z.of_nat (length l1) -> mem_read (l1 ++ l2) 0 n = l1.
Proof. intros ->. unfold mem_read. simpl. by rewrite drop_0, Nat2Z.id, take_app_length. Qed.

Lemma mem_read_skip_app {A} (l1 l2 : list A) off n :
  Z.of_nat (length l1) <= off ->
  mem_read (l1 ++ l2) off n = mem_read l2 (off - Z.of_nat (length l1)) n.
Proof.
  intros. unfold mem_read. rewrite drop_app_ge by lia. do 2 f_equal. lia.
Qed.

(** Consecutive reads tile the region they cover. *)
Lemma mem_read_split {A} (l : list A) off n m :
  0 <= off -> 0 <= n -> 0 <= m ->
  mem_read l off (n + m) = mem_read l off n ++ mem_read l (off + n) m.
Proof.
  intros. unfold mem_read. rewrite Z2Nat.inj_add, <- take_take_drop by lia.
  rewrite drop_drop. do 3 f_equal. lia.
Qed.

Lemma mem_read_all {A} (l : list A) n : n = Z.of_nat (length l) -> mem_read l 0 n = l.
Proof. intros ->. unfold mem_read. simpl. rewrite drop_0, Nat2Z.id. by apply take_ge. Qed.

(** Two positions of a circular buffer less than its size apart differ. *)
Lemma mod_ne K a b : 0 < b - a < K -> a mod K <> b mod K.
Proof.
  intros Hd He.
  assert ((b - a) mod K = 0) by (rewrite Zminus_mod, He, Z.sub_diag; apply Z.mod_0_l; lia).
  rewrite Z.mod_small in *; lia.
Qed.

Lemma seqZ_snoc m n : 0 <= n -> seqZ m (n + 1) = seqZ m n ++ [m + n].
Proof.
  intros. replace (n + 1) with (Z.of_nat (S (Z.to_nat n))) by lia.
  rewrite seqZ_S. do 3 f_equal; lia.
Qed.

Lemma sublist_full {A} (l k : list A) :
  sublist l k -> (length k <= length l)%nat -> l = k.
Proof.
  induction 1 as [|x l k Hs IH|x l k Hs IH]; simpl; intros Hlen; [done| |].
  - f_equal. apply IH. lia.
  - apply sublist_length in Hs. lia.
Qed.

Lemma arr_get_app_r {A} `{Inhabited A} (l1 l2 : list A) i :
  Z.of_nat (length l1) <= i -> arr_get (l1 ++ l2) i = arr_get l2 (i - Z.of_nat (length l1)).
Proof.
  intros. unfold arr_get. rewrite lookup_total_app_r by lia. f_equal. lia.
Qed.
