(* ===== verification/Wire.v ===== *)
(** * Wire: the market-data message and its 44-byte wire format

    Models [src/protocol/md_message.hpp], [encode.hpp] and [decode.hpp] and the
    predicates of [src/engine/normalize].  The object representation of an
    integer depends on the host's byte order, so every operation that goes
    through [memcpy] takes the byte order of the machine it runs on: both
    branches of the [#if __BYTE_ORDER__] of encode.hpp are covered. *)

From Stdlib Require Import ZArith Lia.
From stdpp Require Import base numbers list.
From S2P Require Import Prelude.

Local Open Scope Z_scope.

(** ** The message *)

Record MarketDataMsg := mkMsg {
  seq_num : Z;      (* uint64_t *)
  symbol_id : Z;    (* uint32_t *)
  exchange_ts : Z;  (* int64_t *)
  bid_price : Z;    (* int64_t *)
  ask_price : Z;    (* int64_t *)
  bid_size : Z;     (* int32_t *)
  ask_size : Z      (* int32_t *)
}.

#[global] Instance MarketDataMsg_eq_dec : EqDecision MarketDataMsg.
Proof. solve_decision. Defined.

(** [MarketDataMsg msg{}]: value-initialised. *)
Definition zero_msg : MarketDataMsg := mkMsg 0 0 0 0 0 0 0.

#[global] Instance MarketDataMsg_inhabited : Inhabited MarketDataMsg := populate zero_msg.

(** Every field holds a value of its C++ type. *)
Definition msg_ok (m : MarketDataMsg) : Prop :=
  is_u 64 (seq_num m) /\ is_u 32 (symbol_id m) /\ is_s 64 (exchange_ts m) /\
  is_s 64 (bid_price m) /\ is_s 64 (ask_price m) /\
  is_s 32 (bid_size m) /\ is_s 32 (ask_size m).

#[global] Instance msg_ok_dec m : Decision (msg_ok m).
Proof. unfold msg_ok; apply _. Defined.

Definition kWireSize : Z := 44.

(** ** Byte order of the host *)

Inductive byte_order := little_endian | big_endian.

(** The bytes an [n]-byte unsigned integer occupies in memory, and back: what
    [memcpy] from or to the object copies. *)
Definition object_bytes (o : byte_order) (n : nat) (v : Z) : list Z :=
  match o with
  | little_endian => le_split n v
  | big_endian => rev (le_split n v)
  end.

Definition object_value (o : byte_order) (bs : list Z) : Z :=
  match o with
  | little_endian => le_join bs
  | big_endian => le_join (rev bs)
  end.

(** [__builtin_bswap32] / [__builtin_bswap64]: the bytes in reverse order. *)
Definition bswap (n : nat) (v : Z) : Z := le_join (rev (le_split n v)).

Definition host_to_be32 (o : byte_order) (v : Z) : Z :=
  match o with little_endian => bswap 4 v | big_endian => v end.

Definition host_to_be64 (o : byte_order) (v : Z) : Z :=
  match o with little_endian => bswap 8 v | big_endian => v end.

Definition be32_to_host (o : byte_order) (v : Z) : Z :=
  match o with little_endian => bswap 4 v | big_endian => v end.

Definition be64_to_host (o : byte_order) (v : Z) : Z :=
  match o with little_endian => bswap 8 v | big_endian => v end.

(** ** encode.hpp

    A writer takes the buffer and the offset and returns both, updated. *)

Definition write_u64 (o : byte_order) (buff : list Z) (off v : Z) : list Z * Z :=
  let be := host_to_be64 o v in
  (memcpy_at buff off (object_bytes o 8 be), off + 8).

Definition write_u32 (o : byte_order) (buff : list Z) (off v : Z) : list Z * Z :=
  let be := host_to_be32 o v in
  (memcpy_at buff off (object_bytes o 4 be), off + 4).

Definition write_i64 (o : byte_order) (buff : list Z) (off v : Z) : list Z * Z :=
  let be := host_to_be64 o (u64 v) in
  (memcpy_at buff off (object_bytes o 8 be), off + 8).

(** [out] is the default-initialised, hence indeterminate, array the function
    starts from.  [bid_size] and [ask_size] are converted to [uint32_t] by the
    calls. *)
Definition encode (o : byte_order) (out : list Z) (msg : MarketDataMsg) : list Z :=
  let off := 0 in
  let '(out, off) := write_u64 o out off (seq_num msg) in
  let '(out, off) := write_u32 o out off (symbol_id msg) in
  let '(out, off) := write_i64 o out off (exchange_ts msg) in
  let '(out, off) := write_i64 o out off (bid_price msg) in
  let '(out, off) := write_i64 o out off (ask_price msg) in
  let '(out, off) := write_u32 o out off (u32 (bid_size msg)) in
  let '(out, off) := write_u32 o out off (u32 (ask_size msg)) in
  out.

(** ** decode.hpp

    A reader returns the value and the updated offset. *)

Definition read_u32 (o : byte_order) (data : list Z) (off : Z) : Z * Z :=
  let be := object_value o (mem_read data off 4) in
  (be32_to_host o be, off + 4).

Definition read_u64 (o : byte_order) (data : list Z) (off : Z) : Z * Z :=
  let be := object_value o (mem_read data off 8) in
  (be64_to_host o be, off + 8).

Definition read_i64 (o : byte_order) (data : list Z) (off : Z) : Z * Z :=
  let be := object_value o (mem_read data off 8) in
  (s64 (be64_to_host o be), off + 8).

(** [data] is the memory [data] points to, [len] the length the caller claims;
    the second component is the out-parameter [msg] after the call. *)
Definition decode (o : byte_order) (data : list Z) (len : Z) (msg : MarketDataMsg)
    : bool * MarketDataMsg :=
  if len <? kWireSize then (false, msg)
  else
    let off := 0 in
    let '(seq, off) := read_u64 o data off in
    let '(sym, off) := read_u32 o data off in
    let '(ts, off) := read_i64 o data off in
    let '(bid, off) := read_i64 o data off in
    let '(ask, off) := read_i64 o data off in
    let '(bsz, off) := read_u32 o data off in
    let '(asz, off) := read_u32 o data off in
    (true, mkMsg seq sym ts bid ask (s32 bsz) (s32 asz)).

(** ** normalize.cpp *)

Definition isSizeMatch (len : Z) : bool := len =? kWireSize.

Definition sanityCheck (msg : MarketDataMsg) : bool :=
  (0 <=? bid_price msg) && negb (ask_price msg =? 0) &&
  (bid_price msg <=? ask_price msg) && (0 <? bid_size msg) && (0 <? ask_size msg).

Definition decode_msg (o : byte_order) (data : list Z) (len : Z) (out : MarketDataMsg)
    : bool * MarketDataMsg :=
  let '(ok, out) := decode o data len out in
  if negb ok then (false, out) else (true, out).

(** ** Specification: network byte order

    [be_bytes n v] is the [n]-byte big-endian representation of [v] and
    [wire_layout] the message laid out field after field. *)

Definition be_bytes (n : nat) (v : Z) : list Z := rev (le_split n v).

Definition wire_layout (m : MarketDataMsg) : list Z :=
  be_bytes 8 (seq_num m) ++ be_bytes 4 (symbol_id m) ++
  be_bytes 8 (u64 (exchange_ts m)) ++ be_bytes 8 (u64 (bid_price m)) ++
  be_bytes 8 (u64 (ask_price m)) ++ be_bytes 4 (u32 (bid_size m)) ++
  be_bytes 4 (u32 (ask_size m)).

Lemma length_be_bytes n v : length (be_bytes n v) = n.
Proof. unfold be_bytes. by rewrite length_rev, length_le_split. Qed.

Lemma be_bytes_ok n v : bytes_ok (be_bytes n v).
Proof. unfold be_bytes. auto with mde. Qed.

Lemma length_wire_layout m : length (wire_layout m) = 44%nat.
Proof. unfold wire_layout. by rewrite !length_app, !length_be_bytes. Qed.

Lemma wire_layout_ok m : bytes_ok (wire_layout m).
Proof. unfold wire_layout, bytes_ok. rewrite !Forall_app. repeat split; apply be_bytes_ok. Qed.

(** What a conversion to network order followed by a [memcpy] leaves in memory
    is the big-endian representation, whatever the host. *)
Lemma bswap_bytes n v : le_split n (bswap n v) = be_bytes n v.
Proof.
  unfold bswap, be_bytes.
  replace n with (length (rev (le_split n v))) at 1
    by (by rewrite length_rev, length_le_split).
  apply le_split_join. auto with mde.
Qed.

Lemma object_bytes_be n o v :
  object_bytes o n (match o with little_endian => bswap n v | big_endian => v end)
  = be_bytes n v.
Proof. destruct o; simpl; [apply bswap_bytes|done]. Qed.

Lemma write_u64_spec o buff off v :
  write_u64 o buff off v = (memcpy_at buff off (be_bytes 8 v), off + 8).
Proof. unfold write_u64, host_to_be64. by rewrite object_bytes_be. Qed.

Lemma write_u32_spec o buff off v :
  write_u32 o buff off v = (memcpy_at buff off (be_bytes 4 v), off + 4).
Proof. unfold write_u32, host_to_be32. by rewrite object_bytes_be. Qed.

Lemma write_i64_spec o buff off v :
  write_i64 o buff off v = (memcpy_at buff off (be_bytes 8 (u64 v)), off + 8).
Proof. unfold write_i64, host_to_be64. by rewrite object_bytes_be. Qed.

#[global] Arguments be_bytes : simpl never.

(** A big-endian reader: what every [read_*] computes before its final cast. *)
Definition be_value (bs : list Z) : Z := le_join (rev bs).

#[global] Arguments be_value : simpl never.

Lemma be_value_bytes n v : be_value (be_bytes n v) = wrapu (8 * Z.of_nat n) v.
Proof. unfold be_value, be_bytes. by rewrite rev_involutive, le_join_split. Qed.

Lemma be_bytes_value bs n : length bs = n -> bytes_ok bs -> be_bytes n (be_value bs) = bs.
Proof.
  intros <- Hok. unfold be_bytes, be_value.
  rewrite <- (length_rev bs), le_split_join by auto with mde.
  apply rev_involutive.
Qed.

Lemma be_value_range bs n :
  length bs = n -> bytes_ok bs -> is_u (8 * Z.of_nat n) (be_value bs).
Proof.
  intros <- Hok. unfold be_value. rewrite <- (length_rev bs).
  apply le_join_range. auto with mde.
Qed.

Lemma object_value_be n o bs :
  length bs = n -> bytes_ok bs ->
  match o with
  | little_endian => bswap n (object_value o bs)
  | big_endian => object_value o bs
  end = be_value bs.
Proof.
  intros Hn Hok. destruct o; simpl; [|done].
  unfold bswap, be_value. by rewrite <- Hn, le_split_join.
Qed.

(** ** Correctness of encode *)

(** The result does not depend on the host nor on the indeterminate array: the
    seven writes tile the 44 bytes. *)
Lemma encode_layout o out m : length out = 44%nat -> encode o out m = wire_layout m.
Proof.
  intros Hlen. unfold encode.
  repeat (progress (rewrite ?write_u64_spec, ?write_u32_spec, ?write_i64_spec;
    cbv beta iota zeta)).
  rewrite (memcpy_at_end [] out) by (rewrite ?length_be_bytes; simpl; lia).
  repeat (rewrite memcpy_at_end;
    [|rewrite ?length_app, ?length_be_bytes; simpl; lia
     |rewrite !length_drop, !length_be_bytes; lia]).
  rewrite !drop_drop, !length_be_bytes.
  rewrite (drop_ge out) by (simpl; lia).
  unfold wire_layout. by rewrite app_nil_r, app_nil_l, <- !app_assoc.
Qed.

(** ** Correctness of decode *)

Definition wire_parse (data : list Z) : MarketDataMsg :=
  mkMsg (be_value (mem_read data 0 8)) (be_value (mem_read data 8 4))
    (s64 (be_value (mem_read data 12 8))) (s64 (be_value (mem_read data 20 8)))
    (s64 (be_value (mem_read data 28 8))) (s32 (be_value (mem_read data 36 4)))
    (s32 (be_value (mem_read data 40 4))).

Lemma read_u64_spec o data off :
  0 <= off -> off + 8 <= Z.of_nat (length data) -> bytes_ok data ->
  read_u64 o data off = (be_value (mem_read data off 8), off + 8).
Proof.
  intros. unfold read_u64, be64_to_host. f_equal. apply (object_value_be 8).
  - rewrite length_mem_read by lia. done.
  - by apply mem_read_Forall.
Qed.

Lemma read_u32_spec o data off :
  0 <= off -> off + 4 <= Z.of_nat (length data) -> bytes_ok data ->
  read_u32 o data off = (be_value (mem_read data off 4), off + 4).
Proof.
  intros. unfold read_u32, be32_to_host. f_equal. apply (object_value_be 4).
  - rewrite length_mem_read by lia. done.
  - by apply mem_read_Forall.
Qed.

Lemma read_i64_spec o data off :
  0 <= off -> off + 8 <= Z.of_nat (length data) -> bytes_ok data ->
  read_i64 o data off = (s64 (be_value (mem_read data off 8)), off + 8).
Proof.
  intros. change (read_i64 o data off) with
    (s64 (read_u64 o data off).1, (read_u64 o data off).2).
  by rewrite read_u64_spec.
Qed.

Lemma decode_parse o data len m :
  kWireSize <= len -> 44 <= Z.of_nat (length data) -> bytes_ok data ->
  decode o data len m = (true, wire_parse data).
Proof.
  intros Hlen Hdata Hok. unfold decode, kWireSize in *.
  destruct (Z.ltb_spec len 44); [lia|].
  repeat (rewrite ?read_u64_spec, ?read_u32_spec, ?read_i64_spec by (done || lia);
    cbv beta iota zeta).
  reflexivity.
Qed.

Ltac msg_cbn :=
  cbn [seq_num symbol_id exchange_ts bid_price ask_price bid_size ask_size] in *.

(** Reads one field of a concatenation of big-endian fields. *)
Ltac read_field :=
  repeat (rewrite mem_read_skip_app by (rewrite length_be_bytes; lia);
          rewrite length_be_bytes; simpl (_ - _));
  first [rewrite mem_read_0_app by (by rewrite length_be_bytes)
        |rewrite mem_read_all by (by rewrite length_be_bytes)].

Lemma wire_parse_take data : wire_parse (take 44 data) = wire_parse data.
Proof. unfold wire_parse. by rewrite !mem_read_take by lia. Qed.

Lemma wire_parse_layout m : msg_ok m -> wire_parse (wire_layout m) = m.
Proof.
  destruct m as [sq sy ts b a bs az]. unfold msg_ok, wire_parse, wire_layout; msg_cbn.
  intros (?&?&?&?&?&?&?).
  f_equal; read_field; rewrite be_value_bytes; simpl (8 * _);
    rewrite ?wrapu_idemp, ?wraps_wrapu_small, ?wrapu_small by (done || lia); done.
Qed.

Lemma wire_layout_parse data :
  length data = 44%nat -> bytes_ok data -> wire_layout (wire_parse data) = data.
Proof.
  intros Hlen Hok. unfold wire_layout, wire_parse; msg_cbn.
  assert (Hv : forall off n, 0 <= off -> off + Z.of_nat n <= 44 ->
    let b := mem_read data off (Z.of_nat n) in
    be_bytes n (be_value b) = b /\ is_u (8 * Z.of_nat n) (be_value b)).
  { intros off n ? ? b.
    assert (length b = n) by (unfold b; rewrite length_mem_read; lia).
    assert (bytes_ok b) by (by apply mem_read_Forall).
    split; [by apply be_bytes_value|by apply be_value_range]. }
  pose proof (Hv 0 8%nat ltac:(lia) ltac:(lia)) as H0. pose proof (Hv 8 4%nat ltac:(lia) ltac:(lia)) as H1.
  pose proof (Hv 12 8%nat ltac:(lia) ltac:(lia)) as H2. pose proof (Hv 20 8%nat ltac:(lia) ltac:(lia)) as H3.
  pose proof (Hv 28 8%nat ltac:(lia) ltac:(lia)) as H4. pose proof (Hv 36 4%nat ltac:(lia) ltac:(lia)) as H5.
  pose proof (Hv 40 4%nat ltac:(lia) ltac:(lia)) as H6. clear Hv. cbv zeta in *.
  change (Z.of_nat 8) with 8 in *. change (Z.of_nat 4) with 4 in *.
  destruct H0 as [-> _], H1 as [-> _], H2 as [E2 R2], H3 as [E3 R3], H4 as [E4 R4],
    H5 as [E5 R5], H6 as [E6 R6].
  rewrite !wrapu_wraps_small by (done || lia). rewrite E2, E3, E4, E5, E6.
  rewrite <- (mem_read_all data 44) at 8 by lia.
  change 44 with (8 + (4 + (8 + (8 + (8 + (4 + 4)))))).
  rewrite !mem_read_split by lia. done.
Qed.

Lemma wire_parse_ok data :
  44 <= Z.of_nat (length data) -> bytes_ok data -> msg_ok (wire_parse data).
Proof.
  intros Hlen Hok. unfold msg_ok, wire_parse; msg_cbn.
  assert (Hv : forall off n, 0 <= off -> off + Z.of_nat n <= 44 ->
    is_u (8 * Z.of_nat n) (be_value (mem_read data off (Z.of_nat n)))).
  { intros off n ? ?. apply be_value_range; [|by apply mem_read_Forall].
    rewrite length_mem_read; lia. }
  repeat split; try apply (Hv _ 8%nat); try apply (Hv _ 4%nat); try lia;
    apply wraps_range; lia.
Qed.

(** ** Properties *)

(** C24 (round trip).  Whatever the byte orders of the sending and of the
    receiving host and whatever the indeterminate contents of [encode]'s array,
    decoding an encoded message with at least 44 bytes of claimed length
    returns [true] and the message, also when more bytes follow it. *)
Theorem decode_encode_roundtrip o o' out m tail len m0 :
  length out = 44%nat -> msg_ok m -> bytes_ok tail -> kWireSize <= len ->
  decode o' (encode o out m ++ tail) len m0 = (true, m).
Proof.
  intros Hout Hm Htail Hlen. rewrite encode_layout by done.
  rewrite decode_parse; [|done|rewrite length_app, length_wire_layout; lia|
    by apply Forall_app; split; [apply wire_layout_ok|]].
  rewrite <- wire_parse_take, take_app_length' by (by rewrite length_wire_layout).
  by rewrite wire_parse_layout.
Qed.

Definition sample_msg : MarketDataMsg :=
  mkMsg 18446744073709551615 7 (-1) (-10) 9223372036854775807 (-2147483648) 14.

Lemma decode_encode_roundtrip_witness :
  decode big_endian (encode little_endian (replicate 44 255) sample_msg ++ [1; 2]) 46 zero_msg
  = (true, sample_msg).
Proof.
  apply decode_encode_roundtrip.
  - reflexivity.
  - apply (bool_decide_unpack _). vm_compute. exact I.
  - repeat constructor; discriminate.
  - unfold kWireSize. lia.
Defined.

(** Network byte order.  [encode] produces 44 bytes, each field in
    big-endian order one after the other, and the result is the same on every
    host and for every initial content of the array. *)
Theorem encode_network_order o out m :
  length out = 44%nat ->
  encode o out m = wire_layout m /\
  Z.of_nat (length (encode o out m)) = kWireSize /\
  bytes_ok (encode o out m).
Proof.
  intros Hout. rewrite encode_layout by done.
  rewrite length_wire_layout. split_and!; [done|done|apply wire_layout_ok].
Qed.

Lemma encode_network_order_witness :
  encode little_endian (replicate 44 9) (mkMsg 258 3 (-1) 10 11 5 6)
  = [0;0;0;0;0;0;1;2; 0;0;0;3; 255;255;255;255;255;255;255;255;
     0;0;0;0;0;0;0;10; 0;0;0;0;0;0;0;11; 0;0;0;5; 0;0;0;6].
Proof. rewrite (proj1 (encode_network_order little_endian (replicate 44 9) _ eq_refl)). reflexivity. Defined.

(** C40 (completeness of the format).  Every sequence of 44 bytes decodes to a
    message whose fields are in the range of their types, and encoding that
    message gives the same 44 bytes back: the decoder loses no information. *)
Theorem encode_decode_roundtrip o o' out data m0 :
  length out = 44%nat -> length data = 44%nat -> bytes_ok data ->
  exists m, decode o data kWireSize m0 = (true, m) /\ msg_ok m /\ encode o' out m = data.
Proof.
  intros Hout Hlen Hok. exists (wire_parse data). split_and!.
  - apply decode_parse; [done|lia|done].
  - apply wire_parse_ok; [lia|done].
  - rewrite encode_layout by done. by apply wire_layout_parse.
Qed.

Lemma encode_decode_roundtrip_witness :
  exists m, decode little_endian (seqZ 200 44) kWireSize zero_msg = (true, m) /\ msg_ok m /\
    encode big_endian (replicate 44 0) m = seqZ 200 44.
Proof.
  apply encode_decode_roundtrip; [reflexivity|reflexivity|].
  apply (bool_decide_unpack _). vm_compute. exact I.
Defined.

(** Length guard.  [decode] fails exactly when the claimed length is below
    44, leaving its out-parameter untouched; otherwise it only looks at the
    first 44 bytes of the memory it is given. *)
Theorem decode_length_guard o data len m0 :
  44 <= Z.of_nat (length data) -> bytes_ok data ->
  ((decode o data len m0).1 = false <-> len < kWireSize) /\
  (len < kWireSize -> decode o data len m0 = (false, m0)) /\
  (kWireSize <= len -> decode o data len m0 = decode o (take 44 data) kWireSize m0).
Proof.
  intros Hlen Hok.
  assert (Hshort : len < kWireSize -> decode o data len m0 = (false, m0)).
  { intros. unfold decode. destruct (Z.ltb_spec len kWireSize); [done|lia]. }
  split_and!; [|done|].
  - split; [|intros H; by rewrite Hshort].
    intros Hf. destruct (Z.lt_ge_cases len kWireSize) as [|Hge]; [done|].
    by rewrite decode_parse in Hf.
  - intros Hge. rewrite !decode_parse; try done.
    + by rewrite wire_parse_take.
    + rewrite length_take. lia.
    + by apply Forall_take.
Qed.

Lemma decode_length_guard_witness :
  (decode little_endian (replicate 50 1) 43 sample_msg = (false, sample_msg)) /\
  (decode little_endian (replicate 50 1) 49 zero_msg
   = decode little_endian (take 44 (replicate 50 1)) kWireSize zero_msg).
Proof.
  assert (Hok : bytes_ok (replicate 50 1)).
  { apply (bool_decide_unpack _). vm_compute. exact I. }
  split.
  - apply (decode_length_guard little_endian _ 43 sample_msg); [vm_compute; discriminate|exact Hok|reflexivity].
  - apply (decode_length_guard little_endian _ 49 zero_msg); [vm_compute; discriminate|exact Hok|discriminate].
Defined.

(** Sanity check.  [sanityCheck] accepts exactly the messages with
    [0 <= bid <= ask], a positive ask and positive sizes (a null test on
    [ask_price] is enough for positivity). *)
Theorem sanityCheck_spec m :
  sanityCheck m = true <->
  0 <= bid_price m <= ask_price m /\ 0 < ask_price m /\ 0 < bid_size m /\ 0 < ask_size m.
Proof.
  unfold sanityCheck. rewrite !andb_true_iff, negb_true_iff.
  rewrite Z.eqb_neq, !Z.leb_le, !Z.ltb_lt. lia.
Qed.
