(* ===== verification/Ring.v ===== *)
(** * Ring: the power-of-two ring buffer

    Models [src/containers/ring_buffer.hpp] as the sequential object one thread
    sees, with its [size_t] counters that run freely and wrap at [2^64], and
    proves that it implements a bounded FIFO queue.  The interleavings of the
    producer and the consumer thread are the subject of [Spsc]. *)

From Stdlib Require Import ZArith Lia.
From stdpp Require Import base numbers list.
From S2P Require Import Prelude.

Local Open Scope Z_scope.

(** ** The contract of a bounded queue

    The abstract state is the list of the items queued, oldest first. *)

Definition spec_push {T} (cap : nat) (x : T) (q : list T) : bool * list T :=
  if decide (length q < cap)%nat then (true, q ++ [x]) else (false, q).

Definition spec_pop {T} (q : list T) : option T * list T :=
  match q with
  | [] => (None, [])
  | x :: q => (Some x, q)
  end.

(** What a queue component promises to its clients: an invariant, the list of
    its items, and operations that preserve the former and act on the latter as
    the specification does. *)
Class BoundedQueue (Q T : Type) := {
  q_inv : Q -> Prop;
  q_items : Q -> list T;
  q_cap : nat;
  q_push : T -> Q -> bool * Q;
  q_pop : Q -> option T * Q;
  q_bounded q : q_inv q -> (length (q_items q) <= q_cap)%nat;
  q_push_inv x q : q_inv q -> q_inv (q_push x q).2;
  q_push_refines x q :
    q_inv q -> ((q_push x q).1, q_items (q_push x q).2) = spec_push q_cap x (q_items q);
  q_pop_inv q : q_inv q -> q_inv (q_pop q).2;
  q_pop_refines q :
    q_inv q -> ((q_pop q).1, q_items (q_pop q).2) = spec_pop (q_items q)
}.

(** ** The class template

    The two [static_assert]s on the capacity, and its type. *)
Class RingCapacity (Capacity : Z) : Prop := {
  capacity_gt_1 : 1 < Capacity;
  capacity_pow2 : Z.land Capacity (Capacity - 1) = 0;
  capacity_size_t : is_u 64 Capacity
}.

Module RingBuffer.

Record t (T : Type) := mk {
  head_ : Z;   (* next index to read *)
  tail_ : Z;   (* next index to write *)
  buffer_ : list T
}.
Arguments mk {T}.
Arguments head_ {T}.
Arguments tail_ {T}.
Arguments buffer_ {T}.

Definition mask_ (Capacity : Z) : Z := Capacity - 1.

Section ops.
Context {T : Type} `{Inhabited T} (Capacity : Z).

Definition empty (rb : t T) : bool :=
  let h := head_ rb in
  let t := tail_ rb in
  h =? t.

Definition full (rb : t T) : bool :=
  let h := head_ rb in
  let t := tail_ rb in
  (t -% h) =? Capacity.

Definition reset (rb : t T) : t T := mk 0 0 (buffer_ rb).

(** [push] returns the value the member function returns and the new state. *)
Definition push (data : T) (rb : t T) : bool * t T :=
  let h := head_ rb in
  let t := tail_ rb in
  if (t -% h) =? Capacity then (false, rb)
  else (true, mk h (t +% 1) (arr_set (buffer_ rb) (Z.land t (mask_ Capacity)) data)).

(** [pop] returns the value written through the reference [data], [None] when
    the member function returns [false] and leaves [data] alone. *)
Definition pop (rb : t T) : option T * t T :=
  let h := head_ rb in
  let t := tail_ rb in
  if h =? t then (None, rb)
  else (Some (arr_get (buffer_ rb) (Z.land h (mask_ Capacity))),
        mk (h +% 1) t (buffer_ rb)).

End ops.
End RingBuffer.

(** ** Capacity arithmetic *)

Section capacity.
Context (C : Z) `{HC : RingCapacity C}.

Lemma capacity_log2 : exists k, 0 < k < 64 /\ C = 2 ^ k.
Proof.
  pose proof capacity_gt_1 as Hgt. pose proof capacity_pow2 as Hp.
  pose proof capacity_size_t as [_ Hs].
  pose proof (Z.log2_spec C ltac:(lia)) as [Hlo Hhi].
  pose proof (Z.log2_nonneg C) as Hnn. set (k := Z.log2 C) in *.
  assert (Hk : C = 2 ^ k).
  { destruct (Z.eq_dec C (2 ^ k)) as [|Hne]; [done|exfalso].
    assert (Hb : Z.testbit (Z.land C (C - 1)) k = true).
    { rewrite Z.land_spec. apply andb_true_intro. split.
      - apply Z.bit_log2. lia.
      - replace k with (Z.log2 (C - 1)); [apply Z.bit_log2; lia|].
        apply Z.log2_unique; lia. }
    by rewrite Hp, Z.bits_0 in Hb. }
  exists k. split; [|done]. split.
  - destruct (Z.eq_dec k 0) as [E|]; [|lia]. rewrite E in Hk. simpl in Hk. lia.
  - apply (Z.pow_lt_mono_r_iff 2); lia.
Qed.

Lemma mask_mod x : Z.land x (RingBuffer.mask_ C) = x mod C.
Proof.
  destruct capacity_log2 as (k & Hk & ->). unfold RingBuffer.mask_.
  rewrite <- Z.land_ones by lia. f_equal. rewrite Z.ones_equiv. lia.
Qed.

(** Masking ignores the wrap-around of the counter: the capacity divides [2^64]. *)
Lemma mask_u64 x : Z.land (u64 x) (RingBuffer.mask_ C) = x mod C.
Proof.
  rewrite mask_mod. destruct capacity_log2 as (k & Hk & ->). unfold wrapu.
  replace (2 ^ 64) with (2 ^ k * 2 ^ (64 - k)) by (rewrite <- Z.pow_add_r by lia; f_equal; lia).
  rewrite Z.rem_mul_r by lia.
  rewrite (Z.mul_comm (2 ^ k)), Z.mod_add by lia. apply Z.mod_mod. lia.
Qed.

Lemma capacity_le : C <= 2 ^ 63.
Proof.
  destruct capacity_log2 as (k & Hk & ->). apply Z.pow_le_mono_r; lia.
Qed.

(** Two positions less than a capacity apart are in different slots. *)
Lemma slot_ne a b : 0 < b - a < C -> a mod C <> b mod C.
Proof.
  intros Hd. pose proof capacity_gt_1. by apply mod_ne.
Qed.

End capacity.

(** ** Invariant and abstraction *)

Section refinement.
Context {T : Type} `{Inhabited T} (C : Z) `{HC : RingCapacity C}.
Implicit Types (rb : RingBuffer.t T) (x : T).

Definition ring_len rb : Z := RingBuffer.tail_ rb -% RingBuffer.head_ rb.

Definition ring_inv rb : Prop :=
  is_u 64 (RingBuffer.head_ rb) /\ is_u 64 (RingBuffer.tail_ rb) /\
  Z.of_nat (length (RingBuffer.buffer_ rb)) = C /\ ring_len rb <= C.

(** The item at distance [i] from the read counter. *)
Definition ring_nth rb (i : Z) : T :=
  arr_get (RingBuffer.buffer_ rb) ((RingBuffer.head_ rb + i) mod C).

Definition ring_items rb : list T := ring_nth rb <$> seqZ 0 (ring_len rb).

Lemma ring_len_range rb : 0 <= ring_len rb < 2 ^ 64.
Proof. apply (wrapu_range 64). lia. Qed.

Lemma length_ring_items rb : Z.of_nat (length (ring_items rb)) = ring_len rb.
Proof.
  unfold ring_items. rewrite length_fmap, length_seqZ.
  pose proof (ring_len_range rb). lia.
Qed.

Lemma ring_tail_mod rb :
  is_u 64 (RingBuffer.tail_ rb) ->
  Z.land (RingBuffer.tail_ rb) (RingBuffer.mask_ C)
  = (RingBuffer.head_ rb + ring_len rb) mod C.
Proof.
  intros Ht. rewrite <- (wrapu_small 64 (RingBuffer.tail_ rb)) by done.
  rewrite <- (mask_u64 C (_ + ring_len rb)). f_equal. unfold ring_len.
  rewrite wrapu_add_r. f_equal. lia.
Qed.

Lemma ring_len_push rb h' t' :
  h' = RingBuffer.head_ rb -> t' = RingBuffer.tail_ rb +% 1 ->
  ring_len rb + 1 < 2 ^ 64 ->
  wrapu 64 (t' - h') = ring_len rb + 1.
Proof.
  intros -> -> Hlt. rewrite wrapu_sub_l. unfold ring_len in *.
  replace (_ + 1 - _) with (RingBuffer.tail_ rb - RingBuffer.head_ rb + 1) by lia.
  rewrite <- wrapu_add_l. apply wrapu_small. split; [|done].
  pose proof (wrapu_range 64 (RingBuffer.tail_ rb - RingBuffer.head_ rb) ltac:(lia)) as [? _].
  lia.
Qed.

Lemma ring_len_pop rb h' t' :
  h' = RingBuffer.head_ rb +% 1 -> t' = RingBuffer.tail_ rb ->
  0 < ring_len rb ->
  wrapu 64 (t' - h') = ring_len rb - 1.
Proof.
  intros -> -> Hlt. rewrite wrapu_sub_r. unfold ring_len in *.
  replace (_ - (_ + 1)) with (RingBuffer.tail_ rb - RingBuffer.head_ rb - 1) by lia.
  rewrite <- wrapu_sub_l. apply wrapu_small. unfold is_u.
  pose proof (wrapu_range 64 (RingBuffer.tail_ rb - RingBuffer.head_ rb) ltac:(lia)) as [? ?].
  lia.
Qed.

Lemma ring_empty_iff rb :
  is_u 64 (RingBuffer.head_ rb) -> is_u 64 (RingBuffer.tail_ rb) ->
  RingBuffer.head_ rb = RingBuffer.tail_ rb <-> ring_len rb = 0.
Proof. unfold ring_len. intros. split; word_lia. Qed.

Lemma push_inv x rb : ring_inv rb -> ring_inv (RingBuffer.push C x rb).2.
Proof.
  intros (Hh & Ht & Hb & Hl). unfold RingBuffer.push.
  destruct (Z.eqb_spec (RingBuffer.tail_ rb -% RingBuffer.head_ rb) C) as [|Hne]; [done|].
  change (ring_len rb <> C) in Hne. pose proof capacity_size_t as [_ Hs].
  unfold ring_inv, ring_len at 1; simpl. split_and!; [done| |by rewrite length_arr_set|].
  - auto using wrapu_range with lia.
  - rewrite (ring_len_push rb) by (done || lia). lia.
Qed.

Lemma pop_inv rb : ring_inv rb -> ring_inv (RingBuffer.pop C rb).2.
Proof.
  intros (Hh & Ht & Hb & Hl). unfold RingBuffer.pop.
  destruct (Z.eqb_spec (RingBuffer.head_ rb) (RingBuffer.tail_ rb)) as [|Hne]; [done|].
  rewrite ring_empty_iff in Hne by done. pose proof (ring_len_range rb).
  unfold ring_inv, ring_len at 1; simpl. split_and!; [|done|done|].
  - auto using wrapu_range with lia.
  - rewrite (ring_len_pop rb) by (done || lia). lia.
Qed.

(** A store in the slot of the write counter leaves the queued items alone. *)
Lemma ring_nth_push x rb i :
  ring_inv rb -> ring_len rb < C -> 0 <= i < ring_len rb ->
  arr_get (arr_set (RingBuffer.buffer_ rb)
      (Z.land (RingBuffer.tail_ rb) (RingBuffer.mask_ C)) x)
    ((RingBuffer.head_ rb + i) mod C) = ring_nth rb i.
Proof.
  intros (Hh & Ht & Hb & Hl) Hlt Hi. pose proof (capacity_gt_1 (Capacity := C)).
  rewrite ring_tail_mod by done. unfold ring_nth. apply arr_get_set_ne.
  1,2: apply Z.mod_pos_bound; lia.
  apply not_eq_sym, slot_ne; [done|lia].
Qed.

Lemma push_refines x rb :
  ring_inv rb ->
  ((RingBuffer.push C x rb).1, ring_items (RingBuffer.push C x rb).2)
  = spec_push (Z.to_nat C) x (ring_items rb).
Proof.
  intros Hinv. pose proof Hinv as (Hh & Ht & Hb & Hl).
  pose proof capacity_gt_1 as Hgt. pose proof capacity_size_t as [_ Hs].
  pose proof (length_ring_items rb) as Hlen. pose proof (ring_len_range rb) as Hr.
  unfold RingBuffer.push, spec_push.
  destruct (Z.eqb_spec (RingBuffer.tail_ rb -% RingBuffer.head_ rb) C) as [He|Hne];
    case_decide as Hd.
  { change (ring_len rb = C) in He. lia. }
  { done. }
  2: { change (ring_len rb <> C) in Hne. lia. }
  change (ring_len rb <> C) in Hne. simpl. f_equal.
  unfold ring_items at 1, ring_len at 1; simpl.
  rewrite (ring_len_push rb), seqZ_snoc by (done || lia).
  rewrite fmap_app. f_equal.
  - apply list_fmap_ext. intros k i Hk. apply lookup_seqZ in Hk as [-> Hk].
    apply (ring_nth_push x rb); [done|lia|lia].
  - simpl. f_equal. unfold ring_nth; simpl. rewrite ring_tail_mod by done.
    apply arr_get_set_eq. rewrite Hb. apply Z.mod_pos_bound. lia.
Qed.

Lemma pop_refines rb :
  ring_inv rb ->
  ((RingBuffer.pop C rb).1, ring_items (RingBuffer.pop C rb).2)
  = spec_pop (ring_items rb).
Proof.
  intros Hinv. pose proof Hinv as (Hh & Ht & Hb & Hl).
  pose proof capacity_gt_1 as Hgt. pose proof (ring_len_range rb) as Hr.
  unfold RingBuffer.pop.
  destruct (Z.eqb_spec (RingBuffer.head_ rb) (RingBuffer.tail_ rb)) as [He|Hne];
    rewrite ring_empty_iff in * by done.
  - simpl. unfold ring_items. rewrite He. done.
  - unfold ring_items at 2. rewrite seqZ_cons by lia. simpl. f_equal.
    { f_equal. unfold ring_nth. rewrite mask_mod by done. do 2 f_equal. lia. }
    unfold ring_items at 1, ring_len at 1; simpl.
    rewrite (ring_len_pop rb) by (done || lia).
    replace (Z.succ 0) with (1 + 0) by lia. rewrite <- fmap_add_seqZ, <- list_fmap_compose.
    replace (Z.pred (ring_len rb)) with (ring_len rb - 1) by lia.
    apply list_fmap_ext. intros k i _. unfold ring_nth, compose; simpl. f_equal.
    rewrite <- (mask_u64 C (_ + _)), wrapu_add_l, mask_u64 by done. f_equal. lia.
Qed.

#[global] Program Instance RingBuffer_BoundedQueue : BoundedQueue (RingBuffer.t T) T := {
  q_inv := ring_inv;
  q_items := ring_items;
  q_cap := Z.to_nat C;
  q_push := RingBuffer.push C;
  q_pop := RingBuffer.pop C;
  q_push_inv := push_inv;
  q_push_refines := push_refines;
  q_pop_inv := pop_inv;
  q_pop_refines := pop_refines
}.
Next Obligation.
  intros rb (Hh & Ht & Hb & Hl). pose proof (length_ring_items rb). lia.
Qed.

End refinement.

(** ** push, one access at a time

    For a ring that more than one thread pushes to, the member function is cut at
    its accesses: [head_.load], [tail_.load] with the test for a full ring, the
    write of the cell, [tail_.store]. *)

Inductive push_pc :=
  | PushHead
  | PushTail (h : Z)
  | PushWrite (t : Z)
  | PushStore (t : Z).

#[global] Instance push_pc_eq_dec : EqDecision push_pc.
Proof. solve_decision. Defined.

(** The next access of [push(data)]; [None]: the call returns. *)
Definition push_access {T} (C : Z) (data : T) (pc : push_pc) (rb : RingBuffer.t T)
    : RingBuffer.t T * option push_pc :=
  let '(RingBuffer.mk head tail buffer) := rb in
  match pc with
  | PushHead => (rb, Some (PushTail head))
  | PushTail h => (rb, if (tail -% h) =? C then None else Some (PushWrite tail))
  | PushWrite t =>
      (RingBuffer.mk head tail (arr_set buffer (Z.land t (RingBuffer.mask_ C)) data),
       Some (PushStore t))
  | PushStore t => (RingBuffer.mk head (t +% 1) buffer, None)
  end.

Fixpoint push_accesses {T} (fuel : nat) (C : Z) (data : T) (pc : push_pc) (rb : RingBuffer.t T)
    : RingBuffer.t T * option push_pc :=
  match fuel with
  | O => (rb, Some pc)
  | S fuel =>
      match push_access C data pc rb with
      | (rb, Some pc) => push_accesses fuel C data pc rb
      | (rb, None) => (rb, None)
      end
  end.

(** Alone, the four accesses are [push]. *)
Lemma push_accesses_alone {T} (C : Z) (data : T) rb :
  push_accesses 4 C data PushHead rb = ((RingBuffer.push C data rb).2, None).
Proof.
  destruct rb as [h t buf]. unfold RingBuffer.push. simpl. by destruct (t -% h =? C).
Qed.

(** What a thread in the middle of a push relies on while no other pushes: the
    full test cannot succeed, the write counter and the cell are as it left them. *)
Definition push_ok {T} `{Inhabited T} (C : Z) (data : T) (pc : push_pc) (rb : RingBuffer.t T)
    : Prop :=
  match pc with
  | PushHead => True
  | PushTail h => (RingBuffer.tail_ rb -% h =? C) = false
  | PushWrite t => t = RingBuffer.tail_ rb
  | PushStore t =>
      t = RingBuffer.tail_ rb /\
      arr_get (RingBuffer.buffer_ rb) (Z.land t (RingBuffer.mask_ C)) = data
  end.

Section push_accesses.
Context {T : Type} `{Inhabited T} (C : Z) `{HC : RingCapacity C}.
Implicit Types (rb : RingBuffer.t T) (x : T).

(** The item to be pushed has a cell of its own. *)
Definition has_room rb : Prop := (length (ring_items C rb) < Z.to_nat C)%nat.

(** Every access but the store leaves the queued items alone, and the store
    appends the item: the push takes effect there. *)
Lemma push_access_spec x pc rb :
  ring_inv C rb -> has_room rb -> push_ok C x pc rb ->
  let '(rb', pc') := push_access C x pc rb in
  ring_inv C rb' /\
  match pc' with
  | Some pc' => ring_items C rb' = ring_items C rb /\ push_ok C x pc' rb'
  | None => rb' = (RingBuffer.push C x rb).2 /\ (RingBuffer.push C x rb).1 = true
  end.
Proof.
  intros I Hroom Hok. pose proof I as (Hh & Ht & Hb & Hl).
  pose proof (length_ring_items C rb) as Hlen. unfold has_room in Hroom.
  assert (Hne : ring_len rb < C) by lia. pose proof (capacity_gt_1 (Capacity := C)).
  assert (Hcell : 0 <= Z.land (RingBuffer.tail_ rb) (RingBuffer.mask_ C) < C).
  { rewrite mask_mod by done. apply Z.mod_pos_bound. lia. }
  destruct rb as [head tail buf], pc as [|h|t|t]; cbn [push_access push_ok RingBuffer.tail_
    RingBuffer.head_ RingBuffer.buffer_] in *.
  - split_and!; [done|done|]. apply Z.eqb_neq. change (ring_len (RingBuffer.mk head tail buf) <> C). lia.
  - rewrite Hok. by split_and!.
  - subst t. split; [|split; [|split; [done|]]].
    + split_and!; [done|done|cbn; by rewrite length_arr_set|done].
    + unfold ring_items at 1. apply list_fmap_ext. intros k i Hk. apply lookup_seqZ in Hk as [-> Hk].
      change (ring_len (RingBuffer.mk head tail (arr_set buf (Z.land tail (RingBuffer.mask_ C)) x)))
        with (ring_len (RingBuffer.mk head tail buf)) in Hk.
      apply (ring_nth_push C x (RingBuffer.mk head tail buf)); [done|lia|lia].
    + apply arr_get_set_eq. cbn. lia.
  - destruct Hok as [-> Hx].
    assert (Hpush : RingBuffer.push C x (RingBuffer.mk head tail buf)
      = (true, RingBuffer.mk head (tail +% 1) buf)).
    { unfold RingBuffer.push; cbn.
      change (tail -% head) with (ring_len (RingBuffer.mk head tail buf)).
      destruct (Z.eqb_spec (ring_len (RingBuffer.mk head tail buf)) C); [lia|].
      do 2 f_equal. unfold arr_set, arr_get in *. rewrite <- Hx. apply list_insert_id.
      apply list_lookup_lookup_total_lt. lia. }
    rewrite Hpush. split; [|done]. pose proof (push_inv C x _ I) as I'. by rewrite Hpush in I'.
Qed.

(** A pop by the ring's consumer does not disturb the push. *)
Lemma push_ok_pop x pc rb : push_ok C x pc rb -> push_ok C x pc (RingBuffer.pop C rb).2.
Proof. unfold RingBuffer.pop. by destruct (_ =? _), pc. Qed.

End push_accesses.

(** ** Sequences of operations *)

Inductive ring_op (T : Type) := OpPush (x : T) | OpPop | OpEmpty | OpFull | OpReset.
Arguments OpPush {T}.
Arguments OpPop {T}.
Arguments OpEmpty {T}.
Arguments OpFull {T}.
Arguments OpReset {T}.

Inductive ring_reply (T : Type) := RBool (b : bool) | RItem (o : option T) | RUnit.
Arguments RBool {T}.
Arguments RItem {T}.
Arguments RUnit {T}.

Definition ring_apply {T} `{Inhabited T} (C : Z) (op : ring_op T) (rb : RingBuffer.t T)
    : ring_reply T * RingBuffer.t T :=
  match op with
  | OpPush x => let '(b, rb) := RingBuffer.push C x rb in (RBool b, rb)
  | OpPop => let '(o, rb) := RingBuffer.pop C rb in (RItem o, rb)
  | OpEmpty => (RBool (RingBuffer.empty rb), rb)
  | OpFull => (RBool (RingBuffer.full C rb), rb)
  | OpReset => (RUnit, RingBuffer.reset rb)
  end.

Definition spec_apply {T} (cap : nat) (op : ring_op T) (q : list T) : ring_reply T * list T :=
  match op with
  | OpPush x => let '(b, q) := spec_push cap x q in (RBool b, q)
  | OpPop => let '(o, q) := spec_pop q in (RItem o, q)
  | OpEmpty => (RBool (bool_decide (length q = 0%nat)), q)
  | OpFull => (RBool (bool_decide (length q = cap)), q)
  | OpReset => (RUnit, [])
  end.

(** Runs a list of operations, collecting the replies. *)
Fixpoint run_ops {S O R} (f : O -> S -> R * S) (ops : list O) (s : S) : list R * S :=
  match ops with
  | [] => ([], s)
  | op :: ops =>
      let '(r, s) := f op s in
      let '(rs, s) := run_ops f ops s in (r :: rs, s)
  end.

Section sequences.
Context {T : Type} `{Inhabited T} (C : Z) `{HC : RingCapacity C}.
Implicit Types (rb : RingBuffer.t T).

Lemma reset_spec rb : ring_inv C rb -> ring_inv C (RingBuffer.reset rb) /\
  ring_items C (RingBuffer.reset rb) = [].
Proof.
  intros (_ & _ & Hb & _). pose proof (capacity_gt_1 (Capacity := C)).
  unfold ring_inv, RingBuffer.reset, ring_items, ring_len; simpl.
  change (0 -% 0) with 0. unfold is_u. split_and!; (done || lia).
Qed.

Lemma empty_spec rb :
  ring_inv C rb -> RingBuffer.empty rb = bool_decide (length (ring_items C rb) = 0%nat).
Proof.
  intros (Hh & Ht & _ & _). unfold RingBuffer.empty.
  pose proof (length_ring_items C rb). case_bool_decide as Hd.
  - apply Z.eqb_eq. apply ring_empty_iff; [done|done|lia].
  - apply Z.eqb_neq. rewrite ring_empty_iff by done. lia.
Qed.

Lemma full_spec rb :
  ring_inv C rb ->
  RingBuffer.full C rb = bool_decide (length (ring_items C rb) = Z.to_nat C).
Proof.
  intros (Hh & Ht & _ & _). unfold RingBuffer.full.
  change (RingBuffer.tail_ rb -% RingBuffer.head_ rb) with (ring_len rb).
  pose proof (length_ring_items C rb). pose proof (capacity_gt_1 (Capacity := C)).
  case_bool_decide; [apply Z.eqb_eq|apply Z.eqb_neq]; lia.
Qed.

Lemma ring_apply_refines op rb :
  ring_inv C rb ->
  ring_inv C (ring_apply C op rb).2 /\
  ((ring_apply C op rb).1, ring_items C (ring_apply C op rb).2)
  = spec_apply (Z.to_nat C) op (ring_items C rb).
Proof.
  intros Hinv. destruct op as [x| | | |]; simpl.
  - pose proof (push_inv C x rb Hinv). pose proof (push_refines C x rb Hinv) as Hr.
    destruct (RingBuffer.push C x rb), (spec_push _ x _); simpl in *. by simplify_eq.
  - pose proof (pop_inv C rb Hinv). pose proof (pop_refines C rb Hinv) as Hr.
    destruct (RingBuffer.pop C rb), (spec_pop _); simpl in *. by simplify_eq.
  - by rewrite empty_spec.
  - by rewrite full_spec.
  - destruct (reset_spec rb Hinv) as [? ->]. done.
Qed.

(** C9 (refinement).  From any state satisfying the invariant, in particular
    with counters anywhere in the [size_t] range so that they wrap around
    [2^64] during the run, every sequence of [push], [pop], [empty], [full] and
    [reset] calls returns exactly the values a FIFO queue bounded by the
    capacity returns, and ends in a state satisfying the invariant. *)
Theorem ring_refines_fifo ops rb :
  ring_inv C rb ->
  (run_ops (ring_apply C) ops rb).1 = (run_ops (spec_apply (Z.to_nat C)) ops (ring_items C rb)).1
  /\ ring_items C (run_ops (ring_apply C) ops rb).2
     = (run_ops (spec_apply (Z.to_nat C)) ops (ring_items C rb)).2
  /\ ring_inv C (run_ops (ring_apply C) ops rb).2.
Proof.
  revert rb. induction ops as [|op ops IH]; intros rb Hinv; [done|].
  destruct (ring_apply_refines op rb Hinv) as [Hi He].
  cbn [run_ops]. destruct (ring_apply C op rb) as [r rb'] eqn:E.
  destruct (spec_apply (Z.to_nat C) op (ring_items C rb)) as [r' q'].
  cbn [fst snd] in *. simplify_eq. specialize (IH rb' Hi).
  destruct (run_ops (ring_apply C) ops rb'), (run_ops (spec_apply _) ops _).
  cbn [fst snd] in *. by destruct IH as (-> & -> & ?).
Qed.

End sequences.

#[global] Instance capacity_8 : RingCapacity 8.
Proof. split; vm_compute; try done; split; discriminate. Qed.

(** The write counter is one step before its wrap-around. *)
Definition wrapping_ring : RingBuffer.t Z :=
  RingBuffer.mk (2 ^ 64 - 2) (2 ^ 64 - 1) [0; 10; 20; 30; 40; 50; 60; 70].

Lemma ring_refines_fifo_witness :
  (run_ops (ring_apply 8) [OpPush 1; OpPush 2; OpPop; OpFull; OpPop; OpPop; OpPop]
     wrapping_ring).1
  = [RBool true; RBool true; RItem (Some 60); RBool false; RItem (Some 1); RItem (Some 2);
     RItem None].
Proof.
  rewrite (proj1 (ring_refines_fifo 8 _ wrapping_ring ltac:(vm_compute; intuition discriminate))).
  vm_compute. reflexivity.
Defined.
