(* ===== verification/Spsc.v ===== *)
(** * Spsc: the ring buffer shared by two threads

    The interleaving semantics of [RingBuffer::push] and [RingBuffer::pop]
    ([src/containers/ring_buffer.hpp]) at the granularity of their atomic
    accesses.  An atomic counter is the history of the values stored in it.  A
    thread reads the counter it owns (a relaxed load) as last stored; it reads
    the other thread's counter (an acquire load) at any point of its history
    that is not older than what it has read before, so that a load may be
    arbitrarily stale.  The cells are plain memory.

    The number of producers is a parameter of the initial state: one for the
    documented use of the class, two for the way the free list of engine v2 is
    used. *)

From Stdlib Require Import ZArith Lia.
From stdpp Require Import base numbers list relations.
From S2P Require Import Prelude Ring.

Local Open Scope Z_scope.

(** ** Program counters

    One constructor per point between two memory accesses of [push] (resp.
    [pop]), carrying the local variables that are live there. *)

Inductive push_pc (T : Type) :=
  | P_idle
  | P_load_tail (data : T) (h : Z)
  | P_test (data : T) (h t : Z)
  | P_write (data : T) (t : Z)
  | P_store (data : T) (t : Z).
Arguments P_idle {T}.
Arguments P_load_tail {T}.
Arguments P_test {T}.
Arguments P_write {T}.
Arguments P_store {T}.

Inductive pop_pc (T : Type) :=
  | C_idle
  | C_load_tail (h : Z)
  | C_test (h t : Z)
  | C_read (h : Z)
  | C_store (data : T) (h : Z).
Arguments C_idle {T}.
Arguments C_load_tail {T}.
Arguments C_test {T}.
Arguments C_read {T}.
Arguments C_store {T}.

(** A producer thread: where it is in [push] and the newest store of [head_]
    it has observed. *)
Record producer (T : Type) := mkProducer { p_pc : push_pc T; p_view : nat }.
Arguments mkProducer {T}.
Arguments p_pc {T}.
Arguments p_view {T}.

(** [pushed] and [popped] record the items of the calls that returned [true],
    in the order of their final stores. *)
Record shared (T : Type) := mkShared {
  head_hist : list Z;
  tail_hist : list Z;
  cells : list T;
  prods : list (producer T);
  c_pc : pop_pc T;
  c_view : nat;
  pushed : list T;
  popped : list T
}.
Arguments mkShared {T}.
Arguments head_hist {T}.
Arguments tail_hist {T}.
Arguments cells {T}.
Arguments prods {T}.
Arguments c_pc {T}.
Arguments c_view {T}.
Arguments pushed {T}.
Arguments popped {T}.

Section semantics.
Context {T : Type} `{Inhabited T} (C : Z).
Implicit Types (s : shared T) (p : producer T) (x : T).

(** ** Threads' steps *)

Definition set_producer s (i : nat) (pc : push_pc T) (v : nat) : shared T :=
  mkShared (head_hist s) (tail_hist s) (cells s) (<[i := mkProducer pc v]> (prods s))
    (c_pc s) (c_view s) (pushed s) (popped s).

Definition set_consumer s (pc : pop_pc T) (v : nat) : shared T :=
  mkShared (head_hist s) (tail_hist s) (cells s) (prods s) pc v (pushed s) (popped s).

Definition store_cell s (i : Z) x : shared T :=
  mkShared (head_hist s) (tail_hist s) (arr_set (cells s) i x) (prods s)
    (c_pc s) (c_view s) (pushed s) (popped s).

Definition store_tail s (t : Z) x : shared T :=
  mkShared (head_hist s) (tail_hist s ++ [t]) (cells s) (prods s)
    (c_pc s) (c_view s) (pushed s ++ [x]) (popped s).

Definition store_head s (h : Z) x : shared T :=
  mkShared (head_hist s ++ [h]) (tail_hist s) (cells s) (prods s)
    (c_pc s) (c_view s) (pushed s) (popped s ++ [x]).

Inductive push_step (s : shared T) : shared T -> Prop :=
  | push_load_head i v x k h :
      prods s !! i = Some (mkProducer P_idle v) ->
      (v <= k)%nat -> head_hist s !! k = Some h ->
      push_step s (set_producer s i (P_load_tail x h) k)
  | push_load_tail i v x h t :
      prods s !! i = Some (mkProducer (P_load_tail x h) v) ->
      last (tail_hist s) = Some t ->
      push_step s (set_producer s i (P_test x h t) v)
  | push_full i v x h t :
      prods s !! i = Some (mkProducer (P_test x h t) v) ->
      t -% h = C ->
      push_step s (set_producer s i P_idle v)
  | push_not_full i v x h t :
      prods s !! i = Some (mkProducer (P_test x h t) v) ->
      t -% h <> C ->
      push_step s (set_producer s i (P_write x t) v)
  | push_write i v x t :
      prods s !! i = Some (mkProducer (P_write x t) v) ->
      push_step s
        (store_cell (set_producer s i (P_store x t) v) (Z.land t (RingBuffer.mask_ C)) x)
  | push_store i v x t :
      prods s !! i = Some (mkProducer (P_store x t) v) ->
      push_step s (store_tail (set_producer s i P_idle v) (t +% 1) x).

Inductive pop_step (s : shared T) : shared T -> Prop :=
  | pop_load_head h :
      c_pc s = C_idle -> last (head_hist s) = Some h ->
      pop_step s (set_consumer s (C_load_tail h) (c_view s))
  | pop_load_tail h k t :
      c_pc s = C_load_tail h -> (c_view s <= k)%nat -> tail_hist s !! k = Some t ->
      pop_step s (set_consumer s (C_test h t) k)
  | pop_empty h t :
      c_pc s = C_test h t -> h = t ->
      pop_step s (set_consumer s C_idle (c_view s))
  | pop_not_empty h t :
      c_pc s = C_test h t -> h <> t ->
      pop_step s (set_consumer s (C_read h) (c_view s))
  | pop_read h :
      c_pc s = C_read h ->
      pop_step s (set_consumer s
        (C_store (arr_get (cells s) (Z.land h (RingBuffer.mask_ C))) h) (c_view s))
  | pop_store x h :
      c_pc s = C_store x h ->
      pop_step s (store_head (set_consumer s C_idle (c_view s)) (h +% 1) x).

Definition step s s' : Prop := push_step s s' \/ pop_step s s'.

(** A fresh ring over any cell contents, with [n] producer threads. *)
Definition init_shared (n : nat) (cs : list T) : shared T :=
  mkShared [0] [0] cs (replicate n (mkProducer P_idle 0)) C_idle 0 [] [].

Definition reachable (n : nat) s : Prop :=
  exists cs, Z.of_nat (length cs) = C /\ rtc step (init_shared n cs) s.

(** Two unsynchronised plain accesses to the same cell, one of them a write. *)
Definition race s : Prop :=
  exists i v x t h,
    prods s !! i = Some (mkProducer (P_write x t) v) /\ c_pc s = C_read h /\
    Z.land t (RingBuffer.mask_ C) = Z.land h (RingBuffer.mask_ C).

(** ** The invariant of one producer and one consumer *)

Definition counts (n : nat) : list Z := (fun i => u64 (Z.of_nat i)) <$> seq 0 (S n).

Definition push_inv_at (hd tl : nat) s (v : nat) (pc : push_pc T) : Prop :=
  match pc with
  | P_idle => True
  | P_load_tail _ h => h = u64 (Z.of_nat v)
  | P_test _ h t => h = u64 (Z.of_nat v) /\ t = u64 (Z.of_nat tl)
  | P_write _ t => t = u64 (Z.of_nat tl) /\ Z.of_nat tl < Z.of_nat v + C
  | P_store x t => t = u64 (Z.of_nat tl) /\ Z.of_nat tl < Z.of_nat v + C /\
      arr_get (cells s) (Z.of_nat tl mod C) = x
  end.

Definition pop_inv_at (hd tl : nat) s : Prop :=
  match c_pc s with
  | C_idle => True
  | C_load_tail h => h = u64 (Z.of_nat hd)
  | C_test h t => h = u64 (Z.of_nat hd) /\ t = u64 (Z.of_nat (c_view s))
  | C_read h => h = u64 (Z.of_nat hd) /\ (hd < c_view s)%nat
  | C_store x h => h = u64 (Z.of_nat hd) /\ (hd < c_view s)%nat /\ pushed s !! hd = Some x
  end.

Record spsc_inv s (hd tl v : nat) (pc : push_pc T) : Prop := {
  inv_prods : prods s = [mkProducer pc v];
  inv_head : head_hist s = counts hd;
  inv_tail : tail_hist s = counts tl;
  inv_cells : Z.of_nat (length (cells s)) = C;
  inv_pushed : length (pushed s) = tl;
  inv_popped : popped s = take hd (pushed s);
  inv_order : (v <= hd <= c_view s)%nat /\ (c_view s <= tl)%nat;
  inv_room : Z.of_nat tl <= Z.of_nat v + C;
  inv_items : forall i x, (hd <= i)%nat -> pushed s !! i = Some x ->
    arr_get (cells s) (Z.of_nat i mod C) = x;
  inv_push : push_inv_at hd tl s v pc;
  inv_pop : pop_inv_at hd tl s
}.

Lemma counts_lookup n k z : counts n !! k = Some z -> z = u64 (Z.of_nat k) /\ (k <= n)%nat.
Proof.
  unfold counts. rewrite list_lookup_fmap_Some. intros (i & -> & Hi).
  apply lookup_seq in Hi as [-> ?]. split; [done|lia].
Qed.

Lemma counts_last n : last (counts n) = Some (u64 (Z.of_nat n)).
Proof. unfold counts. rewrite seq_S, fmap_app. simpl. by rewrite last_snoc. Qed.

Lemma counts_snoc n : counts n ++ [u64 (Z.of_nat n) +% 1] = counts (S n).
Proof.
  unfold counts. rewrite (seq_S (S n)), fmap_app. simpl. do 2 f_equal.
  rewrite wrapu_add_l. f_equal. f_equal. lia.
Qed.

End semantics.

(** ** Preservation *)

Section invariant.
Context {T : Type} `{Inhabited T} (C : Z) `{HC : RingCapacity C}.
Implicit Types (s : shared T) (x : T).

Lemma singleton_producer s (i v v' : nat) (pc pc' : push_pc T) :
  prods s = [mkProducer pc v] -> prods s !! i = Some (mkProducer pc' v') ->
  i = 0%nat /\ pc = pc' /\ v = v'.
Proof. intros ->. destruct i; simpl; [|done]. by intros [= <- <-]. Qed.

(** The full test compares the true number of items with the capacity, although
    both counters are known modulo [2^64] only. *)
Lemma u64_distance a b :
  0 <= a - b < 2 ^ 64 -> (u64 a -% u64 b) = a - b.
Proof. intros. rewrite wrapu_sub_l, wrapu_sub_r. apply wrapu_small. exact H0. Qed.

Lemma push_step_inv s s' hd tl v pc :
  spsc_inv C s hd tl v pc -> push_step C s s' ->
  exists tl' v' pc', spsc_inv C s' hd tl' v' pc'.
Proof.
  intros I Hs. pose proof I as [Hp Hh Ht Hc Hpu Hpo [Ho1 Ho2] Hr Hi Hpi Hci].
  pose proof (capacity_gt_1 (Capacity := C)). pose proof (capacity_le C).
  assert (Hbig : 2 ^ 63 < 2 ^ 64) by lia.
  destruct Hs as [i v' x k h Hl Hv Hk|i v' x h t Hl Hlast|i v' x h t Hl Hfull
    |i v' x h t Hl Hfull|i v' x t Hl|i v' x t Hl];
    destruct (singleton_producer s i v v' pc _ Hp Hl) as (-> & -> & ->); clear Hl;
    cbn [push_inv_at] in Hpi.
  - rewrite Hh in Hk. apply counts_lookup in Hk as [-> Hk].
    exists tl, k, (P_load_tail x (u64 (Z.of_nat k))).
    split; simpl; try done; [by rewrite Hp|lia|lia].
  - rewrite Ht, counts_last in Hlast. injection Hlast as <-.
    exists tl, v', (P_test x h (u64 (Z.of_nat tl))).
    split; simpl; try done. by rewrite Hp.
  - exists tl, v', P_idle. split; simpl; try done. by rewrite Hp.
  - exists tl, v', (P_write x t). split; simpl; try done; [by rewrite Hp|].
    destruct Hpi as [-> ->]. split; [done|].
    rewrite u64_distance in Hfull by lia. lia.
  - destruct Hpi as [-> Hlt]. exists tl, v', (P_store x (u64 (Z.of_nat tl))).
    assert (Hslot : Z.land (u64 (Z.of_nat tl)) (RingBuffer.mask_ C) = Z.of_nat tl mod C)
      by (by apply mask_u64).
    split; simpl; try done; rewrite ?Hslot, ?length_arr_set; try done.
    + by rewrite Hp.
    + intros i y Hge Hy. rewrite arr_get_set_ne; [by apply Hi|apply Z.mod_pos_bound; lia..|].
      apply not_eq_sym, slot_ne; [done|]. apply lookup_lt_Some in Hy. lia.
    + split_and!; [done|done|]. apply arr_get_set_eq. rewrite Hc. apply Z.mod_pos_bound. lia.
  - destruct Hpi as (-> & Hlt & Hx). exists (S tl), v', P_idle.
    split; simpl; try done; try lia.
    + by rewrite Hp.
    + by rewrite Ht, counts_snoc.
    + rewrite length_app. simpl. lia.
    + by rewrite take_app_le by lia.
    + intros i y Hge Hy. apply lookup_app_Some in Hy as [Hy|[Hge' Hy]]; [by apply Hi|].
      apply list_lookup_singleton_Some in Hy as [Hi0 <-].
      by replace (Z.of_nat i) with (Z.of_nat tl) by lia.
    + unfold pop_inv_at in *; simpl. destruct (c_pc s); try done.
      destruct Hci as (? & ? & Hl). split_and!; [done|done|].
      by apply lookup_app_l_Some.
Qed.

Lemma pop_step_inv s s' hd tl v pc :
  spsc_inv C s hd tl v pc -> pop_step C s s' ->
  exists hd', spsc_inv C s' hd' tl v pc.
Proof.
  intros I Hs. pose proof I as [Hp Hh Ht Hc Hpu Hpo [Ho1 Ho2] Hr Hi Hpi Hci].
  pose proof (capacity_gt_1 (Capacity := C)). pose proof (capacity_le C).
  assert (Hbig : 2 ^ 63 < 2 ^ 64) by lia.
  destruct Hs as [h Hpc Hlast|h k t Hpc Hv Hk|h t Hpc He|h t Hpc Hne|h Hpc|x h Hpc];
    unfold pop_inv_at in Hci; rewrite Hpc in Hci.
  - rewrite Hh, counts_last in Hlast. injection Hlast as <-.
    exists hd. by split.
  - rewrite Ht in Hk. apply counts_lookup in Hk as [-> Hk].
    exists hd. split; simpl; try done. lia.
  - exists hd. by split.
  - exists hd. split; try done. cbn. destruct Hci as [-> ->]. split; [done|].
    destruct (decide (hd < c_view s)%nat) as [|Hge]; [done|].
    replace (c_view s) with hd in Hne by lia. done.
  - exists hd. split; try done. cbn. destruct Hci as [-> Hlt]. split_and!; [done|done|].
    destruct (lookup_lt_is_Some_2 (pushed s) hd) as [x Hx]; [lia|].
    rewrite mask_u64 by done. by rewrite (Hi hd x).
  - destruct Hci as (-> & Hlt & Hx). exists (S hd).
    split; simpl; try done; try lia.
    + by rewrite Hh, counts_snoc.
    + rewrite Hpo. symmetry. by apply take_S_r.
    + intros i y Hge Hy. apply Hi; [lia|done].
Qed.

Lemma init_inv (cs : list T) :
  Z.of_nat (length cs) = C -> spsc_inv C (init_shared 1 cs) 0 0 0 P_idle.
Proof.
  intros. pose proof (capacity_gt_1 (Capacity := C)).
  split; simpl; try done; lia.
Qed.

Lemma reachable_inv s :
  reachable C 1 s -> exists hd tl v pc, spsc_inv C s hd tl v pc.
Proof.
  intros (cs & Hcs & Hrtc).
  assert (Hinit : exists hd tl v pc, spsc_inv C (init_shared 1 cs) hd tl v pc)
    by (do 4 eexists; by apply init_inv).
  revert Hinit. induction Hrtc as [s|s1 s2 s3 Hstep _ IH]; [done|].
  intros (hd & tl & v & pc & I). apply IH. destruct Hstep as [Hs|Hs].
  - destruct (push_step_inv _ _ _ _ _ _ I Hs) as (tl' & v' & pc' & I'). eauto.
  - destruct (pop_step_inv _ _ _ _ _ _ I Hs) as (hd' & I'). eauto.
Qed.

(** ** Properties of the single-producer, single-consumer ring *)

(** C2 (linearisation).  In every interleaving of one producer and one consumer,
    with arbitrarily stale reads of the other side's counter, the items popped
    are the first items pushed, in order: nothing is lost, duplicated or
    reordered, and at most [Capacity] items are in flight. *)
Theorem spsc_fifo s :
  reachable C 1 s ->
  popped s = take (length (popped s)) (pushed s) /\
  (length (popped s) <= length (pushed s))%nat /\
  Z.of_nat (length (pushed s)) <= Z.of_nat (length (popped s)) + C.
Proof.
  intros (hd & tl & v & pc & [Hp Hh Ht Hc Hpu Hpo [Ho1 Ho2] Hr Hi Hpi Hci])%reachable_inv.
  assert (Hlen : length (popped s) = hd) by (rewrite Hpo, length_take; lia).
  rewrite Hlen. split_and!; [done|lia|lia].
Qed.

(** C36 (data-race freedom).  In every interleaving of one producer and one
    consumer, when the producer is about to write a cell the consumer is not
    about to read that cell; moreover every earlier item of that cell was
    already released by a store of [head_] the producer has acquired, and a
    consumer about to read a cell has acquired the store of [tail_] that
    published its item: the plain accesses to the cells are ordered by the
    release/acquire pairs on the counters. *)
Theorem spsc_race_free s :
  reachable C 1 s ->
  ~ race C s /\
  (forall x t v i, prods s !! i = Some (mkProducer (P_write x t) v) ->
     forall j, (j < length (pushed s))%nat ->
       Z.of_nat j mod C = Z.of_nat (length (pushed s)) mod C -> (j < v)%nat) /\
  (forall h, c_pc s = C_read h -> (length (popped s) < c_view s)%nat).
Proof.
  intros (hd & tl & v & pc & [Hp Hh Ht Hc Hpu Hpo [Ho1 Ho2] Hr Hi Hpi Hci])%reachable_inv.
  pose proof (capacity_gt_1 (Capacity := C)).
  assert (Hlen : length (popped s) = hd) by (rewrite Hpo, length_take; lia).
  split_and!.
  - intros (i & v' & x & t & h & Hl & Hpc & Hslot).
    destruct (singleton_producer s i v v' pc _ Hp Hl) as (-> & -> & ->).
    unfold pop_inv_at in Hci. rewrite Hpc in Hci. cbn in Hpi.
    destruct Hci as [-> Hlt], Hpi as [-> Hroom]. rewrite !mask_u64 in Hslot by done.
    symmetry in Hslot. apply slot_ne in Hslot; [done..|lia].
  - intros x t v' i Hl j Hj Heq.
    destruct (singleton_producer s i v v' pc _ Hp Hl) as (-> & -> & ->).
    cbn in Hpi. destruct Hpi as [_ Hroom]. rewrite Hpu in *.
    destruct (decide (j < v')%nat) as [|Hge]; [done|].
    apply slot_ne in Heq; [done..|lia].
  - intros h Hpc. unfold pop_inv_at in Hci. rewrite Hpc in Hci. rewrite Hlen. apply Hci.
Qed.

End invariant.

(** A run of a ring of 8: the consumer polls once too early, the producer pushes
    5 and is about to write 6 in the next cell while the consumer is about to
    read 5. *)
Ltac shared_step tac := eapply rtc_l; [tac; cbn; try reflexivity; try lia|]; cbn.

Definition overlap_state : shared Z :=
  mkShared [0] [0; 1] [5; 0; 0; 0; 0; 0; 0; 0] [mkProducer (P_write 6 1) 0]
    (C_read 0) 1 [5] [].

Lemma overlap_reachable : reachable 8 1 overlap_state.
Proof.
  exists [0; 0; 0; 0; 0; 0; 0; 0]; split; [done|].
  shared_step ltac:(right; eapply pop_load_head).
  shared_step ltac:(right; eapply (pop_load_tail _ _ _ 0)).
  shared_step ltac:(right; eapply pop_empty).
  shared_step ltac:(left; eapply (push_load_head _ _ 0 0 5 0)).
  shared_step ltac:(left; eapply (push_load_tail _ _ 0)).
  shared_step ltac:(left; eapply (push_not_full _ _ 0)); [done|].
  shared_step ltac:(left; eapply (push_write _ _ 0)).
  shared_step ltac:(left; eapply (push_store _ _ 0)).
  shared_step ltac:(right; eapply pop_load_head).
  shared_step ltac:(right; eapply (pop_load_tail _ _ _ 1)).
  shared_step ltac:(right; eapply pop_not_empty); [done|].
  shared_step ltac:(left; eapply (push_load_head _ _ 0 0 6 0)).
  shared_step ltac:(left; eapply (push_load_tail _ _ 0)).
  shared_step ltac:(left; eapply (push_not_full _ _ 0)); [done|].
  apply rtc_refl.
Qed.

Lemma spsc_fifo_witness : popped overlap_state = take 0 [5] /\ 1 <= 0 + 8.
Proof.
  destruct (spsc_fifo 8 overlap_state overlap_reachable) as (H1 & _ & H3).
  split; [exact H1|exact H3].
Defined.

Lemma spsc_race_free_witness : ~ race 8 overlap_state /\ (0 < 1)%nat.
Proof.
  destruct (spsc_race_free 8 overlap_state overlap_reachable) as (H1 & _ & H3).
  split; [exact H1|exact (H3 0 eq_refl)].
Defined.

(** ** Two producers *)

(** The single-producer restriction is needed.  With two threads calling
    [push] on the same ring, as [Engine::io_loop] and [Engine::process] of
    engine v2 do on the free list, both calls can return [true] while the ring
    holds one item only: from an empty ring of 8 there is an interleaving after
    which both producers are done, two pushes succeeded, [tail_] is 1 and the
    item of the first push is no longer in any cell. *)
Theorem two_producers_lose_item :
  exists s, reachable 8 2 s /\
    prods s = [mkProducer P_idle 0; mkProducer P_idle 0] /\
    pushed s = [1; 2] /\ last (tail_hist s) = Some 1 /\ ~ (1 ∈ cells s).
Proof.
  eexists. split; [exists [0; 0; 0; 0; 0; 0; 0; 0]; split; [done|]|].
  - shared_step ltac:(left; eapply (push_load_head _ _ 0 0 1 0)).
    shared_step ltac:(left; eapply (push_load_tail _ _ 0)).
    shared_step ltac:(left; eapply (push_load_head _ _ 1 0 2 0)).
    shared_step ltac:(left; eapply (push_load_tail _ _ 1)).
    shared_step ltac:(left; eapply (push_not_full _ _ 0)); [done|].
    shared_step ltac:(left; eapply (push_not_full _ _ 1)); [done|].
    shared_step ltac:(left; eapply (push_write _ _ 0)).
    shared_step ltac:(left; eapply (push_write _ _ 1)).
    shared_step ltac:(left; eapply (push_store _ _ 0)).
    shared_step ltac:(left; eapply (push_store _ _ 1)).
    apply rtc_refl.
  - cbn. split_and!; try done. intros Hin.
    apply list_elem_of_In in Hin. vm_compute in Hin. intuition discriminate.
Qed.
