(* ===== verification/BlockedQueue.v ===== *)
(** * BlockedQueue: the blocking bounded queue

    Models [src/containers/blocked_bounded_queue.hpp].  The mutex makes what a
    member function does between locking and unlocking (or waiting) one step;
    waiting, waking up and notifying are steps of their own, because the
    notification is sent after the mutex is released.  [capacity] reads [size_]
    without the mutex, a data race in C++; here the read is indivisible, so it sees
    the value before or after the one change of [size_] that a critical section
    makes, and like the locked observers it is one step that may come at any time.
    Any number of threads call any member functions in any order. *)

From Stdlib Require Import ZArith Lia.
From stdpp Require Import base numbers list relations.
From S2P Require Import Prelude Ring.

Local Open Scope Z_scope.

Module BlockedQueue.

Definition kCapacity : Z := 3000.

Record t (T : Type) := mk {
  buffer : list T;
  head_ : Z;
  tail_ : Z;
  size_ : Z;
  closed_ : bool
}.
Arguments mk {T}.
Arguments buffer {T}.
Arguments head_ {T}.
Arguments tail_ {T}.
Arguments size_ {T}.
Arguments closed_ {T}.

Section ops.
Context {T : Type} `{Inhabited T} (K : Z).

(** The predicates of the two waits. *)
Definition may_enqueue (q : t T) : bool := (size_ q <? K) || closed_ q.
Definition may_dequeue (q : t T) : bool := (0 <? size_ q) || closed_ q.

(** [enqueue] and [dequeue] after the wait, up to the unlock. *)
Definition enqueue (data : T) (q : t T) : bool * t T :=
  if closed_ q then (false, q)
  else (true, mk (arr_set (buffer q) (tail_ q) data) (head_ q) ((tail_ q +% 1) mod K)
                (size_ q +% 1) (closed_ q)).

Definition dequeue (q : t T) : option T * t T :=
  if (size_ q =? 0) && closed_ q then (None, q)
  else (Some (arr_get (buffer q) (head_ q)),
        mk (buffer q) ((head_ q +% 1) mod K) (tail_ q) (size_ q -% 1) (closed_ q)).

Definition isFull (q : t T) : bool := size_ q =? K.
Definition isEmpty (q : t T) : bool := size_ q =? 0.
Definition size (q : t T) : Z := size_ q.
Definition capacity (q : t T) : Z := K -% size_ q.
Definition clear (q : t T) : t T := mk (buffer q) 0 0 0 (closed_ q).
Definition close (q : t T) : t T := mk (buffer q) (head_ q) (tail_ q) (size_ q) true.
Definition closed (q : t T) : bool := closed_ q.

End ops.

(** ** Threads *)

(** Where a thread is: before taking the mutex in a member function, waiting on a
    condition variable, or about to notify. *)
Inductive pc (T : Type) :=
  | Idle
  | EnqLock (x : T) | EnqWait (x : T) | EnqNotify
  | DeqLock | DeqWait | DeqNotify
  | ClearLock
  | CloseLock | CloseNotifyFull | CloseNotifyEmpty.
Arguments Idle {T}.
Arguments EnqLock {T}.
Arguments EnqWait {T}.
Arguments EnqNotify {T}.
Arguments DeqLock {T}.
Arguments DeqWait {T}.
Arguments DeqNotify {T}.
Arguments ClearLock {T}.
Arguments CloseLock {T}.
Arguments CloseNotifyFull {T}.
Arguments CloseNotifyEmpty {T}.

Inductive event (T : Type) :=
  | Enqueued (x : T) (ok : bool)
  | Dequeued (out : option T)
  | Cleared
  | Closed
  | SawSize (n : Z) | SawCapacity (n : Z)
  | SawFull (b : bool) | SawEmpty (b : bool) | SawClosed (b : bool).
Arguments Enqueued {T}.
Arguments Dequeued {T}.
Arguments Cleared {T}.
Arguments Closed {T}.
Arguments SawSize {T}.
Arguments SawCapacity {T}.
Arguments SawFull {T}.
Arguments SawEmpty {T}.
Arguments SawClosed {T}.

Inductive cv := NotFull | NotEmpty.

(** The condition variable a thread waits on, and the thread woken up. *)
Definition waits_on {T} (p : pc T) : option cv :=
  match p with EnqWait _ => Some NotFull | DeqWait => Some NotEmpty | _ => None end.

Definition wake {T} (p : pc T) : pc T :=
  match p with EnqWait x => EnqLock x | DeqWait => DeqLock | _ => p end.

#[global] Instance cv_eq_dec : EqDecision cv.
Proof. solve_decision. Defined.

(** [notify_one] wakes one waiting thread, if there is one; [notify_all] all. *)
Inductive notify_one {T} (c : cv) (ps : list (pc T)) : list (pc T) -> Prop :=
  | notify_none : Forall (fun p => waits_on p <> Some c) ps -> notify_one c ps ps
  | notify_some j p :
      ps !! j = Some p -> waits_on p = Some c -> notify_one c ps (<[j := wake p]> ps).

Definition notify_all {T} (c : cv) (ps : list (pc T)) : list (pc T) :=
  (fun p => if decide (waits_on p = Some c) then wake p else p) <$> ps.

Definition calls {T} (p : pc T) : Prop :=
  match p with EnqLock _ | DeqLock | ClearLock | CloseLock => True | _ => False end.

Definition config (T : Type) : Type := t T * list (pc T).

Section steps.
Context {T : Type} `{Inhabited T} (K : Z).

(** What the member functions that only look return. *)
Definition observation (q : t T) (ev : event T) : Prop :=
  match ev with
  | SawSize n => n = size q
  | SawCapacity n => n = capacity K q
  | SawFull b => b = isFull K q
  | SawEmpty b => b = isEmpty q
  | SawClosed b => b = closed q
  | _ => False
  end.

Inductive step : config T -> option (event T) -> config T -> Prop :=
  | step_call q ps i p :
      ps !! i = Some Idle -> calls p -> step (q, ps) None (q, <[i := p]> ps)
  | step_observe q ps i ev :
      ps !! i = Some Idle -> observation q ev -> step (q, ps) (Some ev) (q, ps)
  | step_enq_wait q ps i x :
      ps !! i = Some (EnqLock x) -> may_enqueue K q = false ->
      step (q, ps) None (q, <[i := EnqWait x]> ps)
  | step_enq q ps i x ok q' :
      ps !! i = Some (EnqLock x) -> may_enqueue K q = true -> enqueue K x q = (ok, q') ->
      step (q, ps) (Some (Enqueued x ok)) (q', <[i := if ok then EnqNotify else Idle]> ps)
  | step_enq_notify q ps ps' i :
      ps !! i = Some EnqNotify -> notify_one NotEmpty ps ps' ->
      step (q, ps) None (q, <[i := Idle]> ps')
  | step_deq_wait q ps i :
      ps !! i = Some DeqLock -> may_dequeue q = false ->
      step (q, ps) None (q, <[i := DeqWait]> ps)
  | step_deq q ps i out q' :
      ps !! i = Some DeqLock -> may_dequeue q = true -> dequeue K q = (out, q') ->
      step (q, ps) (Some (Dequeued out))
        (q', <[i := match out with Some _ => DeqNotify | None => Idle end]> ps)
  | step_deq_notify q ps ps' i :
      ps !! i = Some DeqNotify -> notify_one NotFull ps ps' ->
      step (q, ps) None (q, <[i := Idle]> ps')
  | step_clear q ps i :
      ps !! i = Some ClearLock -> step (q, ps) (Some Cleared) (clear q, <[i := Idle]> ps)
  | step_close q ps i :
      ps !! i = Some CloseLock ->
      step (q, ps) (Some Closed) (close q, <[i := CloseNotifyFull]> ps)
  | step_close_full q ps i :
      ps !! i = Some CloseNotifyFull ->
      step (q, ps) None (q, <[i := CloseNotifyEmpty]> (notify_all NotFull ps))
  | step_close_empty q ps i :
      ps !! i = Some CloseNotifyEmpty ->
      step (q, ps) None (q, <[i := Idle]> (notify_all NotEmpty ps))
  | step_spurious q ps i p :
      ps !! i = Some p -> waits_on p <> None -> step (q, ps) None (q, <[i := wake p]> ps).

Inductive run (s : config T) : list (event T) -> config T -> Prop :=
  | run_nil : run s [] s
  | run_snoc evs s1 ev s2 :
      run s evs s1 -> step s1 ev s2 -> run s (evs ++ option_list ev) s2.

(** A new queue, used by [n] threads. *)
Definition start (buf : list T) (n : nat) : config T :=
  (mk buf 0 0 0 false, replicate n Idle).

End steps.
End BlockedQueue.

(** ** The contract

    The abstract queue is the list of its items and whether it is closed. *)

Inductive bq_spec {T} (K : Z) : list T * bool -> BlockedQueue.event T -> list T * bool -> Prop :=
  | spec_enqueued l x :
      Z.of_nat (length l) < K -> bq_spec K (l, false) (BlockedQueue.Enqueued x true) (l ++ [x], false)
  | spec_rejected l x : bq_spec K (l, true) (BlockedQueue.Enqueued x false) (l, true)
  | spec_dequeued l x c : bq_spec K (x :: l, c) (BlockedQueue.Dequeued (Some x)) (l, c)
  | spec_drained : bq_spec K ([], true) (BlockedQueue.Dequeued None) ([], true)
  | spec_cleared l c : bq_spec K (l, c) BlockedQueue.Cleared ([], c)
  | spec_closed l c : bq_spec K (l, c) BlockedQueue.Closed (l, true)
  | spec_size l c : bq_spec K (l, c) (BlockedQueue.SawSize (Z.of_nat (length l))) (l, c)
  | spec_capacity l c :
      bq_spec K (l, c) (BlockedQueue.SawCapacity (K - Z.of_nat (length l))) (l, c)
  | spec_full l c :
      bq_spec K (l, c) (BlockedQueue.SawFull (bool_decide (Z.of_nat (length l) = K))) (l, c)
  | spec_empty l c : bq_spec K (l, c) (BlockedQueue.SawEmpty (bool_decide (l = []))) (l, c)
  | spec_saw_closed l c : bq_spec K (l, c) (BlockedQueue.SawClosed c) (l, c).

Inductive bq_spec_run {T} (K : Z) (s : list T * bool)
    : list (BlockedQueue.event T) -> list T * bool -> Prop :=
  | spec_run_nil : bq_spec_run K s [] s
  | spec_run_snoc evs s1 ev s2 :
      bq_spec_run K s evs s1 -> bq_spec K s1 ev s2 -> bq_spec_run K s (evs ++ [ev]) s2.

Section queue.
Context {T : Type} `{Inhabited T} (K : Z) (HK : 0 < K < 2 ^ 63).
Implicit Types (q : BlockedQueue.t T) (x : T) (ps : list (BlockedQueue.pc T)).

(** ** The buffer *)

Definition bq_inv q : Prop :=
  Z.of_nat (length (BlockedQueue.buffer q)) = K /\ 0 <= BlockedQueue.head_ q < K /\
  0 <= BlockedQueue.size_ q <= K /\
  BlockedQueue.tail_ q = (BlockedQueue.head_ q + BlockedQueue.size_ q) mod K.

Definition bq_nth q (i : Z) : T :=
  arr_get (BlockedQueue.buffer q) ((BlockedQueue.head_ q + i) mod K).

Definition bq_items q : list T := bq_nth q <$> seqZ 0 (BlockedQueue.size_ q).

Definition bq_abs q : list T * bool := (bq_items q, BlockedQueue.closed_ q).

Lemma length_bq_items q : bq_inv q -> Z.of_nat (length (bq_items q)) = BlockedQueue.size_ q.
Proof. intros (_ & _ & Hs & _). unfold bq_items. rewrite length_fmap, length_seqZ. lia. Qed.

(** Moving an index on by one. *)
Lemma next_index h : 0 <= h < K -> (h +% 1) mod K = (h + 1) mod K.
Proof. intros. rewrite wrapu_small by (unfold is_u; lia). done. Qed.

Lemma enqueue_spec x q ok q' :
  bq_inv q -> BlockedQueue.may_enqueue K q = true -> BlockedQueue.enqueue K x q = (ok, q') ->
  bq_inv q' /\ bq_spec K (bq_abs q) (BlockedQueue.Enqueued x ok) (bq_abs q').
Proof.
  intros I Hmay. pose proof (length_bq_items q I) as Hlen. pose proof I as (Hb & Hh & Hs & Ht).
  unfold BlockedQueue.enqueue, BlockedQueue.may_enqueue, bq_abs in *.
  destruct (BlockedQueue.closed_ q) eqn:Ec; intros [= <- <-].
  { split; [done|]. rewrite Ec. constructor. }
  rewrite orb_false_r, Z.ltb_lt in Hmay.
  assert (Htr : 0 <= BlockedQueue.tail_ q < K) by (rewrite Ht; apply Z.mod_pos_bound; lia).
  rewrite next_index by done. rewrite (wrapu_small 64 (_ + 1)) by (unfold is_u; lia).
  split.
  - unfold bq_inv; cbn [BlockedQueue.buffer BlockedQueue.head_ BlockedQueue.size_ BlockedQueue.tail_].
    rewrite length_arr_set. split_and!; try done; try lia.
    rewrite Ht, Zplus_mod_idemp_l. f_equal. lia.
  - cbn [BlockedQueue.closed_]. set (q1 := BlockedQueue.mk _ _ _ _ _).
    enough (bq_items q1 = bq_items q ++ [x]) as -> by (constructor; lia).
    unfold bq_items at 1, q1. cbn [BlockedQueue.size_]. rewrite seqZ_snoc, fmap_app by lia. f_equal.
    + apply list_fmap_ext. intros k i Hk. apply lookup_seqZ in Hk as [-> Hk]. unfold bq_nth.
      cbn [BlockedQueue.buffer BlockedQueue.head_].
      apply arr_get_set_ne; [lia|apply Z.mod_pos_bound; lia|].
      rewrite Ht. apply not_eq_sym, mod_ne. lia.
    + cbn [fmap list_fmap]. f_equal. unfold bq_nth. cbn [BlockedQueue.buffer BlockedQueue.head_].
      rewrite Z.add_0_l, <- Ht, arr_get_set_eq by lia. done.
Qed.

Lemma dequeue_spec q out q' :
  bq_inv q -> BlockedQueue.may_dequeue q = true -> BlockedQueue.dequeue K q = (out, q') ->
  bq_inv q' /\ bq_spec K (bq_abs q) (BlockedQueue.Dequeued out) (bq_abs q').
Proof.
  intros I Hmay. pose proof I as (Hb & Hh & Hs & Ht).
  unfold BlockedQueue.dequeue, BlockedQueue.may_dequeue, bq_abs in *.
  destruct (Z.eqb_spec (BlockedQueue.size_ q) 0) as [Hz|Hz]; cbn [andb].
  { rewrite Hz in Hmay. cbn in Hmay. rewrite Hmay. intros [= <- <-]. split; [done|].
    rewrite Hmay. unfold bq_items. rewrite Hz. constructor. }
  intros [= <- <-]. rewrite next_index by done.
  rewrite (wrapu_small 64 (_ - 1)) by (unfold is_u; lia). split.
  - unfold bq_inv; cbn [BlockedQueue.buffer BlockedQueue.head_ BlockedQueue.size_ BlockedQueue.tail_].
    split_and!; try done; try lia; [apply Z.mod_pos_bound; lia..|].
    rewrite Ht, Zplus_mod_idemp_l. f_equal. lia.
  - cbn [BlockedQueue.closed_].
    replace (bq_items q) with (arr_get (BlockedQueue.buffer q) (BlockedQueue.head_ q)
      :: bq_items (BlockedQueue.mk (BlockedQueue.buffer q) ((BlockedQueue.head_ q + 1) mod K)
           (BlockedQueue.tail_ q) (BlockedQueue.size_ q - 1) (BlockedQueue.closed_ q))); [constructor|].
    unfold bq_items at 2. rewrite seqZ_cons by lia. cbn [fmap list_fmap]. f_equal.
    + unfold bq_nth. by rewrite Z.add_0_r, Z.mod_small by lia.
    + unfold bq_items. cbn [BlockedQueue.size_].
      replace (Z.succ 0) with (1 + 0) by lia. rewrite <- fmap_add_seqZ, <- list_fmap_compose.
      replace (Z.pred (BlockedQueue.size_ q)) with (BlockedQueue.size_ q - 1) by lia.
      apply list_fmap_ext. intros k i _. unfold bq_nth, compose. cbn [BlockedQueue.buffer BlockedQueue.head_].
      rewrite Zplus_mod_idemp_l. do 2 f_equal. lia.
Qed.

Lemma observation_spec q ev :
  bq_inv q -> BlockedQueue.observation K q ev -> bq_spec K (bq_abs q) ev (bq_abs q).
Proof.
  intros I Ho. pose proof (length_bq_items q I) as Hl. unfold bq_abs.
  destruct ev; try done; simpl in Ho; subst.
  - unfold BlockedQueue.size. rewrite <- Hl. constructor.
  - destruct I as (_ & _ & Hs & _). unfold BlockedQueue.capacity.
    rewrite wrapu_small by (unfold is_u; lia). rewrite <- Hl. constructor.
  - replace (BlockedQueue.isFull K q) with (bool_decide (Z.of_nat (length (bq_items q)) = K));
      [constructor|]. unfold BlockedQueue.isFull. rewrite Hl.
    destruct (Z.eqb_spec (BlockedQueue.size_ q) K); [by apply bool_decide_true|by apply bool_decide_false].
  - replace (BlockedQueue.isEmpty q) with (bool_decide (bq_items q = [])); [constructor|].
    unfold BlockedQueue.isEmpty. rewrite <- Hl. by destruct (bq_items q).
  - constructor.
Qed.

Lemma clear_inv q : bq_inv q -> bq_inv (BlockedQueue.clear q).
Proof. intros (? & ? & ? & ?). unfold bq_inv; simpl. rewrite Z.mod_0_l by lia. split_and!; lia || done. Qed.

(** Every step keeps the buffer consistent and does what its event says. *)
Lemma step_spec q ps ev q' ps' :
  BlockedQueue.step K (q, ps) ev (q', ps') -> bq_inv q ->
  bq_inv q' /\
  match ev with Some ev => bq_spec K (bq_abs q) ev (bq_abs q') | None => q' = q end.
Proof.
  intros Hs I. inversion Hs; subst; try done.
  - split; [done|]. by apply observation_spec.
  - by eapply enqueue_spec.
  - by eapply dequeue_spec.
  - split; [by apply clear_inv|]. constructor.
  - split; [done|]. constructor.
Qed.

Lemma start_bq buf n : Z.of_nat (length buf) = K -> bq_inv (BlockedQueue.start buf n).1.
Proof. intros. unfold bq_inv; simpl. rewrite Z.mod_0_l by lia. split_and!; lia || done. Qed.

Lemma run_bq buf n evs q ps :
  Z.of_nat (length buf) = K -> BlockedQueue.run K (BlockedQueue.start buf n) evs (q, ps) ->
  bq_inv q /\ bq_spec_run K ([], false) evs (bq_abs q).
Proof.
  intros Hb Hr. remember (q, ps) as s eqn:Es. revert q ps Es.
  induction Hr as [|evs [q1 ps1] ev s2 Hr IH Hs]; intros q ps Es.
  - pose proof (start_bq buf n Hb) as I. injection Es as <- <-. split; [exact I|]. constructor.
  - subst s2. destruct (IH q1 ps1 eq_refl) as [I1 R1].
    destruct (step_spec _ _ _ _ _ Hs I1) as [I2 R2]. split; [done|].
    destruct ev as [ev|]; cbn [option_list]; [by econstructor|]. subst q. by rewrite app_nil_r.
Qed.

(** C37 (blocking queue: linearizability).  Whatever threads call [enqueue],
    [dequeue], [clear], [close] and the five observers in whatever order, the
    results they get are those of one bounded FIFO queue serving the calls one after
    the other: [enqueue] succeeds only below the capacity and fails exactly when the
    queue is closed, [dequeue] returns the oldest item and fails exactly when the
    queue is closed and drained, the observers tell the truth.  The unlocked read
    of [capacity] is taken to be indivisible. *)
Theorem bq_linearizable buf n evs q ps :
  Z.of_nat (length buf) = K -> BlockedQueue.run K (BlockedQueue.start buf n) evs (q, ps) ->
  bq_spec_run K ([], false) evs (bq_items q, BlockedQueue.closed_ q) /\
  Z.of_nat (length (bq_items q)) = BlockedQueue.size_ q /\ 0 <= BlockedQueue.size_ q <= K.
Proof.
  intros Hb Hr. destruct (run_bq _ _ _ _ _ Hb Hr) as [I R].
  split_and!; [done|by apply length_bq_items|apply I..].
Qed.

(** ** Waking up *)

(** What kind of step a thread is at. *)
Inductive tag := TIdle | TEnqLock | TEnqWait | TEnqNotify | TDeqLock | TDeqWait | TDeqNotify
  | TClear | TClose | TCloseFull | TCloseEmpty.

#[local] Instance tag_eq_dec : EqDecision tag.
Proof. solve_decision. Defined.

Definition tag_of (p : BlockedQueue.pc T) : tag :=
  match p with
  | BlockedQueue.Idle => TIdle
  | BlockedQueue.EnqLock _ => TEnqLock
  | BlockedQueue.EnqWait _ => TEnqWait
  | BlockedQueue.EnqNotify => TEnqNotify
  | BlockedQueue.DeqLock => TDeqLock
  | BlockedQueue.DeqWait => TDeqWait
  | BlockedQueue.DeqNotify => TDeqNotify
  | BlockedQueue.ClearLock => TClear
  | BlockedQueue.CloseLock => TClose
  | BlockedQueue.CloseNotifyFull => TCloseFull
  | BlockedQueue.CloseNotifyEmpty => TCloseEmpty
  end.

(** Decide equalities between tags. *)
Ltac tags :=
  repeat match goal with
  | |- context [decide (?a = ?b :> tag)] =>
      first [rewrite (decide_True (P := a = b)) by done | rewrite (decide_False (P := a = b)) by done]
  | H : context [decide (?a = ?b :> tag)] |- _ =>
      first [rewrite (decide_True (P := a = b)) in H by done
            |rewrite (decide_False (P := a = b)) in H by done]
  end.

(** The number of threads at a kind of step. *)
Definition cnt (k : tag) ps : Z :=
  foldr (fun p n => (if decide (tag_of p = k) then 1 else 0) + n) 0 ps.

Lemma cnt_nonneg k ps : 0 <= cnt k ps.
Proof. induction ps as [|p ps IH]; simpl; [done|]. case_decide; lia. Qed.

Lemma cnt_insert k ps i p p' :
  ps !! i = Some p ->
  cnt k (<[i := p']> ps) + (if decide (tag_of p = k) then 1 else 0)
  = cnt k ps + (if decide (tag_of p' = k) then 1 else 0).
Proof.
  revert i. induction ps as [|p0 ps IH]; intros [|i] Hi; simplify_eq/=; [lia|].
  specialize (IH i Hi). lia.
Qed.

Lemma cnt_pos k ps p : p ∈ ps -> tag_of p = k -> 0 < cnt k ps.
Proof.
  intros Hp Hk. induction ps as [|q ps IH]; [by apply elem_of_nil in Hp|]. simpl.
  pose proof (cnt_nonneg k ps). apply elem_of_cons in Hp as [->|Hp].
  - rewrite decide_True by done. lia.
  - specialize (IH Hp). case_decide; lia.
Qed.

Lemma cnt_zero k ps : Forall (fun p => tag_of p <> k) ps -> cnt k ps = 0.
Proof. induction 1 as [|p ps Hp _ IH]; simpl; [done|]. by rewrite decide_False. Qed.

(** Each waiting consumer that could go on is matched by a wake-up under way: a
    thread about to notify, or a consumer about to look at the queue. *)
Definition no_lost_deq q ps : Prop :=
  cnt TDeqWait ps = 0 \/
  if BlockedQueue.closed_ q then 0 < cnt TCloseFull ps + cnt TCloseEmpty ps
  else BlockedQueue.size_ q <= cnt TEnqNotify ps + cnt TDeqLock ps.

Definition no_lost_enq q ps : Prop :=
  cnt TEnqWait ps = 0 \/
  if BlockedQueue.closed_ q then 0 < cnt TCloseFull ps
  else K - BlockedQueue.size_ q <= cnt TDeqNotify ps + cnt TEnqLock ps.

(** A wake-up turns a waiting thread into one about to look. *)
Lemma cnt_notify_one c ps ps' i p p' :
  ps !! i = Some p -> BlockedQueue.waits_on p = None -> BlockedQueue.notify_one c ps ps' ->
  let wt := match c with BlockedQueue.NotFull => TEnqWait | BlockedQueue.NotEmpty => TDeqWait end in
  let lk := match c with BlockedQueue.NotFull => TEnqLock | BlockedQueue.NotEmpty => TDeqLock end in
  exists w, (w = 0 /\ cnt wt ps = 0 \/ w = 1) /\
    forall k, cnt k (<[i := p']> ps') + (if decide (tag_of p = k) then 1 else 0)
      + (if decide (k = wt) then w else 0)
      = cnt k ps + (if decide (tag_of p' = k) then 1 else 0) + (if decide (k = lk) then w else 0).
Proof.
  intros Hi Hw Hn. cbv zeta. destruct Hn as [Hnone|j pj Hj Hwj].
  - exists 0. split.
    + left. split; [done|]. apply cnt_zero. revert Hnone. apply List.Forall_impl.
      intros q Hq. by destruct c, q.
    + intros k. pose proof (cnt_insert k ps i p p' Hi). repeat case_decide; lia.
  - exists 1. split; [by right|]. intros k.
    assert (i <> j) by (intros ->; congruence).
    pose proof (cnt_insert k (<[j := BlockedQueue.wake pj]> ps) i p p') as H1.
    rewrite list_lookup_insert_ne in H1 by done. specialize (H1 Hi).
    pose proof (cnt_insert k ps j pj (BlockedQueue.wake pj) Hj) as H2.
    set (a := if decide (tag_of p = k) then 1 else 0) in *. clearbody a.
    set (b := if decide (tag_of p' = k) then 1 else 0) in *. clearbody b.
    destruct c, pj; try done; cbn [BlockedQueue.wake tag_of] in *; destruct k; tags; lia.
Qed.

Lemma cnt_notify_all c ps :
  let wt := match c with BlockedQueue.NotFull => TEnqWait | BlockedQueue.NotEmpty => TDeqWait end in
  let lk := match c with BlockedQueue.NotFull => TEnqLock | BlockedQueue.NotEmpty => TDeqLock end in
  cnt wt (BlockedQueue.notify_all c ps) = 0 /\
  forall k, k <> wt -> k <> lk -> cnt k (BlockedQueue.notify_all c ps) = cnt k ps.
Proof.
  cbv zeta. split.
  - apply cnt_zero, Forall_fmap, Forall_forall. intros p _. unfold compose.
    by destruct c, p; repeat case_decide.
  - intros k Hw Hl. induction ps as [|p ps IH]; simpl; [done|]. rewrite IH. f_equal.
    destruct c, p; simpl; repeat case_decide; subst; done.
Qed.

(** The counts after a thread moved from one step to another. *)
Ltac count_move :=
  repeat match goal with
  | Hi : ?ps !! ?i = Some ?p |- context [cnt ?k (<[?i := ?p']> ?ps)] =>
      let H := fresh "Hc" in
      pose proof (cnt_insert k ps i p p' Hi) as H; cbn [tag_of] in H; tags;
      pose proof (cnt_nonneg k (<[i := p']> ps));
      generalize dependent (cnt k (<[i := p']> ps)); intros
  end.

Lemma notify_all_lookup c ps i p :
  ps !! i = Some p -> BlockedQueue.waits_on p = None ->
  BlockedQueue.notify_all c ps !! i = Some p.
Proof.
  intros Hi Hw. unfold BlockedQueue.notify_all. rewrite list_lookup_fmap, Hi. simpl.
  by rewrite decide_False by (rewrite Hw; done).
Qed.

Ltac count_done :=
  unfold no_lost_deq, no_lost_enq in *; count_move;
  repeat match goal with H : context [if BlockedQueue.closed_ ?q then _ else _] |- _ =>
    destruct (BlockedQueue.closed_ q) end;
  try done; lia.

Lemma enqueue_size x q ok q' :
  bq_inv q -> BlockedQueue.may_enqueue K q = true -> BlockedQueue.enqueue K x q = (ok, q') ->
  if ok then BlockedQueue.closed_ q = false /\ BlockedQueue.closed_ q' = false /\
             BlockedQueue.size_ q' = BlockedQueue.size_ q + 1
  else q' = q /\ BlockedQueue.closed_ q = true.
Proof.
  intros (_ & _ & Hs & _) Hm. unfold BlockedQueue.enqueue, BlockedQueue.may_enqueue in *.
  destruct (BlockedQueue.closed_ q) eqn:Ec; intros [= <- <-]; [done|]. split_and!; try done.
  simpl. apply wrapu_small. unfold is_u. lia.
Qed.

Lemma dequeue_size q out q' :
  bq_inv q -> BlockedQueue.may_dequeue q = true -> BlockedQueue.dequeue K q = (out, q') ->
  match out with
  | Some _ => BlockedQueue.closed_ q' = BlockedQueue.closed_ q /\
              BlockedQueue.size_ q' = BlockedQueue.size_ q - 1
  | None => q' = q /\ BlockedQueue.closed_ q = true
  end.
Proof.
  intros (_ & _ & Hs & _) Hm. unfold BlockedQueue.dequeue, BlockedQueue.may_dequeue in *.
  destruct (Z.eqb_spec (BlockedQueue.size_ q) 0) as [Hz|Hz]; cbn [andb].
  - rewrite Hz in Hm. cbn in Hm. rewrite Hm. by intros [= <- <-].
  - intros [= <- <-]. split; [done|]. simpl. apply wrapu_small. unfold is_u. lia.
Qed.

(** The counts after a notification. *)
Ltac count_notify c p' :=
  match goal with
  | Hi : ?ps !! ?i = Some ?p, Hn : BlockedQueue.notify_one c ?ps ?ps' |- _ =>
      let w := fresh "w" in let Hw := fresh "Hw" in let Hc := fresh "Hc" in
      destruct (cnt_notify_one c ps ps' i p p' Hi eq_refl Hn) as (w & Hw & Hc);
      pose proof (Hc TDeqWait); pose proof (Hc TEnqWait); pose proof (Hc TDeqLock);
      pose proof (Hc TEnqLock); pose proof (Hc TEnqNotify); pose proof (Hc TDeqNotify);
      pose proof (Hc TCloseFull); pose proof (Hc TCloseEmpty); clear Hc;
      pose proof (cnt_nonneg TDeqWait (<[i := p']> ps')); pose proof (cnt_nonneg TEnqWait (<[i := p']> ps')); cbn [tag_of] in *; tags
  end.

(** No step loses a wake-up of a consumer. *)
Lemma deq_step q ps ev q' ps' :
  bq_inv q -> BlockedQueue.step K (q, ps) ev (q', ps') -> no_lost_deq q ps -> no_lost_deq q' ps'.
Proof.
  intros I Hs Hd. pose proof (fun k => cnt_nonneg k ps) as Hnn. pose proof I as (_ & _ & Hsz & _).
  inversion Hs as [? ? i p Hi Hp|? ? i e Hi Ho|? ? i x Hi Hm|? ? i x ok ? Hi Hm He|? ? ps1 i Hi Hn
    |? ? i Hi Hm|? ? i out ? Hi Hm He|? ? ps1 i Hi Hn|? ? i Hi|? ? i Hi|? ? i Hi|? ? i Hi
    |? ? i p Hi Hp]; subst.
  - destruct p; try done; count_done.
  - done.
  - count_done.
  - pose proof (enqueue_size _ _ _ _ I Hm He) as Hsize. destruct ok.
    + destruct Hsize as (Hc & Hc' & Hsize). unfold no_lost_deq in *. rewrite Hc in Hd.
      rewrite Hc'. count_done.
    + destruct Hsize as [-> Hc]. count_done.
  - count_notify BlockedQueue.NotEmpty (@BlockedQueue.Idle T).
    count_done.
  - unfold BlockedQueue.may_dequeue in Hm. apply orb_false_elim in Hm as [Hm Hc].
    apply Z.ltb_ge in Hm. unfold no_lost_deq in *. rewrite Hc in *. right.
    pose proof (cnt_nonneg TEnqNotify (<[i := BlockedQueue.DeqWait]> ps)).
    pose proof (cnt_nonneg TDeqLock (<[i := BlockedQueue.DeqWait]> ps)). lia.
  - pose proof (dequeue_size _ _ _ I Hm He) as Hsize. destruct out.
    + destruct Hsize as [Hc Hsize]. unfold no_lost_deq in *. rewrite Hc. count_done.
    + destruct Hsize as [-> Hc]. unfold no_lost_deq in *. rewrite Hc in *. count_done.
  - count_notify BlockedQueue.NotFull (@BlockedQueue.Idle T). count_done.
  - unfold no_lost_deq in *. cbn [BlockedQueue.clear BlockedQueue.closed_ BlockedQueue.size_].
    pose proof (Hnn TEnqNotify). pose proof (Hnn TDeqLock). count_done.
  - unfold no_lost_deq in *. cbn [BlockedQueue.close BlockedQueue.closed_]. right. count_move.
    pose proof (Hnn TCloseFull). pose proof (Hnn TCloseEmpty). lia.
  - destruct (cnt_notify_all BlockedQueue.NotFull ps) as [_ Hsame]. cbn in Hsame.
    pose proof (notify_all_lookup BlockedQueue.NotFull ps i _ Hi eq_refl) as Hi2.
    unfold no_lost_deq in *. count_move. rewrite !Hsame in * by done. count_done.
  - destruct (cnt_notify_all BlockedQueue.NotEmpty ps) as [Hzero _]. cbn in Hzero.
    pose proof (notify_all_lookup BlockedQueue.NotEmpty ps i _ Hi eq_refl) as Hi2.
    unfold no_lost_deq. left. count_move. lia.
  - destruct p; try done; cbn [BlockedQueue.wake]; count_done.
Qed.

(** No step but [clear] loses a wake-up of a producer. *)
Lemma enq_step q ps ev q' ps' :
  bq_inv q -> BlockedQueue.step K (q, ps) ev (q', ps') -> ev <> Some BlockedQueue.Cleared ->
  no_lost_enq q ps -> no_lost_enq q' ps'.
Proof.
  intros I Hs Hev Hd. pose proof (fun k => cnt_nonneg k ps) as Hnn. pose proof I as (_ & _ & Hsz & _).
  inversion Hs as [? ? i p Hi Hp|? ? i e Hi Ho|? ? i x Hi Hm|? ? i x ok ? Hi Hm He|? ? ps1 i Hi Hn
    |? ? i Hi Hm|? ? i out ? Hi Hm He|? ? ps1 i Hi Hn|? ? i Hi|? ? i Hi|? ? i Hi|? ? i Hi
    |? ? i p Hi Hp]; subst.
  - destruct p; try done; count_done.
  - done.
  - unfold BlockedQueue.may_enqueue in Hm. apply orb_false_elim in Hm as [Hm Hc].
    apply Z.ltb_ge in Hm. unfold no_lost_enq in *. rewrite Hc in *. right.
    pose proof (cnt_nonneg TDeqNotify (<[i := BlockedQueue.EnqWait x]> ps)).
    pose proof (cnt_nonneg TEnqLock (<[i := BlockedQueue.EnqWait x]> ps)). lia.
  - pose proof (enqueue_size _ _ _ _ I Hm He) as Hsize. destruct ok.
    + destruct Hsize as (Hc & Hc' & Hsize). unfold no_lost_enq in *. rewrite Hc in Hd.
      rewrite Hc'. count_done.
    + destruct Hsize as [-> Hc]. unfold no_lost_enq in *. rewrite Hc in *. count_done.
  - count_notify BlockedQueue.NotEmpty (@BlockedQueue.Idle T). count_done.
  - count_done.
  - pose proof (dequeue_size _ _ _ I Hm He) as Hsize. destruct out.
    + destruct Hsize as [Hc Hsize]. unfold no_lost_enq in *. rewrite Hc. count_done.
    + destruct Hsize as [-> Hc]. count_done.
  - count_notify BlockedQueue.NotFull (@BlockedQueue.Idle T). count_done.
  - done.
  - unfold no_lost_enq in *. cbn [BlockedQueue.close BlockedQueue.closed_]. right. count_move.
    pose proof (Hnn TCloseFull). lia.
  - destruct (cnt_notify_all BlockedQueue.NotFull ps) as [Hzero _]. cbn in Hzero.
    pose proof (notify_all_lookup BlockedQueue.NotFull ps i _ Hi eq_refl) as Hi2.
    unfold no_lost_enq. left. count_move. lia.
  - destruct (cnt_notify_all BlockedQueue.NotEmpty ps) as [_ Hsame]. cbn in Hsame.
    pose proof (notify_all_lookup BlockedQueue.NotEmpty ps i _ Hi eq_refl) as Hi2.
    unfold no_lost_enq in *. count_move. rewrite !Hsame in * by done. count_done.
  - destruct p; try done; cbn [BlockedQueue.wake]; count_done.
Qed.

Lemma run_wake buf n evs q ps :
  Z.of_nat (length buf) = K -> BlockedQueue.run K (BlockedQueue.start buf n) evs (q, ps) ->
  no_lost_deq q ps /\ ((BlockedQueue.Cleared ∉ evs) -> no_lost_enq q ps).
Proof.
  intros Hb Hr. remember (q, ps) as s eqn:Es. revert q ps Es.
  induction Hr as [|evs [q1 ps1] ev s2 Hr IH Hs]; intros q ps Es.
  - injection Es as <- <-.
    assert (Hz : forall k, k <> TIdle -> cnt k (replicate n (BlockedQueue.Idle (T := T))) = 0).
    { intros k Hk. apply cnt_zero, Forall_replicate. simpl. congruence. }
    split; [|intros _]; left; by apply Hz.
  - subst s2. destruct (run_bq _ _ _ _ _ Hb Hr) as [I1 _]. destruct (IH q1 ps1 eq_refl) as [D1 E1].
    split; [by eapply deq_step|]. intros Hn. rewrite not_elem_of_app in Hn. destruct Hn as [Hn1 Hn2].
    eapply enq_step; [done|done| |by apply E1]. intros ->. apply Hn2. by apply list_elem_of_singleton.
Qed.

(** Every thread is outside the queue or asleep: nothing will happen unless a new
    call is made. *)
Definition quiet ps : Prop :=
  Forall (fun p => p = BlockedQueue.Idle \/ BlockedQueue.waits_on p <> None) ps.

Lemma quiet_cnt ps k : quiet ps -> k <> TIdle -> k <> TEnqWait -> k <> TDeqWait -> cnt k ps = 0.
Proof.
  intros Hq ???. apply cnt_zero. revert Hq. apply List.Forall_impl.
  intros p [->|Hw]; [simpl; congruence|]. destruct p; simpl in *; congruence.
Qed.

(** C38 (blocking queue: no lost wake-up).  When no thread is on its way any more,
    a consumer is asleep only if the queue is empty and open, and a producer is
    asleep only if the queue is full and open, provided [clear] was not called:
    with [notify_one] sent after the mutex is released, in any order, and with
    spurious wake-ups, no wake-up that is needed gets lost, and [close] leaves
    nobody asleep. *)
Theorem bq_no_lost_wakeup buf n evs q ps :
  Z.of_nat (length buf) = K -> BlockedQueue.run K (BlockedQueue.start buf n) evs (q, ps) ->
  quiet ps ->
  ((BlockedQueue.DeqWait ∈ ps) -> bq_items q = [] /\ BlockedQueue.closed_ q = false) /\
  ((BlockedQueue.Cleared ∉ evs) -> forall x, (BlockedQueue.EnqWait x ∈ ps) ->
    Z.of_nat (length (bq_items q)) = K /\ BlockedQueue.closed_ q = false).
Proof.
  intros Hb Hr Hq. destruct (run_bq _ _ _ _ _ Hb Hr) as [I _].
  destruct (run_wake _ _ _ _ _ Hb Hr) as [D E]. pose proof (length_bq_items q I) as Hlen.
  pose proof I as (_ & _ & Hs & _). unfold no_lost_deq, no_lost_enq in *.
  pose proof (fun k => quiet_cnt ps k Hq) as Hz.
  rewrite (Hz TCloseFull), (Hz TCloseEmpty), (Hz TEnqNotify), (Hz TDeqLock) in D by done.
  rewrite (Hz TCloseFull), (Hz TDeqNotify), (Hz TEnqLock) in E by done. split.
  - intros Hd. pose proof (cnt_pos TDeqWait ps _ Hd eq_refl).
    destruct (BlockedQueue.closed_ q); [lia|]. split; [|done].
    destruct (bq_items q); [done|simpl in Hlen; lia].
  - intros Hc x Hx. specialize (E Hc). pose proof (cnt_pos TEnqWait ps _ Hx eq_refl).
    destruct (BlockedQueue.closed_ q); [lia|]. split; [lia|done].
Qed.

(** ** [clear] and a waiting producer *)

Lemma run_step s evs q1 ps1 ev q2 ps2 :
  BlockedQueue.run K s evs (q1, ps1) -> BlockedQueue.step K (q1, ps1) ev (q2, ps2) ->
  exists evs', BlockedQueue.run K s evs' (q2, ps2).
Proof. intros. eexists. by econstructor. Qed.

(** One thread fills the queue. *)
Lemma fill_run buf x n :
  Z.of_nat (length buf) = K -> Z.of_nat n <= K ->
  exists evs q, BlockedQueue.run K (BlockedQueue.start buf 2) evs
      (q, [BlockedQueue.Idle; BlockedQueue.Idle]) /\
    BlockedQueue.size_ q = Z.of_nat n /\ BlockedQueue.closed_ q = false.
Proof.
  intros Hb. induction n as [|n IH]; intros Hn.
  { exists [], (BlockedQueue.mk buf 0 0 0 false). split; [constructor|done]. }
  destruct IH as (evs & q & Hr & Hs & Hc); [lia|].
  destruct (run_bq _ _ _ _ _ Hb Hr) as [I _].
  assert (Hm : BlockedQueue.may_enqueue K q = true)
    by (unfold BlockedQueue.may_enqueue; rewrite (proj2 (Z.ltb_lt _ _)) by lia; done).
  destruct (BlockedQueue.enqueue K x q) as [ok q'] eqn:Ee.
  pose proof (enqueue_size _ _ _ _ I Hm Ee) as Hsz. destruct ok; [|destruct Hsz; congruence].
  destruct Hsz as (_ & Hc' & Hs').
  eapply run_step in Hr as [e1 H1]; [|by apply (BlockedQueue.step_call K q _ 0 (BlockedQueue.EnqLock x))].
  eapply run_step in H1 as [e2 H2]; [|by apply (BlockedQueue.step_enq K q _ 0 x true q')].
  eapply run_step in H2 as [e3 H3]; [|eapply (BlockedQueue.step_enq_notify K q' _ _ 0); [done|];
    apply BlockedQueue.notify_none; by repeat constructor].
  exists e3, q'. split; [exact H3|]. split; [lia|done].
Qed.

Lemma clear_strands buf x :
  Z.of_nat (length buf) = K ->
  exists evs q, BlockedQueue.run K (BlockedQueue.start buf 2) evs
      (q, [BlockedQueue.Idle; BlockedQueue.EnqWait x]) /\
    bq_items q = [] /\ BlockedQueue.closed_ q = false.
Proof.
  intros Hb. destruct (fill_run buf x (Z.to_nat K) Hb ltac:(lia)) as (evs & q & Hr & Hs & Hc).
  assert (Hm : BlockedQueue.may_enqueue K q = false).
  { unfold BlockedQueue.may_enqueue. rewrite Hc, (proj2 (Z.ltb_ge _ _)) by lia. done. }
  eapply run_step in Hr as [e1 H1]; [|by apply (BlockedQueue.step_call K q _ 1 (BlockedQueue.EnqLock x))].
  eapply run_step in H1 as [e2 H2]; [|by apply (BlockedQueue.step_enq_wait K q _ 1 x)].
  eapply run_step in H2 as [e3 H3]; [|by apply (BlockedQueue.step_call K q _ 0 BlockedQueue.ClearLock)].
  eapply run_step in H3 as [e4 H4]; [|by apply (BlockedQueue.step_clear K q _ 0)].
  exists e4, (BlockedQueue.clear q). split; [exact H4|]. by split.
Qed.

End queue.

Lemma kCapacity_ok : 0 < BlockedQueue.kCapacity < 2 ^ 63.
Proof. unfold BlockedQueue.kCapacity. lia. Qed.

(** [clear] strands producers.  [clear] empties the queue without notifying
    the threads that wait for room: a producer can be left asleep while the queue
    is empty, open and nothing else is going on. *)
Theorem bq_clear_strands_producer (x : Z) :
  exists evs q ps,
    BlockedQueue.run BlockedQueue.kCapacity (BlockedQueue.start (replicate 3000 0) 2) evs (q, ps) /\
    quiet ps /\ bq_items BlockedQueue.kCapacity q = [] /\ BlockedQueue.closed_ q = false /\
    BlockedQueue.EnqWait x ∈ ps.
Proof.
  destruct (clear_strands BlockedQueue.kCapacity kCapacity_ok (replicate 3000 0) x)
    as (evs & q & Hr & Hi & Hc); [by rewrite length_replicate|].
  exists evs, q, [BlockedQueue.Idle; BlockedQueue.EnqWait x]. split_and!; try done.
  - constructor; [by left|]. constructor; [by right|constructor].
  - set_solver.
Qed.

(** ** A run

    Of two threads sharing a queue of two items one waits, is woken by the item
    the other enqueues, takes it and waits again. *)

Definition sample_queue : BlockedQueue.t Z := BlockedQueue.mk [7; 0] 1 1 0 false.

Lemma bq_sample_run :
  BlockedQueue.run 2 (BlockedQueue.start [0; 0] 2)
    [BlockedQueue.Enqueued 7 true; BlockedQueue.SawCapacity 1; BlockedQueue.Dequeued (Some 7)]
    (sample_queue, [BlockedQueue.DeqWait; BlockedQueue.Idle]).
Proof.
  pose proof (BlockedQueue.run_nil 2 (BlockedQueue.start [0; 0] 2)) as H.
  eapply BlockedQueue.run_snoc in H;
    [|by apply (BlockedQueue.step_call _ _ _ 0 BlockedQueue.DeqLock)].
  eapply BlockedQueue.run_snoc in H; [|by apply (BlockedQueue.step_deq_wait _ _ _ 0)].
  eapply BlockedQueue.run_snoc in H;
    [|by apply (BlockedQueue.step_call _ _ _ 1 (BlockedQueue.EnqLock 7))].
  eapply BlockedQueue.run_snoc in H; [|by apply (BlockedQueue.step_enq _ _ _ 1 7 true)].
  eapply BlockedQueue.run_snoc in H;
    [|eapply (BlockedQueue.step_enq_notify _ _ _ _ 1); [done|by apply (BlockedQueue.notify_some _ _ 0)]].
  eapply BlockedQueue.run_snoc in H;
    [|by apply (BlockedQueue.step_observe _ _ _ 1 (BlockedQueue.SawCapacity 1))].
  eapply BlockedQueue.run_snoc in H; [|by apply (BlockedQueue.step_deq _ _ _ 0 (Some 7))].
  eapply BlockedQueue.run_snoc in H;
    [|eapply (BlockedQueue.step_deq_notify _ _ _ _ 0); [done|apply BlockedQueue.notify_none;
        by repeat constructor]].
  eapply BlockedQueue.run_snoc in H;
    [|by apply (BlockedQueue.step_call _ _ _ 0 BlockedQueue.DeqLock)].
  eapply BlockedQueue.run_snoc in H; [|by apply (BlockedQueue.step_deq_wait _ _ _ 0)].
  exact H.
Qed.

Lemma bq_linearizable_witness :
  bq_spec_run 2 ([], false)
    [BlockedQueue.Enqueued 7 true; BlockedQueue.SawCapacity 1; BlockedQueue.Dequeued (Some 7)]
    (bq_items 2 sample_queue, false).
Proof.
  apply (bq_linearizable 2 ltac:(lia) [0; 0] 2 _ sample_queue _ eq_refl bq_sample_run).
Defined.

Lemma bq_no_lost_wakeup_witness :
  bq_items 2 sample_queue = [] /\ BlockedQueue.closed_ sample_queue = false.
Proof.
  apply (bq_no_lost_wakeup 2 ltac:(lia) [0; 0] 2 _ sample_queue
    [BlockedQueue.DeqWait; BlockedQueue.Idle] eq_refl bq_sample_run).
  - constructor; [right; discriminate|]. constructor; [left; reflexivity|constructor].
  - apply list_elem_of_here.
Defined.
