(* ===== verification/Metrics.v ===== *)
(** * Metrics: the engine's counters and the sequence tracker

    Models [src/common/metrics] and the sequence-number bookkeeping that the
    consumer loops of engine v1 and v2 perform on every decoded message.  The
    counters are [std::atomic<uint64_t>] updated by [fetch_add], hence additions
    modulo [2^64]. *)

From Stdlib Require Import ZArith Lia String DecimalString Sorted.
From stdpp Require Import base numbers list.
From S2P Require Import Prelude Wire.

Local Open Scope Z_scope.

(** ** The counters *)

Module Metrics.

Record t := mk {
  processed_ : Z;
  received_ : Z;
  decode_errors_ : Z;
  drops_ : Z;
  seq_num_gaps_ : Z
}.

Definition zero : t := mk 0 0 0 0 0.

Definition inc_processed (n : Z) (m : t) : t :=
  mk (processed_ m +% n) (received_ m) (decode_errors_ m) (drops_ m) (seq_num_gaps_ m).

Definition inc_received (n : Z) (m : t) : t :=
  mk (processed_ m) (received_ m +% n) (decode_errors_ m) (drops_ m) (seq_num_gaps_ m).

Definition inc_decode_error (n : Z) (m : t) : t :=
  mk (processed_ m) (received_ m) (decode_errors_ m +% n) (drops_ m) (seq_num_gaps_ m).

Definition inc_drops (n : Z) (m : t) : t :=
  mk (processed_ m) (received_ m) (decode_errors_ m) (drops_ m +% n) (seq_num_gaps_ m).

Definition inc_seq_num_gaps (n : Z) (m : t) : t :=
  mk (processed_ m) (received_ m) (decode_errors_ m) (drops_ m) (seq_num_gaps_ m +% n).

(** [struct Snapshot] and [Metrics::snapshot]. *)
Record Snapshot := mkSnapshot {
  processed : Z;
  received : Z;
  decode_errors : Z;
  drops : Z;
  seq_num_gaps : Z
}.

Definition snapshot (m : t) : Snapshot :=
  mkSnapshot (processed_ m) (received_ m) (decode_errors_ m) (drops_ m) (seq_num_gaps_ m).

(** [operator<<] of a [uint64_t]: its decimal digits. *)
Definition decimal (z : Z) : string := NilZero.string_of_int (Z.to_int z).

Definition to_string (s : Snapshot) : string :=
  ("processed=" ++ decimal (processed s) ++ " received=" ++ decimal (received s) ++
   " decode_errors=" ++ decimal (decode_errors s) ++ " drops=" ++ decimal (drops s) ++
   " seq_gaps=" ++ decimal (seq_num_gaps s))%string.

(** Every counter holds a [uint64_t]. *)
Definition ok (m : t) : Prop :=
  is_u 64 (processed_ m) /\ is_u 64 (received_ m) /\ is_u 64 (decode_errors_ m) /\
  is_u 64 (drops_ m) /\ is_u 64 (seq_num_gaps_ m).

End Metrics.

(** ** The sequence tracker

    [expected_seq_num_] and [seq_initialized_] of the engine classes. *)

Record tracker := mkTracker { expected_seq_num_ : Z; seq_initialized_ : bool }.

Definition fresh_tracker : tracker := mkTracker 0 false.

(** The [if]-chain of the consumer loop, on a message already counted as
    received. *)
Definition track_seq (seq : Z) (tr : tracker) (m : Metrics.t) : tracker * Metrics.t :=
  if negb (seq_initialized_ tr) then
    (mkTracker (seq +% 1) true, Metrics.inc_processed 1 m)
  else if seq =? expected_seq_num_ tr then
    (mkTracker (expected_seq_num_ tr +% 1) (seq_initialized_ tr), Metrics.inc_processed 1 m)
  else if expected_seq_num_ tr <? seq then
    let gap := seq -% expected_seq_num_ tr in
    let m := Metrics.inc_seq_num_gaps gap m in
    (mkTracker (seq +% 1) (seq_initialized_ tr), Metrics.inc_processed 1 m)
  else
    (* old/duplicate/out-of-order *)
    (tr, Metrics.inc_drops 1 m).

(** One slot of the consumer loop: decode its bytes, count, track. *)
Definition consume_slot (o : byte_order) (frame : list Z)
    (st : MarketDataMsg * tracker * Metrics.t) : MarketDataMsg * tracker * Metrics.t :=
  let '(msg, tr, m) := st in
  let '(ok, msg) := decode o frame kWireSize msg in
  if ok then
    let m := Metrics.inc_received 1 m in
    let '(tr, m) := track_seq (seq_num msg) tr m in
    (msg, tr, m)
  else (msg, tr, Metrics.inc_decode_error 1 m).

Fixpoint track_all (seqs : list Z) (tr : tracker) (m : Metrics.t) : tracker * Metrics.t :=
  match seqs with
  | [] => (tr, m)
  | seq :: seqs =>
      let m := Metrics.inc_received 1 m in
      let '(tr, m) := track_seq seq tr m in
      track_all seqs tr m
  end.

(** ** Specification

    A message is accepted when its sequence number is above every earlier one.
    [accepted lo seqs] lists the accepted numbers when everything below [lo] is
    already taken. *)

Fixpoint accepted (lo : Z) (seqs : list Z) : list Z :=
  match seqs with
  | [] => []
  | seq :: seqs =>
      if decide (lo <= seq) then seq :: accepted (seq + 1) seqs else accepted lo seqs
  end.

(** The number expected after [seqs]. *)
Fixpoint next_expected (lo : Z) (seqs : list Z) : Z :=
  match seqs with
  | [] => lo
  | seq :: seqs =>
      if decide (lo <= seq) then next_expected (seq + 1) seqs else next_expected lo seqs
  end.

(** Sequence numbers that can be incremented without wrapping. *)
Definition seq_ok (seq : Z) : Prop := 0 <= seq < 2 ^ 64 - 1.

#[global] Instance seq_ok_dec seq : Decision (seq_ok seq).
Proof. unfold seq_ok; apply _. Defined.

Lemma track_seq_accept lo seq m :
  seq_ok seq -> is_u 64 lo -> lo <= seq ->
  track_seq seq (mkTracker lo true) m
  = (mkTracker (seq + 1) true,
     Metrics.mk (Metrics.processed_ m +% 1) (Metrics.received_ m) (Metrics.decode_errors_ m)
       (Metrics.drops_ m)
       (if decide (seq = lo) then Metrics.seq_num_gaps_ m
        else Metrics.seq_num_gaps_ m +% (seq - lo))).
Proof.
  intros [Hs0 Hs1] Hlo Hle. unfold track_seq; cbn [seq_initialized_ expected_seq_num_ negb].
  assert (Hn : seq +% 1 = seq + 1) by (apply wrapu_small; unfold is_u; lia).
  destruct (Z.eqb_spec seq lo) as [->|Hne].
  - rewrite Hn. rewrite decide_True by done. done.
  - rewrite decide_False by done. destruct (Z.ltb_spec lo seq); [|lia].
    rewrite Hn. unfold Metrics.inc_processed, Metrics.inc_seq_num_gaps; simpl.
    by rewrite wrapu_add_r.
Qed.

Lemma track_seq_late lo seq m :
  seq < lo ->
  track_seq seq (mkTracker lo true) m = (mkTracker lo true, Metrics.inc_drops 1 m).
Proof.
  intros. unfold track_seq; cbn [seq_initialized_ expected_seq_num_ negb].
  destruct (Z.eqb_spec seq lo); [lia|]. by destruct (Z.ltb_spec lo seq); [lia|].
Qed.

Lemma next_expected_ge lo seqs : lo <= next_expected lo seqs.
Proof.
  revert lo. induction seqs as [|s seqs IH]; intros lo; simpl; [lia|].
  case_decide; [|by apply IH]. pose proof (IH (s + 1)). lia.
Qed.

Lemma length_accepted lo seqs : (length (accepted lo seqs) <= length seqs)%nat.
Proof.
  revert lo. induction seqs as [|s seqs IH]; intros lo; simpl; [lia|].
  case_decide; simpl; [pose proof (IH (s + 1))|pose proof (IH lo)]; lia.
Qed.

(** The tracker once it is initialised. *)
Lemma track_all_spec seqs lo m :
  Forall seq_ok seqs -> is_u 64 lo ->
  let n := Z.of_nat (length seqs) in
  let a := Z.of_nat (length (accepted lo seqs)) in
  let e := next_expected lo seqs in
  exists m', track_all seqs (mkTracker lo true) m = (mkTracker e true, m') /\
    u64 (Metrics.received_ m') = Metrics.received_ m +% n /\
    u64 (Metrics.processed_ m') = Metrics.processed_ m +% a /\
    u64 (Metrics.drops_ m') = Metrics.drops_ m +% (n - a) /\
    u64 (Metrics.seq_num_gaps_ m') = Metrics.seq_num_gaps_ m +% (e - lo - a) /\
    Metrics.decode_errors_ m' = Metrics.decode_errors_ m.
Proof.
  revert lo m. induction seqs as [|s seqs IH]; intros lo m Hok Hlo.
  { simpl. exists m. split_and!; try done; f_equal; lia. }
  apply Forall_cons_1 in Hok as [Hs Hok]. cbn [track_all accepted next_expected length].
  destruct (decide (lo <= s)) as [Hle|Hlt].
  - rewrite track_seq_accept by done.
    destruct (IH (s + 1)
      (Metrics.mk (Metrics.processed_ m +% 1) (Metrics.received_ m +% 1)
        (Metrics.decode_errors_ m) (Metrics.drops_ m)
        (if decide (s = lo) then Metrics.seq_num_gaps_ m
         else Metrics.seq_num_gaps_ m +% (s - lo))) Hok)
      as (m' & Ht & Hr & Hp & Hd & Hg & He); [unfold seq_ok, is_u in *; lia|].
    exists m'. simpl in *. rewrite Ht, Hr, Hp, Hd, Hg, He.
    rewrite !wrapu_add_l. split_and!; try done; try (f_equal; lia).
    case_decide; rewrite ?wrapu_add_l; f_equal; lia.
  - rewrite track_seq_late by lia.
    destruct (IH lo (Metrics.inc_drops 1 (Metrics.inc_received 1 m)) Hok Hlo)
      as (m' & Ht & Hr & Hp & Hd & Hg & He).
    exists m'. simpl in *. rewrite Ht, Hr, Hp, Hd, Hg, He.
    rewrite !wrapu_add_l. split_and!; try done; f_equal; lia.
Qed.

Lemma track_seq_ok seq tr m : Metrics.ok m -> Metrics.ok (track_seq seq tr m).2.
Proof.
  intros (? & ? & ? & ? & ?). unfold track_seq.
  repeat case_match; unfold Metrics.ok; simpl; auto 6 using wrapu_range with lia.
Qed.

Lemma inc_received_ok m : Metrics.ok m -> Metrics.ok (Metrics.inc_received 1 m).
Proof.
  intros (? & ? & ? & ? & ?). unfold Metrics.ok; simpl. auto 6 using wrapu_range with lia.
Qed.

Lemma consume_slot_ok o f st : Metrics.ok st.2 -> Metrics.ok (consume_slot o f st).2.
Proof.
  destruct st as [[msg tr] m]; cbn [snd]. intros Hm. unfold consume_slot.
  destruct (decode o f kWireSize msg) as [[] msg'].
  - pose proof (track_seq_ok (seq_num msg') tr _ (inc_received_ok m Hm)).
    by destruct (track_seq _ _ _).
  - destruct Hm as (? & ? & ? & ? & ?). unfold Metrics.ok; simpl.
    auto 6 using wrapu_range with lia.
Qed.

Lemma inc_drops_0 m : Metrics.ok m -> Metrics.inc_drops 0 m = m.
Proof.
  intros (_ & _ & _ & Hd & _). unfold Metrics.inc_drops. rewrite Z.add_0_r, wrapu_small by done.
  by destruct m.
Qed.

Lemma track_all_ok seqs tr m : Metrics.ok m -> Metrics.ok (track_all seqs tr m).2.
Proof.
  revert tr m. induction seqs as [|s seqs IH]; intros tr m Hm; [done|]. cbn [track_all].
  pose proof (inc_received_ok m Hm) as Hm'.
  pose proof (track_seq_ok s tr _ Hm'). destruct (track_seq s tr _) as [tr' m']. by apply IH.
Qed.

(** Accepted numbers are pairwise distinct, so there are at most as many as the
    range they span. *)
Lemma length_accepted_span lo seqs :
  Z.of_nat (length (accepted lo seqs)) <= next_expected lo seqs - lo.
Proof.
  revert lo. induction seqs as [|s seqs IH]; intros lo; simpl; [lia|].
  case_decide; simpl; [pose proof (IH (s + 1))|pose proof (IH lo)]; lia.
Qed.

Lemma next_expected_bound lo seqs :
  lo < 2 ^ 64 -> Forall seq_ok seqs -> next_expected lo seqs < 2 ^ 64.
Proof.
  revert lo. induction seqs as [|s seqs IH]; intros lo Hlo Hok; simpl; [done|].
  apply Forall_cons_1 in Hok as [[? ?] Hok]. case_decide; apply IH; (done || lia).
Qed.

(** The accepted numbers are a strictly increasing subsequence of what arrived. *)
Lemma accepted_sublist lo seqs : sublist (accepted lo seqs) seqs.
Proof.
  revert lo. induction seqs as [|s seqs IH]; intros lo; simpl; [constructor|].
  case_decide; constructor; apply IH.
Qed.

Lemma accepted_increasing lo seqs :
  Forall (fun x => lo <= x < next_expected lo seqs) (accepted lo seqs) /\
  StronglySorted Z.lt (accepted lo seqs).
Proof.
  revert lo. induction seqs as [|s seqs IH]; intros lo; simpl; [split; constructor|].
  case_decide as Hd; [|apply IH]. destruct (IH (s + 1)) as [Hf Hs].
  pose proof (next_expected_ge (s + 1) seqs).
  split; constructor; try done; [lia|..].
  - eapply Forall_impl; [exact Hf|]. simpl. lia.
  - eapply Forall_impl; [exact Hf|]. simpl. lia.
Qed.

(** A fresh tracker on a nonempty run. *)
Lemma track_fresh first rest :
  Forall seq_ok (first :: rest) -> Z.of_nat (length (first :: rest)) < 2 ^ 64 ->
  let seqs := first :: rest in
  let n := Z.of_nat (length seqs) in
  let a := Z.of_nat (length (accepted first seqs)) in
  let e := next_expected first seqs in
  track_all seqs fresh_tracker Metrics.zero
    = (mkTracker e true, Metrics.mk a n 0 (n - a) (e - first - a)).
Proof.
  intros Hok Hlen. cbv zeta.
  pose proof (Forall_cons_1 _ _ _ Hok) as [[Hf0 Hf1] Hrest].
  pose proof (length_accepted (first + 1) rest). pose proof (length_accepted_span (first + 1) rest).
  pose proof (next_expected_bound (first + 1) rest ltac:(lia) Hrest).
  cbn [accepted next_expected length] in *. rewrite decide_True by lia. rewrite decide_True by lia.
  cbn [track_all length]. unfold track_seq at 1. cbn [seq_initialized_ fresh_tracker negb].
  rewrite (wrapu_small 64 (first + 1)) by (unfold is_u; lia).
  set (m1 := Metrics.inc_processed 1 (Metrics.inc_received 1 Metrics.zero)).
  destruct (track_all_spec rest (first + 1) m1) as (m' & Ht & Hr & Hp & Hd & Hg & He);
    [done|unfold is_u; lia|].
  rewrite Ht. f_equal.
  assert (Hmok : Metrics.ok m').
  { pose proof (track_all_ok rest (mkTracker (first + 1) true) m1) as Hall. rewrite Ht in Hall.
    apply Hall. by vm_compute. }
  destruct Hmok as (? & ? & ? & ? & ?).
  rewrite wrapu_small in Hr, Hp, Hd, Hg by done.
  destruct m' as [mp mr me md mg]; simpl in *. change (0 +% 1) with 1 in *.
  rewrite Hr, Hp, Hd, Hg, He. f_equal;
    rewrite wrapu_small by (unfold is_u; lia); lia.
Qed.

(** C28 (sequence accounting).  A tracker that starts uninitialised and receives
    [first :: rest] (fewer than [2^64] messages, none with number
    [UINT64_MAX]) processes exactly the messages whose number is above all
    earlier ones, counts every other one as a drop, and counts as gaps exactly
    the numbers between the first message and the highest one that were never
    accepted; afterwards it expects the successor of the highest number seen. *)
Theorem tracker_accounting first rest :
  Forall seq_ok (first :: rest) -> Z.of_nat (length (first :: rest)) < 2 ^ 64 ->
  let seqs := first :: rest in
  let n := Z.of_nat (length seqs) in
  let a := Z.of_nat (length (accepted first seqs)) in
  let e := next_expected first seqs in
  track_all seqs fresh_tracker Metrics.zero
    = (mkTracker e true, Metrics.mk a n 0 (n - a) (e - first - a)) /\
  StronglySorted Z.lt (accepted first seqs) /\ sublist (accepted first seqs) seqs.
Proof.
  intros Hok Hlen. cbv zeta. split_and!; [|apply accepted_increasing|apply accepted_sublist].
  by apply track_fresh.
Qed.

Lemma tracker_accounting_witness :
  track_all [100; 101; 105; 103; 105; 106] fresh_tracker Metrics.zero
  = (mkTracker 107 true, Metrics.mk 4 6 0 2 3).
Proof.
  apply (tracker_accounting 100 [101; 105; 103; 105; 106]).
  - apply (bool_decide_unpack _). vm_compute. exact I.
  - reflexivity.
Defined.
