(* ===== verification/Pool.v ===== *)
(** * Pool: the frame pool

    Models [src/containers/frame_pool.hpp] and [numa_frame_pool.hpp] and the
    creation and destruction helpers of [src/engine/v2/engine.cpp].  A pool is an
    array of 44-byte slots and two rings of slot indices, [free] and [ready];
    the indices a thread has popped and not yet pushed back are the ones it
    holds.  The invariant says that every index is in exactly one of the three
    places. *)

From Stdlib Require Import ZArith Lia.
From stdpp Require Import base numbers list.
From S2P Require Import Prelude Wire Ring.

Local Open Scope Z_scope.

(** ** Clients of a bounded queue

    The consequences of the queue contract that pool code relies on, proved
    against the interface. *)

Section queue_client.
Context {Q T : Type} `{HQ : BoundedQueue Q T}.

Lemma q_push_room x q :
  q_inv q -> (length (q_items q) < q_cap)%nat ->
  (q_push x q).1 = true /\ q_inv (q_push x q).2 /\
  q_items (q_push x q).2 = q_items q ++ [x].
Proof.
  intros Hq Hlt. pose proof (q_push_refines x q Hq) as He.
  unfold spec_push in He. rewrite decide_True in He by done.
  injection He as -> ->. by split_and!; [|apply q_push_inv|].
Qed.

Lemma q_pop_cases q :
  q_inv q ->
  (q_items q = [] /\ (q_pop q).1 = None /\ q_inv (q_pop q).2 /\ q_items (q_pop q).2 = []) \/
  (exists x l, q_items q = x :: l /\ (q_pop q).1 = Some x /\ q_inv (q_pop q).2 /\
    q_items (q_pop q).2 = l).
Proof.
  intros Hq. pose proof (q_pop_refines q Hq) as He. pose proof (q_pop_inv q Hq).
  destruct (q_items q) as [|x l] eqn:El; simpl in He; injection He as -> ->.
  - by left.
  - right. by exists x, l.
Qed.

End queue_client.

(** ** The pool *)

Module FramePool.

Record t := mk {
  slots : list (list Z);        (* std::array<Frame, Capacity> *)
  free : RingBuffer.t Z;
  ready : RingBuffer.t Z
}.

(** The members as their default initialisers leave them; the contents of the
    rings' arrays are indeterminate. *)
Definition construct (Capacity : Z) (free_buf ready_buf : list Z) : t :=
  mk (replicate (Z.to_nat Capacity) (replicate (Z.to_nat kWireSize) 0))
    (RingBuffer.mk 0 0 free_buf) (RingBuffer.mk 0 0 ready_buf).

(** [free.push(i)] for [i] from 0 below [Capacity], ignoring the result. *)
Definition push_all (Capacity : Z) (idxs : list Z) (rb : RingBuffer.t Z) : RingBuffer.t Z :=
  fold_left (fun rb i => (RingBuffer.push Capacity i rb).2) idxs rb.

Definition init (Capacity : Z) (p : t) : t :=
  let free := RingBuffer.reset (free p) in
  let ready := RingBuffer.reset (ready p) in
  mk (slots p) (push_all Capacity (seqZ 0 Capacity) free) ready.

Definition set_free (p : t) (rb : RingBuffer.t Z) : t := mk (slots p) rb (ready p).

Definition set_ready (p : t) (rb : RingBuffer.t Z) : t := mk (slots p) (free p) rb.

(** [std::memcpy(pool.slots[idx].data(), src, kWireSize)] *)
Definition write_slot (p : t) (idx : Z) (src : list Z) : t :=
  mk (arr_set (slots p) idx (memcpy_at (arr_get (slots p) idx) 0 (mem_read src 0 kWireSize)))
    (free p) (ready p).

End FramePool.

(** ** NUMA allocation

    [numa_available] and [numa_alloc_onnode] are libnuma's: their results are
    arguments. *)

Inductive create_error := Numa_not_available | Bad_alloc.

(** [NumaFramePool::create]: [raw] is whether the allocation returned memory. *)
Definition numa_create (Capacity : Z) (numa_available : Z) (raw : bool)
    (free_buf ready_buf : list Z) : create_error + FramePool.t :=
  if numa_available <? 0 then inl Numa_not_available
  else if negb raw then inl Bad_alloc
  else inr (FramePool.init Capacity (FramePool.construct Capacity free_buf ready_buf)).

(** [create_frame_pool] of engine v2: the pool and the reference parameter
    [pool_on_numa]; [memory] is whether the allocation succeeds, on the NUMA node
    or by a plain [new].  The flag is set before the former and after the latter,
    so a [bad_alloc] of [new] leaves it alone. *)
Definition create_frame_pool (Capacity : Z) (numa_available : Z) (memory : bool)
    (free_buf ready_buf : list Z) (pool_on_numa : bool) : (create_error + FramePool.t) * bool :=
  if 0 <=? numa_available then
    (numa_create Capacity numa_available memory free_buf ready_buf, true)
  else if negb memory then (inl Bad_alloc, pool_on_numa)
  else (inr (FramePool.init Capacity (FramePool.construct Capacity free_buf ready_buf)), false).

(** ** The ownership invariant *)

Section ownership.
Context (C : Z) `{HC : RingCapacity C}.
Implicit Types (p : FramePool.t) (held : list Z) (idx : Z).

Definition free_items p : list Z := ring_items C (FramePool.free p).

Definition ready_items p : list Z := ring_items C (FramePool.ready p).

Record pool_inv p held : Prop := {
  pool_free_ring : ring_inv C (FramePool.free p);
  pool_ready_ring : ring_inv C (FramePool.ready p);
  pool_slots : Z.of_nat (length (FramePool.slots p)) = C;
  pool_frames : Forall (fun f => length f = Z.to_nat kWireSize) (FramePool.slots p);
  pool_owned : free_items p ++ ready_items p ++ held ≡ₚ seqZ 0 C
}.

Lemma pool_count p held :
  pool_inv p held ->
  (length (free_items p) + length (ready_items p) + length held = Z.to_nat C)%nat.
Proof.
  intros I. pose proof (Permutation_length (pool_owned _ _ I)) as Hl.
  rewrite !length_app, length_seqZ in Hl. lia.
Qed.

Lemma pool_index p held idx :
  pool_inv p held -> idx ∈ free_items p ++ ready_items p ++ held -> 0 <= idx < C.
Proof.
  intros I Hin. rewrite (pool_owned _ _ I) in Hin. apply elem_of_seqZ in Hin. lia.
Qed.

(** Every index a thread may use is in the range of [slots]. *)
Lemma held_in_range p held idx :
  pool_inv p held -> idx ∈ held -> 0 <= idx < Z.of_nat (length (FramePool.slots p)).
Proof.
  intros I Hin. rewrite (pool_slots _ _ I). apply (pool_index p held); [done|].
  apply elem_of_app. right. apply elem_of_app. by right.
Qed.

Lemma ready_in_range p held idx :
  pool_inv p held -> idx ∈ ready_items p -> 0 <= idx < Z.of_nat (length (FramePool.slots p)).
Proof.
  intros I Hin. rewrite (pool_slots _ _ I). apply (pool_index p held); [done|].
  apply elem_of_app. right. apply elem_of_app. by left.
Qed.

(** An index a thread holds is not in the ready ring. *)
Lemma ready_not_held p held idx :
  pool_inv p held -> idx ∈ ready_items p -> idx ∉ held.
Proof.
  intros I Hr. pose proof (NoDup_seqZ 0 C) as Hnd. rewrite <- (pool_owned _ _ I) in Hnd.
  apply NoDup_app in Hnd as (_ & _ & Hnd). apply NoDup_app in Hnd as (_ & Hd & _).
  by apply Hd.
Qed.

Lemma held_perm p held held' : held ≡ₚ held' -> pool_inv p held -> pool_inv p held'.
Proof. intros Hp [? ? ? ? Ho]. split; try done. by rewrite <- Hp. Qed.

(** *** free.pop *)
Lemma free_pop_spec p held :
  pool_inv p held ->
  let '(o, rb) := RingBuffer.pop C (FramePool.free p) in
  let p' := FramePool.set_free p rb in
  match o with
  | None => free_items p = [] /\ pool_inv p' held /\ free_items p' = []
  | Some idx => pool_inv p' (idx :: held) /\ free_items p = idx :: free_items p'
  end.
Proof.
  intros I. pose proof I as [If Ir Is Il Io].
  pose proof (q_pop_cases (HQ := RingBuffer_BoundedQueue C) (FramePool.free p) If) as Hc.
  change (q_pop (FramePool.free p)) with (RingBuffer.pop C (FramePool.free p)) in Hc.
  destruct (RingBuffer.pop C (FramePool.free p)) as [o rb]; cbn [fst snd] in Hc.
  destruct Hc as [(He & -> & Hi & He')|(x & l & He & -> & Hi & He')];
    change (q_items rb) with (ring_items C rb) in He';
    change (q_items (FramePool.free p)) with (free_items p) in He.
  - split_and!; [done| |done]. split; try done. unfold free_items; cbn. rewrite He'.
    by rewrite He in Io.
  - split.
    + split; try done. unfold free_items; cbn. rewrite He', <- Io, He.
      change (ready_items (FramePool.set_free p rb)) with (ready_items p). solve_Permutation.
    + unfold free_items at 2; cbn. by rewrite He'.
Qed.

(** *** ready.pop *)
Lemma ready_pop_spec p held :
  pool_inv p held ->
  let '(o, rb) := RingBuffer.pop C (FramePool.ready p) in
  let p' := FramePool.set_ready p rb in
  match o with
  | None => ready_items p = [] /\ pool_inv p' held /\ ready_items p' = []
  | Some idx => pool_inv p' (idx :: held) /\ ready_items p = idx :: ready_items p'
  end.
Proof.
  intros I. pose proof I as [If Ir Is Il Io].
  pose proof (q_pop_cases (HQ := RingBuffer_BoundedQueue C) (FramePool.ready p) Ir) as Hc.
  change (q_pop (FramePool.ready p)) with (RingBuffer.pop C (FramePool.ready p)) in Hc.
  destruct (RingBuffer.pop C (FramePool.ready p)) as [o rb]; cbn [fst snd] in Hc.
  destruct Hc as [(He & -> & Hi & He')|(x & l & He & -> & Hi & He')];
    change (q_items rb) with (ring_items C rb) in He';
    change (q_items (FramePool.ready p)) with (ready_items p) in He.
  - split_and!; [done| |done]. split; try done. unfold ready_items; cbn. rewrite He'.
    by rewrite He in Io.
  - split.
    + split; try done. unfold ready_items; cbn. rewrite He', <- Io, He.
      change (free_items (FramePool.set_ready p rb)) with (free_items p). solve_Permutation.
    + unfold ready_items at 2; cbn. by rewrite He'.
Qed.

(** *** Pushing back an index that is held: never refused *)
Lemma free_push_spec p held idx :
  pool_inv p (idx :: held) ->
  let '(b, rb) := RingBuffer.push C idx (FramePool.free p) in
  let p' := FramePool.set_free p rb in
  b = true /\ pool_inv p' held /\ free_items p' = free_items p ++ [idx].
Proof.
  intros I. pose proof I as [If Ir Is Il Io]. pose proof (pool_count _ _ I) as Hn.
  simpl in Hn.
  destruct (q_push_room (HQ := RingBuffer_BoundedQueue C) idx (FramePool.free p) If) as (Hb & Hi & He).
  { change (length (free_items p) < Z.to_nat C)%nat. lia. }
  change (q_push idx (FramePool.free p)) with (RingBuffer.push C idx (FramePool.free p)) in *.
  destruct (RingBuffer.push C idx (FramePool.free p)) as [b rb]; cbn [fst snd] in *.
  change (q_items rb) with (ring_items C rb) in He.
  change (q_items (FramePool.free p)) with (free_items p) in He.
  split_and!; [done| |done]. split; try done. unfold free_items; cbn. rewrite He, <- Io.
  change (ready_items (FramePool.set_free p rb)) with (ready_items p). solve_Permutation.
Qed.

Lemma ready_push_spec p held idx :
  pool_inv p (idx :: held) ->
  let '(b, rb) := RingBuffer.push C idx (FramePool.ready p) in
  let p' := FramePool.set_ready p rb in
  b = true /\ pool_inv p' held /\ ready_items p' = ready_items p ++ [idx].
Proof.
  intros I. pose proof I as [If Ir Is Il Io]. pose proof (pool_count _ _ I) as Hn.
  simpl in Hn.
  destruct (q_push_room (HQ := RingBuffer_BoundedQueue C) idx (FramePool.ready p) Ir) as (Hb & Hi & He).
  { change (length (ready_items p) < Z.to_nat C)%nat. lia. }
  change (q_push idx (FramePool.ready p)) with (RingBuffer.push C idx (FramePool.ready p)) in *.
  destruct (RingBuffer.push C idx (FramePool.ready p)) as [b rb]; cbn [fst snd] in *.
  change (q_items rb) with (ring_items C rb) in He.
  change (q_items (FramePool.ready p)) with (ready_items p) in He.
  split_and!; [done| |done]. split; try done. unfold ready_items; cbn. rewrite He, <- Io.
  change (free_items (FramePool.set_ready p rb)) with (free_items p). solve_Permutation.
Qed.

(** *** Slots *)
Lemma write_slot_inv p held idx src :
  pool_inv p held -> pool_inv (FramePool.write_slot p idx src) held.
Proof.
  intros [If Ir Is Il Io]. split; try done; cbn.
  - by rewrite length_arr_set.
  - destruct (decide (Z.to_nat idx < length (FramePool.slots p))%nat) as [Hlt|Hge].
    + apply Forall_insert; [done|]. rewrite length_memcpy_at. unfold arr_get.
      rewrite Forall_lookup in Il. apply (Il (Z.to_nat idx)).
      by apply list_lookup_lookup_total_lt.
    + unfold arr_set. rewrite list_insert_ge by lia. done.
Qed.

Lemma slot_read_write p held idx src :
  pool_inv p held -> idx ∈ held -> (44 <= length src)%nat ->
  arr_get (FramePool.slots (FramePool.write_slot p idx src)) idx = take 44 src.
Proof.
  intros I Hin Hlen. pose proof (held_in_range _ _ _ I Hin). cbn.
  rewrite arr_get_set_eq by lia. unfold memcpy_at, mem_read. simpl. rewrite drop_0.
  assert (Hf : length (arr_get (FramePool.slots p) idx) = 44%nat).
  { pose proof (pool_frames _ _ I) as Hf. rewrite Forall_lookup in Hf.
    apply (Hf (Z.to_nat idx)). apply list_lookup_lookup_total_lt. lia. }
  change (Z.to_nat kWireSize) with 44%nat. change (Z.to_nat 0) with 0%nat.
  rewrite <- (app_nil_r (arr_get (FramePool.slots p) idx)).
  rewrite list_inserts_0_r; [by rewrite app_nil_r|]. rewrite length_take, Hf. lia.
Qed.

Lemma slot_write_other p idx idx' src :
  0 <= idx -> 0 <= idx' -> idx <> idx' ->
  arr_get (FramePool.slots (FramePool.write_slot p idx src)) idx'
  = arr_get (FramePool.slots p) idx'.
Proof. intros. cbn. by rewrite arr_get_set_ne. Qed.

(** ** Initialisation *)

Lemma push_all_spec idxs rb :
  ring_inv C rb -> (length (ring_items C rb) + length idxs <= Z.to_nat C)%nat ->
  ring_inv C (FramePool.push_all C idxs rb) /\
  ring_items C (FramePool.push_all C idxs rb) = ring_items C rb ++ idxs.
Proof.
  revert rb. induction idxs as [|i idxs IH]; intros rb Hi Hlen; simpl in *.
  { by rewrite app_nil_r. }
  destruct (q_push_room (HQ := RingBuffer_BoundedQueue C) i rb Hi) as (_ & Hi' & He).
  { change (length (ring_items C rb) < Z.to_nat C)%nat. lia. }
  cbn in Hi', He. destruct (IH _ Hi') as [Hi'' He'']; rewrite He in *.
  - rewrite length_app. simpl. lia.
  - split; [done|]. by rewrite He'', <- app_assoc.
Qed.

Lemma init_spec p :
  Z.of_nat (length (RingBuffer.buffer_ (FramePool.free p))) = C ->
  Z.of_nat (length (RingBuffer.buffer_ (FramePool.ready p))) = C ->
  Z.of_nat (length (FramePool.slots p)) = C ->
  Forall (fun f => length f = Z.to_nat kWireSize) (FramePool.slots p) ->
  pool_inv (FramePool.init C p) [] /\
  free_items (FramePool.init C p) = seqZ 0 C /\ ready_items (FramePool.init C p) = [].
Proof.
  intros Hf Hr Hs Hl. pose proof (capacity_gt_1 (Capacity := C)).
  assert (Hreset : forall rb : RingBuffer.t Z, Z.of_nat (length (RingBuffer.buffer_ rb)) = C ->
    ring_inv C (RingBuffer.reset rb) /\ ring_items C (RingBuffer.reset rb) = []).
  { intros rb Hb. unfold ring_inv, RingBuffer.reset, ring_items, ring_len; simpl.
    change (0 -% 0) with 0. unfold is_u. split_and!; (done || lia). }
  destruct (Hreset _ Hf) as [If Ef], (Hreset _ Hr) as [Ir Er].
  destruct (push_all_spec (seqZ 0 C) _ If) as [If' Ef'].
  { rewrite Ef, length_seqZ. simpl. lia. }
  rewrite Ef in Ef'. simpl in Ef'. split_and!; [|done|done].
  split; try done. unfold free_items, ready_items; cbn. rewrite Ef', Er.
  by rewrite !app_nil_r.
Qed.

End ownership.

(** ** Properties *)

(** Initialisation.  Whatever the state of the two rings before, [init]
    leaves every slot index exactly once in the free ring, in increasing order,
    and the ready ring empty. *)
Theorem pool_init_all_free C p :
  RingCapacity C ->
  Z.of_nat (length (RingBuffer.buffer_ (FramePool.free p))) = C ->
  Z.of_nat (length (RingBuffer.buffer_ (FramePool.ready p))) = C ->
  Z.of_nat (length (FramePool.slots p)) = C ->
  Forall (fun f => length f = Z.to_nat kWireSize) (FramePool.slots p) ->
  pool_inv C (FramePool.init C p) [] /\
  free_items C (FramePool.init C p) = seqZ 0 C /\
  ready_items C (FramePool.init C p) = [].
Proof. intros HC. by apply init_spec. Qed.

(** A pool of 8 in use: counters past zero, two indices ready. *)
Definition used_pool : FramePool.t :=
  FramePool.mk (replicate 8 (replicate 44 7))
    (RingBuffer.mk 11 17 [0; 1; 2; 3; 4; 5; 6; 7]) (RingBuffer.mk 3 5 [7; 6; 5; 4; 3; 2; 1; 0]).

Lemma pool_init_all_free_witness :
  free_items 8 (FramePool.init 8 used_pool) = [0; 1; 2; 3; 4; 5; 6; 7] /\
  ready_items 8 (FramePool.init 8 used_pool) = [].
Proof.
  apply (pool_init_all_free 8 used_pool); try reflexivity; [exact capacity_8|].
  apply (bool_decide_unpack _). vm_compute. exact I.
Defined.
