(* ===== verification/EngineV1.v ===== *)
(** * EngineV1: UDP ingest and consumer loop of engine v1

    Models the body of the receive loop of [src/common/net/v1/udp_server.hpp]
    (what it does with each datagram) and [Engine::process_loop] of
    [src/engine/v1/engine.cpp], and the interleavings of whole iterations of the
    two loops; [ThreadsV1] cuts the iterations at their accesses and follows the
    consumer until it leaves its loop.  Each ring of the pool has one producer and
    one consumer thread, so by [Spsc] its operations act as single steps. *)

From Stdlib Require Import ZArith Lia.
From stdpp Require Import base numbers list relations.
From S2P Require Import Prelude Wire Ring Metrics Pool.

Local Open Scope Z_scope.

(** ** The I/O thread *)

(** What [recvmmsg] leaves for one datagram: the receive buffer [io_buf[j]],
    [msg_len] and whether [MSG_TRUNC] is set. *)
Record rx_msg := mkRx { rx_buf : list Z; rx_len : Z; rx_trunc : bool }.

(** The body of the loop over the [n] datagrams received. *)
Definition handle_datagram (C : Z) (d : rx_msg) (st : FramePool.t * Metrics.t)
    : FramePool.t * Metrics.t :=
  let '(pool, metrics) := st in
  if rx_trunc d || negb (rx_len d =? kWireSize) then (pool, Metrics.inc_drops 1 metrics)
  else
    let '(popped, rb) := RingBuffer.pop C (FramePool.free pool) in
    let pool := FramePool.set_free pool rb in
    match popped with
    | None => (pool, Metrics.inc_drops 1 metrics)
    | Some idx =>
        let pool := FramePool.write_slot pool idx (rx_buf d) in
        let '(ok, rb) := RingBuffer.push C idx (FramePool.ready pool) in
        let pool := FramePool.set_ready pool rb in
        if negb ok then
          let metrics := Metrics.inc_drops 1 metrics in
          let '(_, fb) := RingBuffer.push C idx (FramePool.free pool) in
          (FramePool.set_free pool fb, metrics)
        else (pool, metrics)
    end.

Definition handle_batch (C : Z) (ds : list rx_msg) (st : FramePool.t * Metrics.t)
    : FramePool.t * Metrics.t :=
  fold_left (fun st d => handle_datagram C d st) ds st.

(** ** The consumer thread *)

Module EngineV1.

(** The members of [Engine] the loops use, and the local [msg] of
    [process_loop]. *)
Record t := mk {
  running_ : bool;
  seq : tracker;
  m_ : Metrics.t;
  pool_ : FramePool.t;
  msg : MarketDataMsg
}.

(** The loop condition. *)
Definition loop_cond (e : t) : bool :=
  running_ e || negb (RingBuffer.empty (FramePool.ready (pool_ e))).

(** One iteration of [process_loop]. *)
Definition process_iter (o : byte_order) (C : Z) (e : t) : t :=
  let '(popped, rb) := RingBuffer.pop C (FramePool.ready (pool_ e)) in
  let pool := FramePool.set_ready (pool_ e) rb in
  match popped with
  | Some idx =>
      let '(msg, seq, m) :=
        consume_slot o (arr_get (FramePool.slots pool) idx) (msg e, seq e, m_ e) in
      let '(_, fb) := RingBuffer.push C idx (FramePool.free pool) in
      mk (running_ e) seq m (FramePool.set_free pool fb) msg
  | None => mk (running_ e) (seq e) (m_ e) pool (msg e)     (* spin_pause *)
  end.

(** The I/O thread handling one datagram. *)
Definition io_recv (C : Z) (d : rx_msg) (e : t) : t :=
  let '(pool, m) := handle_datagram C d (pool_ e, m_ e) in
  mk (running_ e) (seq e) m pool (msg e).

(** [stop]: the flag the consumer polls. *)
Definition request_stop (e : t) : t := mk false (seq e) (m_ e) (pool_ e) (msg e).

(** The engine after [run]: the pool freshly initialised, [running_] set. *)
Definition start (C : Z) (free_buf ready_buf : list Z) : t :=
  mk true fresh_tracker Metrics.zero
    (FramePool.init C (FramePool.construct C free_buf ready_buf)) zero_msg.

(** ** Interleavings

    An iteration is possible whenever the loop condition holds (the one that a
    stop overtakes between the test and an empty ring changes nothing).  A
    consumer that has left its loop is not told apart, so there are more runs here
    than the threads have; [ThreadsV1] has the exact ones. *)

Inductive event := Recv (d : rx_msg) | Consume | Stop.

Inductive step (o : byte_order) (C : Z) (e : t) : event -> t -> Prop :=
  | step_recv d : step o C e (Recv d) (io_recv C d e)
  | step_consume : loop_cond e = true -> step o C e Consume (process_iter o C e)
  | step_stop : step o C e Stop (request_stop e).

Inductive run (o : byte_order) (C : Z) (e : t) : list event -> t -> Prop :=
  | run_nil : run o C e [] e
  | run_snoc evs e1 ev e2 : run o C e evs e1 -> step o C e1 ev e2 -> run o C e (evs ++ [ev]) e2.

End EngineV1.

(** ** The I/O thread's effect *)

Section ingest.
Context (C : Z) `{HC : RingCapacity C}.

(** The datagrams that are well-formed frames. *)
Definition frame_ok (d : rx_msg) : bool := negb (rx_trunc d) && (rx_len d =? kWireSize).

(** A datagram's receive buffer holds at least the bytes reported. *)
Definition rx_ok (d : rx_msg) : Prop := (44 <= length (rx_buf d))%nat /\ bytes_ok (rx_buf d).

(** The frames waiting in the ready ring, oldest first. *)
Definition queued (p : FramePool.t) : list (list Z) :=
  (fun idx => arr_get (FramePool.slots p) idx) <$> ready_items C p.

(** The two outcomes: the frame is appended to the queue, or it is counted as
    dropped; the failure branch of [ready.push] is never taken. *)
Lemma handle_datagram_spec d pool m :
  pool_inv C pool [] -> rx_ok d ->
  let '(pool', m') := handle_datagram C d (pool, m) in
  pool_inv C pool' [] /\
  ((frame_ok d = true /\ free_items C pool <> [] /\ m' = m /\
    queued pool' = queued pool ++ [take 44 (rx_buf d)]) \/
   ((frame_ok d = false \/ free_items C pool = []) /\ m' = Metrics.inc_drops 1 m /\
    queued pool' = queued pool)).
Proof.
  intros I [Hlen _]. unfold handle_datagram, frame_ok. cbv zeta.
  destruct (rx_trunc d) eqn:Et; cbn [orb andb negb]; [by split; [|right; eauto]|].
  destruct (Z.eqb_spec (rx_len d) kWireSize) as [Hl|Hl]; cbn [orb andb negb]; [|by split; [|right; eauto]].
  pose proof (free_pop_spec C pool [] I) as Hpop.
  destruct (RingBuffer.pop C (FramePool.free pool)) as [[idx|] rb];
    [|destruct Hpop as (He & I' & He'); split; [done|right; eauto]].
  destruct Hpop as [I1 Hfree]. set (p1 := FramePool.set_free pool rb) in *.
  apply (write_slot_inv C _ _ idx (rx_buf d)) in I1 as I2.
  pose proof (ready_push_spec C _ _ _ I2) as Hpush.
  destruct (RingBuffer.push C idx (FramePool.ready (FramePool.write_slot p1 idx (rx_buf d))))
    as [b rb']. destruct Hpush as (-> & I3 & Hready). cbn [negb]. split; [done|]. left.
  split_and!; [done|by rewrite Hfree|done|].
  unfold queued. rewrite Hready, fmap_app. cbn [fmap list_fmap]. f_equal.
  - apply list_fmap_ext. intros i j Hij. apply list_elem_of_lookup_2 in Hij.
    change (ready_items C (FramePool.write_slot p1 idx (rx_buf d))) with (ready_items C p1) in Hij.
    pose proof (ready_in_range C _ _ _ I1 Hij). pose proof (ready_not_held C _ _ _ I1 Hij) as Hne.
    pose proof (held_in_range C _ _ idx I1 (list_elem_of_here _ _)).
    apply (slot_write_other p1 idx j); [lia|lia|]. intros <-. apply Hne, list_elem_of_here.
  - f_equal. apply (slot_read_write C p1 [idx]); [done|apply list_elem_of_here|done].
Qed.

(** ** The consumer's effect *)

Definition engine_state (e : EngineV1.t) : MarketDataMsg * tracker * Metrics.t :=
  (EngineV1.msg e, EngineV1.seq e, EngineV1.m_ e).

Lemma process_iter_spec o e :
  pool_inv C (EngineV1.pool_ e) [] ->
  let e' := EngineV1.process_iter o C e in
  pool_inv C (EngineV1.pool_ e') [] /\ EngineV1.running_ e' = EngineV1.running_ e /\
  match queued (EngineV1.pool_ e) with
  | [] => engine_state e' = engine_state e /\ queued (EngineV1.pool_ e') = []
  | frame :: rest =>
      engine_state e' = consume_slot o frame (engine_state e) /\
      queued (EngineV1.pool_ e') = rest
  end.
Proof.
  intros I. cbv zeta. unfold EngineV1.process_iter.
  pose proof (ready_pop_spec C _ [] I) as Hpop.
  destruct (RingBuffer.pop C (FramePool.ready (EngineV1.pool_ e))) as [[idx|] rb].
  - destruct Hpop as [I1 Hready]. set (p1 := FramePool.set_ready (EngineV1.pool_ e) rb) in *.
    cbv zeta. unfold queued at 1. rewrite Hready. cbn [fmap list_fmap].
    change (FramePool.slots (EngineV1.pool_ e)) with (FramePool.slots p1).
    unfold engine_state at 2.
    destruct (consume_slot o (arr_get (FramePool.slots p1) idx) _) as [[msg seq] m].
    pose proof (free_push_spec C p1 [] idx I1) as Hpush.
    destruct (RingBuffer.push C idx (FramePool.free p1)) as [b fb].
    by destruct Hpush as (-> & I2 & Hfree).
  - destruct Hpop as (He & I1 & He'). cbv zeta. unfold queued. rewrite He. cbn in *.
    by rewrite He'.
Qed.

(** Consuming a list of frames in order. *)
Definition consume_all (o : byte_order) (frames : list (list Z))
    (st : MarketDataMsg * tracker * Metrics.t) : MarketDataMsg * tracker * Metrics.t :=
  fold_left (fun st f => consume_slot o f st) frames st.

(** ** The I/O thread's drops commute with the consumer's counting *)

Lemma track_seq_drops seq tr m n :
  track_seq seq tr (Metrics.inc_drops n m)
  = ((track_seq seq tr m).1, Metrics.inc_drops n (track_seq seq tr m).2).
Proof.
  unfold track_seq. repeat case_match; try done.
  cbn. unfold Metrics.inc_drops. cbn. rewrite !wrapu_add_l.
  by replace (Metrics.drops_ m + n + 1) with (Metrics.drops_ m + 1 + n) by lia.
Qed.

Lemma consume_slot_drops o f msg tr m n :
  consume_slot o f (msg, tr, Metrics.inc_drops n m)
  = ((consume_slot o f (msg, tr, m)).1,
     Metrics.inc_drops n (consume_slot o f (msg, tr, m)).2).
Proof.
  unfold consume_slot. destruct (decode o f kWireSize msg) as [[] msg']; [|done].
  change (Metrics.inc_received 1 (Metrics.inc_drops n m))
    with (Metrics.inc_drops n (Metrics.inc_received 1 m)).
  rewrite track_seq_drops. by destruct (track_seq _ tr (Metrics.inc_received 1 m)).
Qed.

Lemma inc_drops_add a b m :
  Metrics.inc_drops a (Metrics.inc_drops b m) = Metrics.inc_drops (b + a) m.
Proof. unfold Metrics.inc_drops; cbn. rewrite wrapu_add_l. f_equal. f_equal. lia. Qed.

(** [add_drops n st]: [st] with [n] more drops. *)
Definition add_drops (n : Z) (st : MarketDataMsg * tracker * Metrics.t)
    : MarketDataMsg * tracker * Metrics.t := (st.1, Metrics.inc_drops n st.2).

(** ** Runs of the two threads *)

Definition received_of (evs : list EngineV1.event) : list rx_msg :=
  omap (fun ev => match ev with EngineV1.Recv d => Some d | _ => None end) evs.

Lemma received_of_app evs ev :
  received_of (evs ++ [ev])
  = received_of evs ++ match ev with EngineV1.Recv d => [d] | _ => [] end.
Proof. unfold received_of. rewrite omap_app. by destruct ev. Qed.

(** [consumed] are the frames the consumer has processed, [lost] the number of
    datagrams dropped by the I/O thread. *)
Record run_inv o (st0 : MarketDataMsg * tracker * Metrics.t) (evs : list EngineV1.event)
    (e : EngineV1.t) (consumed : list (list Z)) (lost : nat) : Prop := {
  run_pool : pool_inv C (EngineV1.pool_ e) [];
  run_sublist : sublist (consumed ++ queued (EngineV1.pool_ e))
    ((fun d => take 44 (rx_buf d)) <$> filter (fun d => frame_ok d = true) (received_of evs));
  run_count :
    (length consumed + length (queued (EngineV1.pool_ e)) + lost = length (received_of evs))%nat;
  run_state : engine_state e = add_drops (Z.of_nat lost) (consume_all o consumed st0);
  run_lossless : Forall (fun d => frame_ok d = true) (received_of evs) ->
    (length (received_of evs) <= Z.to_nat C)%nat -> lost = 0%nat
}.

Lemma run_inv_recv o st0 evs e consumed lost d :
  rx_ok d -> run_inv o st0 evs e consumed lost ->
  exists lost', run_inv o st0 (evs ++ [EngineV1.Recv d]) (EngineV1.io_recv C d e) consumed lost'.
Proof.
  intros Hd [I Hs Hc Hst Hll]. unfold EngineV1.io_recv.
  pose proof (handle_datagram_spec d _ (EngineV1.m_ e) I Hd) as Hh.
  destruct (handle_datagram C d _) as [pool' m'].
  destruct Hh as [I' [(Hok & _ & -> & Hq)|(Hno & -> & Hq)]].
  - exists lost. split; cbn; rewrite ?received_of_app, ?filter_app, ?fmap_app, ?Hq; try done.
    + rewrite app_assoc. apply sublist_app; [done|].
      rewrite filter_cons_True, filter_nil by done. done.
    + rewrite !length_app. simpl. lia.
    + rewrite length_app, Forall_app. simpl. intros [Hf _] Hl. apply Hll; [done|lia].
  - exists (S lost). split; cbn; rewrite ?received_of_app, ?filter_app, ?fmap_app, ?Hq; try done.
    + by apply sublist_inserts_r.
    + rewrite !length_app. simpl. lia.
    + unfold engine_state, add_drops in *; cbn in *.
      destruct (consume_all o consumed st0) as [[msg0 tr0] m0]; cbn in *.
      injection Hst as -> -> ->. rewrite inc_drops_add.
      by replace (Z.of_nat lost + 1) with (Z.of_nat (S lost)) by lia.
    + rewrite length_app, Forall_app. simpl. intros [Hf Hd'] Hl. exfalso.
      apply Forall_cons_1 in Hd' as [Hd' _]. destruct Hno as [Hno|Hno]; [congruence|].
      pose proof (pool_count C _ _ I) as Hn. rewrite Hno in Hn. simpl in Hn.
      unfold queued in Hc. rewrite length_fmap in Hc. lia.
Qed.

Lemma run_inv_consume o st0 evs e consumed lost :
  run_inv o st0 evs e consumed lost ->
  exists consumed', run_inv o st0 (evs ++ [EngineV1.Consume]) (EngineV1.process_iter o C e)
    consumed' lost.
Proof.
  intros [I Hs Hc Hst Hll]. destruct (process_iter_spec o e I) as (I' & _ & Hq).
  destruct (queued (EngineV1.pool_ e)) as [|f rest] eqn:Eq; destruct Hq as [Hst' Hq'].
  - exists consumed. split; rewrite ?received_of_app, ?app_nil_r, ?Hq', ?Hst'; done.
  - exists (consumed ++ [f]). split; rewrite ?received_of_app, ?app_nil_r, ?Hq', ?Hst'; try done.
    + by rewrite <- app_assoc.
    + rewrite length_app. simpl in *. lia.
    + rewrite Hst. unfold add_drops at 1, consume_all. rewrite fold_left_app. cbn [fold_left].
      destruct (fold_left _ consumed st0) as [[msg tr] m]. cbn [fst snd].
      rewrite consume_slot_drops. done.
Qed.

End ingest.

(** ** Properties *)

Section properties.
Context (C : Z) `{HC : RingCapacity C}.

Definition start_state : MarketDataMsg * tracker * Metrics.t :=
  (zero_msg, fresh_tracker, Metrics.zero).

Lemma start_inv o fb rb :
  Z.of_nat (length fb) = C -> Z.of_nat (length rb) = C ->
  run_inv C o start_state [] (EngineV1.start C fb rb) [] 0.
Proof.
  intros Hf Hr. pose proof (capacity_gt_1 (Capacity := C)).
  destruct (init_spec C (FramePool.construct C fb rb)) as (I & _ & Hready);
    [done|done|cbn; rewrite length_replicate; lia| |].
  { cbn. apply Forall_replicate, length_replicate. }
  assert (Hq : queued C (EngineV1.pool_ (EngineV1.start C fb rb)) = []).
  { unfold queued. cbn [EngineV1.pool_ EngineV1.start]. by rewrite Hready. }
  split; rewrite ?Hq; done.
Qed.

Lemma run_has_inv o fb rb evs e :
  Z.of_nat (length fb) = C -> Z.of_nat (length rb) = C ->
  Forall rx_ok (received_of evs) -> EngineV1.run o C (EngineV1.start C fb rb) evs e ->
  exists consumed lost, run_inv C o start_state evs e consumed lost.
Proof.
  intros Hf Hr Hok Hrun. induction Hrun as [|evs e1 ev e2 Hrun IH Hstep].
  { exists [], 0%nat. by apply start_inv. }
  rewrite received_of_app in Hok. apply Forall_app in Hok as [Hok Hev].
  destruct (IH Hok) as (consumed & lost & I). destruct Hstep as [d|_|].
  - apply Forall_cons_1 in Hev as [Hd _].
    destruct (run_inv_recv C o _ _ _ _ _ d Hd I) as [lost' I']. eauto.
  - destruct (run_inv_consume C o _ _ _ _ _ I) as [consumed' I']. eauto.
  - exists consumed, lost. destruct I as [Ip Is Ic Ist Ill].
    split; rewrite ?received_of_app, ?app_nil_r; done.
Qed.

(** C5 (delivery).  In every interleaving of the I/O and the consumer thread of
    engine v1, the frames consumed and those still queued are, in order, among
    the well-formed datagrams received; every datagram is consumed, queued or
    counted as dropped by the I/O thread; and the tracker and the metrics are
    those of processing the consumed frames in order, plus these drops.  The
    pool keeps every slot index exactly once. *)
Theorem v1_delivery o fb rb evs e :
  Z.of_nat (length fb) = C -> Z.of_nat (length rb) = C ->
  Forall rx_ok (received_of evs) -> EngineV1.run o C (EngineV1.start C fb rb) evs e ->
  pool_inv C (EngineV1.pool_ e) [] /\
  exists consumed lost,
    sublist (consumed ++ queued C (EngineV1.pool_ e))
      ((fun d => take 44 (rx_buf d)) <$> filter (fun d => frame_ok d = true) (received_of evs)) /\
    (length consumed + length (queued C (EngineV1.pool_ e)) + lost
     = length (received_of evs))%nat /\
    engine_state e = add_drops (Z.of_nat lost) (consume_all o consumed start_state).
Proof.
  intros Hf Hr Hok Hrun. destruct (run_has_inv o fb rb evs e) as (consumed & lost & I); try done.
  split; [apply I|]. exists consumed, lost. split_and!; apply I.
Qed.

(** A datagram that carries a message, encoded on some host. *)
Definition carries (d : rx_msg) (m : MarketDataMsg) : Prop :=
  frame_ok d = true /\ rx_ok d /\
  exists o out, length out = 44%nat /\ take 44 (rx_buf d) = encode o out m.

Lemma consume_encoded o ms msg tr mt :
  Forall msg_ok ms ->
  (consume_all o (wire_layout <$> ms) (msg, tr, mt)).1.2
    = (track_all (seq_num <$> ms) tr mt).1 /\
  (consume_all o (wire_layout <$> ms) (msg, tr, mt)).2
    = (track_all (seq_num <$> ms) tr mt).2.
Proof.
  revert msg tr mt. induction ms as [|m ms IH]; intros msg tr mt Hok; [done|].
  apply Forall_cons_1 in Hok as [Hm Hok]. cbn [fmap list_fmap consume_all fold_left track_all].
  unfold consume_slot at 2 4.
  rewrite decode_parse by (done || rewrite ?length_wire_layout; (apply wire_layout_ok || lia)).
  rewrite wire_parse_layout by done.
  destruct (track_seq (seq_num m) tr (Metrics.inc_received 1 mt)) as [tr' mt'].
  by apply IH.
Qed.

Lemma consume_all_ok o fs st : Metrics.ok st.2 -> Metrics.ok (consume_all o fs st).2.
Proof.
  revert st. induction fs as [|f fs IH]; intros st Hm; [done|]. by apply IH, consume_slot_ok.
Qed.

Lemma carries_frames ds ms :
  Forall2 carries ds ms ->
  Forall (fun d => frame_ok d = true) ds /\ Forall rx_ok ds /\ length ds = length ms /\
  ((fun d => take 44 (rx_buf d)) <$> filter (fun d => frame_ok d = true) ds)
  = (wire_layout <$> ms).
Proof.
  induction 1 as [|d m ds ms (Hf & Hok & o & out & Hout & He) _ (IH1 & IH2 & IH3 & IH4)].
  { done. }
  split_and!; [by constructor|by constructor|by simpl; f_equal|].
  rewrite filter_cons_True by done. cbn [fmap list_fmap].
  by rewrite He, encode_layout, IH4.
Qed.

End properties.

(** A run of a pool of 8: two messages and a short datagram, one consumer
    iteration in between, then stop. *)
Definition sample_rx (seq : Z) : rx_msg :=
  mkRx (wire_layout (mkMsg seq 1 0 10 11 1 2) ++ [0; 0; 0; 0]) 44 false.

Definition short_rx : rx_msg := mkRx (replicate 64 0) 40 false.

Definition sample_start : EngineV1.t := EngineV1.start 8 (replicate 8 0) (replicate 8 0).

Definition sample_events : list EngineV1.event :=
  [EngineV1.Recv (sample_rx 5); EngineV1.Recv short_rx; EngineV1.Consume;
   EngineV1.Recv (sample_rx 9); EngineV1.Stop].

Definition sample_end : EngineV1.t :=
  EngineV1.request_stop (EngineV1.io_recv 8 (sample_rx 9)
    (EngineV1.process_iter little_endian 8
      (EngineV1.io_recv 8 short_rx (EngineV1.io_recv 8 (sample_rx 5) sample_start)))).

Lemma sample_run : EngineV1.run little_endian 8 sample_start sample_events sample_end.
Proof.
  eapply (EngineV1.run_snoc _ _ _ (take 4 sample_events) _ EngineV1.Stop); [|constructor].
  eapply (EngineV1.run_snoc _ _ _ (take 3 sample_events)); [|constructor].
  eapply (EngineV1.run_snoc _ _ _ (take 2 sample_events) _ EngineV1.Consume); [|by constructor].
  eapply (EngineV1.run_snoc _ _ _ (take 1 sample_events)); [|constructor].
  eapply (EngineV1.run_snoc _ _ _ []); constructor.
Qed.

Lemma sample_rx_ok : Forall rx_ok (received_of sample_events).
Proof.
  unfold rx_ok. apply (bool_decide_unpack _). vm_compute. exact I.
Qed.

Lemma v1_delivery_witness :
  exists consumed lost,
    (length consumed + 1 + lost = 3)%nat /\
    engine_state sample_end
    = add_drops (Z.of_nat lost) (consume_all little_endian consumed start_state).
Proof.
  destruct (v1_delivery 8 little_endian (replicate 8 0) (replicate 8 0) _ _ eq_refl eq_refl sample_rx_ok sample_run)
    as (_ & consumed & lost & _ & Hn & Hst).
  exists consumed, lost. split; [exact Hn|exact Hst].
Defined.

Lemma sample_carries seq : carries (sample_rx seq) (mkMsg seq 1 0 10 11 1 2).
Proof.
  split_and!; [done| |].
  - split; cbn [rx_buf sample_rx]; [rewrite length_app, length_wire_layout; simpl; lia|].
    apply Forall_app. split; [apply wire_layout_ok|].
    apply (bool_decide_unpack _). vm_compute. exact I.
  - exists little_endian, (replicate 44 0). split; [done|].
    rewrite encode_layout by done. apply take_app_length', eq_sym, length_wire_layout.
Qed.
