(* ===== verification/ThreadsV1.v ===== *)
(** * ThreadsV1: the two threads of engine v1 with their program counters

    [EngineV1] interleaves whole iterations and leaves open when a thread stops
    taking steps.  Here each thread has a program counter: the I/O thread between
    [free.pop] and [ready.push] of one datagram (body of the receive loop of
    [src/common/net/v1/udp_server.hpp]), the consumer at the two tests of
    its loop condition, at [ready.pop], while it holds a slot, and after it has
    left the loop ([Engine::process_loop] of [src/engine/v1/engine.cpp]).
    [Engine::stop] clears [running_] before it stops the server, so datagrams may
    arrive at any time, also after the consumer has left.  Each ring has one
    producer and one consumer thread (the I/O thread's push to the free ring, for
    a ready ring that is full, is never reached: there are as many indices as
    places), so by [Spsc] its operations act as single steps.  The steps are those
    of one total order: a frame is published when the new tail of the ready ring
    is visible to the consumer. *)

From Stdlib Require Import ZArith Lia.
From stdpp Require Import base numbers list relations.
From S2P Require Import Prelude Wire Ring Metrics Pool EngineV1.

Local Open Scope Z_scope.

Module ThreadsV1.

Inductive io_pc :=
  | IoIdle                                    (* before the next datagram *)
  | IoHolds (idx : Z) (d : rx_msg).           (* after free.pop(idx) *)

Inductive c_pc :=
  | AtFlag                                    (* before running_.load *)
  | AtEmpty                                   (* before pool_.ready.empty() *)
  | AtPop                                     (* before pool_.ready.pop(idx) *)
  | Holds (idx : Z)                           (* after a successful pop *)
  | Exited.                                   (* process_loop has returned *)

Record cfg := mk { eng : EngineV1.t; io : io_pc; con : c_pc }.

Definition set_pool (e : EngineV1.t) (p : FramePool.t) : EngineV1.t :=
  EngineV1.mk (EngineV1.running_ e) (EngineV1.seq e) (EngineV1.m_ e) p (EngineV1.msg e).

Definition inc_drop (e : EngineV1.t) : EngineV1.t :=
  EngineV1.mk (EngineV1.running_ e) (EngineV1.seq e) (Metrics.inc_drops 1 (EngineV1.m_ e))
    (EngineV1.pool_ e) (EngineV1.msg e).

(** The I/O thread: the tests of the datagram and [free.pop]. *)
Definition io_take (C : Z) (d : rx_msg) (e : EngineV1.t) : EngineV1.t * io_pc :=
  if rx_trunc d || negb (rx_len d =? kWireSize) then (inc_drop e, IoIdle)
  else
    let '(popped, rb) := RingBuffer.pop C (FramePool.free (EngineV1.pool_ e)) in
    let e := set_pool e (FramePool.set_free (EngineV1.pool_ e) rb) in
    match popped with
    | None => (inc_drop e, IoIdle)
    | Some idx => (e, IoHolds idx d)
    end.

(** [memcpy] into the slot and [ready.push], with the branch of a refused push. *)
Definition io_publish (C : Z) (idx : Z) (d : rx_msg) (e : EngineV1.t) : EngineV1.t :=
  let pool := FramePool.write_slot (EngineV1.pool_ e) idx (rx_buf d) in
  let '(ok, rb) := RingBuffer.push C idx (FramePool.ready pool) in
  let pool := FramePool.set_ready pool rb in
  if negb ok then
    let '(_, fb) := RingBuffer.push C idx (FramePool.free pool) in
    inc_drop (set_pool e (FramePool.set_free pool fb))
  else set_pool e pool.

(** The consumer's next access; [None] once it has left the loop. *)
Definition c_step (o : byte_order) (C : Z) (e : EngineV1.t) (pc : c_pc)
    : option (EngineV1.t * c_pc) :=
  match pc with
  | AtFlag => Some (e, if EngineV1.running_ e then AtPop else AtEmpty)
  | AtEmpty =>
      Some (e, if RingBuffer.empty (FramePool.ready (EngineV1.pool_ e)) then Exited else AtPop)
  | AtPop =>
      let '(popped, rb) := RingBuffer.pop C (FramePool.ready (EngineV1.pool_ e)) in
      let e := set_pool e (FramePool.set_ready (EngineV1.pool_ e) rb) in
      Some (e, match popped with Some idx => Holds idx | None => AtFlag (* spin_pause *) end)
  | Holds idx =>
      let pool := EngineV1.pool_ e in
      let '(msg, seq, m) :=
        consume_slot o (arr_get (FramePool.slots pool) idx)
          (EngineV1.msg e, EngineV1.seq e, EngineV1.m_ e) in
      let '(_, fb) := RingBuffer.push C idx (FramePool.free pool) in
      Some (EngineV1.mk (EngineV1.running_ e) seq m (FramePool.set_free pool fb) msg, AtFlag)
  | Exited => None
  end.

(** [Recv d]: the I/O thread starts on datagram [d]; [Io]: it finishes the one it
    is at; [Consumer]: the consumer's next access; [Stop]: [running_.store(false)]
    of [Engine::stop]. *)
Inductive event := Recv (d : rx_msg) | Io | Consumer | Stop.

Definition step (o : byte_order) (C : Z) (ev : event) (g : cfg) : option cfg :=
  match ev with
  | Recv d =>
      match io g with
      | IoIdle => let '(e, pc) := io_take C d (eng g) in Some (mk e pc (con g))
      | IoHolds _ _ => None
      end
  | Io =>
      match io g with
      | IoIdle => None
      | IoHolds idx d => Some (mk (io_publish C idx d (eng g)) IoIdle (con g))
      end
  | Consumer => '(e, pc) ← c_step o C (eng g) (con g); Some (mk e (io g) pc)
  | Stop => Some (mk (EngineV1.request_stop (eng g)) (io g) (con g))
  end.

(** A run: the events in their order; [None] if one was not possible. *)
Fixpoint exec (o : byte_order) (C : Z) (evs : list event) (g : cfg) : option cfg :=
  match evs with
  | [] => Some g
  | ev :: evs => g' ← step o C ev g; exec o C evs g'
  end.

(** Both threads just started. *)
Definition start (C : Z) (free_buf ready_buf : list Z) : cfg :=
  mk (EngineV1.start C free_buf ready_buf) IoIdle AtFlag.

End ThreadsV1.

Import ThreadsV1.

#[export] Instance c_pc_eq_dec : EqDecision c_pc.
Proof. solve_decision. Defined.

(** ** The pieces put together again are the loop bodies *)

Lemma io_take_publish C d e :
  (let '(e', pc) := io_take C d e in
   match pc with IoIdle => e' | IoHolds idx d' => io_publish C idx d' e' end)
  = EngineV1.io_recv C d e.
Proof.
  unfold io_take, io_publish, EngineV1.io_recv, handle_datagram.
  destruct (rx_trunc d || _); [done|].
  destruct (RingBuffer.pop C _) as [[idx|] rb]; [|done]. cbn.
  destruct (RingBuffer.push C idx _) as [[] rb']; [done|]. cbn.
  by destruct (RingBuffer.push C idx _) as [b fb].
Qed.

Lemma c_pop_finish o C e :
  (let '(e', pc) := default (e, AtFlag) (c_step o C e AtPop) in
   match pc with
   | Holds _ => (default (e, AtFlag) (c_step o C e' pc)).1
   | _ => e'
   end) = EngineV1.process_iter o C e.
Proof.
  unfold EngineV1.process_iter. cbn [c_step].
  destruct (RingBuffer.pop C _) as [[idx|] rb]; [|done].
  cbn -[consume_slot RingBuffer.push].
  match goal with |- context [consume_slot ?a ?b ?c] =>
    destruct (consume_slot a b c) as [[msg seq] m] end.
  by destruct (RingBuffer.push C idx _) as [b fb].
Qed.

(** ** Reference reading of a run *)

(** The datagrams received, and the frames they carry. *)
Definition rx_of (ev : event) : list rx_msg :=
  match ev with Recv d => [d] | _ => [] end.

Definition rx_list (evs : list event) : list rx_msg := evs ≫= rx_of.

Definition rx_frames (ds : list rx_msg) : list (list Z) :=
  (fun d => take 44 (rx_buf d)) <$> filter (fun d => frame_ok d = true) ds.

(** The steps the consumer takes. *)
Definition is_consumer (ev : event) : bool := match ev with Consumer => true | _ => false end.

Definition consumer_steps (evs : list event) : nat := length (filter is_consumer evs).

(** The slots the threads hold and the frames in them. *)
Definition io_held (g : cfg) : list Z :=
  match io g with IoHolds idx _ => [idx] | IoIdle => [] end.

Definition c_held (g : cfg) : list Z :=
  match con g with Holds idx => [idx] | _ => [] end.

Definition io_frame (g : cfg) : list (list Z) :=
  match io g with IoHolds _ d => [take 44 (rx_buf d)] | IoIdle => [] end.

Definition c_frame (g : cfg) : list (list Z) :=
  (fun idx => arr_get (FramePool.slots (EngineV1.pool_ (eng g))) idx) <$> c_held g.

Section flow.
Context (C : Z) `{HC : RingCapacity C} (o : byte_order).
Implicit Types (g : cfg) (ev : event) (evs : list event).

Definition pool_of g : FramePool.t := EngineV1.pool_ (eng g).

(** The frames received and not yet processed, oldest first. *)
Definition waiting g : list (list Z) := c_frame g ++ queued C (pool_of g) ++ io_frame g.

Record thr_inv g : Prop := {
  thr_pool : pool_inv C (pool_of g) (io_held g ++ c_held g);
  thr_rx : match io g with IoHolds _ d => rx_ok d | IoIdle => True end
}.

(** [flow g ds g' more new lost]: from [g] to [g'], while [ds] arrived, the
    consumer processed [more], the I/O thread took in [new] and dropped [lost]
    datagrams. *)
Record flow g (ds : list rx_msg) g' (more new : list (list Z)) (lost : nat) : Prop := {
  flow_frames : waiting g ++ new = more ++ waiting g';
  flow_state : engine_state (eng g')
    = add_drops (Z.of_nat lost) (consume_all o more (engine_state (eng g)));
  flow_new : sublist new (rx_frames ds);
  flow_count : (length new + lost = length ds)%nat;
  flow_io : (length (io_frame g') <= length (io_frame g) + length new)%nat;
  flow_exited : con g = Exited -> con g' = Exited /\ more = [];
  flow_lossless : Forall (fun d => frame_ok d = true) ds ->
    (length (waiting g) + length ds <= Z.to_nat C)%nat -> lost = 0%nat
}.

Lemma add_drops_0 st : Metrics.ok st.2 -> add_drops 0 st = st.
Proof. destruct st as [[msg tr] m]. unfold add_drops; cbn. intros ?. by rewrite inc_drops_0. Qed.

Lemma consume_all_drops fs n st :
  consume_all o fs (add_drops n st) = add_drops n (consume_all o fs st).
Proof.
  revert st. induction fs as [|f fs IH]; intros [[msg tr] m]; [done|].
  unfold consume_all in *. cbn [fold_left]. unfold add_drops at 1; cbn [fst snd].
  rewrite consume_slot_drops. apply IH.
Qed.

Lemma add_drops_add a b st : add_drops a (add_drops b st) = add_drops (b + a) st.
Proof. unfold add_drops; cbn. by rewrite inc_drops_add. Qed.

Lemma consume_all_app fs1 fs2 st :
  consume_all o (fs1 ++ fs2) st = consume_all o fs2 (consume_all o fs1 st).
Proof. apply fold_left_app. Qed.

Lemma rx_frames_app ds ds' : rx_frames (ds ++ ds') = rx_frames ds ++ rx_frames ds'.
Proof. unfold rx_frames. by rewrite filter_app, fmap_app. Qed.

Lemma flow_trans g ds g1 more new lost ds' g2 more' new' lost' :
  flow g ds g1 more new lost -> flow g1 ds' g2 more' new' lost' ->
  flow g (ds ++ ds') g2 (more ++ more') (new ++ new') (lost + lost').
Proof.
  intros [F1 S1 N1 K1 I1 E1 L1] [F2 S2 N2 K2 I2 E2 L2]. split.
  - by rewrite app_assoc, F1, <- !app_assoc, F2.
  - rewrite S2, S1, consume_all_drops, add_drops_add, consume_all_app. f_equal. lia.
  - rewrite rx_frames_app. by apply sublist_app.
  - rewrite !length_app. lia.
  - rewrite length_app. lia.
  - intros He. destruct (E1 He) as [He' ->]. by apply E2.
  - rewrite Forall_app, length_app. intros [Ha Hb] Hl. rewrite L1 by (done || lia).
    apply L2; [done|]. apply (f_equal length) in F1. rewrite !length_app in F1. lia.
Qed.

(** The engine's counters are in range, so that no drop leaves them alone. *)
Definition counters_ok g : Prop := Metrics.ok (EngineV1.m_ (eng g)).

Lemma flow_nil g : counters_ok g -> flow g [] g [] [] 0.
Proof.
  intros Hm. split; try done.
  - by rewrite app_nil_r.
  - symmetry. by apply add_drops_0.
  - lia.
Qed.

(** *** The consumer's accesses *)

Lemma c_frame_length g : length (c_frame g) = length (c_held g).
Proof. apply length_fmap. Qed.

Lemma waiting_length g :
  length (waiting g)
  = (length (ready_items C (pool_of g)) + length (io_held g) + length (c_held g))%nat.
Proof.
  unfold waiting, queued. rewrite !length_app, c_frame_length, length_fmap.
  unfold io_frame, io_held. destruct (io g); simpl; lia.
Qed.

Lemma queued_nil p : queued C p = [] <-> ready_items C p = [].
Proof. unfold queued. by destruct (ready_items C p). Qed.

(** A step that processes [more] and takes in nothing. *)
Lemma flow_quiet g g' more :
  counters_ok g -> waiting g = more ++ waiting g' ->
  engine_state (eng g') = consume_all o more (engine_state (eng g)) ->
  io g' = io g -> (con g = Exited -> con g' = Exited /\ more = []) ->
  flow g [] g' more [] 0.
Proof.
  intros Hm Hw Hs Hio He. split; try done.
  - by rewrite app_nil_r.
  - rewrite Hs. symmetry. apply add_drops_0. by apply consume_all_ok.
  - unfold io_frame. rewrite Hio. lia.
Qed.

(** [waiting] and [thr_inv] see the program counter only through [c_held]. *)
Lemma c_move_flow g pc :
  thr_inv g -> counters_ok g -> c_held (mk (eng g) (io g) pc) = c_held g -> con g <> Exited ->
  thr_inv (mk (eng g) (io g) pc) /\ flow g [] (mk (eng g) (io g) pc) [] [] 0.
Proof.
  intros [I Hrx] Hm Hh Hne. split.
  - split; [by rewrite Hh|done].
  - apply flow_quiet; try done. unfold waiting, c_frame. by rewrite Hh.
Qed.

Lemma c_pop_flow e ipc :
  let g := mk e ipc AtPop in
  thr_inv g -> counters_ok g ->
  exists e' pc, c_step o C e AtPop = Some (e', pc) /\
    thr_inv (mk e' ipc pc) /\ flow g [] (mk e' ipc pc) [] [] 0 /\
    EngineV1.running_ e' = EngineV1.running_ e /\
    match queued C (pool_of g) with
    | [] => pc = AtFlag /\ queued C (EngineV1.pool_ e') = []
    | _ :: rest => (exists idx, pc = Holds idx) /\ queued C (EngineV1.pool_ e') = rest
    end.
Proof.
  intros g [I Hrx] Hm. cbn [c_step]. pose proof (ready_pop_spec C _ _ I) as Hpop.
  unfold pool_of in *; cbn [eng g] in *.
  destruct (RingBuffer.pop C (FramePool.ready (EngineV1.pool_ e))) as [[idx|] rb].
  - destruct Hpop as [I1 Hr]. eexists _, _. split; [done|]. split_and!; [| |done|].
    + split; [|done]. revert I1. apply held_perm. cbn. rewrite app_nil_r. apply Permutation_cons_append.
    + apply flow_quiet; try done. unfold waiting, c_frame, queued, pool_of; cbn.
      rewrite Hr. done.
    + unfold queued. rewrite Hr. cbn. eauto.
  - destruct Hpop as (He & I1 & He'). eexists _, _. split; [done|]. split_and!; [done| |done|].
    + apply flow_quiet; try done. unfold waiting, c_frame, queued, pool_of; cbn.
      cbn in He'. by rewrite He, He'.
    + unfold queued. rewrite He. cbn. cbn in He'. by rewrite He'.
Qed.

Lemma c_finish_flow e ipc idx :
  let g := mk e ipc (Holds idx) in
  thr_inv g -> counters_ok g ->
  exists e' more, c_step o C e (Holds idx) = Some (e', AtFlag) /\
    thr_inv (mk e' ipc AtFlag) /\ flow g [] (mk e' ipc AtFlag) more [] 0 /\
    EngineV1.running_ e' = EngineV1.running_ e /\
    queued C (EngineV1.pool_ e') = queued C (EngineV1.pool_ e).
Proof.
  intros g [I Hrx] Hm. cbn [c_step].
  apply (held_perm C _ _ (idx :: io_held g)) in I;
    [|symmetry; apply Permutation_cons_append].
  pose proof (free_push_spec C _ _ _ I) as Hpush. unfold pool_of in Hpush; cbn [eng g] in Hpush.
  match goal with |- context [consume_slot ?a ?b ?c] =>
    destruct (consume_slot a b c) as [[msg seq] m] eqn:Ec end.
  destruct (RingBuffer.push C idx _) as [b fb]. destruct Hpush as (_ & I1 & _).
  eexists _, [_]. split; [done|]. split_and!; [| |done|done].
  - split; [|done]. by rewrite app_nil_r.
  - by apply flow_quiet.
Qed.

Lemma c_step_flow g e pc :
  thr_inv g -> counters_ok g -> c_step o C (eng g) (con g) = Some (e, pc) ->
  thr_inv (mk e (io g) pc) /\ exists more, flow g [] (mk e (io g) pc) more [] 0.
Proof.
  intros I Hm Hstep. destruct g as [e0 ipc cpc]; cbn [eng io con] in *.
  destruct cpc as [| | |idx|].
  - injection Hstep as <- <-. destruct (c_move_flow (mk e0 ipc AtFlag)
      (if EngineV1.running_ e0 then AtPop else AtEmpty) I Hm) as [I' F];
      [by destruct (EngineV1.running_ e0)|done|by eauto].
  - injection Hstep as <- <-. destruct (c_move_flow (mk e0 ipc AtEmpty)
      (if RingBuffer.empty (FramePool.ready (EngineV1.pool_ e0)) then Exited else AtPop) I Hm)
      as [I' F]; [by destruct (RingBuffer.empty _)|done|by eauto].
  - destruct (c_pop_flow e0 ipc I Hm) as (e' & pc' & He & I' & F & _).
    rewrite He in Hstep. injection Hstep as <- <-. eauto.
  - destruct (c_finish_flow e0 ipc idx I Hm) as (e' & more & He & I' & F & _).
    rewrite He in Hstep. injection Hstep as <- <-. eauto.
  - done.
Qed.

(** *** The I/O thread's accesses *)

Lemma io_take_flow d g :
  rx_ok d -> io g = IoIdle -> thr_inv g -> counters_ok g ->
  let '(e, pc) := io_take C d (eng g) in
  thr_inv (mk e pc (con g)) /\ queued C (EngineV1.pool_ e) = queued C (pool_of g) /\
  EngineV1.running_ e = EngineV1.running_ (eng g) /\
  exists new lost, flow g [d] (mk e pc (con g)) [] new lost.
Proof.
  intros Hd Hio [I Hrx] Hm. unfold io_take.
  assert (Hdrop : forall rb, pool_inv C (FramePool.set_free (pool_of g) rb) (c_held g) ->
    frame_ok d = false \/ free_items C (pool_of g) = [] ->
    flow g [d] (mk (inc_drop (set_pool (eng g) (FramePool.set_free (pool_of g) rb))) IoIdle (con g))
      [] [] 1).
  { intros rb I' Hno. split; try done.
    - unfold waiting, io_frame. rewrite Hio. by rewrite !app_nil_r.
    - apply sublist_nil_l.
    - cbn. lia.
    - intros Hf Hl. exfalso. apply Forall_cons_1 in Hf as [Hf _].
      destruct Hno as [Hno|Hno]; [congruence|].
      pose proof (pool_count C _ _ I) as Hn. rewrite Hno, length_app in Hn.
      rewrite waiting_length in Hl. simpl in *. lia. }
  unfold io_held in I. rewrite Hio in I. cbn [app] in I.
  destruct (rx_trunc d || negb (rx_len d =? kWireSize)) eqn:Eg.
  { split_and!; [|done|done|].
    - split; [by destruct g|done].
    - exists [], 1%nat. replace (inc_drop (eng g)) with
        (inc_drop (set_pool (eng g) (FramePool.set_free (pool_of g) (FramePool.free (pool_of g)))))
        by (unfold pool_of, inc_drop, set_pool; by destruct g as [[? ? ? [] ?] ? ?]).
      apply Hdrop; [by destruct (pool_of g)|left]. unfold frame_ok.
      by destruct (rx_trunc d), (rx_len d =? kWireSize). }
  pose proof (free_pop_spec C _ _ I) as Hpop.
  change (EngineV1.pool_ (eng g)) with (pool_of g).
  destruct (RingBuffer.pop C (FramePool.free (pool_of g))) as [[idx|] rb].
  - destruct Hpop as [I1 _]. split_and!; [by split|done|done|].
    exists [take 44 (rx_buf d)], 0%nat.
    assert (Hf : frame_ok d = true).
    { unfold frame_ok. by destruct (rx_trunc d), (rx_len d =? kWireSize). }
    split; try done.
    + unfold waiting, io_frame. rewrite Hio; cbn. by rewrite !app_nil_r, <- app_assoc.
    + symmetry. by apply add_drops_0.
    + unfold rx_frames. by rewrite filter_cons_True, filter_nil by done.
    + cbn. lia.
  - destruct Hpop as (He & I1 & _). split_and!; [by split|done|done|].
    exists [], 1%nat. by apply Hdrop; [|right].
Qed.

Lemma io_publish_flow idx d g :
  io g = IoHolds idx d -> thr_inv g -> counters_ok g ->
  let g' := mk (io_publish C idx d (eng g)) IoIdle (con g) in
  thr_inv g' /\ queued C (pool_of g') = queued C (pool_of g) ++ [take 44 (rx_buf d)] /\
  EngineV1.running_ (eng g') = EngineV1.running_ (eng g) /\ flow g [] g' [] [] 0.
Proof.
  intros Hio [I Hrx] Hm. rewrite Hio in Hrx. destruct Hrx as [Hlen _].
  unfold io_held in I. rewrite Hio in I. cbn [app] in I. cbv zeta.
  apply (write_slot_inv C _ _ idx (rx_buf d)) in I as I1.
  pose proof (ready_push_spec C _ _ _ I1) as Hpush. unfold io_publish.
  change (EngineV1.pool_ (eng g)) with (pool_of g).
  set (p1 := FramePool.write_slot (pool_of g) idx (rx_buf d)) in *.
  destruct (RingBuffer.push C idx (FramePool.ready p1)) as [b rb].
  destruct Hpush as (-> & I2 & Hr). cbn [negb].
  pose proof (held_in_range C _ _ idx I (list_elem_of_here _ _)) as Hidx.
  assert (Hother : forall j, 0 <= j -> j <> idx ->
    arr_get (FramePool.slots p1) j = arr_get (FramePool.slots (pool_of g)) j).
  { intros j Hj Hne. apply slot_write_other; (lia || done). }
  assert (Hq : queued C (FramePool.set_ready p1 rb)
    = queued C (pool_of g) ++ [take 44 (rx_buf d)]).
  { unfold queued. rewrite Hr, fmap_app. cbn [fmap list_fmap]. f_equal.
    - apply list_fmap_ext. intros i j Hij. apply list_elem_of_lookup_2 in Hij.
      change (ready_items C p1) with (ready_items C (pool_of g)) in Hij.
      pose proof (ready_in_range C _ _ _ I Hij). pose proof (ready_not_held C _ _ _ I Hij) as Hne.
      apply Hother; [lia|]. intros ->. apply Hne, list_elem_of_here.
    - f_equal. apply (slot_read_write C (pool_of g) (idx :: c_held g)); [done|apply list_elem_of_here|done]. }
  assert (Hc : c_frame (mk (set_pool (eng g) (FramePool.set_ready p1 rb)) IoIdle (con g))
    = c_frame g).
  { unfold c_frame, c_held; cbn. destruct (con g) as [| | |j|] eqn:Ec; try done. cbn. f_equal.
    assert (Hj : j ∈ idx :: c_held g) by (unfold c_held; rewrite Ec; set_solver).
    pose proof (held_in_range C _ _ j I Hj). apply Hother; [lia|]. intros ->.
    pose proof (NoDup_seqZ 0 C) as Hnd. rewrite <- (pool_owned _ _ _ I) in Hnd.
    apply NoDup_app in Hnd as (_ & _ & Hnd). apply NoDup_app in Hnd as (_ & _ & Hnd).
    unfold c_held in Hnd. rewrite Ec in Hnd. apply NoDup_cons in Hnd as [Hnd _]. set_solver. }
  split_and!; [by split|done|done|]. split; try done.
  - unfold waiting. rewrite Hc. unfold pool_of at 2; cbn [eng set_pool EngineV1.pool_]. rewrite Hq.
    unfold io_frame; cbn [io]. rewrite Hio. by rewrite !app_nil_r.
  - symmetry. by apply add_drops_0.
  - unfold io_frame at 1; cbn. lia.
Qed.

(** *** Runs *)

Lemma flow_counters g ds g' more new lost :
  flow g ds g' more new lost -> counters_ok g -> counters_ok g'.
Proof.
  intros F Hm. unfold counters_ok.
  change (EngineV1.m_ (eng g')) with (engine_state (eng g')).2. rewrite (flow_state _ _ _ _ _ _ F).
  unfold add_drops; cbn [snd].
  destruct (consume_all_ok o more (engine_state (eng g)) Hm) as (? & ? & ? & ? & ?).
  unfold Metrics.ok; simpl. auto 6 using wrapu_range with lia.
Qed.

Definition good g : Prop := thr_inv g /\ counters_ok g.

Lemma step_flow g ev g' :
  good g -> Forall rx_ok (rx_of ev) -> step o C ev g = Some g' ->
  good g' /\ exists more new lost, flow g (rx_of ev) g' more new lost.
Proof.
  intros [I Hm] Hrx Hstep.
  enough (thr_inv g' /\ exists more new lost, flow g (rx_of ev) g' more new lost)
    as (I' & more & new & lost & F).
  { split; [split; [done|by eapply flow_counters]|eauto]. }
  destruct ev as [d| | |]; cbn [step rx_of] in *.
  - destruct (io g) eqn:Eio; [|done]. apply Forall_cons_1 in Hrx as [Hd _].
    pose proof (io_take_flow d g Hd Eio I Hm) as Ht. destruct (io_take C d (eng g)) as [e pc].
    injection Hstep as <-. destruct Ht as (I' & _ & _ & new & lost & F). eauto.
  - destruct (io g) as [|idx d] eqn:Eio; [done|]. injection Hstep as <-.
    destruct (io_publish_flow idx d g Eio I Hm) as (I' & _ & _ & F). eauto.
  - destruct (c_step o C (eng g) (con g)) as [[e pc]|] eqn:Ec; [|done]. injection Hstep as <-.
    destruct (c_step_flow g e pc I Hm Ec) as (I' & more & F). eauto.
  - injection Hstep as <-. split; [by destruct I; split|]. exists [], [], 0%nat.
    by apply flow_quiet.
Qed.

Lemma rx_list_cons ev evs : rx_list (ev :: evs) = rx_of ev ++ rx_list evs.
Proof. done. Qed.

Lemma exec_flow g evs g' :
  good g -> Forall rx_ok (rx_list evs) -> exec o C evs g = Some g' ->
  good g' /\ exists more new lost, flow g (rx_list evs) g' more new lost.
Proof.
  revert g. induction evs as [|ev evs IH]; intros g Hg Hrx Hexec; cbn [exec] in Hexec.
  { injection Hexec as <-. split; [done|]. exists [], [], 0%nat. by apply flow_nil, Hg. }
  rewrite rx_list_cons in *. apply Forall_app in Hrx as [Hev Hrx].
  destruct (step o C ev g) as [g1|] eqn:Es; [|done]. cbn [mbind option_bind] in Hexec.
  destruct (step_flow g ev g1 Hg Hev Es) as (Hg1 & more & new & lost & F1).
  destruct (IH g1 Hg1 Hrx Hexec) as (Hg' & more' & new' & lost' & F2).
  split; [done|]. eexists _, _, _. by eapply flow_trans.
Qed.

Lemma thr_exec_app evs1 evs2 g :
  exec o C (evs1 ++ evs2) g = (exec o C evs1 g ≫= exec o C evs2).
Proof.
  revert g. induction evs1 as [|ev evs1 IH]; intros g; [done|]. cbn [app exec].
  destruct (step o C ev g) as [g1|]; [apply IH|done].
Qed.

Lemma rx_list_app evs1 evs2 : rx_list (evs1 ++ evs2) = rx_list evs1 ++ rx_list evs2.
Proof. apply bind_app. Qed.

Lemma start_good fb rb :
  Z.of_nat (length fb) = C -> Z.of_nat (length rb) = C ->
  good (start C fb rb) /\ waiting (start C fb rb) = [].
Proof.
  intros Hf Hr. destruct (start_inv C o fb rb Hf Hr) as [Hp Hs _ _ _].
  split.
  - split; [by split|]. unfold counters_ok; cbn. by vm_compute.
  - unfold waiting, c_frame, pool_of, io_frame, c_held. cbn [start con io eng fmap list_fmap app].
    rewrite app_nil_r. apply sublist_nil_r in Hs. by apply app_eq_nil in Hs as [_ ->].
Qed.

(** *** The consumer's exit *)

(** Where the consumer left the loop: at its second test, with an empty ready ring. *)
Lemma exit_point g evs g' :
  exec o C evs g = Some g' -> con g <> Exited -> con g' = Exited ->
  exists evs1 evs2 g1, evs = evs1 ++ Consumer :: evs2 /\
    exec o C evs1 g = Some g1 /\ con g1 = AtEmpty /\
    RingBuffer.empty (FramePool.ready (pool_of g1)) = true /\
    exec o C evs2 (mk (eng g1) (io g1) Exited) = Some g'.
Proof.
  revert g. induction evs as [|ev evs IH]; intros g Hexec Hne He; cbn [exec] in Hexec.
  { injection Hexec as <-. done. }
  destruct (step o C ev g) as [g1|] eqn:Es; [|done]. cbn [mbind option_bind] in Hexec.
  destruct (decide (con g1 = Exited)) as [E1|E1].
  - exists [], evs, g. destruct ev as [d| | |]; cbn [step] in Es.
    + destruct (io g); [|done]. destruct (io_take C d (eng g)). by injection Es as <-.
    + destruct (io g); [done|]. by injection Es as <-.
    + destruct (con g) eqn:Ec; cbn [c_step] in Es.
      * injection Es as <-. cbn in E1. by destruct (EngineV1.running_ (eng g)).
      * injection Es as <-. cbn in E1. unfold pool_of.
        by destruct (RingBuffer.empty (FramePool.ready (EngineV1.pool_ (eng g)))).
      * destruct (RingBuffer.pop C _) as [[]]; by injection Es as <-.
      * match type of Es with context [consume_slot ?a ?b ?c] =>
          destruct (consume_slot a b c) as [[]] end.
        destruct (RingBuffer.push C _ _). by injection Es as <-.
      * done.
    + by injection Es as <-.
  - destruct (IH g1 Hexec E1 He) as (evs1 & evs2 & ga & -> & Ha & Hc & Hr & Hb).
    exists (ev :: evs1), evs2, ga. cbn [exec]. by rewrite Es.
Qed.

(** What was in the pool when the consumer had not left is processed at its exit. *)
Lemma exit_flow g evs g' :
  good g -> Forall rx_ok (rx_list evs) -> exec o C evs g = Some g' ->
  con g <> Exited -> con g' = Exited ->
  exists more new lost, flow g (rx_list evs) g' more new lost /\
    (length (c_frame g ++ queued C (pool_of g)) <= length more)%nat /\
    (io g = IoIdle -> length (waiting g) <= length more)%nat.
Proof.
  intros Hg Hrx Hexec Hne He.
  destruct (exit_point g evs g' Hexec Hne He) as (evs1 & evs2 & g1 & -> & Ha & Hc & Hr & Hb).
  rewrite rx_list_app, rx_list_cons in *. apply Forall_app in Hrx as [Hrx1 Hrx2].
  destruct (exec_flow g evs1 g1 Hg Hrx1 Ha) as ([I1 Hm1] & more & new & lost & F1).
  destruct (c_move_flow g1 Exited I1 Hm1) as [I2 F2]; [unfold c_held; by rewrite Hc|congruence|].
  destruct (exec_flow _ evs2 g' (conj I2 (Hm1 : counters_ok (mk (eng g1) (io g1) Exited))) Hrx2 Hb)
    as (_ & more' & new' & lost' & F3).
  destruct (flow_exited _ _ _ _ _ _ F3 eq_refl) as [_ ->].
  exists more, (new ++ new'), (lost + lost')%nat.
  split; [|].
  - pose proof (flow_trans _ _ _ _ _ _ _ _ _ _ _ F1 (flow_trans _ _ _ _ _ _ _ _ _ _ _ F2 F3)) as F.
    by rewrite !app_nil_r in F.
  - pose proof (f_equal length (flow_frames _ _ _ _ _ _ F1)) as Hl.
    pose proof (flow_io _ _ _ _ _ _ F1) as Hio.
    assert (Hw : waiting g1 = io_frame g1).
    { unfold waiting, c_frame, c_held. rewrite Hc. cbn [fmap list_fmap app].
      rewrite (empty_spec C) in Hr by apply I1. apply bool_decide_eq_true in Hr.
      change (ring_items C (FramePool.ready (pool_of g1))) with (ready_items C (pool_of g1)) in Hr.
      apply length_zero_iff_nil in Hr. unfold queued. by rewrite Hr. }
    rewrite Hw, !length_app in Hl. unfold waiting in *. rewrite !length_app in *.
    split; [lia|]. intros Hidle. unfold io_frame in Hio at 2. rewrite Hidle in Hio. simpl in Hio.
    unfold io_frame at 1. rewrite Hidle; simpl. unfold io_frame at 1 in Hl. rewrite Hidle in Hl.
    simpl in Hl. lia.
Qed.

(** *** The consumer's steps after a stop *)

(** Accesses left to the consumer, if nothing more is published. *)
Definition c_measure g : nat :=
  let q := length (queued C (pool_of g)) in
  match con g with
  | AtFlag => 4 * q + 2
  | AtEmpty => 4 * q + 1
  | AtPop => if decide (q = 0) then 3 else 4 * q
  | Holds _ => 4 * q + 3
  | Exited => 0
  end%nat.

Definition work g : nat := (c_measure g + 4 * length (io_held g))%nat.

Lemma c_step_measure g e pc :
  good g -> EngineV1.running_ (eng g) = false -> c_step o C (eng g) (con g) = Some (e, pc) ->
  (S (c_measure (mk e (io g) pc)) <= c_measure g)%nat /\ EngineV1.running_ e = false.
Proof.
  intros [I Hm] Hrun Hstep. destruct g as [e0 ipc cpc]; cbn [eng io con] in *.
  destruct cpc as [| | |idx|].
  - cbn [c_step] in Hstep. rewrite Hrun in Hstep. injection Hstep as <- <-.
    split; [|done]. unfold c_measure, pool_of; cbn [eng con]. lia.
  - injection Hstep as <- <-. split; [|done]. unfold c_measure, pool_of; cbn [eng con].
    rewrite (empty_spec C) by apply I.
    change (ring_items C (FramePool.ready (EngineV1.pool_ e0)))
      with (ready_items C (EngineV1.pool_ e0)).
    unfold queued. rewrite length_fmap. repeat case_decide; case_bool_decide; lia.
  - destruct (c_pop_flow e0 ipc I Hm) as (e' & pc' & He & _ & _ & Hr & Hq).
    rewrite He in Hstep. injection Hstep as <- <-. split; [|congruence].
    unfold c_measure, pool_of in *; cbn [eng con] in *.
    destruct (queued C (EngineV1.pool_ e0)) as [|f rest].
    + destruct Hq as [-> ->]. done.
    + destruct Hq as [[idx ->] ->]. cbn [length]. case_decide; lia.
  - destruct (c_finish_flow e0 ipc idx I Hm) as (e' & more & He & _ & _ & Hr & Hq).
    rewrite He in Hstep. injection Hstep as <- <-. split; [|congruence].
    unfold c_measure, pool_of; cbn [eng con]. rewrite Hq. lia.
  - done.
Qed.

Lemma step_work g ev g' :
  good g -> Forall rx_ok (rx_of ev) -> EngineV1.running_ (eng g) = false ->
  step o C ev g = Some g' ->
  (consumer_steps [ev] + work g' <= work g + 4 * length (rx_of ev))%nat /\
  EngineV1.running_ (eng g') = false.
Proof.
  intros Hg Hrx Hrun Hstep. pose proof Hg as [I Hm]. unfold work.
  destruct ev as [d| | |]; cbn [step rx_of] in *.
  - destruct (io g) eqn:Eio; [|done]. apply Forall_cons_1 in Hrx as [Hd _].
    pose proof (io_take_flow d g Hd Eio I Hm) as Ht. destruct (io_take C d (eng g)) as [e pc].
    injection Hstep as <-. destruct Ht as (_ & Hq & Hr & _). split; [|cbn; congruence].
    change (queued C (pool_of (mk e pc (con g))) = queued C (pool_of g)) in Hq.
    change (consumer_steps [Recv d]) with 0%nat. unfold c_measure. rewrite Hq.
    unfold io_held. rewrite Eio. cbn [con io]. destruct pc; cbn [length]; lia.
  - destruct (io g) as [|idx d] eqn:Eio; [done|]. injection Hstep as <-.
    destruct (io_publish_flow idx d g Eio I Hm) as (_ & Hq & Hr & _). split; [|congruence].
    change (consumer_steps [Io]) with 0%nat.
    unfold c_measure. rewrite Hq, length_app. unfold io_held. rewrite Eio. cbn [con io length].
    destruct (con g); repeat case_decide; lia.
  - destruct (c_step o C (eng g) (con g)) as [[e pc]|] eqn:Ec; [|done]. injection Hstep as <-.
    destruct (c_step_measure g e pc Hg Hrun Ec) as [Hle Hr]. split; [|done].
    unfold io_held at 1; cbn [io]. fold (io_held g). change (consumer_steps [Consumer]) with 1%nat. lia.
  - injection Hstep as <-. split; [|done]. change (consumer_steps [Stop]) with 0%nat. change (length []) with 0%nat.
    unfold c_measure, pool_of, io_held; cbn [eng con io EngineV1.request_stop EngineV1.pool_]. lia.
Qed.

Lemma consumer_steps_cons ev evs :
  consumer_steps (ev :: evs) = (consumer_steps [ev] + consumer_steps evs)%nat.
Proof. unfold consumer_steps. by destruct ev. Qed.

Lemma exec_work g evs g' :
  good g -> Forall rx_ok (rx_list evs) -> EngineV1.running_ (eng g) = false ->
  exec o C evs g = Some g' ->
  (consumer_steps evs + work g' <= work g + 4 * length (rx_list evs))%nat /\
  EngineV1.running_ (eng g') = false.
Proof.
  revert g. induction evs as [|ev evs IH]; intros g Hg Hrx Hrun Hexec; cbn [exec] in Hexec.
  { injection Hexec as <-. split; [cbn; lia|done]. }
  rewrite rx_list_cons, length_app, consumer_steps_cons in *.
  apply Forall_app in Hrx as [Hev Hrx].
  destruct (step o C ev g) as [g1|] eqn:Es; [|done]. cbn [mbind option_bind] in Hexec.
  destruct (step_work g ev g1 Hg Hev Hrun Es) as [Hw Hr1].
  destruct (step_flow g ev g1 Hg Hev Es) as [Hg1 _].
  destruct (IH g1 Hg1 Hrx Hr1 Hexec) as [Hw' Hr']. split; [lia|done].
Qed.

Lemma work_bound g :
  (work g <= 4 * (length (queued C (pool_of g)) + length (io_held g)) + 3)%nat.
Proof. unfold work, c_measure. destruct (con g); repeat case_decide; lia. Qed.

(** Left alone, the consumer reaches its exit. *)
Lemma consumer_alone g n :
  good g -> EngineV1.running_ (eng g) = false -> (c_measure g <= n)%nat ->
  exists m g', (m <= n)%nat /\ exec o C (replicate m Consumer) g = Some g' /\ con g' = Exited.
Proof.
  revert g. induction n as [|n IH]; intros g Hg Hrun Hn.
  - exists 0%nat, g. split_and!; [lia|done|]. unfold c_measure in Hn.
    destruct (con g); repeat case_decide; (done || lia).
  - destruct (c_step o C (eng g) (con g)) as [[e pc]|] eqn:Ec.
    + destruct (c_step_measure g e pc Hg Hrun Ec) as [Hle Hr].
      assert (Hs : step o C Consumer g = Some (mk e (io g) pc)) by (cbn [step]; by rewrite Ec).
      destruct (step_flow g Consumer _ Hg (Forall_nil_2 _) Hs) as [Hg1 _].
      destruct (IH _ Hg1 Hr) as (m & g' & Hm & Hx & He); [lia|].
      exists (S m), g'. split_and!; [lia| |done]. cbn [replicate exec]. by rewrite Hs.
    + exists 0%nat, g. split_and!; [lia|done|]. destruct (con g); cbn [c_step] in Ec; try done.
      * by destruct (RingBuffer.pop C _).
      * match type of Ec with context [consume_slot ?a ?b ?c] =>
          destruct (consume_slot a b c) as [[]] end. by destruct (RingBuffer.push C _ _).
Qed.

End flow.

(** ** Properties *)

Section properties.
Context (C : Z) `{HC : RingCapacity C}.

(** C1 (end to end, with the shutdown).  Let the datagrams received carry the
    messages [ms] in order, at most as many as the pool has slots, in any
    interleaving of the I/O thread, the consumer and [stop].  Once the consumer
    has left its loop, the tracker and all metrics are the reference tracker's on
    the first [k] messages, and the others, in order, are what is left in the
    ready ring or in the I/O thread's hands.  [k] counts every message that was
    published while the consumer had not yet left: whenever the I/O thread was
    between two datagrams and the consumer still in its loop, all messages
    received so far are among the first [k].  So nothing is lost if all of them
    were published before the consumer's last test of the ready ring; what
    [stop_server] lets in after it is never processed. *)
Theorem v1_end_to_end o fb rb evs g ms :
  Z.of_nat (length fb) = C -> Z.of_nat (length rb) = C ->
  Forall msg_ok ms -> Forall2 carries (rx_list evs) ms -> Z.of_nat (length ms) <= C ->
  exec o C evs (start C fb rb) = Some g -> con g = Exited ->
  exists k,
    (EngineV1.seq (eng g), EngineV1.m_ (eng g))
      = track_all (seq_num <$> take k ms) fresh_tracker Metrics.zero /\
    queued C (pool_of g) ++ io_frame g = (wire_layout <$> drop k ms) /\
    forall evs1 evs2 g1, evs = evs1 ++ evs2 -> exec o C evs1 (start C fb rb) = Some g1 ->
      con g1 <> Exited -> io g1 = IoIdle -> (length (rx_list evs1) <= k)%nat.
Proof.
  intros Hf Hr Hms Hc Hlen Hexec He. destruct (start_good C o fb rb Hf Hr) as [Hg0 Hw0].
  destruct (carries_frames _ _ Hc) as (Hfo & Hro & Hl & Hfr).
  (* every flow of the whole run takes in exactly the messages *)
  assert (Hall : forall more new lost,
    flow C o (start C fb rb) (rx_list evs) g more new lost ->
    lost = 0%nat /\ (wire_layout <$> ms) = more ++ waiting C g).
  { intros more new lost F. assert (Hlost : lost = 0%nat).
    { apply (flow_lossless _ _ _ _ _ _ _ _ F); [done|]. rewrite Hw0. simpl. lia. }
    split; [done|]. pose proof (flow_frames _ _ _ _ _ _ _ _ F) as Hw. rewrite Hw0 in Hw.
    rewrite <- Hw. symmetry. apply sublist_full.
    - pose proof (flow_new _ _ _ _ _ _ _ _ F) as Hn. unfold rx_frames in Hn. by rewrite Hfr in Hn.
    - pose proof (flow_count _ _ _ _ _ _ _ _ F). rewrite length_fmap, <- Hl. simpl. lia. }
  destruct (exec_flow C o _ evs g Hg0 Hro Hexec) as (_ & more & new & lost & F).
  destruct (Hall _ _ _ F) as [-> Hm]. exists (length more). split_and!.
  - assert (Hmore : more = (wire_layout <$> take (length more) ms)).
    { by rewrite fmap_take, Hm, take_app_length. }
    pose proof (flow_state _ _ _ _ _ _ _ _ F) as Hst.
    rewrite Hmore in Hst at 1. rewrite add_drops_0 in Hst by (apply consume_all_ok; by vm_compute).
    destruct (consume_encoded o (take (length more) ms) zero_msg fresh_tracker Metrics.zero)
      as [H1 H2]; [by apply Forall_take|].
    change (engine_state (eng (start C fb rb))) with (zero_msg, fresh_tracker, Metrics.zero) in Hst.
    rewrite <- Hst in H1, H2. cbn in H1, H2. rewrite H1, H2. by destruct (track_all _ _ _).
  - rewrite fmap_drop, Hm, drop_app_length. unfold waiting, c_frame, c_held. by rewrite He.
  - intros evs1 evs2 g1 -> Hexec1 Hne Hidle. rewrite thr_exec_app, Hexec1 in Hexec.
    rewrite rx_list_app in *. apply Forall_app in Hro as [Hro1 Hro2].
    destruct (exec_flow C o _ evs1 g1 Hg0 Hro1 Hexec1) as (Hg1 & m1 & n1 & l1 & F1).
    destruct (exit_flow C o g1 evs2 g Hg1 Hro2 Hexec Hne He) as (m2 & n2 & l2 & F2 & _ & Hw2).
    destruct (Hall _ _ _ (flow_trans _ _ _ _ _ _ _ _ _ _ _ _ _ F1 F2)) as [Hl12 Hm'].
    assert (Hk : length more = (length m1 + length m2)%nat).
    { apply (f_equal length) in Hm, Hm'. rewrite Hm in Hm'. rewrite !length_app in Hm'. lia. }
    pose proof (f_equal length (flow_frames _ _ _ _ _ _ _ _ F1)) as Hw1.
    pose proof (flow_count _ _ _ _ _ _ _ _ F1). rewrite Hw0, !length_app in Hw1. simpl in Hw1.
    specialize (Hw2 Hidle). lia.
Qed.

(** C29 (drain and termination).  Once [running_] is false, in every continuation
    the consumer makes at most four accesses for each frame queued or published
    from then on, and at most three more; as long as it has not left its loop it
    can go on, and when nothing more arrives it does leave.  When it has left, it
    has processed, in order, at least everything that was queued when [running_]
    was cleared; every slot is still in one place. *)
Theorem v1_drain_terminates o fb rb evs g evs' g' :
  Z.of_nat (length fb) = C -> Z.of_nat (length rb) = C ->
  Forall rx_ok (rx_list (evs ++ evs')) ->
  exec o C evs (start C fb rb) = Some g -> EngineV1.running_ (eng g) = false ->
  exec o C evs' g = Some g' ->
  (consumer_steps evs'
   <= 4 * (length (queued C (pool_of g)) + length (io_held g) + length (rx_list evs')) + 3)%nat /\
  (exists n g'', exec o C (replicate n Consumer) g' = Some g'' /\ con g'' = Exited) /\
  (con g <> Exited -> con g' = Exited -> exists later lost,
     engine_state (eng g') = add_drops lost
       (consume_all o (c_frame g ++ queued C (pool_of g) ++ later) (engine_state (eng g)))) /\
  pool_inv C (pool_of g') (io_held g' ++ c_held g').
Proof.
  intros Hf Hr Hrx Hexec Hrun Hexec'. destruct (start_good C o fb rb Hf Hr) as [Hg0 _].
  rewrite rx_list_app in Hrx. apply Forall_app in Hrx as [Hrx Hrx'].
  destruct (exec_flow C o _ evs g Hg0 Hrx Hexec) as [Hg _].
  destruct (exec_flow C o g evs' g' Hg Hrx' Hexec') as [Hg' _].
  destruct (exec_work C o g evs' g' Hg Hrx' Hrun Hexec') as [Hw Hrun'].
  split_and!.
  - pose proof (work_bound C g). lia.
  - destruct (consumer_alone C o g' _ Hg' Hrun' (le_n _)) as (m & g'' & _ & Hx & He). eauto.
  - intros Hne He.
    destruct (exit_flow C o g evs' g' Hg Hrx' Hexec' Hne He) as (more & new & lost & F & Hle & _).
    exists (drop (length (c_frame g ++ queued C (pool_of g))) more), (Z.of_nat lost).
    rewrite (flow_state _ _ _ _ _ _ _ _ F). do 2 f_equal.
    pose proof (flow_frames _ _ _ _ _ _ _ _ F) as Hfr. unfold waiting in Hfr at 1.
    rewrite <- !app_assoc, app_assoc in Hfr. rewrite app_assoc.
    rewrite <- (take_drop (length (c_frame g ++ queued C (pool_of g))) more) at 1. f_equal.
    apply (f_equal (take (length (c_frame g ++ queued C (pool_of g))))) in Hfr.
    rewrite take_app_length, take_app_le in Hfr by done. done.
  - apply Hg'.
Qed.

End properties.

(** ** A run with a datagram after the consumer's exit

    Two messages are processed; the third arrives after [running_] was cleared and
    the consumer has left, while the server thread still receives. *)

Definition run_events : list event :=
  [Recv (sample_rx 5); Io; Consumer; Consumer; Recv (sample_rx 9); Stop; Consumer; Io].

Definition exit_events : list event := replicate 6 Consumer ++ [Recv (sample_rx 12); Io].

Definition sample_cfg : cfg := start 8 (replicate 8 0) (replicate 8 0).

Definition stopped_cfg : cfg := default sample_cfg (exec big_endian 8 run_events sample_cfg).

Definition exited_cfg : cfg := default sample_cfg (exec big_endian 8 exit_events stopped_cfg).

Lemma stopped_run : exec big_endian 8 run_events sample_cfg = Some stopped_cfg.
Proof. vm_compute. reflexivity. Qed.

Lemma stopped_pc : con stopped_cfg = AtFlag /\ io stopped_cfg = IoIdle.
Proof. by vm_compute. Qed.

Lemma exited_run : exec big_endian 8 exit_events stopped_cfg = Some exited_cfg.
Proof. vm_compute. reflexivity. Qed.

Lemma whole_run : exec big_endian 8 (run_events ++ exit_events) sample_cfg = Some exited_cfg.
Proof. rewrite thr_exec_app, stopped_run. exact exited_run. Qed.

(** The frame of the third message stays in the ready ring: the consumer has
    returned, both flags of the shutdown are as [Engine::stop] leaves them, and the
    metrics count two messages, no drop. *)
Theorem v1_shutdown_leaves_frame :
  exec big_endian 8 (run_events ++ exit_events) sample_cfg = Some exited_cfg /\
  con exited_cfg = Exited /\ io exited_cfg = IoIdle /\
  queued 8 (pool_of exited_cfg) = [wire_layout (mkMsg 12 1 0 10 11 1 2)] /\
  EngineV1.m_ (eng exited_cfg) = Metrics.mk 2 2 0 0 3.
Proof. split; [exact whole_run|]. by vm_compute. Qed.

Lemma run_rx_ok : Forall rx_ok (rx_list (run_events ++ exit_events)).
Proof. unfold rx_ok. apply (bool_decide_unpack _). vm_compute. exact I. Qed.

Lemma v1_end_to_end_witness :
  exists k,
    (EngineV1.seq (eng exited_cfg), EngineV1.m_ (eng exited_cfg))
    = track_all (seq_num <$> take k [mkMsg 5 1 0 10 11 1 2; mkMsg 9 1 0 10 11 1 2;
                                    mkMsg 12 1 0 10 11 1 2]) fresh_tracker Metrics.zero /\
    (2 <= k)%nat.
Proof.
  destruct (v1_end_to_end 8 big_endian (replicate 8 0) (replicate 8 0)
    (run_events ++ exit_events) exited_cfg
    [mkMsg 5 1 0 10 11 1 2; mkMsg 9 1 0 10 11 1 2; mkMsg 12 1 0 10 11 1 2])
    as (k & Hk & _ & Hle); [reflexivity|reflexivity| | |discriminate|exact whole_run|reflexivity|].
  - apply (bool_decide_unpack _). vm_compute. exact I.
  - constructor; [apply sample_carries|constructor; [apply sample_carries|
      constructor; [apply sample_carries|constructor]]].
  - destruct stopped_pc as [Hc Hio]. exists k. split; [exact Hk|].
    refine (Hle run_events exit_events stopped_cfg eq_refl stopped_run _ Hio).
    rewrite Hc. discriminate.
Defined.

Lemma v1_drain_terminates_witness :
  (6 <= 4 * (1 + 0 + 1) + 3)%nat /\
  exists later lost,
    engine_state (eng exited_cfg) = add_drops lost
      (consume_all big_endian ([] ++ queued 8 (pool_of stopped_cfg) ++ later)
        (engine_state (eng stopped_cfg))).
Proof.
  destruct (v1_drain_terminates 8 big_endian (replicate 8 0) (replicate 8 0)
    run_events stopped_cfg exit_events exited_cfg eq_refl eq_refl run_rx_ok stopped_run eq_refl exited_run)
    as (Hn & _ & Hst & _).
  split; [exact Hn|]. destruct stopped_pc as [Hc _].
  destruct Hst as (later & lost & Hst); [rewrite Hc; discriminate|vm_compute; reflexivity|].
  exists later, lost. exact Hst.
Defined.
