(* ===== verification/Packet.v ===== *)
(** * Packet: parsing Ethernet/IPv4/UDP frames

    Models [extract_udp_payload] of [src/engine/v3/engine.cpp].  A read through
    one of the reinterpreted header pointers is a read of the frame's bytes at
    the header field's offset in the documented Ethernet, IPv4 and UDP layouts;
    a read past the end of the frame is undefined behaviour and is the value
    [None], which the theorems show never to occur. *)

From Stdlib Require Import ZArith Lia.
From stdpp Require Import base numbers list option.
From S2P Require Import Prelude Wire.

Local Open Scope Z_scope.

(** [struct PacketView]: [data] is [None] for a null pointer; [handle]
    identifies the buffer the packet came in. *)
Record PacketView := mkPacket {
  pv_data : option (list Z);
  pv_len : Z;
  pv_handle : Z
}.

(** Sizes and constants of the headers. *)
Definition kEtherHdrLen : Z := 14.
Definition kIpv4HdrLen : Z := 20.    (* sizeof(rte_ipv4_hdr) *)
Definition kUdpHdrLen : Z := 8.
Definition RTE_ETHER_TYPE_IPV4 : Z := 2048.
Definition IPPROTO_UDP : Z := 17.

(** Bounds-checked reads. *)
Definition read_u8 (frame : list Z) (off : Z) : option Z :=
  if (0 <=? off) && (off <? Z.of_nat (length frame)) then Some (arr_get frame off) else None.

Definition read_be16 (frame : list Z) (off : Z) : option Z :=
  if (0 <=? off) && (off + 2 <=? Z.of_nat (length frame))
  then Some (be_value (mem_read frame off 2)) else None.

(** [Reject]: the function returns [false]; [Accept off len]: it returns [true]
    with [payload = frame + off] and [payload_len = len]. *)
Inductive extraction := Reject | Accept (payload payload_len : Z).

Definition extract_udp_payload (packet : PacketView) (expected_dst_port : Z)
    : option extraction :=
  match pv_data packet with
  | None => Some Reject
  | Some frame =>
    if pv_len packet <? kEtherHdrLen then Some Reject else
    ether_type ← read_be16 frame 12;
    if negb (ether_type =? RTE_ETHER_TYPE_IPV4) then Some Reject else
    if pv_len packet <? kEtherHdrLen + kIpv4HdrLen then Some Reject else
    version_ihl ← read_u8 frame kEtherHdrLen;
    let version := Z.shiftr version_ihl 4 in
    let ip_hdr_len := Z.land version_ihl 15 * 4 in
    if negb (version =? 4) || (ip_hdr_len <? kIpv4HdrLen) then Some Reject else
    let ip_offset := kEtherHdrLen in
    if pv_len packet <? ip_offset + ip_hdr_len + kUdpHdrLen then Some Reject else
    next_proto_id ← read_u8 frame (kEtherHdrLen + 9);
    if negb (next_proto_id =? IPPROTO_UDP) then Some Reject else
    ip_total_len ← read_be16 frame (kEtherHdrLen + 2);
    if ip_total_len <? ip_hdr_len + kUdpHdrLen then Some Reject else
    let udp_offset := ip_offset + ip_hdr_len in
    if pv_len packet <? ip_offset + ip_total_len then Some Reject else
    dst_port ← read_be16 frame (udp_offset + 2);
    if negb (expected_dst_port =? 0) && negb (dst_port =? expected_dst_port)
    then Some Reject else
    udp_len ← read_be16 frame (udp_offset + 4);
    if udp_len <? kUdpHdrLen then Some Reject else
    let payload := udp_offset + kUdpHdrLen in
    let payload_len := udp_len - kUdpHdrLen in
    if udp_offset + kUdpHdrLen + payload_len <=? pv_len packet
    then Some (Accept payload payload_len) else Some Reject
  end.

(** ** Specification *)

(** A view whose length is that of the memory it points to. *)
Definition packet_ok (p : PacketView) : Prop :=
  0 <= pv_len p /\
  match pv_data p with
  | None => True
  | Some frame => Z.of_nat (length frame) = pv_len p /\ bytes_ok frame
  end.

(** What an accepted frame looks like, field by field. *)
Record udp_frame_view (frame : list Z) (port off len : Z) : Prop := {
  ufv_ether_type : be_value (mem_read frame 12 2) = RTE_ETHER_TYPE_IPV4;
  ufv_version : arr_get frame 14 / 16 = 4;
  ufv_protocol : arr_get frame 23 = IPPROTO_UDP;
  ufv_ihl : 5 <= arr_get frame 14 mod 16;
  ufv_total : (arr_get frame 14 mod 16) * 4 + 8 <= be_value (mem_read frame 16 2);
  ufv_total_fits : 14 + be_value (mem_read frame 16 2) <= Z.of_nat (length frame);
  ufv_port : port = 0 \/ be_value (mem_read frame (off - 6) 2) = port;
  ufv_off : off = 14 + (arr_get frame 14 mod 16) * 4 + 8;
  ufv_len : be_value (mem_read frame (off - 4) 2) = len + 8;
  ufv_len_pos : 0 <= len;
  ufv_fits : off + len <= Z.of_nat (length frame)
}.

Lemma read_u8_in frame off :
  0 <= off < Z.of_nat (length frame) -> read_u8 frame off = Some (arr_get frame off).
Proof.
  intros. unfold read_u8. rewrite (proj2 (Z.leb_le 0 off)) by lia.
  by rewrite (proj2 (Z.ltb_lt off _)) by lia.
Qed.

Lemma read_be16_in frame off :
  0 <= off -> off + 2 <= Z.of_nat (length frame) ->
  read_be16 frame off = Some (be_value (mem_read frame off 2)).
Proof.
  intros. unfold read_be16. rewrite (proj2 (Z.leb_le 0 off)) by lia.
  by rewrite (proj2 (Z.leb_le _ _)) by lia.
Qed.

Lemma land_15 x : Z.land x 15 = x mod 16.
Proof. apply (Z.land_ones x 4). lia. Qed.

Lemma shiftr_4 x : Z.shiftr x 4 = x / 16.
Proof. apply (Z.shiftr_div_pow2 x 4). lia. Qed.

(** One guard of the parser: reject or go on with the opposite fact. *)
Ltac parse_guard :=
  match goal with
  | |- context [if ?a <? ?b then Some Reject else _] =>
      destruct (Z.ltb_spec a b); [by left|]
  | |- context [read_be16 ?f ?o] =>
      rewrite (read_be16_in f o) by (rewrite ?land_15 in *; lia)
  | |- context [read_u8 ?f ?o] =>
      rewrite (read_u8_in f o) by (rewrite ?land_15 in *; lia)
  | |- context [negb (?a =? ?b)] =>
      destruct (Z.eqb_spec a b); cbn [negb orb andb]
  | |- context [if ?b then Some Reject else _] => destruct b eqn:?; [by left|]
  | |- Some Reject = Some Reject \/ _ => by left
  end; cbn [mbind option_bind].

Lemma extract_cases p port frame :
  packet_ok p -> pv_data p = Some frame ->
  extract_udp_payload p port = Some Reject \/
  exists off len, extract_udp_payload p port = Some (Accept off len) /\
    udp_frame_view frame port off len.
Proof.
  intros [Hlen Hok] Hdata. rewrite Hdata in Hok. destruct Hok as [Hl Hb].
  unfold extract_udp_payload, kEtherHdrLen, kIpv4HdrLen, kUdpHdrLen, IPPROTO_UDP.
  rewrite Hdata. cbv zeta. change (14 + 2) with 16. change (14 + 9) with 23. pose proof (Z.mod_pos_bound (arr_get frame 14) 16).
  repeat parse_guard.
  all: destruct (Z.leb_spec (14 + Z.land (arr_get frame 14) 15 * 4 + 8 +
    (be_value (mem_read frame (14 + Z.land (arr_get frame 14) 15 * 4 + 4) 2) - 8)) (pv_len p));
    [right; do 2 eexists; split; [done|]|by left];
    rewrite land_15, ?shiftr_4 in *;
    split; try done; try lia; try (by left);
    try (right; replace (_ + 8 - 6) with (14 + arr_get frame 14 mod 16 * 4 + 2) by lia; done);
    replace (_ + 8 - 4) with (14 + arr_get frame 14 mod 16 * 4 + 4) by lia; lia.
Qed.

(** Conversely a frame with such a view is accepted. *)
Lemma extract_complete p port frame off len :
  packet_ok p -> pv_data p = Some frame -> udp_frame_view frame port off len ->
  extract_udp_payload p port = Some (Accept off len).
Proof.
  intros [Hlen Hok] Hdata [He Hv Hp Hi Ht Htf Hport -> Hul Hlp Hf].
  rewrite Hdata in Hok. destruct Hok as [Hl Hb].
  pose proof (Z.mod_pos_bound (arr_get frame 14) 16 ltac:(lia)) as Hm.
  unfold extract_udp_payload, kEtherHdrLen, kIpv4HdrLen, kUdpHdrLen. rewrite Hdata. cbv zeta.
  change (14 + 2) with 16. change (14 + 9) with 23.
  replace (_ + 8 - 6) with (14 + arr_get frame 14 mod 16 * 4 + 2) in Hport by lia.
  replace (_ + 8 - 4) with (14 + arr_get frame 14 mod 16 * 4 + 4) in Hul by lia.
  repeat (first
    [rewrite read_be16_in by (rewrite ?land_15; lia)
    |rewrite read_u8_in by (rewrite ?land_15; lia)
    |progress rewrite ?land_15, ?shiftr_4
    |rewrite (proj2 (Z.ltb_ge _ _)) by lia
    |rewrite (proj2 (Z.eqb_eq _ _)) by done]; cbn [mbind option_bind negb orb]).
  rewrite Hul. replace (len + 8 - 8) with len by lia.
  rewrite (proj2 (Z.leb_le _ _)) by lia.
  destruct Hport as [-> | ->]; [done|]. by rewrite Z.eqb_refl, andb_false_r.
Qed.

(** ** Properties *)

(** C34 (memory safety).  On a view whose length is that of its buffer, or with a
    null data pointer, the parser never reads outside the frame, and an accepted
    payload lies inside it, after the headers. *)
Theorem extract_memory_safe p port :
  packet_ok p ->
  exists r, extract_udp_payload p port = Some r /\
    forall off len, r = Accept off len ->
      exists frame, pv_data p = Some frame /\
        kEtherHdrLen + kIpv4HdrLen + kUdpHdrLen <= off /\ 0 <= len /\
        off + len <= Z.of_nat (length frame).
Proof.
  intros Hp. destruct (pv_data p) as [frame|] eqn:Hd.
  2: { exists Reject. split; [|done]. unfold extract_udp_payload. by rewrite Hd. }
  destruct (extract_cases p port frame Hp Hd) as [->|(off & len & -> & Hv)].
  { by exists Reject. }
  exists (Accept off len). split; [done|]. intros ? ? [= <- <-]. exists frame.
  destruct Hv. unfold kEtherHdrLen, kIpv4HdrLen, kUdpHdrLen. split_and!; (done || lia).
Qed.

(** C4 (what is accepted).  A frame is accepted with a given payload position
    and length exactly when it is an IPv4 packet with a header of at least 20
    bytes carrying UDP, whose total length covers the IP and UDP headers and
    fits in the frame, with the expected destination port (or any if 0), whose
    UDP length is the payload's plus 8 and fits in the frame. *)
Theorem extract_accepts_iff p port frame off len :
  packet_ok p -> pv_data p = Some frame ->
  extract_udp_payload p port = Some (Accept off len) <-> udp_frame_view frame port off len.
Proof.
  intros Hp Hd. split; [|by apply extract_complete].
  destruct (extract_cases p port frame Hp Hd) as [->|(off' & len' & -> & Hv)]; [done|].
  by intros [= <- <-].
Qed.

(** A well-formed frame: [macs] the two addresses, [ihl] the header length in
    words, [ip1] the byte after the version, [ip2] the five bytes between the
    total length and the protocol, [ip3] the rest of the IP header and its
    options, [trailer] what follows the datagram. *)
Definition udp_frame (macs : list Z) (ihl : Z) (ip1 : Z) (ip2 ip3 : list Z)
    (sport dport : Z) (cksum payload trailer : list Z) : list Z :=
  let plen := Z.of_nat (length payload) in
  macs ++ be_bytes 2 RTE_ETHER_TYPE_IPV4 ++ [64 + ihl] ++ [ip1] ++
  be_bytes 2 (ihl * 4 + 8 + plen) ++ ip2 ++ [IPPROTO_UDP] ++ ip3 ++
  be_bytes 2 sport ++ be_bytes 2 dport ++ be_bytes 2 (plen + 8) ++ cksum ++
  payload ++ trailer.

Record udp_frame_ok (macs : list Z) (ihl ip1 : Z) (ip2 ip3 : list Z)
    (sport dport : Z) (cksum payload trailer : list Z) : Prop := {
  ufo_macs : length macs = 12%nat;
  ufo_ihl : 5 <= ihl <= 15;
  ufo_ip2 : length ip2 = 5%nat;
  ufo_ip3 : Z.of_nat (length ip3) = ihl * 4 - 10;
  ufo_cksum : length cksum = 2%nat;
  ufo_dport : is_u 16 dport;
  ufo_len : ihl * 4 + 8 + Z.of_nat (length payload) < 2 ^ 16;
  ufo_bytes : bytes_ok (macs ++ [ip1] ++ ip2 ++ ip3 ++ cksum ++ payload ++ trailer)
}.

(** Reads the field after the first [k] of a concatenation. *)
Ltac field_arith :=
  rewrite ?length_be_bytes; cbn [length]; lia.
Tactic Notation "skip_fields" integer(k) :=
  do k (rewrite mem_read_skip_app by field_arith);
  match goal with |- context [mem_read _ ?o 2] => replace o with 0 by field_arith end;
  rewrite mem_read_0_app by (by rewrite length_be_bytes);
  rewrite be_value_bytes.

Section built_frame.
Context (macs : list Z) (ihl ip1 : Z) (ip2 ip3 : list Z) (sport dport : Z)
  (cksum payload trailer : list Z).
Context (Hok : udp_frame_ok macs ihl ip1 ip2 ip3 sport dport cksum payload trailer).

Let frame := udp_frame macs ihl ip1 ip2 ip3 sport dport cksum payload trailer.

Lemma built_length :
  Z.of_nat (length frame)
  = 14 + ihl * 4 + 8 + Z.of_nat (length payload) + Z.of_nat (length trailer).
Proof.
  destruct Hok. unfold frame, udp_frame. cbv zeta.
  rewrite !length_app, !length_be_bytes. simpl. lia.
Qed.

Lemma built_bytes : bytes_ok frame.
Proof.
  destruct Hok as [? ? ? ? ? ? ? Hb]. unfold bytes_ok in *. rewrite !Forall_app, Forall_singleton in Hb.
  destruct Hb as (? & ? & ? & ? & ? & ? & ?). unfold frame, udp_frame. cbv zeta.
  rewrite !Forall_app, !Forall_singleton.
  split_and!; try done; try apply be_bytes_ok; unfold is_u, IPPROTO_UDP; lia.
Qed.

Lemma built_view port :
  port = 0 \/ port = dport ->
  udp_frame_view frame port (14 + ihl * 4 + 8) (Z.of_nat (length payload)).
Proof.
  intros Hport. pose proof built_length as Hlen. destruct Hok as [Hm Hi H2 H3 Hc Hd Hl _].
  assert (Hihl : arr_get frame 14 = 64 + ihl).
  { unfold frame, udp_frame. do 2 rewrite arr_get_app_r by field_arith.
    rewrite length_be_bytes, Hm. done. }
  assert (Htot : be_value (mem_read frame 16 2) = ihl * 4 + 8 + Z.of_nat (length payload)).
  { unfold frame, udp_frame. skip_fields 4. apply wrapu_small. unfold is_u. simpl. lia. }
  assert (Hmod : (64 + ihl) mod 16 = ihl /\ (64 + ihl) / 16 = 4)
    by (Z.div_mod_to_equations; lia).
  destruct Hmod as [Hmod Hdiv].
  split; rewrite ?Hihl, ?Hmod, ?Hdiv, ?Htot; try lia.
  - unfold frame, udp_frame. by skip_fields 1.
  - unfold frame, udp_frame. do 6 rewrite arr_get_app_r by field_arith.
    by rewrite !length_be_bytes, Hm, H2.
  - destruct Hport as [Hport | ->]; [by left|]. right.
    unfold frame, udp_frame. skip_fields 9. by apply wrapu_small.
  - unfold frame, udp_frame. skip_fields 10. apply wrapu_small. unfold is_u. simpl. lia.
Qed.

Lemma built_payload :
  mem_read frame (14 + ihl * 4 + 8) (Z.of_nat (length payload)) = payload.
Proof.
  destruct Hok as [Hm Hi H2 H3 Hc Hd Hl _]. unfold frame, udp_frame.
  do 12 (rewrite mem_read_skip_app by field_arith).
  match goal with |- mem_read _ ?o _ = _ => replace o with 0 by field_arith end.
  by apply mem_read_0_app.
Qed.

End built_frame.

(** Round trip.  For every well-formed Ethernet/IPv4/UDP frame, with IP
    options, any trailing padding and either no port filter or the filter set to
    the frame's destination port, the parser accepts exactly the payload. *)
Theorem extract_built_frame macs ihl ip1 ip2 ip3 sport dport cksum payload trailer port h :
  udp_frame_ok macs ihl ip1 ip2 ip3 sport dport cksum payload trailer ->
  port = 0 \/ port = dport ->
  let frame := udp_frame macs ihl ip1 ip2 ip3 sport dport cksum payload trailer in
  exists off, extract_udp_payload (mkPacket (Some frame) (Z.of_nat (length frame)) h) port
    = Some (Accept off (Z.of_nat (length payload))) /\
  mem_read frame off (Z.of_nat (length payload)) = payload.
Proof.
  intros Hok Hport frame. exists (14 + ihl * 4 + 8). split; [|by apply built_payload].
  apply (extract_complete _ _ frame).
  - split; cbn; [lia|]. split; [done|]. by apply built_bytes.
  - done.
  - by apply built_view.
Qed.

(** A frame with 4 bytes of IP options, a 3-byte payload and padding. *)
Definition sample_frame (trailer : list Z) : list Z :=
  udp_frame (replicate 12 2) 6 0 [0; 1; 0; 0; 64] (replicate 14 9) 4000 8888 [0; 0] [7; 8; 9]
    trailer.

Lemma sample_frame_ok trailer :
  bytes_ok trailer ->
  udp_frame_ok (replicate 12 2) 6 0 [0; 1; 0; 0; 64] (replicate 14 9) 4000 8888 [0; 0] [7; 8; 9]
    trailer.
Proof.
  intros Ht. split; try done.
  unfold bytes_ok. rewrite !Forall_app. split_and!; try done;
    apply (bool_decide_unpack _); vm_compute; exact I.
Qed.

Lemma extract_built_frame_witness :
  exists off, extract_udp_payload
      (mkPacket (Some (sample_frame [0; 0])) (Z.of_nat (length (sample_frame [0; 0]))) 1) 8888
    = Some (Accept off 3) /\ mem_read (sample_frame [0; 0]) off 3 = [7; 8; 9].
Proof.
  apply (extract_built_frame _ _ _ _ _ _ _ _ [7; 8; 9] [0; 0] 8888 1).
  - apply sample_frame_ok. apply (bool_decide_unpack _). vm_compute. exact I.
  - right. reflexivity.
Defined.

Definition sample_packet : PacketView :=
  mkPacket (Some (sample_frame [0; 0])) (Z.of_nat (length (sample_frame [0; 0]))) 1.

Lemma sample_packet_ok : packet_ok sample_packet.
Proof.
  split; [vm_compute; discriminate|]. split; [reflexivity|].
  apply (bool_decide_unpack _). vm_compute. exact I.
Qed.

Lemma extract_memory_safe_witness :
  exists r, extract_udp_payload sample_packet 8888 = Some r /\
    forall off len, r = Accept off len ->
      exists frame, pv_data sample_packet = Some frame /\
        kEtherHdrLen + kIpv4HdrLen + kUdpHdrLen <= off /\ 0 <= len /\
        off + len <= Z.of_nat (length frame).
Proof. apply (extract_memory_safe sample_packet 8888 sample_packet_ok). Defined.

Lemma extract_accepts_iff_witness : udp_frame_view (sample_frame [0; 0]) 8888 46 3.
Proof.
  apply (extract_accepts_iff sample_packet 8888 _ 46 3 sample_packet_ok eq_refl).
  vm_compute. reflexivity.
Defined.

(** The UDP length is not checked against the IP length.  The parser
    compares the UDP length with the frame only: a frame whose IP total length
    covers just the two headers is accepted with a payload taken from the bytes
    after the IP packet (the Ethernet padding). *)
Theorem extract_past_ip_total_length :
  exists p frame off len,
    packet_ok p /\ pv_data p = Some frame /\
    extract_udp_payload p 8888 = Some (Accept off len) /\
    14 + be_value (mem_read frame 16 2) = off /\ 0 < len.
Proof.
  set (frame := replicate 12 0 ++ [8; 0] ++ [69; 0; 0; 28] ++ [0; 0; 0; 0; 64; 17] ++
    replicate 10 0 ++ [15; 160] ++ [34; 184] ++ [0; 12] ++ [0; 0] ++ [1; 2; 3; 4]).
  exists (mkPacket (Some frame) 46 0), frame, 42, 4. split_and!; try reflexivity.
  split; [discriminate|]. split; [reflexivity|].
  apply (bool_decide_unpack _). vm_compute. exact I.
Qed.
