(* ===== verification/EngineV3.v ===== *)
(** * EngineV3: the run-to-completion engine over a packet source

    Models [Engine] of [src/engine/v3/engine.cpp] against the interface of its
    packet source ([class DpdkRxSource]).  The interface is a class of operations
    with its laws; [Dpdk] shows that [DpdkRxSourceImpl] obeys them. *)

From Stdlib Require Import ZArith Lia.
From stdpp Require Import base numbers list option.
From S2P Require Import Prelude Wire Metrics Packet.

Local Open Scope Z_scope.

(** ** The packet source interface

    The virtual functions of [DpdkRxSource].  [poll capacity] returns the views
    it writes to the front of the caller's array. *)

Class RxSource (S : Type) := {
  rx_open : S -> bool * S;
  rx_close : S -> S;
  rx_poll : Z -> S -> list PacketView * S;
  rx_release : list PacketView -> S -> S
}.

(** What the engine relies on, in terms of three views of the source: a
    representation invariant, whether it is open, and the handles of the packets
    handed out by [poll] and not yet given back, oldest first. *)
Class RxSourceLaws (S : Type) `{RxSource S} := {
  rx_inv : S -> Prop;
  rx_is_open : S -> bool;
  rx_outstanding : S -> list Z;
  rx_open_law s : rx_inv s -> rx_outstanding s = [] ->
    let '(ok, s') := rx_open s in
    rx_inv s' /\ rx_is_open s' = ok /\ rx_outstanding s' = [];
  rx_close_law s : rx_inv s -> rx_outstanding s = [] ->
    rx_inv (rx_close s) /\ rx_is_open (rx_close s) = false /\
    rx_outstanding (rx_close s) = [];
  rx_poll_law s n : rx_inv s -> rx_is_open s = true -> 0 <= n ->
    let '(ps, s') := rx_poll n s in
    rx_inv s' /\ rx_is_open s' = true /\ Z.of_nat (length ps) <= n /\
    Forall packet_ok ps /\ rx_outstanding s' = rx_outstanding s ++ (pv_handle <$> ps);
  rx_release_law s ps rest : rx_inv s -> rx_is_open s = true ->
    rx_outstanding s = (pv_handle <$> ps) ++ rest ->
    rx_inv (rx_release ps s) /\ rx_is_open (rx_release ps s) = true /\
    rx_outstanding (rx_release ps s) = rest
}.

(** ** The engine *)

(** What the engine writes to its log. *)
Inductive log_line :=
  | DecodeFailed (udp_payload_len : Z)
  | ParsedPacket (frame_len udp_payload_len : Z) (msg : MarketDataMsg)
  | SequenceGap (expected got gap : Z)
  | OutOfOrder (expected got : Z).

Module EngineV3.

(** [struct EngineConfig], the fields the engine reads. *)
Record Config := mkConfig {
  burst_size : Z;
  udp_dst_port : Z;
  log_each_packet : bool;
  has_stop_signal_flag : bool     (* [stop_signal_flag != nullptr] *)
}.

(** [Engine::process_one]: the tracker and the lines logged; [None] is a read
    outside the frame. *)
Definition process_one (o : byte_order) (cfg : Config) (packet : PacketView) (tr : tracker)
    : option (tracker * list log_line) :=
  match pv_data packet with
  | None => Some (tr, [])
  | Some frame =>
    r ← extract_udp_payload packet (udp_dst_port cfg);
    match r with
    | Reject => Some (tr, [])
    | Accept payload payload_len =>
      let '(ok, msg) := decode o (mem_read frame payload payload_len) payload_len zero_msg in
      if negb ok then Some (tr, [DecodeFailed payload_len]) else
      let log := if log_each_packet cfg
                 then [ParsedPacket (pv_len packet) payload_len msg] else [] in
      if negb (seq_initialized_ tr) then Some (mkTracker (seq_num msg +% 1) true, log) else
      if seq_num msg =? expected_seq_num_ tr then
        Some (mkTracker (expected_seq_num_ tr +% 1) (seq_initialized_ tr), log)
      else if expected_seq_num_ tr <? seq_num msg then
        Some (mkTracker (seq_num msg +% 1) (seq_initialized_ tr),
              log ++ [SequenceGap (expected_seq_num_ tr) (seq_num msg)
                        (seq_num msg -% expected_seq_num_ tr)])
      else Some (tr, log ++ [OutOfOrder (expected_seq_num_ tr) (seq_num msg)])
    end
  end.

Fixpoint process_all (o : byte_order) (cfg : Config) (packets : list PacketView) (tr : tracker)
    : option (tracker * list log_line) :=
  match packets with
  | [] => Some (tr, [])
  | p :: packets =>
      '(tr, log) ← process_one o cfg p tr;
      '(tr, log') ← process_all o cfg packets tr;
      Some (tr, log ++ log')
  end.

Section engine.
Context {S : Type} `{RxSource S}.

(** The members of [Engine] and what it has logged so far. *)
Record t := mk {
  stop_requested_ : bool;
  cfg_ : Config;
  rx_source_ : option S;
  seq : tracker;
  logged : list log_line
}.

Definition construct (cfg : Config) : t := mk false cfg None fresh_tracker [].

Definition attach (rs : S) (e : t) : bool * t :=
  match rx_source_ e with
  | Some _ => (false, e)
  | None => (true, mk (stop_requested_ e) (cfg_ e) (Some rs) (seq e) (logged e))
  end.

Definition request_stop (e : t) : t :=
  mk true (cfg_ e) (rx_source_ e) (seq e) (logged e).

(** What happens between two tests of the loop condition in other contexts:
    whether another thread calls [request_stop], and the value the signal handler
    leaves in [*stop_signal_flag]. *)
Record interference := mkInterference { i_stop : bool; i_signal : Z }.

(** The loop condition, after the interference [i]. *)
Definition keep_going (i : interference) (e : t) : bool :=
  negb (stop_requested_ e) && (negb (has_stop_signal_flag (cfg_ e)) || (i_signal i =? 0)).

Definition kMaxBurst : Z := 256.

(** One pass through the loop body. *)
Definition loop_body (o : byte_order) (burst : Z) (rs : S) (e : t) : option (S * t) :=
  let '(packets, rs) := rx_poll burst rs in
  '(tr, log) ← process_all o (cfg_ e) packets (seq e);
  let e := mk (stop_requested_ e) (cfg_ e) (rx_source_ e) tr (logged e ++ log) in
  let n := Z.of_nat (length packets) in
  let rs := if 0 <? n then rx_release packets rs else rs in
  Some (rs, e).

(** The loop: one element of [env] per test of the condition.  [Running]: the
    condition held at every test of [env]. *)
Inductive outcome := Fault | Running (rs : S) (e : t) | Stopped (rs : S) (e : t).

Fixpoint loop (o : byte_order) (burst : Z) (env : list interference) (rs : S) (e : t) : outcome :=
  match env with
  | [] => Running rs e
  | i :: env =>
      let e := if i_stop i then request_stop e else e in
      if keep_going i e then
        match loop_body o burst rs e with
        | None => Fault
        | Some (rs, e) => loop o burst env rs e
        end
      else Stopped rs e
  end.

Inductive run_result := RunFault | StillRunning (rs : S) (e : t) | Returned (ok : bool) (e : t).

Definition set_source (e : t) (rs : S) : t :=
  mk (stop_requested_ e) (cfg_ e) (Some rs) (seq e) (logged e).

(** [Engine::run]. *)
Definition run (o : byte_order) (env : list interference) (e : t) : run_result :=
  match rx_source_ e with
  | None => Returned false e
  | Some rs =>
      let '(ok, rs) := rx_open rs in
      if negb ok then Returned false (set_source e rs) else
      let burst := if burst_size (cfg_ e) <? kMaxBurst then burst_size (cfg_ e) else kMaxBurst in
      match loop o burst env rs e with
      | Fault => RunFault
      | Running rs e => StillRunning rs e
      | Stopped rs e => Returned true (set_source e (rx_close rs))
      end
  end.

End engine.
#[global] Arguments t S : clear implicits.
#[global] Arguments outcome S : clear implicits.
#[global] Arguments run_result S : clear implicits.

End EngineV3.

(** ** Specification of the packet handling *)

(** The message a frame carries, if it is a UDP datagram for the port with at
    least 44 bytes of payload. *)
Definition frame_msg (port : Z) (p : PacketView) : option MarketDataMsg :=
  frame ← pv_data p;
  r ← extract_udp_payload p port;
  match r with
  | Reject => None
  | Accept off len => if len <? kWireSize then None else Some (wire_parse (mem_read frame off len))
  end.

(** What the log says about the sequence: the sum of the logged gaps and the
    number of packets logged as out of order. *)
Definition log_gap (l : log_line) : Z := match l with SequenceGap _ _ g => g | _ => 0 end.
Definition log_late (l : log_line) : Z := match l with OutOfOrder _ _ => 1 | _ => 0 end.
Definition sum_log (f : log_line -> Z) (log : list log_line) : Z :=
  foldr (fun l acc => f l + acc) 0 log.

Lemma sum_log_app f l1 l2 : sum_log f (l1 ++ l2) = sum_log f l1 + sum_log f l2.
Proof. induction l1 as [|l l1 IH]; simpl; [done|]. rewrite IH. lia. Qed.

(** The packet is not a message for us: nothing but perhaps a warning. *)
Lemma process_one_none o cfg p tr :
  packet_ok p -> frame_msg (EngineV3.udp_dst_port cfg) p = None ->
  exists log, EngineV3.process_one o cfg p tr = Some (tr, log) /\
    sum_log log_gap log = 0 /\ sum_log log_late log = 0.
Proof.
  intros Hp Hm. unfold EngineV3.process_one, frame_msg in *.
  destruct (pv_data p) as [frame|] eqn:Hd; cbn [mbind option_bind] in *; [|by exists []].
  destruct (extract_cases p (EngineV3.udp_dst_port cfg) frame Hp Hd) as [Hx|(off & len & Hx & Hv)];
    rewrite Hx in *; cbn [mbind option_bind] in *; [by exists []|].
  unfold decode. destruct (len <? kWireSize); [|done]. by exists [DecodeFailed len].
Qed.

(** The packet carries [m]: the tracker moves as engine v1's does, and the log
    has the gap or the late packet that engine v1 counts. *)
Lemma process_one_some o cfg p tr m mt :
  packet_ok p -> frame_msg (EngineV3.udp_dst_port cfg) p = Some m ->
  exists log, EngineV3.process_one o cfg p tr = Some ((track_seq (seq_num m) tr mt).1, log) /\
    u64 (Metrics.seq_num_gaps_ (track_seq (seq_num m) tr mt).2)
      = Metrics.seq_num_gaps_ mt +% sum_log log_gap log /\
    u64 (Metrics.drops_ (track_seq (seq_num m) tr mt).2)
      = Metrics.drops_ mt +% sum_log log_late log.
Proof.
  intros Hp Hm. unfold EngineV3.process_one, frame_msg in *.
  destruct (pv_data p) as [frame|] eqn:Hd; cbn [mbind option_bind] in *; [|done].
  destruct (extract_cases p (EngineV3.udp_dst_port cfg) frame Hp Hd) as [Hx|(off & len & Hx & Hv)];
    rewrite Hx in *; cbn [mbind option_bind] in *; [done|].
  destruct (Z.ltb_spec len kWireSize) as [|Hlen]; [done|].
  destruct Hp as [_ Hok]. rewrite Hd in Hok. destruct Hok as [_ Hb].
  destruct Hv as [_ _ _ ? _ _ _ Hoff _ _ Hfits]. unfold kWireSize in *.
  rewrite decode_parse; [|done| |by apply mem_read_Forall].
  2: { rewrite length_mem_read by lia. lia. }
  injection Hm as Hm. rewrite Hm. unfold track_seq.
  destruct (EngineV3.log_each_packet cfg), (seq_initialized_ tr), (seq_num m =? expected_seq_num_ tr),
    (expected_seq_num_ tr <? seq_num m); cbn [negb]; eexists; split; try done;
    simpl; rewrite ?wrapu_idemp, ?Z.add_0_r by lia; done.
Qed.

Lemma process_all_spec o cfg packets tr mt :
  Forall packet_ok packets ->
  let seqs := seq_num <$> omap (frame_msg (EngineV3.udp_dst_port cfg)) packets in
  exists log, EngineV3.process_all o cfg packets tr = Some ((track_all seqs tr mt).1, log) /\
    u64 (Metrics.seq_num_gaps_ (track_all seqs tr mt).2)
      = Metrics.seq_num_gaps_ mt +% sum_log log_gap log /\
    u64 (Metrics.drops_ (track_all seqs tr mt).2)
      = Metrics.drops_ mt +% sum_log log_late log.
Proof.
  revert tr mt. induction packets as [|p packets IH]; intros tr mt Hok; cbv zeta.
  { exists []. simpl. by rewrite !Z.add_0_r. }
  apply Forall_cons_1 in Hok as [Hp Hok]. cbn [EngineV3.process_all omap list_omap].
  destruct (frame_msg _ p) as [m|] eqn:Hm.
  - destruct (process_one_some o cfg p tr m (Metrics.inc_received 1 mt) Hp Hm)
      as (log1 & -> & Hg1 & Hd1).
    cbn [fmap list_fmap track_all].
    destruct (track_seq (seq_num m) tr (Metrics.inc_received 1 mt)) as [tr' mt'] eqn:Ht.
    destruct (IH tr' mt' Hok) as (log2 & Hall & Hg2 & Hd2).
    cbn [mbind option_bind fst snd] in *. rewrite Hall. exists (log1 ++ log2).
    split; [done|]. rewrite !sum_log_app, Hg2, Hd2.
    rewrite <- (wrapu_add_l 64 (Metrics.seq_num_gaps_ mt')), <- (wrapu_add_l 64 (Metrics.drops_ mt')),
      Hg1, Hd1, !wrapu_add_l. simpl. split; f_equal; lia.
  - destruct (process_one_none o cfg p tr Hp Hm) as (log1 & -> & Hg1 & Hd1).
    destruct (IH tr mt Hok) as (log2 & Hall & Hg2 & Hd2).
    cbn [mbind option_bind] in *. rewrite Hall. exists (log1 ++ log2).
    split; [done|]. by rewrite !sum_log_app, Hg1, Hd1.
Qed.

(** C27 (engine v3 agrees with engine v1).  On any sequence of well-formed packet
    views, engine v3 never reads outside a frame and ends with the tracker that
    engine v1's consumer has after the messages these frames carry; the gaps it
    logs add up to v1's gap counter and it logs one out-of-order line for each of
    v1's drops. *)
Theorem v3_agrees_with_v1 o cfg packets :
  Forall packet_ok packets ->
  exists tr log m,
    EngineV3.process_all o cfg packets fresh_tracker = Some (tr, log) /\
    track_all (seq_num <$> omap (frame_msg (EngineV3.udp_dst_port cfg)) packets)
      fresh_tracker Metrics.zero = (tr, m) /\
    Metrics.seq_num_gaps_ m = u64 (sum_log log_gap log) /\
    Metrics.drops_ m = u64 (sum_log log_late log).
Proof.
  intros Hok. destruct (process_all_spec o cfg packets fresh_tracker Metrics.zero Hok)
    as (log & Hall & Hg & Hd).
  destruct (track_all_ok (seq_num <$> omap (frame_msg (EngineV3.udp_dst_port cfg)) packets)
    fresh_tracker Metrics.zero) as (_ & _ & _ & Hdr & Hgr); [by vm_compute|].
  destruct (track_all _ fresh_tracker Metrics.zero) as [tr m]. cbn [fst snd] in *.
  rewrite (wrapu_small 64 (Metrics.seq_num_gaps_ m)) in Hg by done.
  rewrite (wrapu_small 64 (Metrics.drops_ m)) in Hd by done.
  by exists tr, log, m.
Qed.

(** ** The loop against the interface *)

Section run.
Context {S : Type} `{RxSourceLaws S}.

(** The source goes from one state to another by polls of [cap] packets, each
    burst given back before the next poll. *)
Inductive served (cap : Z) : S -> list (list PacketView) -> S -> Prop :=
  | served_nil rs : served cap rs [] rs
  | served_cons rs ps rs1 bursts rs' :
      rx_poll cap rs = (ps, rs1) ->
      served cap (if 0 <? Z.of_nat (length ps) then rx_release ps rs1 else rs1) bursts rs' ->
      served cap rs (ps :: bursts) rs'.

(** Between polls: open, and nothing outstanding. *)
Definition rx_ready (rs : S) : Prop :=
  rx_inv rs /\ rx_is_open rs = true /\ rx_outstanding rs = [].

Lemma poll_release cap rs ps rs1 :
  rx_ready rs -> 0 <= cap -> rx_poll cap rs = (ps, rs1) ->
  Z.of_nat (length ps) <= cap /\ Forall packet_ok ps /\
  rx_ready (if 0 <? Z.of_nat (length ps) then rx_release ps rs1 else rs1).
Proof.
  intros (Hi & Ho & Hout) Hcap Hpoll. pose proof (rx_poll_law rs cap Hi Ho Hcap) as Hlaw.
  rewrite Hpoll in Hlaw. destruct Hlaw as (Hi1 & Ho1 & Hlen & Hok & Hout1).
  rewrite Hout in Hout1. split_and!; [done|done|].
  destruct (Z.ltb_spec 0 (Z.of_nat (length ps))) as [|Hnil].
  - apply (rx_release_law rs1 ps []); [done|done|]. by rewrite app_nil_r.
  - destruct ps; [done|simpl in Hnil; lia].
Qed.

(** Whether the interference [i] makes the loop stop. *)
Definition stops (cfg : EngineV3.Config) (i : EngineV3.interference) : Prop :=
  EngineV3.i_stop i = true \/
  (EngineV3.has_stop_signal_flag cfg = true /\ EngineV3.i_signal i <> 0).

#[global] Instance stops_dec cfg i : Decision (stops cfg i).
Proof. unfold stops; apply _. Defined.

Lemma keep_going_spec cfg i (e : EngineV3.t S) :
  EngineV3.cfg_ e = cfg -> EngineV3.stop_requested_ e = false ->
  EngineV3.keep_going i (if EngineV3.i_stop i then EngineV3.request_stop e else e) = true
  <-> ~ stops cfg i.
Proof.
  intros <- Hs. unfold EngineV3.keep_going, stops.
  destruct (EngineV3.i_stop i); simpl; [by split; [|intros []; left]|]. rewrite Hs.
  destruct (EngineV3.has_stop_signal_flag _), (Z.eqb_spec (EngineV3.i_signal i) 0);
    simpl; intuition congruence.
Qed.

Lemma process_all_app o cfg ps1 ps2 tr tr1 l1 tr2 l2 :
  EngineV3.process_all o cfg ps1 tr = Some (tr1, l1) ->
  EngineV3.process_all o cfg ps2 tr1 = Some (tr2, l2) ->
  EngineV3.process_all o cfg (ps1 ++ ps2) tr = Some (tr2, l1 ++ l2).
Proof.
  revert tr l1. induction ps1 as [|p ps1 IH]; intros tr l1 H1 H2; simpl in *; [naive_solver|].
  destruct (EngineV3.process_one o cfg p tr) as [[tr0 l0]|]; simpl in *; [|done].
  destruct (EngineV3.process_all o cfg ps1 tr0) as [[tr0' l0']|] eqn:E; simpl in *; [|done].
  injection H1 as -> <-. rewrite (IH _ _ E H2). simpl. by rewrite app_assoc.
Qed.

(** The loop up to its first stopping test. *)
Lemma loop_spec o cap env rs (e : EngineV3.t S) k i :
  rx_ready rs -> 0 <= cap -> EngineV3.stop_requested_ e = false ->
  list_find (stops (EngineV3.cfg_ e)) env = Some (k, i) ->
  exists bursts rs' tr log,
    EngineV3.loop o cap env rs e
    = EngineV3.Stopped rs' (EngineV3.mk (EngineV3.i_stop i) (EngineV3.cfg_ e)
        (EngineV3.rx_source_ e) tr (EngineV3.logged e ++ log)) /\
    served cap rs bursts rs' /\ length bursts = k /\ rx_ready rs' /\
    Forall (fun ps => Z.of_nat (length ps) <= cap /\ Forall packet_ok ps) bursts /\
    EngineV3.process_all o (EngineV3.cfg_ e) (concat bursts) (EngineV3.seq e) = Some (tr, log).
Proof.
  revert rs e k. induction env as [|j env IH]; intros rs e k Hr Hcap Hs Hfind; [done|].
  cbn [list_find] in Hfind. cbn [EngineV3.loop].
  pose proof (keep_going_spec _ j e eq_refl Hs) as Hk. case_decide as Hstop.
  - injection Hfind as <- <-. exists [], rs, (EngineV3.seq e), [].
    destruct (EngineV3.keep_going j _); [by destruct (proj1 Hk eq_refl)|].
    rewrite app_nil_r. split_and!; try done; [|constructor].
    destruct (EngineV3.i_stop j); destruct e; simpl in *; by subst.
  - apply fmap_Some in Hfind as ([k' i'] & Hfind & [= -> ->]).
    rewrite (proj2 Hk) by done.
    assert (Hj : EngineV3.i_stop j = false)
      by (destruct (EngineV3.i_stop j) eqn:E; [destruct Hstop; by left|done]).
    rewrite Hj. unfold EngineV3.loop_body.
    destruct (rx_poll cap rs) as [ps rs1] eqn:Hpoll.
    destruct (poll_release cap rs ps rs1 Hr Hcap Hpoll) as (Hlen & Hok & Hr1).
    destruct (process_all_spec o (EngineV3.cfg_ e) ps (EngineV3.seq e) Metrics.zero Hok)
      as (log1 & Hp1 & _). rewrite Hp1. cbn [mbind option_bind].
    set (tr1 := (track_all _ _ _).1) in *.
    destruct (IH _ (EngineV3.mk (EngineV3.stop_requested_ e) (EngineV3.cfg_ e)
      (EngineV3.rx_source_ e) tr1 (EngineV3.logged e ++ log1)) k' Hr1 Hcap Hs Hfind)
      as (bursts & rs' & tr & log & -> & Hsv & Hk' & Hr' & Hb & Hp).
    exists (ps :: bursts), rs', tr, (log1 ++ log). cbn [EngineV3.cfg_ EngineV3.rx_source_
      EngineV3.logged EngineV3.seq EngineV3.stop_requested_] in *.
    rewrite app_assoc. split_and!; try done.
    + by econstructor.
    + simpl. by rewrite Hk'.
    + by constructor.
    + cbn [concat]. by eapply process_all_app.
Qed.

(** C3 (the engine's run).  For every packet source that obeys the interface and
    every schedule of stop requests and signals that stops the loop at its
    [k]-th test: if the source does not open, [run] returns false with the engine
    unchanged and the source closed; otherwise [run] returns true after exactly
    [k] polls of at most [min(burst_size, 256)] packets, having processed all
    packets in the order received and given every one of them back before the
    next poll, and leaves the source closed with no packet outstanding. *)
Theorem v3_run o env rs (e : EngineV3.t S) k i :
  rx_inv rs -> rx_outstanding rs = [] -> EngineV3.rx_source_ e = Some rs ->
  EngineV3.stop_requested_ e = false -> 0 <= EngineV3.burst_size (EngineV3.cfg_ e) ->
  list_find (stops (EngineV3.cfg_ e)) env = Some (k, i) ->
  let '(ok, rs0) := rx_open rs in
  let burst := Z.min (EngineV3.burst_size (EngineV3.cfg_ e)) 256 in
  if ok then
    exists bursts rs' tr log,
      served burst rs0 bursts rs' /\ length bursts = k /\
      Forall (fun ps => Z.of_nat (length ps) <= burst) bursts /\
      EngineV3.process_all o (EngineV3.cfg_ e) (concat bursts) (EngineV3.seq e)
        = Some (tr, log) /\
      EngineV3.run o env e
        = EngineV3.Returned true (EngineV3.mk (EngineV3.i_stop i) (EngineV3.cfg_ e)
            (Some (rx_close rs')) tr (EngineV3.logged e ++ log)) /\
      rx_is_open (rx_close rs') = false /\ rx_outstanding (rx_close rs') = []
  else
    EngineV3.run o env e = EngineV3.Returned false (EngineV3.set_source e rs0) /\
    rx_is_open rs0 = false /\ rx_outstanding rs0 = [].
Proof.
  intros Hi Hout Hsrc Hs Hb Hfind. unfold EngineV3.run. rewrite Hsrc.
  pose proof (rx_open_law rs Hi Hout) as Ho. destruct (rx_open rs) as [ok rs0].
  destruct Ho as (Hi0 & Ho0 & Hout0). destruct ok; cbn [negb]; [|done].
  assert (Hmin : (if EngineV3.burst_size (EngineV3.cfg_ e) <? EngineV3.kMaxBurst
    then EngineV3.burst_size (EngineV3.cfg_ e) else EngineV3.kMaxBurst)
    = Z.min (EngineV3.burst_size (EngineV3.cfg_ e)) 256).
  { unfold EngineV3.kMaxBurst. destruct (Z.ltb_spec (EngineV3.burst_size (EngineV3.cfg_ e)) 256);
      lia. }
  rewrite Hmin.
  destruct (loop_spec o (Z.min (EngineV3.burst_size (EngineV3.cfg_ e)) 256) env rs0 e k i)
    as (bursts & rs' & tr & log & -> & Hsv & Hk & (Hi' & Ho' & Hout') & Hbs & Hp);
    [done|lia|done|done|].
  destruct (rx_close_law rs' Hi' Hout') as (_ & Hc & Hoc).
  exists bursts, rs', tr, log. split_and!; try done.
  revert Hbs. apply List.Forall_impl. by intros ps [? _].
Qed.

End run.

(** A frame that carries the message number [seq] to port 8888. *)
Definition msg_frame (seq : Z) : list Z :=
  udp_frame (replicate 12 2) 5 0 [0; 1; 0; 0; 64] (replicate 10 9) 4000 8888 [0; 0]
    (wire_layout (mkMsg seq 1 0 10 11 1 2)) [].

Definition msg_packet (seq handle : Z) : PacketView := mkPacket (Some (msg_frame seq)) 86 handle.

Lemma msg_packet_ok seq h : packet_ok (msg_packet seq h).
Proof.
  split; [done|]. cbn [pv_data msg_packet].
  assert (Hok : udp_frame_ok (replicate 12 2) 5 0 [0; 1; 0; 0; 64] (replicate 10 9) 4000 8888
    [0; 0] (wire_layout (mkMsg seq 1 0 10 11 1 2)) []).
  { split; try done; rewrite ?length_wire_layout; try done.
    unfold bytes_ok. rewrite !Forall_app. split_and!; try apply wire_layout_ok;
      apply (bool_decide_unpack _); vm_compute; exact I. }
  pose proof (built_bytes _ _ _ _ _ _ _ _ _ _ Hok) as Hb.
  pose proof (built_length _ _ _ _ _ _ _ _ _ _ Hok) as Hl.
  rewrite length_wire_layout in Hl. split; [exact Hl|exact Hb].
Qed.

Lemma v3_agrees_with_v1_witness :
  exists tr log m,
    EngineV3.process_all little_endian (EngineV3.mkConfig 32 8888 true false)
      [msg_packet 5 0; sample_packet; msg_packet 9 1; msg_packet 7 2] fresh_tracker
      = Some (tr, log) /\
    track_all [5; 9; 7] fresh_tracker Metrics.zero = (tr, m) /\
    Metrics.seq_num_gaps_ m = u64 (sum_log log_gap log) /\
    Metrics.drops_ m = u64 (sum_log log_late log).
Proof.
  apply (v3_agrees_with_v1 little_endian (EngineV3.mkConfig 32 8888 true false)
    [msg_packet 5 0; sample_packet; msg_packet 9 1; msg_packet 7 2]).
  constructor; [exact (msg_packet_ok 5 0)|]. constructor; [exact sample_packet_ok|].
  constructor; [exact (msg_packet_ok 9 1)|]. constructor; [exact (msg_packet_ok 7 2)|constructor].
Defined.
