(* ===== verification/Dpdk.v ===== *)
(** * Dpdk: the DPDK packet source of engine v3

    Models [DpdkRxSourceImpl] and [DpdkRxSource::init_eal] of
    [src/engine/v3/engine.cpp].  The DPDK library is not part of the repository:
    its functions are the operations of a class over an abstract environment, and
    every call is recorded with its result.  A ledger over that record is the
    usage protocol of the library (one pool alive, freed once and not while
    packets are outstanding; configure, queue setup, start, stop, close in that
    order; a burst only from a started port). *)

From Stdlib Require Import ZArith Lia String.
From stdpp Require Import base numbers list option.
From S2P Require Import Prelude Wire Metrics Packet EngineV3.

Local Open Scope Z_scope.

(** A received buffer: its address, the bytes of its data area and the
    [data_len] field. *)
Record mbuf := mkMbuf { mb_addr : Z; mb_data : list Z; mb_data_len : Z }.

(** ** The library's functions

    [W] is the state of the library and of the machine behind it. *)

Class DpdkLib (W : Type) := {
  rte_eal_init : Z -> W -> Z * W;
  rte_eth_dev_count_avail : W -> Z * W;
  rte_eth_dev_socket_id : Z -> W -> Z * W;
  rte_pktmbuf_pool_create : string -> Z -> Z -> Z -> W -> option Z * W;
  rte_mempool_free : Z -> W -> W;
  rte_eth_dev_configure : Z -> W -> Z * W;
  rte_eth_rx_queue_setup : Z -> Z -> Z -> Z -> Z -> W -> Z * W;
  rte_eth_dev_start : Z -> W -> Z * W;
  rte_eth_dev_stop : Z -> W -> W;
  rte_eth_dev_close : Z -> W -> W;
  rte_eth_promiscuous_enable : Z -> W -> Z * W;
  rte_eth_rx_burst : Z -> Z -> Z -> W -> list mbuf * W;
  rte_pktmbuf_free : Z -> W -> W
}.

(** Documented behaviour the engine relies on: a burst holds at most the number
    of packets asked for, and [data_len] is the size of a packet's data area. *)
Class DpdkLibOk (W : Type) `{DpdkLib W} : Prop := {
  rx_burst_ok port queue n w : 0 <= n ->
    Z.of_nat (length (rte_eth_rx_burst port queue n w).1) <= n /\
    Forall (fun b => Z.of_nat (length (mb_data b)) = mb_data_len b /\ bytes_ok (mb_data b))
      (rte_eth_rx_burst port queue n w).1
}.

(** The calls that matter for resources, with their results. *)
Inductive dpdk_event :=
  | PoolCreate (pool : option Z)
  | PoolFree (pool : Z)
  | Configure (ret : Z)
  | QueueSetup (pool ret : Z)
  | DevStart (ret : Z)
  | Promiscuous
  | DevStop
  | DevClose
  | RxBurst (asked : Z) (got : list Z)
  | MbufFree (handle : Z).

Module DpdkRxSource.

(** [DpdkRxSource::Config]. *)
Record Config := mkConfig {
  port_id : Z;
  queue_id : Z;
  rx_desc : Z;
  mbuf_pool_size : Z;
  mbuf_cache_size : Z;
  socket_id : Z;
  promiscuous : bool;
  mempool_name : string
}.

Definition default_config : Config := mkConfig 0 0 1024 8192 256 (-1) true "md_engine_rx".

Section source.
Context {W : Type} `{DpdkLib W}.

(** The members of [DpdkRxSourceImpl], the environment, and the calls made so
    far, oldest first. *)
Record t := mk {
  cfg_ : Config;
  mbuf_pool_ : option Z;
  is_open_ : bool;
  world : W;
  calls : list dpdk_event
}.

Definition create (cfg : Config) (w : W) : t := mk cfg None false w [].

(** A call that leaves the members alone. *)
Definition did (s : t) (w : W) (ev : dpdk_event) : t :=
  mk (cfg_ s) (mbuf_pool_ s) (is_open_ s) w (calls s ++ [ev]).

Definition reset_mbuf_pool (s : t) : t :=
  match mbuf_pool_ s with
  | None => s
  | Some pool =>
      mk (cfg_ s) None (is_open_ s) (rte_mempool_free pool (world s)) (calls s ++ [PoolFree pool])
  end.

Definition dev_close (s : t) : t :=
  did s (rte_eth_dev_close (port_id (cfg_ s)) (world s)) DevClose.

Definition set_open (b : bool) (s : t) : t :=
  mk (cfg_ s) (mbuf_pool_ s) b (world s) (calls s).

(** The part of [open] that runs with a pool in place. *)
Definition open_port (sock pool : Z) (s : t) : bool * t :=
  let cfg := cfg_ s in
  let '(configure_ret, w) := rte_eth_dev_configure (port_id cfg) (world s) in
  let s := did s w (Configure configure_ret) in
  if configure_ret <? 0 then (false, reset_mbuf_pool s) else
  let '(queue_ret, w) :=
    rte_eth_rx_queue_setup (port_id cfg) (queue_id cfg) (rx_desc cfg) sock pool (world s) in
  let s := did s w (QueueSetup pool queue_ret) in
  if queue_ret <? 0 then (false, reset_mbuf_pool (dev_close s)) else
  let '(ret, w) := rte_eth_dev_start (port_id cfg) (world s) in
  let s := did s w (DevStart ret) in
  if ret <? 0 then (false, reset_mbuf_pool (dev_close s)) else
  let s :=
    if promiscuous cfg then
      let '(_, w) := rte_eth_promiscuous_enable (port_id cfg) (world s) in
      did s w Promiscuous
    else s in
  (true, set_open true s).

Definition decimal_suffix (z : Z) : string := String.append "_" (Metrics.decimal z).

Definition open (s : t) : bool * t :=
  if is_open_ s then (true, s) else
  let cfg := cfg_ s in
  if negb (queue_id cfg =? 0) then (false, s) else
  let '(sock, w) :=
    if 0 <=? socket_id cfg then (socket_id cfg, world s)
    else rte_eth_dev_socket_id (port_id cfg) (world s) in
  let s := mk cfg (mbuf_pool_ s) (is_open_ s) w (calls s) in
  match mbuf_pool_ s with
  | Some pool => open_port sock pool s
  | None =>
      let '(created, w) :=
        rte_pktmbuf_pool_create (String.append (mempool_name cfg) (decimal_suffix (port_id cfg)))
          (mbuf_pool_size cfg) (mbuf_cache_size cfg) sock (world s) in
      let s := mk cfg created (is_open_ s) w (calls s ++ [PoolCreate created]) in
      match created with
      | None => (false, s)
      | Some pool => open_port sock pool s
      end
  end.

Definition close (s : t) : t :=
  if negb (is_open_ s) && match mbuf_pool_ s with None => true | Some _ => false end then s else
  let s :=
    if is_open_ s then
      let s := did s (rte_eth_dev_stop (port_id (cfg_ s)) (world s)) DevStop in
      set_open false (dev_close s)
    else s in
  reset_mbuf_pool s.

Definition view (b : mbuf) : PacketView := mkPacket (Some (mb_data b)) (mb_data_len b) (mb_addr b).

(** [static_cast<uint16_t>] of the capacity cut to [kMaxBurst]. *)
Definition burst_of (capacity : Z) : Z := u16 (if capacity <? 256 then capacity else 256).

Definition poll (capacity : Z) (s : t) : list PacketView * t :=
  let burst := burst_of capacity in
  let '(mbufs, w) :=
    rte_eth_rx_burst (port_id (cfg_ s)) (queue_id (cfg_ s)) burst (world s) in
  (view <$> mbufs, did s w (RxBurst burst (mb_addr <$> mbufs))).

Definition release (packets : list PacketView) (s : t) : t :=
  fold_left (fun s p => did s (rte_pktmbuf_free (pv_handle p) (world s)) (MbufFree (pv_handle p)))
    packets s.

(** [DpdkRxSource::init_eal]. *)
Definition init_eal (argc : Z) (w : W) : bool * W :=
  let '(ret, w) := rte_eal_init argc w in
  if ret <? 0 then (false, w) else
  let '(port_count, w) := rte_eth_dev_count_avail w in
  if port_count =? 0 then (false, w) else (true, w).

End source.
#[global] Arguments t W : clear implicits.

End DpdkRxSource.

(** ** The usage protocol *)

Inductive port_state := Unconfigured | Configured | QueueReady | Started | Stopped.

#[global] Instance port_state_eq_dec : EqDecision port_state.
Proof. solve_decision. Defined.

Record ledger := mkLedger { l_pool : option Z; l_port : port_state; l_out : list Z }.

Definition empty_ledger : ledger := mkLedger None Unconfigured [].

(** Removes the first occurrence; [None] if there is none. *)
Fixpoint remove_one (h : Z) (l : list Z) : option (list Z) :=
  match l with
  | [] => None
  | x :: l => if decide (x = h) then Some l else (x ::.) <$> remove_one h l
  end.

(** [None]: the call breaks the protocol. *)
Definition ledger_step (l : ledger) (ev : dpdk_event) : option ledger :=
  let '(mkLedger pool port out) := l in
  match ev with
  | PoolCreate created =>
      if decide (pool = None) then Some (mkLedger created port out) else None
  | PoolFree p =>
      if decide (pool = Some p /\ port = Unconfigured /\ out = [])
      then Some (mkLedger None port out) else None
  | Configure ret =>
      if decide (port = Unconfigured)
      then Some (mkLedger pool (if ret <? 0 then port else Configured) out) else None
  | QueueSetup p ret =>
      if decide (port = Configured /\ pool = Some p)
      then Some (mkLedger pool (if ret <? 0 then port else QueueReady) out) else None
  | DevStart ret =>
      if decide (port = QueueReady)
      then Some (mkLedger pool (if ret <? 0 then port else Started) out) else None
  | Promiscuous => if decide (port = Started) then Some l else None
  | DevStop => if decide (port = Started) then Some (mkLedger pool Stopped out) else None
  | DevClose =>
      if decide (port = Unconfigured \/ port = Started) then None
      else Some (mkLedger pool Unconfigured out)
  | RxBurst asked got =>
      if decide (port = Started /\ Z.of_nat (length got) <= asked)
      then Some (mkLedger pool port (out ++ got)) else None
  | MbufFree h =>
      out ← remove_one h out; Some (mkLedger pool port out)
  end.

Definition ledger_run (evs : list dpdk_event) (l : ledger) : option ledger :=
  foldl (fun ol ev => l ← ol; ledger_step l ev) (Some l) evs.

Lemma ledger_run_snoc evs ev l l' :
  ledger_run evs l = Some l' -> ledger_run (evs ++ [ev]) l = ledger_step l' ev.
Proof. unfold ledger_run. intros Hl. rewrite foldl_app, Hl. done. Qed.

Section protocol.
Context {W : Type} `{DpdkLibOk W}.

Implicit Types s : DpdkRxSource.t W.

(** The ledger after the calls of [s] is [l], with the pool of [s]. *)
Definition at_ledger s (port : port_state) (out : list Z) : Prop :=
  ledger_run (DpdkRxSource.calls s) empty_ledger
  = Some (mkLedger (DpdkRxSource.mbuf_pool_ s) port out).

Lemma did_at s w ev port out port' out' :
  at_ledger s port out ->
  ledger_step (mkLedger (DpdkRxSource.mbuf_pool_ s) port out) ev
    = Some (mkLedger (DpdkRxSource.mbuf_pool_ s) port' out') ->
  at_ledger (DpdkRxSource.did s w ev) port' out'.
Proof. unfold at_ledger. simpl. intros Hl Hs. by rewrite (ledger_run_snoc _ _ _ _ Hl). Qed.

Lemma reset_pool_at s :
  at_ledger s Unconfigured [] ->
  at_ledger (DpdkRxSource.reset_mbuf_pool s) Unconfigured [] /\
  DpdkRxSource.mbuf_pool_ (DpdkRxSource.reset_mbuf_pool s) = None /\
  DpdkRxSource.is_open_ (DpdkRxSource.reset_mbuf_pool s) = DpdkRxSource.is_open_ s.
Proof.
  unfold at_ledger, DpdkRxSource.reset_mbuf_pool. intros Hl.
  destruct (DpdkRxSource.mbuf_pool_ s) as [p|] eqn:Hp; simpl; [|by rewrite Hp].
  rewrite (ledger_run_snoc _ _ _ _ Hl). simpl. by rewrite decide_True.
Qed.

Lemma dev_close_at s port :
  port <> Unconfigured -> port <> Started -> at_ledger s port [] ->
  at_ledger (DpdkRxSource.dev_close s) Unconfigured [].
Proof.
  intros Hu Hs Hl. eapply did_at; [exact Hl|]. simpl.
  by rewrite decide_False by (by intros [?|?]).
Qed.

(** The representation invariant of the source. *)
Definition source_inv s (out : list Z) : Prop :=
  if DpdkRxSource.is_open_ s
  then at_ledger s Started out /\ DpdkRxSource.mbuf_pool_ s <> None
  else at_ledger s Unconfigured out /\ DpdkRxSource.mbuf_pool_ s = None /\ out = [].

Lemma open_port_spec sock pool s :
  at_ledger s Unconfigured [] -> DpdkRxSource.mbuf_pool_ s = Some pool ->
  DpdkRxSource.is_open_ s = false ->
  let '(ok, s') := DpdkRxSource.open_port sock pool s in
  source_inv s' [] /\ DpdkRxSource.is_open_ s' = ok.
Proof.
  intros Hl Hp Ho. unfold DpdkRxSource.open_port.
  assert (Hfail : forall s1, at_ledger s1 Unconfigured [] -> DpdkRxSource.is_open_ s1 = false ->
    source_inv (DpdkRxSource.reset_mbuf_pool s1) [] /\
    DpdkRxSource.is_open_ (DpdkRxSource.reset_mbuf_pool s1) = false).
  { intros s1 H1 H2. destruct (reset_pool_at s1 H1) as (? & ? & E). rewrite H2 in E.
    unfold source_inv. by rewrite E. }
  destruct (rte_eth_dev_configure _ _) as [cret w1].
  set (s1 := DpdkRxSource.did s w1 _).
  assert (H1 : at_ledger s1 (if cret <? 0 then Unconfigured else Configured) [])
    by (eapply did_at; [exact Hl|]; simpl; by destruct (cret <? 0)).
  destruct (cret <? 0); [by apply Hfail|].
  destruct (rte_eth_rx_queue_setup _ _ _ _ _ _) as [qret w2].
  set (s2 := DpdkRxSource.did s1 w2 _).
  assert (H2 : at_ledger s2 (if qret <? 0 then Configured else QueueReady) [])
    by (eapply did_at; [exact H1|]; simpl; rewrite decide_True by done; by destruct (qret <? 0)).
  destruct (qret <? 0); [by apply Hfail; [eapply dev_close_at; [| |exact H2]|]|].
  destruct (rte_eth_dev_start _ _) as [ret w3].
  set (s3 := DpdkRxSource.did s2 w3 _).
  assert (H3 : at_ledger s3 (if ret <? 0 then QueueReady else Started) [])
    by (eapply did_at; [exact H2|]; simpl; by destruct (ret <? 0)).
  destruct (ret <? 0); [by apply Hfail; [eapply dev_close_at; [| |exact H3]|]|].
  destruct (DpdkRxSource.promiscuous _); [destruct (rte_eth_promiscuous_enable _ _) as [? w4]|];
    (split; [split; [|by simpl; rewrite Hp]|done]); [|exact H3].
  eapply did_at; [exact H3|]. done.
Qed.

Lemma open_spec s out :
  source_inv s out -> out = [] ->
  let '(ok, s') := DpdkRxSource.open s in
  source_inv s' [] /\ DpdkRxSource.is_open_ s' = ok.
Proof.
  intros Hi ->. unfold DpdkRxSource.open.
  destruct (DpdkRxSource.is_open_ s) eqn:Ho; [done|].
  unfold source_inv in Hi. rewrite Ho in Hi. destruct Hi as (Hl & Hp & _).
  destruct (negb _); [by unfold source_inv; rewrite Ho|].
  destruct (if 0 <=? _ then _ else _) as [sock w]. cbn [DpdkRxSource.mbuf_pool_
    DpdkRxSource.is_open_ DpdkRxSource.world DpdkRxSource.calls]. rewrite Hp.
  destruct (rte_pktmbuf_pool_create _ _ _ _ _) as [created w1].
  assert (H1 : at_ledger (DpdkRxSource.mk (DpdkRxSource.cfg_ s) created (DpdkRxSource.is_open_ s)
    w1 (DpdkRxSource.calls s ++ [PoolCreate created])) Unconfigured []).
  { unfold at_ledger in *. simpl. rewrite (ledger_run_snoc _ _ _ _ Hl). simpl.
    by rewrite Hp. }
  destruct created as [pool|].
  - by apply open_port_spec.
  - simpl. rewrite Ho in *. done.
Qed.

Lemma close_spec s :
  source_inv s [] ->
  source_inv (DpdkRxSource.close s) [] /\ DpdkRxSource.is_open_ (DpdkRxSource.close s) = false.
Proof.
  intros Hi. unfold DpdkRxSource.close.
  destruct (DpdkRxSource.is_open_ s) eqn:Ho; cbn [negb andb].
  - pose proof Hi as Hi'. unfold source_inv in Hi'. rewrite Ho in Hi'. destruct Hi' as [Hl Hp].
    set (s1 := DpdkRxSource.did s _ DevStop).
    assert (H1 : at_ledger s1 Stopped []) by (eapply did_at; [exact Hl|done]).
    assert (H2 : at_ledger (DpdkRxSource.dev_close s1) Unconfigured [])
      by (by eapply dev_close_at; [| |exact H1]).
    destruct (reset_pool_at (DpdkRxSource.set_open false (DpdkRxSource.dev_close s1)) H2)
      as (H3 & H4 & H5). unfold source_inv. by rewrite H5.
  - unfold source_inv in Hi. rewrite Ho in Hi. destruct Hi as (Hl & Hp & _).
    rewrite Hp. unfold source_inv. by rewrite Ho.
Qed.

Lemma poll_spec s out n :
  source_inv s out -> DpdkRxSource.is_open_ s = true -> 0 <= n ->
  let '(ps, s') := DpdkRxSource.poll n s in
  source_inv s' (out ++ (pv_handle <$> ps)) /\ DpdkRxSource.is_open_ s' = true /\
  Z.of_nat (length ps) <= n /\ Forall packet_ok ps.
Proof.
  intros Hi Ho Hn. unfold DpdkRxSource.poll, source_inv in *. rewrite Ho in Hi.
  destruct Hi as [Hl Hp].
  assert (Hb : 0 <= DpdkRxSource.burst_of n <= n).
  { unfold DpdkRxSource.burst_of. destruct (Z.ltb_spec n 256); word_lia. }
  destruct (rx_burst_ok (DpdkRxSource.port_id (DpdkRxSource.cfg_ s))
    (DpdkRxSource.queue_id (DpdkRxSource.cfg_ s)) (DpdkRxSource.burst_of n)
    (DpdkRxSource.world s)) as [Hlen Hok]; [lia|].
  destruct (rte_eth_rx_burst _ _ _ _) as [mbufs w]. cbn [fst] in *.
  cbn [DpdkRxSource.is_open_ DpdkRxSource.did]. rewrite Ho.
  assert (Hv : pv_handle <$> (DpdkRxSource.view <$> mbufs) = mb_addr <$> mbufs)
    by (rewrite <- list_fmap_compose; done).
  rewrite Hv. split_and!; try done.
  - eapply did_at; [exact Hl|]. simpl. rewrite decide_True; [done|].
    rewrite length_fmap. done.
  - rewrite length_fmap. lia.
  - apply Forall_fmap. revert Hok. apply List.Forall_impl. intros b [Hbl Hbb].
    split; simpl; [lia|done].
Qed.

Lemma release_spec ps s rest :
  source_inv s ((pv_handle <$> ps) ++ rest) -> DpdkRxSource.is_open_ s = true ->
  source_inv (DpdkRxSource.release ps s) rest /\
  DpdkRxSource.is_open_ (DpdkRxSource.release ps s) = true.
Proof.
  revert s. induction ps as [|p ps IH]; intros s Hi Ho; [done|]. apply IH; [|done].
  unfold source_inv in *. cbn [DpdkRxSource.is_open_ DpdkRxSource.did].
  rewrite Ho in *. destruct Hi as [Hl Hp]. split; [|done].
  eapply did_at; [exact Hl|]. simpl. by rewrite decide_True.
Qed.

#[global] Instance DpdkRxSource_RxSource : RxSource (DpdkRxSource.t W) := {
  rx_open := DpdkRxSource.open;
  rx_close := DpdkRxSource.close;
  rx_poll := DpdkRxSource.poll;
  rx_release := DpdkRxSource.release
}.

(** The packets outstanding according to the record of calls. *)
Definition source_outstanding s : list Z :=
  from_option l_out [] (ledger_run (DpdkRxSource.calls s) empty_ledger).

Lemma source_inv_outstanding s out : source_inv s out -> source_outstanding s = out.
Proof.
  unfold source_inv, source_outstanding, at_ledger.
  destruct (DpdkRxSource.is_open_ s); [intros [-> _]|intros (-> & _ & _)]; done.
Qed.

#[global] Program Instance DpdkRxSource_laws : RxSourceLaws (DpdkRxSource.t W) := {
  rx_inv s := source_inv s (source_outstanding s);
  rx_is_open := DpdkRxSource.is_open_;
  rx_outstanding := source_outstanding
}.
Next Obligation.
  intros s Hi Hout. pose proof (open_spec s _ Hi Hout) as Ho. simpl in *.
  destruct (DpdkRxSource.open s) as [ok s'], Ho as [Hi' Ho'].
  by rewrite (source_inv_outstanding _ _ Hi').
Qed.
Next Obligation.
  intros s Hi Hout. simpl in Hi, Hout. rewrite Hout in Hi. destruct (close_spec s Hi) as [Hi' Ho']. simpl.
  by rewrite (source_inv_outstanding _ _ Hi').
Qed.
Next Obligation.
  intros s n Hi Ho Hn. pose proof (poll_spec s _ n Hi Ho Hn) as Hp. simpl in *.
  destruct (DpdkRxSource.poll n s) as [ps s'], Hp as (Hi' & Ho' & Hl & Hok).
  by rewrite (source_inv_outstanding _ _ Hi').
Qed.
Next Obligation.
  intros s ps rest Hi Ho Hout. simpl in Hi, Hout. rewrite Hout in Hi.
  destruct (release_spec ps s rest Hi Ho) as [Hi' Ho']. simpl.
  by rewrite (source_inv_outstanding _ _ Hi').
Qed.

End protocol.

(** ** Properties *)

Section session.
Context {W : Type} `{DpdkLibOk W}.

(** Nothing is held any more. *)
Definition released (s : DpdkRxSource.t W) : Prop :=
  DpdkRxSource.is_open_ s = false /\ DpdkRxSource.mbuf_pool_ s = None /\
  ledger_run (DpdkRxSource.calls s) empty_ledger = Some empty_ledger.

Lemma closed_released (s : DpdkRxSource.t W) : rx_inv s -> rx_is_open s = false -> released s.
Proof.
  intros Hi Ho. cbn [rx_inv DpdkRxSource_laws] in Hi. simpl in Ho. unfold source_inv in Hi.
  rewrite Ho in Hi. destruct Hi as (Hl & Hp & Hout). unfold at_ledger in Hl.
  rewrite Hp, Hout in Hl. done.
Qed.

(** [run] on a source that is between sessions, or already open. *)
Lemma run_releases o env (s : DpdkRxSource.t W) (e : EngineV3.t (DpdkRxSource.t W)) k i :
  rx_inv s -> rx_outstanding s = [] -> EngineV3.rx_source_ e = Some s ->
  EngineV3.stop_requested_ e = false -> 0 <= EngineV3.burst_size (EngineV3.cfg_ e) ->
  list_find (stops (EngineV3.cfg_ e)) env = Some (k, i) ->
  exists e' s', EngineV3.run o env e = EngineV3.Returned (DpdkRxSource.open s).1 e' /\
    EngineV3.rx_source_ e' = Some s' /\ released s'.
Proof.
  intros Hi0 Hout0 Hs Hstop Hb Hfind. unfold EngineV3.run. rewrite Hs.
  pose proof (rx_open_law s Hi0 Hout0) as Ho. cbn [rx_open DpdkRxSource_RxSource] in *.
  destruct (DpdkRxSource.open s) as [ok s0]. destruct Ho as (Hi1 & Ho1 & Hout1).
  destruct ok; cbn [negb fst]; [|by eexists _, s0; split_and!; try apply closed_released].
  set (cap := if _ <? EngineV3.kMaxBurst then _ else _).
  assert (Hcap : 0 <= cap) by (unfold cap; by destruct (_ <? _)).
  destruct (loop_spec o cap env s0 e k i) as (bursts & rs' & tr & log & -> & _ & _ & Hr & _);
    [done|done|done|done|]. destruct Hr as (Hi' & _ & Hout').
  destruct (rx_close_law rs' Hi' Hout') as (Hi2 & Hc & _).
  eexists _, (rx_close rs'). split_and!; [done|done|by apply closed_released..].
Qed.

(** DPDK resources.  Engine v3 run over a fresh DPDK source, for any
    library behaviour within its documentation (any call may fail, bursts may be
    of any size up to the one asked for), any configuration and any schedule that
    eventually stops the loop: [run] returns, and it returns true exactly when
    the port opened; every call to DPDK was allowed by the protocol, and at the
    end the pool is freed, the port closed and every received buffer given back,
    on the failure paths too. *)
Theorem v3_dpdk_session o env dcfg (w : W) cfg k i :
  0 <= EngineV3.burst_size cfg ->
  list_find (stops cfg) env = Some (k, i) ->
  let s := DpdkRxSource.create dcfg w in
  let e := (EngineV3.attach s (EngineV3.construct cfg)).2 in
  exists e' s', EngineV3.run o env e = EngineV3.Returned (DpdkRxSource.open s).1 e' /\
    EngineV3.rx_source_ e' = Some s' /\ DpdkRxSource.is_open_ s' = false /\
    DpdkRxSource.mbuf_pool_ s' = None /\
    ledger_run (DpdkRxSource.calls s') empty_ledger = Some empty_ledger.
Proof.
  intros Hb Hfind s e.
  destruct (run_releases o env s e k i) as (e' & s' & Hr & Hs & Hrel); [done..|]. by exists e', s'.
Qed.

End session.

(** A library whose environment is the script of bursts to come, each packet
    given by its message number and its buffer's address. *)
Definition scripted_mbuf (x : Z * Z) : mbuf := mkMbuf x.2 (msg_frame x.1) 86.

#[global] Instance scripted_lib : DpdkLib (list (list (Z * Z))) := {
  rte_eal_init _ w := (0, w);
  rte_eth_dev_count_avail w := (1, w);
  rte_eth_dev_socket_id _ w := (0, w);
  rte_pktmbuf_pool_create _ _ _ _ w := (Some 1, w);
  rte_mempool_free _ w := w;
  rte_eth_dev_configure _ w := (0, w);
  rte_eth_rx_queue_setup _ _ _ _ _ w := (0, w);
  rte_eth_dev_start _ w := (0, w);
  rte_eth_dev_stop _ w := w;
  rte_eth_dev_close _ w := w;
  rte_eth_promiscuous_enable _ w := (-95, w);
  rte_eth_rx_burst _ _ n w :=
    match w with
    | [] => ([], [])
    | b :: w => (scripted_mbuf <$> take (Z.to_nat n) b, w)
    end;
  rte_pktmbuf_free _ w := w
}.

#[global] Instance scripted_lib_ok : DpdkLibOk (list (list (Z * Z))).
Proof.
  split. intros port queue n [|b w] Hn; simpl; [split; [lia|constructor]|].
  split; [rewrite length_fmap, length_take; lia|].
  apply Forall_fmap, Forall_true. intros [seq h].
  destruct (msg_packet_ok seq h) as [_ Hok]. exact Hok.
Qed.

Definition demo_config : EngineV3.Config := EngineV3.mkConfig 32 8888 false true.

Definition demo_env : list EngineV3.interference :=
  [EngineV3.mkInterference false 0; EngineV3.mkInterference false 0;
   EngineV3.mkInterference false 2].

Lemma v3_dpdk_session_witness :
  exists e' s', EngineV3.run little_endian demo_env
      (EngineV3.attach (DpdkRxSource.create DpdkRxSource.default_config
        [[(5, 100); (6, 101)]; [(9, 100)]]) (EngineV3.construct demo_config)).2
      = EngineV3.Returned true e' /\
    EngineV3.rx_source_ e' = Some s' /\ DpdkRxSource.is_open_ s' = false /\
    DpdkRxSource.mbuf_pool_ s' = None /\
    ledger_run (DpdkRxSource.calls s') empty_ledger = Some empty_ledger.
Proof.
  destruct (v3_dpdk_session little_endian demo_env DpdkRxSource.default_config
    [[(5, 100); (6, 101)]; [(9, 100)]] demo_config 2 (EngineV3.mkInterference false 2)
    ltac:(discriminate) eq_refl) as (e' & s' & H1 & H2).
  exists e', s'. split; [exact H1|exact H2].
Defined.

(** The same source seen through the interface. *)
Lemma v3_run_witness :
  exists bursts rs' tr log,
    served 32 (DpdkRxSource.open (DpdkRxSource.create DpdkRxSource.default_config
      [[(5, 100); (6, 101)]; [(9, 100)]])).2 bursts rs' /\
    length bursts = 2%nat /\
    EngineV3.process_all little_endian demo_config (concat bursts) fresh_tracker
      = Some (tr, log).
Proof.
  set (rs := DpdkRxSource.create DpdkRxSource.default_config [[(5, 100); (6, 101)]; [(9, 100)]]).
  destruct (@v3_run _ _ (@DpdkRxSource_laws _ scripted_lib scripted_lib_ok) little_endian demo_env rs
    (EngineV3.attach rs (EngineV3.construct demo_config)).2 2 (EngineV3.mkInterference false 2)
    ltac:(vm_compute; auto) ltac:(reflexivity) ltac:(reflexivity) ltac:(reflexivity)
    ltac:(discriminate) ltac:(reflexivity))
    as (bursts & rs' & tr & log & H1 & H2 & _ & H3 & _).
  exists bursts, rs', tr, log. split; [exact H1|]. split; [exact H2|exact H3].
Defined.

Example demo_log :
  exists e', EngineV3.run little_endian demo_env
      (EngineV3.attach (DpdkRxSource.create DpdkRxSource.default_config
        [[(5, 100); (6, 101)]; [(9, 100)]]) (EngineV3.construct demo_config)).2
      = EngineV3.Returned true e' /\
    EngineV3.logged e' = [SequenceGap 7 9 2].
Proof. eexists. split; [vm_compute; reflexivity|reflexivity]. Qed.
