(* ===== verification/Os.v ===== *)
(** * Os: the system-call interface of the network components

    The sockets, epoll and clock calls are not part of the repository.  They are
    a parameter: the kernel answers each call as a function of the history of
    calls and answers so far, so quantifying over kernels covers every behaviour
    of the environment.  Network code is written in a small monad that threads
    the history; [None] is a loop that ran out of fuel.  The file also has the
    descriptor ledger (which descriptors are open after a history, or that a call
    used a descriptor that was not) and the weakest-precondition calculus the
    component proofs use. *)

From Stdlib Require Import ZArith Lia String.
From stdpp Require Import base numbers list option gmap sets.
From S2P Require Import Prelude.

Local Open Scope Z_scope.

(** ** Calls and answers *)

(** [struct sockaddr_in], in host byte order. *)
Record sockaddr := mkAddr { sin_addr : Z; sin_port : Z }.

Definition INADDR_ANY : Z := 0.
Definition no_addr : sockaddr := mkAddr 0 0.

#[global] Instance sockaddr_eq_dec : EqDecision sockaddr.
Proof. solve_decision. Defined.

(** A datagram as [recvmsg]/[recvmmsg] deliver it: the bytes written to the
    buffer, [msg_len], [MSG_TRUNC] and the peer. *)
Record dgram := mkDgram {
  dg_data : list Z;
  dg_len : Z;
  dg_trunc : bool;
  dg_peer : sockaddr
}.

Inductive call :=
  | Socket (ty : Z)
  | SetSockOpt (fd opt val : Z)
  | Bind (fd : Z) (a : sockaddr)
  | Connect (fd : Z) (a : sockaddr)
  | Close (fd : Z)
  | Send (fd : Z) (data : list Z) (flags : Z)
  | SendTo (fd : Z) (data : list Z) (a : sockaddr)
  | SendMmsg (fd : Z) (frames : list (list Z)) (a : option sockaddr)
  | RecvMsg (fd capacity : Z)
  | RecvMmsg (fd : Z) (capacities : list Z)
  | Recv (fd len : Z)
  | Listen (fd : Z)
  | Accept (fd flags : Z)
  | EpollCreate
  | EpollCtlAdd (epfd fd events : Z)
  | EpollWait (epfd maxevents timeout : Z)
  | EventFd
  | TimerFd
  | TimerSet (fd seconds : Z)
  | ReadU64 (fd : Z)
  | WriteU64 (fd : Z)
  | ClockNow
  | SleepUntil (deadline : Z)
  | SleepFor (seconds : Z).

(** The answer: the return value, [errno] (meaningful when it is -1), the
    datagrams received and the events reported as (descriptor, event mask). *)
Record reply := mkReply {
  ret : Z;
  errno : Z;
  r_msgs : list dgram;
  r_events : list (Z * Z)
}.

Definition EINTR : Z := 4.
Definition EBADF : Z := 9.
Definition EAGAIN : Z := 11.
Definition EINVAL : Z := 22.
Definition EWOULDBLOCK : Z := 11.
Definition ENOBUFS : Z := 105.
Definition EPOLLIN : Z := 1.
Definition EPOLLERR : Z := 8.
Definition EPOLLHUP : Z := 16.
Definition EPOLLRDHUP : Z := 8192.
Definition EPOLLET : Z := 2147483648.
Definition SO_REUSEADDR : Z := 2.
Definition SO_SNDBUF : Z := 7.
Definition SO_RCVBUF : Z := 8.
Definition SO_RCVTIMEO : Z := 20.
Definition SOCK_STREAM : Z := 1.
Definition SOCK_DGRAM : Z := 2.
Definition SOCK_NONBLOCK : Z := 2048.
Definition SOCK_CLOEXEC : Z := 524288.
Definition MSG_NOSIGNAL : Z := 16384.

(** Newest first. *)
Definition history : Type := list (call * reply).

(** [inet_pton] on IPv4 addresses: [None] when the string is not one. *)
Class Kernel := {
  kernel : history -> call -> reply;
  inet_pton : string -> option Z
}.

(** ** The monad *)

Definition M (A : Type) : Type := history -> option (A * history).

#[global] Instance M_ret : MRet M := fun A a h => Some (a, h).
#[global] Instance M_bind : MBind M := fun A B f m h =>
  match m h with Some (a, h') => f a h' | None => None end.

Definition sys `{Kernel} (c : call) : M reply :=
  fun h => let r := kernel h c in Some (r, (c, r) :: h).

(** A loop that did not finish. *)
Definition out_of_fuel {A} : M A := fun _ => None.

(** [wp m Q h]: started after [h], [m] finishes with a result and a history that
    satisfy [Q]. *)
Definition wp {A} (m : M A) (Q : A -> history -> Prop) (h : history) : Prop :=
  match m h with Some (a, h') => Q a h' | None => False end.

Lemma wp_ret {A} (a : A) (Q : A -> history -> Prop) h : Q a h -> wp (mret a) Q h.
Proof. done. Qed.

Lemma wp_bind {A B} (m : M A) (f : A -> M B) Q h :
  wp m (fun a => wp (f a) Q) h -> wp (m ≫= f) Q h.
Proof. unfold wp, mbind, M_bind. by destruct (m h) as [[a h']|]. Qed.

Lemma wp_mono {A} (m : M A) (P Q : A -> history -> Prop) h :
  wp m P h -> (forall a h', P a h' -> Q a h') -> wp m Q h.
Proof. unfold wp. destruct (m h) as [[a h']|]; auto. Qed.

Lemma wp_sys `{Kernel} c Q h : Q (kernel h c) ((c, kernel h c) :: h) -> wp (sys c) Q h.
Proof. done. Qed.

Lemma wp_elim {A} (m : M A) (Q : A -> history -> Prop) h :
  wp m Q h -> exists a h', m h = Some (a, h') /\ Q a h'.
Proof. unfold wp. destruct (m h) as [[a h']|]; [|done]. intros HQ. by exists a, h'. Qed.

(** ** The descriptor ledger *)

(** The descriptor a call returns, if it is one that returns one. *)
Definition opens (c : call) : bool :=
  match c with Socket _ | Accept _ _ | EpollCreate | EventFd | TimerFd => true | _ => false end.

(** The descriptors a call uses. *)
Definition uses (c : call) : list Z :=
  match c with
  | Socket _ | EpollCreate | EventFd | TimerFd | ClockNow | SleepUntil _ | SleepFor _ => []
  | EpollCtlAdd epfd fd _ => [epfd; fd]
  | SetSockOpt fd _ _ | Bind fd _ | Connect fd _ | Close fd | Send fd _ _ | SendTo fd _ _
  | SendMmsg fd _ _ | RecvMsg fd _ | RecvMmsg fd _ | Recv fd _ | Listen fd | Accept fd _
  | EpollWait fd _ _ | ReadU64 fd | WriteU64 fd | TimerSet fd _ => [fd]
  end.

(** [None]: the call uses a descriptor that is not open. *)
Definition fd_step (open : gset Z) (c : call) (r : reply) : option (gset Z) :=
  if decide (Forall (.∈ open) (uses c)) then
    match c with
    | Close fd => Some (open ∖ {[fd]})
    | _ => if opens c && (0 <=? ret r) then Some (open ∪ {[ret r]}) else Some open
    end
  else None.

Fixpoint live (h : history) : option (gset Z) :=
  match h with
  | [] => Some ∅
  | (c, r) :: h => open ← live h; fd_step open c r
  end.

(** ** What the kernel promises *)

(** The number of interrupted calls at the end of a history. *)
Fixpoint interrupted (h : history) : nat :=
  match h with
  | (c, r) :: h => if (ret r =? -1) && (errno r =? EINTR) then S (interrupted h) else 0
  | [] => 0
  end.

(** The descriptors registered with an epoll instance and not closed since. *)
Fixpoint watched (h : history) (ep : Z) : gset Z :=
  match h with
  | [] => ∅
  | (EpollCtlAdd e fd _, r) :: h =>
      if (e =? ep) && (0 <=? ret r) then watched h ep ∪ {[fd]} else watched h ep
  | (Close fd, _) :: h => if fd =? ep then ∅ else watched h ep ∖ {[fd]}
  | _ :: h => watched h ep
  end.

(** What was delivered into buffers of the given capacities. *)
Definition dgram_ok (capacity : Z) (d : dgram) : Prop :=
  0 <= dg_len d <= capacity /\ Z.of_nat (length (dg_data d)) = dg_len d /\ bytes_ok (dg_data d).

(** Documented behaviour: a new descriptor is not one that is open, and is
    nonnegative; failure is -1; a batch call handles at most the messages it was
    given; what is received fits the buffers; [epoll_wait] reports at most the
    events asked for, one per descriptor, of descriptors registered with it; at
    most [patience] calls in a row are interrupted by signals. *)
Class KernelOk (patience : nat) `{Kernel} : Prop := {
  kernel_ret h c : -1 <= ret (kernel h c);
  kernel_fresh h c open : live h = Some open -> opens c = true ->
    ret (kernel h c) ∉ open;
  kernel_send h fd data flags :
    ret (kernel h (Send fd data flags)) <= Z.of_nat (length data);
  kernel_sendto h fd data a :
    ret (kernel h (SendTo fd data a)) <= Z.of_nat (length data);
  kernel_sendmmsg h fd frames a :
    ret (kernel h (SendMmsg fd frames a)) <= Z.of_nat (length frames);
  kernel_recvmsg h fd cap :
    0 <= ret (kernel h (RecvMsg fd cap)) ->
    exists d, r_msgs (kernel h (RecvMsg fd cap)) = [d] /\ dgram_ok cap d /\
      dg_len d = ret (kernel h (RecvMsg fd cap));
  kernel_recvmmsg h fd caps :
    0 <= ret (kernel h (RecvMmsg fd caps)) ->
    Z.of_nat (length (r_msgs (kernel h (RecvMmsg fd caps)))) = ret (kernel h (RecvMmsg fd caps)) /\
    exists cs, cs `prefix_of` caps /\ Forall2 dgram_ok cs (r_msgs (kernel h (RecvMmsg fd caps)));
  kernel_recv h fd len :
    0 <= ret (kernel h (Recv fd len)) ->
    exists d, r_msgs (kernel h (Recv fd len)) = [d] /\ dgram_ok len d /\
      dg_len d = ret (kernel h (Recv fd len));
  kernel_epoll_wait h ep n t :
    0 < ret (kernel h (EpollWait ep n t)) ->
    ret (kernel h (EpollWait ep n t)) <= n /\
    Z.of_nat (length (r_events (kernel h (EpollWait ep n t)))) = ret (kernel h (EpollWait ep n t)) /\
    NoDup (r_events (kernel h (EpollWait ep n t))).*1 /\
    Forall (.∈ watched h ep) (r_events (kernel h (EpollWait ep n t))).*1;
  kernel_patience h c :
    (patience <= interrupted h)%nat ->
    ~ (ret (kernel h c) = -1 /\ errno (kernel h c) = EINTR)
}.

(** ** Traffic

    Loops that read a non-blocking descriptor until nothing is left end only if
    the traffic leaves a gap: at most [burst] such calls in a row, interruptions
    aside, find something. *)

Definition drains (c : call) : bool :=
  match c with RecvMmsg _ _ | ReadU64 _ | Accept _ _ => true | _ => false end.

Definition found (c : call) (r : reply) : bool :=
  match c with
  | RecvMmsg _ _ => 0 <? ret r
  | ReadU64 _ => ret r =? 8
  | Accept _ _ => 0 <=? ret r
  | _ => false
  end.

Fixpoint streak (h : history) : nat :=
  match h with
  | [] => 0
  | (c, r) :: h =>
      if negb (drains c) || ((ret r =? -1) && (errno r =? EINTR)) then streak h
      else if found c r then S (streak h) else 0
  end.

Class Traffic (burst : nat) `{Kernel} : Prop :=
  traffic_gap h c : drains c = true -> (burst <= streak h)%nat -> found c (kernel h c) = false.

(** ** Reasoning about histories *)

Lemma live_open h L c r :
  live h = Some L -> opens c = true -> Forall (.∈ L) (uses c) -> 0 <= ret r ->
  live ((c, r) :: h) = Some (L ∪ {[ret r]}).
Proof.
  intros Hl Ho Hu Hr. simpl. rewrite Hl. simpl. unfold fd_step. rewrite decide_True by done.
  rewrite Ho, (proj2 (Z.leb_le _ _) Hr). by destruct c.
Qed.

Lemma live_open_failed h L c r :
  live h = Some L -> opens c = true -> Forall (.∈ L) (uses c) -> ret r < 0 ->
  live ((c, r) :: h) = Some L.
Proof.
  intros Hl Ho Hu Hr. simpl. rewrite Hl. simpl. unfold fd_step. rewrite decide_True by done.
  rewrite Ho, (proj2 (Z.leb_gt _ _) Hr). by destruct c.
Qed.

Lemma live_use h L c r :
  live h = Some L -> opens c = false -> (forall fd, c <> Close fd) -> Forall (.∈ L) (uses c) ->
  live ((c, r) :: h) = Some L.
Proof.
  intros Hl Ho Hc Hu. simpl. rewrite Hl. simpl. unfold fd_step. rewrite decide_True by done.
  rewrite Ho. destruct c; try done. by destruct (Hc fd).
Qed.

Lemma live_close h L fd r :
  live h = Some L -> fd ∈ L -> live ((Close fd, r) :: h) = Some (L ∖ {[fd]}).
Proof.
  intros Hl Hf. simpl. rewrite Hl. simpl. unfold fd_step.
  rewrite decide_True; [done|]. by apply Forall_singleton.
Qed.

(** Descriptors are nonnegative. *)
Lemma live_nonneg h L : live h = Some L -> forall fd, fd ∈ L -> 0 <= fd.
Proof.
  revert L. induction h as [|[c r] h IH]; intros L Hl fd Hf; simpl in Hl.
  { injection Hl as <-. set_solver. }
  destruct (live h) as [L0|]; [|done]. simpl in Hl. specialize (IH L0 eq_refl).
  unfold fd_step in Hl. case_decide; [|done].
  assert (Hcase : fd ∈ L0 \/ fd = ret r /\ 0 <= ret r).
  { destruct c; simpl in Hl; try (destruct (Z.leb_spec 0 (ret r)); simpl in Hl);
      injection Hl as <-; set_solver. }
  destruct Hcase as [Hin|[-> Hr]]; [exact (IH _ Hin)|exact Hr].
Qed.

(** The datagrams handed to the network, in order. *)
Definition sent_by (c : call) (r : reply) : list (list Z) :=
  match c with
  | Send _ data _ | SendTo _ data _ =>
      if ret r =? Z.of_nat (length data) then [data] else []
  | SendMmsg _ frames _ => take (Z.to_nat (ret r)) frames
  | _ => []
  end.

Fixpoint datagrams (h : history) : list (list Z) :=
  match h with
  | [] => []
  | (c, r) :: h => datagrams h ++ sent_by c r
  end.

(** The datagrams received, in order. *)
Definition received_by (c : call) (r : reply) : list dgram :=
  match c with
  | RecvMsg _ _ => if 0 <=? ret r then r_msgs r else []
  | RecvMmsg _ _ => if 0 <? ret r then r_msgs r else []
  | Recv _ _ => if 0 <=? ret r then r_msgs r else []
  | _ => []
  end.

Fixpoint arrived (h : history) : list dgram :=
  match h with
  | [] => []
  | (c, r) :: h => arrived h ++ received_by c r
  end.

(** The deadlines slept until, in order. *)
Fixpoint sleeps (h : history) : list Z :=
  match h with
  | [] => []
  | (c, _) :: h => sleeps h ++ match c with SleepUntil d => [d] | _ => [] end
  end.

(** A call that is not a successful send. *)
Lemma datagrams_quiet h c r : sent_by c r = [] -> datagrams ((c, r) :: h) = datagrams h.
Proof. intros Hq. simpl. by rewrite Hq, app_nil_r. Qed.

(** One step of a monadic program. *)
Ltac wp_step :=
  lazymatch goal with
  | |- wp (mbind _ _) _ _ => apply wp_bind
  | |- wp (sys _) _ _ => apply wp_sys
  | |- wp (mret _) _ _ => apply wp_ret
  end; cbv beta.

(** A step of a program whose calls send nothing, on every branch. *)
Ltac wp_quiet :=
  first
    [ wp_step
    | progress cbv beta zeta
    | lazymatch goal with
      | |- wp (if ?b then _ else _) _ _ => destruct b
      | |- wp (match ?x with None => _ | Some _ => _ end) _ _ => destruct x
      end
    | by rewrite ?datagrams_quiet by done ].

(** Two postconditions of one run. *)
Lemma wp_and {A} (m : M A) (P Q : A -> history -> Prop) h :
  wp m P h -> wp m Q h -> wp m (fun a h' => P a h' /\ Q a h') h.
Proof. unfold wp. by destruct (m h) as [[a h']|]. Qed.

(** [R] holds of the result whenever there is one. *)
Definition returns {A} (m : M A) (R : A -> Prop) : Prop :=
  forall h a h', m h = Some (a, h') -> R a.

Lemma returns_any {A} (m : M A) : returns m (fun _ => True).
Proof. done. Qed.

Lemma returns_ret {A} (a : A) (R : A -> Prop) : R a -> returns (mret a) R.
Proof. intros HR h a' h' [= <- _]. exact HR. Qed.

Lemma returns_bind {A B} (m : M A) (f : A -> M B) (R : A -> Prop) (R' : B -> Prop) :
  returns m R -> (forall a, R a -> returns (f a) R') -> returns (m ≫= f) R'.
Proof.
  intros Hm Hf h b h'. unfold mbind, M_bind. destruct (m h) as [[a h1]|] eqn:E; [|done].
  intros Hb. exact (Hf a (Hm _ _ _ E) _ _ _ Hb).
Qed.

Lemma wp_returns {A} (m : M A) (Q : A -> history -> Prop) (R : A -> Prop) h :
  wp m Q h -> returns m R -> wp m (fun a h' => Q a h' /\ R a) h.
Proof. unfold wp. destruct (m h) as [[a h']|] eqn:E; [|done]. intros HQ HR. split; eauto. Qed.

(** [::close(fd)] followed by [return false]. *)
Definition close_and {A} `{Kernel} (fd : Z) (a : A) : M A :=
  _ ← sys (Close fd); mret a.

Lemma arrived_quiet h c r : received_by c r = [] -> arrived ((c, r) :: h) = arrived h.
Proof. intros Hq. simpl. by rewrite Hq, app_nil_r. Qed.

(** ** Descriptor discipline *)

(** The descriptor an object holds. *)
Definition owned (fd : Z) : gset Z := if 0 <=? fd then {[fd]} else ∅.

Lemma owned_pos fd : 0 <= fd -> owned fd = {[fd]}.
Proof. intros. unfold owned. by rewrite (proj2 (Z.leb_le _ _)). Qed.

Lemma owned_neg fd : fd < 0 -> owned fd = ∅.
Proof. intros. unfold owned. by rewrite (proj2 (Z.leb_gt _ _)). Qed.

Section descriptors.
Context {P : nat} `{KernelOk P}.

(** [Q] for a program that acquired [fd] on top of [L] and then fails. *)
Lemma wp_close_and {A} fd (a : A) (Q : A -> history -> Prop) h L :
  live h = Some (L ∪ {[fd]}) -> fd ∉ L ->
  (forall h', live h' = Some L -> Q a h') -> wp (close_and fd a) Q h.
Proof.
  intros Hl Hf HQ. unfold close_and. repeat wp_step. apply HQ.
  rewrite (live_close _ _ _ _ Hl) by set_solver. f_equal. set_solver.
Qed.

Lemma wp_close_owned {A} fd (m : M A) (Q : A -> history -> Prop) h L :
  live h = Some L -> owned fd ⊆ L ->
  (forall h', live h' = Some (L ∖ owned fd) -> wp m Q h') ->
  wp (_ ← (if 0 <=? fd then _ ← sys (Close fd); mret tt else mret tt); m) Q h.
Proof.
  intros Hl Hf HQ. unfold owned in *. wp_step. destruct (0 <=? fd).
  - repeat wp_step. apply HQ. apply live_close; [done|set_solver].
  - wp_step. apply HQ. rewrite Hl. f_equal. set_solver.
Qed.

(** A call that returns a new descriptor. *)
Lemma wp_open c (Q : reply -> history -> Prop) h L :
  live h = Some L -> opens c = true -> Forall (.∈ L) (uses c) ->
  (forall r h', ret r = -1 -> live h' = Some L -> Q r h') ->
  (forall r h', 0 <= ret r -> ret r ∉ L -> live h' = Some (L ∪ {[ret r]}) -> Q r h') ->
  wp (sys c) Q h.
Proof.
  intros Hl Ho Hu Hfail Hok. wp_step. pose proof (kernel_ret h c) as Hr.
  pose proof (kernel_fresh h c L Hl Ho) as Hf.
  destruct (decide (ret (kernel h c) = -1)) as [E|].
  - apply Hfail; [done|]. apply live_open_failed; [done|done|done|lia].
  - apply Hok; [lia|done|]. apply live_open; [done|done|done|lia].
Qed.

(** A call on an open descriptor. *)
Lemma wp_use c (Q : reply -> history -> Prop) h L :
  live h = Some L -> opens c = false -> (forall fd, c <> Close fd) -> Forall (.∈ L) (uses c) ->
  (forall r h', live h' = Some L -> Q r h') -> wp (sys c) Q h.
Proof. intros. wp_step. eauto using live_use. Qed.

Lemma interrupted_more h c :
  ret (kernel h c) = -1 -> errno (kernel h c) = EINTR ->
  (interrupted h < P)%nat /\ interrupted ((c, kernel h c) :: h) = S (interrupted h).
Proof.
  intros Hr He. split; [|simpl; by rewrite Hr, He].
  destruct (le_lt_dec P (interrupted h)) as [Hle|]; [|done].
  by destruct (kernel_patience h c Hle).
Qed.

Lemma interrupted_none h c :
  errno (kernel h c) <> EINTR -> interrupted ((c, kernel h c) :: h) = 0%nat.
Proof. intros He. simpl. by rewrite (proj2 (Z.eqb_neq _ _) He), andb_false_r. Qed.

End descriptors.

(** Steps of an [open] that holds the new descriptor [fd] on top of [L]. *)
Ltac open_step L :=
  first
  [ lazymatch goal with
    | |- wp (if ?b then _ else _) _ _ => destruct b eqn:?
    | |- wp (match ?x with None => _ | Some _ => _ end) _ _ => destruct x eqn:?
    end
  | eapply (wp_close_and _ _ _ _ L); [eassumption|eassumption|intros ? ?]
  | eapply wp_use; [eassumption|reflexivity|discriminate|
      apply Forall_singleton; set_solver|intros ? ? ?]
  | progress wp_step ].

(** ** Ledgers

    What the proofs of the servers keep of a history: the open descriptors, the
    datagrams that arrived, and what each epoll instance watches. *)

Record ledger (L : gset Z) (A : list dgram) (W : Z -> gset Z) (h : history) : Prop := {
  ledger_live : live h = Some L;
  ledger_arrived : arrived h = A;
  ledger_watched : forall ep, watched h ep = W ep
}.

(** Only open descriptors are watched, and only by open epoll instances. *)
Lemma watched_live h L :
  live h = Some L -> forall ep, watched h ep ⊆ L /\ (ep ∉ L -> watched h ep = ∅).
Proof.
  revert L. induction h as [|[c r] h IH]; intros L Hl ep; simpl in Hl; [set_solver|].
  destruct (live h) as [L0|]; [|done]. simpl in Hl. specialize (IH L0 eq_refl ep).
  unfold fd_step in Hl. case_decide as Hu; [|done].
  assert (Hopen : opens c = true -> L0 ⊆ L).
  { intros Ho. rewrite Ho in Hl. destruct c; try done;
      destruct (0 <=? ret r); injection Hl as <-; set_solver. }
  destruct IH as [IH1 IH2].
  destruct c; cbn [watched]; simpl in Hl;
    try (injection Hl as <-; by split); try (specialize (Hopen eq_refl); set_solver).
  - injection Hl as <-. destruct (Z.eqb_spec fd ep) as [->|]; [set_solver|].
    split; [set_solver|]. intros Hn. rewrite IH2 by set_solver. set_solver.
  - injection Hl as <-. clear Hopen. cbn [uses] in Hu.
    apply Forall_cons_1 in Hu as [Hep Hu]. apply Forall_cons_1 in Hu as [Hfd _].
    destruct (Z.eqb_spec epfd ep) as [->|]; destruct (0 <=? ret r); cbn [andb]; set_solver.
Qed.

Section ledgers.
Context {P : nat} `{KernelOk P}.
Implicit Types (L : gset Z) (A : list dgram) (W : Z -> gset Z).

(** Calls that move no descriptor and no data. *)
Definition plain (c : call) : bool :=
  match c with
  | Close _ | EpollCtlAdd _ _ _ | RecvMsg _ _ | RecvMmsg _ _ | Recv _ _ => false
  | _ => negb (opens c)
  end.

Lemma ledger_plain L A W c r h :
  ledger L A W h -> plain c = true -> Forall (.∈ L) (uses c) -> ledger L A W ((c, r) :: h).
Proof.
  intros [Hl Ha Hw] Hp Hu. split.
  - apply live_use; try done; by destruct c.
  - rewrite arrived_quiet; [done|]. by destruct c.
  - intros ep. rewrite <- Hw. by destruct c.
Qed.

Lemma wp_plain L A W c (Q : reply -> history -> Prop) h :
  ledger L A W h -> plain c = true -> Forall (.∈ L) (uses c) ->
  (forall r h', h' = (c, r) :: h -> ledger L A W h' -> Q r h') -> wp (sys c) Q h.
Proof. intros Hl Hp Hu HQ. wp_step. apply HQ; [done|]. by apply ledger_plain. Qed.

Lemma wp_open_ledger L A W c (Q : reply -> history -> Prop) h :
  ledger L A W h -> opens c = true -> Forall (.∈ L) (uses c) ->
  (forall r h', h' = (c, r) :: h -> ret r = -1 -> ledger L A W h' -> Q r h') ->
  (forall r h', h' = (c, r) :: h -> 0 <= ret r -> ret r ∉ L -> W (ret r) = ∅ ->
    ledger (L ∪ {[ret r]}) A W h' -> Q r h') ->
  wp (sys c) Q h.
Proof.
  intros [Hl Ha Hw] Ho Hu Hfail Hok. wp_step. set (r := kernel h c).
  pose proof (kernel_ret h c) as Hr. pose proof (kernel_fresh h c L Hl Ho) as Hf. fold r in Hr, Hf.
  assert (Hrest : arrived ((c, r) :: h) = A /\ forall ep, watched ((c, r) :: h) ep = W ep).
  { split; [rewrite arrived_quiet; [done|by destruct c]|]. intros ep. rewrite <- Hw. by destruct c. }
  destruct Hrest as [Ha' Hw']. destruct (decide (ret r = -1)) as [E|Hne].
  - apply Hfail; [done|done|]. split; [|done|done]. apply live_open_failed; [done|done|done|lia].
  - apply Hok; [done|lia|done| |].
    + rewrite <- Hw. by apply (watched_live h L Hl).
    + split; [|done|done]. apply live_open; [done|done|done|lia].
Qed.

Lemma wp_close_ledger L A W fd (Q : reply -> history -> Prop) h :
  ledger L A W h -> fd ∈ L ->
  (forall r h', h' = (Close fd, r) :: h ->
    ledger (L ∖ {[fd]}) A (fun ep => if fd =? ep then ∅ else W ep ∖ {[fd]}) h' -> Q r h') ->
  wp (sys (Close fd)) Q h.
Proof.
  intros [Hl Ha Hw] Hf HQ. wp_step. apply HQ; [done|]. split.
  - by apply live_close.
  - by rewrite arrived_quiet.
  - intros ep. cbn [watched]. by rewrite Hw.
Qed.

Lemma wp_watch_ledger L A W ep fd evs (Q : reply -> history -> Prop) h :
  ledger L A W h -> ep ∈ L -> fd ∈ L ->
  (forall r h', h' = (EpollCtlAdd ep fd evs, r) :: h -> -1 <= ret r ->
    ledger L A (fun e => if (ep =? e) && (0 <=? ret r) then W e ∪ {[fd]} else W e) h' -> Q r h') ->
  wp (sys (EpollCtlAdd ep fd evs)) Q h.
Proof.
  intros [Hl Ha Hw] He Hf HQ. wp_step. apply HQ; [done|apply kernel_ret|]. split.
  - apply live_use; try done. by repeat constructor.
  - by rewrite arrived_quiet.
  - intros e. cbn [watched]. by rewrite Hw.
Qed.

End ledgers.

(** One step of a program whose history has a ledger. *)
Ltac ledger_step :=
  first
  [ lazymatch goal with
    | |- wp (if ?b then _ else _) _ _ => destruct b eqn:?
    | |- wp (match ?x with None => _ | Some _ => _ end) _ _ => destruct x eqn:?
    | |- wp (close_and _ _) _ _ => unfold close_and
    end
  | eapply wp_close_ledger; [eassumption|set_solver|intros ? ? ? ?]
  | eapply wp_watch_ledger; [eassumption|set_solver|set_solver|intros ? ? ? ? ?]
  | eapply wp_plain; [eassumption|reflexivity|repeat constructor; set_solver|intros ? ? ? ?]
  | eapply wp_open_ledger;
      [eassumption|reflexivity|repeat constructor; set_solver|intros ? ? ? ? ?|intros ? ? ? ? ? ? ?]
  | progress wp_step ].

(** Three descriptors held on top of [L]. *)
Record held3 (L L' : gset Z) (a b c : Z) : Prop := {
  held3_set : L' = L ∪ {[a; b; c]};
  held3_fresh : {[a; b; c]} ## L;
  held3_ne1 : a <> b;
  held3_ne2 : a <> c;
  held3_ne3 : b <> c;
  held3_pos : 0 <= a /\ 0 <= b /\ 0 <= c
}.

(** ** Draining a descriptor *)

Section draining.
Context {K : Kernel} {P B : nat} {HP : KernelOk P} {HT : Traffic B}.

(** The calls a draining loop may still make: [B] finds, each after at most [P]
    interruptions. *)
Definition drain_measure (h : history) : nat := (B - streak h) * S P + (P - interrupted h).

Definition drain_fuel : nat := S (B * S P + P).

Lemma drain_measure_fuel h : (drain_measure h < drain_fuel)%nat.
Proof. unfold drain_measure, drain_fuel. nia. Qed.

Lemma drain_measure_eintr h c :
  drains c = true -> ret (kernel h c) = -1 -> errno (kernel h c) = EINTR ->
  (drain_measure ((c, kernel h c) :: h) < drain_measure h)%nat.
Proof.
  intros Hd Hr He. destruct (interrupted_more h c Hr He) as [Hlt Hi]. unfold drain_measure.
  rewrite Hi. cbn [streak]. rewrite Hd, Hr, He. simpl. lia.
Qed.

(** The bound once something was found, which calls of other kinds keep. *)
Definition drain_bound (h : history) : nat := (B - streak h) * S P + P.

Lemma drain_measure_bound h : (drain_measure h <= drain_bound h)%nat.
Proof. unfold drain_measure, drain_bound. lia. Qed.

Lemma drain_bound_other h c r : drains c = false -> drain_bound ((c, r) :: h) = drain_bound h.
Proof. intros Hd. unfold drain_bound. cbn [streak]. by rewrite Hd. Qed.

Lemma drain_bound_found h c :
  drains c = true -> found c (kernel h c) = true ->
  (drain_bound ((c, kernel h c) :: h) < drain_measure h)%nat.
Proof.
  intros Hd Hf.
  assert (Hs : (streak h < B)%nat).
  { destruct (le_lt_dec B (streak h)) as [Hle|]; [|done]. by rewrite (traffic_gap h c Hd Hle) in Hf. }
  assert (Hr : ret (kernel h c) <> -1).
  { destruct c; try done; simpl in Hf; lia. }
  unfold drain_bound, drain_measure. cbn [streak].
  rewrite Hd, (proj2 (Z.eqb_neq _ _) Hr), Hf. cbn [negb orb andb].
  replace (B - streak h)%nat with (S (B - S (streak h)))%nat by lia. simpl. lia.
Qed.

Lemma drain_measure_found h c :
  drains c = true -> found c (kernel h c) = true ->
  (drain_measure ((c, kernel h c) :: h) < drain_measure h)%nat.
Proof.
  intros Hd Hf. pose proof (drain_bound_found h c Hd Hf).
  pose proof (drain_measure_bound ((c, kernel h c) :: h)). lia.
Qed.

End draining.

(** ** A concrete kernel

    Every call that transfers data is interrupted once before it succeeds, a
    batch sends at most two messages at a time and nothing arrives.  It shows
    that the promises can be kept. *)

Definition next_fd (open : gset Z) : Z := 1 + foldr Z.max 2 (elements open).

Lemma next_fd_fresh open : next_fd open ∉ open.
Proof.
  rewrite <- elem_of_elements. unfold next_fd. generalize (elements open) as l. intros l.
  assert (Hle : forall x, x ∈ l -> x <= foldr Z.max 2 l).
  { induction l as [|y l IH]; intros x Hx; [by apply elem_of_nil in Hx|].
    apply elem_of_cons in Hx as [-> |Hx]; simpl; [lia|]. specialize (IH x Hx). lia. }
  intros Hx. specialize (Hle _ Hx). lia.
Qed.

Definition once_interrupted (h : history) (r : reply) : reply :=
  match interrupted h with O => mkReply (-1) EINTR [] [] | S _ => r end.

Definition demo_kernel : Kernel := {|
  kernel h c :=
    match c with
    | Socket _ | EpollCreate | EventFd | TimerFd => mkReply (next_fd (default ∅ (live h))) 0 [] []
    | Send _ data _ | SendTo _ data _ =>
        once_interrupted h (mkReply (Z.of_nat (length data)) 0 [] [])
    | SendMmsg _ frames _ =>
        once_interrupted h (mkReply (Z.min 2 (Z.of_nat (length frames))) 0 [] [])
    | RecvMsg _ _ | RecvMmsg _ _ | Recv _ _ | ReadU64 _ | Accept _ _ =>
        once_interrupted h (mkReply (-1) EAGAIN [] [])
    | _ => mkReply 0 0 [] []
    end;
  inet_pton s := Some 2130706433
|}.

Lemma next_fd_pos open : 3 <= next_fd open.
Proof.
  unfold next_fd. induction (elements open) as [|x l IH]; simpl; [lia|]. lia.
Qed.

Lemma demo_kernel_ok : @KernelOk 1 demo_kernel.
Proof.
  assert (Honce : forall h r, -1 <= ret r -> -1 <= ret (once_interrupted h r))
    by (intros h r Hr; unfold once_interrupted; destruct (interrupted h); [simpl; lia|done]).
  assert (Hmax : forall h r n, 0 <= n -> ret r <= n -> ret (once_interrupted h r) <= n)
    by (intros h r n Hn Hr; unfold once_interrupted; destruct (interrupted h); [simpl; lia|done]).
  split.
  - intros h c. pose proof (next_fd_pos (default ∅ (live h))).
    destruct c; simpl; try lia; apply Honce; simpl; lia.
  - intros h c open Hl Ho. destruct c; try done; simpl.
    2: { unfold once_interrupted. intros Hin. pose proof (live_nonneg _ _ Hl _ Hin).
         destruct (interrupted h); simpl in *; lia. }
    all: rewrite Hl; apply next_fd_fresh.
  - intros. apply Hmax; simpl; lia.
  - intros. apply Hmax; simpl; lia.
  - intros. apply Hmax; simpl; lia.
  - intros h fd cap. simpl. unfold once_interrupted. destruct (interrupted h); simpl; lia.
  - intros h fd cap. simpl. unfold once_interrupted. destruct (interrupted h); simpl; lia.
  - intros h fd len. simpl. unfold once_interrupted. destruct (interrupted h); simpl; lia.
  - intros h ep n t. simpl. lia.
  - intros h c Hi [Hr He]. pose proof (next_fd_pos (default ∅ (live h))).
    destruct c; simpl in Hr, He; try done; unfold once_interrupted in *;
      destruct (interrupted h); simpl in *; try lia; try done.
Qed.

(** ** A busy kernel

    Every drain finds one thing and then nothing; [epoll_wait] reports the
    descriptors it watches, event counters only from the third call on; a stream
    delivers one byte at a time and ends after twelve; at most three bytes of a
    stream are sent at a time. *)

Definition count_calls (p : call -> bool) (h : history) : nat :=
  length (filter (fun '(c, _) => p c = true) h).

Definition counters (h : history) : list Z :=
  h ≫= (fun '(c, r) => match c with EventFd => [ret r] | _ => [] end).

Definition busy_dgram : dgram := mkDgram (replicate 44 7) 44 false no_addr.
Definition busy_byte : dgram := mkDgram [7] 1 false no_addr.
Definition no_bytes : dgram := mkDgram [] 0 false no_addr.
Definition again : reply := mkReply (-1) EAGAIN [] [].

Definition busy_events (h : history) (ep n : Z) : list (Z * Z) :=
  let waits := count_calls (fun c => match c with EpollWait _ _ _ => true | _ => false end) h in
  take (Z.to_nat n) ((., EPOLLIN) <$>
    filter (fun fd => (2 <= waits)%nat \/ fd ∉ counters h) (elements (watched h ep))).

Definition busy_kernel : Kernel := {|
  kernel h c :=
    match c with
    | Socket _ | EpollCreate | EventFd | TimerFd => mkReply (next_fd (default ∅ (live h))) 0 [] []
    | Send _ data _ => mkReply (Z.min 3 (Z.of_nat (length data))) 0 [] []
    | SendTo _ data _ => mkReply (Z.of_nat (length data)) 0 [] []
    | SendMmsg _ frames _ => mkReply (Z.min 2 (Z.of_nat (length frames))) 0 [] []
    | RecvMsg _ _ => again
    | RecvMmsg _ caps =>
        match caps, streak h with
        | cap :: _, O => if 44 <=? cap then mkReply 1 0 [busy_dgram] [] else again
        | _, _ => again
        end
    | ReadU64 _ => match streak h with O => mkReply 8 0 [] [] | S _ => again end
    | Accept _ _ =>
        match streak h with
        | O => mkReply (next_fd (default ∅ (live h))) 0 [] []
        | S _ => again
        end
    | Recv _ len =>
        if (1 <=? len) && (length (arrived h) <? 12)%nat then mkReply 1 0 [busy_byte] []
        else if 0 <=? len then mkReply 0 0 [no_bytes] [] else again
    | EpollWait ep n _ => mkReply (Z.of_nat (length (busy_events h ep n))) 0 [] (busy_events h ep n)
    | _ => mkReply 0 0 [] []
    end;
  inet_pton s := Some 2130706433
|}.

Lemma busy_events_ok h ep n :
  (Z.of_nat (length (busy_events h ep n)) <= Z.max 0 n) /\ NoDup (busy_events h ep n).*1 /\
  Forall (.∈ watched h ep) (busy_events h ep n).*1.
Proof.
  unfold busy_events. set (fs := filter _ _).
  assert (Hfst : (take (Z.to_nat n) ((., EPOLLIN) <$> fs)).*1 = take (Z.to_nat n) fs).
  { rewrite fmap_take, <- list_fmap_compose. f_equal. by rewrite list_fmap_id. }
  rewrite Hfst. split_and!.
  - rewrite length_take. lia.
  - apply (sublist_NoDup _ fs); [|apply sublist_take]. apply NoDup_filter, NoDup_elements.
  - apply Forall_take, Forall_forall. intros fd Hfd. apply list_elem_of_filter in Hfd as [_ Hfd].
    by apply elem_of_elements in Hfd.
Qed.

Lemma busy_kernel_ok : @KernelOk 0 busy_kernel.
Proof.
  split.
  - intros h c. pose proof (next_fd_pos (default ∅ (live h))).
    destruct c; simpl; try lia; repeat case_match; simpl; lia.
  - intros h c open Hl Ho. pose proof (live_nonneg _ _ Hl (-1)).
    destruct c; try done; simpl; repeat case_match; simpl; rewrite ?Hl;
      try apply next_fd_fresh; intros Hin; specialize (H Hin); lia.
  - intros; simpl; lia.
  - intros; simpl; lia.
  - intros; simpl; lia.
  - intros; simpl in *; lia.
  - intros h fd caps. simpl. destruct caps as [|cap caps]; [simpl; lia|].
    destruct (streak h); [|simpl; lia]. destruct (Z.leb_spec 44 cap); [|simpl; lia].
    intros _. split; [done|]. exists [cap]. split; [by apply prefix_cons, prefix_nil|].
    constructor; [|constructor]. split; [simpl; lia|]. split; [done|].
    apply Forall_replicate. by vm_compute.
  - intros h fd len. simpl. destruct (Z.leb_spec 1 len); simpl.
    + destruct (_ <? _)%nat; [|rewrite (proj2 (Z.leb_le 0 len)) by lia]; intros _; eexists;
        (split; [done|]); (split; [|done]); (split; [simpl; lia|]); split; try done;
        repeat constructor; lia.
    + destruct (Z.leb_spec 0 len); [|simpl; lia]. intros _. eexists.
      split; [done|]. split; [|done]. split; [simpl; lia|]. split; [done|constructor].
  - intros h ep n t. simpl. intros Hpos. destruct (busy_events_ok h ep n) as (H1 & H2 & H3).
    split_and!; try done. lia.
  - intros h c _ [Hr He]. destruct c; simpl in Hr, He; try done; repeat case_match; simpl in *;
      try done; lia.
Qed.

Lemma busy_kernel_traffic : @Traffic 1 busy_kernel.
Proof.
  intros h c Hd Hs. destruct (streak h) eqn:E; [lia|].
  destruct c; try done; simpl; rewrite E; [by destruct capacities|done|done].
Qed.
