(* ===== verification/Sender.v ===== *)
(** * Sender: the generators' UDP senders

    Models [Sender] of [src/common/net/v2/udp_sender.cpp] (the Linux branch of
    [send_batch]) and [src/common/net/v1/udp_client.hpp]. *)

From Stdlib Require Import ZArith Lia String.
From stdpp Require Import base numbers list option gmap sets.
From S2P Require Import Prelude Wire Os.

Local Open Scope Z_scope.

(** [p == nullptr || p[0] == 0] *)
Definition blank (s : option string) : bool :=
  match s with None => true | Some s => String.eqb s "" end.

(** The address to bind to: [INADDR_ANY] unless a string is given; [None] when
    [inet_pton] rejects it. *)
Definition local_address `{Kernel} (ip : option string) : option Z :=
  match ip with
  | None => Some INADDR_ANY
  | Some s => if String.eqb s "" then Some INADDR_ANY else inet_pton s
  end.

Definition remote_address `{Kernel} (ip : option string) : option Z :=
  s ← ip; inet_pton s.

Module Sender.

(** [SenderConfig], [SenderStats], [TxFrame]. *)
Record Config := mkConfig {
  local_ip : option string;
  local_port : Z;
  remote_ip : option string;
  remote_port : Z;
  sndbuf_bytes : Z;
  connect_socket : bool
}.

Record Stats := mkStats { sent_packets : Z; sent_bytes : Z; sent_errors : Z; eagain : Z }.

Record TxFrame := mkTx { tx_data : option (list Z); tx_len : Z }.

(** The members of [Sender]. *)
Record t := mk { fd_ : Z; connected_ : bool; remote_ : sockaddr; stats_ : Stats }.

Definition construct : t := mk (-1) false no_addr (mkStats 0 0 0 0).

Definition set_stats (s : t) (st : Stats) : t := mk (fd_ s) (connected_ s) (remote_ s) st.

Definition inc_sent (bytes : Z) (st : Stats) : Stats :=
  mkStats (sent_packets st +% 1) (sent_bytes st +% bytes) (sent_errors st) (eagain st).

Definition inc_errors (st : Stats) : Stats :=
  mkStats (sent_packets st) (sent_bytes st) (sent_errors st +% 1) (eagain st).

Definition inc_eagain (st : Stats) : Stats :=
  mkStats (sent_packets st) (sent_bytes st) (sent_errors st) (eagain st +% 1).

Definition kMaxSendRetries : Z := 200.

Definition is_transient_send_error (err : Z) : bool :=
  (err =? EAGAIN) || (err =? EWOULDBLOCK) || (err =? ENOBUFS).

Section sender.
Context `{Kernel}.

Definition close (s : t) : M t :=
  _ ← (if 0 <=? fd_ s then _ ← sys (Close (fd_ s)); mret tt else mret tt);
  mret (mk (-1) false no_addr (stats_ s)).

Definition open (cfg : Config) (s : t) : M (bool * t) :=
  s ← close s;
  if blank (remote_ip cfg) || (remote_port cfg =? 0) then mret (false, s) else
  r ← sys (Socket (Z.lor SOCK_DGRAM (Z.lor SOCK_NONBLOCK SOCK_CLOEXEC)));
  let sockfd := ret r in
  if sockfd =? -1 then mret (false, s) else
  buf_ok ← (if 0 <? sndbuf_bytes cfg
            then r ← sys (SetSockOpt sockfd SO_SNDBUF (sndbuf_bytes cfg)); mret (negb (ret r =? -1))
            else mret true);
  if negb buf_ok then close_and sockfd (false, s) else
  match local_address (local_ip cfg) with
  | None => close_and sockfd (false, s)
  | Some addr =>
      r ← sys (Bind sockfd (mkAddr addr (local_port cfg)));
      if ret r =? -1 then close_and sockfd (false, s) else
      match remote_address (remote_ip cfg) with
      | None => close_and sockfd (false, s)
      | Some raddr =>
          let remote := mkAddr raddr (remote_port cfg) in
          if connect_socket cfg then
            r ← sys (Connect sockfd remote);
            if ret r =? -1 then close_and sockfd (false, s)
            else mret (true, mk sockfd true remote (stats_ s))
          else mret (true, mk sockfd false remote (stats_ s))
      end
  end.

(** The [for (;;)] of [send_one]. *)
Fixpoint send_loop (fuel : nat) (s : t) (data : list Z) (len retry : Z) (st : Stats)
    : M (bool * Stats) :=
  match fuel with
  | O => out_of_fuel
  | S fuel =>
      r ← sys (if connected_ s then Send (fd_ s) data 0 else SendTo (fd_ s) data (remote_ s));
      let n := ret r in
      if n =? len then mret (true, inc_sent len st) else
      if (n =? -1) && (errno r =? EINTR) then send_loop fuel s data len retry st else
      if (n =? -1) && is_transient_send_error (errno r) then
        let st := inc_eagain st in
        if retry <? kMaxSendRetries then send_loop fuel s data len (retry + 1) st
        else mret (false, inc_errors st)
      else mret (false, inc_errors st)
  end.

Definition send_one (fuel : nat) (data : option (list Z)) (len : Z) (s : t) : M (bool * t) :=
  match data with
  | None => mret (false, set_stats s (inc_errors (stats_ s)))
  | Some bytes =>
      if (fd_ s <? 0) || (len =? 0) then mret (false, set_stats s (inc_errors (stats_ s))) else
      '(ok, st) ← send_loop fuel s (take (Z.to_nat len) bytes) len 0 (stats_ s);
      mret (ok, set_stats s st)
  end.

(** Filling [msgs]: the payloads, or [None] at a frame without data. *)
Fixpoint prepare (frames : list TxFrame) : option (list (list Z)) :=
  match frames with
  | [] => Some []
  | f :: frames =>
      match tx_data f with
      | None => None
      | Some bytes =>
          if tx_len f =? 0 then None
          else (take (Z.to_nat (tx_len f)) bytes ::.) <$> prepare frames
      end
  end.

(** The inner [for (;;)] of [send_batch]: [Some n] when [n > 0] frames went
    out. *)
Fixpoint batch_loop (fuel : nat) (s : t) (frames : list TxFrame) (msgs : list (list Z))
    (retry : Z) (st : Stats) : M (option Z * Stats) :=
  match fuel with
  | O => out_of_fuel
  | S fuel =>
      r ← sys (SendMmsg (fd_ s) msgs (if connected_ s then None else Some (remote_ s)));
      let n := ret r in
      if 0 <? n then
        mret (Some n, foldl (fun st f => inc_sent (tx_len f) st) st (take (Z.to_nat n) frames))
      else if (n =? -1) && (errno r =? EINTR) then batch_loop fuel s frames msgs retry st
      else if (n =? -1) && is_transient_send_error (errno r) then
        let st := inc_eagain st in
        if retry <? kMaxSendRetries then batch_loop fuel s frames msgs (retry + 1) st
        else mret (None, inc_errors st)
      else mret (None, inc_errors st)
  end.

(** The outer [while], [frames] being the [remaining] ones.  The count is an
    integer here; [batch_outer_int] has the casts between [int], [size_t] and
    [unsigned int], and [batch_outer_int_eq] shows that for fewer than 2^31 frames
    the two agree. *)
Fixpoint batch_outer (fuel fuel' : nat) (s : t) (frames : list TxFrame) (sent : Z) (st : Stats)
    : M (Z * Stats) :=
  match frames with
  | [] => mret (sent, st)
  | _ =>
    match fuel with
    | O => out_of_fuel
    | S fuel =>
        match prepare frames with
        | None => mret (sent, inc_errors st)
        | Some msgs =>
            '(res, st) ← batch_loop fuel' s frames msgs 0 st;
            match res with
            | None => mret (sent, st)
            | Some n => batch_outer fuel fuel' s (drop (Z.to_nat n) frames) (sent + n) st
            end
        end
    end
  end.

(** The outer [while] with [int sent] and its casts. *)
Fixpoint batch_outer_int (fuel fuel' : nat) (s : t) (frames : list TxFrame) (count sent : Z)
    (st : Stats) : M (Z * Stats) :=
  if u64 sent <? count then
    match fuel with
    | O => out_of_fuel
    | S fuel =>
        let remaining := count -% u64 sent in
        let rest := take (Z.to_nat remaining) (drop (Z.to_nat (u64 sent)) frames) in
        match prepare rest with
        | None => mret (sent, inc_errors st)
        | Some msgs =>
            '(res, st) ← batch_loop fuel' s rest (take (Z.to_nat (wrapu 32 remaining)) msgs) 0 st;
            match res with
            | None => mret (sent, st)
            | Some n => batch_outer_int fuel fuel' s frames count (wraps 32 (sent + n)) st
            end
        end
    end
  else mret (sent, st).

Definition send_batch (fuel : nat) (frames : option (list TxFrame)) (count : Z) (s : t)
    : M (Z * t) :=
  if (fd_ s <? 0) || (match frames with None => true | Some _ => false end && negb (count =? 0))
  then mret (-1, set_stats s (inc_errors (stats_ s)))
  else
    '(sent, st) ← batch_outer fuel fuel s
      (take (Z.to_nat count) (default [] frames)) 0 (stats_ s);
    mret (sent, set_stats s st).

(** The branch for other systems: one [send] per frame, with the loop that
    [send_one] has. *)
Fixpoint portable_loop (fuel : nat) (s : t) (frames : list TxFrame) (sent : Z) (st : Stats)
    : M (Z * Stats) :=
  match frames with
  | [] => mret (sent, st)
  | f :: frames =>
      match tx_data f with
      | None => mret (sent, inc_errors st)
      | Some bytes =>
          if tx_len f =? 0 then mret (sent, inc_errors st) else
          '(ok, st) ← send_loop fuel s (take (Z.to_nat (tx_len f)) bytes) (tx_len f) 0 st;
          if ok : bool then portable_loop fuel s frames (sent + 1) st else mret (sent, st)
      end
  end.

Definition send_batch_portable (fuel : nat) (frames : option (list TxFrame)) (count : Z) (s : t)
    : M (Z * t) :=
  if (fd_ s <? 0) || (match frames with None => true | Some _ => false end && negb (count =? 0))
  then mret (-1, set_stats s (inc_errors (stats_ s)))
  else
    '(sent, st) ← portable_loop fuel s (take (Z.to_nat count) (default [] frames)) 0 (stats_ s);
    mret (sent, set_stats s st).

End sender.

End Sender.

(** ** The v1 client *)

Module UdpClient.

Record t := mk { fd : Z; connected : bool }.

Definition construct : t := mk (-1) false.

Section client.
Context `{Kernel}.

Definition close_client (c : t) : M t :=
  _ ← (if 0 <=? fd c then _ ← sys (Close (fd c)); mret tt else mret tt);
  mret (mk (-1) false).

Definition open_client (remote_ip : option string) (remote_port : Z)
    (local_bind_ip : option string) (local_bind_port sndbuf_bytes : Z) (c : t) : M (bool * t) :=
  c ← close_client c;
  r ← sys (Socket (Z.lor SOCK_DGRAM SOCK_CLOEXEC));
  let sockfd := ret r in
  if sockfd =? -1 then mret (false, c) else
  buf_ok ← (if 0 <? sndbuf_bytes
            then r ← sys (SetSockOpt sockfd SO_SNDBUF sndbuf_bytes); mret (negb (ret r =? -1))
            else mret true);
  if negb buf_ok then close_and sockfd (false, c) else
  bound ← (if negb (blank local_bind_ip) || negb (local_bind_port =? 0) then
             match local_address local_bind_ip with
             | None => mret false
             | Some addr =>
                 r ← sys (Bind sockfd (mkAddr addr local_bind_port)); mret (negb (ret r =? -1))
             end
           else mret true);
  if negb bound then close_and sockfd (false, c) else
  match remote_address remote_ip with
  | None => close_and sockfd (false, c)
  | Some raddr =>
      r ← sys (Connect sockfd (mkAddr raddr remote_port));
      if ret r =? -1 then close_and sockfd (false, c) else mret (true, mk sockfd true)
  end.

Fixpoint send_loop (fuel : nat) (c : t) (data : list Z) (len : Z) : M bool :=
  match fuel with
  | O => out_of_fuel
  | S fuel =>
      r ← sys (Send (fd c) data MSG_NOSIGNAL);
      if ret r =? len then mret true
      else if (ret r =? -1) && (errno r =? EINTR) then send_loop fuel c data len
      else mret false
  end.

Definition send_bytes (fuel : nat) (c : t) (data : option (list Z)) (len : Z) : M bool :=
  match data with
  | None => mret false
  | Some bytes =>
      if negb (connected c) || (fd c <? 0) then mret false
      else if len =? 0 then mret true
      else send_loop fuel c (take (Z.to_nat len) bytes) len
  end.

Definition send_message (fuel : nat) (o : byte_order) (c : t) (msg : MarketDataMsg) : M bool :=
  send_bytes fuel c (Some (encode o (replicate 44 0) msg)) kWireSize.

End client.

End UdpClient.

(** ** Descriptor discipline *)

Section opening.
Context {P : nat} `{KernelOk P}.

Lemma sender_close_spec s h L :
  live h = Some L -> owned (Sender.fd_ s) ⊆ L ->
  wp (Sender.close s) (fun s' h' => live h' = Some (L ∖ owned (Sender.fd_ s)) /\
    s' = Sender.mk (-1) false no_addr (Sender.stats_ s)) h.
Proof.
  intros Hl Ho. unfold Sender.close. eapply wp_close_owned; [done|done|].
  intros h' Hl'. by wp_step.
Qed.

(** [Sender::open], on every path. *)
Lemma sender_open_spec cfg s h L :
  live h = Some L -> owned (Sender.fd_ s) ⊆ L ->
  wp (Sender.open cfg s) (fun '(ok, s') h' =>
    live h' = Some ((L ∖ owned (Sender.fd_ s)) ∪ owned (Sender.fd_ s')) /\
    ok = (0 <=? Sender.fd_ s') /\ (ok = true -> Sender.fd_ s' ∉ L ∖ owned (Sender.fd_ s)) /\
    Sender.stats_ s' = Sender.stats_ s) h.
Proof.
  intros Hl Ho. unfold Sender.open. wp_step.
  eapply wp_mono; [by apply sender_close_spec|]. intros s1 h1 [Hl1 ->].
  set (L1 := L ∖ owned (Sender.fd_ s)) in *.
  assert (Hfail : forall h', live h' = Some L1 ->
    live h' = Some (L1 ∪ owned (-1)) /\ false = (0 <=? -1) /\
    (false = true -> -1 ∉ L1) /\ Sender.stats_ s = Sender.stats_ s).
  { intros h' ->. split_and!; [f_equal; unfold owned; simpl; set_solver|done..]. }
  open_step L1; [wp_step; by apply Hfail|].
  wp_step. eapply wp_open; [exact Hl1|done|constructor| |].
  { intros r h' Hr Hl'. cbv beta zeta. rewrite Hr, Z.eqb_refl. wp_step. by apply Hfail. }
  intros r h' Hr Hf Hl'. cbv beta zeta. rewrite (proj2 (Z.eqb_neq _ _)) by lia.
  repeat open_step L1; try (by apply Hfail);
    cbn [Sender.fd_ Sender.stats_]; unfold owned; rewrite (proj2 (Z.leb_le _ _) Hr); done.
Qed.

(** Opening a socket sends nothing. *)
Lemma sender_open_quiet cfg s h :
  wp (Sender.open cfg s) (fun _ h' => datagrams h' = datagrams h) h.
Proof.
  unfold Sender.open, Sender.close, close_and. repeat wp_quiet.
Qed.

(** Sender descriptors.  [Sender::open], on any sender and whatever each
    call of the kernel answers, finishes, first gives up the descriptor the
    sender held, and then either returns true holding exactly one new open
    descriptor, or returns false holding none and having closed whatever it
    opened; it never uses a descriptor that is not open, and keeps the
    statistics. *)
Theorem sender_open_descriptors cfg s h L :
  live h = Some L -> owned (Sender.fd_ s) ⊆ L ->
  wp (Sender.open cfg s) (fun '(ok, s') h' =>
    live h' = Some ((L ∖ owned (Sender.fd_ s)) ∪ owned (Sender.fd_ s')) /\
    ok = (0 <=? Sender.fd_ s') /\ (ok = true -> Sender.fd_ s' ∉ L ∖ owned (Sender.fd_ s)) /\
    Sender.stats_ s' = Sender.stats_ s) h.
Proof. apply sender_open_spec. Qed.

Lemma client_close_spec c h L :
  live h = Some L -> owned (UdpClient.fd c) ⊆ L ->
  wp (UdpClient.close_client c) (fun c' h' =>
    live h' = Some (L ∖ owned (UdpClient.fd c)) /\ c' = UdpClient.mk (-1) false) h.
Proof.
  intros Hl Ho. unfold UdpClient.close_client. eapply wp_close_owned; [done|done|].
  intros h' Hl'. by wp_step.
Qed.

(** Client descriptors.  The same discipline for the v1 client: on every
    path [open_client] ends with exactly one new open descriptor and returns
    true, or with none and returns false. *)
Theorem client_open_descriptors rip rport lip lport sndbuf c h L :
  live h = Some L -> owned (UdpClient.fd c) ⊆ L ->
  wp (UdpClient.open_client rip rport lip lport sndbuf c) (fun '(ok, c') h' =>
    live h' = Some ((L ∖ owned (UdpClient.fd c)) ∪ owned (UdpClient.fd c')) /\
    ok = (0 <=? UdpClient.fd c') /\ UdpClient.connected c' = ok /\
    (ok = true -> UdpClient.fd c' ∉ L ∖ owned (UdpClient.fd c))) h.
Proof.
  intros Hl Ho. unfold UdpClient.open_client. wp_step.
  eapply wp_mono; [by apply client_close_spec|]. intros c1 h1 [Hl1 ->].
  set (L1 := L ∖ owned (UdpClient.fd c)) in *.
  assert (Hfail : forall h', live h' = Some L1 ->
    live h' = Some (L1 ∪ owned (-1)) /\ false = (0 <=? -1) /\ false = false /\
    (false = true -> -1 ∉ L1)).
  { intros h' ->. split_and!; [f_equal; unfold owned; simpl; set_solver|done..]. }
  wp_step. eapply wp_open; [exact Hl1|done|constructor| |].
  { intros r h' Hr Hl'. cbv beta zeta. rewrite Hr, Z.eqb_refl. wp_step. by apply Hfail. }
  intros r h' Hr Hf Hl'. cbv beta zeta. rewrite (proj2 (Z.eqb_neq _ _)) by lia.
  repeat open_step L1; try (by apply Hfail);
    cbn [UdpClient.fd UdpClient.connected]; unfold owned; rewrite (proj2 (Z.leb_le _ _) Hr); done.
Qed.

End opening.

(** ** What is sent *)

(** [st'] is [st] with these amounts added to its counters. *)
Record stats_delta (st st' : Sender.Stats) (packets bytes errors again : Z) : Prop := {
  sd_packets : Sender.sent_packets st' = Sender.sent_packets st +% packets;
  sd_bytes : Sender.sent_bytes st' = Sender.sent_bytes st +% bytes;
  sd_errors : Sender.sent_errors st' = Sender.sent_errors st +% errors;
  sd_again : Sender.eagain st' = Sender.eagain st +% again
}.

Definition stats_ok (st : Sender.Stats) : Prop :=
  is_u 64 (Sender.sent_packets st) /\ is_u 64 (Sender.sent_bytes st) /\
  is_u 64 (Sender.sent_errors st) /\ is_u 64 (Sender.eagain st).

Lemma stats_delta_refl st : stats_ok st -> stats_delta st st 0 0 0 0.
Proof.
  intros (? & ? & ? & ?). split; rewrite Z.add_0_r; by rewrite wrapu_small.
Qed.

Lemma stats_delta_trans st1 st2 st3 p b e a p' b' e' a' :
  stats_delta st1 st2 p b e a -> stats_delta st2 st3 p' b' e' a' ->
  stats_delta st1 st3 (p + p') (b + b') (e + e') (a + a').
Proof.
  intros [H1 H2 H3 H4] [H1' H2' H3' H4'].
  split; rewrite ?H1', ?H2', ?H3', ?H4', ?H1, ?H2, ?H3, ?H4; rewrite wrapu_add_l; f_equal; lia.
Qed.

Lemma stats_delta_ok st st' p b e a : stats_delta st st' p b e a -> stats_ok st'.
Proof.
  intros [H1 H2 H3 H4]. unfold stats_ok. rewrite H1, H2, H3, H4.
  auto 6 using wrapu_range with lia.
Qed.

Lemma inc_sent_delta n st : stats_ok st -> stats_delta st (Sender.inc_sent n st) 1 n 0 0.
Proof. intros (? & ? & ? & ?). split; simpl; try done; by rewrite Z.add_0_r, wrapu_small. Qed.

Lemma inc_errors_delta st : stats_ok st -> stats_delta st (Sender.inc_errors st) 0 0 1 0.
Proof. intros (? & ? & ? & ?). split; simpl; try done; by rewrite Z.add_0_r, wrapu_small. Qed.

Lemma inc_eagain_delta st : stats_ok st -> stats_delta st (Sender.inc_eagain st) 0 0 0 1.
Proof. intros (? & ? & ? & ?). split; simpl; try done; by rewrite Z.add_0_r, wrapu_small. Qed.

(** The bytes of a list of frames. *)
Definition total_len (fs : list Sender.TxFrame) : Z :=
  foldr (fun f acc => Sender.tx_len f + acc) 0 fs.

Lemma total_len_app fs1 fs2 : total_len (fs1 ++ fs2) = total_len fs1 + total_len fs2.
Proof. induction fs1 as [|f fs1 IH]; simpl; [done|]. rewrite IH. lia. Qed.

Lemma foldl_sent_delta fs st :
  stats_ok st ->
  stats_delta st (foldl (fun st f => Sender.inc_sent (Sender.tx_len f) st) st fs)
    (Z.of_nat (length fs)) (total_len fs) 0 0.
Proof.
  revert st. induction fs as [|f fs IH]; intros st Hok; [by apply stats_delta_refl|].
  pose proof (inc_sent_delta (Sender.tx_len f) st Hok) as H1.
  pose proof (stats_delta_trans _ _ _ _ _ _ _ _ _ _ _ H1
    (IH _ (stats_delta_ok _ _ _ _ _ _ H1))) as H2.
  cbn [foldl length total_len foldr] in *.
  replace (Z.of_nat (S (length fs))) with (1 + Z.of_nat (length fs)) by lia. exact H2.
Qed.

(** A frame with data. *)
Definition tx_ok (f : Sender.TxFrame) : Prop :=
  0 < Sender.tx_len f /\
  exists bytes, Sender.tx_data f = Some bytes /\ Z.of_nat (length bytes) = Sender.tx_len f.

Definition tx_bytes (f : Sender.TxFrame) : list Z := default [] (Sender.tx_data f).

Lemma prepare_ok fs : Forall tx_ok fs -> Sender.prepare fs = Some (tx_bytes <$> fs).
Proof.
  induction 1 as [|f fs [Hpos (bytes & Hd & Hlen)] _ IH]; [done|].
  cbn [Sender.prepare fmap list_fmap]. rewrite Hd, (proj2 (Z.eqb_neq _ _)), IH by lia.
  unfold tx_bytes. rewrite Hd. simpl. by rewrite take_ge by lia.
Qed.

Section sending.
Context {P : nat} `{KernelOk P}.

(** The iterations a retry loop still has: one per retry left, each with at most
    [P] interruptions. *)
Definition retry_measure (retry : Z) (h : history) : nat :=
  (Z.to_nat (200 - retry) * (P + 1) + (P - interrupted h))%nat.

Lemma retry_measure_eintr retry h c :
  ret (kernel h c) = -1 -> errno (kernel h c) = EINTR ->
  (retry_measure retry ((c, kernel h c) :: h) < retry_measure retry h)%nat.
Proof.
  intros Hr He. destruct (interrupted_more h c Hr He) as [? Hi]. unfold retry_measure.
  rewrite Hi. lia.
Qed.

Lemma retry_measure_retry retry h c :
  retry < 200 -> errno (kernel h c) <> EINTR ->
  (retry_measure (retry + 1) ((c, kernel h c) :: h) < retry_measure retry h)%nat.
Proof.
  intros Hr He. unfold retry_measure. rewrite interrupted_none by done.
  replace (Z.to_nat (200 - retry)) with (S (Z.to_nat (200 - (retry + 1)))) by lia. lia.
Qed.

Lemma transient_not_eintr e : Sender.is_transient_send_error e = true -> e <> EINTR.
Proof. intros Ht ->. done. Qed.

(** The call [send_one] makes. *)
Definition send_call (s : Sender.t) (data : list Z) : call :=
  if Sender.connected_ s then Send (Sender.fd_ s) data 0
  else SendTo (Sender.fd_ s) data (Sender.remote_ s).

Lemma send_call_live s data h L r :
  live h = Some L -> Sender.fd_ s ∈ L -> live ((send_call s data, r) :: h) = Some L.
Proof.
  intros Hl Hf. unfold send_call.
  apply live_use; destruct (Sender.connected_ s); try done; by apply Forall_singleton.
Qed.

Lemma send_call_sent s data r :
  sent_by (send_call s data) r = if ret r =? Z.of_nat (length data) then [data] else [].
Proof. unfold send_call. by destruct (Sender.connected_ s). Qed.

Lemma send_loop_spec fuel s data retry st h L :
  live h = Some L -> Sender.fd_ s ∈ L -> data <> [] -> 0 <= retry <= 200 -> stats_ok st ->
  (retry_measure retry h < fuel)%nat ->
  wp (Sender.send_loop fuel s data (Z.of_nat (length data)) retry st) (fun '(ok, st') h' =>
    live h' = Some L /\ datagrams h' = datagrams h ++ (if ok then [data] else []) /\
    exists again, 0 <= again <= 201 - retry /\
      stats_delta st st' (if ok then 1 else 0) (if ok then Z.of_nat (length data) else 0)
        (if ok then 0 else 1) again) h.
Proof.
  intros Hl Hf Hdata. assert (Hpos : 0 < Z.of_nat (length data)) by (destruct data; simpl; lia || done).
  revert retry st h Hl. induction fuel as [|fuel IH]; intros retry st h Hl Hretry Hst Hfuel; [lia|].
  cbn [Sender.send_loop]. fold (send_call s data). repeat wp_step. set (c := send_call s data).
  pose proof (send_call_live s data h L (kernel h c) Hl Hf) as Hl'.
  assert (Hnone : ret (kernel h c) <> Z.of_nat (length data) ->
    datagrams ((c, kernel h c) :: h) = datagrams h).
  { intros Hn. apply datagrams_quiet. unfold c. rewrite send_call_sent.
    by rewrite (proj2 (Z.eqb_neq _ _)). }
  destruct (Z.eqb_spec (ret (kernel h c)) (Z.of_nat (length data))) as [Hn|Hn].
  { wp_step. split_and!; [done| |exists 0; split; [lia|by apply inc_sent_delta]].
    simpl. unfold c at 1. rewrite send_call_sent. fold c. by rewrite Hn, Z.eqb_refl. }
  specialize (Hnone Hn).
  destruct (Z.eqb_spec (ret (kernel h c)) (-1)) as [Hm|Hm]; cbn [andb].
  2: { wp_step. rewrite app_nil_r. split_and!; try done.
       exists 0. split; [lia|by apply inc_errors_delta]. }
  destruct (Z.eqb_spec (errno (kernel h c)) EINTR) as [He|He].
  { pose proof (retry_measure_eintr retry h c Hm He). rewrite <- Hnone. apply IH; (done || lia). }
  destruct (Sender.is_transient_send_error (errno (kernel h c))).
  2: { wp_step. rewrite app_nil_r. split_and!; try done.
       exists 0. split; [lia|by apply inc_errors_delta]. }
  pose proof (inc_eagain_delta st Hst) as Hd. pose proof (stats_delta_ok _ _ _ _ _ _ Hd) as Hok'.
  unfold Sender.kMaxSendRetries. destruct (Z.ltb_spec retry 200).
  - pose proof (retry_measure_retry retry h c ltac:(lia) He).
    eapply wp_mono; [apply (IH (retry + 1)); (done || lia)|].
    intros [ok st'] h' (Hl2 & Hs2 & again & Ha & Hd2). rewrite Hnone in Hs2.
    split_and!; [done|done|]. exists (1 + again). split; [lia|].
    apply (stats_delta_trans _ _ _ 0 0 0 1 _ _ _ again Hd Hd2).
  - wp_step. rewrite app_nil_r. split_and!; try done. exists 1. split; [lia|].
    apply (stats_delta_trans _ _ _ 0 0 0 1 0 0 1 0 Hd). by apply inc_errors_delta.
Qed.

(** Sending one datagram.  On an open sender, [send_one] of a nonempty
    buffer finishes (within [201 * (P + 1)] attempts when at most [P] calls in a
    row are interrupted); it returns true exactly when the datagram was handed to
    the network, once, and accounts for it; otherwise nothing was sent and one
    error is counted; it waits out at most 201 transient failures. *)
Theorem sender_send_one fuel s data h L :
  live h = Some L -> Sender.fd_ s ∈ L -> 0 <= Sender.fd_ s -> data <> [] ->
  stats_ok (Sender.stats_ s) -> (201 * (P + 1) <= fuel)%nat ->
  let len := Z.of_nat (length data) in
  wp (Sender.send_one fuel (Some data) len s) (fun '(ok, s') h' =>
    live h' = Some L /\ s' = Sender.set_stats s (Sender.stats_ s') /\
    datagrams h' = datagrams h ++ (if ok then [data] else []) /\
    exists again, 0 <= again <= 201 /\
      stats_delta (Sender.stats_ s) (Sender.stats_ s') (if ok then 1 else 0)
        (if ok then len else 0) (if ok then 0 else 1) again) h.
Proof.
  intros Hl Hf Hpos Hdata Hst Hfuel len. unfold Sender.send_one.
  assert (Hlen : 0 < len) by (unfold len; destruct data; simpl; lia || done).
  rewrite (proj2 (Z.ltb_ge _ _) Hpos), (proj2 (Z.eqb_neq len 0)) by lia. cbn [orb].
  wp_step. unfold len. rewrite Nat2Z.id, firstn_all.
  eapply wp_mono; [apply (send_loop_spec fuel s data 0 _ h L); try done|].
  { unfold retry_measure. simpl. lia. }
  intros [ok st'] h' (Hl' & Hs' & again & Ha & Hd). wp_step.
  split_and!; try done. exists again. split; [lia|done].
Qed.

(** What one round of [sendmmsg] leaves: [n] frames sent, or none and one error
    counted. *)
Definition round_post (L : gset Z) (fs : list Sender.TxFrame) (retry : Z) (st : Sender.Stats)
    (h : history) (p : option Z * Sender.Stats) (h' : history) : Prop :=
  let n := default 0 p.1 in
  live h' = Some L /\ 0 <= n <= Z.of_nat (length fs) /\ (p.1 <> None -> 0 < n) /\
  datagrams h' = datagrams h ++ take (Z.to_nat n) (tx_bytes <$> fs) /\
  exists again, 0 <= again <= 201 - retry /\
    stats_delta st p.2 n (total_len (take (Z.to_nat n) fs))
      (match p.1 with Some _ => 0 | None => 1 end) again.

Lemma round_post_fail L fs retry st st1 k h h' :
  stats_delta st st1 0 0 0 k -> 0 <= k <= 201 - retry -> live h' = Some L ->
  datagrams h' = datagrams h -> round_post L fs retry st h (None, Sender.inc_errors st1) h'.
Proof.
  intros Hd Hk Hl Hs. unfold round_post. cbn [default id fst snd]. change (Z.to_nat 0) with 0%nat.
  rewrite !take_0, app_nil_r. split_and!; try done; try lia. exists (k + 0). split; [lia|].
  apply (stats_delta_trans _ _ _ 0 0 0 k 0 0 1 0 Hd). by eapply inc_errors_delta, stats_delta_ok.
Qed.

Lemma round_post_retry L fs retry st h h1 p h2 :
  stats_ok st -> datagrams h1 = datagrams h ->
  round_post L fs (retry + 1) (Sender.inc_eagain st) h1 p h2 -> round_post L fs retry st h p h2.
Proof.
  intros Hst Hs (Hl2 & Hn2 & Hr2 & Hs2 & again & Ha & Hd2). rewrite Hs in Hs2.
  split_and!; try done; try lia. exists (1 + again). split; [lia|].
  apply (stats_delta_trans _ _ _ 0 0 0 1 _ _ _ again (inc_eagain_delta st Hst) Hd2).
Qed.

Lemma batch_loop_spec fuel s fs retry st h L :
  live h = Some L -> Sender.fd_ s ∈ L -> 0 <= retry <= 200 -> stats_ok st ->
  (retry_measure retry h < fuel)%nat ->
  wp (Sender.batch_loop fuel s fs (tx_bytes <$> fs) retry st) (round_post L fs retry st h) h.
Proof.
  intros Hl Hf. revert retry st h Hl.
  induction fuel as [|fuel IH]; intros retry st h Hl Hretry Hst Hfuel; [lia|].
  cbn [Sender.batch_loop]. repeat wp_step.
  set (c := SendMmsg _ _ _). set (r := kernel h c).
  assert (Hl' : live ((c, r) :: h) = Some L)
    by (apply live_use; try done; by apply Forall_singleton).
  assert (Hmax : ret r <= Z.of_nat (length fs)).
  { pose proof (kernel_sendmmsg h (Sender.fd_ s) (tx_bytes <$> fs)
      (if Sender.connected_ s then None else Some (Sender.remote_ s))) as Hmax.
    by rewrite length_fmap in Hmax. }
  destruct (Z.ltb_spec 0 (ret r)) as [Hn|Hn].
  { wp_step. unfold round_post. cbn [default id fst snd]. split_and!; try done; try lia.
    exists 0. split; [lia|].
    pose proof (foldl_sent_delta (take (Z.to_nat (ret r)) fs) st Hst) as Hd.
    rewrite length_take_le, Z2Nat.id in Hd by lia. exact Hd. }
  assert (Hnone : datagrams ((c, r) :: h) = datagrams h).
  { apply datagrams_quiet. simpl. by replace (Z.to_nat (ret r)) with 0%nat by lia. }
  pose proof (stats_delta_refl st Hst) as Hrefl. pose proof (inc_eagain_delta st Hst) as Hd.
  destruct (Z.eqb_spec (ret r) (-1)) as [Hm|Hm]; cbn [andb];
    [|wp_step; eapply round_post_fail; [exact Hrefl|lia|done|done]].
  destruct (Z.eqb_spec (errno r) EINTR) as [He|He].
  { pose proof (retry_measure_eintr retry h c Hm He) as Hlt. fold r in Hlt.
    eapply wp_mono; [apply (IH retry st); (done || lia)|]. intros p h'. unfold round_post.
    by rewrite Hnone. }
  destruct (Sender.is_transient_send_error (errno r));
    [|wp_step; eapply round_post_fail; [exact Hrefl|lia|done|done]].
  unfold Sender.kMaxSendRetries. destruct (Z.ltb_spec retry 200);
    [|wp_step; eapply round_post_fail; [exact Hd|lia|done|done]].
  pose proof (retry_measure_retry retry h c ltac:(lia) He) as Hlt. fold r in Hlt.
  eapply wp_mono; [apply (IH (retry + 1)); [done|lia|by eapply stats_delta_ok|lia]|].
  intros p h'. by apply round_post_retry.
Qed.

(** ** The casts of [send_batch] *)

Lemma batch_loop_bound fuel s fs msgs retry st h n st' h' :
  Sender.batch_loop fuel s fs msgs retry st h = Some ((Some n, st'), h') ->
  0 < n <= Z.of_nat (length msgs).
Proof.
  revert retry st h. induction fuel as [|fuel IH]; intros retry st h; [done|].
  cbn [Sender.batch_loop]. unfold mbind, M_bind, sys.
  set (c := SendMmsg _ _ _). pose proof (kernel_sendmmsg h (Sender.fd_ s) msgs
    (if Sender.connected_ s then None else Some (Sender.remote_ s))) as Hmax. fold c in Hmax.
  destruct (Z.ltb_spec 0 (ret (kernel h c))) as [Hn|Hn].
  { intros [= <- <- <-]. lia. }
  destruct (_ && _); [apply IH|]. destruct (_ && _); [|done].
  destruct (_ <? _); [apply IH|done].
Qed.

Lemma length_prepare fs msgs : Sender.prepare fs = Some msgs -> length msgs = length fs.
Proof.
  revert msgs. induction fs as [|f fs IH]; intros msgs; cbn [Sender.prepare]; [by intros [= <-]|].
  destruct (Sender.tx_data f); [|done]. destruct (_ =? 0); [done|].
  destruct (Sender.prepare fs) as [ms|]; [|done]. intros [= <-]. cbn. by rewrite (IH ms).
Qed.

(** For fewer than 2^31 frames the casts change nothing. *)
Lemma batch_outer_int_eq fuel fuel' s fs sent st h :
  Z.of_nat (length fs) < 2 ^ 31 -> 0 <= sent <= Z.of_nat (length fs) ->
  Sender.batch_outer_int fuel fuel' s fs (Z.of_nat (length fs)) sent st h
  = Sender.batch_outer fuel fuel' s (drop (Z.to_nat sent) fs) sent st h.
Proof.
  intros Hlen. revert sent st h. induction fuel as [|fuel IH]; intros sent st h Hs.
  - cbn [Sender.batch_outer_int Sender.batch_outer]. rewrite wrapu_small by (unfold is_u; lia).
    destruct (Z.ltb_spec sent (Z.of_nat (length fs))) as [Hlt|Hge].
    + destruct (drop (Z.to_nat sent) fs) eqn:E; [|done].
      apply (f_equal length) in E. rewrite length_drop in E. simpl in E. lia.
    + by rewrite drop_ge by lia.
  - cbn [Sender.batch_outer_int]. rewrite (wrapu_small 64 sent) by (unfold is_u; lia).
    destruct (Z.ltb_spec sent (Z.of_nat (length fs))) as [Hlt|Hge];
      [|by rewrite drop_ge by lia].
    rewrite (wrapu_small 64 (_ - _)) by (unfold is_u; lia).
    rewrite (wrapu_small 32 (_ - _)) by (unfold is_u; lia).
    rewrite (take_ge (drop _ fs)) by (rewrite length_drop; lia).
    destruct (drop (Z.to_nat sent) fs) as [|f rest] eqn:E.
    { apply (f_equal length) in E. rewrite length_drop in E. simpl in E. lia. }
    assert (Hl : length (f :: rest) = (length fs - Z.to_nat sent)%nat)
      by (by rewrite <- E, length_drop).
    cbn [Sender.batch_outer]. destruct (Sender.prepare (f :: rest)) as [msgs|] eqn:Ep; [|done].
    pose proof (length_prepare _ _ Ep) as Hm. rewrite (take_ge msgs) by lia.
    unfold mbind, M_bind.
    destruct (Sender.batch_loop fuel' s (f :: rest) msgs 0 st h) as [[[[n|] st'] h']|] eqn:El; try done.
    pose proof (batch_loop_bound _ _ _ _ _ _ _ _ _ _ El).
    rewrite wraps_small by (unfold is_s; lia). rewrite IH by lia. f_equal.
    rewrite <- E, drop_drop. f_equal. lia.
Qed.

(** What a batch leaves after [n] of the frames [fs] went out. *)
Definition batch_post (L : gset Z) (fs : list Sender.TxFrame) (st : Sender.Stats) (h : history)
    (n : Z) (st' : Sender.Stats) (h' : history) : Prop :=
  live h' = Some L /\ 0 <= n <= Z.of_nat (length fs) /\
  datagrams h' = datagrams h ++ take (Z.to_nat n) (tx_bytes <$> fs) /\
  exists again, 0 <= again <= 201 * Z.of_nat (length fs) /\
    stats_delta st st' n (total_len (take (Z.to_nat n) fs))
      (if decide (n = Z.of_nat (length fs)) then 0 else 1) again.

Lemma batch_outer_spec fuel fuel' s fs sent st h L :
  live h = Some L -> Sender.fd_ s ∈ L -> Forall tx_ok fs -> stats_ok st ->
  (length fs <= fuel)%nat -> (201 * (P + 1) <= fuel')%nat ->
  wp (Sender.batch_outer fuel fuel' s fs sent st)
    (fun p h' => batch_post L fs st h (p.1 - sent) p.2 h') h.
Proof.
  intros Hl Hf. revert fs sent st h Hl.
  induction fuel as [|fuel IH]; intros [|f fs] sent st h Hl Hfs Hst Hfuel Hfuel';
    cbn [Sender.batch_outer]; try (simpl in Hfuel; lia).
  1,2: wp_step; cbn [fst snd]; rewrite Z.sub_diag; unfold batch_post; cbn [fmap list_fmap];
    change (Z.to_nat 0) with 0%nat; rewrite !take_0, app_nil_r; split_and!; try done;
    exists 0; split; [simpl; lia|by apply stats_delta_refl].
  set (fs0 := f :: fs) in *. rewrite prepare_ok by done. wp_step.
  eapply wp_mono; [apply (batch_loop_spec fuel' s fs0 0 st h L); try done|].
  { unfold retry_measure. simpl. lia. }
  intros [res st1] h1 (Hl1 & Hn1 & Hp1 & Hs1 & again & Ha & Hd1). cbn [fst snd] in *.
  assert (Hlen : 0 < Z.of_nat (length fs0)) by (simpl; lia).
  destruct res as [n|]; cbn [default id] in *.
  2: { wp_step. cbn [fst snd]. rewrite Z.sub_diag. split_and!; try done.
       exists again. split; [lia|]. by rewrite decide_False by lia. }
  specialize (Hp1 ltac:(done)).
  eapply wp_mono; [apply (IH _ (sent + n)); [done|by apply Forall_drop|by eapply stats_delta_ok|
    rewrite length_drop; lia|done]|].
  intros [sent' st'] h' (Hl2 & Hn2 & Hs2 & again' & Ha' & Hd2). cbn [fst snd] in *.
  rewrite length_drop in *. set (m := sent' - (sent + n)) in *.
  replace (sent' - sent) with (n + m) by (unfold m; lia).
  assert (Hnm : Z.to_nat (n + m) = (Z.to_nat n + Z.to_nat m)%nat) by lia.
  unfold batch_post. rewrite Hnm.
  split_and!; [done|lia|lia| |].
  - by rewrite Hs2, Hs1, <- app_assoc, fmap_drop, take_take_drop.
  - exists (again + again'). split; [lia|].
    rewrite <- (take_take_drop fs0), total_len_app.
    pose proof (stats_delta_trans _ _ _ _ _ _ _ _ _ _ _ Hd1 Hd2) as Hd.
    rewrite Z.add_0_l in Hd. destruct (decide (n + m = _)), (decide (m = _)); try lia; exact Hd.
Qed.

Lemma portable_loop_spec fuel s fs sent st h L :
  live h = Some L -> Sender.fd_ s ∈ L -> Forall tx_ok fs -> stats_ok st ->
  (201 * (P + 1) <= fuel)%nat ->
  wp (Sender.portable_loop fuel s fs sent st)
    (fun p h' => batch_post L fs st h (p.1 - sent) p.2 h') h.
Proof.
  intros Hl Hf Hfs. revert sent st h Hl.
  induction Hfs as [|f fs Hok Hfs IH]; intros sent st h Hl Hst Hfuel; cbn [Sender.portable_loop].
  { wp_step. cbn [fst snd]. rewrite Z.sub_diag. unfold batch_post. change (Z.to_nat 0) with 0%nat.
    rewrite !take_0, app_nil_r. split_and!; try done. exists 0.
    split; [simpl; lia|by apply stats_delta_refl]. }
  assert (Hlen : 0 < Z.of_nat (length (f :: fs))) by (simpl; lia).
  destruct Hok as [Hnz (data & Hdata & Hdl)]. rewrite Hdata, (proj2 (Z.eqb_neq _ _)) by lia. wp_step.
  rewrite <- Hdl, Nat2Z.id, firstn_all.
  assert (Hne : data <> []) by (intros ->; simpl in Hdl; lia).
  assert (Hbytes : tx_bytes f = data) by (unfold tx_bytes; by rewrite Hdata).
  eapply wp_mono; [apply (send_loop_spec fuel s data 0 st h L); try done|].
  { unfold retry_measure. simpl. lia. }
  intros [ok st1] h1 (Hl1 & Hs1 & again & Ha & Hd1). destruct ok.
  2: { wp_step. cbn [fst snd]. rewrite Z.sub_diag, app_nil_r in *. unfold batch_post.
       change (Z.to_nat 0) with 0%nat. rewrite !take_0, app_nil_r. split_and!; try done; try lia.
       exists again. split; [lia|]. by rewrite decide_False by lia. }
  eapply wp_mono; [apply IH; [done|by eapply stats_delta_ok|done]|].
  intros [sent' st'] h' (Hl2 & Hn2 & Hs2 & again' & Ha' & Hd2). cbn [fst snd] in *.
  set (m := sent' - (sent + 1)) in *. replace (sent' - sent) with (1 + m) by (unfold m; lia).
  unfold batch_post. replace (Z.to_nat (1 + m)) with (S (Z.to_nat m)) by lia. cbn [fmap list_fmap take].
  split_and!; [done|lia|simpl; lia| |].
  - by rewrite Hs2, Hs1, <- app_assoc, Hbytes.
  - exists (again + again'). split; [simpl; lia|].
    pose proof (stats_delta_trans _ _ _ _ _ _ _ _ _ _ _ Hd1 Hd2) as Hd. rewrite Z.add_0_l in Hd.
    change (f :: take (Z.to_nat m) fs) with ([f] ++ take (Z.to_nat m) fs). rewrite total_len_app.
    replace (total_len [f]) with (Z.of_nat (length data)) by (unfold total_len; simpl; lia).
    destruct (decide (1 + m = _)) as [E|E], (decide (m = _)) as [E'|E']; simpl in *; try lia; exact Hd.
Qed.

(** C25 (sending a batch).  On an open sender, [send_batch] of frames that all
    carry data, in its Linux version and in the one for other systems, finishes
    and returns how many were sent: exactly that many of the frames, from the
    first on and in order, were handed to the network, and the packet and byte
    counters grew by them; one error is counted exactly when some frame was left
    over. *)
Theorem sender_send_batch fuel s fs h L :
  live h = Some L -> Sender.fd_ s ∈ L -> 0 <= Sender.fd_ s -> Forall tx_ok fs ->
  stats_ok (Sender.stats_ s) -> (length fs <= fuel)%nat -> (201 * (P + 1) <= fuel)%nat ->
  let post := fun '(sent, s') h' => s' = Sender.set_stats s (Sender.stats_ s') /\
    batch_post L fs (Sender.stats_ s) h sent (Sender.stats_ s') h' in
  wp (Sender.send_batch fuel (Some fs) (Z.of_nat (length fs)) s) post h /\
  wp (Sender.send_batch_portable fuel (Some fs) (Z.of_nat (length fs)) s) post h.
Proof.
  intros Hl Hf Hpos Hfs Hst Hfuel Hfuel' post. unfold Sender.send_batch, Sender.send_batch_portable.
  rewrite (proj2 (Z.ltb_ge _ _) Hpos). cbn [orb andb default id].
  rewrite Nat2Z.id, firstn_all. split; wp_step.
  - eapply wp_mono; [by apply (batch_outer_spec fuel fuel s fs 0 _ h L)|].
    intros [sent st'] h' Hpost. wp_step. cbn [fst snd] in Hpost. rewrite Z.sub_0_r in Hpost. done.
  - eapply wp_mono; [by apply (portable_loop_spec fuel s fs 0 _ h L)|].
    intros [sent st'] h' Hpost. wp_step. cbn [fst snd] in Hpost. rewrite Z.sub_0_r in Hpost. done.
Qed.

End sending.

(** ** Instances *)

Definition demo_config : Sender.Config :=
  Sender.mkConfig None 0 (Some "127.0.0.1"%string) 9000 65536 true.

Definition demo_sender : Sender.t :=
  Sender.mk 3 true (mkAddr 2130706433 9000) (Sender.mkStats 0 0 0 0).

(** The history in which descriptor 3 has just been opened. *)
Definition demo_history : history := [(Socket SOCK_DGRAM, mkReply 3 0 [] [])].

Definition demo_frames : list Sender.TxFrame :=
  [Sender.mkTx (Some [1; 2]) 2; Sender.mkTx (Some [3]) 1; Sender.mkTx (Some [4; 5; 6]) 3].

Lemma demo_stats_ok : stats_ok (Sender.mkStats 0 0 0 0).
Proof. by vm_compute. Qed.

Lemma sender_open_descriptors_witness :
  wp (@Sender.open demo_kernel demo_config demo_sender) (fun '(ok, s') h' =>
    live h' = Some (({[3]} ∖ owned 3) ∪ owned (Sender.fd_ s')) /\
    ok = (0 <=? Sender.fd_ s') /\ (ok = true -> Sender.fd_ s' ∉ ({[3]} : gset Z) ∖ owned 3) /\
    Sender.stats_ s' = Sender.mkStats 0 0 0 0) demo_history.
Proof.
  apply (@sender_open_descriptors 1 demo_kernel demo_kernel_ok demo_config demo_sender
    demo_history {[3]}).
  - vm_compute. reflexivity.
  - unfold owned. simpl. set_solver.
Defined.

Lemma client_open_descriptors_witness :
  wp (@UdpClient.open_client demo_kernel (Some "127.0.0.1"%string) 9000 None 0 0
    (UdpClient.mk 3 true)) (fun '(ok, c') h' =>
    live h' = Some (({[3]} ∖ owned 3) ∪ owned (UdpClient.fd c')) /\
    ok = (0 <=? UdpClient.fd c') /\ UdpClient.connected c' = ok /\
    (ok = true -> UdpClient.fd c' ∉ ({[3]} : gset Z) ∖ owned 3)) demo_history.
Proof.
  apply (@client_open_descriptors 1 demo_kernel demo_kernel_ok _ _ _ _ _ (UdpClient.mk 3 true)
    demo_history {[3]}).
  - vm_compute. reflexivity.
  - unfold owned. simpl. set_solver.
Defined.

Lemma sender_send_one_witness :
  wp (@Sender.send_one demo_kernel 402 (Some [7; 8]) 2 demo_sender) (fun '(ok, s') h' =>
    live h' = Some {[3]} /\ s' = Sender.set_stats demo_sender (Sender.stats_ s') /\
    datagrams h' = [] ++ (if ok then [[7; 8]] else []) /\
    exists again, 0 <= again <= 201 /\
      stats_delta (Sender.mkStats 0 0 0 0) (Sender.stats_ s') (if ok then 1 else 0)
        (if ok then 2 else 0) (if ok then 0 else 1) again) demo_history.
Proof.
  apply (@sender_send_one 1 demo_kernel demo_kernel_ok 402 demo_sender [7; 8] demo_history {[3]}).
  - vm_compute. reflexivity.
  - simpl. set_solver.
  - discriminate.
  - discriminate.
  - exact demo_stats_ok.
  - lia.
Defined.

Lemma sender_send_batch_witness :
  wp (@Sender.send_batch demo_kernel 402 (Some demo_frames) 3 demo_sender) (fun '(sent, s') h' =>
    s' = Sender.set_stats demo_sender (Sender.stats_ s') /\
    batch_post {[3]} demo_frames (Sender.mkStats 0 0 0 0) demo_history sent
      (Sender.stats_ s') h') demo_history.
Proof.
  refine (proj1 (@sender_send_batch 1 demo_kernel demo_kernel_ok 402 demo_sender demo_frames
    demo_history {[3]} _ _ _ _ _ _ _)).
  - vm_compute. reflexivity.
  - simpl. set_solver.
  - discriminate.
  - unfold tx_ok, demo_frames. repeat constructor; by eexists.
  - exact demo_stats_ok.
  - simpl. lia.
  - lia.
Defined.

(** The demo kernel interrupts each call once and takes two frames at a time. *)
Example demo_batch :
  (fun '(sent, s, h) => (sent, Sender.stats_ s, datagrams h)) <$>
    @Sender.send_batch demo_kernel 402 (Some demo_frames) 3 demo_sender demo_history
  = Some (3, Sender.mkStats 3 6 0 0, [[1; 2]; [3]; [4; 5; 6]]).
Proof. vm_compute. reflexivity. Qed.
