(* ===== verification/Generator.v ===== *)
(** * Generator: the two market-data generators

    Models [src/generator/v1/generator.cpp] and [src/generator/v2/generator.cpp]:
    the message stream (linear congruential generator, injected gaps) and the
    loops that send it one by one or in bursts, paced or not. *)

From Stdlib Require Import ZArith Lia String Sorted.
From stdpp Require Import base numbers list option gmap sets.
From S2P Require Import Prelude Wire Metrics Os Sender.

Local Open Scope Z_scope.

(** ** The message stream *)

(** [symbol_count_], [rng_state_], [seq_]: the members both generators have. *)
Record gen := mkGen { symbol_count_ : Z; rng_state_ : Z; seq_ : Z }.

Definition next_rand (g : gen) : Z * gen :=
  let r := u32 (rng_state_ g * 1664525 + 1013904223) in
  (r, mkGen (symbol_count_ g) r (seq_ g)).

Definition make_message (g : gen) : MarketDataMsg * gen :=
  let '(r, g) := next_rand g in
  let sym := if symbol_count_ g =? 0 then 1 else u32 (r mod symbol_count_ g + 1) in
  let seq := seq_ g in
  let g := mkGen (symbol_count_ g) (rng_state_ g) (seq_ g +% 1) in
  let ts := s64 seq in
  let bid := 10 + r mod 991 in
  let ask := bid + 1 in
  let size := s32 (u32 (1 + r mod 100)) in
  (mkMsg seq sym ts bid ask size (size + 1), g).

(** One pass through the [for] body up to the sending: [None] when the slot is a
    gap. *)
Definition next_slot (gap_mod gap_span : Z) (g : gen) : option MarketDataMsg * gen :=
  let inject_gap := (0 <? gap_mod) && (0 <? gap_span) in
  let '(skip, g) :=
    if inject_gap then
      let '(r, g) := next_rand g in
      if r mod gap_mod <? gap_span
      then (true, mkGen (symbol_count_ g) (rng_state_ g) (seq_ g +% (gap_span + 1)))
      else (false, g)
    else (false, g) in
  if (skip : bool) then (None, g)
  else let '(msg, g) := make_message g in (Some msg, g).

(** [seed <= 0] becomes 1; the run restarts the stream. *)
Definition seeded (seed : Z) (g : gen) : gen :=
  mkGen (symbol_count_ g) (u32 (if seed <=? 0 then 1 else seed)) 0.

(** Pacing: [None] without a rate, otherwise the interval and the last
    deadline. *)
Definition pacing : Type := option (Z * Z).

Definition start_pacing `{Kernel} (rate : Z) : M pacing :=
  if rate <=? 0 then mret None
  else now ← sys ClockNow; mret (Some (Z.quot 1000000000 rate, ret now)).

Definition pace `{Kernel} (slots : Z) (p : pacing) : M pacing :=
  match p with
  | None => mret None
  | Some (interval, next) =>
      let next := next + interval * slots in
      _ ← sys (SleepUntil next); mret (Some (interval, next))
  end.

(** ** Generator v1 *)

Module GeneratorV1.

Record t := mk { client_ : UdpClient.t; stream : gen }.

Definition construct : t := mk UdpClient.construct (mkGen 1 1 0).

Section v1.
Context `{Kernel} (o : byte_order) (fuel : nat).

Definition connect (addr : option string) (port : Z) (g : t) : M (bool * t) :=
  '(ok, c) ← UdpClient.open_client addr port None 0 0 (client_ g);
  mret (ok, mk c (stream g)).

Definition usable (g : t) : bool :=
  UdpClient.connected (client_ g) && negb (UdpClient.fd (client_ g) <? 0).

Definition send (msg : MarketDataMsg) (g : t) : M bool :=
  if negb (usable g) then mret false
  else UdpClient.send_message fuel o (client_ g) msg.

(** The two [for] loops of [run], with [n] slots to go. *)
Fixpoint run_loop (n : nat) (gap_mod gap_span : Z) (p : pacing) (g : t) : M (bool * t) :=
  match n with
  | O => mret (true, g)
  | S n =>
      let '(slot, st) := next_slot gap_mod gap_span (stream g) in
      let g := mk (client_ g) st in
      match slot with
      | None => p ← pace 1 p; run_loop n gap_mod gap_span p g
      | Some msg =>
          ok ← send msg g;
          if negb ok then mret (false, g)
          else p ← pace 1 p; run_loop n gap_mod gap_span p g
      end
  end.

Definition run (count rate seed gap_mod gap_span : Z) (g : t) : M (bool * t) :=
  if negb (usable g) then mret (false, g) else
  if count <=? 0 then mret (true, g) else
  let g := mk (client_ g) (seeded seed (stream g)) in
  p ← start_pacing rate;
  run_loop (Z.to_nat count) gap_mod gap_span p g.

(** [~Generator]. *)
Definition destroy (g : t) : M t :=
  c ← UdpClient.close_client (client_ g); mret (mk c (stream g)).

End v1.

End GeneratorV1.

(** ** Generator v2 *)

Module GeneratorV2.

Record t := mk { running_ : bool; sender_ : Sender.t; stream : gen }.

Definition construct : t := mk false Sender.construct (mkGen 1 1 0).

(** How [run] ends: [Ok] is true and the others false; [IndexOutOfRange] is a read
    of [batch] outside its bounds. *)
Inductive outcome := Ok | NotOpen | Failed (failed_seq : Z) | IndexOutOfRange.

Section v2.
Context `{Kernel} (o : byte_order) (fuel : nat).

Definition open (cfg : Sender.Config) (g : t) : M (bool * t) :=
  '(opened, s) ← Sender.open cfg (sender_ g);
  mret (opened, mk opened s (stream g)).

Definition encoded (msg : MarketDataMsg) : list Z := encode o (replicate 44 0) msg.

Definition send_one (msg : MarketDataMsg) (g : t) : M (bool * t) :=
  '(ok, s) ← Sender.send_one fuel (Some (encoded msg)) kWireSize (sender_ g);
  mret (ok, mk (running_ g) s (stream g)).

Definition tx_frame (msg : MarketDataMsg) : Sender.TxFrame :=
  Sender.mkTx (Some (encoded msg)) kWireSize.

Definition send_batch (msgs : option (list MarketDataMsg)) (count : Z) (g : t) : M (Z * t) :=
  '(sent, s) ←
    match msgs with
    | None => Sender.send_batch fuel None count (sender_ g)
    | Some msgs => Sender.send_batch fuel (Some (tx_frame <$> msgs)) count (sender_ g)
    end;
  mret (sent, mk (running_ g) s (stream g)).

(** The lambda of [run]. *)
Definition send_or_fail (batch : list MarketDataMsg) (g : t) : M (outcome * t) :=
  match batch with
  | [] => mret (Ok, g)
  | _ =>
      '(sent, g) ← send_batch (Some batch) (Z.of_nat (length batch)) g;
      if sent =? Z.of_nat (length batch) then mret (Ok, g)
      else if sent <? 0 then mret (IndexOutOfRange, g)
      else match batch !! Z.to_nat sent with
           | None => mret (IndexOutOfRange, g)
           | Some m => mret (Failed (seq_num m), g)
           end
  end.

(** The [for] over the slots of one burst. *)
Fixpoint fill (slots : nat) (gap_mod gap_span : Z) (st : gen) : list MarketDataMsg * gen :=
  match slots with
  | O => ([], st)
  | S slots =>
      let '(slot, st) := next_slot gap_mod gap_span st in
      let '(batch, st) := fill slots gap_mod gap_span st in
      (match slot with None => batch | Some msg => msg :: batch end, st)
  end.

(** The [while (produced < count)] loops; [left] is [count - produced]. *)
Fixpoint run_loop (iters : nat) (left burst_size gap_mod gap_span : Z) (p : pacing) (g : t)
    : M (outcome * t) :=
  if left <=? 0 then mret (Ok, mk false (sender_ g) (stream g)) else
  match iters with
  | O => out_of_fuel
  | S iters =>
      let slots := Z.min burst_size left in
      let '(batch, st) := fill (Z.to_nat slots) gap_mod gap_span (stream g) in
      '(res, g) ← send_or_fail batch (mk (running_ g) (sender_ g) st);
      match res with
      | Ok => p ← pace slots p; run_loop iters (left - slots) burst_size gap_mod gap_span p g
      | _ => mret (res, mk false (sender_ g) (stream g))
      end
  end.

Definition run (count rate seed gap_mod gap_span burst_size : Z) (g : t) : M (outcome * t) :=
  if Sender.fd_ (sender_ g) <? 0 then mret (NotOpen, g) else
  if count <=? 0 then mret (Ok, g) else
  let g := mk true (sender_ g) (seeded seed (stream g)) in
  let burst_size := if burst_size <=? 0 then 1 else burst_size in
  p ← start_pacing rate;
  run_loop (Z.to_nat count) count burst_size gap_mod gap_span p g.

(** [~Generator]. *)
Definition destroy (g : t) : M t :=
  s ← Sender.close (sender_ g); mret (mk false s (stream g)).

End v2.

End GeneratorV2.

(** ** The stream, slot by slot *)

Fixpoint slots (n : nat) (gap_mod gap_span : Z) (g : gen) : list (option MarketDataMsg) * gen :=
  match n with
  | O => ([], g)
  | S n =>
      let '(x, g) := next_slot gap_mod gap_span g in
      let '(xs, g) := slots n gap_mod gap_span g in
      (x :: xs, g)
  end.

Abbreviation messages xs := (omap id xs : list MarketDataMsg).

(** The sequence numbers a slot takes. *)
Definition slot_width (gap_span : Z) (x : option MarketDataMsg) : Z :=
  match x with None => gap_span + 1 | Some _ => 1 end.

Definition advance (gap_span : Z) (xs : list (option MarketDataMsg)) : Z :=
  foldr (fun x acc => slot_width gap_span x + acc) 0 xs.

Definition gen_ok (g : gen) : Prop :=
  is_u 32 (symbol_count_ g) /\ is_u 32 (rng_state_ g) /\ is_u 64 (seq_ g).

(** What a generated message looks like. *)
Definition generated (m : MarketDataMsg) : Prop := msg_ok m /\ sanityCheck m = true.

Lemma next_rand_ok g : gen_ok g ->
  is_u 32 (next_rand g).1 /\ gen_ok (next_rand g).2 /\ seq_ (next_rand g).2 = seq_ g.
Proof.
  intros (? & ? & ?). unfold next_rand, gen_ok; cbn [fst snd symbol_count_ rng_state_ seq_].
  split_and!; try done; by apply wrapu_range.
Qed.

Lemma make_message_spec g m g' :
  gen_ok g -> make_message g = (m, g') ->
  generated m /\ seq_num m = seq_ g /\ gen_ok g' /\ seq_ g' = seq_ g +% 1.
Proof.
  intros Hg Hm. unfold make_message in Hm.
  destruct (next_rand_ok g Hg) as (Hr & (Hs & Hrng & Hseq) & Eseq).
  destruct (next_rand g) as [r g1]; cbn [fst snd] in *.
  rewrite Eseq in *. injection Hm as <- <-.
  pose proof (Z.mod_pos_bound r 991 ltac:(lia)). pose proof (Z.mod_pos_bound r 100 ltac:(lia)).
  assert (Hsize : s32 (u32 (1 + r mod 100)) = 1 + r mod 100).
  { rewrite (wrapu_small 32), (wraps_small 32); unfold is_u, is_s; lia. }
  rewrite Hsize.
  assert (Hsym : is_u 32 (if symbol_count_ g1 =? 0 then 1 else u32 (r mod symbol_count_ g1 + 1)))
    by (destruct (_ =? 0); [unfold is_u; lia|by apply wrapu_range]).
  split; [split|].
  - unfold msg_ok; cbn [seq_num symbol_id exchange_ts bid_price ask_price bid_size ask_size].
    split; [exact Hseq|]. split; [exact Hsym|]. split; [by apply wraps_range|].
    unfold is_s; simpl; lia.
  - unfold sanityCheck; cbn [bid_price ask_price bid_size ask_size].
    rewrite !andb_true_iff, negb_true_iff, Z.eqb_neq, !Z.leb_le, !Z.ltb_lt. lia.
  - split; [done|]. split; [|done]. by split_and!; try apply wrapu_range.
Qed.

Lemma next_slot_spec gm gs g x g' :
  gen_ok g -> 0 <= gs -> next_slot gm gs g = (x, g') ->
  gen_ok g' /\ seq_ g' = seq_ g +% slot_width gs x /\
  (forall m, x = Some m -> generated m /\ seq_num m = seq_ g).
Proof.
  intros Hg Hgs. unfold next_slot.
  assert (Hmsg : forall g1, gen_ok g1 -> seq_ g1 = seq_ g ->
    (let '(msg, g2) := make_message g1 in (Some msg, g2)) = (x, g') ->
    gen_ok g' /\ seq_ g' = seq_ g +% slot_width gs x /\
    (forall m, x = Some m -> generated m /\ seq_num m = seq_ g)).
  { intros g1 Hg1 E1. destruct (make_message g1) as [msg g2] eqn:Em. intros [= <- <-].
    destruct (make_message_spec g1 msg g2 Hg1 Em) as (Hgen & Hseq & Hg2 & E2).
    rewrite E1 in *. split_and!; try done. by intros m [= <-]. }
  destruct ((0 <? gm) && (0 <? gs)); [|by apply Hmsg].
  destruct (next_rand_ok g Hg) as (_ & Hg1 & E1). destruct (next_rand g) as [r g1].
  cbn [fst snd] in *. destruct (r mod gm <? gs); [|by apply Hmsg].
  intros [= <- <-]. destruct Hg1 as (? & ? & ?). rewrite E1 in *.
  split_and!; try done. split_and!; try done; by apply wrapu_range.
Qed.

Lemma advance_app gs xs ys : advance gs (xs ++ ys) = advance gs xs + advance gs ys.
Proof. induction xs as [|x xs IH]; simpl; [done|]. rewrite IH. lia. Qed.

Lemma advance_ge gs xs : 0 <= gs -> Z.of_nat (length xs) <= advance gs xs.
Proof.
  intros. induction xs as [|[m|] xs IH]; simpl; lia.
Qed.

Lemma advance_le gs xs : 0 <= gs -> advance gs xs <= Z.of_nat (length xs) * (gs + 1).
Proof. intros. induction xs as [|[m|] xs IH]; simpl length; simpl; nia. Qed.

Lemma length_slots n gm gs g : length (slots n gm gs g).1 = n.
Proof.
  revert g. induction n as [|n IH]; intros g; [done|]. simpl.
  destruct (next_slot gm gs g) as [x g1]. specialize (IH g1).
  destruct (slots n gm gs g1). simpl in *. by rewrite IH.
Qed.

(** The message of each slot carries the position of the slot: nothing wraps. *)
Lemma slots_spec n gm gs g xs g' :
  gen_ok g -> 0 <= gs -> seq_ g + Z.of_nat n * (gs + 1) < 2 ^ 64 ->
  slots n gm gs g = (xs, g') ->
  gen_ok g' /\ seq_ g' = seq_ g + advance gs xs /\
  (forall i m, xs !! i = Some (Some m) ->
    generated m /\ seq_num m = seq_ g + advance gs (take i xs)).
Proof.
  revert g xs. induction n as [|n IH]; intros g xs Hg Hgs Hb Hs; simpl in Hs.
  { injection Hs as <- <-. simpl. split_and!; [done|lia|]. intros i m Hi.
    by rewrite lookup_nil in Hi. }
  destruct (next_slot gm gs g) as [x g1] eqn:E1.
  destruct (slots n gm gs g1) as [ys g2] eqn:E2. injection Hs as <- <-.
  destruct (next_slot_spec gm gs g x g1 Hg Hgs E1) as (Hg1 & Hseq & Hx).
  assert (Hw : 1 <= slot_width gs x <= gs + 1) by (destruct x; simpl; lia).
  assert (0 <= seq_ g) by apply Hg.
  rewrite wrapu_small in Hseq by (unfold is_u; nia).
  destruct (IH g1 ys Hg1 Hgs) as (Hg2 & Hseq2 & Hys); [rewrite Hseq; nia|done|].
  split_and!; [done|simpl; lia|].
  intros [|i] m Hi; simpl in Hi.
  - injection Hi as ->. destruct (Hx m eq_refl) as [? ->]. split; [done|]. simpl. lia.
  - destruct (Hys i m Hi) as [? ->]. split; [done|]. simpl. lia.
Qed.

(** A list of slots numbered from [s]. *)
Definition numbered (gs s : Z) (xs : list (option MarketDataMsg)) : Prop :=
  forall i m, xs !! i = Some (Some m) -> seq_num m = s + advance gs (take i xs).

Lemma numbered_cons gs s x xs :
  numbered gs s (x :: xs) ->
  (forall m, x = Some m -> seq_num m = s) /\ numbered gs (s + slot_width gs x) xs.
Proof.
  intros Hn. split.
  - intros m ->. rewrite (Hn 0%nat m eq_refl). simpl. lia.
  - intros i m Hi. rewrite (Hn (S i) m Hi). simpl. lia.
Qed.

Lemma numbered_increasing gs s xs :
  0 <= gs -> numbered gs s xs ->
  Forall (fun q => s <= q < s + advance gs xs) (seq_num <$> messages xs) /\
  StronglySorted Z.lt (seq_num <$> messages xs).
Proof.
  intros Hgs. revert s. induction xs as [|x xs IH]; intros s Hn; [split; constructor|].
  apply numbered_cons in Hn as [Hx Hn]. destruct (IH _ Hn) as [Hf Hs].
  assert (Hw : 1 <= slot_width gs x) by (destruct x; simpl; lia).
  assert (Hf' : Forall (fun q => s < q < s + advance gs (x :: xs)) (seq_num <$> messages xs))
    by (revert Hf; apply List.Forall_impl; simpl; lia).
  pose proof (advance_ge gs xs Hgs).
  destruct x as [m|]; cbn [omap list_omap id fmap list_fmap].
  - rewrite (Hx m eq_refl). split; constructor; try done; [simpl; lia|..];
      revert Hf'; apply List.Forall_impl; lia.
  - split; [|done]. revert Hf'; apply List.Forall_impl; lia.
Qed.

Lemma next_slot_no_gap gm gs g : gm <= 0 \/ gs <= 0 -> exists m g', next_slot gm gs g = (Some m, g').
Proof.
  intros Hd. unfold next_slot. replace ((0 <? gm) && (0 <? gs)) with false.
  - destruct (make_message g) as [m g']. by exists m, g'.
  - destruct (Z.ltb_spec 0 gm), (Z.ltb_spec 0 gs); simpl; lia || done.
Qed.

Lemma slots_no_gap n gm gs g : gm <= 0 \/ gs <= 0 -> Forall is_Some (slots n gm gs g).1.
Proof.
  intros Hd. revert g. induction n as [|n IH]; intros g; [constructor|]. simpl.
  destruct (next_slot_no_gap gm gs g Hd) as (m & g1 & ->). specialize (IH g1).
  destruct (slots n gm gs g1). simpl. constructor; [by eexists|done].
Qed.

(** C39 (the message stream).  For every seed and number of slots that fit an
    [int], each message generated is in range and passes the engine's sanity
    check; its sequence number is the number of sequence numbers the earlier
    slots took, one per message and [gap_span + 1] per injected gap, without
    wrap-around, so the numbers sent increase strictly; and no gap is injected
    unless both gap parameters are positive. *)
Theorem generator_stream sc seed n gm gs :
  is_u 32 sc -> 0 <= gs < 2 ^ 31 -> Z.of_nat n < 2 ^ 31 ->
  let xs := (slots n gm gs (seeded seed (mkGen sc 1 0))).1 in
  length xs = n /\
  (forall i m, xs !! i = Some (Some m) ->
    generated m /\ seq_num m = advance gs (take i xs)) /\
  StronglySorted Z.lt (seq_num <$> messages xs) /\
  (gm <= 0 \/ gs = 0 -> Forall is_Some xs).
Proof.
  intros Hsc Hgs Hn xs. destruct (slots n gm gs (seeded seed (mkGen sc 1 0))) as [ys g'] eqn:E.
  cbn [fst] in xs. subst xs.
  assert (Hok : gen_ok (seeded seed (mkGen sc 1 0))).
  { unfold gen_ok, seeded; cbn [symbol_count_ rng_state_ seq_].
    split; [done|]. split; [by apply wrapu_range|unfold is_u; lia]. }
  destruct (slots_spec n gm gs _ ys g' Hok) as (_ & _ & Hys); [lia|cbn; nia|done|].
  split_and!.
  - pose proof (length_slots n gm gs (seeded seed (mkGen sc 1 0))) as Hl. by rewrite E in Hl.
  - intros i m Hi. destruct (Hys i m Hi) as [? Hseq]. by split.
  - apply (numbered_increasing gs 0); [lia|]. intros i m Hi. apply (Hys i m Hi).
  - intros Hd. pose proof (slots_no_gap n gm gs (seeded seed (mkGen sc 1 0)) ltac:(lia)) as Hf.
    by rewrite E in Hf.
Qed.

Lemma generator_stream_witness :
  let xs := (slots 20 3 1 (seeded 42 (mkGen 1 1 0))).1 in
  length xs = 20%nat /\
  (forall i m, xs !! i = Some (Some m) -> generated m /\ seq_num m = advance 1 (take i xs)) /\
  StronglySorted Z.lt (seq_num <$> messages xs) /\
  (3 <= 0 \/ 1 = 0 -> Forall is_Some xs).
Proof. apply (generator_stream 1 42 20 3 1); [unfold is_u; lia|lia|lia]. Defined.

(** ** What a lossless engine sees *)

(** Leading gaps are invisible. *)
Fixpoint strip (xs : list (option MarketDataMsg)) : list (option MarketDataMsg) :=
  match xs with None :: xs => strip xs | _ => xs end.

(** The gaps with a message after them. *)
Fixpoint covered_gaps (xs : list (option MarketDataMsg)) : Z :=
  match xs with
  | [] => 0
  | None :: xs => (if decide (messages xs = []) then 0 else 1) + covered_gaps xs
  | Some _ :: xs => covered_gaps xs
  end.

Lemma covered_none xs : messages xs = [] -> covered_gaps xs = 0.
Proof.
  induction xs as [|[m|] xs IH]; simpl; [done|done|]. intros Hm. rewrite decide_True by done.
  rewrite IH; done.
Qed.

Lemma numbered_strip gs s xs : numbered gs s xs -> exists s', numbered gs s' (strip xs).
Proof.
  revert s. induction xs as [|[m|] xs IH]; intros s Hn; [by exists s..|].
  apply numbered_cons in Hn as [_ Hn]. by apply (IH _ Hn).
Qed.

Lemma messages_strip xs : messages (strip xs) = messages xs.
Proof. by induction xs as [|[m|] xs IH]. Qed.

(** Everything is accepted, and the next number expected is one past the last
    message. *)
Lemma accepted_numbered gs s lo xs :
  0 <= gs -> numbered gs s xs -> lo <= s ->
  accepted lo (seq_num <$> messages xs) = seq_num <$> messages xs /\
  (messages xs <> [] ->
   next_expected lo (seq_num <$> messages xs)
   = s + Z.of_nat (length (messages xs)) + (gs + 1) * covered_gaps xs).
Proof.
  intros Hgs. revert s lo. induction xs as [|x xs IH]; intros s lo Hn Hlo; [done|].
  apply numbered_cons in Hn as [Hx Hn]. destruct x as [m|];
    cbn [omap list_omap id fmap list_fmap accepted next_expected slot_width covered_gaps] in *.
  - rewrite (Hx m eq_refl). rewrite !decide_True by lia.
    destruct (IH (s + 1) (s + 1) Hn ltac:(lia)) as [Ha He]. rewrite Ha. split; [done|].
    intros _. destruct (decide (messages xs = [])) as [E|E].
    + rewrite covered_none by done. change (list_omap _ _ id xs) with (messages xs).
      rewrite E. simpl. lia.
    + simpl length. change (list_omap _ _ id xs) with (messages xs) in *. rewrite He by done. lia.
  - destruct (IH (s + (gs + 1)) lo Hn ltac:(lia)) as [Ha He]. split; [done|].
    intros Hm. change (list_omap _ _ id xs) with (messages xs) in *.
    rewrite decide_False by done. rewrite He by done. lia.
Qed.

Lemma next_expected_last lo seqs :
  accepted lo seqs = seqs -> seqs <> [] ->
  exists q, last seqs = Some q /\ next_expected lo seqs = q + 1.
Proof.
  revert lo. induction seqs as [|s seqs IH]; intros lo Ha Hne; [done|]. simpl in Ha |- *.
  case_decide as Hd.
  - injection Ha as Ha. destruct seqs as [|s' seqs]; [by exists s|].
    by apply IH.
  - pose proof (length_accepted lo seqs) as Hl. rewrite Ha in Hl. simpl in Hl. lia.
Qed.

Lemma length_omap_le (xs : list (option MarketDataMsg)) :
  (length (messages xs) <= length xs)%nat.
Proof.
  induction xs as [|[m|] xs IH]; [done|..]; cbn [omap list_omap id length];
    change (list_omap _ _ id xs) with (messages xs); lia.
Qed.

(** The tracker on numbered slots that do not reach the end of the number range. *)
Lemma track_numbered gs s xs :
  0 <= gs -> 0 <= s -> s + advance gs xs < 2 ^ 63 -> numbered gs s xs -> messages xs <> [] ->
  let k := Z.of_nat (length (messages xs)) in
  exists e,
    track_all (seq_num <$> messages xs) fresh_tracker Metrics.zero
    = (mkTracker e true, Metrics.mk k k 0 0 ((gs + 1) * covered_gaps (strip xs))) /\
    exists m, last (messages xs) = Some m /\ e = seq_num m + 1.
Proof.
  intros Hgs Hs0 Hb Hn Hne k.
  destruct (numbered_increasing gs s xs Hgs Hn) as [Hf _].
  pose proof (advance_ge gs xs Hgs) as Hlen.
  assert (Hk : k <= Z.of_nat (length xs)).
  { unfold k. pose proof (length_omap_le xs). lia. }
  destruct (numbered_strip gs s xs Hn) as [s' Hn'].
  subst k. pose proof (messages_strip xs) as Hst. rewrite <- Hst in Hne, Hf, Hk |- *. clear Hst.
  destruct (strip xs) as [|[f|] ys] eqn:Es; [done| |].
  2: { exfalso. clear -Es. induction xs as [|[m|] xs IH]; simpl in Es; try done; auto. }
  destruct (accepted_numbered gs s' s' (Some f :: ys) Hgs Hn' ltac:(lia)) as [Ha He].
  specialize (He ltac:(done)). apply numbered_cons in Hn' as [Hf0 _].
  specialize (Hf0 f eq_refl). rewrite <- Hf0 in Ha, He.
  set (ms := messages (Some f :: ys)) in *.
  assert (Hms : seq_num <$> ms = seq_num f :: (seq_num <$> messages ys)) by done.
  destruct (next_expected_last _ _ Ha ltac:(by rewrite Hms)) as (q & Hq & Hqe).
  rewrite fmap_last in Hq. apply fmap_Some in Hq as (m & Hm & ->).
  eexists. split; [|by exists m].
  pose proof (track_fresh (seq_num f) (seq_num <$> messages ys)) as Ht. rewrite <- Hms in Ht.
  cbv zeta in Ht. rewrite Ha, He, length_fmap in Ht. rewrite Ht.
  - rewrite He. f_equal. f_equal; lia.
  - revert Hf. apply List.Forall_impl. unfold seq_ok. lia.
  - lia.
Qed.

(** C26 (generator and engine).  An engine that receives a generator's whole stream
    in order processes every message, drops none, and counts as gaps exactly
    [gap_span + 1] sequence numbers for each injected gap that lies between two
    messages; it then expects the number after the last message. *)
Theorem generator_engine_gaps sc seed n gm gs :
  is_u 32 sc -> 0 <= gs < 2 ^ 31 -> Z.of_nat n < 2 ^ 31 ->
  let xs := (slots n gm gs (seeded seed (mkGen sc 1 0))).1 in
  messages xs <> [] ->
  let k := Z.of_nat (length (messages xs)) in
  exists e,
    track_all (seq_num <$> messages xs) fresh_tracker Metrics.zero
    = (mkTracker e true, Metrics.mk k k 0 0 ((gs + 1) * covered_gaps (strip xs))) /\
    exists m, last (messages xs) = Some m /\ e = seq_num m + 1.
Proof.
  intros Hsc Hgs Hn xs Hne k.
  destruct (slots n gm gs (seeded seed (mkGen sc 1 0))) as [ys g'] eqn:E.
  cbn [fst] in xs. subst xs.
  assert (Hok : gen_ok (seeded seed (mkGen sc 1 0))).
  { unfold gen_ok, seeded; cbn [symbol_count_ rng_state_ seq_].
    split; [done|]. split; [by apply wrapu_range|unfold is_u; lia]. }
  destruct (slots_spec n gm gs _ ys g' Hok) as (_ & _ & Hys); [lia|cbn; nia|done|].
  pose proof (length_slots n gm gs (seeded seed (mkGen sc 1 0))) as Hl. rewrite E in Hl.
  pose proof (advance_le gs ys ltac:(lia)). cbn [fst] in Hl. rewrite Hl in *.
  apply (track_numbered gs 0); [lia|lia|nia| |done].
  intros i m Hi. apply (Hys i m Hi).
Qed.

Lemma generator_engine_gaps_witness :
  exists e,
    track_all (seq_num <$> messages (slots 20 3 1 (seeded 42 (mkGen 1 1 0))).1)
      fresh_tracker Metrics.zero
    = (mkTracker e true, Metrics.mk 17 17 0 0 (2 * 2)) /\
    exists m, last (messages (slots 20 3 1 (seeded 42 (mkGen 1 1 0))).1) = Some m /\
      e = seq_num m + 1.
Proof.
  apply (generator_engine_gaps 1 42 20 3 1); [unfold is_u; lia|lia|lia|].
  vm_compute. discriminate.
Defined.

(** ** Sending the stream *)

Section runs.
Context {P : nat} `{KernelOk P}.

Lemma client_send_spec fuel c data h L :
  live h = Some L -> UdpClient.fd c ∈ L -> (P - interrupted h < fuel)%nat ->
  wp (UdpClient.send_loop fuel c data (Z.of_nat (length data))) (fun ok h' =>
    live h' = Some L /\ datagrams h' = datagrams h ++ (if ok then [data] else [])) h.
Proof.
  intros Hl Hf. revert h Hl. induction fuel as [|fuel IH]; intros h Hl Hfuel; [lia|].
  cbn [UdpClient.send_loop]. repeat wp_step. set (c' := Send _ _ _). set (r := kernel h c').
  assert (Hl' : live ((c', r) :: h) = Some L)
    by (apply live_use; try done; by apply Forall_singleton).
  destruct (Z.eqb_spec (ret r) (Z.of_nat (length data))) as [Hn|Hn].
  { wp_step. split; [done|]. simpl. by rewrite (proj2 (Z.eqb_eq _ _) Hn). }
  assert (Hnone : datagrams ((c', r) :: h) = datagrams h).
  { apply datagrams_quiet. simpl. by rewrite (proj2 (Z.eqb_neq _ _) Hn). }
  destruct (Z.eqb_spec (ret r) (-1)) as [Hm|Hm], (Z.eqb_spec (errno r) EINTR) as [He|He];
    cbn [andb]; try (wp_step; by rewrite app_nil_r).
  destruct (interrupted_more h c' Hm He) as [Hlt Hi]. fold r in Hi.
  rewrite <- Hnone. apply IH; [done|]. rewrite Hi. lia.
Qed.

(** The datagrams of a message stream: its wire encodings, on every host. *)
Definition wire (xs : list (option MarketDataMsg)) : list (list Z) :=
  wire_layout <$> messages xs.

Lemma pace_quiet n p (Q : pacing -> history -> Prop) h L :
  live h = Some L ->
  (forall p' h', live h' = Some L -> datagrams h' = datagrams h -> Q p' h') ->
  wp (pace n p) Q h.
Proof.
  intros Hl HQ. unfold pace. destruct p as [[interval next]|]; repeat wp_step; [|by apply HQ].
  apply HQ; [by apply live_use; try done; constructor|by apply datagrams_quiet].
Qed.

Lemma start_pacing_quiet rate (Q : pacing -> history -> Prop) h L :
  live h = Some L ->
  (forall p' h', live h' = Some L -> datagrams h' = datagrams h -> Q p' h') ->
  wp (start_pacing rate) Q h.
Proof.
  intros Hl HQ. unfold start_pacing. destruct (rate <=? 0); repeat wp_step; [by apply HQ|].
  apply HQ; [by apply live_use; try done; constructor|by apply datagrams_quiet].
Qed.

Lemma v1_loop_spec o fuel n gm gs p g h L :
  live h = Some L -> UdpClient.fd (GeneratorV1.client_ g) ∈ L -> GeneratorV1.usable g = true ->
  (P < fuel)%nat ->
  let xs := (slots n gm gs (GeneratorV1.stream g)).1 in
  wp (GeneratorV1.run_loop o fuel n gm gs p g) (fun '(ok, g') h' =>
    live h' = Some L /\ exists k, (k <= length (wire xs))%nat /\
      datagrams h' = datagrams h ++ take k (wire xs) /\ (ok = true <-> k = length (wire xs))) h.
Proof.
  intros Hl Hf Hu Hfuel. revert p g h Hl Hf Hu.
  induction n as [|n IH]; intros p g h Hl Hf Hu; cbn [GeneratorV1.run_loop slots].
  { wp_step. split; [done|]. exists 0%nat. by rewrite app_nil_r. }
  destruct (next_slot gm gs (GeneratorV1.stream g)) as [x st].
  destruct (slots n gm gs st) as [xs g2] eqn:Es. cbn [fst].
  assert (Hrest : forall p' h', live h' = Some L ->
    wp (GeneratorV1.run_loop o fuel n gm gs p' (GeneratorV1.mk (GeneratorV1.client_ g) st))
      (fun '(ok, g') h'' => live h'' = Some L /\ exists k, (k <= length (wire xs))%nat /\
        datagrams h'' = datagrams h' ++ take k (wire xs) /\
        (ok = true <-> k = length (wire xs))) h').
  { intros p' h' Hl'. specialize (IH p' (GeneratorV1.mk (GeneratorV1.client_ g) st) h' Hl' Hf Hu).
    cbn [GeneratorV1.stream] in IH. by rewrite Es in IH. }
  destruct x as [m|].
  - wp_step. unfold GeneratorV1.send.
    replace (GeneratorV1.usable _) with true by done. cbn [negb].
    unfold UdpClient.send_message, UdpClient.send_bytes. unfold GeneratorV1.usable in Hu.
    apply andb_true_iff in Hu as [Hc Hfd]. rewrite negb_true_iff in Hfd.
    cbn [GeneratorV1.client_]. rewrite Hc, Hfd, encode_layout by done. cbn [negb orb].
    replace (kWireSize =? 0) with false by done.
    rewrite take_ge by (by rewrite length_wire_layout).
    replace kWireSize with (Z.of_nat (length (wire_layout m))) by (by rewrite length_wire_layout).
    eapply wp_mono; [apply (client_send_spec fuel _ (wire_layout m) h L); [done|done|lia]|].
    intros ok h1 [Hl1 Hs1]. destruct ok; cbn [negb].
    + wp_step. eapply pace_quiet; [exact Hl1|]. intros p' h2 Hl2 Hs2. rewrite Hs1 in Hs2.
      eapply wp_mono; [by apply Hrest|]. intros [ok g'] h3 (Hl3 & k & Hk & Hs3 & Hok).
      split; [done|]. exists (S k). unfold wire in *.
      cbn [omap list_omap id fmap list_fmap length take] in *.
      split_and!; [lia| |rewrite Hok; lia]. by rewrite Hs3, Hs2, <- app_assoc.
    + wp_step. split; [done|]. exists 0%nat. split_and!; [lia|by rewrite take_0|done].
  - wp_step. eapply pace_quiet; [exact Hl|]. intros p' h2 Hl2 Hs2. rewrite <- Hs2. by apply Hrest.
Qed.

Lemma fill_slots n gm gs st :
  GeneratorV2.fill n gm gs st = (messages (slots n gm gs st).1, (slots n gm gs st).2).
Proof.
  revert st. induction n as [|n IH]; intros st; [done|]. cbn [GeneratorV2.fill slots].
  destruct (next_slot gm gs st) as [x st1]. rewrite IH.
  destruct (slots n gm gs st1) as [xs st2]. by destruct x.
Qed.

Lemma slots_app a b gm gs st :
  slots (a + b) gm gs st =
  ((slots a gm gs st).1 ++ (slots b gm gs (slots a gm gs st).2).1,
   (slots b gm gs (slots a gm gs st).2).2).
Proof.
  revert st. induction a as [|a IH]; intros st; cbn [Nat.add slots fst snd app];
    [by destruct (slots b gm gs st)|].
  destruct (next_slot gm gs st) as [x st1]. rewrite IH.
  by destruct (slots a gm gs st1) as [xs st2].
Qed.

Lemma wire_app xs ys : wire (xs ++ ys) = wire xs ++ wire ys.
Proof. unfold wire. by rewrite omap_app, fmap_app. Qed.

(** An open generator: its sender holds an open descriptor. *)
Definition sender_ready (L : gset Z) (s : Sender.t) : Prop :=
  Sender.fd_ s ∈ L /\ 0 <= Sender.fd_ s /\ stats_ok (Sender.stats_ s).

Lemma tx_frame_ok o m : tx_ok (GeneratorV2.tx_frame o m).
Proof.
  split; [done|]. exists (wire_layout m). unfold GeneratorV2.tx_frame, GeneratorV2.encoded.
  cbn [Sender.tx_data Sender.tx_len]. by rewrite encode_layout, length_wire_layout.
Qed.

Lemma tx_frame_bytes o (ms : list MarketDataMsg) :
  tx_bytes <$> (GeneratorV2.tx_frame o <$> ms) = wire_layout <$> ms.
Proof.
  rewrite <- list_fmap_compose. apply list_fmap_ext. intros i m _. simpl.
  unfold tx_bytes, GeneratorV2.tx_frame, GeneratorV2.encoded. simpl. by rewrite encode_layout.
Qed.

(** [send_or_fail] sends a prefix of the batch; on failure the message it reports
    is the first one not sent. *)
Lemma send_or_fail_spec o fuel batch g h L :
  live h = Some L -> sender_ready L (GeneratorV2.sender_ g) ->
  (length batch <= fuel)%nat -> (201 * (P + 1) <= fuel)%nat ->
  wp (GeneratorV2.send_or_fail o fuel batch g) (fun '(res, g') h' =>
    live h' = Some L /\ sender_ready L (GeneratorV2.sender_ g') /\
    GeneratorV2.stream g' = GeneratorV2.stream g /\
    exists k, (k <= length batch)%nat /\
      datagrams h' = datagrams h ++ take k (wire_layout <$> batch) /\
      res = match batch !! k with
            | None => GeneratorV2.Ok
            | Some m => GeneratorV2.Failed (seq_num m)
            end) h.
Proof.
  intros Hl (Hf & Hpos & Hst) Hlen Hfuel. unfold GeneratorV2.send_or_fail.
  destruct batch as [|m0 batch0]; [wp_step; split_and!; try done; exists 0%nat;
    by rewrite app_nil_r|].
  set (batch := m0 :: batch0) in *. unfold GeneratorV2.send_batch.
  assert (Hframes : Forall tx_ok (GeneratorV2.tx_frame o <$> batch))
    by (apply Forall_fmap, Forall_true; intros; apply tx_frame_ok).
  assert (Hlf : length (GeneratorV2.tx_frame o <$> batch) = length batch) by apply length_fmap.
  do 2 wp_step. replace (Z.of_nat (length batch))
    with (Z.of_nat (length (GeneratorV2.tx_frame o <$> batch))) at 1 by (by rewrite Hlf).
  unfold Sender.send_batch. rewrite (proj2 (Z.ltb_ge _ _) Hpos). cbn [orb andb default id].
  rewrite Nat2Z.id, firstn_all. wp_step.
  eapply wp_mono; [apply (batch_outer_spec fuel fuel _ _ 0 _ h L); try done; by rewrite Hlf|].
  intros [sent st'] h' (Hl' & Hn & Hs & again & _ & Hd). cbn [fst snd] in *.
  rewrite Z.sub_0_r, Hlf in *. rewrite tx_frame_bytes in Hs. repeat wp_step.
  assert (Hready : sender_ready L (Sender.set_stats (GeneratorV2.sender_ g) st'))
    by (split_and!; try done; by eapply stats_delta_ok).
  destruct (Z.eqb_spec sent (Z.of_nat (length batch))) as [->|Hne].
  { wp_step. split_and!; try done. exists (length batch). rewrite Nat2Z.id in Hs.
    split_and!; [done|done|]. by rewrite (proj2 (lookup_ge_None batch _)). }
  rewrite (proj2 (Z.ltb_ge sent 0)) by lia.
  destruct (lookup_lt_is_Some_2 batch (Z.to_nat sent)) as [m Hm]; [lia|]. rewrite Hm.
  wp_step. split_and!; try done. exists (Z.to_nat sent). rewrite Hm. split_and!; [lia|done|done].
Qed.

(** A run does not replace the socket. *)
Definition same_fd {A} (g : GeneratorV2.t) (p : A * GeneratorV2.t) : Prop :=
  Sender.fd_ (GeneratorV2.sender_ p.2) = Sender.fd_ (GeneratorV2.sender_ g).

Lemma send_or_fail_fd o fuel batch g : returns (GeneratorV2.send_or_fail o fuel batch g) (same_fd g).
Proof.
  unfold GeneratorV2.send_or_fail. destruct batch as [|m batch]; [by apply returns_ret|].
  eapply (returns_bind _ _ (same_fd g)).
  - unfold GeneratorV2.send_batch.
    eapply (returns_bind _ _ (fun p => Sender.fd_ p.2 = Sender.fd_ (GeneratorV2.sender_ g))).
    + unfold Sender.send_batch. destruct (_ || _); [by apply returns_ret|].
      eapply returns_bind; [apply returns_any|]. intros [k st] _. by apply returns_ret.
    + intros [sent s] Hs. by apply returns_ret.
  - intros [sent g1] Hg. by repeat (case_match || apply returns_ret).
Qed.

Lemma run_loop_fd o fuel iters left burst gm gs p g :
  returns (GeneratorV2.run_loop o fuel iters left burst gm gs p g) (same_fd g).
Proof.
  revert left p g. induction iters as [|iters IH]; intros left p g; cbn [GeneratorV2.run_loop];
    (destruct (left <=? 0); [by apply returns_ret|]); [by intros ???|].
  destruct (GeneratorV2.fill _ _ _ _) as [batch st].
  eapply returns_bind; [apply send_or_fail_fd|]. intros [res g1] Hg1.
  destruct res; try by apply returns_ret.
  eapply returns_bind; [apply returns_any|]. intros p' _ h a h' Ha. apply IH in Ha.
  unfold same_fd in *. simpl in *. congruence.
Qed.

Lemma v2_run_fd o fuel count rate seed gm gs burst g :
  returns (GeneratorV2.run o fuel count rate seed gm gs burst g) (same_fd g).
Proof.
  unfold GeneratorV2.run. destruct (_ <? _); [by apply returns_ret|].
  destruct (count <=? 0); [by apply returns_ret|].
  eapply returns_bind; [apply returns_any|]. intros p _ h a h' Ha. exact (run_loop_fd _ _ _ _ _ _ _ _ _ _ _ _ Ha).
Qed.

(** What a run leaves: the first [k] messages of [xs] went out, and the result
    says so. *)
Definition run_post (L : gset Z) (xs : list (option MarketDataMsg)) (h : history)
    (p : GeneratorV2.outcome * GeneratorV2.t) (h' : history) : Prop :=
  live h' = Some L /\ sender_ready L (GeneratorV2.sender_ p.2) /\
  GeneratorV2.running_ p.2 = false /\
  exists k, (k <= length (wire xs))%nat /\ datagrams h' = datagrams h ++ take k (wire xs) /\
    p.1 = match messages xs !! k with
          | None => GeneratorV2.Ok
          | Some m => GeneratorV2.Failed (seq_num m)
          end.

Lemma length_wire xs : length (wire xs) = length (messages xs).
Proof. apply length_fmap. Qed.

(** A burst that went out completely, then the rest. *)
Lemma run_post_app L xs ys h h1 p h2 :
  datagrams h1 = datagrams h ++ wire xs -> run_post L ys h1 p h2 -> run_post L (xs ++ ys) h p h2.
Proof.
  intros Hs (Hl & Hr & Hrun & k & Hk & Hs' & Hp). split_and!; try done.
  exists (length (wire xs) + k)%nat. rewrite wire_app, length_app. split_and!; [lia| |].
  - rewrite Hs', Hs, <- app_assoc. f_equal. rewrite take_app_add. done.
  - rewrite Hp. rewrite omap_app, lookup_app_r by (rewrite length_wire; lia).
    by replace (length (wire xs) + k - length (messages xs))%nat with k
      by (rewrite length_wire; lia).
Qed.

(** A burst that stopped after [k] messages. *)
Lemma run_post_stop L xs ys h h' s st k m :
  live h' = Some L -> sender_ready L s -> messages xs !! k = Some m ->
  datagrams h' = datagrams h ++ take k (wire xs) ->
  run_post L (xs ++ ys) h (GeneratorV2.Failed (seq_num m), GeneratorV2.mk false s st) h'.
Proof.
  intros Hl Hr Hm Hs. pose proof (lookup_lt_Some _ _ _ Hm) as Hlt.
  split_and!; try done. exists k. rewrite wire_app, length_app, length_wire.
  split_and!; [lia| |].
  - by rewrite Hs, take_app_le by (rewrite length_wire; lia).
  - by rewrite omap_app, lookup_app_l, Hm.
Qed.

Lemma v2_loop_spec o fuel iters left burst gm gs p g h L :
  live h = Some L -> sender_ready L (GeneratorV2.sender_ g) -> 1 <= burst ->
  (Z.to_nat left <= iters)%nat -> (Z.to_nat burst <= fuel)%nat -> (201 * (P + 1) <= fuel)%nat ->
  wp (GeneratorV2.run_loop o fuel iters left burst gm gs p g)
    (run_post L (slots (Z.to_nat left) gm gs (GeneratorV2.stream g)).1 h) h.
Proof.
  intros Hl Hr Hb Hit Hfuel Hfuel'. revert left p g h Hl Hr Hit.
  induction iters as [|iters IH]; intros left p g h Hl Hr Hit; cbn [GeneratorV2.run_loop].
  1,2: destruct (Z.leb_spec left 0) as [Hle|Hgt]; try lia.
  1,2: wp_step; replace (Z.to_nat left) with 0%nat by lia; split_and!; try done;
    exists 0%nat; by rewrite app_nil_r.
  set (n := Z.min burst left).
  rewrite fill_slots. set (st := GeneratorV2.stream g).
  replace (Z.to_nat left) with (Z.to_nat n + Z.to_nat (left - n))%nat by lia.
  rewrite slots_app. cbn [fst].
  pose proof (length_slots (Z.to_nat n) gm gs st) as Hln.
  destruct (slots (Z.to_nat n) gm gs st) as [xs st1]. cbn [fst snd] in *.
  wp_step. eapply wp_mono.
  { apply (send_or_fail_spec o fuel (messages xs) _ h L); [done|done| |done].
    pose proof (length_omap_le xs). lia. }
  intros [res g1] h1 (Hl1 & Hr1 & Hst1 & k & Hk & Hs1 & Hres). cbn [GeneratorV2.stream] in Hst1.
  destruct (messages xs !! k) as [m|] eqn:Hm; subst res.
  - wp_step. by eapply run_post_stop.
  - apply lookup_ge_None in Hm.
    rewrite take_ge in Hs1 by (rewrite length_fmap; lia).
    wp_step. eapply pace_quiet; [exact Hl1|]. intros p' h2 Hl2 Hs2. rewrite Hs1 in Hs2.
    eapply wp_mono; [apply (IH (left - n) p' g1 h2); [done|done|lia]|].
    intros q h3 Hpost. rewrite Hst1 in Hpost. by eapply run_post_app.
Qed.

Lemma v1_run_spec o fuel count rate seed gm gs g h L :
  live h = Some L -> UdpClient.fd (GeneratorV1.client_ g) ∈ L -> GeneratorV1.usable g = true ->
  0 < count -> (P < fuel)%nat ->
  let xs := (slots (Z.to_nat count) gm gs (seeded seed (GeneratorV1.stream g))).1 in
  wp (GeneratorV1.run o fuel count rate seed gm gs g) (fun '(ok, g') h' =>
    live h' = Some L /\ exists k, (k <= length (wire xs))%nat /\
      datagrams h' = datagrams h ++ take k (wire xs) /\ (ok = true <-> k = length (wire xs))) h.
Proof.
  intros Hl Hf Hu Hc Hfuel xs. unfold GeneratorV1.run. rewrite Hu. cbn [negb].
  rewrite (proj2 (Z.leb_gt count 0)) by lia. wp_step.
  eapply start_pacing_quiet; [exact Hl|]. intros p h' Hl' Hs'. rewrite <- Hs'.
  by apply v1_loop_spec.
Qed.

Lemma v2_run_spec o fuel count rate seed gm gs burst g h L :
  live h = Some L -> sender_ready L (GeneratorV2.sender_ g) -> 0 < count ->
  (Z.to_nat burst <= fuel)%nat -> (201 * (P + 1) <= fuel)%nat ->
  wp (GeneratorV2.run o fuel count rate seed gm gs burst g)
    (run_post L (slots (Z.to_nat count) gm gs (seeded seed (GeneratorV2.stream g))).1 h) h.
Proof.
  intros Hl Hr Hc Hfuel Hfuel'. unfold GeneratorV2.run. destruct Hr as (Hf & Hpos & Hst).
  rewrite (proj2 (Z.ltb_ge _ _) Hpos), (proj2 (Z.leb_gt count 0)) by lia. wp_step.
  eapply start_pacing_quiet; [exact Hl|]. intros p h' Hl' Hs'.
  eapply wp_mono; [apply v2_loop_spec; try done|].
  - destruct (Z.leb_spec burst 0); lia.
  - destruct (Z.leb_spec burst 0); lia.
  - intros q h2. unfold run_post. by rewrite Hs'.
Qed.

(** C10 (a generator run).  Generator v2 on an open sender, for any count, rate,
    seed, gap parameters and burst size and any behaviour of the network: the run
    finishes; the datagrams it sent are the wire encodings of a prefix of the
    message stream, in order and each exactly once, on every host; it succeeds
    exactly when that is the whole stream, and otherwise reports the sequence
    number of the first message not sent, having read no element outside the
    batch; the generator is no longer running and its socket is still open. *)
Theorem generator_v2_run o fuel count rate seed gm gs burst g h L :
  live h = Some L -> sender_ready L (GeneratorV2.sender_ g) -> 0 < count ->
  (Z.to_nat burst <= fuel)%nat -> (201 * (P + 1) <= fuel)%nat ->
  wp (GeneratorV2.run o fuel count rate seed gm gs burst g)
    (run_post L (slots (Z.to_nat count) gm gs (seeded seed (GeneratorV2.stream g))).1 h) h.
Proof. apply v2_run_spec. Qed.

End runs.

(** C35 (bursts do not change the stream).  A complete run of generator v1 and a
    complete run of generator v2 from the same seed put the same datagrams on the
    network in the same order, whatever the burst size, the rates, the hosts'
    byte orders and the two networks do. *)
Theorem generators_agree K1 K2 P1 P2 o1 o2 fuel1 fuel2 count rate1 rate2 seed gm gs burst
    g1 g2 h1 h2 L1 L2 g1' g2' h1' h2' :
  @KernelOk P1 K1 -> @KernelOk P2 K2 ->
  live h1 = Some L1 -> UdpClient.fd (GeneratorV1.client_ g1) ∈ L1 ->
  GeneratorV1.usable g1 = true -> (P1 < fuel1)%nat ->
  live h2 = Some L2 -> sender_ready L2 (GeneratorV2.sender_ g2) ->
  (Z.to_nat burst <= fuel2)%nat -> (201 * (P2 + 1) <= fuel2)%nat -> 0 < count ->
  symbol_count_ (GeneratorV1.stream g1) = symbol_count_ (GeneratorV2.stream g2) ->
  @GeneratorV1.run K1 o1 fuel1 count rate1 seed gm gs g1 h1 = Some ((true, g1'), h1') ->
  @GeneratorV2.run K2 o2 fuel2 count rate2 seed gm gs burst g2 h2
    = Some ((GeneratorV2.Ok, g2'), h2') ->
  exists ds, datagrams h1' = datagrams h1 ++ ds /\ datagrams h2' = datagrams h2 ++ ds.
Proof.
  intros HK1 HK2 Hl1 Hf1 Hu1 Hfuel1 Hl2 Hr2 Hb2 Hfuel2 Hc Hsc E1 E2.
  pose proof (v1_run_spec o1 fuel1 count rate1 seed gm gs g1 h1 L1 Hl1 Hf1 Hu1 Hc Hfuel1) as H1.
  pose proof (v2_run_spec o2 fuel2 count rate2 seed gm gs burst g2 h2 L2 Hl2 Hr2 Hc Hb2 Hfuel2)
    as H2.
  unfold wp in H1, H2. rewrite E1 in H1. rewrite E2 in H2.
  unfold seeded in H1, H2. rewrite Hsc in H1.
  set (xs := (slots _ _ _ _).1) in *.
  destruct H1 as (_ & k1 & _ & Hs1 & Hk1). destruct H2 as (_ & _ & _ & k2 & Hk2 & Hs2 & Hok2).
  rewrite (proj1 Hk1 eq_refl), firstn_all in Hs1. cbn [fst] in Hok2.
  destruct (messages xs !! k2) as [m|] eqn:Hm; [done|]. apply lookup_ge_None in Hm.
  rewrite take_ge in Hs2 by (rewrite length_wire; lia). by exists (wire xs).
Qed.

(** Both generators over the kernel that interrupts every call once. *)
Definition demo_v1 : GeneratorV1.t := GeneratorV1.mk (UdpClient.mk 3 true) (mkGen 1 1 0).
Definition demo_v2 : GeneratorV2.t := GeneratorV2.mk true demo_sender (mkGen 1 1 0).

Lemma demo_v2_ready : sender_ready {[3]} (GeneratorV2.sender_ demo_v2).
Proof. split_and!; [simpl; set_solver|done|exact demo_stats_ok]. Qed.

Lemma generator_v2_run_witness :
  wp (@GeneratorV2.run demo_kernel little_endian 402 20 1000 42 3 1 8 demo_v2)
    (run_post {[3]} (slots 20 3 1 (seeded 42 (mkGen 1 1 0))).1 demo_history) demo_history.
Proof.
  apply (@generator_v2_run 1 demo_kernel demo_kernel_ok little_endian 402 20 1000 42 3 1 8 demo_v2
    demo_history {[3]}).
  - vm_compute. reflexivity.
  - exact demo_v2_ready.
  - reflexivity.
  - simpl. lia.
  - lia.
Defined.

(** Runs the generator and keeps the final history. *)
Definition final {A} (r : option (A * history)) : history := from_option snd [] r.

Lemma generators_agree_witness :
  exists ds,
    datagrams (final (@GeneratorV1.run demo_kernel big_endian 5 20 0 42 3 1 demo_v1 demo_history))
      = [] ++ ds /\
    datagrams (final (@GeneratorV2.run demo_kernel little_endian 402 20 1000 42 3 1 8 demo_v2
      demo_history)) = [] ++ ds.
Proof.
  destruct (@GeneratorV1.run demo_kernel big_endian 5 20 0 42 3 1 demo_v1 demo_history)
    as [[[b1 g1] h1]|] eqn:E1; [|vm_compute in E1; discriminate].
  destruct (@GeneratorV2.run demo_kernel little_endian 402 20 1000 42 3 1 8 demo_v2 demo_history)
    as [[[b2 g2] h2]|] eqn:E2; [|vm_compute in E2; discriminate].
  assert (Hb1 : b1 = true) by (vm_compute in E1; congruence).
  assert (Hb2 : b2 = GeneratorV2.Ok) by (vm_compute in E2; congruence).
  subst b1 b2.
  apply (generators_agree demo_kernel demo_kernel 1 1 big_endian little_endian 5 402 20 0 1000 42
    3 1 8 demo_v1 demo_v2 demo_history demo_history {[3]} {[3]} g1 g2 h1 h2).
  - exact demo_kernel_ok.
  - exact demo_kernel_ok.
  - vm_compute. reflexivity.
  - simpl. set_solver.
  - reflexivity.
  - lia.
  - vm_compute. reflexivity.
  - exact demo_v2_ready.
  - simpl. lia.
  - lia.
  - reflexivity.
  - reflexivity.
  - exact E1.
  - exact E2.
Defined.
