(* ===== verification/Receiver.v ===== *)
(** * Receiver: the UDP receiver of engine v2

    Models [Receiver] of [src/common/net/v2/udp_receiver.cpp] (the Linux branch).
    A frame's [data] pointer is modelled by the buffer it points to. *)

From Stdlib Require Import ZArith Lia String.
From stdpp Require Import base numbers list option gmap sets.
From S2P Require Import Prelude Os Sender.

Local Open Scope Z_scope.

(** [struct RxFrame]: [rf_data] is [None] for a null pointer. *)
Record RxFrame := mkFrame {
  rf_data : option (list Z);
  rf_capacity : Z;
  rf_len : Z;
  rf_peer : sockaddr;
  rf_truncated : bool
}.

Definition reset_frame (f : RxFrame) : RxFrame :=
  mkFrame (rf_data f) (rf_capacity f) 0 no_addr false.

(** [frame.data == nullptr || frame.capacity == 0] *)
Definition unusable (f : RxFrame) : bool :=
  match rf_data f with None => true | Some _ => rf_capacity f =? 0 end.

Module Receiver.

Record Config := mkConfig {
  local_ip : option string;
  local_port : Z;
  remote_ip : option string;
  remote_port : Z;
  rcvbuf_bytes : Z;
  connect_socket : bool
}.

Record Stats := mkStats {
  received_packets : Z;
  received_bytes : Z;
  received_errors : Z;
  eagain : Z
}.

(** The members of [Receiver]. *)
Record t := mk {
  fd_ : Z;
  epfd_ : Z;
  connected_ : bool;
  remote_ : sockaddr;
  stats_ : Stats
}.

Definition construct : t := mk (-1) (-1) false no_addr (mkStats 0 0 0 0).

Definition set_stats (r : t) (st : Stats) : t :=
  mk (fd_ r) (epfd_ r) (connected_ r) (remote_ r) st.

Definition inc_received (bytes : Z) (st : Stats) : Stats :=
  mkStats (received_packets st +% 1) (received_bytes st +% bytes) (received_errors st) (eagain st).

Definition inc_errors (st : Stats) : Stats :=
  mkStats (received_packets st) (received_bytes st) (received_errors st +% 1) (eagain st).

Definition inc_eagain (st : Stats) : Stats :=
  mkStats (received_packets st) (received_bytes st) (received_errors st) (eagain st +% 1).

(** The frame a datagram leaves: its bytes at the start of the buffer. *)
Definition deliver (r : t) (f : RxFrame) (d : dgram) : RxFrame :=
  mkFrame ((fun buf => memcpy_at buf 0 (dg_data d)) <$> rf_data f) (rf_capacity f) (dg_len d)
    (if connected_ r then remote_ r else dg_peer d) (dg_trunc d).

Section receiver.
Context `{Kernel}.

Definition close (r : t) : M t :=
  _ ← (if 0 <=? epfd_ r then _ ← sys (Close (epfd_ r)); mret tt else mret tt);
  _ ← (if 0 <=? fd_ r then _ ← sys (Close (fd_ r)); mret tt else mret tt);
  mret (mk (-1) (-1) false no_addr (stats_ r)).

Definition open (cfg : Config) (r : t) : M (bool * t) :=
  r ← close r;
  if local_port cfg =? 0 then mret (false, r) else
  if connect_socket cfg && (blank (remote_ip cfg) || (remote_port cfg =? 0))
  then mret (false, r) else
  rp ← sys (Socket (Z.lor SOCK_DGRAM (Z.lor SOCK_NONBLOCK SOCK_CLOEXEC)));
  let sockfd := ret rp in
  if sockfd =? -1 then mret (false, r) else
  rp ← sys (SetSockOpt sockfd SO_REUSEADDR 1);
  if ret rp =? -1 then close_and sockfd (false, r) else
  buf_ok ← (if 0 <? rcvbuf_bytes cfg
            then rp ← sys (SetSockOpt sockfd SO_RCVBUF (rcvbuf_bytes cfg));
                 mret (negb (ret rp =? -1))
            else mret true);
  if negb buf_ok then close_and sockfd (false, r) else
  match local_address (local_ip cfg) with
  | None => close_and sockfd (false, r)
  | Some addr =>
      rp ← sys (Bind sockfd (mkAddr addr (local_port cfg)));
      if ret rp =? -1 then close_and sockfd (false, r) else
      if connect_socket cfg then
        match remote_address (remote_ip cfg) with
        | None => close_and sockfd (false, r)
        | Some raddr =>
            let remote := mkAddr raddr (remote_port cfg) in
            rp ← sys (Connect sockfd remote);
            if ret rp =? -1 then close_and sockfd (false, r)
            else mret (true, mk sockfd (epfd_ r) true remote (stats_ r))
        end
      else mret (true, mk sockfd (epfd_ r) false no_addr (stats_ r))
  end.

(** The [for (;;)] of [receive_one]. *)
Fixpoint recv_loop (fuel : nat) (r : t) (frame : RxFrame) (st : Stats)
    : M (bool * RxFrame * Stats) :=
  match fuel with
  | O => out_of_fuel
  | S fuel =>
      rp ← sys (RecvMsg (fd_ r) (rf_capacity frame));
      if 0 <=? ret rp then
        match r_msgs rp with
        | d :: _ => mret (true, deliver r frame d, inc_received (dg_len d) st)
        | [] => mret (true, frame, inc_received 0 st)
        end
      else if errno rp =? EINTR then recv_loop fuel r frame st
      else if (errno rp =? EAGAIN) || (errno rp =? EWOULDBLOCK)
      then mret (false, frame, inc_eagain st)
      else mret (false, frame, inc_errors st)
  end.

Definition receive_one (fuel : nat) (frame : RxFrame) (r : t) : M (bool * RxFrame * t) :=
  let frame := reset_frame frame in
  if (fd_ r <? 0) || unusable frame
  then mret (false, frame, set_stats r (inc_errors (stats_ r)))
  else
    '(ok, frame, st) ← recv_loop fuel r frame (stats_ r);
    mret (ok, frame, set_stats r st).

(** The preparation loop: the frames reset so far, and whether all are usable. *)
Fixpoint prepare (frames : list RxFrame) : bool * list RxFrame :=
  match frames with
  | [] => (true, [])
  | f :: frames =>
      let f := reset_frame f in
      if unusable f then (false, f :: frames)
      else let '(ok, frames) := prepare frames in (ok, f :: frames)
  end.

(** Storing the [n] datagrams received. *)
Fixpoint deliver_all (r : t) (frames : list RxFrame) (ds : list dgram) (st : Stats)
    : list RxFrame * Stats :=
  match frames, ds with
  | f :: frames, d :: ds =>
      let '(frames, st) := deliver_all r frames ds (inc_received (dg_len d) st) in
      (deliver r f d :: frames, st)
  | _, _ => (frames, st)
  end.

(** The [for (;;)] of [receive_batch]. *)
Fixpoint batch_loop (fuel : nat) (r : t) (frames : list RxFrame) (st : Stats)
    : M (Z * list RxFrame * Stats) :=
  match fuel with
  | O => out_of_fuel
  | S fuel =>
      rp ← sys (RecvMmsg (fd_ r) (rf_capacity <$> frames));
      let n := ret rp in
      if 0 <? n then
        let '(frames, st) := deliver_all r frames (r_msgs rp) st in
        mret (n, frames, st)
      else if (n =? -1) && (errno rp =? EINTR) then batch_loop fuel r frames st
      else if (n =? -1) && ((errno rp =? EAGAIN) || (errno rp =? EWOULDBLOCK))
      then mret (0, frames, inc_eagain st)
      else mret (-1, frames, if n =? -1 then inc_errors st else st)
  end.

Definition receive_batch (fuel : nat) (frames : option (list RxFrame)) (count : Z) (r : t)
    : M (Z * list RxFrame * t) :=
  if (fd_ r <? 0) || (count =? 0) then mret (-1, default [] frames, r) else
  match frames with
  | None => mret (-1, [], set_stats r (inc_errors (stats_ r)))
  | Some fs =>
      let '(ok, used) := prepare (take (Z.to_nat count) fs) in
      let rest := drop (Z.to_nat count) fs in
      if negb ok then mret (-1, used ++ rest, set_stats r (inc_errors (stats_ r))) else
      '(n, used, st) ← batch_loop fuel r used (stats_ r);
      mret (n, used ++ rest, set_stats r st)
  end.

Definition ensure_epoll (r : t) : M (bool * t) :=
  if fd_ r <? 0 then mret (false, r) else
  if 0 <=? epfd_ r then mret (true, r) else
  rp ← sys EpollCreate;
  let epfd := ret rp in
  if epfd =? -1 then mret (false, r) else
  rp ← sys (EpollCtlAdd epfd (fd_ r) EPOLLIN);
  if ret rp =? -1 then close_and epfd (false, r)
  else mret (true, mk (fd_ r) epfd (connected_ r) (remote_ r) (stats_ r)).

(** The [for (;;)] of [epoll_receive]: [None] to go on with [receive_batch]. *)
Fixpoint wait_loop (fuel : nat) (timeout_ms : Z) (r : t) (st : Stats) : M (option Z * Stats) :=
  match fuel with
  | O => out_of_fuel
  | S fuel =>
      rp ← sys (EpollWait (epfd_ r) 1 timeout_ms);
      let n := ret rp in
      if 0 <? n then
        let events := match r_events rp with (_, e) :: _ => e | [] => 0 end in
        if negb (Z.land events (Z.lor EPOLLERR EPOLLHUP) =? 0)
        then mret (Some (-1), inc_errors st) else mret (None, st)
      else if n =? 0 then mret (Some 0, st)
      else if errno rp =? EINTR then wait_loop fuel timeout_ms r st
      else mret (Some (-1), inc_errors st)
  end.

Definition epoll_receive (fuel : nat) (frames : option (list RxFrame)) (count timeout_ms : Z)
    (r : t) : M (Z * list RxFrame * t) :=
  '(ok, r) ← ensure_epoll r;
  if negb ok then mret (-1, default [] frames, set_stats r (inc_errors (stats_ r))) else
  '(res, st) ← wait_loop fuel timeout_ms r (stats_ r);
  let r := set_stats r st in
  match res with
  | Some n => mret (n, default [] frames, r)
  | None => receive_batch fuel frames count r
  end.

(** Move construction and move assignment: [(this, other)] afterwards. *)
Definition moved_from (other : t) : t := mk (-1) (-1) false no_addr (stats_ other).

Definition move_construct (other : t) : t * t := (other, moved_from other).

Definition move_assign (this other : t) : M (t * t) :=
  _ ← close this; mret (other, moved_from other).

End receiver.

End Receiver.

(** ** What is received *)

(** A frame over a buffer of its capacity. *)
Definition frame_ok (f : RxFrame) : Prop :=
  0 < rf_capacity f /\
  exists buf, rf_data f = Some buf /\ Z.of_nat (length buf) = rf_capacity f.

Lemma reset_frame_ok f : frame_ok f -> frame_ok (reset_frame f).
Proof. done. Qed.

Lemma frame_ok_usable f : frame_ok f -> unusable f = false.
Proof.
  intros [Hc (buf & Hd & Hl)]. unfold unusable. rewrite Hd. by apply Z.eqb_neq; lia.
Qed.

Lemma prepare_usable fs : Forall frame_ok fs -> Receiver.prepare fs = (true, reset_frame <$> fs).
Proof.
  induction 1 as [|f fs Hf _ IH]; [done|]. cbn [Receiver.prepare].
  rewrite frame_ok_usable, IH by done. done.
Qed.

Lemma deliver_ok r f d : frame_ok f -> frame_ok (Receiver.deliver r f d).
Proof.
  intros [Hc (buf & Hd & Hl)]. split; [done|]. unfold Receiver.deliver. cbn [rf_data rf_capacity].
  rewrite Hd. eexists. split; [done|]. by rewrite length_memcpy_at.
Qed.

(** Packets and bytes added to the statistics, everything else kept. *)
Definition received_delta (st st' : Receiver.Stats) (ds : list dgram) : Prop :=
  Receiver.received_packets st' = Receiver.received_packets st +% Z.of_nat (length ds) /\
  Receiver.received_bytes st'
    = Receiver.received_bytes st +% foldr (fun d acc => dg_len d + acc) 0 ds.

Definition rstats_ok (st : Receiver.Stats) : Prop :=
  is_u 64 (Receiver.received_packets st) /\ is_u 64 (Receiver.received_bytes st).

Lemma received_delta_nil st st' :
  rstats_ok st -> Receiver.received_packets st' = Receiver.received_packets st ->
  Receiver.received_bytes st' = Receiver.received_bytes st -> received_delta st st' [].
Proof.
  intros [? ?] Hp Hb. unfold received_delta. rewrite Hp, Hb. simpl. rewrite !Z.add_0_r, !wrapu_small; done.
Qed.

Lemma deliver_all_spec r fs ds st :
  rstats_ok st -> (length ds <= length fs)%nat ->
  exists st', Receiver.deliver_all r fs ds st
    = (zip_with (Receiver.deliver r) fs ds ++ drop (length ds) fs, st') /\
    received_delta st st' ds.
Proof.
  revert fs st. induction ds as [|d ds IH]; intros fs st Hst Hlen.
  { exists st. destruct fs; (split; [done|by apply received_delta_nil]). }
  destruct fs as [|f fs]; [simpl in Hlen; lia|]. cbn [Receiver.deliver_all].
  destruct (IH fs (Receiver.inc_received (dg_len d) st)) as (st' & -> & Hp & Hb).
  { split; apply wrapu_range; lia. }
  { simpl in Hlen. lia. }
  exists st'. split; [done|]. unfold received_delta in *. rewrite Hp, Hb. simpl.
  rewrite !wrapu_add_l. split; f_equal; lia.
Qed.

(** ** What the caller sees *)

(** [f'] is [f] after datagram [d] was stored in it. *)
Record carries (r : Receiver.t) (f : RxFrame) (d : dgram) (f' : RxFrame) : Prop := {
  carries_data : exists buf, rf_data f = Some buf /\
    rf_data f' = Some (dg_data d ++ drop (Z.to_nat (dg_len d)) buf);
  carries_capacity : rf_capacity f' = rf_capacity f;
  carries_len : rf_len f' = dg_len d;
  carries_trunc : rf_truncated f' = dg_trunc d;
  carries_peer : rf_peer f' = if Receiver.connected_ r then Receiver.remote_ r else dg_peer d
}.

(** [f'] is [f] with nothing received. *)
Record emptied (f f' : RxFrame) : Prop := {
  emptied_data : rf_data f' = rf_data f;
  emptied_capacity : rf_capacity f' = rf_capacity f;
  emptied_len : rf_len f' = 0;
  emptied_trunc : rf_truncated f' = false;
  emptied_peer : rf_peer f' = no_addr
}.

(** The frames [fs] after the datagrams [ds] arrived, one per frame. *)
Definition filled (r : Receiver.t) (fs : list RxFrame) (ds : list dgram) (fs' : list RxFrame)
    : Prop :=
  length fs' = length fs /\ (length ds <= length fs)%nat /\
  forall i f f', fs !! i = Some f -> fs' !! i = Some f' ->
    match ds !! i with Some d => carries r f d f' | None => emptied f f' end.

Lemma deliver_carries r f d :
  frame_ok f -> dgram_ok (rf_capacity f) d -> carries r f d (Receiver.deliver r (reset_frame f) d).
Proof.
  intros [_ (buf & Hd & Hl)] (Hlen & Hdl & _). split; try done. exists buf. split; [done|].
  cbn [Receiver.deliver reset_frame rf_data]. rewrite Hd. cbn [fmap option_fmap option_map].
  f_equal. change buf with ([] ++ buf) at 1. rewrite memcpy_at_end by (simpl; lia).
  cbn [app]. do 2 f_equal. lia.
Qed.

Lemma deliver_filled r fs ds caps :
  Forall frame_ok fs -> caps `prefix_of` (rf_capacity <$> fs) -> Forall2 dgram_ok caps ds ->
  filled r fs ds (zip_with (Receiver.deliver r) (reset_frame <$> fs) ds
                  ++ drop (length ds) (reset_frame <$> fs)).
Proof.
  intros Hok Hpre Hds. pose proof (prefix_length _ _ Hpre) as Hpl.
  pose proof (Forall2_length _ _ _ Hds) as Hdl. rewrite length_fmap in Hpl.
  split_and!; [rewrite length_app, length_zip_with, length_drop, length_fmap; lia|lia|].
  intros i f f' Hf Hf'. destruct (ds !! i) as [d|] eqn:Hd.
  - pose proof (lookup_lt_Some _ _ _ Hd) as Hi.
    rewrite lookup_app_l in Hf' by (rewrite length_zip_with, length_fmap; lia).
    rewrite lookup_zip_with, list_lookup_fmap, Hf, Hd in Hf'. simplify_eq/=.
    apply deliver_carries; [by apply (proj1 (Forall_lookup _ _) Hok i)|].
    destruct (Forall2_lookup_r _ _ _ _ _ Hds Hd) as (cap & Hc & Hdok).
    apply (prefix_lookup_Some _ _ _ _ Hc) in Hpre. rewrite list_lookup_fmap, Hf in Hpre.
    by simplify_eq/=.
  - apply lookup_ge_None in Hd.
    rewrite lookup_app_r in Hf' by (rewrite length_zip_with, length_fmap; lia).
    rewrite length_zip_with, length_fmap, lookup_drop, list_lookup_fmap in Hf'.
    replace (length ds + (i - (length fs `min` length ds)))%nat with i in Hf' by lia.
    rewrite Hf in Hf'. by simplify_eq/=.
Qed.

Section receiving.
Context {P : nat} `{KernelOk P}.

(** The result of a batch: [ds] are the datagrams that arrived. *)
Definition batch_result (r : Receiver.t) (fs : list RxFrame) (h : history)
    (n : Z) (fs' : list RxFrame) (h' : history) (ds : list dgram) : Prop :=
  arrived h' = arrived h ++ ds /\
  fs' = zip_with (Receiver.deliver r) fs ds ++ drop (length ds) fs /\
  -1 <= n <= Z.of_nat (length fs) /\ Z.max 0 n = Z.of_nat (length ds) /\
  exists caps, caps `prefix_of` (rf_capacity <$> fs) /\ Forall2 dgram_ok caps ds.

Lemma batch_result_none r fs h n h' :
  arrived h' = arrived h -> -1 <= n <= 0 -> batch_result r fs h n fs h' [].
Proof.
  intros Ha Hn. split_and!; try lia.
  - by rewrite app_nil_r.
  - by destruct fs.
  - simpl. lia.
  - exists []. split; [apply prefix_nil|constructor].
Qed.

Lemma receive_loop_spec fuel r fs st h L :
  live h = Some L -> Receiver.fd_ r ∈ L -> rstats_ok st -> (P - interrupted h < fuel)%nat ->
  wp (Receiver.batch_loop fuel r fs st) (fun '(n, fs', st') h' =>
    live h' = Some L /\ exists ds, batch_result r fs h n fs' h' ds /\ received_delta st st' ds) h.
Proof.
  intros Hl Hf Hst. revert h Hl. induction fuel as [|fuel IH]; intros h Hl Hfuel; [lia|].
  cbn [Receiver.batch_loop]. repeat wp_step. set (c := RecvMmsg _ _). set (rp := kernel h c).
  assert (Hl' : live ((c, rp) :: h) = Some L)
    by (apply live_use; try done; by apply Forall_singleton).
  destruct (Z.ltb_spec 0 (ret rp)) as [Hn|Hn].
  { destruct (kernel_recvmmsg h (Receiver.fd_ r) (rf_capacity <$> fs)) as [Hlen (cs & Hcs & Hok)];
      [unfold rp, c in Hn; lia|]. fold c rp in Hlen, Hok.
    pose proof (Forall2_length _ _ _ Hok) as Hcl.
    pose proof (prefix_length _ _ Hcs) as Hpl. rewrite length_fmap in Hpl.
    destruct (deliver_all_spec r fs (r_msgs rp) st Hst) as (st' & -> & Hd); [lia|].
    wp_step. split; [done|]. exists (r_msgs rp). split; [|done]. split_and!; try done; try lia.
    - simpl. by rewrite (proj2 (Z.ltb_lt _ _) Hn).
    - by exists cs. }
  assert (Hnone : arrived ((c, rp) :: h) = arrived h).
  { apply arrived_quiet. simpl. by rewrite (proj2 (Z.ltb_ge _ _) Hn). }
  assert (Hstop : forall n st', -1 <= n <= 0 ->
    Receiver.received_packets st' = Receiver.received_packets st ->
    Receiver.received_bytes st' = Receiver.received_bytes st ->
    wp (mret (n, fs, st')) (fun '(n, fs', st') h' => live h' = Some L /\
      exists ds, batch_result r fs h n fs' h' ds /\ received_delta st st' ds) ((c, rp) :: h)).
  { intros n st' Hn' Hp Hb. wp_step. split; [done|]. exists [].
    split; [by apply batch_result_none|by apply received_delta_nil]. }
  destruct (Z.eqb_spec (ret rp) (-1)) as [Hm|Hm]; cbn [andb]; [|by apply Hstop].
  destruct (Z.eqb_spec (errno rp) EINTR) as [He|He].
  - destruct (interrupted_more h c Hm He) as [Hlt Hi]. fold rp in Hi.
    eapply wp_mono; [apply (IH _ Hl'); rewrite Hi; lia|].
    intros [[n fs'] st'] h' (Hl2 & ds & Hres & Hd). unfold batch_result in Hres.
    rewrite Hnone in Hres. split; [done|]. by exists ds.
  - destruct (_ || _); by apply Hstop.
Qed.

Lemma batch_result_ok r fs h n fs' h' ds :
  Forall frame_ok fs -> batch_result r fs h n fs' h' ds -> Forall frame_ok fs'.
Proof.
  intros Hok (_ & -> & _). apply Forall_app. split; [|by apply Forall_drop].
  revert ds. induction Hok as [|f fs Hf _ IH]; intros [|d ds]; simpl; constructor;
    [by apply deliver_ok|apply IH].
Qed.

(** What [receive_batch] does with frames [fs]. *)
Definition batch_post (L : gset Z) (r : Receiver.t) (fs : list RxFrame) (h : history)
    (res : Z * list RxFrame * Receiver.t) (h' : history) : Prop :=
  let '(n, fs', r') := res in
  live h' = Some L /\ r' = Receiver.set_stats r (Receiver.stats_ r') /\ Forall frame_ok fs' /\
  exists ds, batch_result r (reset_frame <$> fs) h n fs' h' ds /\
    received_delta (Receiver.stats_ r) (Receiver.stats_ r') ds.

Lemma receive_batch_spec fuel r fs h L :
  live h = Some L -> Receiver.fd_ r ∈ L -> 0 <= Receiver.fd_ r -> Forall frame_ok fs -> fs <> [] ->
  rstats_ok (Receiver.stats_ r) -> (P < fuel)%nat ->
  wp (Receiver.receive_batch fuel (Some fs) (Z.of_nat (length fs)) r) (batch_post L r fs h) h.
Proof.
  intros Hl Hf Hpos Hok Hne Hst Hfuel. unfold Receiver.receive_batch.
  assert (Hlen : 0 < Z.of_nat (length fs)) by (destruct fs; simpl; lia || done).
  rewrite (proj2 (Z.ltb_ge _ _) Hpos), (proj2 (Z.eqb_neq _ _)) by lia. cbn [orb].
  rewrite Nat2Z.id, firstn_all, drop_all, prepare_usable by done. cbn [negb].
  wp_step. eapply wp_mono; [apply (receive_loop_spec fuel r _ _ h L); try done; lia|].
  intros [[n fs'] st'] h' (Hl' & ds & Hres & Hd). wp_step. rewrite app_nil_r.
  split_and!; try done; [|by exists ds].
  eapply batch_result_ok; [|exact Hres]. apply Forall_fmap. revert Hok.
  apply List.Forall_impl. intros f. by apply reset_frame_ok.
Qed.

(** The outcome of a batch, for the caller. *)
Definition receive_post (L : gset Z) (r : Receiver.t) (fs : list RxFrame) (h : history)
    (res : Z * list RxFrame * Receiver.t) (h' : history) : Prop :=
  let '(n, fs', r') := res in
  live h' = Some L /\ r' = Receiver.set_stats r (Receiver.stats_ r') /\ Forall frame_ok fs' /\
  exists ds, arrived h' = arrived h ++ ds /\ -1 <= n /\ Z.max 0 n = Z.of_nat (length ds) /\
    filled r fs ds fs' /\ received_delta (Receiver.stats_ r) (Receiver.stats_ r') ds.

(** C8 (receiving a batch).  On an open receiver with usable frames,
    [receive_batch] finishes and returns -1, 0 or the number of datagrams that
    arrived, at most one per frame; the i-th frame then holds exactly the i-th
    datagram (its bytes at the start of its buffer, its length, truncation flag
    and peer) and the others are reset with their buffers untouched; every
    buffer keeps its size, every datagram that arrived is in a frame and counted
    once with its bytes. *)
Theorem receiver_receive_batch fuel r fs h L :
  live h = Some L -> Receiver.fd_ r ∈ L -> 0 <= Receiver.fd_ r -> Forall frame_ok fs -> fs <> [] ->
  rstats_ok (Receiver.stats_ r) -> (P < fuel)%nat ->
  wp (Receiver.receive_batch fuel (Some fs) (Z.of_nat (length fs)) r) (receive_post L r fs h) h.
Proof.
  intros Hl Hf Hpos Hok Hne Hst Hfuel.
  eapply wp_mono; [by apply (receive_batch_spec fuel r fs h L)|].
  intros [[n fs'] r'] h' (Hl' & Er & Hok' & ds & (Ha & -> & Hn & Hnd & caps & Hpre & Hds) & Hd).
  split_and!; try done. exists ds. split_and!; try done; [lia|].
  apply (deliver_filled r fs ds caps); [done| |done]. by rewrite <- list_fmap_compose in Hpre.
Qed.

(** ** Descriptors *)

(** The receiver holds its socket and perhaps an epoll instance on top of [L]. *)
Definition holds (L : gset Z) (r : Receiver.t) (h : history) : Prop :=
  live h = Some (L ∪ owned (Receiver.fd_ r) ∪ owned (Receiver.epfd_ r)) /\
  owned (Receiver.fd_ r) ## L /\ owned (Receiver.epfd_ r) ## L ∪ owned (Receiver.fd_ r) /\
  (0 <= Receiver.epfd_ r -> 0 <= Receiver.fd_ r).

Lemma receiver_close_spec L r h :
  holds L r h ->
  wp (Receiver.close r) (fun r' h' => live h' = Some L /\
    r' = Receiver.mk (-1) (-1) false no_addr (Receiver.stats_ r)) h.
Proof.
  intros (Hl & Hd1 & Hd2 & _). unfold Receiver.close.
  eapply wp_close_owned; [exact Hl|set_solver|]. intros h1 Hl1.
  eapply wp_close_owned; [exact Hl1|set_solver|]. intros h2 Hl2. wp_step.
  split; [|done]. rewrite Hl2. f_equal. set_solver.
Qed.

Lemma holds_closed L h st : live h = Some L -> holds L (Receiver.mk (-1) (-1) false no_addr st) h.
Proof.
  intros Hl. unfold holds. cbn [Receiver.fd_ Receiver.epfd_]. rewrite owned_neg by lia.
  split_and!; [rewrite Hl; f_equal; set_solver|set_solver|set_solver|lia].
Qed.

Lemma holds_open L h r fd :
  live h = Some (L ∪ {[fd]}) -> 0 <= fd -> fd ∉ L -> Receiver.fd_ r = fd ->
  Receiver.epfd_ r = -1 -> holds L r h.
Proof.
  intros Hl Hp Hn Hf He. unfold holds. rewrite Hf, He, owned_pos, (owned_neg (-1)) by lia.
  split_and!; [rewrite Hl; f_equal; set_solver|set_solver|set_solver|lia].
Qed.

Lemma receiver_open_spec L cfg r h :
  holds L r h ->
  wp (Receiver.open cfg r) (fun '(ok, r') h' => holds L r' h' /\
    ok = (0 <=? Receiver.fd_ r') /\ Receiver.stats_ r' = Receiver.stats_ r) h.
Proof.
  intros Hh. unfold Receiver.open. wp_step.
  eapply wp_mono; [by apply receiver_close_spec|]. intros r1 h1 [Hl1 ->].
  open_step L; [wp_step; split; [by apply holds_closed|done]|].
  open_step L; [wp_step; split; [by apply holds_closed|done]|].
  wp_step. eapply wp_open; [exact Hl1|done|constructor| |].
  { intros rp h' Hr Hl'. cbv beta zeta. rewrite Hr, Z.eqb_refl. wp_step.
    split; [by apply holds_closed|done]. }
  intros rp h' Hr Hf Hl'. cbv beta zeta. rewrite (proj2 (Z.eqb_neq _ _)) by lia.
  repeat open_step L; try (split; [by apply holds_closed|done]);
    (split; [by eapply holds_open; [eassumption|..]|]);
    cbn [Receiver.fd_]; rewrite (proj2 (Z.leb_le _ _) Hr); done.
Qed.

Lemma ensure_epoll_spec L r h :
  holds L r h ->
  wp (Receiver.ensure_epoll r) (fun '(ok, r') h' => holds L r' h' /\
    r' = Receiver.mk (Receiver.fd_ r) (Receiver.epfd_ r') (Receiver.connected_ r)
      (Receiver.remote_ r) (Receiver.stats_ r) /\ arrived h' = arrived h /\
    (ok = true -> 0 <= Receiver.fd_ r' /\ 0 <= Receiver.epfd_ r')) h.
Proof.
  intros Hh. unfold Receiver.ensure_epoll.
  destruct (Z.ltb_spec (Receiver.fd_ r) 0); [wp_step; split_and!; try done; by destruct r|].
  destruct (Z.leb_spec 0 (Receiver.epfd_ r)) as [|He]; [wp_step; split_and!; try done; by destruct r|].
  destruct Hh as (Hl & Hd1 & _ & Himp). rewrite (owned_pos (Receiver.fd_ r)), owned_neg in * by lia.
  replace (L ∪ {[Receiver.fd_ r]} ∪ ∅) with (L ∪ {[Receiver.fd_ r]}) in Hl by set_solver.
  set (L1 := L ∪ {[Receiver.fd_ r]}) in *.
  assert (Hsame : forall h', live h' = Some L1 -> holds L r h').
  { intros h' Hl'. unfold holds. rewrite (owned_pos (Receiver.fd_ r)), owned_neg by lia.
    split_and!; [rewrite Hl'; f_equal; set_solver|set_solver|set_solver|lia]. }
  do 2 wp_step. set (rp := kernel h EpollCreate).
  pose proof (kernel_ret h EpollCreate). pose proof (kernel_fresh h EpollCreate L1 Hl eq_refl).
  destruct (Z.eqb_spec (ret rp) (-1)) as [Hm|Hm].
  { wp_step. split_and!; [|by destruct r|by apply arrived_quiet|done].
    apply Hsame. apply live_open_failed; [done|done|constructor|lia]. }
  assert (Hl2 : live ((EpollCreate, rp) :: h) = Some (L1 ∪ {[ret rp]}))
    by (apply live_open; [done|done|constructor|unfold rp in *; lia]).
  do 2 wp_step. set (c := EpollCtlAdd _ _ _). set (rp2 := kernel _ c).
  assert (Hl3 : live ((c, rp2) :: (EpollCreate, rp) :: h) = Some (L1 ∪ {[ret rp]})).
  { apply live_use; try done. repeat constructor; set_solver. }
  destruct (ret rp2 =? -1).
  - unfold close_and. repeat wp_step. split_and!; [|by destruct r|by rewrite !arrived_quiet|done].
    apply Hsame. rewrite (live_close _ _ _ _ Hl3) by set_solver. f_equal. set_solver.
  - wp_step. cbn [Receiver.fd_ Receiver.epfd_]. split_and!; try done.
    + unfold holds. cbn [Receiver.fd_ Receiver.epfd_].
      rewrite (owned_pos (Receiver.fd_ r)), (owned_pos (ret rp)) by (unfold rp in *; lia).
      split_and!; [done|set_solver|set_solver|done].
    + by rewrite !arrived_quiet.
    + intros _. split; [done|unfold rp in *; lia].
Qed.

(** The counters of received data are untouched. *)
Definition same_counts (st st' : Receiver.Stats) : Prop :=
  Receiver.received_packets st' = Receiver.received_packets st /\
  Receiver.received_bytes st' = Receiver.received_bytes st.

Lemma wait_loop_spec fuel timeout r st h L :
  live h = Some L -> Receiver.epfd_ r ∈ L -> (P - interrupted h < fuel)%nat ->
  wp (Receiver.wait_loop fuel timeout r st) (fun '(res, st') h' =>
    live h' = Some L /\ arrived h' = arrived h /\ same_counts st st' /\
    match res with Some n => -1 <= n <= 0 | None => True end) h.
Proof.
  intros Hl Hf. revert h Hl. induction fuel as [|fuel IH]; intros h Hl Hfuel; [lia|].
  cbn [Receiver.wait_loop]. repeat wp_step. set (c := EpollWait _ _ _). set (rp := kernel h c).
  assert (Hl' : live ((c, rp) :: h) = Some L)
    by (apply live_use; try done; by apply Forall_singleton).
  assert (Ha : arrived ((c, rp) :: h) = arrived h) by (by apply arrived_quiet).
  destruct (Z.ltb_spec 0 (ret rp)) as [Hn|Hn].
  { destruct (negb _); wp_step; split_and!; try done; lia. }
  destruct (Z.eqb_spec (ret rp) 0) as [Hz|Hz]; [wp_step; split_and!; done|].
  destruct (Z.eqb_spec (errno rp) EINTR) as [He|He]; [|wp_step; split_and!; done].
  assert (Hm : ret rp = -1) by (pose proof (kernel_ret h c); unfold rp in *; lia).
  destruct (interrupted_more h c Hm He) as [Hlt Hi]. fold rp in Hi.
  rewrite <- Ha. apply IH; [done|]. rewrite Hi. lia.
Qed.

(** What [epoll_receive] promises. *)
Definition epoll_post (L : gset Z) (r : Receiver.t) (fs : list RxFrame) (h : history)
    (res : Z * list RxFrame * Receiver.t) (h' : history) : Prop :=
  let '(n, fs', r') := res in
  holds L r' h' /\ length fs' = length fs /\ Forall frame_ok fs' /\
  rstats_ok (Receiver.stats_ r') /\
  exists ds, arrived h' = arrived h ++ ds /\ -1 <= n <= Z.of_nat (length fs) /\
    Z.max 0 n = Z.of_nat (length ds) /\
    (0 < n -> filled r fs ds fs') /\
    Forall (fun d => bytes_ok (dg_data d) /\ Z.of_nat (length (dg_data d)) = dg_len d) ds /\
    received_delta (Receiver.stats_ r) (Receiver.stats_ r') ds.

Lemma received_delta_ok st st' ds : received_delta st st' ds -> rstats_ok st'.
Proof. intros [Hp Hb]. split; rewrite ?Hp, ?Hb; apply wrapu_range; lia. Qed.

Lemma epoll_post_none L r fs h n r' h' :
  holds L r' h' -> Forall frame_ok fs -> rstats_ok (Receiver.stats_ r) ->
  same_counts (Receiver.stats_ r) (Receiver.stats_ r') -> arrived h' = arrived h ->
  -1 <= n <= 0 -> epoll_post L r fs h (n, fs, r') h'.
Proof.
  intros Hh Hok Hst [Hp Hb] Ha Hn.
  pose proof (received_delta_nil _ _ Hst Hp Hb) as Hd. pose proof (received_delta_ok _ _ _ Hd).
  split_and!; try done. exists []. rewrite app_nil_r. split_and!; try done; try lia.
  simpl. lia.
Qed.

Lemma epoll_receive_spec fuel timeout L r fs h :
  holds L r h -> Forall frame_ok fs -> fs <> [] -> rstats_ok (Receiver.stats_ r) ->
  (P < fuel)%nat ->
  wp (Receiver.epoll_receive fuel (Some fs) (Z.of_nat (length fs)) timeout r)
    (epoll_post L r fs h) h.
Proof.
  intros Hh Hok Hne Hst Hfuel. unfold Receiver.epoll_receive. wp_step.
  eapply wp_mono; [by apply ensure_epoll_spec|]. intros [ok r1] h1 (Hh1 & Er1 & Ha1 & Hopen).
  destruct ok; cbn [negb].
  2: { wp_step. cbn [default id]. apply epoll_post_none; try done. rewrite Er1. done. }
  destruct (Hopen eq_refl) as [Hfd Hep]. pose proof Hh1 as (Hl1 & Hd1 & Hd2 & _).
  set (L1 := L ∪ owned (Receiver.fd_ r1) ∪ owned (Receiver.epfd_ r1)) in *.
  assert (Hin : Receiver.fd_ r1 ∈ L1 /\ Receiver.epfd_ r1 ∈ L1)
    by (unfold L1; rewrite (owned_pos _ Hfd), (owned_pos _ Hep); set_solver).
  rewrite (owned_pos _ Hfd) in Hd1, Hd2. rewrite (owned_pos _ Hep) in Hd2.
  wp_step. eapply wp_mono; [apply (wait_loop_spec fuel timeout r1 _ h1 L1); [done|apply Hin|lia]|].
  intros [res st'] h2 (Hl2 & Ha2 & [Hp2 Hb2] & Hres). cbv zeta.
  set (r2 := Receiver.set_stats r1 st').
  assert (Hh2 : forall h', live h' = Some L1 -> forall r', Receiver.fd_ r' = Receiver.fd_ r1 ->
    Receiver.epfd_ r' = Receiver.epfd_ r1 -> holds L r' h').
  { intros h' Hl' r' E1 E2. unfold holds. rewrite E1, E2, (owned_pos _ Hfd), (owned_pos _ Hep).
    split_and!; try done. rewrite Hl'. f_equal. unfold L1.
    by rewrite (owned_pos _ Hfd), (owned_pos _ Hep). }
  assert (Hst1 : Receiver.stats_ r1 = Receiver.stats_ r) by (by rewrite Er1).
  rewrite Hst1 in *.
  destruct res as [n|].
  { wp_step. cbn [default id]. apply epoll_post_none; try done; [by apply (Hh2 h2)|].
    by rewrite Ha2. }
  assert (Hst2 : rstats_ok (Receiver.stats_ r2)).
  { unfold r2, rstats_ok in *. cbn [Receiver.set_stats Receiver.stats_]. by rewrite Hp2, Hb2. }
  eapply wp_mono; [apply (receive_batch_spec fuel r2 fs h2 L1); try done|].
  { apply Hin. }
  intros [[n fs'] r'] h' (Hl' & Er' & Hok' & ds & (Hra & Hfs & Hn & Hnd & caps & Hpre & Hdg) & Hd').
  assert (Hdel : forall f d, Receiver.deliver r2 f d = Receiver.deliver r f d).
  { intros f d. unfold Receiver.deliver, r2. cbn [Receiver.connected_ Receiver.remote_
      Receiver.set_stats]. by rewrite Er1. }
  pose proof (received_delta_ok _ _ _ Hd').
  assert (Hlenfs : length fs' = length fs).
  { rewrite Hfs, length_app, length_zip_with, length_drop, length_fmap in *. lia. }
  split_and!; [apply (Hh2 h'); [done|by rewrite Er'|by rewrite Er']|done|done|done|].
  rewrite length_fmap in Hn.
  exists ds. rewrite Hra, Ha2, Ha1. split_and!; try done; try lia.
  - intros _. rewrite Hfs. rewrite <- list_fmap_compose in Hpre.
    rewrite (zip_with_ext (Receiver.deliver r2) (Receiver.deliver r) _ _ _ _ Hdel) by done.
    by apply (deliver_filled r fs ds caps).
  - clear -Hdg. induction Hdg as [|c d caps ds (? & ? & ?) _ IH]; constructor; done.
  - unfold received_delta in *. unfold r2 in Hd'. cbn [Receiver.set_stats Receiver.stats_] in Hd'.
    by rewrite Hp2, Hb2 in Hd'.
Qed.

(** [receive_one]: at most one datagram, delivered into the frame. *)
Lemma recv_loop_spec fuel r f st h L :
  live h = Some L -> Receiver.fd_ r ∈ L -> rstats_ok st -> (P - interrupted h < fuel)%nat ->
  wp (Receiver.recv_loop fuel r f st) (fun '(ok, f', st') h' =>
    live h' = Some L /\ exists ds, arrived h' = arrived h ++ ds /\ received_delta st st' ds /\
      match ok with
      | true => exists d, ds = [d] /\ dgram_ok (rf_capacity f) d /\ f' = Receiver.deliver r f d
      | false => ds = [] /\ f' = f
      end) h.
Proof.
  intros Hl Hf Hst. revert h Hl. induction fuel as [|fuel IH]; intros h Hl Hfuel; [lia|].
  cbn [Receiver.recv_loop]. repeat wp_step. set (c := RecvMsg _ _). set (rp := kernel h c).
  assert (Hl' : live ((c, rp) :: h) = Some L)
    by (apply live_use; try done; by apply Forall_singleton).
  destruct (Z.leb_spec 0 (ret rp)) as [Hn|Hn].
  { destruct (kernel_recvmsg h (Receiver.fd_ r) (rf_capacity f) Hn) as (d & Hd & Hok & _).
    fold c rp in Hd. rewrite Hd. wp_step. split; [done|]. exists [d]. split; [|split].
    - simpl. by rewrite (proj2 (Z.leb_le _ _) Hn), Hd.
    - unfold received_delta. simpl. by rewrite Z.add_0_r.
    - by exists d. }
  assert (Hnone : arrived ((c, rp) :: h) = arrived h).
  { apply arrived_quiet. simpl. by rewrite (proj2 (Z.leb_gt _ _) Hn). }
  destruct (Z.eqb_spec (errno rp) EINTR) as [He|He].
  - assert (Hm : ret rp = -1) by (pose proof (kernel_ret h c); unfold rp in *; lia).
    destruct (interrupted_more h c Hm He) as [Hlt Hi]. fold rp in Hi.
    rewrite <- Hnone. apply IH; [done|]. rewrite Hi. lia.
  - destruct (_ || _); wp_step; (split; [done|]); exists []; rewrite app_nil_r;
      (split; [done|split; [by apply received_delta_nil|done]]).
Qed.

Lemma receive_one_holds fuel L r f h :
  holds L r h -> rstats_ok (Receiver.stats_ r) -> (P < fuel)%nat ->
  wp (Receiver.receive_one fuel f r) (fun '(_, _, r') h' =>
    holds L r' h' /\ rstats_ok (Receiver.stats_ r')) h.
Proof.
  intros Hh Hst Hfuel. unfold Receiver.receive_one.
  destruct (Z.ltb_spec (Receiver.fd_ r) 0) as [|Hfd]; cbn [orb]; [by wp_step|].
  destruct (unusable _); [by wp_step|]. pose proof Hh as (Hl & Hd1 & Hd2 & Himp).
  wp_step. eapply wp_mono; [apply (recv_loop_spec fuel r _ _ h _ Hl); try done; [|lia]|].
  { rewrite owned_pos by done. set_solver. }
  intros [[ok f'] st'] h' (Hl' & ds & _ & Hd & _). wp_step. split; [done|].
  by eapply received_delta_ok.
Qed.

Lemma receive_batch_holds fuel L r fs h :
  holds L r h -> Forall frame_ok fs -> fs <> [] -> rstats_ok (Receiver.stats_ r) ->
  (P < fuel)%nat ->
  wp (Receiver.receive_batch fuel (Some fs) (Z.of_nat (length fs)) r) (fun '(_, _, r') h' =>
    holds L r' h' /\ rstats_ok (Receiver.stats_ r')) h.
Proof.
  intros Hh Hok Hne Hst Hfuel. destruct (decide (0 <= Receiver.fd_ r)) as [Hfd|Hfd].
  - pose proof Hh as (Hl & Hd1 & Hd2 & Himp).
    eapply wp_mono; [apply (receive_batch_spec fuel r fs h _ Hl); try done|].
    { rewrite owned_pos by done. set_solver. }
    intros [[n fs'] r'] h' (Hl' & Er' & _ & ds & _ & Hd). split; [|by eapply received_delta_ok].
    rewrite Er'. done.
  - unfold Receiver.receive_batch. rewrite (proj2 (Z.ltb_lt _ _)) by lia. cbn [orb]. by wp_step.
Qed.

(** A program that uses a receiver. *)
Inductive receiver_op :=
  | ROpen (cfg : Receiver.Config)
  | RClose
  | RReceiveOne (f : RxFrame)
  | RReceiveBatch (fs : list RxFrame)
  | REpollReceive (fs : list RxFrame) (timeout_ms : Z).

Definition op_ok (op : receiver_op) : Prop :=
  match op with
  | RReceiveBatch fs | REpollReceive fs _ => Forall frame_ok fs /\ fs <> []
  | _ => True
  end.

Definition receiver_step (fuel : nat) (op : receiver_op) (r : Receiver.t) : M Receiver.t :=
  match op with
  | ROpen cfg => '(_, r) ← Receiver.open cfg r; mret r
  | RClose => Receiver.close r
  | RReceiveOne f => '(_, _, r) ← Receiver.receive_one fuel f r; mret r
  | RReceiveBatch fs =>
      '(_, _, r) ← Receiver.receive_batch fuel (Some fs) (Z.of_nat (length fs)) r; mret r
  | REpollReceive fs timeout =>
      '(_, _, r) ← Receiver.epoll_receive fuel (Some fs) (Z.of_nat (length fs)) timeout r; mret r
  end.

Fixpoint receiver_run (fuel : nat) (ops : list receiver_op) (r : Receiver.t) : M Receiver.t :=
  match ops with
  | [] => Receiver.close r        (* the destructor *)
  | op :: ops => r ← receiver_step fuel op r; receiver_run fuel ops r
  end.

Lemma receiver_step_holds fuel L op r h :
  holds L r h -> op_ok op -> rstats_ok (Receiver.stats_ r) -> (P < fuel)%nat ->
  wp (receiver_step fuel op r) (fun r' h' => holds L r' h' /\ rstats_ok (Receiver.stats_ r')) h.
Proof.
  intros Hh Hop Hst Hfuel. destruct op as [cfg| |f|fs|fs timeout]; cbn [receiver_step op_ok] in *.
  - wp_step. eapply wp_mono; [by apply receiver_open_spec|]. intros [ok r'] h' (Hh' & _ & Es).
    wp_step. by rewrite Es.
  - eapply wp_mono; [by apply receiver_close_spec|]. intros r' h' [Hl' ->].
    split; [by apply holds_closed|done].
  - wp_step. eapply wp_mono; [by apply receive_one_holds|]. by intros [[ok f'] r'] h'.
  - wp_step. destruct Hop. eapply wp_mono; [by apply receive_batch_holds|].
    by intros [[ok f'] r'] h'.
  - wp_step. destruct Hop. eapply wp_mono; [by apply epoll_receive_spec|].
    intros [[n f'] r'] h' (Hh' & _ & _ & Hst' & _). by wp_step.
Qed.

(** C32 (receiver descriptors).  Whatever program opens, reopens, polls, reads and
    closes a receiver, in any order, and whatever the kernel answers: every call
    returns, no call uses a descriptor that is not open, and when the receiver is
    destroyed exactly the descriptors that were open before remain open. *)
Theorem receiver_no_leak fuel ops L h :
  live h = Some L -> Forall op_ok ops -> (P < fuel)%nat ->
  wp (receiver_run fuel ops Receiver.construct) (fun _ h' => live h' = Some L) h.
Proof.
  intros Hl Hops Hfuel.
  assert (Hh : holds L Receiver.construct h) by (by apply holds_closed).
  assert (Hst : rstats_ok (Receiver.stats_ Receiver.construct)) by (by vm_compute).
  revert Hh Hst. generalize Receiver.construct as r. clear Hl. revert h.
  induction Hops as [|op ops Hop _ IH]; intros h r Hh Hst; cbn [receiver_run].
  - eapply wp_mono; [by apply receiver_close_spec|]. by intros r' h' [Hl _].
  - wp_step. eapply wp_mono; [by apply (receiver_step_holds fuel L)|].
    intros r' h' [Hh' Hst']. by apply IH.
Qed.

(** Waiting and receiving.  [epoll_receive] on any receiver, open or not,
    with usable frames: it finishes with -1, 0 or the number of datagrams that
    arrived during the call, which are then in the frames in order; nothing that
    arrived is lost, the frames keep their buffers, and the receiver still holds
    its descriptors (an epoll instance is created at most once and kept). *)
Theorem receiver_epoll_receive fuel timeout L r fs h :
  holds L r h -> Forall frame_ok fs -> fs <> [] -> rstats_ok (Receiver.stats_ r) ->
  (P < fuel)%nat ->
  wp (Receiver.epoll_receive fuel (Some fs) (Z.of_nat (length fs)) timeout r)
    (epoll_post L r fs h) h.
Proof. apply epoll_receive_spec. Qed.

End receiving.

(** ** Instances *)

Definition demo_frame : RxFrame := mkFrame (Some (replicate 64 0)) 64 7 (mkAddr 1 2) true.

Lemma demo_frame_ok : Forall frame_ok [demo_frame; demo_frame].
Proof. by repeat constructor; try (exists (replicate 64 0)). Qed.

Definition demo_receiver : Receiver.t :=
  Receiver.mk 3 (-1) false no_addr (Receiver.mkStats 0 0 0 0).

Lemma demo_rstats_ok : rstats_ok (Receiver.mkStats 0 0 0 0).
Proof. by vm_compute. Qed.

(** One datagram arrives. *)
Lemma receiver_receive_batch_witness :
  wp (@Receiver.receive_batch busy_kernel 1 (Some [demo_frame; demo_frame]) 2 demo_receiver)
    (receive_post {[3]} demo_receiver [demo_frame; demo_frame] demo_history) demo_history /\
  (fun p => p.1.1.1)
    <$> @Receiver.receive_batch busy_kernel 1 (Some [demo_frame; demo_frame]) 2 demo_receiver
          demo_history = Some 1.
Proof.
  split; [|vm_compute; reflexivity].
  apply (@receiver_receive_batch 0 busy_kernel busy_kernel_ok 1 demo_receiver
    [demo_frame; demo_frame] demo_history {[3]}).
  - vm_compute. reflexivity.
  - simpl. set_solver.
  - discriminate.
  - exact demo_frame_ok.
  - discriminate.
  - exact demo_rstats_ok.
  - lia.
Defined.

Lemma receiver_epoll_receive_witness :
  wp (@Receiver.epoll_receive demo_kernel 2 (Some [demo_frame; demo_frame]) 2 500 demo_receiver)
    (epoll_post ∅ demo_receiver [demo_frame; demo_frame] demo_history) demo_history.
Proof.
  apply (@receiver_epoll_receive 1 demo_kernel demo_kernel_ok 2 500 ∅ demo_receiver
    [demo_frame; demo_frame] demo_history).
  - apply (@holds_open 1 demo_kernel demo_kernel_ok _ _ _ 3); [vm_compute; reflexivity|discriminate|set_solver|reflexivity..].
  - exact demo_frame_ok.
  - discriminate.
  - exact demo_rstats_ok.
  - lia.
Defined.

Definition demo_ops : list receiver_op :=
  [ROpen (Receiver.mkConfig None 8888 None 0 65536 false);
   REpollReceive [demo_frame; demo_frame] 500; RReceiveOne demo_frame;
   ROpen (Receiver.mkConfig None 8889 None 0 0 false); RReceiveBatch [demo_frame; demo_frame]].

Lemma receiver_no_leak_witness :
  wp (@receiver_run demo_kernel 2 demo_ops Receiver.construct) (fun _ h' => live h' = Some {[3]})
    demo_history.
Proof.
  apply (@receiver_no_leak 1 demo_kernel demo_kernel_ok 2 demo_ops {[3]} demo_history).
  - vm_compute. reflexivity.
  - unfold demo_ops. repeat (constructor; [first [exact I|split; [exact demo_frame_ok|discriminate]]|]).
    constructor.
  - lia.
Defined.
