(* ===== verification/Latency.v ===== *)
(** * Latency: the latency histogram of engine v2

    Models [record_latency] and [snapshot_latency] of [src/engine/v2/engine.cpp]:
    a histogram of buckets of one microsecond with an overflow bucket, and the
    quantiles read from it.  The two functions run in different threads, the
    consumer and the reporter, as sequences of atomic accesses.  This file has the
    effect of each when no access of the other falls in between; [LatencyThreads]
    cuts them at their accesses, interleaves them, and shows when this is what they
    do. *)

From Stdlib Require Import ZArith Lia.
From stdpp Require Import base numbers list.
From S2P Require Import Prelude.

Local Open Scope Z_scope.

Module Latency.

Definition kLatencyBucketWidthNs : Z := 1000.
Definition kLatencyBucketCount : Z := 20000.

(** [latency_buckets_], [latency_samples_], [latency_max_ns_]. *)
Record t := mk { buckets : list Z; samples_ : Z; max_ns_ : Z }.

Definition reset : t := mk (replicate (Z.to_nat (kLatencyBucketCount + 1)) 0) 0 0.

Definition bucket_of (latency_ns : Z) : Z :=
  Z.min (latency_ns / kLatencyBucketWidthNs) kLatencyBucketCount.

(** The effect of [record_latency] undisturbed: the compare-and-exchange loop then
    ends with the larger of the two values. *)
Definition record_latency (latency_ns : Z) (l : t) : t :=
  let b := bucket_of latency_ns in
  mk (arr_set (buckets l) b (arr_get (buckets l) b +% 1)) (samples_ l +% 1)
     (if max_ns_ l <? latency_ns then latency_ns else max_ns_ l).

(** [struct LatencySnapshot]. *)
Record Snapshot := mkSnapshot {
  samples : Z;
  p50_ns : Z;
  p99_ns : Z;
  p999_ns : Z;
  max_ns : Z;
  overflow : Z
}.

(** The scan of [quantile_ns], at bucket [i] with [counts] the rest. *)
Fixpoint scan (target seen i : Z) (counts : list Z) (max : Z) : Z :=
  match counts with
  | [] => max
  | c :: counts =>
      let seen := seen +% c in
      if target <=? seen then
        if kLatencyBucketCount <=? i then max else (i +% 1) * kLatencyBucketWidthNs
      else scan target seen (i + 1) counts max
  end.

Definition target (n numerator denominator : Z) : Z :=
  Z.max 1 (u64 (u64 (n * numerator) + denominator - 1) / denominator).

Definition quantile_ns (counts : list Z) (n max numerator denominator : Z) : Z :=
  scan (target n numerator denominator) 0 0 counts max.

(** What [snapshot_latency] makes of the values it has read. *)
Definition snapshot_of (counts : list Z) (n max : Z) : Snapshot :=
  let over := arr_get counts kLatencyBucketCount in
  if n =? 0 then mkSnapshot n 0 0 0 max over
  else
    mkSnapshot n (quantile_ns counts n max 50 100) (quantile_ns counts n max 99 100)
      (quantile_ns counts n max 999 1000) max over.

(** The effect of [snapshot_latency] undisturbed. *)
Definition snapshot_latency (l : t) : Snapshot * t :=
  (snapshot_of (buckets l) (samples_ l) (max_ns_ l), reset).

Definition record_all (ls : list Z) (l : t) : t := foldl (fun l x => record_latency x l) l ls.

End Latency.

(** ** Specification *)

(** How many of [ls] are below [x], or in bucket [b]. *)
Definition count_below (x : Z) (ls : list Z) : Z :=
  Z.of_nat (length (filter (fun y => y < x) ls)).

Definition in_bucket (b : Z) (ls : list Z) : Z :=
  Z.of_nat (length (filter (fun y => Latency.bucket_of y = b) ls)).

(** [q] is a [num/den]-quantile bound of [ls]: at least the target number of
    samples lie below it, and fewer than that lie below [q - 1000]. *)
Definition quantile_bound (ls : list Z) (num den q : Z) : Prop :=
  let k := Z.max 1 ((Z.of_nat (length ls) * num + den - 1) / den) in
  count_below (q - 1000) ls < k <= count_below q ls.

(** The maximum. *)
Definition max_of (ls : list Z) : Z := foldr Z.max 0 ls.

Lemma bucket_of_range y : 0 <= y -> 0 <= Latency.bucket_of y <= 20000.
Proof.
  intros. unfold Latency.bucket_of, Latency.kLatencyBucketWidthNs, Latency.kLatencyBucketCount.
  pose proof (Z.div_pos y 1000). lia.
Qed.

Lemma bucket_of_iff y b :
  0 <= y -> 0 <= b < 20000 -> Latency.bucket_of y = b <-> b * 1000 <= y < (b + 1) * 1000.
Proof.
  intros. unfold Latency.bucket_of, Latency.kLatencyBucketWidthNs, Latency.kLatencyBucketCount.
  Z.div_mod_to_equations. lia.
Qed.

Lemma bucket_of_overflow y :
  0 <= y -> Latency.bucket_of y = 20000 <-> 20000 * 1000 <= y.
Proof.
  intros. unfold Latency.bucket_of, Latency.kLatencyBucketWidthNs, Latency.kLatencyBucketCount.
  Z.div_mod_to_equations. lia.
Qed.

Lemma count_below_cons x y ls :
  count_below x (y :: ls) = (if decide (y < x) then 1 else 0) + count_below x ls.
Proof.
  unfold count_below. rewrite filter_cons. case_decide; simpl; lia.
Qed.

Lemma in_bucket_cons b y ls :
  in_bucket b (y :: ls) = (if decide (Latency.bucket_of y = b) then 1 else 0) + in_bucket b ls.
Proof.
  unfold in_bucket. rewrite filter_cons. case_decide; simpl; lia.
Qed.

Lemma in_bucket_range b ls : 0 <= in_bucket b ls <= Z.of_nat (length ls).
Proof. unfold in_bucket. pose proof (length_filter (fun y => Latency.bucket_of y = b) ls). lia. Qed.

Lemma in_bucket_snoc b ls y :
  in_bucket b (ls ++ [y]) = in_bucket b ls + (if decide (Latency.bucket_of y = b) then 1 else 0).
Proof.
  unfold in_bucket. rewrite filter_app, length_app. rewrite filter_cons, filter_nil.
  case_decide; simpl; lia.
Qed.

(** Latencies are nonnegative 64-bit values. *)
Definition latencies_ok (ls : list Z) : Prop := Forall (is_u 64) ls.

#[global] Instance latencies_ok_dec ls : Decision (latencies_ok ls).
Proof. unfold latencies_ok; apply _. Defined.

(** The buckets partition the samples. *)
Lemma count_below_step i ls :
  latencies_ok ls -> 0 <= i < 20000 ->
  count_below ((i + 1) * 1000) ls = count_below (i * 1000) ls + in_bucket i ls.
Proof.
  intros Hok Hi. induction Hok as [|y ls Hy _ IH]; [done|].
  rewrite !count_below_cons, in_bucket_cons, IH. pose proof (bucket_of_iff y i).
  destruct Hy. repeat case_decide; lia.
Qed.

Lemma count_below_rest ls :
  latencies_ok ls ->
  Z.of_nat (length ls) = count_below (20000 * 1000) ls + in_bucket 20000 ls.
Proof.
  induction 1 as [|y ls Hy _ IH]; [done|]. simpl length.
  rewrite count_below_cons, in_bucket_cons. pose proof (bucket_of_overflow y).
  destruct Hy. repeat case_decide; lia.
Qed.

Lemma count_below_0 ls : latencies_ok ls -> count_below 0 ls = 0.
Proof.
  induction 1 as [|y ls [Hy _] _ IH]; [done|]. rewrite count_below_cons, IH.
  case_decide; lia.
Qed.

Lemma max_of_snoc ls y : max_of (ls ++ [y]) = Z.max (max_of ls) (Z.max y 0).
Proof. unfold max_of. induction ls as [|x ls IH]; simpl; lia. Qed.

(** A table of [n] counters given by a function. *)
Definition table (n : Z) (f : Z -> Z) : list Z := f <$> seqZ 0 n.

Lemma table_lookup n f i : 0 <= i < n -> table n f !! Z.to_nat i = Some (f i).
Proof.
  intros. unfold table. rewrite list_lookup_fmap, lookup_seqZ_lt by lia. simpl. do 2 f_equal. lia.
Qed.

Lemma table_const n c : 0 <= n -> replicate (Z.to_nat n) c = table n (fun _ => c).
Proof.
  intros. apply list_eq. intros i. unfold table. rewrite list_lookup_fmap.
  destruct (decide (i < Z.to_nat n)%nat).
  - by rewrite lookup_replicate_2, lookup_seqZ_lt by lia.
  - rewrite (proj2 (lookup_ge_None _ _)) by (rewrite length_replicate; lia).
    by rewrite lookup_seqZ_ge by lia.
Qed.

Lemma table_set n f b v :
  0 <= b < n -> arr_set (table n f) b v = table n (fun i => if decide (i = b) then v else f i).
Proof.
  intros Hb. apply list_eq. intros i. unfold arr_set, table.
  destruct (decide (i = Z.to_nat b)) as [->|Hne].
  - rewrite list_lookup_insert_eq by (rewrite length_fmap, length_seqZ; lia).
    rewrite list_lookup_fmap, lookup_seqZ_lt by lia. simpl. by rewrite decide_True by lia.
  - rewrite list_lookup_insert_ne by done. rewrite !list_lookup_fmap.
    destruct (decide (i < Z.to_nat n)%nat).
    + rewrite lookup_seqZ_lt by lia. simpl. by rewrite decide_False by lia.
    + by rewrite lookup_seqZ_ge by lia.
Qed.

Lemma table_ext n f g : (forall i, 0 <= i < n -> f i = g i) -> table n f = table n g.
Proof.
  intros Hfg. unfold table. apply list_fmap_ext. intros i x Hx.
  apply lookup_seqZ in Hx as [-> Hx]. apply Hfg. lia.
Qed.

Lemma table_get n f b : 0 <= b < n -> arr_get (table n f) b = f b.
Proof.
  intros Hb. unfold arr_get. apply list_lookup_total_correct. by apply table_lookup.
Qed.

(** The histogram after recording [ls]. *)
Definition histogram (ls : list Z) : Latency.t :=
  Latency.mk (table (Latency.kLatencyBucketCount + 1) (fun b => in_bucket b ls))
    (Z.of_nat (length ls)) (max_of ls).

Lemma record_latency_spec ls y :
  is_u 64 y -> Z.of_nat (length ls) + 1 < 2 ^ 64 ->
  Latency.record_latency y (histogram ls) = histogram (ls ++ [y]).
Proof.
  intros [Hy Hy'] Hlen. unfold Latency.record_latency, histogram.
  cbn [Latency.buckets Latency.samples_ Latency.max_ns_].
  pose proof (bucket_of_range y Hy) as Hb.
  rewrite table_set, table_get by (unfold Latency.kLatencyBucketCount; lia).
  rewrite length_app, max_of_snoc. cbn [length].
  rewrite (wrapu_small 64 (Z.of_nat (length ls) + 1)) by (unfold is_u; lia).
  replace (Z.of_nat (length ls + 1)) with (Z.of_nat (length ls) + 1) by lia.
  replace (if max_of ls <? y then y else max_of ls) with (Z.max (max_of ls) (Z.max y 0))
    by (destruct (Z.ltb_spec (max_of ls) y); lia).
  rewrite (table_ext _ _ (fun b => in_bucket b (ls ++ [y]))); [done|].
  intros i Hi. rewrite in_bucket_snoc. pose proof (in_bucket_range (Latency.bucket_of y) ls).
  destruct (decide (i = Latency.bucket_of y)) as [->|Hne].
  - rewrite decide_True by done. apply wrapu_small. unfold is_u. lia.
  - rewrite decide_False by done. lia.
Qed.

Lemma record_all_spec ls :
  latencies_ok ls -> Z.of_nat (length ls) < 2 ^ 64 ->
  Latency.record_all ls Latency.reset = histogram ls.
Proof.
  intros Hok. induction ls as [|y ls IH] using rev_ind; intros Hlen.
  { unfold Latency.record_all, Latency.reset, histogram. cbn [foldl length max_of foldr].
    rewrite table_const by done. done. }
  rewrite length_app in Hlen. cbn [length] in Hlen.
  unfold latencies_ok in Hok. rewrite Forall_app, Forall_singleton in Hok. destruct Hok as [Hok Hy].
  unfold Latency.record_all. rewrite foldl_app. cbn [foldl].
  change (foldl _ _ ls) with (Latency.record_all ls Latency.reset).
  rewrite IH by (done || lia). apply record_latency_spec; [done|lia].
Qed.

Lemma count_below_range x ls : 0 <= count_below x ls <= Z.of_nat (length ls).
Proof. unfold count_below. pose proof (length_filter (fun y => y < x) ls). lia. Qed.

(** What the scan returns: a bucket's upper end or the maximum. *)
Definition scan_result (ls : list Z) (k max q : Z) : Prop :=
  (exists j, 0 <= j < 20000 /\ q = (j + 1) * 1000 /\
     count_below (j * 1000) ls < k <= count_below ((j + 1) * 1000) ls) \/
  (q = max /\ count_below (20000 * 1000) ls < k).

Lemma scan_spec ls k max n i :
  latencies_ok ls -> Z.of_nat (length ls) < 2 ^ 64 -> k <= Z.of_nat (length ls) ->
  0 <= i <= 20000 -> i + Z.of_nat n = 20001 -> count_below (i * 1000) ls < k ->
  scan_result ls k max
    (Latency.scan k (count_below (i * 1000) ls) i ((fun b => in_bucket b ls) <$> seqZ i (Z.of_nat n)) max).
Proof.
  intros Hok Hlen Hk. revert i. induction n as [|n IH]; intros i Hi Hn Hlt; [lia|].
  rewrite seqZ_cons by lia. cbn [fmap list_fmap Latency.scan].
  unfold Latency.kLatencyBucketCount, Latency.kLatencyBucketWidthNs.
  destruct (decide (i = 20000)) as [->|Hne].
  - rewrite <- count_below_rest by done. rewrite wrapu_small by (unfold is_u; lia).
    rewrite (proj2 (Z.leb_le k _)) by done. right. done.
  - rewrite <- count_below_step by (done || lia).
    pose proof (count_below_range ((i + 1) * 1000) ls).
    rewrite (wrapu_small 64 (count_below _ _)) by (unfold is_u; lia).
    destruct (Z.leb_spec k (count_below ((i + 1) * 1000) ls)) as [Hle|Hgt].
    + rewrite (proj2 (Z.leb_gt 20000 i)) by lia. left. exists i.
      rewrite wrapu_small by (unfold is_u; lia). split_and!; (done || lia).
    + replace (Z.succ i) with (i + 1) by lia.
      replace (Z.pred (Z.of_nat (S n))) with (Z.of_nat n) by lia. apply IH; lia.
Qed.

Lemma target_spec n num den :
  0 < n -> 0 < num <= den -> n * num + den < 2 ^ 64 ->
  Latency.target n num den = Z.max 1 ((n * num + den - 1) / den) /\
  1 <= Latency.target n num den <= n.
Proof.
  intros Hn Hnum Hb. unfold Latency.target.
  rewrite (wrapu_small 64 (n * num)) by (unfold is_u; nia).
  rewrite (wrapu_small 64) by (unfold is_u; nia). split; [done|].
  assert ((n * num + den - 1) / den < n + 1); [|lia].
  apply Z.div_lt_upper_bound; [lia|]. nia.
Qed.

(** A reported quantile [q]: the bucket bound, or the maximum when the target
    sample is in the overflow bucket. *)
Definition quantile_ok (ls : list Z) (num den q : Z) : Prop :=
  quantile_bound ls num den q \/
  (q = max_of ls /\
   count_below 20000000 ls < Z.max 1 ((Z.of_nat (length ls) * num + den - 1) / den)).

Lemma quantile_spec ls num den :
  latencies_ok ls -> 0 < Z.of_nat (length ls) -> 0 < num <= den ->
  Z.of_nat (length ls) * num + den < 2 ^ 64 ->
  quantile_ok ls num den
    (Latency.quantile_ns (table (Latency.kLatencyBucketCount + 1) (fun b => in_bucket b ls))
      (Z.of_nat (length ls)) (max_of ls) num den).
Proof.
  intros Hok Hpos Hnum Hb. destruct (target_spec (Z.of_nat (length ls)) num den) as [Ht Hr];
    [done..|]. unfold Latency.quantile_ns, table. set (k := Latency.target _ _ _) in *.
  pose proof (scan_spec ls k (max_of ls) (Z.to_nat 20001) 0 Hok ltac:(nia) ltac:(lia) ltac:(lia) ltac:(lia))
    as Hs. rewrite (Z.mul_0_l 1000), count_below_0 in Hs by done. specialize (Hs ltac:(lia)).
  rewrite Z2Nat.id in Hs by lia. change 20001 with (Latency.kLatencyBucketCount + 1) in Hs.
  set (q := Latency.scan _ _ _ _ _) in *. clearbody q. unfold quantile_ok, quantile_bound.
  rewrite <- Ht. fold k. destruct Hs as [(j & Hj & -> & Hc)|[-> Hc]]; [left|right; done].
  replace ((j + 1) * 1000 - 1000) with (j * 1000) by lia. done.
Qed.

(** What a snapshot reports of a histogram: the number of samples and their maximum
    exactly, those at or above 20 ms as overflow, and for the median, the 99th and
    the 99.9th percentile a bound [q] such that at least the target number of
    samples are below [q] and fewer are below [q - 1000], or the maximum when the
    target sample is in the overflow bucket. *)
Definition exact_snapshot (ls : list Z) (s : Latency.Snapshot) : Prop :=
  Latency.samples s = Z.of_nat (length ls) /\ Latency.max_ns s = max_of ls /\
  Latency.overflow s = in_bucket 20000 ls /\
  quantile_ok ls 50 100 (Latency.p50_ns s) /\ quantile_ok ls 99 100 (Latency.p99_ns s) /\
  quantile_ok ls 999 1000 (Latency.p999_ns s).

Lemma snapshot_exact ls :
  latencies_ok ls -> 0 < Z.of_nat (length ls) -> Z.of_nat (length ls) * 1000 < 2 ^ 64 - 1000 ->
  exact_snapshot ls (Latency.snapshot_latency (Latency.record_all ls Latency.reset)).1.
Proof.
  intros Hok Hpos Hlen. rewrite record_all_spec by (done || lia).
  unfold Latency.snapshot_latency, Latency.snapshot_of, histogram, exact_snapshot.
  cbn [Latency.buckets Latency.samples_ Latency.max_ns_ fst].
  rewrite (proj2 (Z.eqb_neq _ 0)) by lia.
  cbn [Latency.samples Latency.max_ns Latency.overflow Latency.p50_ns Latency.p99_ns Latency.p999_ns].
  rewrite table_get by (unfold Latency.kLatencyBucketCount; lia).
  split_and!; [done|done|done|..]; apply quantile_spec; (done || lia).
Qed.

Definition sample_latencies : list Z := [1500; 200; 999; 30000000; 1000].

Example sample_quantiles :
  (fun s => (Latency.p50_ns s, Latency.p99_ns s))
    (Latency.snapshot_latency (Latency.record_all sample_latencies Latency.reset)).1
  = (2000, 30000000).
Proof. vm_compute. reflexivity. Qed.
