(* ===== verification/LatencyThreads.v ===== *)
(** * LatencyThreads: recording and reporting latencies at the same time

    [Engine::record_latency] runs in the consumer thread and
    [Engine::snapshot_latency] in the reporter thread of engine v2
    ([src/engine/v2/engine.cpp]).  Both are cut at their accesses to the atomics;
    any interleaving is possible, and a weak compare-and-exchange may fail for no
    reason.  In every interleaving nothing recorded is lost or reported twice; a
    snapshot that no record overlaps is exact. *)

From Stdlib Require Import ZArith Lia.
From stdpp Require Import base numbers list.
From S2P Require Import Prelude Latency.

Local Open Scope Z_scope.

Module LatencyThreads.

(** [record_latency(x)]: before each of its accesses. *)
Inductive rec_pc :=
  | RIdle
  | RBucket (x : Z)                  (* latency_buckets_[bucket].fetch_add(1) *)
  | RSamples (x : Z)                 (* latency_samples_.fetch_add(1) *)
  | RLoad (x : Z)                    (* latency_max_ns_.load() *)
  | RCas (x current_max : Z).        (* the loop condition *)

(** [snapshot_latency()]: [counts] are the buckets exchanged so far. *)
Inductive rep_pc :=
  | PIdle
  | PCounts (counts : list Z)
  | PMax (counts : list Z) (samples : Z).   (* latency_max_ns_.exchange(0) *)

(** The values a finished snapshot was computed from. *)
Record raw := mkRaw { r_counts : list Z; r_samples : Z; r_max : Z }.

Record t := mk {
  hist : Latency.t;
  rec : rec_pc;
  rep : rep_pc;
  reports : list raw
}.

Definition start : t := mk Latency.reset RIdle PIdle [].

(** What [snapshot_latency] returned, in order. *)
Definition snapshots (s : t) : list Latency.Snapshot :=
  (fun r => Latency.snapshot_of (r_counts r) (r_samples r) (r_max r)) <$> reports s.

Definition rec_access (weak : bool) (h : Latency.t) (pc : rec_pc) : option (Latency.t * rec_pc) :=
  let '(Latency.mk buckets samples max) := h in
  match pc with
  | RIdle => None
  | RBucket x =>
      let b := Latency.bucket_of x in
      Some (Latency.mk (arr_set buckets b (arr_get buckets b +% 1)) samples max, RSamples x)
  | RSamples x => Some (Latency.mk buckets (samples +% 1) max, RLoad x)
  | RLoad x => Some (h, RCas x max)
  | RCas x current_max =>
      if current_max <? x then
        if negb weak && (max =? current_max)
        then Some (Latency.mk buckets samples x, RIdle)
        else Some (h, RCas x max)          (* the failed exchange reloads *)
      else Some (h, RIdle)
  end.

(** The buckets, then the samples, then the maximum. *)
Definition rep_access (h : Latency.t) (pc : rep_pc) : option (Latency.t * rep_pc * list raw) :=
  let '(Latency.mk buckets samples max) := h in
  match pc with
  | PIdle => None
  | PCounts counts =>
      let i := Z.of_nat (length counts) in
      if i <? Latency.kLatencyBucketCount + 1 then
        Some (Latency.mk (arr_set buckets i 0) samples max,
              PCounts (counts ++ [arr_get buckets i]), [])
      else Some (Latency.mk buckets 0 max, PMax counts samples, [])
  | PMax counts n => Some (Latency.mk buckets samples 0, PIdle, [mkRaw counts n max])
  end.

(** [Record x], [Snapshot]: a call starts; [Rec weak], [Rep]: its next access,
    [weak] telling whether a compare-and-exchange fails for no reason. *)
Inductive event := Record_ (x : Z) | Rec (weak : bool) | Snapshot | Rep.

Definition step (ev : event) (s : t) : option t :=
  match ev with
  | Record_ x =>
      match rec s with
      | RIdle => Some (mk (hist s) (RBucket x) (rep s) (reports s))
      | _ => None
      end
  | Rec weak => '(h, pc) ← rec_access weak (hist s) (rec s); Some (mk h pc (rep s) (reports s))
  | Snapshot =>
      match rep s with
      | PIdle => Some (mk (hist s) (rec s) (PCounts []) (reports s))
      | _ => None
      end
  | Rep => '(h, pc, rs) ← rep_access (hist s) (rep s); Some (mk h (rec s) pc (reports s ++ rs))
  end.

Fixpoint exec (evs : list event) (s : t) : option t :=
  match evs with
  | [] => Some s
  | ev :: evs => s' ← step ev s; exec evs s'
  end.

End LatencyThreads.

Import LatencyThreads.

(** ** Reference reading of a run *)

(** The latencies whose recording has started. *)
Definition recorded (evs : list event) : list Z :=
  omap (fun ev => match ev with Record_ x => Some x | _ => None end) evs.

(** Of these, the ones that have been added to their bucket, to the number of
    samples, and those whose recording has ended. *)
Definition in_buckets (xs : list Z) (pc : rec_pc) : list Z :=
  match pc with RBucket _ => removelast xs | _ => xs end.

Definition in_samples (xs : list Z) (pc : rec_pc) : list Z :=
  match pc with RBucket _ | RSamples _ => removelast xs | _ => xs end.

Definition finished (xs : list Z) (pc : rec_pc) : list Z :=
  match pc with RIdle => xs | _ => removelast xs end.

Definition zsum (l : list Z) : Z := foldr Z.add 0 l.

#[global] Arguments zsum : simpl never.

(** What the reporter has taken out of bucket [b], and of the samples: in its
    reports and in the snapshot under way. *)
Definition count_at (b : Z) (counts : list Z) : Z :=
  if decide (b < Z.of_nat (length counts)) then arr_get counts b else 0.

Definition taken_counts (b : Z) (s : t) : Z :=
  zsum ((fun r => count_at b (r_counts r)) <$> reports s) +
  match rep s with PIdle => 0 | PCounts counts | PMax counts _ => count_at b counts end.

Definition taken_samples (s : t) : Z :=
  zsum (r_samples <$> reports s) + match rep s with PMax _ n => n | _ => 0 end.

(** The maxima reported, and the one not yet reported. *)
Definition maxima (s : t) : list Z := (r_max <$> reports s) ++ [Latency.max_ns_ (hist s)].

(** Nothing is lost and nothing counted twice: every latency is in its bucket, in
    the snapshot under way or in one report; likewise for the number of samples;
    every latency recorded is covered by a maximum reported or still to be
    reported, and these maxima are latencies recorded. *)
Definition conserved (xs : list Z) (s : t) : Prop :=
  (forall b, 0 <= b <= 20000 ->
    in_bucket b (in_buckets xs (rec s)) = taken_counts b s + arr_get (Latency.buckets (hist s)) b) /\
  Z.of_nat (length (in_samples xs (rec s))) = taken_samples s + Latency.samples_ (hist s) /\
  Forall (fun x => Exists (fun m => x <= m) (maxima s)) (finished xs (rec s)) /\
  Forall (fun m => m = 0 \/ m ∈ xs) (maxima s).

(** ** Lemmas *)

Lemma zsum_snoc l x : zsum (l ++ [x]) = zsum l + x.
Proof. unfold zsum. induction l; simpl; lia. Qed.

Lemma count_at_snoc b cs v :
  0 <= b -> count_at b (cs ++ [v]) = if decide (b = Z.of_nat (length cs)) then v else count_at b cs.
Proof.
  intros Hb. unfold count_at. rewrite length_app. simpl. unfold arr_get.
  destruct (decide (b = Z.of_nat (length cs))) as [->|Hne].
  - rewrite decide_True by lia. rewrite Nat2Z.id. by rewrite list_lookup_total_middle.
  - repeat case_decide; try lia. apply lookup_total_app_l. lia.
Qed.

Lemma removelast_snoc {A} (l : list A) x : removelast (l ++ [x]) = l.
Proof. apply removelast_last. Qed.

(** The latency being recorded is the last one started. *)
Definition rec_arg (pc : rec_pc) : option Z :=
  match pc with RIdle => None | RBucket x | RSamples x | RLoad x | RCas x _ => Some x end.

Record lat_inv (xs : list Z) (s : t) : Prop := {
  li_conserved : conserved xs s;
  li_length : Z.of_nat (length (Latency.buckets (hist s))) = 20001;
  li_arg : forall x, rec_arg (rec s) = Some x -> exists xs', xs = xs' ++ [x];
  li_current : forall x c, rec s = RCas x c -> Exists (fun m => c <= m) (maxima s);
  li_counts : forall b, 0 <= b <= 20000 ->
    0 <= taken_counts b s /\ 0 <= arr_get (Latency.buckets (hist s)) b;
  li_samples : 0 <= taken_samples s /\ 0 <= Latency.samples_ (hist s)
}.

(** A change that keeps the reporter's side. *)
Lemma exists_last_mono (l : list Z) (m m' x : Z) :
  m <= m' -> Exists (fun y => x <= y) (l ++ [m]) -> Exists (fun y => x <= y) (l ++ [m']).
Proof.
  rewrite !Exists_app. intros Hm [He|He]; [by left|right]. constructor.
  inversion He as [? ? Hx|? ? Hx]; subst; [lia|inversion Hx].
Qed.

Lemma exists_last (l : list Z) (m x : Z) : x <= m -> Exists (fun y => x <= y) (l ++ [m]).
Proof. intros. apply Exists_app. right. by constructor. Qed.

(** One access of the recording thread at a time. *)

Lemma rec_bucket_inv xs buckets samples max x rp rs :
  lat_inv xs (mk (Latency.mk buckets samples max) (RBucket x) rp rs) ->
  latencies_ok xs -> Z.of_nat (length xs) < 2 ^ 64 ->
  let b := Latency.bucket_of x in
  lat_inv xs (mk (Latency.mk (arr_set buckets b (arr_get buckets b +% 1)) samples max)
                 (RSamples x) rp rs).
Proof.
  intros [(Hb & Hs & Hf & Hm) Hl Ha Hc Hn Hns] Hok Hlen; cbn zeta.
  cbn [hist rec rep reports] in *. destruct (Ha x eq_refl) as [xs' ->].
  cbn in Hf. rewrite removelast_snoc in *.
  pose proof (proj1 (Forall_app _ _ _) Hok) as [_ Hx]. apply Forall_cons_1 in Hx as [[Hx _] _].
  pose proof (bucket_of_range x Hx) as Hr.
  assert (Hset : forall b, 0 <= b <= 20000 ->
    arr_get (arr_set buckets (Latency.bucket_of x) (arr_get buckets (Latency.bucket_of x) +% 1)) b
    = arr_get buckets b + if decide (Latency.bucket_of x = b) then 1 else 0).
  { intros b Hb'. cbn in Hl. case_decide as He.
    - subst b. rewrite arr_get_set_eq by lia. apply wrapu_small. unfold is_u.
      specialize (Hb _ Hr). cbn in Hb. rewrite removelast_snoc in Hb.
      pose proof (in_bucket_range (Latency.bucket_of x) xs') as [_ Hle].
      destruct (Hn _ Hr) as [Ht0 Hb0]. cbn in Hb0. rewrite length_app in Hlen. cbn in Hlen.
      unfold taken_counts in *. cbn in *. lia.
    - rewrite arr_get_set_ne by lia. lia. }
  split; try done; [split_and!; try done| |]; cbn [hist rec rep reports Latency.buckets].
  - intros b Hb'. specialize (Hb b Hb'). cbn in Hb. rewrite removelast_snoc in Hb.
    cbn [in_buckets]. rewrite in_bucket_snoc, Hset by done. cbn. unfold taken_counts in *; cbn in *. lia.
  - cbn. by rewrite removelast_snoc.
  - cbn in *. by rewrite length_arr_set.
  - intros b Hb'. rewrite Hset by done. destruct (Hn b Hb'). split; [done|]. case_decide; cbn in *; lia.
Qed.

Lemma rec_samples_inv xs buckets samples max x rp rs :
  lat_inv xs (mk (Latency.mk buckets samples max) (RSamples x) rp rs) ->
  Z.of_nat (length xs) < 2 ^ 64 ->
  lat_inv xs (mk (Latency.mk buckets (samples +% 1) max) (RLoad x) rp rs).
Proof.
  intros [(Hb & Hs & Hf & Hm) Hl Ha Hc Hn Hns] Hlen.
  cbn [hist rec rep reports] in *. destruct (Ha x eq_refl) as [xs' ->].
  cbn in Hf, Hs. rewrite removelast_snoc in *.
  assert (Hsm : samples +% 1 = samples + 1).
  { apply wrapu_small. unfold is_u. rewrite length_app in Hlen. cbn in *.
    unfold taken_samples in *. cbn in *. lia. }
  split; try done; [split_and!; try done|]; cbn [hist rec rep reports].
  - cbn. rewrite length_app. cbn. unfold taken_samples in *. cbn in *. lia.
  - cbn. by rewrite removelast_snoc.
  - cbn in *. unfold taken_samples in *. cbn in *. lia.
Qed.

Lemma rec_access_inv xs weak s h pc :
  lat_inv xs s -> latencies_ok xs -> Z.of_nat (length xs) < 2 ^ 64 ->
  rec_access weak (hist s) (rec s) = Some (h, pc) -> lat_inv xs (mk h pc (rep s) (reports s)).
Proof.
  intros Hi Hok Hlen Hst. pose proof Hi as [(Hb & Hs & Hf & Hm) Hl Ha Hc Hn Hns].
  destruct s as [[buckets samples max] rc rp rs]; cbn [hist rec rep reports] in *.
  destruct rc as [|x|x|x|x cur]; cbn [rec_access] in Hst; [done|..].
  - injection Hst as <- <-. by apply rec_bucket_inv.
  - injection Hst as <- <-. by apply rec_samples_inv.
  - injection Hst as <- <-. split; try done.
    intros y c [= <- <-]. apply exists_last. cbn. lia.
  - destruct (Ha x eq_refl) as [xs' ->]. cbn in Hf. rewrite removelast_snoc in *.
    destruct (Z.ltb_spec cur x) as [Hlt|Hge].
    + destruct (negb weak && (max =? cur)) eqn:Ecas; injection Hst as <- <-.
      * apply andb_true_iff in Ecas as [_ E]. apply Z.eqb_eq in E. subst cur.
        split; try done. split_and!; try done.
        -- cbn. apply Forall_app. split; [|constructor; [|done]].
           ++ revert Hf. apply List.Forall_impl. intros y. apply exists_last_mono. cbn. lia.
           ++ apply exists_last. cbn. lia.
        -- unfold maxima in *. cbn in *. rewrite Forall_app in *. destruct Hm as [Hm _].
           split; [done|]. constructor; [|done]. right. apply elem_of_app. right. by left.
      * split; try done.
        -- split_and!; try done. cbn. by rewrite removelast_snoc.
        -- intros y c [= <- <-]. apply exists_last. cbn. lia.
    + injection Hst as <- <-. split; try done. split_and!; try done. cbn. apply Forall_app.
      split; [done|]. constructor; [|done]. specialize (Hc x cur eq_refl). revert Hc.
      apply List.Exists_impl. cbn. lia.
Qed.

Lemma rep_access_inv xs s h pc rs :
  lat_inv xs s -> rep_access (hist s) (rep s) = Some (h, pc, rs) ->
  lat_inv xs (mk h (rec s) pc (reports s ++ rs)).
Proof.
  intros [(Hb & Hs & Hf & Hm) Hl Ha Hc Hn Hns] Hst.
  destruct s as [[buckets samples max] rc rp rps]; cbn [hist rec rep reports] in *.
  destruct rp as [|cs|cs n]; cbn [rep_access] in Hst; [done|..].
  - unfold Latency.kLatencyBucketCount in Hst.
    destruct (Z.ltb_spec (Z.of_nat (length cs)) (20000 + 1)) as [Hlt|Hge]; injection Hst as <- <- <-;
      rewrite app_nil_r.
    + assert (Hmove : forall b, 0 <= b <= 20000 ->
        count_at b (cs ++ [arr_get buckets (Z.of_nat (length cs))])
        + arr_get (arr_set buckets (Z.of_nat (length cs)) 0) b
        = count_at b cs + arr_get buckets b /\
        0 <= arr_get (arr_set buckets (Z.of_nat (length cs)) 0) b <= arr_get buckets b).
      { intros b Hb'. destruct (Hn b Hb') as [_ Hb0]. cbn in Hb0, Hl. rewrite count_at_snoc by lia.
        case_decide as He.
        - subst b. rewrite arr_get_set_eq by lia. unfold count_at. rewrite decide_False by lia. lia.
        - rewrite arr_get_set_ne by lia. lia. }
      split; try done; [split_and!; try done| |].
      * intros b Hb'. etrans; [exact (Hb b Hb')|]. destruct (Hmove b Hb') as [E _].
        unfold taken_counts; cbn. lia.
      * cbn in *. by rewrite length_arr_set.
      * intros b Hb'. destruct (Hmove b Hb') as [E [H0 H1]]. destruct (Hn b Hb') as [Ht Hb0].
        unfold taken_counts in *; cbn in *. lia.
    + split; try done; [split_and!; try done|]; unfold taken_samples in *; cbn in *; lia.
  - injection Hst as <- <- <-.
    assert (Hmax : forall x, Exists (fun m => x <= m) ((r_max <$> rps) ++ [max]) ->
      Exists (fun m => x <= m) ((r_max <$> (rps ++ [mkRaw cs n max])) ++ [0])).
    { intros x He. rewrite fmap_app. apply Exists_app. by left. }
    split; try done.
    + split_and!.
      * intros b Hb'. etrans; [exact (Hb b Hb')|]. unfold taken_counts; cbn. rewrite fmap_app. cbn.
        rewrite zsum_snoc. cbn. lia.
      * etrans; [exact Hs|]. unfold taken_samples; cbn. rewrite fmap_app. cbn. rewrite zsum_snoc. cbn. lia.
      * revert Hf. apply List.Forall_impl. apply Hmax.
      * unfold maxima in *. cbn in *. rewrite fmap_app, !Forall_app in *.
        destruct Hm as [Hm1 Hm2]. split; [split; done|]. constructor; [by left|done].
    + intros x c Hrc. apply Hmax. by eapply Hc.
    + intros b Hb'. destruct (Hn b Hb') as [Ht Hb0]. split; [|done].
      unfold taken_counts in *; cbn in *. rewrite fmap_app. cbn. rewrite zsum_snoc. cbn. lia.
    + unfold taken_samples in *; cbn in *. rewrite fmap_app. cbn. rewrite zsum_snoc. cbn. lia.
Qed.

Lemma step_inv xs ev s s' :
  lat_inv xs s -> latencies_ok (xs ++ recorded [ev]) ->
  Z.of_nat (length (xs ++ recorded [ev])) < 2 ^ 64 ->
  step ev s = Some s' -> lat_inv (xs ++ recorded [ev]) s'.
Proof.
  intros I Hok Hlen Hst. destruct ev as [x|weak| |]; cbn [step recorded omap list_omap] in *;
    rewrite ?app_nil_r in *.
  - destruct (rec s) eqn:Er; try done. injection Hst as <-.
    destruct I as [(Hb & Hs & Hf & Hm) Hl Ha Hc Hn Hns]. rewrite Er in *.
    split; try done; [split_and!; try done|].
    + intros b Hb'. cbn [in_buckets rec]. rewrite removelast_snoc. by apply Hb.
    + cbn. by rewrite removelast_snoc.
    + cbn. by rewrite removelast_snoc.
    + revert Hm. apply List.Forall_impl. intros m [?|?]; [by left|right]. apply elem_of_app. by left.
    + intros y [= <-]. eauto.
  - destruct (rec_access weak (hist s) (rec s)) as [[h pc]|] eqn:E; [|done]. injection Hst as <-.
    by eapply rec_access_inv.
  - destruct (rep s) eqn:Er; try done. injection Hst as <-.
    destruct I as [(Hb & Hs & Hf & Hm) Hl Ha Hc Hn Hns].
    assert (E : forall b, 0 <= b <= 20000 ->
      taken_counts b (mk (hist s) (rec s) (PCounts []) (reports s)) = taken_counts b s).
    { intros b Hb'. unfold taken_counts. rewrite Er. cbn. unfold count_at. by rewrite decide_False by (cbn; lia). }
    assert (E' : taken_samples (mk (hist s) (rec s) (PCounts []) (reports s)) = taken_samples s).
    { unfold taken_samples. by rewrite Er. }
    split; try done; [split_and!; try done| |].
    + intros b Hb'. rewrite E by done. by apply Hb.
    + by rewrite E'.
    + intros b Hb'. rewrite E by done. by apply Hn.
    + by rewrite E'.
  - destruct (rep_access (hist s) (rep s)) as [[[h pc] rs]|] eqn:E; [|done]. injection Hst as <-.
    by eapply rep_access_inv.
Qed.

Lemma recorded_cons ev evs : recorded (ev :: evs) = recorded [ev] ++ recorded evs.
Proof. unfold recorded. by destruct ev. Qed.

Lemma exec_inv evs xs s s' :
  lat_inv xs s -> latencies_ok (xs ++ recorded evs) ->
  Z.of_nat (length (xs ++ recorded evs)) < 2 ^ 64 ->
  exec evs s = Some s' -> lat_inv (xs ++ recorded evs) s'.
Proof.
  revert xs s. induction evs as [|ev evs IH]; intros xs s I Hok Hlen Hst; cbn [exec] in Hst.
  { injection Hst as <-. by rewrite app_nil_r. }
  destruct (step ev s) as [s1|] eqn:Es; [|done]. cbn [mbind option_bind] in Hst.
  rewrite recorded_cons, app_assoc in *. unfold latencies_ok in Hok.
  apply Forall_app in Hok as Hok'. destruct Hok' as [Hok1 _].
  apply (IH _ s1); try done. apply (step_inv xs ev s); try done.
  rewrite length_app in Hlen. lia.
Qed.

Lemma start_lat_inv : lat_inv [] start.
Proof.
  assert (Hz : forall b, 0 <= b <= 20000 -> arr_get (Latency.buckets Latency.reset) b = 0).
  { intros b Hb. unfold Latency.reset; cbn [Latency.buckets].
    rewrite table_const by done. rewrite table_get; [done|unfold Latency.kLatencyBucketCount; lia]. }
  split; try done.
  - split_and!; try done.
    + intros b Hb. cbn [hist start]. by rewrite Hz.
    + constructor; [by left|done].
  - intros b Hb. cbn [hist start]. by rewrite Hz.
Qed.

(** ** Calls that are not interrupted *)

Definition is_rec (ev : event) : bool := match ev with Record_ _ | Rec _ => true | _ => false end.

(** The histogram once the record under way is done, if nothing interferes. *)
Definition rec_done (pc : rec_pc) (h : Latency.t) : Latency.t :=
  match pc with
  | RIdle => h
  | RBucket x => Latency.record_latency x h
  | RSamples x =>
      Latency.mk (Latency.buckets h) (Latency.samples_ h +% 1)
        (if Latency.max_ns_ h <? x then x else Latency.max_ns_ h)
  | RLoad x | RCas x _ =>
      Latency.mk (Latency.buckets h) (Latency.samples_ h)
        (if Latency.max_ns_ h <? x then x else Latency.max_ns_ h)
  end.

Definition rec_current (s : t) : Prop :=
  match rec s with RCas _ c => c = Latency.max_ns_ (hist s) | _ => True end.

Lemma rec_step_alone ev s s' :
  is_rec ev = true -> rec_current s -> step ev s = Some s' ->
  rec_current s' /\ rep s' = rep s /\ reports s' = reports s /\
  rec_done (rec s') (hist s') = Latency.record_all (recorded [ev]) (rec_done (rec s) (hist s)).
Proof.
  intros Hev Hcur Hst. destruct ev as [x|weak| |]; cbn [step] in Hst; try done.
  - destruct (rec s) eqn:Er; try done. by injection Hst as <-.
  - destruct s as [[buckets samples max] rc rp rps]; cbn [hist rec rep reports] in *.
    unfold rec_current in Hcur; cbn in Hcur.
    destruct rc as [|x|x|x|x cur]; cbn [rec_access] in Hst; [done|..]; try by injection Hst as <-.
    subst cur. destruct (max <? x) eqn:Elt;
      [rewrite Z.eqb_refl, andb_true_r in Hst; destruct weak|]; injection Hst as <-;
      unfold rec_current, rec_done, Latency.record_all;
      cbn [rec hist rep reports Latency.buckets Latency.samples_ Latency.max_ns_ recorded omap
        list_omap foldl]; by rewrite ?Elt.
Qed.

Lemma rec_exec_alone evs s s' :
  forallb is_rec evs = true -> rec_current s -> exec evs s = Some s' ->
  rep s' = rep s /\ reports s' = reports s /\
  rec_done (rec s') (hist s') = Latency.record_all (recorded evs) (rec_done (rec s) (hist s)).
Proof.
  revert s. induction evs as [|ev evs IH]; intros s Hev Hcur Hst; cbn [exec] in Hst.
  { by injection Hst as <-. }
  cbn in Hev. apply andb_true_iff in Hev as [Hev Hevs].
  destruct (step ev s) as [s1|] eqn:Es; [|done]. cbn [mbind option_bind] in Hst.
  destruct (rec_step_alone ev s s1 Hev Hcur Es) as (Hcur1 & E1 & E2 & E3).
  destruct (IH s1 Hevs Hcur1 Hst) as (E1' & E2' & E3'). split_and!; [congruence..|].
  rewrite E3', E3, (recorded_cons ev evs). unfold Latency.record_all. by rewrite foldl_app.
Qed.

(** The reporter exchanging [n] buckets in a row. *)
Lemma rep_counts_alone n cs rest samples max rc rps :
  (n <= length rest)%nat -> Z.of_nat (length cs + length rest) = 20001 ->
  exec (replicate n Rep)
    (mk (Latency.mk (replicate (length cs) 0 ++ rest) samples max) rc (PCounts cs) rps)
  = Some (mk (Latency.mk (replicate (length cs + n) 0 ++ drop n rest) samples max) rc
      (PCounts (cs ++ take n rest)) rps).
Proof.
  revert cs rest. induction n as [|n IH]; intros cs rest Hn Hl.
  { by rewrite Nat.add_0_r, app_nil_r. }
  destruct rest as [|v rest]; cbn [length] in *; [lia|].
  cbn [replicate exec]. cbn [step rep_access hist rep].
  rewrite (proj2 (Z.ltb_lt _ _)) by (unfold Latency.kLatencyBucketCount; lia).
  assert (Hget : arr_get (replicate (length cs) 0 ++ v :: rest) (Z.of_nat (length cs)) = v).
  { unfold arr_get. rewrite Nat2Z.id. apply list_lookup_total_correct.
    rewrite lookup_app_r by (rewrite length_replicate; lia). rewrite length_replicate.
    by rewrite Nat.sub_diag. }
  assert (Hset : arr_set (replicate (length cs) 0 ++ v :: rest) (Z.of_nat (length cs)) 0
    = replicate (length (cs ++ [v])) 0 ++ rest).
  { unfold arr_set. rewrite Nat2Z.id, insert_app_r_alt by (rewrite length_replicate; lia).
    rewrite length_replicate, Nat.sub_diag, length_app. cbn. rewrite replicate_add. cbn.
    by rewrite <- app_assoc. }
  rewrite Hget, Hset. cbn [mbind option_bind]. rewrite app_nil_r. cbn [rec].
  rewrite IH by (rewrite ?length_app; cbn; lia).
  rewrite length_app. cbn [length take drop]. rewrite <- app_assoc.
  by replace (length cs + 1 + n)%nat with (length cs + S n)%nat by lia.
Qed.

(** The whole of [snapshot_latency] undisturbed: 20003 accesses, then it returns. *)
Definition snapshot_call : list event := Snapshot :: replicate (Z.to_nat 20003) Rep.

Lemma lat_exec_app evs1 evs2 s : exec (evs1 ++ evs2) s = (exec evs1 s ≫= exec evs2).
Proof.
  revert s. induction evs1 as [|ev evs1 IH]; intros s; [done|]. cbn [app exec].
  destruct (step ev s) as [s1|]; [apply IH|done].
Qed.

Lemma rep_counts_all buckets samples max rc rps :
  Z.of_nat (length buckets) = 20001 ->
  exec (replicate (length buckets) Rep)
    (mk (Latency.mk buckets samples max) rc (PCounts []) rps)
  = Some (mk (Latency.mk (Latency.buckets Latency.reset) samples max) rc (PCounts buckets) rps).
Proof.
  intros Hl. rewrite (rep_counts_alone (length buckets) [] buckets) by (cbn; lia).
  rewrite drop_all, firstn_all, app_nil_r. cbn [length app Nat.add].
  replace (length buckets) with (Z.to_nat (Latency.kLatencyBucketCount + 1)); [done|].
  unfold Latency.kLatencyBucketCount. lia.
Qed.

Lemma snapshot_alone s :
  rep s = PIdle -> Z.of_nat (length (Latency.buckets (hist s))) = 20001 ->
  exec snapshot_call s = Some (mk Latency.reset (rec s) PIdle
    (reports s ++ [mkRaw (Latency.buckets (hist s)) (Latency.samples_ (hist s))
       (Latency.max_ns_ (hist s))])).
Proof.
  intros Hr Hl. unfold snapshot_call. cbn [exec step]. rewrite Hr. cbn [mbind option_bind].
  destruct s as [[buckets samples max] rc rp rps]; cbn [hist rec rep reports Latency.buckets
    Latency.samples_ Latency.max_ns_] in *.
  replace (Z.to_nat 20003) with (length buckets + 2)%nat by lia.
  rewrite replicate_add, lat_exec_app, rep_counts_all by done. cbn [mbind option_bind replicate exec].
  cbn [step hist rep rep_access]. unfold Latency.reset at 1; cbn [Latency.buckets].
  rewrite (proj2 (Z.ltb_ge _ _)) by (unfold Latency.kLatencyBucketCount; lia).
  cbn [mbind option_bind hist rep rec reports]. cbn [step hist rep rep_access mbind option_bind].
  cbn [rep_access hist rep rec reports mbind option_bind]. by rewrite app_nil_r.
Qed.

(** ** Properties *)

(** C33 (latency reports).  In every interleaving of the consumer recording
    latencies and the reporter taking snapshots, compare-and-exchange failures
    included: each latency recorded is counted once, in its bucket, in the
    snapshot under way or in one report, and likewise in the number of samples;
    every recorded latency is at most one of the maxima reported or still to be
    reported, and these are recorded latencies or 0.  And from any state in which
    both threads are outside the two functions and the histogram is empty, if
    latencies are then recorded and a snapshot is taken with no access of the
    other thread in between, the snapshot ends after 20003 accesses, reports
    the number of samples, the maximum and the overflow exactly and each quantile
    within one bucket, and leaves the histogram empty.  A snapshot that overlaps a
    record need not be exact: [overlapped_snapshot]. *)
Theorem latency_snapshot evs s :
  exec evs start = Some s -> latencies_ok (recorded evs) ->
  Z.of_nat (length (recorded evs)) < 2 ^ 64 ->
  conserved (recorded evs) s /\
  forall evs' s', rec s = RIdle -> rep s = PIdle -> hist s = Latency.reset ->
    forallb is_rec evs' = true -> exec evs' s = Some s' -> rec s' = RIdle ->
    latencies_ok (recorded evs') -> recorded evs' <> [] ->
    Z.of_nat (length (recorded evs')) * 1000 < 2 ^ 64 - 1000 ->
    exists s2 snap, exec snapshot_call s' = Some s2 /\ snapshots s2 = snapshots s ++ [snap] /\
      exact_snapshot (recorded evs') snap /\ hist s2 = Latency.reset.
Proof.
  intros Hex Hok Hlen.
  pose proof (exec_inv evs [] start s start_lat_inv Hok Hlen Hex) as I. cbn [app] in I.
  split; [apply I|]. intros evs' s' Hrec Hrep Hh Hevs Hex' Hrec' Hok' Hne Hlen'.
  assert (Hcur : rec_current s) by (unfold rec_current; by rewrite Hrec).
  destruct (rec_exec_alone evs' s s' Hevs Hcur Hex') as (E1 & E2 & E3).
  rewrite Hrec, Hrec', Hh in E3. cbn [rec_done] in E3. rewrite Hrep in E1.
  assert (Hpos : 0 < Z.of_nat (length (recorded evs'))).
  { destruct (recorded evs'); [done|]. cbn. lia. }
  pose proof (snapshot_exact (recorded evs') Hok' Hpos Hlen') as Hsnap.
  rewrite <- E3 in Hsnap. eexists _, _. split; [apply snapshot_alone; [done|]|].
  - rewrite E3, record_all_spec by (done || lia). unfold histogram, table; cbn.
    rewrite length_fmap, length_seqZ. unfold Latency.kLatencyBucketCount. lia.
  - split; [|split; [exact Hsnap|done]]. unfold snapshots; cbn [reports].
    rewrite fmap_app, E2. reflexivity.
Qed.

(** A record of 1500 ns that begins after the reporter has taken the buckets and
    is counted as a sample before the reporter takes those. *)
Definition overlap_tail : list event :=
  [Record_ 1500; Rec false; Rec false; Rep; Rep; Rec false; Rec false].

Definition overlap_run : list event :=
  (Snapshot :: replicate (length (Latency.buckets Latency.reset)) Rep) ++ overlap_tail.

Lemma overlap_tail_run B :
  Z.of_nat (length B) = 20001 -> arr_get B 1 = 0 ->
  exists s, exec overlap_tail (mk (Latency.mk B 0 0) RIdle (PCounts B) []) = Some s /\
    snapshots s = [Latency.snapshot_of B 1 0] /\
    Latency.samples_ (hist s) = 0 /\ Latency.max_ns_ (hist s) = 1500 /\
    arr_get (Latency.buckets (hist s)) 1 = 1.
Proof.
  intros Hl Hget. unfold overlap_tail.
  cbn [exec step rec hist rep reports rec_access rep_access mbind option_bind].
  rewrite (proj2 (Z.ltb_ge _ _)) by (unfold Latency.kLatencyBucketCount; lia).
  cbn [exec step rec hist rep reports rec_access rep_access mbind option_bind].
  eexists. split; [reflexivity|]. unfold snapshots; cbn [reports hist app fmap list_fmap r_counts
    r_samples r_max Latency.samples_ Latency.max_ns_ Latency.buckets].
  change (Latency.bucket_of 1500) with 1. rewrite arr_get_set_eq, Hget by lia.
  by split_and!.
Qed.

Lemma overlap_head_run B :
  Z.of_nat (length B) = 20001 ->
  exec (Snapshot :: replicate (length B) Rep) (mk (Latency.mk B 0 0) RIdle PIdle [])
  = Some (mk (Latency.mk (Latency.buckets Latency.reset) 0 0) RIdle (PCounts B) []).
Proof.
  intros Hl. cbn [exec step rep hist rec reports mbind option_bind].
  exact (rep_counts_all B 0 0 RIdle [] Hl).
Qed.

Lemma start_eta : start = mk (Latency.mk (Latency.buckets Latency.reset) 0 0) RIdle PIdle [].
Proof. reflexivity. Qed.

(** Such a snapshot reports a sample it has no bucket for, and 0 for every quantile
    and the maximum; the histogram keeps a bucket count and a maximum without a
    sample. *)
Theorem overlapped_snapshot :
  exists s, exec overlap_run start = Some s /\
    snapshots s = [Latency.mkSnapshot 1 0 0 0 0 0] /\
    Latency.samples_ (hist s) = 0 /\ Latency.max_ns_ (hist s) = 1500 /\
    arr_get (Latency.buckets (hist s)) 1 = 1.
Proof.
  assert (Hl : Z.of_nat (length (Latency.buckets Latency.reset)) = 20001) by (vm_compute; reflexivity).
  assert (Hget : arr_get (Latency.buckets Latency.reset) 1 = 0) by (vm_compute; reflexivity).
  assert (Hsnap : Latency.snapshot_of (Latency.buckets Latency.reset) 1 0
    = Latency.mkSnapshot 1 0 0 0 0 0) by (vm_compute; reflexivity).
  destruct (overlap_tail_run _ Hl Hget) as (s & Hex & Hsn & Hrest).
  exists s. unfold overlap_run. rewrite start_eta, lat_exec_app, (overlap_head_run _ Hl).
  split; [exact Hex|]. split; [|exact Hrest]. rewrite Hsn, Hsnap. reflexivity.
Qed.

(** A record that the reporter's exchange of the maximum makes try again. *)
Definition busy_run : list event :=
  [Record_ 1500; Rec false; Rec false; Rec false; Rec true; Snapshot; Rep; Rep; Rec false].

Lemma latency_snapshot_witness :
  exists s, exec busy_run start = Some s /\ conserved [1500] s.
Proof.
  destruct (exec busy_run start) as [s|] eqn:E; [|vm_compute in E; discriminate E].
  exists s. split; [reflexivity|].
  apply (latency_snapshot busy_run s E).
  - apply (bool_decide_unpack _). vm_compute. exact I.
  - reflexivity.
Defined.
