(* ===== verification/EngineV2.v ===== *)
(** * EngineV2: the batched engine v2

    Models [Engine::io_loop] and [Engine::process] of
    [src/engine/v2/engine.cpp] as two threads that take turns, one ring
    operation, receive call or message at a time.  What the receive calls deliver
    is the environment's choice within what [Receiver] guarantees.

    Both threads push to the free ring, which supports one producer only.  So a
    push to it is cut at its accesses ([Ring.push_access]) and the threads may
    interleave there.  [run] has all interleavings; [run_apart] those in which the
    two threads are never in the middle of such a push at the same time, which
    nothing in the code ensures.  The theorems on slots and delivery are about the
    latter; [v2_overlap_loses_slot] shows what happens otherwise.  The other ring
    operations have one thread each and act as single steps by [Spsc]. *)

From Stdlib Require Import ZArith Lia.
From stdpp Require Import base numbers list relations.
From S2P Require Import Prelude Wire Ring Metrics Pool EngineV1 Os Latency.

Local Open Scope Z_scope.

Module EngineV2.

Definition kBatch : nat := 32.

(** The members of [Engine] the two loops use, and the local [msg] of
    [process]. *)
Record t := mk {
  running_ : bool;
  pool_ : FramePool.t;
  recv_ready_ns_ : list Z;
  seq : tracker;
  m_ : Metrics.t;
  latency : Latency.t;
  msg : MarketDataMsg
}.

Definition set_pool (e : t) (p : FramePool.t) : t :=
  mk (running_ e) p (recv_ready_ns_ e) (seq e) (m_ e) (latency e) (msg e).
Definition set_running (e : t) (b : bool) : t :=
  mk b (pool_ e) (recv_ready_ns_ e) (seq e) (m_ e) (latency e) (msg e).
Definition set_stamp (e : t) (idx ns : Z) : t :=
  mk (running_ e) (pool_ e) (arr_set (recv_ready_ns_ e) idx ns) (seq e) (m_ e) (latency e) (msg e).
Definition set_metrics (e : t) (m : Metrics.t) : t :=
  mk (running_ e) (pool_ e) (recv_ready_ns_ e) (seq e) m (latency e) (msg e).

(** An access of [pool_->free.push(idx)], whose result is ignored. *)
Definition free_push_step (C idx : Z) (st : push_pc) (e : t) : t * option push_pc :=
  let '(rb, st) := push_access C idx st (FramePool.free (pool_ e)) in
  (set_pool e (FramePool.set_free (pool_ e) rb), st).

(** ** The I/O thread *)

(** What follows [release_reserved]. *)
Inductive after_release :=
  | ToTop            (* nothing received: next round of the outer loop *)
  | ToReserve        (* after [publish_batch]: reserve for the next batch *)
  | EpollFailed      (* [epoll_receive] failed *)
  | DrainFailed.     (* [receive_batch] failed while draining *)

(** Where [io_loop] is; [indices] are the first [reserved] elements of the array
    of that name, [frames] pairs them with what was received. *)
Inductive io_pc :=
  | IoTop
  | IoReserve (draining : bool) (indices : list Z)
  | IoReceive (draining : bool) (indices : list Z)
  | IoDrain (frames : list (Z * dgram)) (unused : list Z)
  | IoPublish (received_ns : Z) (frames : list (Z * dgram)) (unused : list Z)
  | IoRelease (indices : list Z) (next : after_release)
  | IoPush (idx : Z) (st : push_pc) (next : io_pc)     (* in free.push(idx) *)
  | IoDone.

(** One frame of [publish_batch]; [true]: [free.push] of its index follows. *)
Definition publish_one (C received_ns : Z) (idx : Z) (d : dgram) (e : t) : t * bool :=
  if dg_trunc d || negb (dg_len d =? kWireSize) then
    (set_stamp (set_metrics e (Metrics.inc_drops 1 (m_ e))) idx 0, true)
  else
    let e := set_stamp e idx received_ns in
    let '(ok, rb) := RingBuffer.push C idx (FramePool.ready (pool_ e)) in
    let e := set_pool e (FramePool.set_ready (pool_ e) rb) in
    if negb ok then (set_stamp (set_metrics e (Metrics.inc_drops 1 (m_ e))) idx 0, true)
    else (e, false).

(** A step of the I/O thread other than a receive call; [now] is the clock. *)
Definition io_step (C now : Z) (e : t) (pc : io_pc) : t * io_pc :=
  match pc with
  | IoTop => if running_ e then (e, IoReserve false []) else (e, IoDone)
  | IoReserve draining indices =>
      if (kBatch <=? length indices)%nat then (e, IoReceive draining indices) else
      let '(popped, rb) := RingBuffer.pop C (FramePool.free (pool_ e)) in
      let e := set_pool e (FramePool.set_free (pool_ e) rb) in
      match popped with
      | Some idx => (e, IoReserve draining (indices ++ [idx]))
      | None => match indices with [] => (e, IoTop) | _ => (e, IoReceive draining indices) end
      end
  | IoReceive _ _ => (e, pc)
  | IoDrain frames unused =>
      if running_ e then (e, IoPublish now frames unused) else (e, IoTop)
  | IoPublish received_ns [] unused => (e, IoRelease unused ToReserve)
  | IoPublish received_ns ((idx, d) :: frames) unused =>
      let '(e, back) := publish_one C received_ns idx d e in
      let next := IoPublish received_ns frames unused in
      (e, if back then IoPush idx PushHead next else next)
  | IoRelease (idx :: indices) next => (e, IoPush idx PushHead (IoRelease indices next))
  | IoPush idx st next =>
      let '(e, st) := free_push_step C idx st e in
      (e, match st with Some st => IoPush idx st next | None => next end)
  | IoRelease [] ToTop => (e, IoTop)
  | IoRelease [] ToReserve => (e, IoReserve true [])
  | IoRelease [] EpollFailed => (set_running e false, IoDone)
  | IoRelease [] DrainFailed => if running_ e then (set_running e false, IoDone) else (e, IoTop)
  | IoDone => (e, IoDone)
  end.

(** The kernel writes the datagrams into the slots. *)
Fixpoint write_frames (frames : list (Z * dgram)) (p : FramePool.t) : FramePool.t :=
  match frames with
  | [] => p
  | (idx, d) :: frames => write_frames frames (FramePool.write_slot p idx (dg_data d))
  end.

(** A receive call returning -1, 0 or the datagrams [ds]. *)
Inductive receive_result := RxError | RxNone | RxGot (ds : list dgram).

Definition io_receive (res : receive_result) (draining : bool) (indices : list Z) (e : t)
    : t * io_pc :=
  match res with
  | RxNone => (e, IoRelease indices ToTop)
  | RxError => (e, IoRelease indices (if draining then DrainFailed else EpollFailed))
  | RxGot ds =>
      let frames := zip indices ds in
      (set_pool e (write_frames frames (pool_ e)), IoDrain frames (drop (length ds) indices))
  end.

(** ** The consumer thread *)

Inductive c_pc :=
  | CTop
  | CPop (indices : list Z)
  | CHandle (todo handled : list Z)
  | CReturn (indices : list Z)
  | CPush (idx : Z) (st : push_pc) (indices : list Z)  (* in free.push(idx) *)
  | CDone.

#[global] Instance c_pc_eq_dec : EqDecision c_pc.
Proof. solve_decision. Defined.

(** One message of a batch: decode, track, record its latency. *)
Definition handle_one (o : byte_order) (now idx : Z) (e : t) : t :=
  let '(msg, seq, m) :=
    consume_slot o (arr_get (FramePool.slots (pool_ e)) idx) (msg e, seq e, m_ e) in
  let start_ns := arr_get (recv_ready_ns_ e) idx in
  let lat :=
    if negb (start_ns =? 0) && (start_ns <=? now)
    then Latency.record_latency (now - start_ns) (latency e) else latency e in
  mk (running_ e) (pool_ e) (arr_set (recv_ready_ns_ e) idx 0) seq m lat msg.

Definition c_step (o : byte_order) (C now : Z) (e : t) (pc : c_pc) : t * c_pc :=
  match pc with
  | CTop =>
      if running_ e || negb (RingBuffer.empty (FramePool.ready (pool_ e)))
      then (e, CPop []) else (e, CDone)
  | CPop indices =>
      if (kBatch <=? length indices)%nat then (e, CHandle indices []) else
      let '(popped, rb) := RingBuffer.pop C (FramePool.ready (pool_ e)) in
      let e := set_pool e (FramePool.set_ready (pool_ e) rb) in
      match popped with
      | Some idx => (e, CPop (indices ++ [idx]))
      | None => match indices with [] => (e, CTop) | _ => (e, CHandle indices []) end
      end
  | CHandle (idx :: todo) handled => (handle_one o now idx e, CHandle todo (handled ++ [idx]))
  | CHandle [] handled => (e, CReturn handled)
  | CReturn (idx :: indices) => (e, CPush idx PushHead indices)
  | CReturn [] => (e, CTop)
  | CPush idx st indices =>
      let '(e, st) := free_push_step C idx st e in
      (e, match st with Some st => CPush idx st indices | None => CReturn indices end)
  | CDone => (e, CDone)
  end.

(** ** Interleavings *)

Definition config : Type := t * io_pc * c_pc.

Inductive event := Io (now : Z) | Rx (res : receive_result) | Consumer (now : Z) | Stop.

(** At most one datagram per reserved frame, none bigger than a slot. *)
Definition result_ok (res : receive_result) (indices : list Z) : Prop :=
  match res with
  | RxGot ds => ds <> [] /\ (length ds <= length indices)%nat /\ Forall (dgram_ok kWireSize) ds
  | _ => True
  end.

Inductive step (o : byte_order) (C : Z) : config -> event -> config -> Prop :=
  | step_io now e io c e' io' :
      io_step C now e io = (e', io') -> step o C (e, io, c) (Io now) (e', io', c)
  | step_rx res draining indices e c e' io' :
      result_ok res indices -> io_receive res draining indices e = (e', io') ->
      step o C (e, IoReceive draining indices, c) (Rx res) (e', io', c)
  | step_consumer now e io c e' c' :
      c_step o C now e c = (e', c') -> step o C (e, io, c) (Consumer now) (e', io, c')
  | step_stop e io c : step o C (e, io, c) Stop (set_running e false, io, c).

Inductive run (o : byte_order) (C : Z) (s : config) : list event -> config -> Prop :=
  | run_nil : run o C s [] s
  | run_snoc evs s1 ev s2 : run o C s evs s1 -> step o C s1 ev s2 -> run o C s (evs ++ [ev]) s2.

(** In the middle of a push to the free ring: from its first load to its store. *)
Definition pushing (st : push_pc) : bool := match st with PushHead => false | _ => true end.

Definition io_pushing (pc : io_pc) : bool :=
  match pc with IoPush _ st _ => pushing st | _ => false end.

Definition c_pushing (pc : c_pc) : bool :=
  match pc with CPush _ st _ => pushing st | _ => false end.

(** At most one thread is. *)
Definition apart (s : config) : Prop := io_pushing s.1.2 && c_pushing s.2 = false.

(** The runs all of whose states are such. *)
Inductive run_apart (o : byte_order) (C : Z) (s : config) : list event -> config -> Prop :=
  | apart_nil : apart s -> run_apart o C s [] s
  | apart_snoc evs s1 ev s2 :
      run_apart o C s evs s1 -> step o C s1 ev s2 -> apart s2 -> run_apart o C s (evs ++ [ev]) s2.

(** The engine when [receive] starts the threads. *)
Definition start (C : Z) (free_buf ready_buf : list Z) : config :=
  (mk true (FramePool.init C (FramePool.construct C free_buf ready_buf))
     (replicate (Z.to_nat C) 0) fresh_tracker Metrics.zero Latency.reset zero_msg, IoTop, CTop).

End EngineV2.

(** ** Who holds which slot *)

Fixpoint io_frames (pc : EngineV2.io_pc) : list (Z * dgram) :=
  match pc with
  | EngineV2.IoDrain frames _ | EngineV2.IoPublish _ frames _ => frames
  | EngineV2.IoPush _ _ next => io_frames next
  | _ => []
  end.

(** An index counts as held until the push has stored the new [tail_]. *)
Fixpoint io_held (pc : EngineV2.io_pc) : list Z :=
  match pc with
  | EngineV2.IoReserve _ indices | EngineV2.IoReceive _ indices
  | EngineV2.IoRelease indices _ => indices
  | EngineV2.IoDrain frames unused | EngineV2.IoPublish _ frames unused => frames.*1 ++ unused
  | EngineV2.IoPush idx _ next => idx :: io_held next
  | _ => []
  end.

(** The slots the consumer still has to read, and all it holds. *)
Definition c_pending (pc : EngineV2.c_pc) : list Z :=
  match pc with
  | EngineV2.CPop indices => indices
  | EngineV2.CHandle todo _ => todo
  | _ => []
  end.

Definition c_held (pc : EngineV2.c_pc) : list Z :=
  match pc with
  | EngineV2.CPop indices | EngineV2.CReturn indices => indices
  | EngineV2.CHandle todo handled => todo ++ handled
  | EngineV2.CPush idx _ indices => idx :: indices
  | _ => []
  end.

Lemma c_pending_held c j : j ∈ c_pending c -> j ∈ c_held c.
Proof.
  destruct c; simpl; rewrite ?elem_of_app, ?elem_of_nil, ?elem_of_cons; tauto.
Qed.

(** A datagram that is a whole message. *)
Definition whole (d : dgram) : Prop := dg_trunc d = false /\ dg_len d = kWireSize.

#[global] Instance whole_dec d : Decision (whole d).
Proof. unfold whole; apply _. Defined.

Definition slot (p : FramePool.t) (idx : Z) : list Z := arr_get (FramePool.slots p) idx.

Definition v2_state (e : EngineV2.t) : MarketDataMsg * tracker * Metrics.t :=
  (EngineV2.msg e, EngineV2.seq e, EngineV2.m_ e).

Definition v2_received (evs : list EngineV2.event) : list dgram :=
  evs ≫= (fun ev => match ev with EngineV2.Rx (EngineV2.RxGot ds) => ds | _ => [] end).

Lemma v2_received_snoc evs ev :
  v2_received (evs ++ [ev]) = v2_received evs ++
    match ev with EngineV2.Rx (EngineV2.RxGot ds) => ds | _ => [] end.
Proof.
  unfold v2_received. rewrite bind_app. f_equal. cbn [mbind list_bind]. by rewrite app_nil_r.
Qed.

Section v2.
Context (o : byte_order) (C : Z) `{HC : RingCapacity C}.

(** [consumed]: the frames processed; [lost]: datagrams counted as dropped by the
    I/O thread; [leaked], [gone]: slots and datagrams abandoned when the engine
    is stopped between a receive and its publication. *)
Record v2_inv (evs : list EngineV2.event) (s : EngineV2.config) (consumed : list (list Z))
    (lost : nat) (leaked : list Z) (gone : nat) : Prop := {
  v2_pool : pool_inv C (EngineV2.pool_ s.1.1) (io_held s.1.2 ++ c_held s.2 ++ leaked);
  v2_run : EngineV2.running_ s.1.1 = true -> leaked = [] /\ gone = 0%nat;
  v2_slots : Forall (fun f => whole f.2 -> slot (EngineV2.pool_ s.1.1) f.1 = dg_data f.2)
    (io_frames s.1.2);
  v2_order : sublist
    (consumed ++ (slot (EngineV2.pool_ s.1.1) <$> c_pending s.2)
     ++ queued C (EngineV2.pool_ s.1.1) ++ (dg_data <$> filter whole (io_frames s.1.2).*2))
    (dg_data <$> filter whole (v2_received evs));
  v2_count : (length consumed + length (c_pending s.2) + length (queued C (EngineV2.pool_ s.1.1))
    + length (io_frames s.1.2) + lost + gone = length (v2_received evs))%nat;
  v2_metrics : v2_state s.1.1 = add_drops (Z.of_nat lost) (consume_all o consumed start_state)
}.

(** What a thread in the middle of a push to the free ring relies on; what follows
    a push is not itself a push. *)
Definition io_push_ok (p : FramePool.t) (io : EngineV2.io_pc) : Prop :=
  match io with
  | EngineV2.IoPush idx st next =>
      push_ok C idx st (FramePool.free p) /\
      match next with EngineV2.IoPush _ _ _ => False | _ => True end
  | _ => True
  end.

Definition c_push_ok (p : FramePool.t) (c : EngineV2.c_pc) : Prop :=
  match c with
  | EngineV2.CPush idx st _ => push_ok C idx st (FramePool.free p)
  | _ => True
  end.

Lemma c_push_ok_quiet p p' c : EngineV2.c_pushing c = false -> c_push_ok p c -> c_push_ok p' c.
Proof. by destruct c as [| | | |i [] n|]. Qed.

Lemma io_push_ok_quiet p p' io :
  EngineV2.io_pushing io = false -> io_push_ok p io -> io_push_ok p' io.
Proof. by destruct io as [| | | | | |i [] n|]. Qed.

Lemma c_push_ok_pop p c rb r :
  RingBuffer.pop C (FramePool.free p) = (r, rb) -> c_push_ok p c ->
  c_push_ok (FramePool.set_free p rb) c.
Proof.
  intros Hp Hc. destruct c as [| | | |i st n|]; try done.
  cbn. apply (push_ok_pop C) in Hc. by rewrite Hp in Hc.
Qed.

(** An access of a push of a held index, the other thread not pushing. *)
Lemma free_push_step_inv e idx st held :
  pool_inv C (EngineV2.pool_ e) (idx :: held) ->
  push_ok C idx st (FramePool.free (EngineV2.pool_ e)) ->
  let '(e', st') := EngineV2.free_push_step C idx st e in
  FramePool.slots (EngineV2.pool_ e') = FramePool.slots (EngineV2.pool_ e) /\
  ready_items C (EngineV2.pool_ e') = ready_items C (EngineV2.pool_ e) /\
  v2_state e' = v2_state e /\ EngineV2.running_ e' = EngineV2.running_ e /\
  match st' with
  | Some st' => pool_inv C (EngineV2.pool_ e') (idx :: held) /\
      push_ok C idx st' (FramePool.free (EngineV2.pool_ e'))
  | None => pool_inv C (EngineV2.pool_ e') held
  end.
Proof.
  intros I Hok. unfold EngineV2.free_push_step. pose proof I as [If Ir Is Il Io].
  pose proof (pool_count C _ _ I) as Hn. cbn [length] in Hn.
  pose proof (push_access_spec C idx st _ If) as Hp.
  pose proof (free_push_spec C (EngineV2.pool_ e) held idx I) as Hfp.
  destruct (push_access C idx st _) as [rb st']. destruct Hp as [If' Hp];
    [unfold has_room; unfold free_items in Hn; lia|done|].
  split_and!; [done..|]. destruct st' as [st'|].
  - destruct Hp as [Hi Hok']. split; [|done]. split; try done. cbn. unfold free_items.
    cbn. rewrite Hi. exact Io.
  - destruct Hp as [-> _]. destruct (RingBuffer.push C idx _) as [b rb'].
    by destruct Hfp as (_ & I' & _).
Qed.

Lemma queued_ext p p' :
  FramePool.slots p' = FramePool.slots p -> ready_items C p' = ready_items C p ->
  queued C p' = queued C p.
Proof. intros Hs Hr. unfold queued. by rewrite Hs, Hr. Qed.

Lemma slot_ext p p' idx : FramePool.slots p' = FramePool.slots p -> slot p' idx = slot p idx.
Proof. intros Hs. unfold slot. by rewrite Hs. Qed.

(** A step that touches neither the slots, nor the ready ring, nor the
    consumer's state, and only moves held indices around. *)
Lemma v2_inv_frame evs ev s s' consumed lost leaked gone :
  v2_inv evs s consumed lost leaked gone ->
  match ev with EngineV2.Rx (EngineV2.RxGot _) => False | _ => True end ->
  pool_inv C (EngineV2.pool_ s'.1.1) (io_held s'.1.2 ++ c_held s'.2 ++ leaked) ->
  (EngineV2.running_ s'.1.1 = true -> EngineV2.running_ s.1.1 = true) ->
  FramePool.slots (EngineV2.pool_ s'.1.1) = FramePool.slots (EngineV2.pool_ s.1.1) ->
  ready_items C (EngineV2.pool_ s'.1.1) = ready_items C (EngineV2.pool_ s.1.1) ->
  v2_state s'.1.1 = v2_state s.1.1 -> io_frames s'.1.2 = io_frames s.1.2 ->
  c_pending s'.2 = c_pending s.2 ->
  v2_inv (evs ++ [ev]) s' consumed lost leaked gone.
Proof.
  intros [I Hrun Hsl Hord Hcnt Hst] Hev I' Hrun' Es Er Est Ef Ec.
  assert (Hrx : v2_received (evs ++ [ev]) = v2_received evs).
  { rewrite v2_received_snoc. destruct ev as [|[]| |]; try done; by rewrite app_nil_r. }
  split; rewrite ?Hrx, ?Ef, ?Ec, ?(queued_ext _ _ Es Er), ?Est; auto.
  - revert Hsl. apply List.Forall_impl. intros f Hf Hw. rewrite (slot_ext _ _ _ Es). auto.
  - rewrite (list_fmap_ext (slot (EngineV2.pool_ s'.1.1)) (slot (EngineV2.pool_ s.1.1))); [done|].
    intros. by apply slot_ext.
Qed.

(** Publishing one frame. *)
Lemma publish_one_spec now idx d e held :
  pool_inv C (EngineV2.pool_ e) (idx :: held) ->
  let '(e', back) := EngineV2.publish_one C now idx d e in
  back = negb (bool_decide (whole d)) /\
  pool_inv C (EngineV2.pool_ e') (if back then idx :: held else held) /\
  FramePool.slots (EngineV2.pool_ e') = FramePool.slots (EngineV2.pool_ e) /\
  FramePool.free (EngineV2.pool_ e') = FramePool.free (EngineV2.pool_ e) /\
  EngineV2.running_ e' = EngineV2.running_ e /\
  if back then
    ready_items C (EngineV2.pool_ e') = ready_items C (EngineV2.pool_ e) /\
    v2_state e' = add_drops 1 (v2_state e)
  else
    ready_items C (EngineV2.pool_ e') = ready_items C (EngineV2.pool_ e) ++ [idx] /\
    v2_state e' = v2_state e.
Proof.
  intros I. unfold EngineV2.publish_one.
  assert (Hw : dg_trunc d || negb (dg_len d =? kWireSize) = negb (bool_decide (whole d))).
  { unfold whole. case_bool_decide as Hd; unfold whole in Hd;
      destruct (dg_trunc d), (Z.eqb_spec (dg_len d) kWireSize); naive_solver. }
  rewrite Hw. case_bool_decide as Hd; cbn [negb].
  - pose proof (ready_push_spec C (EngineV2.pool_ e) held idx I) as Hp.
    destruct (RingBuffer.push C idx (FramePool.ready (EngineV2.pool_ (EngineV2.set_stamp e idx now))))
      as [b rb] eqn:E. cbn in E. rewrite E in Hp. destruct Hp as (-> & I' & Hr). cbn [negb].
    by split_and!.
  - by split_and!.
Qed.

Lemma inv_publish evs now rns e idx d frames unused c consumed lost leaked gone :
  v2_inv evs (e, EngineV2.IoPublish rns ((idx, d) :: frames) unused, c) consumed lost leaked gone ->
  let '(e', back) := EngineV2.publish_one C rns idx d e in
  let next := EngineV2.IoPublish rns frames unused in
  FramePool.free (EngineV2.pool_ e') = FramePool.free (EngineV2.pool_ e) /\
  exists lost', v2_inv (evs ++ [EngineV2.Io now])
    (e', if back then EngineV2.IoPush idx PushHead next else next, c) consumed lost' leaked gone.
Proof.
  intros [I Hrun Hsl Hord Hcnt Hst].
  cbn [fst snd io_held io_frames fmap list_fmap app length] in *.
  apply Forall_cons_1 in Hsl as [Hslot Hsl]. cbn [fst snd] in Hslot.
  pose proof (publish_one_spec rns idx d e _ I) as Hspec.
  destruct (EngineV2.publish_one C rns idx d e) as [e' back].
  destruct Hspec as (Hback & I' & Es & Ef & Er & Hcase). split; [done|].
  assert (Hslots : forall i, slot (EngineV2.pool_ e') i = slot (EngineV2.pool_ e) i)
    by (intros; by apply slot_ext).
  rewrite filter_cons in Hord.
  assert (Hsl' : Forall (fun f => whole f.2 -> slot (EngineV2.pool_ e') f.1 = dg_data f.2) frames)
    by (revert Hsl; apply List.Forall_impl; intros f Hf Hw; rewrite Hslots; auto).
  assert (Hpend : slot (EngineV2.pool_ e') <$> c_pending c = slot (EngineV2.pool_ e) <$> c_pending c)
    by (apply list_fmap_ext; auto).
  rewrite <- Er in Hrun. case_bool_decide as Hd; cbn [negb] in Hback; subst back;
    destruct Hcase as [Hready Hstate].
  - rewrite decide_True in Hord by done.
    assert (Hq : queued C (EngineV2.pool_ e') = queued C (EngineV2.pool_ e) ++ [dg_data d]).
    { unfold queued. rewrite Hready, Es, fmap_app. cbn [fmap list_fmap].
      by rewrite <- (Hslot Hd). }
    exists lost. split; cbn [fst snd io_held io_frames]; rewrite ?v2_received_snoc, ?app_nil_r; auto.
    + rewrite Hpend, Hq. cbn [fmap list_fmap] in Hord. by rewrite <- !app_assoc in *.
    + rewrite Hq, length_app. simpl. lia.
    + by rewrite Hstate.
  - rewrite decide_False in Hord by done.
    assert (Hq : queued C (EngineV2.pool_ e') = queued C (EngineV2.pool_ e))
      by (by apply queued_ext).
    exists (S lost). split; cbn [fst snd io_held io_frames];
      rewrite ?v2_received_snoc, ?app_nil_r; auto.
    + by rewrite Hpend, Hq.
    + rewrite Hq. lia.
    + rewrite Hstate, Hst. unfold add_drops. cbn [fst snd]. rewrite inc_drops_add.
      by replace (Z.of_nat lost + 1) with (Z.of_nat (S lost)) by lia.
Qed.

(** Stopping between a receive and its publication abandons the batch. *)
Lemma inv_abandon evs now e frames unused c consumed lost leaked gone :
  v2_inv evs (e, EngineV2.IoDrain frames unused, c) consumed lost leaked gone ->
  EngineV2.running_ e = false ->
  v2_inv (evs ++ [EngineV2.Io now]) (e, EngineV2.IoTop, c) consumed lost
    (frames.*1 ++ unused ++ leaked) (gone + length frames).
Proof.
  intros [I Hrun Hsl Hord Hcnt Hst] Hstop. cbn [fst snd io_held io_frames] in *.
  split; cbn [fst snd io_held io_frames]; rewrite ?v2_received_snoc, ?app_nil_r; try done.
  - eapply held_perm; [|exact I]. solve_Permutation.
  - by rewrite Hstop.
  - etrans; [|exact Hord]. rewrite !app_assoc. by apply sublist_inserts_r.
  - cbn [length]. lia.
Qed.

(** The consumer takes an index from the ready ring. *)
Lemma inv_pop evs now e io indices c' rb idx consumed lost leaked gone :
  v2_inv evs (e, io, EngineV2.CPop indices) consumed lost leaked gone ->
  RingBuffer.pop C (FramePool.ready (EngineV2.pool_ e)) = (Some idx, rb) ->
  c' = EngineV2.CPop (indices ++ [idx]) ->
  v2_inv (evs ++ [EngineV2.Consumer now])
    (EngineV2.set_pool e (FramePool.set_ready (EngineV2.pool_ e) rb), io, c')
    consumed lost leaked gone.
Proof.
  intros [I Hrun Hsl Hord Hcnt Hst] Hpop ->. cbn [fst snd c_held c_pending] in *.
  pose proof (ready_pop_spec C _ _ I) as Hp. rewrite Hpop in Hp. destruct Hp as [I' Hr].
  set (p' := FramePool.set_ready (EngineV2.pool_ e) rb) in *.
  assert (Hq : queued C (EngineV2.pool_ e) = slot p' idx :: queued C p')
    by (unfold queued; by rewrite Hr).
  split; cbn [fst snd c_held c_pending EngineV2.set_pool EngineV2.pool_];
    rewrite ?v2_received_snoc, ?app_nil_r; try done.
  - eapply held_perm; [|exact I']. solve_Permutation.
  - rewrite Hq in Hord. rewrite fmap_app, <- !app_assoc. exact Hord.
  - rewrite Hq in Hcnt. rewrite length_app. cbn [length] in *. lia.
Qed.

(** The consumer handles a message. *)
Lemma inv_handle evs now e io idx todo handled consumed lost leaked gone :
  v2_inv evs (e, io, EngineV2.CHandle (idx :: todo) handled) consumed lost leaked gone ->
  v2_inv (evs ++ [EngineV2.Consumer now])
    (EngineV2.handle_one o now idx e, io, EngineV2.CHandle todo (handled ++ [idx]))
    (consumed ++ [slot (EngineV2.pool_ e) idx]) lost leaked gone.
Proof.
  intros [I Hrun Hsl Hord Hcnt Hst]. cbn [fst snd c_held c_pending] in *.
  assert (He : EngineV2.pool_ (EngineV2.handle_one o now idx e) = EngineV2.pool_ e /\
    EngineV2.running_ (EngineV2.handle_one o now idx e) = EngineV2.running_ e /\
    v2_state (EngineV2.handle_one o now idx e)
      = consume_slot o (slot (EngineV2.pool_ e) idx) (v2_state e)).
  { unfold EngineV2.handle_one, slot, v2_state.
    by destruct (consume_slot o _ _) as [[? ?] ?]. }
  destruct He as (Ep & Er & Es).
  split; cbn [fst snd c_held c_pending]; rewrite ?Ep, ?Er, ?v2_received_snoc, ?app_nil_r; try done.
  - eapply held_perm; [|exact I]. solve_Permutation.
  - rewrite <- app_assoc. exact Hord.
  - rewrite length_app. cbn [length] in *. lia.
  - rewrite Es, Hst. unfold add_drops at 1, consume_all. rewrite fold_left_app. cbn [fold_left].
    destruct (fold_left _ consumed start_state) as [[msg tr] m]. cbn [fst snd].
    by rewrite consume_slot_drops.
Qed.

Lemma pool_nodup p held : pool_inv C p held -> NoDup (free_items C p ++ ready_items C p ++ held).
Proof. intros I. rewrite (pool_owned C _ _ I). apply NoDup_seqZ. Qed.

Lemma write_frames_spec frames p held :
  pool_inv C p held -> NoDup frames.*1 -> frames.*1 ⊆ held ->
  Forall (dgram_ok kWireSize) frames.*2 ->
  let p' := EngineV2.write_frames frames p in
  pool_inv C p' held /\ ready_items C p' = ready_items C p /\
  (forall j, 0 <= j -> j ∉ frames.*1 -> slot p' j = slot p j) /\
  Forall (fun f => whole f.2 -> slot p' f.1 = dg_data f.2) frames.
Proof.
  revert p. induction frames as [|[i d] frames IH]; intros p I Hnd Hsub Hok; [by split_and!|].
  cbn [fmap list_fmap fst snd EngineV2.write_frames] in *.
  apply NoDup_cons in Hnd as [Hi Hnd]. apply Forall_cons_1 in Hok as [(Hlen & Hdl & _) Hok].
  assert (Hih : i ∈ held) by (apply Hsub; left).
  pose proof (held_in_range C _ _ _ I Hih) as Hr.
  pose proof (write_slot_inv C p held i (dg_data d) I) as I1.
  destruct (IH _ I1 Hnd) as (I' & Hready & Hother & Hslots); [set_solver|done|].
  split_and!; [done|done| |constructor; [|done]].
  - intros j Hj Hjn. apply not_elem_of_cons in Hjn as [Hne Hjn]. rewrite Hother by done.
    apply slot_write_other; [lia|lia|done].
  - intros [_ Hw]. cbn [fst snd] in *. rewrite Hother by (lia || done).
    assert (Hl44 : length (dg_data d) = 44%nat) by (unfold kWireSize in *; lia).
    unfold slot. rewrite (slot_read_write C p held) by (done || lia).
    by apply take_ge; lia.
Qed.

Lemma zip_fst_take {A B} (l : list A) (k : list B) :
  (length k <= length l)%nat -> (zip l k).*1 = take (length k) l.
Proof.
  revert k. induction l as [|x l IH]; intros [|y k] Hl; simpl in *; try done; try lia.
  f_equal. apply IH. lia.
Qed.

Lemma inv_receive evs ds draining indices e c consumed lost leaked gone :
  v2_inv evs (e, EngineV2.IoReceive draining indices, c) consumed lost leaked gone ->
  EngineV2.result_ok (EngineV2.RxGot ds) indices ->
  v2_inv (evs ++ [EngineV2.Rx (EngineV2.RxGot ds)])
    (EngineV2.set_pool e (EngineV2.write_frames (zip indices ds) (EngineV2.pool_ e)),
     EngineV2.IoDrain (zip indices ds) (drop (length ds) indices), c)
    consumed lost leaked gone.
Proof.
  intros [I Hrun Hsl Hord Hcnt Hst] (_ & Hlen & Hds). cbn [fst snd io_held io_frames] in *.
  assert (E1 : (zip indices ds).*1 = take (length ds) indices)
    by (by apply zip_fst_take).
  assert (E2 : (zip indices ds).*2 = ds) by (apply snd_zip; lia).
  pose proof (pool_nodup _ _ I) as Hnd. rewrite !NoDup_app in Hnd.
  destruct Hnd as (_ & _ & Hndr & Hdr & Hndi & Hdi & _).
  assert (Hin : forall j, j ∈ take (length ds) indices -> j ∈ indices).
  { intros j Hj. rewrite <- (take_drop (length ds) indices). apply elem_of_app. by left. }
  destruct (write_frames_spec (zip indices ds) (EngineV2.pool_ e) _ I) as (I' & Hready & Hother & Hnew).
  { rewrite E1. rewrite <- (take_drop (length ds) indices) in Hndi. by apply NoDup_app in Hndi as [Hndi _]. }
  { rewrite E1. intros j Hj. apply elem_of_app. left. by eapply Hin. }
  { by rewrite E2. }
  set (p' := EngineV2.write_frames (zip indices ds) (EngineV2.pool_ e)) in *.
  assert (Hkeep : forall j, j ∈ ready_items C (EngineV2.pool_ e) \/ j ∈ c_held c ->
    slot p' j = slot (EngineV2.pool_ e) j).
  { intros j Hj. apply Hother.
    - destruct Hj as [Hj|Hj]; [pose proof (ready_in_range C _ _ _ I Hj); lia|].
      assert (Hj' : j ∈ indices ++ c_held c ++ leaked)
        by (apply elem_of_app; right; apply elem_of_app; by left).
      pose proof (held_in_range C _ _ _ I Hj'). lia.
    - rewrite E1. intros Hj'. apply Hin in Hj'. destruct Hj as [Hj|Hj].
      + apply (Hdr j Hj). apply elem_of_app. by left.
      + apply (Hdi j Hj'). apply elem_of_app. by left. }
  assert (Hq : queued C p' = queued C (EngineV2.pool_ e)).
  { unfold queued. rewrite Hready. apply list_fmap_ext. intros i j Hij.
    apply Hkeep. left. by eapply list_elem_of_lookup_2. }
  assert (Hp : slot p' <$> c_pending c = slot (EngineV2.pool_ e) <$> c_pending c).
  { apply list_fmap_ext. intros i j Hij. apply Hkeep. right.
    by eapply c_pending_held, list_elem_of_lookup_2. }
  split; cbn [fst snd io_held io_frames EngineV2.set_pool EngineV2.pool_ EngineV2.running_];
    rewrite ?v2_received_snoc; try done.
  - by rewrite E1, take_drop.
  - rewrite Hp, Hq, E2, filter_app, fmap_app.
    rewrite !app_assoc. apply sublist_app; [|done]. rewrite <- !app_assoc.
    cbn [fmap list_fmap] in Hord. by rewrite filter_nil, app_nil_r in Hord.
  - rewrite Hq, length_app, length_zip_with. cbn [length] in Hcnt. lia.
Qed.

(** Closes the side conditions of [v2_inv_frame] for a step that leaves the engine
    alone. *)
Ltac quiet_step I := eapply v2_inv_frame; [exact I|done|try exact (v2_pool _ _ _ _ _ _ I)|..]; try done.

Lemma handle_one_pool now idx e :
  EngineV2.pool_ (EngineV2.handle_one o now idx e) = EngineV2.pool_ e.
Proof.
  unfold EngineV2.handle_one.
  destruct (consume_slot o (arr_get (FramePool.slots (EngineV2.pool_ e)) idx)
    (EngineV2.msg e, EngineV2.seq e, EngineV2.m_ e)) as [[? ?] ?]. reflexivity.
Qed.

Lemma write_frames_rings frames p :
  FramePool.free (EngineV2.write_frames frames p) = FramePool.free p /\
  FramePool.ready (EngineV2.write_frames frames p) = FramePool.ready p.
Proof.
  revert p. induction frames as [|[i d] frames IH]; intros p; [done|].
  cbn [EngineV2.write_frames]. by destruct (IH (FramePool.write_slot p i (dg_data d))) as [-> ->].
Qed.

(** An access of a push to the free ring, by either thread. *)
Lemma inv_free_push evs ev e io io' c c' idx st e' st' consumed lost leaked gone :
  v2_inv evs (e, io, c) consumed lost leaked gone ->
  match ev with EngineV2.Rx (EngineV2.RxGot _) => False | _ => True end ->
  push_ok C idx st (FramePool.free (EngineV2.pool_ e)) ->
  EngineV2.free_push_step C idx st e = (e', st') ->
  (exists rest, io_held io ++ c_held c ++ leaked ≡ₚ idx :: rest /\
     io_held io' ++ c_held c' ++ leaked ≡ₚ if st' is Some _ then idx :: rest else rest) ->
  io_frames io' = io_frames io -> c_pending c' = c_pending c ->
  v2_inv (evs ++ [ev]) (e', io', c') consumed lost leaked gone /\
  match st' with Some st' => push_ok C idx st' (FramePool.free (EngineV2.pool_ e')) | None => True end.
Proof.
  intros I Hev Hok Hstep (rest & Hp & Hp') Hf Hc.
  pose proof (v2_pool _ _ _ _ _ _ I) as Hpool. cbn [fst snd] in Hpool.
  apply (held_perm C _ _ _ Hp) in Hpool.
  pose proof (free_push_step_inv e idx st rest Hpool Hok) as Hs. rewrite Hstep in Hs.
  destruct Hs as (Es & Er & Est & Erun & Hst). split; [|by destruct st' as [|]; [destruct Hst|]].
  eapply v2_inv_frame; [exact I|done|..]; cbn [fst snd]; try done; [|congruence].
  eapply held_perm; [symmetry; exact Hp'|]. by destruct st'; [destruct Hst|].
Qed.

Lemma inv_io_step evs now e io c e' io' consumed lost leaked gone :
  v2_inv evs (e, io, c) consumed lost leaked gone ->
  io_push_ok (EngineV2.pool_ e) io -> c_push_ok (EngineV2.pool_ e) c ->
  EngineV2.apart (e, io, c) -> EngineV2.io_step C now e io = (e', io') ->
  (exists lost' leaked' gone',
    v2_inv (evs ++ [EngineV2.Io now]) (e', io', c) consumed lost' leaked' gone') /\
  io_push_ok (EngineV2.pool_ e') io' /\ c_push_ok (EngineV2.pool_ e') c.
Proof.
  intros I Hio Hc Hap Hs.
  destruct io as [|dr js|dr js|fr un|rns [|[i d] fr] un|[|i js] k|i st n|];
    cbn [EngineV2.io_step] in Hs.
  - destruct (EngineV2.running_ e); injection Hs as <- <-;
      (split; [eexists _, _, _; quiet_step I|done]).
  - destruct (_ <=? _)%nat;
      [injection Hs as <- <-; split; [eexists _, _, _; quiet_step I|done]|].
    pose proof (v2_pool _ _ _ _ _ _ I) as Hpool. cbn [fst snd io_held] in Hpool.
    pose proof (free_pop_spec C _ _ Hpool) as Hp.
    destruct (RingBuffer.pop C (FramePool.free (EngineV2.pool_ e))) as [r rb] eqn:Epop.
    apply (c_push_ok_pop _ _ _ _ Epop) in Hc. destruct r as [idx|].
    + injection Hs as <- <-. destruct Hp as [Hp _]. split; [|done]. eexists _, _, _. quiet_step I.
      eapply held_perm; [|exact Hp]. cbn [fst snd io_held]. solve_Permutation.
    + destruct Hp as (_ & Hp & _). destruct js; injection Hs as <- <-;
        (split; [eexists _, _, _; quiet_step I; exact Hp|done]).
  - injection Hs as <- <-. split; [eexists _, _, _; quiet_step I|done].
  - destruct (EngineV2.running_ e) eqn:Erun; injection Hs as <- <-; (split; [eexists _, _, _|done]);
      [quiet_step I|by apply inv_abandon].
  - injection Hs as <- <-. split; [eexists _, _, _; quiet_step I|done].
  - pose proof (inv_publish evs now _ _ _ _ _ _ _ _ _ _ _ I) as Hp.
    destruct (EngineV2.publish_one C rns i d e) as [e1 back]. injection Hs as <- <-.
    destruct Hp as (Ef & lost' & I'). split; [by eexists _, _, _|].
    split; [by destruct back|]. destruct c; try done. cbn [c_push_ok]. by rewrite Ef.
  - destruct k; [..|destruct (EngineV2.running_ e)]; injection Hs as <- <-;
      (split; [eexists _, _, _; quiet_step I|done]).
  - injection Hs as <- <-. split; [eexists _, _, _; quiet_step I|done].
  - destruct (EngineV2.free_push_step C i st e) as [e1 st'] eqn:Estep. injection Hs as <- <-.
    destruct Hio as [Hok Hn].
    destruct (inv_free_push evs (EngineV2.Io now) e _
      (if st' is Some st' then EngineV2.IoPush i st' n else n) c c i st e1 st' _ _ _ _ I)
      as [I' Hst]; try done; [|by destruct st'|].
    { exists (io_held n ++ c_held c ++ leaked). by destruct st'. }
    split; [by eexists _, _, _|]. split; [by destruct st' as [|]; [|destruct n]|].
    unfold EngineV2.apart in Hap. cbn [fst snd EngineV2.io_pushing] in Hap.
    destruct st; cbn [EngineV2.pushing andb] in Hap;
      try by apply (c_push_ok_quiet (EngineV2.pool_ e)).
    unfold EngineV2.free_push_step in Estep. cbn [push_access] in Estep.
    destruct (FramePool.free (EngineV2.pool_ e)) as [h t buf] eqn:Efree.
    injection Estep as <- <-. destruct c; try done. cbn [c_push_ok]. cbn. by rewrite <- Efree.
  - injection Hs as <- <-. split; [eexists _, _, _; quiet_step I|done].
Qed.

Lemma inv_c_step evs now e io c e' c' consumed lost leaked gone :
  v2_inv evs (e, io, c) consumed lost leaked gone ->
  io_push_ok (EngineV2.pool_ e) io -> c_push_ok (EngineV2.pool_ e) c ->
  EngineV2.apart (e, io, c) -> EngineV2.c_step o C now e c = (e', c') ->
  (exists consumed', v2_inv (evs ++ [EngineV2.Consumer now]) (e', io, c') consumed' lost leaked gone) /\
  io_push_ok (EngineV2.pool_ e') io /\ c_push_ok (EngineV2.pool_ e') c'.
Proof.
  intros I Hio Hc Hap Hs.
  destruct c as [|js|[|i todo] handled|[|i js]|i st n|]; cbn [EngineV2.c_step] in Hs.
  - destruct (_ || _); injection Hs as <- <-; (split; [eexists; quiet_step I|done]).
  - destruct (_ <=? _)%nat.
    { injection Hs as <- <-. split; [|done]. eexists. quiet_step I. cbn [fst snd c_held].
      rewrite app_nil_r. exact (v2_pool _ _ _ _ _ _ I). }
    destruct (RingBuffer.pop C (FramePool.ready (EngineV2.pool_ e))) as [[idx|] rb] eqn:Epop.
    { injection Hs as <- <-. split; [|by destruct io]. eexists. by eapply inv_pop. }
    pose proof (v2_pool _ _ _ _ _ _ I) as Hpool. cbn [fst snd c_held] in Hpool.
    pose proof (ready_pop_spec C _ _ Hpool) as Hp. rewrite Epop in Hp.
    destruct Hp as (He & Hp & He').
    destruct js; injection Hs as <- <-; (split; [|by destruct io]); eexists; quiet_step I;
      try exact Hp; try (cbn; by rewrite He, He'). cbn [fst snd c_held]. by rewrite app_nil_r.
  - injection Hs as <- <-. split; [eexists; quiet_step I|done].
  - injection Hs as <- <-. split; [eexists; by apply inv_handle|]. rewrite handle_one_pool. done.
  - injection Hs as <- <-. split; [eexists; quiet_step I|done].
  - injection Hs as <- <-. split; [eexists; quiet_step I|done].
  - destruct (EngineV2.free_push_step C i st e) as [e1 st'] eqn:Estep. injection Hs as <- <-.
    destruct (inv_free_push evs (EngineV2.Consumer now) e io io _
      (if st' is Some st' then EngineV2.CPush i st' n else EngineV2.CReturn n) i st e1 st' _ _ _ _ I)
      as [I' Hst]; try done; [|by destruct st'|].
    { exists (io_held io ++ n ++ leaked).
      split; [cbn; solve_Permutation|destruct st'; cbn; solve_Permutation]. }
    split; [by eexists|]. split; [|by destruct st'].
    unfold EngineV2.apart in Hap. cbn [fst snd EngineV2.c_pushing] in Hap.
    rewrite andb_comm in Hap. destruct st; cbn [EngineV2.pushing andb] in Hap;
      try by apply (io_push_ok_quiet (EngineV2.pool_ e)).
    unfold EngineV2.free_push_step in Estep. cbn [push_access] in Estep.
    destruct (FramePool.free (EngineV2.pool_ e)) as [h t buf] eqn:Efree.
    injection Estep as <- <-. destruct io; try done. cbn [io_push_ok]. cbn. by rewrite <- Efree.
  - injection Hs as <- <-. split; [eexists; quiet_step I|done].
Qed.

(** The invariant of the runs that keep the pushes apart. *)
Definition v2_good (evs : list EngineV2.event) (s : EngineV2.config) : Prop :=
  (exists consumed lost leaked gone, v2_inv evs s consumed lost leaked gone) /\
  io_push_ok (EngineV2.pool_ s.1.1) s.1.2 /\ c_push_ok (EngineV2.pool_ s.1.1) s.2 /\
  EngineV2.apart s.

Lemma good_step evs s ev s' :
  v2_good evs s -> EngineV2.step o C s ev s' -> EngineV2.apart s' -> v2_good (evs ++ [ev]) s'.
Proof.
  intros ((consumed & lost & leaked & gone & I) & Hio & Hc & Hap) Hs Hap'. unfold v2_good.
  enough ((exists consumed' lost' leaked' gone', v2_inv (evs ++ [ev]) s' consumed' lost' leaked' gone')
    /\ io_push_ok (EngineV2.pool_ s'.1.1) s'.1.2 /\ c_push_ok (EngineV2.pool_ s'.1.1) s'.2)
    by naive_solver.
  destruct Hs as [now e io c e' io' H|res dr js e c e' io' Hok H|now e io c e' c' H|e io c];
    cbn [fst snd] in *.
  - destruct (inv_io_step _ _ _ _ _ _ _ _ _ _ _ I Hio Hc Hap H) as ((? & ? & ? & ?) & ?).
    split; [by do 4 eexists|done].
  - destruct res as [| |ds]; cbn [EngineV2.io_receive] in H; injection H as <- <-;
      (split; [exists consumed, lost, leaked, gone|]); [quiet_step I|done|quiet_step I|done|
        by eapply inv_receive|].
    split; [done|]. destruct c; try done. cbn [c_push_ok]. cbn. by rewrite (proj1 (write_frames_rings _ _)).
  - destruct (inv_c_step _ _ _ _ _ _ _ _ _ _ _ I Hio Hc Hap H) as ((? & ?) & ?).
    split; [by do 4 eexists|done].
  - split; [|done]. exists consumed, lost, leaked, gone. quiet_step I.
Qed.

Lemma run_good_v2 fb rb evs s :
  Z.of_nat (length fb) = C -> Z.of_nat (length rb) = C ->
  EngineV2.run_apart o C (EngineV2.start C fb rb) evs s -> v2_good evs s.
Proof.
  intros Hf Hr Hrun. remember (EngineV2.start C fb rb) as s0 eqn:E0.
  induction Hrun as [|evs s1 ev s2 _ IH Hstep Hap]; subst; [|by eapply good_step; eauto].
  split; [|done]. exists [], 0%nat, [], 0%nat.
  destruct (init_spec C (FramePool.construct C fb rb)) as (I & _ & Hrd); try done.
  { cbn. rewrite length_replicate. pose proof (capacity_gt_1 (Capacity := C)). lia. }
  { cbn. apply Forall_replicate. by rewrite length_replicate. }
Qed.

Lemma publish_one_ready now idx d e :
  ring_inv C (FramePool.ready (EngineV2.pool_ e)) ->
  ring_inv C (FramePool.ready (EngineV2.pool_ (EngineV2.publish_one C now idx d e).1)).
Proof.
  intros I. unfold EngineV2.publish_one. destruct (_ || _); [done|].
  pose proof (push_inv C idx _ I) as I'. cbn -[RingBuffer.push].
  by destruct (RingBuffer.push C idx (FramePool.ready (EngineV2.pool_ e))) as [[] rb].
Qed.

Lemma free_push_step_ready idx st e :
  FramePool.ready (EngineV2.pool_ (EngineV2.free_push_step C idx st e).1)
  = FramePool.ready (EngineV2.pool_ e).
Proof. unfold EngineV2.free_push_step. by destruct (push_access _ _ _ _). Qed.

Lemma io_step_ready now e io :
  ring_inv C (FramePool.ready (EngineV2.pool_ e)) ->
  ring_inv C (FramePool.ready (EngineV2.pool_ (EngineV2.io_step C now e io).1)).
Proof.
  intros I. destruct io as [|dr js|dr js|fr un|rns [|[i d] fr] un|[|i js] [| | |]|i st n|];
    cbn [EngineV2.io_step]; try done.
  - by destruct (EngineV2.running_ e).
  - destruct (_ <=? _)%nat; [done|]. by destruct (RingBuffer.pop C _) as [[] rb], js.
  - by destruct (EngineV2.running_ e).
  - pose proof (publish_one_ready rns i d e I) as I'. by destruct (EngineV2.publish_one _ _ _ _ _).
  - by destruct (EngineV2.running_ e).
  - pose proof (free_push_step_ready i st e) as E.
    destruct (EngineV2.free_push_step C i st e). cbn [fst] in *. by rewrite E.
Qed.

Lemma c_step_ready now e c :
  ring_inv C (FramePool.ready (EngineV2.pool_ e)) ->
  ring_inv C (FramePool.ready (EngineV2.pool_ (EngineV2.c_step o C now e c).1)).
Proof.
  intros I. destruct c as [|js|[|i todo] handled|[|i js]|i st n|]; cbn [EngineV2.c_step]; try done.
  - by destruct (_ || _).
  - destruct (_ <=? _)%nat; [done|]. pose proof (pop_inv C _ I) as I'.
    by destruct (RingBuffer.pop C _) as [[] rb], js.
  - cbn [fst]. by rewrite handle_one_pool.
  - pose proof (free_push_step_ready i st e) as E.
    destruct (EngineV2.free_push_step C i st e). cbn [fst] in *. by rewrite E.
Qed.

(** Whatever the interleaving, the ready ring is intact: it has one producer and
    one consumer. *)
Lemma run_ready_ring fb rb evs s :
  Z.of_nat (length fb) = C -> Z.of_nat (length rb) = C ->
  EngineV2.run o C (EngineV2.start C fb rb) evs s ->
  ring_inv C (FramePool.ready (EngineV2.pool_ s.1.1)).
Proof.
  intros Hf Hr Hrun. remember (EngineV2.start C fb rb) as s0 eqn:E0.
  induction Hrun as [|evs s1 ev s2 _ IH Hstep]; subst s0.
  { destruct (init_spec C (FramePool.construct C fb rb)) as ([] & _); try done.
    - cbn. rewrite length_replicate. pose proof (capacity_gt_1 (Capacity := C)). lia.
    - cbn. apply Forall_replicate. by rewrite length_replicate. }
  destruct Hstep as [now e io c e' io' H|res dr js e c e' io' Hok H|now e io c e' c' H|e io c];
    cbn [fst snd] in *; [| | |done].
  - pose proof (io_step_ready now e io IH) as I. by rewrite H in I.
  - destruct res as [| |ds]; cbn [EngineV2.io_receive] in H; injection H as <- <-; [done|done|].
    cbn. by rewrite (proj2 (write_frames_rings _ _)).
  - pose proof (c_step_ready now e c IH) as I. by rewrite H in I.
Qed.

Lemma run_apart_run s evs s' : EngineV2.run_apart o C s evs s' -> EngineV2.run o C s evs s'.
Proof. induction 1; econstructor; eauto. Qed.

End v2.

(** ** Properties *)

Section properties.
Context (o : byte_order) (C : Z) `{HC : RingCapacity C}.

(** C7 (slot ownership).  In every interleaving of the I/O and the consumer
    thread of engine v2 in which the two are never in the middle of a push to the
    free ring at the same time, every slot index is in exactly one place: the free
    ring, the ready ring, the I/O thread's hands, the consumer's, or, after
    a stop only, abandoned.  So the kernel is never given a slot the consumer is
    reading and no slot is lost while the engine runs.  The condition is not
    ensured by the code: [v2_overlap_loses_slot]. *)
Theorem v2_slot_ownership fb rb evs e io c :
  Z.of_nat (length fb) = C -> Z.of_nat (length rb) = C ->
  EngineV2.run_apart o C (EngineV2.start C fb rb) evs (e, io, c) ->
  exists leaked,
    free_items C (EngineV2.pool_ e) ++ ready_items C (EngineV2.pool_ e)
      ++ io_held io ++ c_held c ++ leaked ≡ₚ seqZ 0 C /\
    (EngineV2.running_ e = true -> leaked = []) /\
    (forall idx, idx ∈ io_held io ->
      0 <= idx < C /\ (idx ∉ c_held c) /\ idx ∉ ready_items C (EngineV2.pool_ e)).
Proof.
  intros Hf Hr Hrun.
  destruct (run_good_v2 o C fb rb evs _ Hf Hr Hrun) as ((? & ? & leaked & ? & I) & _).
  exists leaked. pose proof (v2_pool _ _ _ _ _ _ _ _ I) as Hp. cbn [fst snd] in Hp.
  split_and!; [apply (pool_owned C _ _ Hp)|intros Hrn; by apply (v2_run _ _ _ _ _ _ _ _ I)|].
  intros idx Hi. pose proof (pool_nodup C _ _ Hp) as Hnd. rewrite !NoDup_app in Hnd.
  destruct Hnd as (_ & _ & _ & Hdr & _ & Hdi & _). split_and!.
  - eapply (pool_index C); [exact Hp|]. rewrite !elem_of_app. tauto.
  - eapply (pool_index C); [exact Hp|]. rewrite !elem_of_app. tauto.
  - intros Hc. apply (Hdi idx Hi). apply elem_of_app. by left.
  - intros Hc. apply (Hdr idx Hc). apply elem_of_app. by left.
Qed.

(** C6 (delivery).  In every interleaving in which the two threads are never in
    the middle of a push to the free ring at the same time, the frames the
    consumer has processed, those in its batch, those queued and those about to be
    published are, in order, among the whole datagrams received; every datagram
    received is one of these, counted as dropped, or (after a stop only)
    abandoned; and the tracker and the metrics are those of processing the
    consumed frames in order plus the drops.  The condition is not ensured by the
    code: [v2_overlap_loses_slot]. *)
Theorem v2_delivery fb rb evs e io c :
  Z.of_nat (length fb) = C -> Z.of_nat (length rb) = C ->
  EngineV2.run_apart o C (EngineV2.start C fb rb) evs (e, io, c) ->
  exists consumed lost gone,
    sublist (consumed ++ (slot (EngineV2.pool_ e) <$> c_pending c)
             ++ queued C (EngineV2.pool_ e) ++ (dg_data <$> filter whole (io_frames io).*2))
      (dg_data <$> filter whole (v2_received evs)) /\
    (length consumed + length (c_pending c) + length (queued C (EngineV2.pool_ e))
     + length (io_frames io) + lost + gone = length (v2_received evs))%nat /\
    (EngineV2.running_ e = true -> gone = 0%nat) /\
    v2_state e = add_drops (Z.of_nat lost) (consume_all o consumed start_state).
Proof.
  intros Hf Hr Hrun.
  destruct (run_good_v2 o C fb rb evs _ Hf Hr Hrun) as ((cs & lost & ? & gone & I) & _).
  exists cs, lost, gone. split_and!; [apply I|apply I| |apply I].
  intros Hrn. by apply (v2_run _ _ _ _ _ _ _ _ I).
Qed.

(** Accesses left of a push. *)
Definition push_measure (st : push_pc) : nat :=
  match st with PushHead => 4 | PushTail _ => 3 | PushWrite _ => 2 | PushStore _ => 1 end.

(** The steps the consumer still takes when nothing is added to its queue. *)
Definition c_measure (e : EngineV2.t) (c : EngineV2.c_pc) : nat :=
  let q := (11 * length (ready_items C (EngineV2.pool_ e)))%nat in
  match c with
  | EngineV2.CTop => if decide (q = 0)%nat then 1 else q + 5
  | EngineV2.CPop [] => q + 4
  | EngineV2.CPop indices => q + 6 * length indices + 8
  | EngineV2.CHandle todo handled => q + 6 * length todo + 5 * length handled + 7
  | EngineV2.CReturn indices => q + 5 * length indices + 6
  | EngineV2.CPush _ st indices => q + push_measure st + 5 * length indices + 6
  | EngineV2.CDone => 0
  end.

(** The consumer alone, one clock reading per step. *)
Definition c_drain (nows : list Z) (e : EngineV2.t) (c : EngineV2.c_pc) : EngineV2.t * EngineV2.c_pc :=
  foldl (fun s now => EngineV2.c_step o C now s.1 s.2) (e, c) nows.

Lemma c_step_progress now e c e' c' :
  ring_inv C (FramePool.ready (EngineV2.pool_ e)) -> EngineV2.running_ e = false ->
  c <> EngineV2.CDone -> EngineV2.c_step o C now e c = (e', c') ->
  (c_measure e' c' < c_measure e c)%nat /\ EngineV2.running_ e' = false.
Proof.
  intros I Hrun Hc Hs. destruct c as [|js|[|i todo] handled|[|i js]|i st n|];
    cbn [EngineV2.c_step] in *; try done.
  - rewrite Hrun, (empty_spec C) in Hs by apply I. cbn [orb] in Hs.
    change (ring_items C (FramePool.ready (EngineV2.pool_ e)))
      with (ready_items C (EngineV2.pool_ e)) in Hs.
    cbn [c_measure]. destruct (ready_items C (EngineV2.pool_ e)) as [|x l] eqn:Er;
      (case_bool_decide || idtac); try done; injection Hs as <- <-; cbn [c_measure];
      rewrite ?Er; simpl; split; (lia || done).
  - destruct (EngineV2.kBatch <=? length js)%nat eqn:Eb.
    { injection Hs as <- <-. destruct js; [done|]. cbn [c_measure length]. split; [lia|done]. }
    pose proof (q_pop_cases (HQ := RingBuffer_BoundedQueue C) _ I) as Hp.
    change (q_pop (FramePool.ready (EngineV2.pool_ e)))
      with (RingBuffer.pop C (FramePool.ready (EngineV2.pool_ e))) in Hp.
    destruct (RingBuffer.pop C (FramePool.ready (EngineV2.pool_ e))) as [r rb]; cbn [fst snd] in Hp.
    change (q_items (FramePool.ready (EngineV2.pool_ e)))
      with (ready_items C (EngineV2.pool_ e)) in Hp.
    change (q_items rb) with
      (ready_items C (EngineV2.pool_ (EngineV2.set_pool e (FramePool.set_ready (EngineV2.pool_ e) rb))))
      in Hp.
    destruct Hp as [(He & -> & _ & He')|(x & l & He & -> & _ & He')].
    + destruct js; injection Hs as <- <-; cbn [c_measure length]; rewrite He, He'; cbn [length];
        (split; [simpl; lia|done]).
    + injection Hs as <- <-. destruct js; cbn [c_measure app length]; rewrite He, He';
        cbn [length]; rewrite ?length_app; cbn [length]; (split; [lia|done]).
  - injection Hs as <- <-. cbn [c_measure length]. split; [lia|done].
  - injection Hs as <- <-.
    assert (Er : EngineV2.running_ (EngineV2.handle_one o now i e) = EngineV2.running_ e)
      by (unfold EngineV2.handle_one; by destruct (consume_slot o _ _) as [[? ?] ?]).
    cbn [c_measure]. rewrite handle_one_pool, Er, length_app. cbn [length].
    split; [lia|done].
  - injection Hs as <- <-. cbn [c_measure length]. case_decide; (split; [lia|done]).
  - injection Hs as <- <-. cbn [c_measure push_measure length]. split; [lia|done].
  - unfold EngineV2.free_push_step in Hs.
    destruct (FramePool.free (EngineV2.pool_ e)) as [h t buf].
    destruct st as [|h'|t'|t']; cbn [push_access] in Hs; [|destruct (_ =? C)| |];
      injection Hs as <- <-; cbn [c_measure push_measure];
      (split; [cbn -[Nat.mul]; unfold ready_items; cbn [FramePool.ready FramePool.set_free]; lia|done]).
Qed.

(** The consumer leaves its loop when the ready ring is empty. *)
Lemma c_step_done now e c e' :
  ring_inv C (FramePool.ready (EngineV2.pool_ e)) ->
  c <> EngineV2.CDone -> EngineV2.c_step o C now e c = (e', EngineV2.CDone) ->
  ready_items C (EngineV2.pool_ e') = [].
Proof.
  intros I Hc Hs. destruct c as [|js|[|i todo] handled|[|i js]|i st n|];
    cbn [EngineV2.c_step] in *; try done.
  - rewrite (empty_spec C) in Hs by apply I. destruct (EngineV2.running_ e); cbn [orb] in Hs; [done|].
    case_bool_decide as He; [|done]. injection Hs as <-. by apply length_zero_iff_nil in He.
  - destruct (_ <=? _)%nat; [done|]. by destruct (RingBuffer.pop C _) as [[] rb], js.
  - destruct (EngineV2.free_push_step C i st e) as [? []]; done.
Qed.

(** C30 (the consumer drains and stops).  From any state reached after a stop in
    which the consumer has not yet left its loop, if the I/O thread adds nothing
    more, the consumer leaves the loop within a number of steps linear in the
    frames it has left, with the ready ring empty: every published frame has been
    processed.  This holds however the pushes to the free ring overlapped. *)
Theorem v2_drain_terminates fb rb evs e io c nows :
  Z.of_nat (length fb) = C -> Z.of_nat (length rb) = C ->
  EngineV2.run o C (EngineV2.start C fb rb) evs (e, io, c) ->
  EngineV2.running_ e = false -> c <> EngineV2.CDone ->
  (c_measure e c <= length nows)%nat ->
  exists evs' e', EngineV2.run o C (EngineV2.start C fb rb) (evs ++ evs') (e', io, EngineV2.CDone) /\
    Forall (fun ev => exists now, ev = EngineV2.Consumer now) evs' /\
    (length evs' <= c_measure e c)%nat /\ ready_items C (EngineV2.pool_ e') = [] /\
    c_drain nows e c = (e', EngineV2.CDone).
Proof.
  intros Hf Hr. revert evs e c. induction nows as [|now nows IH]; intros evs e c Hrun Hstop Hc Hm.
  { exfalso. destruct c as [|[]|[] ?| | |]; simpl in Hm; try case_decide; try done; lia. }
  pose proof (run_ready_ring o C fb rb evs _ Hf Hr Hrun) as I. cbn [fst] in I.
  destruct (EngineV2.c_step o C now e c) as [e1 c1] eqn:Es.
  destruct (c_step_progress now e c e1 c1) as (Hlt & Hstop1); try done.
  assert (Hrun1 : EngineV2.run o C (EngineV2.start C fb rb) (evs ++ [EngineV2.Consumer now])
    (e1, io, c1)) by (econstructor; [exact Hrun|by constructor]).
  unfold c_drain. cbn [foldl fst snd]. rewrite Es.
  destruct (decide (c1 = EngineV2.CDone)) as [->|Hc1].
  - exists [EngineV2.Consumer now], e1. split_and!; try done.
    + repeat constructor. by eexists.
    + by eapply c_step_done.
    + clear. induction nows as [|? nows IH]; [done|]. cbn [foldl fst snd]. exact IH.
  - destruct (IH _ e1 c1 Hrun1 Hstop1 Hc1) as (evs' & e' & Hrun' & Hall & Hl & Hrd & Hdr);
      [cbn [length] in Hm; lia|].
    exists (EngineV2.Consumer now :: evs'), e'. rewrite <- app_assoc in Hrun'.
    split_and!; try done.
    + constructor; [by eexists|done].
    + cbn [length]. lia.
Qed.

End properties.

(** ** A run of a pool of 8

    Two messages and an oversized datagram arrive in one batch, the consumer
    takes part of it, then the engine is stopped. *)

Definition sample_dgram (seq : Z) : dgram :=
  mkDgram (wire_layout (mkMsg seq 1 0 10 11 1 2)) 44 false no_addr.
Definition big_dgram : dgram := mkDgram (replicate 44 0) 44 true no_addr.

Definition v2_start : EngineV2.config := EngineV2.start 8 (replicate 8 0) (replicate 8 0).

(** Deterministic schedules: who moves next. *)
Definition v2_next (s : EngineV2.config) (ev : EngineV2.event) : EngineV2.config :=
  let '(e, io, c) := s in
  match ev with
  | EngineV2.Io now => let '(e, io) := EngineV2.io_step 8 now e io in (e, io, c)
  | EngineV2.Rx res =>
      match io with
      | EngineV2.IoReceive draining indices =>
          let '(e, io) := EngineV2.io_receive res draining indices e in (e, io, c)
      | _ => s
      end
  | EngineV2.Consumer now =>
      let '(e, c) := EngineV2.c_step little_endian 8 now e c in (e, io, c)
  | EngineV2.Stop => (EngineV2.set_running e false, io, c)
  end.

Definition v2_exec (evs : list EngineV2.event) : EngineV2.config := foldl v2_next v2_start evs.

Definition v2_allowed (s : EngineV2.config) (ev : EngineV2.event) : Prop :=
  match ev with
  | EngineV2.Rx res =>
      match s.1.2 with
      | EngineV2.IoReceive _ indices => EngineV2.result_ok res indices
      | _ => False
      end
  | _ => True
  end.

Fixpoint v2_allowed_all (s : EngineV2.config) (evs : list EngineV2.event) : Prop :=
  match evs with
  | [] => True
  | ev :: evs => v2_allowed s ev /\ v2_allowed_all (v2_next s ev) evs
  end.

#[global] Instance dgram_ok_dec cap d : Decision (dgram_ok cap d).
Proof. unfold dgram_ok; apply _. Defined.

#[global] Instance dgrams_nil_dec (ds : list dgram) : Decision (ds <> []).
Proof. destruct ds; [right; tauto|left; discriminate]. Defined.

#[global] Instance result_ok_dec res indices : Decision (EngineV2.result_ok res indices).
Proof. destruct res; simpl; apply _. Defined.

#[global] Instance v2_allowed_dec s ev : Decision (v2_allowed s ev).
Proof. destruct ev; simpl; try apply _. destruct (s.1.2); apply _. Defined.

#[global] Instance v2_allowed_all_dec s evs : Decision (v2_allowed_all s evs).
Proof. revert s. induction evs as [|ev evs IH]; intros s; simpl; apply _. Defined.

Lemma v2_next_step s ev : v2_allowed s ev -> EngineV2.step little_endian 8 s ev (v2_next s ev).
Proof.
  intros Ha. destruct s as [[e io] c].
  destruct ev as [now|res|now|]; cbn [v2_next v2_allowed fst snd] in *.
  - destruct (EngineV2.io_step 8 now e io) eqn:E. by constructor.
  - destruct io; try done. destruct (EngineV2.io_receive _ _ _ _) eqn:E. by econstructor.
  - destruct (EngineV2.c_step _ _ _ _ _) eqn:E. by constructor.
  - constructor.
Qed.

Lemma v2_next_run pre s evs :
  EngineV2.run little_endian 8 v2_start pre s -> v2_allowed_all s evs ->
  EngineV2.run little_endian 8 v2_start (pre ++ evs) (foldl v2_next s evs).
Proof.
  revert pre s. induction evs as [|ev evs IH]; intros pre s Hr Ha; [by rewrite app_nil_r|].
  destruct Ha as [Ha Hrest]. cbn [foldl]. change (ev :: evs) with ([ev] ++ evs). rewrite app_assoc.
  apply IH; [|done]. econstructor; [exact Hr|by apply v2_next_step].
Qed.

(** The pushes of the schedule stay apart. *)
Fixpoint v2_apart_all (s : EngineV2.config) (evs : list EngineV2.event) : Prop :=
  EngineV2.apart s /\
  match evs with [] => True | ev :: evs => v2_apart_all (v2_next s ev) evs end.

#[global] Instance v2_apart_all_dec s evs : Decision (v2_apart_all s evs).
Proof.
  revert s. induction evs as [|ev evs IH]; intros s; cbn [v2_apart_all];
    unfold EngineV2.apart; apply _.
Defined.

Lemma v2_next_apart pre s evs :
  EngineV2.run_apart little_endian 8 v2_start pre s -> v2_allowed_all s evs -> v2_apart_all s evs ->
  EngineV2.run_apart little_endian 8 v2_start (pre ++ evs) (foldl v2_next s evs).
Proof.
  revert pre s. induction evs as [|ev evs IH]; intros pre s Hr Ha Hp; [by rewrite app_nil_r|].
  destruct Ha as [Ha Hrest], Hp as [_ Hp]. cbn [foldl]. change (ev :: evs) with ([ev] ++ evs).
  rewrite app_assoc. apply IH; [|done|done].
  econstructor; [exact Hr|by apply v2_next_step|]. by destruct evs; destruct Hp.
Qed.

Definition v2_events : list EngineV2.event :=
  replicate 10 (EngineV2.Io 0) ++
  [EngineV2.Rx (EngineV2.RxGot [sample_dgram 5; big_dgram; sample_dgram 9])] ++
  replicate 8 (EngineV2.Io 1000) ++ replicate 2 (EngineV2.Consumer 2000) ++ [EngineV2.Stop].

Lemma v2_sample_run : EngineV2.run_apart little_endian 8 v2_start v2_events (v2_exec v2_events).
Proof.
  apply (v2_next_apart [] v2_start); [by constructor|..];
    apply (bool_decide_unpack _); vm_compute; exact I.
Qed.

(** ** Two overlapping pushes

    The I/O thread gives back the slot of a truncated datagram (index 1) while the
    consumer gives back the one it has processed (index 0). *)

Definition overlap_events : list EngineV2.event :=
  replicate 10 (EngineV2.Io 0) ++
  [EngineV2.Rx (EngineV2.RxGot [sample_dgram 5; big_dgram; sample_dgram 9])] ++
  replicate 3 (EngineV2.Io 1000) ++ replicate 6 (EngineV2.Consumer 2000) ++
  concat (replicate 4 [EngineV2.Io 0; EngineV2.Consumer 2000]).

(** Both pushes store the same [tail_]: while the engine runs, index 1 is neither in
    a ring nor in a thread's hands; it is lost for good. *)
Theorem v2_overlap_loses_slot :
  let '(e, io, c) := v2_exec overlap_events in
  EngineV2.run little_endian 8 v2_start overlap_events (e, io, c) /\
  EngineV2.running_ e = true /\ EngineV2.io_pushing io = false /\ c = EngineV2.CReturn [] /\
  free_items 8 (EngineV2.pool_ e) = [0] /\ ready_items 8 (EngineV2.pool_ e) = [] /\
  io_held io = [2; 3; 4; 5; 6; 7].
Proof.
  assert (Hrun : EngineV2.run little_endian 8 v2_start overlap_events (v2_exec overlap_events)).
  { apply (v2_next_run [] v2_start); [constructor|].
    apply (bool_decide_unpack _). vm_compute. exact I. }
  assert (Hend : let '(e, io, c) := v2_exec overlap_events in
    EngineV2.running_ e = true /\ EngineV2.io_pushing io = false /\ c = EngineV2.CReturn [] /\
    free_items 8 (EngineV2.pool_ e) = [0] /\ ready_items 8 (EngineV2.pool_ e) = [] /\
    io_held io = [2; 3; 4; 5; 6; 7]) by by vm_compute.
  destruct (v2_exec overlap_events) as [[e io] c]. exact (conj Hrun Hend).
Qed.

Lemma v2_slot_ownership_witness :
  exists e io c leaked,
    EngineV2.run_apart little_endian 8 v2_start v2_events (e, io, c) /\
    free_items 8 (EngineV2.pool_ e) ++ ready_items 8 (EngineV2.pool_ e)
      ++ io_held io ++ c_held c ++ leaked ≡ₚ seqZ 0 8.
Proof.
  pose proof v2_sample_run as Hrun. destruct (v2_exec v2_events) as [[e io] c].
  destruct (v2_slot_ownership little_endian 8 (replicate 8 0) (replicate 8 0) v2_events e io c
    eq_refl eq_refl Hrun) as (leaked & Hp & _).
  exists e, io, c, leaked. split; [exact Hrun|exact Hp].
Defined.

Lemma v2_delivery_witness :
  exists e io c consumed lost gone,
    EngineV2.run_apart little_endian 8 v2_start v2_events (e, io, c) /\
    (length consumed + length (c_pending c) + length (queued 8 (EngineV2.pool_ e))
     + length (io_frames io) + lost + gone = 3)%nat /\
    v2_state e = add_drops (Z.of_nat lost) (consume_all little_endian consumed start_state).
Proof.
  pose proof v2_sample_run as Hrun. destruct (v2_exec v2_events) as [[e io] c].
  destruct (v2_delivery little_endian 8 (replicate 8 0) (replicate 8 0) v2_events e io c
    eq_refl eq_refl Hrun) as (consumed & lost & gone & _ & Hn & _ & Hst).
  exists e, io, c, consumed, lost, gone. split; [exact Hrun|]. split; [exact Hn|exact Hst].
Defined.

Lemma v2_sample_stopped :
  EngineV2.running_ (v2_exec v2_events).1.1 = false /\
  (v2_exec v2_events).2 <> EngineV2.CDone /\
  (c_measure 8 (v2_exec v2_events).1.1 (v2_exec v2_events).2 <= 60)%nat.
Proof.
  split; [vm_compute; reflexivity|]. split; [vm_compute; discriminate|].
  apply Nat.leb_le. vm_compute. reflexivity.
Qed.

Lemma v2_drain_terminates_witness :
  exists evs e e' io c,
    EngineV2.run little_endian 8 v2_start evs (e, io, EngineV2.CDone) /\
    ready_items 8 (EngineV2.pool_ e) = [] /\
    c_drain little_endian 8 (replicate 60 5000) e' c = (e, EngineV2.CDone).
Proof.
  pose proof (run_apart_run _ _ _ _ _ v2_sample_run) as Hrun. destruct v2_sample_stopped as (Hs & Hc & Hm).
  destruct (v2_exec v2_events) as [[e io] c]. cbn [fst snd] in *.
  destruct (v2_drain_terminates little_endian 8 (replicate 8 0) (replicate 8 0) v2_events e io c
    (replicate 60 5000) eq_refl eq_refl Hrun Hs Hc) as (evs' & e' & H1 & _ & _ & H2 & H3).
  { rewrite length_replicate. exact Hm. }
  exists (v2_events ++ evs'), e', e, io, c. split; [exact H1|]. split; [exact H2|exact H3].
Defined.
