(* ===== verification/TcpFrames.v ===== *)
(** * TcpFrames: reassembling frames from a TCP stream

    Models [ConnState] and [consume_frames] of
    [src/common/net/v1/tcp_server_nonblock_epoll.hpp]: bytes arrive in chunks of
    any size; every 44 of them are a frame, which goes through the frame pool to
    the consumer. *)

From Stdlib Require Import ZArith Lia.
From stdpp Require Import base numbers list option.
From S2P Require Import Prelude Wire Ring Metrics Pool EngineV1.

Local Open Scope Z_scope.

Module Tcp.

(** [struct ConnState]. *)
Record ConnState := mkConn { fd : Z; have : Z; frame : list Z }.

Definition MAX_FD : Z := 65536.

(** [init_conn] on the table entry [conn] of descriptor [cfd]. *)
Definition init_conn (cfd : Z) (conn : ConnState) : bool * ConnState :=
  if (cfd <? 0) || (MAX_FD <=? cfd) then (false, conn) else (true, mkConn cfd 0 (frame conn)).

(** [reset_conn]. *)
Definition reset_conn (cfd : Z) (conn : ConnState) : ConnState :=
  if (0 <=? cfd) && (cfd <? MAX_FD) then mkConn (-1) 0 (frame conn) else conn.

(** The [if (st.have == kWireSize)] block: hand the frame to the consumer. *)
Definition enqueue_frame (C : Z) (frame : list Z) (st : FramePool.t * Metrics.t)
    : FramePool.t * Metrics.t :=
  let '(pool, metrics) := st in
  let '(popped, rb) := RingBuffer.pop C (FramePool.free pool) in
  let pool := FramePool.set_free pool rb in
  match popped with
  | None => (pool, Metrics.inc_drops 1 metrics)
  | Some idx =>
      let pool := FramePool.write_slot pool idx frame in
      let '(ok, rb) := RingBuffer.push C idx (FramePool.ready pool) in
      let pool := FramePool.set_ready pool rb in
      if negb ok then
        let metrics := Metrics.inc_drops 1 metrics in
        let '(_, fb) := RingBuffer.push C idx (FramePool.free pool) in
        (FramePool.set_free pool fb, metrics)
      else (pool, metrics)
  end.

(** The [while (off < n)] loop; [None]: out of fuel. *)
Fixpoint consume_loop (fuel : nat) (C : Z) (data : list Z) (off n : Z) (conn : ConnState)
    (st : FramePool.t * Metrics.t) : option (ConnState * (FramePool.t * Metrics.t)) :=
  if negb (off <? n) then Some (conn, st) else
  match fuel with
  | O => None
  | S fuel =>
      let need := kWireSize - have conn in
      let tk := if n - off <? need then n - off else need in
      let frame := memcpy_at (frame conn) (have conn) (mem_read data off tk) in
      let have := have conn + tk in
      let off := off + tk in
      if have =? kWireSize
      then consume_loop fuel C data off n (mkConn (fd conn) 0 frame) (enqueue_frame C frame st)
      else consume_loop fuel C data off n (mkConn (fd conn) have frame) st
  end.

(** Each pass takes at least one byte. *)
Definition consume_frames (C : Z) (data : list Z) (n : Z) (conn : ConnState)
    (st : FramePool.t * Metrics.t) : option (ConnState * (FramePool.t * Metrics.t)) :=
  consume_loop (Z.to_nat n) C data 0 n conn st.

(** The chunks [recvmmsg] delivers for descriptor [cfd], one after the other;
    [conn] is its table entry. *)
Fixpoint consume_chunks (C : Z) (cfd : Z) (chunks : list (list Z)) (conn : ConnState)
    (st : FramePool.t * Metrics.t) : option (ConnState * (FramePool.t * Metrics.t)) :=
  match chunks with
  | [] => Some (conn, st)
  | data :: chunks =>
      let len := Z.of_nat (length data) in
      if (0 <? len) && (0 <=? cfd) && (cfd <? MAX_FD) && (fd conn =? cfd) then
        '(conn, st) ← consume_frames C data len conn st;
        consume_chunks C cfd chunks conn st
      else consume_chunks C cfd chunks conn st
  end.

End Tcp.

(** ** Specification *)

(** The complete frames of a byte stream, and the bytes after the last. *)
Fixpoint split_frames (fuel : nat) (bs : list Z) : list (list Z) * list Z :=
  match fuel with
  | O => ([], bs)
  | S fuel =>
      if decide (44 <= length bs)%nat
      then let '(fs, rest) := split_frames fuel (drop 44 bs) in (take 44 bs :: fs, rest)
      else ([], bs)
  end.

Definition frames_of (bs : list Z) : list (list Z) * list Z := split_frames (length bs) bs.

Lemma split_frames_fuel fuel fuel' bs :
  (length bs <= fuel)%nat -> (length bs <= fuel')%nat ->
  split_frames fuel bs = split_frames fuel' bs.
Proof.
  revert fuel' bs. induction fuel as [|fuel IH]; intros [|fuel'] bs H1 H2; cbn [split_frames]; try done;
    try (case_decide; [lia|done]).
  case_decide; [|done]. rewrite (IH fuel'); [done|rewrite length_drop; lia..].
Qed.

Lemma frames_of_short bs : (length bs < 44)%nat -> frames_of bs = ([], bs).
Proof.
  intros. unfold frames_of. destruct (length bs) eqn:E; cbn [split_frames]; [done|].
  by rewrite decide_False by lia.
Qed.

Lemma frames_of_cons f bs :
  length f = 44%nat -> frames_of (f ++ bs) = (f :: (frames_of bs).1, (frames_of bs).2).
Proof.
  intros Hf. unfold frames_of. rewrite length_app, Hf. change (44 + length bs)%nat with (S (43 + length bs)). cbn [split_frames].
  rewrite decide_True by (rewrite length_app; lia).
  rewrite take_app_length' by done. rewrite drop_app_length' by done.
  rewrite (split_frames_fuel (43 + length bs) (length bs) bs) by lia.
  by destruct (split_frames (length bs) bs).
Qed.

(** What a list of frames does to the pool. *)
Definition enqueue_all (C : Z) (fs : list (list Z)) (st : FramePool.t * Metrics.t)
    : FramePool.t * Metrics.t := fold_left (fun st f => Tcp.enqueue_frame C f st) fs st.

(** The bytes of an unfinished frame. *)
Definition pending (conn : Tcp.ConnState) : list Z := take (Z.to_nat (Tcp.have conn)) (Tcp.frame conn).

Definition conn_ok (conn : Tcp.ConnState) : Prop :=
  0 <= Tcp.have conn < 44 /\ length (Tcp.frame conn) = 44%nat.

Lemma length_pending conn : conn_ok conn -> Z.of_nat (length (pending conn)) = Tcp.have conn.
Proof. intros [Hh Hl]. unfold pending. rewrite length_take, Hl. lia. Qed.

(** One copy appends to the pending bytes. *)
Lemma frame_append conn bs :
  conn_ok conn -> Tcp.have conn + Z.of_nat (length bs) <= 44 ->
  take (Z.to_nat (Tcp.have conn) + length bs)
    (memcpy_at (Tcp.frame conn) (Tcp.have conn) bs) = pending conn ++ bs /\
  length (memcpy_at (Tcp.frame conn) (Tcp.have conn) bs) = 44%nat.
Proof.
  intros Hok Hle. pose proof Hok as [Hh Hl]. rewrite length_memcpy_at. split; [|done].
  pose proof (length_pending conn Hok) as Hp.
  rewrite <- (take_drop (Z.to_nat (Tcp.have conn)) (Tcp.frame conn)) at 1.
  fold (pending conn). rewrite memcpy_at_end; [|lia|rewrite length_drop; lia].
  rewrite <- (app_nil_r (pending conn ++ bs)) at 2. rewrite take_app.
  replace (_ - length (pending conn ++ bs))%nat with 0%nat by (rewrite length_app; lia).
  rewrite take_ge, take_0 by (rewrite length_app; lia). done.
Qed.

Lemma consume_loop_spec fuel C data off conn st :
  conn_ok conn -> 0 <= off <= Z.of_nat (length data) ->
  (length data - Z.to_nat off <= fuel)%nat ->
  let '(fs, rest) := frames_of (pending conn ++ drop (Z.to_nat off) data) in
  exists conn', Tcp.consume_loop fuel C data off (Z.of_nat (length data)) conn st
    = Some (conn', enqueue_all C fs st) /\ conn_ok conn' /\ pending conn' = rest /\
    Tcp.fd conn' = Tcp.fd conn.
Proof.
  revert off conn st. induction fuel as [|fuel IH]; intros off conn st Hok Hoff Hfuel;
    cbn [Tcp.consume_loop].
  1,2: pose proof (length_pending conn Hok) as Hp; pose proof Hok as [Hh Hl];
    destruct (Z.ltb_spec off (Z.of_nat (length data))) as [Hlt|Hge]; cbn [negb]; try lia.
  1,3: rewrite drop_ge, app_nil_r, frames_of_short by lia; by exists conn.
  set (tk := if _ <? _ then _ else _).
  assert (Htk : tk = Z.min (Z.of_nat (length data) - off) (44 - Tcp.have conn)).
  { unfold tk, kWireSize. destruct (Z.ltb_spec (Z.of_nat (length data) - off) (44 - Tcp.have conn)); lia. }
  clearbody tk. set (bs := mem_read data off tk).
  assert (Hbs : length bs = Z.to_nat tk) by (apply length_mem_read; lia).
  assert (Hsplit : drop (Z.to_nat off) data = bs ++ drop (Z.to_nat (off + tk)) data).
  { unfold bs, mem_read. rewrite Z2Nat.inj_add by lia. rewrite <- drop_drop.
    by rewrite take_drop. }
  destruct (frame_append conn bs Hok ltac:(lia)) as [Hfr Hfl].
  set (fr := memcpy_at (Tcp.frame conn) (Tcp.have conn) bs) in *.
  rewrite Hsplit, app_assoc. unfold kWireSize.
  destruct (Z.eqb_spec (Tcp.have conn + tk) 44) as [Hfull|Hpart].
  - assert (Efr : fr = pending conn ++ bs) by (rewrite <- Hfr, take_ge by lia; done).
    rewrite <- Efr, frames_of_cons by done.
    specialize (IH (off + tk) (Tcp.mkConn (Tcp.fd conn) 0 fr) (Tcp.enqueue_frame C fr st)).
    change (pending (Tcp.mkConn (Tcp.fd conn) 0 fr)) with ([] : list Z) in IH. cbn [app] in IH.
    destruct (frames_of (drop (Z.to_nat (off + tk)) data)) as [fs rest].
    destruct IH as (conn' & -> & Hok' & Hp' & Hfd'); [by split; simpl; lia|lia|lia|].
    by exists conn'.
  - specialize (IH (off + tk) (Tcp.mkConn (Tcp.fd conn) (Tcp.have conn + tk) fr) st).
    assert (Epend : pending (Tcp.mkConn (Tcp.fd conn) (Tcp.have conn + tk) fr) = pending conn ++ bs).
    { unfold pending at 1. cbn [Tcp.have Tcp.frame]. rewrite <- Hfr. f_equal. lia. }
    rewrite Epend in IH.
    destruct (frames_of ((pending conn ++ bs) ++ drop (Z.to_nat (off + tk)) data)) as [fs rest].
    destruct IH as (conn' & -> & Hok' & Hp' & Hfd'); [by split; simpl; lia|lia|lia|].
    by exists conn'.
Qed.

(** Cutting a stream in two: the rest of the first part begins the second. *)
Lemma frames_of_app a b :
  frames_of (a ++ b) =
    ((frames_of a).1 ++ (frames_of ((frames_of a).2 ++ b)).1, (frames_of ((frames_of a).2 ++ b)).2).
Proof.
  induction a as [a IH] using (induction_ltof1 _ (@length Z)). unfold ltof in IH.
  destruct (decide (length a < 44)%nat) as [Hs|Hs].
  - rewrite (frames_of_short a Hs). cbn [fst snd app]. apply surjective_pairing.
  - rewrite <- (take_drop 44 a). set (f := take 44 a). set (t := drop 44 a).
    assert (Hf : length f = 44%nat) by (unfold f; rewrite length_take; lia).
    rewrite <- app_assoc, (frames_of_cons f t), (frames_of_cons f (t ++ b)) by done. cbn [fst snd app].
    rewrite (IH t) by (unfold t; rewrite length_drop; lia).
    done.
Qed.

Lemma enqueue_all_app C fs gs st :
  enqueue_all C (fs ++ gs) st = enqueue_all C gs (enqueue_all C fs st).
Proof. apply fold_left_app. Qed.

Lemma consume_chunks_spec C cfd chunks conn st :
  conn_ok conn -> 0 <= cfd < Tcp.MAX_FD -> Tcp.fd conn = cfd ->
  exists conn', Tcp.consume_chunks C cfd chunks conn st
      = Some (conn', enqueue_all C (frames_of (pending conn ++ concat chunks)).1 st) /\
    conn_ok conn' /\ pending conn' = (frames_of (pending conn ++ concat chunks)).2 /\
    Tcp.fd conn' = cfd.
Proof.
  intros Hok Hc. revert conn st Hok. induction chunks as [|d chunks IH]; intros conn st Hok Hfd;
    cbn [Tcp.consume_chunks concat].
  { exists conn. pose proof (length_pending conn Hok). destruct Hok.
    by rewrite app_nil_r, frames_of_short by lia. }
  rewrite (proj2 (Z.leb_le 0 cfd)), (proj2 (Z.ltb_lt cfd Tcp.MAX_FD)), (proj2 (Z.eqb_eq _ cfd)), !andb_true_r
    by (done || lia).
  destruct (Z.ltb_spec 0 (Z.of_nat (length d))) as [Hlen|Hlen].
  - unfold Tcp.consume_frames.
    pose proof (consume_loop_spec (Z.to_nat (Z.of_nat (length d))) C d 0 conn st Hok
      ltac:(lia) ltac:(lia)) as H.
    change (drop (Z.to_nat 0) d) with d in H.
    rewrite app_assoc, frames_of_app.
    destruct (frames_of (pending conn ++ d)) as [fs rest].
    destruct H as (conn1 & -> & Hok1 & Hp1 & Hfd1). cbn [fst snd mbind option_bind].
    destruct (IH conn1 (enqueue_all C fs st) Hok1) as (conn2 & -> & Hok2 & Hp2 & Hfd2);
      [congruence|].
    exists conn2. rewrite enqueue_all_app, <- Hp1. split_and!; try done; congruence.
  - destruct d; [|simpl in Hlen; lia]. by apply IH.
Qed.

Lemma frames_of_concat fs tl :
  Forall (fun f => length f = 44%nat) fs -> (length tl < 44)%nat ->
  frames_of (concat fs ++ tl) = (fs, tl).
Proof.
  intros Hfs Htl. induction Hfs as [|f fs Hf _ IH]; cbn [concat app]; [by apply frames_of_short|].
  by rewrite <- app_assoc, frames_of_cons, IH.
Qed.

(** A frame in the stream and a datagram that carries it are treated alike. *)
Definition datagram (f : list Z) : rx_msg := mkRx f kWireSize false.

Lemma enqueue_all_batch C fs st : enqueue_all C fs st = handle_batch C (datagram <$> fs) st.
Proof. revert st. induction fs as [|f fs IH]; intros st; [done|]. apply IH. Qed.

(** C31 (stream reassembly).  A TCP connection that receives the frames [fs] and
    then part of another, cut into chunks in any way (empty chunks, chunks of
    one byte, chunks of many frames), leaves pool and metrics exactly as the UDP
    server does on one datagram per frame, and keeps the partial frame for the
    next chunk.  The byte-copying loop always ends. *)
Theorem tcp_reassembly C cfd old conn chunks fs tl st :
  Tcp.init_conn cfd old = (true, conn) -> length (Tcp.frame old) = 44%nat ->
  concat chunks = concat fs ++ tl ->
  Forall (fun f => length f = 44%nat) fs -> (length tl < 44)%nat ->
  exists conn', Tcp.consume_chunks C cfd chunks conn st
      = Some (conn', handle_batch C (datagram <$> fs) st) /\
    Tcp.fd conn' = cfd /\ Tcp.have conn' = Z.of_nat (length tl) /\
    take (length tl) (Tcp.frame conn') = tl.
Proof.
  intros Ei Hbuf E Hfs Htl. unfold Tcp.init_conn in Ei.
  destruct ((cfd <? 0) || (Tcp.MAX_FD <=? cfd)) eqn:Er; [done|]. injection Ei as <-.
  apply orb_false_elim in Er as [?%Z.ltb_ge ?%Z.leb_gt].
  set (conn := Tcp.mkConn cfd 0 (Tcp.frame old)).
  assert (Hok : conn_ok conn) by (split; simpl; [lia|done]).
  destruct (consume_chunks_spec C cfd chunks conn st Hok) as (conn' & Hc & Hok' & Hp & Hfd);
    [lia|done|].
  change (pending conn) with ([] : list Z) in *. cbn [app] in *.
  rewrite E, frames_of_concat in Hc, Hp by done. rewrite <- enqueue_all_batch.
  exists conn'. pose proof (length_pending conn' Hok') as Hl. cbn [snd] in Hp.
  unfold pending in Hp, Hl. rewrite Hp in Hl. split_and!; try done.
  rewrite <- Hp at 2. f_equal. lia.
Qed.

(** Two frames and a bit, in chunks of 1, 50, 0 and 40 bytes, against a pool of
    two slots. *)
Lemma tcp_reassembly_witness :
  exists conn,
    Tcp.consume_chunks 2 6
      [replicate 1 7; replicate 43 7 ++ replicate 7 9; []; replicate 37 9 ++ replicate 3 5]
      (Tcp.mkConn 6 0 (replicate 44 0))
      (FramePool.init 2 (FramePool.construct 2 [0;0] [0;0]), Metrics.zero)
    = Some (conn, handle_batch 2 (datagram <$> [replicate 44 7; replicate 44 9])
        (FramePool.init 2 (FramePool.construct 2 [0;0] [0;0]), Metrics.zero)) /\
    Tcp.fd conn = 6 /\ Tcp.have conn = 3 /\ take 3 (Tcp.frame conn) = [5; 5; 5].
Proof.
  apply (tcp_reassembly 2 6 (Tcp.mkConn (-1) 17 (replicate 44 0)) _ _
    [replicate 44 7; replicate 44 9] [5; 5; 5]).
  - reflexivity.
  - reflexivity.
  - reflexivity.
  - repeat constructor.
  - simpl; lia.
Defined.
