(* ===== verification/UdpServer.v ===== *)
(** * UdpServer: the UDP server thread of engine v1

    Models [src/common/net/v1/udp_server.hpp]: the socket set-up and the epoll
    loop of [run_server_loop], around the treatment of the datagrams in
    [EngineV1].  Starting and stopping the thread is the subject of
    [Lifecycle]. *)

From Stdlib Require Import ZArith Lia String.
From stdpp Require Import base numbers list option gmap sets.
From S2P Require Import Prelude Wire Ring Metrics Pool EngineV1 Os Sender.

Local Open Scope Z_scope.

Module UdpServer.

(** The members of [ServerHandle] the loop uses. *)
Record Handle := mkHandle { running : bool; sock_fd : Z; epfd : Z; wake_fd : Z }.

Definition idle : Handle := mkHandle false (-1) (-1) (-1).

Definition set_running (b : bool) (hd : Handle) : Handle :=
  mkHandle b (sock_fd hd) (epfd hd) (wake_fd hd).

Definition MAXEV : Z := 32.
Definition BATCH : nat := 32.
Definition BUF_SIZE : Z := 2048.

(** The arrays [io_buf], as the stack held them. *)
Definition bufs_ok (bufs : list (list Z)) : Prop :=
  length bufs = BATCH /\ Forall (fun b => Z.of_nat (length b) = BUF_SIZE /\ bytes_ok b) bufs.

Section server.
Context `{Kernel}.

Definition make_recv_socket (port : Z) (bind_ip : option string) (rcvbuf_bytes : Z) : M Z :=
  rp ← sys (Socket (Z.lor SOCK_DGRAM (Z.lor SOCK_NONBLOCK SOCK_CLOEXEC)));
  let sock_fd := ret rp in
  if sock_fd =? -1 then mret (-1) else
  rp ← sys (SetSockOpt sock_fd SO_REUSEADDR 1);
  if ret rp =? -1 then close_and sock_fd (-1) else
  buf_ok ← (if 0 <? rcvbuf_bytes
            then rp ← sys (SetSockOpt sock_fd SO_RCVBUF rcvbuf_bytes); mret (negb (ret rp =? -1))
            else mret true);
  if negb buf_ok then close_and sock_fd (-1) else
  match local_address bind_ip with
  | None => close_and sock_fd (-1)
  | Some addr =>
      rp ← sys (Bind sock_fd (mkAddr addr (u16 port)));
      if ret rp =? -1 then close_and sock_fd (-1) else mret sock_fd
  end.

(** The part of [run_server_loop] before the loop: whether it gets there. *)
Definition setup (port : Z) (bind_ip : option string) (rcvbuf_bytes : Z) (hd : Handle)
    : M (bool * Handle) :=
  sock ← make_recv_socket port bind_ip rcvbuf_bytes;
  let hd := mkHandle (running hd) sock (epfd hd) (wake_fd hd) in
  if sock =? -1 then mret (false, set_running false hd) else
  rp ← sys EpollCreate;
  let ep := ret rp in
  if ep =? -1 then close_and sock (false, mkHandle false (-1) ep (wake_fd hd)) else
  rp ← sys EventFd;
  let wake := ret rp in
  if wake =? -1 then
    _ ← sys (Close ep); close_and sock (false, mkHandle false (-1) (-1) wake)
  else
  let abandon : M (bool * Handle) :=
    _ ← sys (Close wake); _ ← sys (Close ep);
    close_and sock (false, mkHandle false (-1) (-1) (-1)) in
  rp ← sys (EpollCtlAdd ep sock (Z.lor EPOLLIN EPOLLET));
  if ret rp =? -1 then abandon else
  rp ← sys (EpollCtlAdd ep wake (Z.lor EPOLLIN EPOLLET));
  if ret rp =? -1 then abandon else
  mret (true, mkHandle (running hd) sock ep wake).

(** [while (read(wake_fd, ...) == sizeof(tmp))]. *)
Fixpoint drain_wake (fuel : nat) (wake : Z) : M unit :=
  match fuel with
  | O => out_of_fuel
  | S fuel =>
      rp ← sys (ReadU64 wake);
      if ret rp =? 8 then drain_wake fuel wake else mret tt
  end.

(** What [recvmmsg] leaves in [io_buf]: the datagrams at the start of the first
    buffers. *)
Fixpoint fill_bufs (bufs : list (list Z)) (ds : list dgram) : list (list Z) :=
  match bufs, ds with
  | b :: bufs, d :: ds => memcpy_at b 0 (dg_data d) :: fill_bufs bufs ds
  | _, _ => bufs
  end.

Definition rx_of (b : list Z) (d : dgram) : rx_msg := mkRx b (dg_len d) (dg_trunc d).

(** The receive loop on the socket. *)
Fixpoint drain_socket (fuel : nat) (C sock : Z) (bufs : list (list Z))
    (st : FramePool.t * Metrics.t) : M (list (list Z) * (FramePool.t * Metrics.t)) :=
  match fuel with
  | O => out_of_fuel
  | S fuel =>
      rp ← sys (RecvMmsg sock (replicate BATCH BUF_SIZE));
      let n := ret rp in
      if 0 <? n then
        let bufs := fill_bufs bufs (r_msgs rp) in
        drain_socket fuel C sock bufs (handle_batch C (zip_with rx_of bufs (r_msgs rp)) st)
      else if (n =? -1) && ((errno rp =? EAGAIN) || (errno rp =? EWOULDBLOCK)) then mret (bufs, st)
      else if (n =? -1) && (errno rp =? EINTR) then drain_socket fuel C sock bufs st
      else mret (bufs, st)
  end.

(** The [for] over the events. *)
Fixpoint handle_events (fuel : nat) (C : Z) (events : list (Z * Z)) (hd : Handle)
    (bufs : list (list Z)) (st : FramePool.t * Metrics.t)
    : M (Handle * list (list Z) * (FramePool.t * Metrics.t)) :=
  match events with
  | [] => mret (hd, bufs, st)
  | (fd, evs) :: events =>
      if fd =? wake_fd hd then
        _ ← drain_wake fuel (wake_fd hd);
        handle_events fuel C events (set_running false hd) bufs st
      else if negb (fd =? sock_fd hd) then handle_events fuel C events hd bufs st
      else if negb (Z.land evs (Z.lor EPOLLERR EPOLLHUP) =? 0) then
        mret (set_running false hd, bufs, st)
      else
        '(bufs, st) ← drain_socket fuel C (sock_fd hd) bufs st;
        handle_events fuel C events hd bufs st
  end.

(** The [while] loop: one element of [env] per test of [running], [true] when
    another thread cleared it before that test.  The boolean: whether the loop
    has ended; [false] when [env] is used up. *)
Fixpoint event_loop (fuel : nat) (C : Z) (env : list bool) (hd : Handle)
    (bufs : list (list Z)) (st : FramePool.t * Metrics.t)
    : M (bool * Handle * (FramePool.t * Metrics.t)) :=
  match env with
  | [] => mret (false, hd, st)
  | stop :: env =>
      let hd := if stop then set_running false hd else hd in
      if negb (running hd) then mret (true, hd, st) else
      rp ← sys (EpollWait (epfd hd) MAXEV 500);
      let nfd := ret rp in
      if nfd =? -1 then
        if errno rp =? EINTR then event_loop fuel C env hd bufs st else mret (true, hd, st)
      else if nfd =? 0 then event_loop fuel C env hd bufs st
      else
        '(hd, bufs, st) ← handle_events fuel C (take (Z.to_nat nfd) (r_events rp)) hd bufs st;
        event_loop fuel C env hd bufs st
  end.

(** The part after the loop. *)
Definition shutdown (hd : Handle) : M Handle :=
  _ ← (if negb (epfd hd =? -1) then _ ← sys (Close (epfd hd)); mret tt else mret tt);
  _ ← (if negb (sock_fd hd =? -1) then _ ← sys (Close (sock_fd hd)); mret tt else mret tt);
  _ ← (if negb (wake_fd hd =? -1) then _ ← sys (Close (wake_fd hd)); mret tt else mret tt);
  mret (mkHandle (running hd) (-1) (-1) (-1)).

(** [run_server_loop]; the boolean: whether it has returned. *)
Definition run_server_loop (fuel : nat) (C : Z) (env : list bool) (port : Z)
    (bind_ip : option string) (rcvbuf_bytes : Z) (hd : Handle) (bufs : list (list Z))
    (st : FramePool.t * Metrics.t) : M (bool * Handle * (FramePool.t * Metrics.t)) :=
  '(ok, hd) ← setup port bind_ip rcvbuf_bytes hd;
  if negb ok then mret (true, hd, st) else
  '(ended, hd, st) ← event_loop fuel C env hd bufs st;
  if ended : bool then hd ← shutdown hd; mret (true, hd, st) else mret (false, hd, st).

End server.
End UdpServer.

(** ** Set-up *)

(** A handle without descriptors. *)
Definition bare (hd : UdpServer.Handle) : Prop :=
  UdpServer.sock_fd hd = -1 /\ UdpServer.epfd hd = -1 /\ UdpServer.wake_fd hd = -1.

(** A handle that holds three descriptors on top of [L]. *)
Definition armed (L L' : gset Z) (hd : UdpServer.Handle) : Prop :=
  held3 L L' (UdpServer.sock_fd hd) (UdpServer.epfd hd) (UdpServer.wake_fd hd).

Section server_proofs.
Context {K : Kernel} {P B : nat} {HP : KernelOk P} {HT : Traffic B}.

Lemma make_recv_socket_spec port ip rcvbuf L A W h :
  ledger L A W h ->
  wp (UdpServer.make_recv_socket port ip rcvbuf) (fun fd h' =>
    (fd = -1 /\ exists W', ledger L A W' h') \/
    (0 <= fd /\ (fd ∉ L) /\ ledger (L ∪ {[fd]}) A W h')) h.
Proof.
  intros Hl. unfold UdpServer.make_recv_socket. wp_step.
  eapply wp_open_ledger; [done|done|constructor| |].
  { intros r h' _ Hr Hl'. rewrite Hr. left. split; [done|]. by exists W. }
  intros r h1 _ Hr Hf _ Hl1. rewrite (proj2 (Z.eqb_neq _ _)) by lia.
  assert (Hfail : forall h' W', ledger ((L ∪ {[ret r]}) ∖ {[ret r]}) A W' h' ->
    exists W', ledger L A W' h').
  { intros h' W' Hx. exists W'. by replace ((L ∪ {[ret r]}) ∖ {[ret r]}) with L in Hx by set_solver. }
  repeat ledger_step; first [left; split; [done|eauto]|right; eauto].
Qed.

(** The set-up gets everything or leaves nothing behind. *)
Definition setup_post (L : gset Z) (A : list dgram) (hd : UdpServer.Handle)
    (res : bool * UdpServer.Handle) (h' : history) : Prop :=
  let '(ok, hd') := res in
  if ok then UdpServer.running hd' = UdpServer.running hd /\
    exists L' W', armed L L' hd' /\ ledger L' A W' h'
  else UdpServer.running hd' = false /\ bare hd' /\ exists W', ledger L A W' h'.

Lemma setup_failed L L' A W hd hd' h' :
  ledger L' A W h' -> L' = L -> UdpServer.running hd' = false -> bare hd' ->
  setup_post L A hd (false, hd') h'.
Proof. intros Hl -> Hr Hb. split; [done|]. split; [done|]. by exists W. Qed.

Lemma setup_spec port ip rcvbuf hd L A W h :
  ledger L A W h -> bare hd ->
  wp (UdpServer.setup port ip rcvbuf hd) (setup_post L A hd) h.
Proof.
  intros Hl (Hb1 & Hb2 & Hb3). unfold UdpServer.setup. wp_step.
  eapply wp_mono; [by eapply make_recv_socket_spec|].
  intros fd h1 [[-> [W1 Hl1]]|(Hfd & Hf & Hl1)].
  { cbv zeta. rewrite Z.eqb_refl. wp_step. by eapply setup_failed; [exact Hl1|..]. }
  cbv zeta. rewrite (proj2 (Z.eqb_neq fd (-1))) by lia.
  wp_step. eapply wp_open_ledger; [exact Hl1|done|constructor| |].
  { intros r h2 _ Hr Hl2. rewrite Hr, Z.eqb_refl. repeat ledger_step.
    eapply setup_failed; [eassumption|set_solver|done|done]. }
  intros r h2 _ Hr Hf2 _ Hl2. rewrite (proj2 (Z.eqb_neq (ret r) (-1))) by lia.
  set (ep := ret r) in *. clearbody ep.
  wp_step. eapply wp_open_ledger; [exact Hl2|done|constructor| |].
  { intros r3 h3 _ Hr3 Hl3. rewrite Hr3, Z.eqb_refl. repeat ledger_step.
    eapply setup_failed; [eassumption|set_solver|done|done]. }
  intros r3 h3 _ Hr3 Hf3 _ Hl3. rewrite (proj2 (Z.eqb_neq (ret r3) (-1))) by lia.
  set (wake := ret r3) in *. clearbody wake.
  repeat ledger_step; try (eapply setup_failed; [eassumption|set_solver|done|done]).
  split; [done|]. do 2 eexists. split; [|eassumption]. split; simpl; try lia; set_solver.
Qed.

(** ** Receiving *)

(** A treated datagram is one that arrived. *)
Definition carried (d : dgram) (m : rx_msg) : Prop :=
  rx_len m = dg_len d /\ rx_trunc m = dg_trunc d /\
  take (Z.to_nat (dg_len d)) (rx_buf m) = dg_data d /\ rx_ok m.

Lemma fill_bufs_spec bufs ds :
  Forall (fun b => Z.of_nat (length b) = UdpServer.BUF_SIZE /\ bytes_ok b) bufs ->
  Forall (dgram_ok UdpServer.BUF_SIZE) ds -> (length ds <= length bufs)%nat ->
  let bufs' := UdpServer.fill_bufs bufs ds in
  length bufs' = length bufs /\
  Forall (fun b => Z.of_nat (length b) = UdpServer.BUF_SIZE /\ bytes_ok b) bufs' /\
  Forall2 carried ds (zip_with UdpServer.rx_of bufs' ds).
Proof.
  cbv zeta. intros Hb Hd. revert bufs Hb. induction Hd as [|d ds (Hlen & Hdl & Hby) _ IH];
    intros bufs Hb Hle.
  { assert (UdpServer.fill_bufs bufs [] = bufs) as -> by (by destruct bufs).
    rewrite zip_with_nil_r. by split_and!. }
  destruct Hb as [|b bufs [Hbl Hbb] Hb]; [simpl in Hle; lia|]. cbn [UdpServer.fill_bufs zip_with length].
  destruct (IH bufs Hb ltac:(simpl in Hle; lia)) as (H1 & H2 & H3).
  assert (E : memcpy_at b 0 (dg_data d) = dg_data d ++ drop (length (dg_data d)) b).
  { change b with ([] ++ b) at 1. rewrite memcpy_at_end by (simpl; lia). done. }
  assert (Hnew : Z.of_nat (length (memcpy_at b 0 (dg_data d))) = UdpServer.BUF_SIZE /\
    bytes_ok (memcpy_at b 0 (dg_data d))).
  { rewrite length_memcpy_at. split; [done|]. rewrite E. apply Forall_app. split; [done|].
    by apply Forall_drop. }
  split_and!; [lia|by constructor|]. constructor; [|done].
  unfold carried. cbn [UdpServer.rx_of rx_len rx_trunc rx_buf]. split_and!; try done.
  - rewrite E, <- Hdl, Nat2Z.id. by rewrite take_app_length.
  - destruct Hnew as [Hn ?]. split; [|done]. cbn [UdpServer.rx_of rx_buf].
    unfold UdpServer.BUF_SIZE in Hn. lia.
Qed.

Lemma handle_batch_app C ms1 ms2 st :
  handle_batch C (ms1 ++ ms2) st = handle_batch C ms2 (handle_batch C ms1 st).
Proof. apply fold_left_app. Qed.

(** The pool after the datagrams that arrived since [A]. *)
Definition treated (C : Z) (A : list dgram) (st : FramePool.t * Metrics.t) (A' : list dgram)
    (st' : FramePool.t * Metrics.t) : Prop :=
  exists ds ms, A' = A ++ ds /\ Forall2 carried ds ms /\ st' = handle_batch C ms st.

Lemma treated_refl C A st : treated C A st A st.
Proof. exists [], []. by rewrite app_nil_r. Qed.

Lemma treated_trans C A1 st1 A2 st2 A3 st3 :
  treated C A1 st1 A2 st2 -> treated C A2 st2 A3 st3 -> treated C A1 st1 A3 st3.
Proof.
  intros (ds1 & ms1 & -> & H1 & ->) (ds2 & ms2 & -> & H2 & ->).
  exists (ds1 ++ ds2), (ms1 ++ ms2). rewrite app_assoc, handle_batch_app.
  split_and!; try done. by apply Forall2_app.
Qed.

Lemma drain_socket_spec fuel C sock bufs st L A W h :
  ledger L A W h -> sock ∈ L -> UdpServer.bufs_ok bufs ->
  (drain_measure (P := P) (B := B) h < fuel)%nat ->
  wp (UdpServer.drain_socket fuel C sock bufs st) (fun '(bufs', st') h' =>
    UdpServer.bufs_ok bufs' /\ exists A', ledger L A' W h' /\ treated C A st A' st') h.
Proof.
  intros Hl Hs. revert A bufs st h Hl. induction fuel as [|fuel IH]; intros A bufs st h Hl Hb Hm; [lia|].
  cbn [UdpServer.drain_socket]. repeat wp_step. set (c := RecvMmsg _ _). set (rp := kernel h c).
  assert (Hl' : ledger L (A ++ received_by c rp) W ((c, rp) :: h)).
  { destruct Hl as [H1 H2 H3]. split; [|by simpl; rewrite H2|done].
    apply live_use; try done. by constructor. }
  destruct (Z.ltb_spec 0 (ret rp)) as [Hn|Hn].
  { destruct (kernel_recvmmsg h sock (replicate UdpServer.BATCH UdpServer.BUF_SIZE))
      as [Hlen (cs & Hcs & Hok)]; [unfold rp, c in Hn; lia|]. fold c rp in Hlen, Hok.
    pose proof (prefix_length _ _ Hcs) as Hpl. rewrite length_replicate in Hpl.
    pose proof (Forall2_length _ _ _ Hok) as Hcl. destruct Hb as [Hb1 Hb2].
    assert (Hds : Forall (dgram_ok UdpServer.BUF_SIZE) (r_msgs rp)).
    { apply Forall_forall. intros d Hd. apply list_elem_of_lookup in Hd as [i Hi].
      destruct (Forall2_lookup_r _ _ _ _ _ Hok Hi) as (cap & Hc & Hdok).
      apply (prefix_lookup_Some _ _ _ _ Hc) in Hcs. by apply lookup_replicate in Hcs as [-> _]. }
    destruct (fill_bufs_spec bufs (r_msgs rp) Hb2 Hds ltac:(lia)) as (H1 & H2 & H3).
    assert (Er : received_by c rp = r_msgs rp) by (simpl; by rewrite (proj2 (Z.ltb_lt _ _) Hn)).
    rewrite Er in Hl'.
    eapply wp_mono; [eapply (IH _ _ _ _ Hl'); [split; [lia|done]|]|].
    { pose proof (drain_measure_found (P := P) (B := B) h c eq_refl) as Hd. fold rp in Hd.
      specialize (Hd ltac:(simpl; by apply Z.ltb_lt)). lia. }
    intros [bufs' st'] h' (Hb' & A' & Hl2 & Ht). split; [done|]. exists A'. split; [done|].
    eapply treated_trans; [|exact Ht]. by do 2 eexists. }
  assert (Er : received_by c rp = []) by (simpl; by rewrite (proj2 (Z.ltb_ge _ _) Hn)).
  rewrite Er, app_nil_r in Hl'.
  assert (Hend : wp (mret (bufs, st)) (fun '(bufs', st') h' => UdpServer.bufs_ok bufs' /\
    exists A', ledger L A' W h' /\ treated C A st A' st') ((c, rp) :: h)).
  { wp_step. split; [done|]. exists A. split; [done|apply treated_refl]. }
  destruct (Z.eqb_spec (ret rp) (-1)) as [Hr|Hr]; cbn [andb]; [|exact Hend].
  destruct ((errno rp =? EAGAIN) || (errno rp =? EWOULDBLOCK)); [exact Hend|].
  destruct (Z.eqb_spec (errno rp) EINTR) as [He|He]; [|exact Hend].
  apply IH; [done|done|].
  pose proof (drain_measure_eintr (P := P) (B := B) h c eq_refl Hr He) as Hd. fold rp in Hd. lia.
Qed.

Lemma drain_wake_spec fuel wake L A W h :
  ledger L A W h -> wake ∈ L -> (drain_measure (P := P) (B := B) h < fuel)%nat ->
  wp (UdpServer.drain_wake fuel wake) (fun _ h' => ledger L A W h') h.
Proof.
  intros Hl Hs. revert h Hl. induction fuel as [|fuel IH]; intros h Hl Hm; [lia|].
  cbn [UdpServer.drain_wake]. repeat wp_step. set (c := ReadU64 wake). set (rp := kernel h c).
  assert (Hl' : ledger L A W ((c, rp) :: h)) by (apply ledger_plain; [done|done|by constructor]).
  destruct (ret rp =? 8) eqn:E; [|by wp_step]. apply IH; [done|].
  pose proof (drain_measure_found (P := P) (B := B) h c eq_refl E) as Hd. fold rp in Hd. lia.
Qed.

(** ** The loop *)

(** What a part of the loop preserves. *)
Definition loop_post (C : Z) (L : gset Z) (W : Z -> gset Z) (A : list dgram) (hd : UdpServer.Handle)
    (st : FramePool.t * Metrics.t) (hd' : UdpServer.Handle) (st' : FramePool.t * Metrics.t)
    (h' : history) : Prop :=
  (hd' = hd \/ hd' = UdpServer.set_running false hd) /\
  exists A', ledger L A' W h' /\ treated C A st A' st'.

Lemma handle_events_spec C events hd bufs st L A W h :
  ledger L A W h -> UdpServer.sock_fd hd ∈ L -> UdpServer.wake_fd hd ∈ L ->
  UdpServer.bufs_ok bufs ->
  wp (UdpServer.handle_events (drain_fuel (P := P) (B := B)) C events hd bufs st)
    (fun '(hd', bufs', st') h' => UdpServer.bufs_ok bufs' /\ loop_post C L W A hd st hd' st' h') h.
Proof.
  set (fuel := drain_fuel). revert A hd bufs st h.
  induction events as [|[fd evs] events IH]; intros A hd bufs st h Hl Hs Hw Hb;
    cbn [UdpServer.handle_events].
  { wp_step. split; [done|]. split; [by left|]. exists A. split; [done|apply treated_refl]. }
  assert (Hm : (drain_measure (P := P) (B := B) h < fuel)%nat) by apply drain_measure_fuel.
  destruct (fd =? UdpServer.wake_fd hd); [|destruct (negb (fd =? _)); [by apply IH|]].
  - wp_step. eapply wp_mono; [by eapply drain_wake_spec|]. intros u h1 Hl1. cbv beta in Hl1.
    eapply wp_mono; [by eapply IH|]. intros [[hd' bufs'] st'] h' [Hb' [Hhd' Hrest]].
    split; [done|]. split; [|done]. right. by destruct Hhd' as [->| ->].
  - destruct (negb _); [wp_step; split; [done|]; split; [by right|]; exists A; split;
      [done|apply treated_refl]|].
    wp_step. eapply wp_mono; [by eapply drain_socket_spec|].
    intros [bufs1 st1] h1 (Hb1 & A1 & Hl1 & Ht1).
    eapply wp_mono; [by eapply IH|]. intros [[hd' bufs'] st'] h' [Hb' [Hhd' (A2 & Hl2 & Ht2)]].
    split; [done|]. split; [done|]. exists A2. split; [done|by eapply treated_trans].
Qed.

Lemma event_loop_spec C env hd bufs st L A W h :
  ledger L A W h -> {[UdpServer.sock_fd hd; UdpServer.epfd hd; UdpServer.wake_fd hd]} ⊆ L ->
  UdpServer.bufs_ok bufs ->
  wp (UdpServer.event_loop (drain_fuel (P := P) (B := B)) C env hd bufs st)
    (fun '(ended, hd', st') h' => loop_post C L W A hd st hd' st' h' /\
      (true ∈ env -> ended = true)) h.
Proof.
  revert A hd bufs st h. induction env as [|stop env IH]; intros A hd bufs st h Hl Hs Hb;
    cbn [UdpServer.event_loop].
  { wp_step. split; [|set_solver]. split; [by left|]. exists A. split; [done|apply treated_refl]. }
  assert (Hend : forall hd1, hd1 = hd \/ hd1 = UdpServer.set_running false hd -> forall h1,
    ledger L A W h1 -> loop_post C L W A hd st hd1 st h1).
  { intros hd1 Hhd1 h1 Hl1. split; [done|]. exists A. split; [done|apply treated_refl]. }
  destruct stop; [cbn [UdpServer.set_running UdpServer.running negb]; wp_step; split; [apply Hend; auto|done]|].
  destruct (UdpServer.running hd) eqn:Er; cbn [negb]; [|wp_step; split; [apply Hend; auto|done]].
  assert (Henv : true ∈ false :: env -> true ∈ env) by set_solver.
  wp_step. eapply wp_plain; [exact Hl|done|by constructor; [set_solver|constructor]|].
  intros rp h1 _ Hl1.
  destruct (ret rp =? -1).
  { destruct (errno rp =? EINTR); [|wp_step; split; [apply Hend; auto|done]].
    eapply wp_mono; [by eapply IH|]. intros [[e hd'] st'] h' [Hp Ht]. split; [done|auto]. }
  destruct (ret rp =? 0).
  { eapply wp_mono; [by eapply IH|]. intros [[e hd'] st'] h' [Hp Ht]. split; [done|auto]. }
  wp_step. eapply wp_mono; [eapply handle_events_spec; [exact Hl1|set_solver|set_solver|done]|].
  intros [[hd1 bufs1] st1] h2 [Hb1 Hp1]. pose proof Hp1 as [Hhd1 (A1 & Hl2 & Ht1)].
  eapply wp_mono; [eapply IH; [exact Hl2| |done]; by destruct Hhd1 as [->| ->]|].
  intros [[e hd'] st'] h' [[Hhd' (A2 & Hl3 & Ht2)] Ht]. split; [|auto]. split.
  - destruct Hhd1 as [->| ->], Hhd' as [->| ->]; auto.
  - exists A2. split; [done|by eapply treated_trans].
Qed.

Lemma shutdown_spec hd L L' A W h :
  ledger L' A W h -> armed L L' hd ->
  wp (UdpServer.shutdown hd) (fun hd' h' => live h' = Some L /\ arrived h' = A /\ bare hd') h.
Proof.
  intros Hl [-> Hf N1 N2 N3 (P1 & P2 & P3)]. unfold UdpServer.shutdown.
  rewrite !(proj2 (Z.eqb_neq _ (-1))) by lia. cbn [negb]. repeat ledger_step.
  match goal with H : ledger _ _ _ _ |- _ => destruct H as [Hlive Harr _] end.
  split_and!; [rewrite Hlive; f_equal; set_solver|done|done..].
Qed.

(** What a session of the server thread promises. *)
Definition session_post (C : Z) (L : gset Z) (A : list dgram) (st : FramePool.t * Metrics.t)
    (env : list bool) (res : bool * UdpServer.Handle * (FramePool.t * Metrics.t)) (h' : history)
    : Prop :=
  let '(ended, hd', st') := res in
  treated C A st (arrived h') st' /\
  (if ended : bool then live h' = Some L /\ bare hd'
   else exists L', armed L L' hd' /\ live h' = Some L') /\
  (true ∈ env -> ended = true).

(** C14 (UDP server session).  Whatever the kernel answers, as long as the traffic
    leaves gaps: the server thread gets through its set-up and its loop; every
    datagram that arrives is treated exactly once and in order; no descriptor that
    is not open is used; when it has returned, after a failed set-up, a socket
    error or a stop, all its descriptors are closed again, and until then it holds
    exactly its three; once another thread has cleared [running] it returns at the
    next test. *)
Theorem udp_server_session C env port ip rcvbuf hd bufs st L h :
  live h = Some L -> bare hd -> UdpServer.bufs_ok bufs ->
  wp (UdpServer.run_server_loop (drain_fuel (P := P) (B := B)) C env port ip rcvbuf hd bufs st)
    (session_post C L (arrived h) st env) h.
Proof.
  intros Hl Hbare Hb. unfold UdpServer.run_server_loop.
  assert (Hled : ledger L (arrived h) (watched h) h) by (by split).
  wp_step. eapply wp_mono; [by eapply setup_spec|]. intros [ok hd1] h1 Hp.
  destruct ok; cbn [negb].
  2: { destruct Hp as (Hr & Hbare1 & W1 & [H1 H2 H3]). wp_step. split_and!; try done.
       rewrite H2. apply treated_refl. }
  destruct Hp as (Hr & L1 & W1 & Harm & Hl1). wp_step.
  eapply wp_mono; [eapply event_loop_spec; [exact Hl1|destruct Harm as [-> ]; set_solver|done]|].
  intros [[ended hd2] st2] h2 [[Hhd2 (A2 & Hl2 & Ht2)] Hstop].
  assert (Harm2 : armed L L1 hd2) by (destruct Hhd2 as [->| ->]; destruct Harm; by split).
  destruct ended.
  - wp_step. eapply wp_mono; [by eapply shutdown_spec|]. intros hd3 h3 (H1 & H2 & H3).
    wp_step. rewrite <- H2 in Ht2. by split_and!.
  - wp_step. destruct Hl2 as [H1 H2 H3]. rewrite <- H2 in Ht2. split_and!; try done.
    by exists L1.
Qed.

End server_proofs.

(** ** A session

    Against the busy kernel: three rounds that find a datagram each, the last with
    the wake-up. *)

Definition sample_bufs : list (list Z) := replicate 32 (replicate 2048 0).

Lemma sample_bufs_ok : UdpServer.bufs_ok sample_bufs.
Proof.
  split; [done|]. apply Forall_replicate. split; [by rewrite length_replicate|].
  apply Forall_replicate. by vm_compute.
Qed.

Definition sample_pool : FramePool.t := FramePool.init 4 (FramePool.construct 4 (replicate 4 0) (replicate 4 0)).

Lemma udp_server_session_witness :
  wp (@UdpServer.run_server_loop busy_kernel 2 4 [false; false; false; false] 8888 None 0
        (UdpServer.mkHandle true (-1) (-1) (-1)) sample_bufs (sample_pool, Metrics.zero))
    (session_post 4 ∅ [] (sample_pool, Metrics.zero) [false; false; false; false]) [].
Proof.
  apply (@udp_server_session busy_kernel 0 1 busy_kernel_ok busy_kernel_traffic 4
    [false; false; false; false] 8888 None 0 (UdpServer.mkHandle true (-1) (-1) (-1)) sample_bufs
    (sample_pool, Metrics.zero) ∅ []).
  - reflexivity.
  - split; [reflexivity|split; reflexivity].
  - exact sample_bufs_ok.
Defined.

Example sample_session :
  match @UdpServer.run_server_loop busy_kernel 2 4 [false; false; false; false] 8888 None 0
          (UdpServer.mkHandle true (-1) (-1) (-1)) sample_bufs (sample_pool, Metrics.zero) [] with
  | Some ((ended, hd, st), h) =>
      ended && negb (UdpServer.running hd) && bool_decide (live h = Some ∅)
      && (length (arrived h) =? 3)%nat && (length (queued 4 st.1) =? 3)%nat
  | None => false
  end = true.
Proof. vm_compute. reflexivity. Qed.
