(* ===== verification/TcpServer.v ===== *)
(** * TcpServer: the TCP server thread

    Models the listening socket and the epoll loop of
    [src/common/net/v1/tcp_server_nonblock_epoll.hpp] around the frame reassembly
    of [TcpFrames].  The table of connections is indexed by descriptor; an entry
    never written holds the initial value. *)

From Stdlib Require Import ZArith Lia String.
From stdpp Require Import base numbers list option gmap sets.
From S2P Require Import Prelude Wire Ring Metrics Pool EngineV1 Os Sender TcpFrames.

Local Open Scope Z_scope.

Module TcpServer.

(** The members of [ServerHandle] the loop uses. *)
Record Handle := mkHandle { running : bool; listen_fd : Z; epfd : Z; wake_fd : Z }.

Definition set_running (b : bool) (hd : Handle) : Handle :=
  mkHandle b (listen_fd hd) (epfd hd) (wake_fd hd).

Definition MAXEV : Z := 64.
Definition BATCH : nat := 16.
Definition BUF_SIZE : Z := 4096.

(** [static ConnState conns[MAX_FD]]. *)
Abbreviation table := (gmap Z Tcp.ConnState).
Definition fresh_conn : Tcp.ConnState := Tcp.mkConn (-1) 0 (replicate 44 0).
Definition conn_at (conns : table) (fd : Z) : Tcp.ConnState := default fresh_conn (conns !! fd).
Definition reset (fd : Z) (conns : table) : table :=
  <[fd := Tcp.reset_conn fd (conn_at conns fd)]> conns.

Section server.
Context `{Kernel}.

Definition make_listen_socket (port : Z) : M Z :=
  rp ← sys (Socket (Z.lor SOCK_STREAM (Z.lor SOCK_NONBLOCK SOCK_CLOEXEC)));
  let listen_fd := ret rp in
  if listen_fd =? -1 then mret (-1) else
  rp ← sys (SetSockOpt listen_fd SO_REUSEADDR 1);
  if ret rp =? -1 then close_and listen_fd (-1) else
  match inet_pton "127.0.0.1" with
  | None => close_and listen_fd (-1)
  | Some addr =>
      rp ← sys (Bind listen_fd (mkAddr addr (u16 port)));
      if ret rp =? -1 then close_and listen_fd (-1) else
      rp ← sys (Listen listen_fd);
      if ret rp =? -1 then close_and listen_fd (-1) else mret listen_fd
  end.

(** The part of [run_server_loop] before the loop: whether it gets there. *)
Definition setup (port : Z) (hd : Handle) : M (bool * Handle) :=
  lfd ← make_listen_socket port;
  let hd := mkHandle (running hd) lfd (epfd hd) (wake_fd hd) in
  if lfd =? -1 then mret (false, set_running false hd) else
  rp ← sys EpollCreate;
  let ep := ret rp in
  if ep =? -1 then close_and lfd (false, mkHandle false (-1) ep (wake_fd hd)) else
  rp ← sys EventFd;
  let wake := ret rp in
  if wake =? -1 then
    _ ← sys (Close ep); close_and lfd (false, mkHandle false (-1) (-1) wake)
  else
  let abandon : M (bool * Handle) :=
    _ ← sys (Close wake); _ ← sys (Close ep);
    close_and lfd (false, mkHandle false (-1) (-1) (-1)) in
  rp ← sys (EpollCtlAdd ep lfd (Z.lor EPOLLIN EPOLLET));
  if ret rp =? -1 then abandon else
  rp ← sys (EpollCtlAdd ep wake (Z.lor EPOLLIN EPOLLET));
  if ret rp =? -1 then abandon else
  mret (true, mkHandle (running hd) lfd ep wake).

(** The accept loop. *)
Fixpoint accept_loop (fuel : nat) (hd : Handle) (conns : table) : M table :=
  match fuel with
  | O => out_of_fuel
  | S fuel =>
      rp ← sys (Accept (listen_fd hd) (Z.lor SOCK_NONBLOCK SOCK_CLOEXEC));
      let cfd := ret rp in
      if cfd =? -1 then
        if (errno rp =? EAGAIN) || (errno rp =? EWOULDBLOCK) then mret conns
        else if errno rp =? EINTR then accept_loop fuel hd conns
        else mret conns
      else
        let '(ok, conn) := Tcp.init_conn cfd (conn_at conns cfd) in
        if negb ok then _ ← sys (Close cfd); accept_loop fuel hd conns
        else
          let conns := <[cfd := conn]> conns in
          rp ← sys (EpollCtlAdd (epfd hd) cfd (Z.lor EPOLLIN (Z.lor EPOLLET EPOLLRDHUP)));
          if ret rp =? -1 then
            _ ← sys (Close cfd); accept_loop fuel hd (reset cfd conns)
          else accept_loop fuel hd conns
  end.

(** The receive loop on a connection; [io_buf[j]] holds the bytes of the [j]th
    message. *)
Fixpoint recv_loop (fuel : nat) (C fd : Z) (conns : table) (st : FramePool.t * Metrics.t)
    : M (table * (FramePool.t * Metrics.t)) :=
  match fuel with
  | O => out_of_fuel
  | S fuel =>
      rp ← sys (RecvMmsg fd (replicate BATCH BUF_SIZE));
      let n := ret rp in
      if 0 <? n then
        match Tcp.consume_chunks C fd (dg_data <$> r_msgs rp) (conn_at conns fd) st with
        | None => out_of_fuel
        | Some (conn, st) => recv_loop fuel C fd (<[fd := conn]> conns) st
        end
      else if n =? 0 then _ ← sys (Close fd); mret (reset fd conns, st)
      else if (errno rp =? EAGAIN) || (errno rp =? EWOULDBLOCK) then mret (conns, st)
      else if errno rp =? EINTR then recv_loop fuel C fd conns st
      else _ ← sys (Close fd); mret (reset fd conns, st)
  end.

(** The [for] over the events. *)
Fixpoint handle_events (fuel : nat) (C : Z) (events : list (Z * Z)) (hd : Handle)
    (conns : table) (st : FramePool.t * Metrics.t)
    : M (Handle * table * (FramePool.t * Metrics.t)) :=
  match events with
  | [] => mret (hd, conns, st)
  | (fd, evs) :: events =>
      if fd =? wake_fd hd then
        _ ← sys (ReadU64 (wake_fd hd));
        handle_events fuel C events (set_running false hd) conns st
      else if fd =? listen_fd hd then
        conns ← accept_loop fuel hd conns;
        handle_events fuel C events hd conns st
      else if negb (Z.land evs (Z.lor EPOLLERR (Z.lor EPOLLHUP EPOLLRDHUP)) =? 0) then
        _ ← sys (Close fd);
        handle_events fuel C events hd (reset fd conns) st
      else
        '(conns, st) ← recv_loop fuel C fd conns st;
        handle_events fuel C events hd conns st
  end.

(** The [while] loop, [env] as in [UdpServer.event_loop]. *)
Fixpoint event_loop (fuel : nat) (C : Z) (env : list bool) (hd : Handle) (conns : table)
    (st : FramePool.t * Metrics.t) : M (bool * Handle * table * (FramePool.t * Metrics.t)) :=
  match env with
  | [] => mret (false, hd, conns, st)
  | stop :: env =>
      let hd := if stop then set_running false hd else hd in
      if negb (running hd) then mret (true, hd, conns, st) else
      rp ← sys (EpollWait (epfd hd) MAXEV 500);
      let nfd := ret rp in
      if nfd =? -1 then
        if errno rp =? EINTR then event_loop fuel C env hd conns st
        else mret (true, hd, conns, st)
      else if nfd =? 0 then event_loop fuel C env hd conns st
      else
        '(hd, conns, st) ← handle_events fuel C (take (Z.to_nat nfd) (r_events rp)) hd conns st;
        event_loop fuel C env hd conns st
  end.

(** The part after the loop. *)
Definition shutdown (hd : Handle) : M Handle :=
  _ ← (if negb (epfd hd =? -1) then _ ← sys (Close (epfd hd)); mret tt else mret tt);
  _ ← (if negb (listen_fd hd =? -1) then _ ← sys (Close (listen_fd hd)); mret tt else mret tt);
  _ ← (if negb (wake_fd hd =? -1) then _ ← sys (Close (wake_fd hd)); mret tt else mret tt);
  mret (mkHandle (running hd) (-1) (-1) (-1)).

(** [run_server_loop]; the boolean: whether it has returned. *)
Definition run_server_loop (fuel : nat) (C : Z) (env : list bool) (port : Z) (hd : Handle)
    (conns : table) (st : FramePool.t * Metrics.t)
    : M (bool * Handle * table * (FramePool.t * Metrics.t)) :=
  '(ok, hd) ← setup port hd;
  if negb ok then mret (true, hd, conns, st) else
  '(ended, hd, conns, st) ← event_loop fuel C env hd conns st;
  if ended : bool then hd ← shutdown hd; mret (true, hd, conns, st)
  else mret (false, hd, conns, st).

End server.
End TcpServer.

(** ** The byte streams of a history

    What the system calls of a history say about connections: the bytes of each
    that do not make up a frame yet, and all frames completed, in order. *)

Definition stream_step (s : gmap Z (list Z) * list (list Z)) (c : call) (r : reply)
    : gmap Z (list Z) * list (list Z) :=
  match c with
  | Accept _ _ => if 0 <=? ret r then (<[ret r := []]> s.1, s.2) else s
  | Close fd => (delete fd s.1, s.2)
  | RecvMmsg fd _ =>
      if 0 <? ret r then
        let '(fs, rest) := frames_of (default [] (s.1 !! fd) ++ concat (dg_data <$> r_msgs r)) in
        (<[fd := rest]> s.1, s.2 ++ fs)
      else s
  | _ => s
  end.

Fixpoint streams (h : history) : gmap Z (list Z) * list (list Z) :=
  match h with
  | [] => (∅, [])
  | (c, r) :: h => stream_step (streams h) c r
  end.

Lemma streams_plain c r h :
  plain c = true -> streams ((c, r) :: h) = streams h.
Proof. by destruct c. Qed.

(** ** The state of the loop *)

Definition tcp_fds (hd : TcpServer.Handle) : gset Z :=
  {[TcpServer.listen_fd hd; TcpServer.epfd hd; TcpServer.wake_fd hd]}.

(** The server holds its three descriptors and those of [clients] on top of [L];
    it watches all but the epoll instance; the table has what the history says is
    unfinished, and what is finished went to the pool. *)
Record serving (C : Z) (L : gset Z) (F0 : list (list Z)) (st0 : FramePool.t * Metrics.t)
    (hd : TcpServer.Handle) (clients : gset Z) (conns : TcpServer.table)
    (st : FramePool.t * Metrics.t) (h : history) : Prop := {
  sv_ledger : exists A W, ledger (L ∪ tcp_fds hd ∪ clients) A W h /\
    W (TcpServer.epfd hd) = {[TcpServer.listen_fd hd; TcpServer.wake_fd hd]} ∪ clients;
  sv_fresh : clients ## L ∪ tcp_fds hd;
  sv_frames fd : length (Tcp.frame (TcpServer.conn_at conns fd)) = 44%nat;
  sv_conns fd : fd ∈ clients ->
    0 <= fd < Tcp.MAX_FD /\ conn_ok (TcpServer.conn_at conns fd) /\
    Tcp.fd (TcpServer.conn_at conns fd) = fd /\
    (streams h).1 !! fd = Some (pending (TcpServer.conn_at conns fd));
  sv_pool : exists new, (streams h).2 = F0 ++ new /\ st = enqueue_all C new st0
}.

Lemma conn_at_same conns fd c : TcpServer.conn_at (<[fd := c]> conns) fd = c.
Proof. unfold TcpServer.conn_at. by rewrite lookup_insert_eq. Qed.

Lemma conn_at_other conns fd fd' c :
  fd <> fd' -> TcpServer.conn_at (<[fd := c]> conns) fd' = TcpServer.conn_at conns fd'.
Proof. intros. unfold TcpServer.conn_at. by rewrite lookup_insert_ne. Qed.

Section server_proofs.
Context {K : Kernel} {P B : nat} {HP : KernelOk P} {HT : Traffic B}.
Context (C : Z) (L : gset Z) (F0 : list (list Z)) (st0 : FramePool.t * Metrics.t).
Implicit Types (hd : TcpServer.Handle) (clients : gset Z) (conns : TcpServer.table).

(** Calls that change nothing. *)
Lemma serving_plain hd clients conns st c r h :
  serving C L F0 st0 hd clients conns st h -> plain c = true ->
  Forall (.∈ L ∪ tcp_fds hd ∪ clients) (uses c) ->
  serving C L F0 st0 hd clients conns st ((c, r) :: h).
Proof.
  intros [(A & W & Hl & HW) Hf Hfr Hc Hp] Hpl Hu.
  split; try done; try by rewrite streams_plain.
  exists A, W. split; [|done]. by apply ledger_plain.
Qed.

Lemma serving_running hd clients conns st h :
  serving C L F0 st0 hd clients conns st h ->
  serving C L F0 st0 (TcpServer.set_running false hd) clients conns st h.
Proof. intros []. by split. Qed.

(** Closing a connection. *)
Lemma serving_close hd clients conns st r fd h :
  serving C L F0 st0 hd clients conns st h -> fd ∈ clients ->
  serving C L F0 st0 hd (clients ∖ {[fd]}) (TcpServer.reset fd conns) st ((Close fd, r) :: h).
Proof.
  intros [(A & W & [H1 H2 H3] & HW) Hf Hfr Hc Hp] Hfd. split.
  - exists A, (fun ep => if fd =? ep then ∅ else W ep ∖ {[fd]}). split; [split|].
    + rewrite (live_close _ _ _ _ H1) by set_solver. f_equal. set_solver.
    + by rewrite arrived_quiet.
    + intros ep. cbn [watched]. by rewrite H3.
    + unfold tcp_fds in Hf. rewrite (proj2 (Z.eqb_neq _ _)) by set_solver. rewrite HW. set_solver.
  - set_solver.
  - intros fd'. unfold TcpServer.reset. destruct (decide (fd = fd')) as [<-|].
    + rewrite conn_at_same. unfold Tcp.reset_conn. destruct (_ && _); apply Hfr.
    + rewrite conn_at_other by done. apply Hfr.
  - intros fd' [Hin Hne]%elem_of_difference. rewrite elem_of_singleton in Hne.
    unfold TcpServer.reset. rewrite conn_at_other by done.
    cbn [streams stream_step fst]. rewrite lookup_delete_ne by done. by apply Hc.
  - done.
Qed.

(** A connection accepted and registered. *)
Lemma serving_accept hd clients conns st l f r evs r2 conn h :
  serving C L F0 st0 hd clients conns st h -> 0 <= ret r -> (ret r ∉ L ∪ tcp_fds hd ∪ clients) ->
  l = TcpServer.listen_fd hd -> Tcp.init_conn (ret r) (TcpServer.conn_at conns (ret r)) = (true, conn) ->
  0 <= ret r2 ->
  serving C L F0 st0 hd (clients ∪ {[ret r]}) (<[ret r := conn]> conns) st
    ((EpollCtlAdd (TcpServer.epfd hd) (ret r) evs, r2) :: (Accept l f, r) :: h).
Proof.
  intros [(A & W & [H1 H2 H3] & HW) Hf Hfr Hc Hp] Hr Hnew -> Hi Hr2.
  unfold Tcp.init_conn in Hi. destruct ((ret r <? 0) || _) eqn:Er; [done|].
  apply orb_false_elim in Er as [?%Z.ltb_ge ?%Z.leb_gt]. injection Hi as <-.
  assert (Hl : live ((Accept (TcpServer.listen_fd hd) f, r) :: h)
    = Some (L ∪ tcp_fds hd ∪ (clients ∪ {[ret r]}))).
  { rewrite (live_open _ _ _ _ H1); [f_equal; set_solver|done| |done].
    constructor; [unfold tcp_fds; set_solver|constructor]. }
  split.
  - exists A, (fun e => if (TcpServer.epfd hd =? e) && (0 <=? ret r2) then W e ∪ {[ret r]} else W e).
    split; [split|].
    + apply live_use; try done. unfold tcp_fds. repeat constructor; set_solver.
    + by rewrite !arrived_quiet.
    + intros e. cbn [watched]. by rewrite H3.
    + rewrite Z.eqb_refl, (proj2 (Z.leb_le _ _) Hr2). cbn [andb]. rewrite HW. set_solver.
  - set_solver.
  - intros fd. destruct (decide (ret r = fd)) as [<-|].
    + rewrite conn_at_same. apply Hfr.
    + rewrite conn_at_other by done. apply Hfr.
  - intros fd Hfd. cbn [streams stream_step]. rewrite (proj2 (Z.leb_le _ _) Hr). cbn [fst].
    destruct (decide (ret r = fd)) as [<-|Hne].
    + rewrite conn_at_same, lookup_insert_eq. split_and!; try done; try lia.
      split; simpl; [lia|apply Hfr].
    + rewrite conn_at_other, lookup_insert_ne by done. apply Hc. set_solver.
  - cbn [streams stream_step]. by rewrite (proj2 (Z.leb_le _ _) Hr).
Qed.

(** A connection accepted and closed again at once, with or without an attempt to
    register it in between. *)
Lemma serving_reject hd clients conns st l f r mid r3 h :
  serving C L F0 st0 hd clients conns st h -> 0 <= ret r -> (ret r ∉ L ∪ tcp_fds hd ∪ clients) ->
  l = TcpServer.listen_fd hd ->
  mid = [] \/ (exists evs r2, mid = [(EpollCtlAdd (TcpServer.epfd hd) (ret r) evs, r2)]) ->
  forall conns', (forall fd, fd <> ret r -> TcpServer.conn_at conns' fd = TcpServer.conn_at conns fd) ->
  length (Tcp.frame (TcpServer.conn_at conns' (ret r))) = 44%nat ->
  serving C L F0 st0 hd clients conns' st ((Close (ret r), r3) :: mid ++ (Accept l f, r) :: h).
Proof.
  intros [(A & W & [H1 H2 H3] & HW) Hf Hfr Hc Hp] Hr Hnew -> Hmid conns' Hsame Hlen.
  set (L1 := L ∪ tcp_fds hd ∪ clients) in *.
  set (h1 := (Accept (TcpServer.listen_fd hd) f, r) :: h).
  assert (Hl1 : ledger (L1 ∪ {[ret r]}) A W h1).
  { split; [|by unfold h1; rewrite arrived_quiet|done]. apply live_open; try done.
    constructor; [unfold L1, tcp_fds; set_solver|constructor]. }
  assert (Hsub : forall e, W e ⊆ L1).
  { intros e. rewrite <- H3. by apply (watched_live h L1 H1). }
  assert (Hm : exists W2, ledger (L1 ∪ {[ret r]}) A W2 (mid ++ h1) /\ streams (mid ++ h1) = streams h1 /\
    W2 (TcpServer.epfd hd) ∖ {[ret r]} = W (TcpServer.epfd hd)).
  { destruct Hmid as [->|(evs & r2 & ->)].
    - exists W. split; [done|]. split; [done|]. specialize (Hsub (TcpServer.epfd hd)). set_solver.
    - exists (fun e => if (TcpServer.epfd hd =? e) && (0 <=? ret r2) then W e ∪ {[ret r]} else W e).
      split; [|split; [done|]].
      + destruct Hl1 as [G1 G2 G3]. split; [|by simpl; rewrite app_nil_r|].
        * apply live_use; try done. unfold L1, tcp_fds. repeat constructor; set_solver.
        * intros e. cbn [app watched]. by rewrite G3.
      + cbv beta. rewrite Z.eqb_refl. specialize (Hsub (TcpServer.epfd hd)).
        destruct (0 <=? ret r2); cbn [andb]; set_solver. }
  destruct Hm as (W2 & [G1 G2 G3] & Hstr & HW2).
  assert (Hne : ret r <> TcpServer.epfd hd) by (unfold L1, tcp_fds in Hnew; set_solver).
  split.
  - exists A, (fun e => if ret r =? e then ∅ else W2 e ∖ {[ret r]}). split; [split|].
    + rewrite (live_close _ _ _ _ G1) by set_solver. f_equal. set_solver.
    + by rewrite arrived_quiet.
    + intros e. cbn [watched]. by rewrite G3.
    + rewrite (proj2 (Z.eqb_neq _ _)) by done. by rewrite HW2.
  - done.
  - intros fd. destruct (decide (fd = ret r)) as [->|]; [done|]. rewrite Hsame by done. apply Hfr.
  - intros fd Hfd. assert (fd <> ret r) by (intros ->; apply Hnew; unfold L1; set_solver).
    rewrite Hsame by done. cbn [streams stream_step]. rewrite Hstr. unfold h1.
    cbn [streams stream_step]. rewrite (proj2 (Z.leb_le _ _) Hr). cbn [fst].
    rewrite lookup_delete_ne, lookup_insert_ne by congruence. by apply Hc.
  - cbn [streams stream_step]. rewrite Hstr. unfold h1. cbn [streams stream_step].
    by rewrite (proj2 (Z.leb_le _ _) Hr).
Qed.

Lemma accept_loop_spec fuel hd clients conns st h :
  serving C L F0 st0 hd clients conns st h ->
  (drain_measure (P := P) (B := B) h < fuel)%nat ->
  wp (TcpServer.accept_loop fuel hd conns) (fun conns' h' =>
    exists clients', clients ⊆ clients' /\ serving C L F0 st0 hd clients' conns' st h') h.
Proof.
  revert clients conns h. induction fuel as [|fuel IH]; intros clients conns h Hs Hm; [lia|].
  cbn [TcpServer.accept_loop]. repeat wp_step. set (c := Accept _ _). set (rp := kernel h c).
  assert (Hnext : forall clients' conns' h', serving C L F0 st0 hd clients' conns' st h' ->
    clients ⊆ clients' -> (drain_measure (P := P) (B := B) h' < drain_measure (P := P) (B := B) h)%nat ->
    wp (TcpServer.accept_loop fuel hd conns') (fun conns' h' =>
      exists clients', clients ⊆ clients' /\ serving C L F0 st0 hd clients' conns' st h') h').
  { intros clients' conns' h' Hs' Hsub Hlt. eapply wp_mono; [eapply IH; [exact Hs'|lia]|].
    intros conns2 h2 (cl2 & Hsub2 & Hs2). exists cl2. split; [set_solver|done]. }
  pose proof Hs as [(A & W & Hl & HW) _ Hfr _ _].
  destruct (Z.eqb_spec (ret rp) (-1)) as [Hr|Hr].
  { assert (Hs' : serving C L F0 st0 hd clients conns st ((c, rp) :: h)).
    { destruct Hs as [(A' & W' & [H1 H2 H3] & HW') ? ? Hc Hp].
      assert (Estr : streams ((c, rp) :: h) = streams h) by (simpl; by rewrite Hr).
      split; try done; try by rewrite Estr.
      exists A', W'. split; [|done]. split; [|by rewrite arrived_quiet|done].
      apply live_open_failed; try done; [|lia]. constructor; [unfold tcp_fds; set_solver|constructor]. }
    destruct (_ || _); [wp_step; by exists clients|].
    destruct (Z.eqb_spec (errno rp) EINTR) as [He|He]; [|wp_step; by exists clients].
    eapply Hnext; [exact Hs'|done|]. by apply drain_measure_eintr. }
  assert (Hpos : 0 <= ret rp) by (pose proof (kernel_ret h c); unfold rp in *; lia).
  assert (Hnew : ret rp ∉ L ∪ tcp_fds hd ∪ clients)
    by (apply (kernel_fresh h c); [apply Hl|done]).
  pose proof (drain_bound_found (P := P) (B := B) h c eq_refl) as Hb. fold rp in Hb.
  specialize (Hb ltac:(simpl; by apply Z.leb_le)).
  destruct (Tcp.init_conn (ret rp) (TcpServer.conn_at conns (ret rp))) as [ok conn] eqn:Ei.
  destruct ok; cbn [negb].
  - repeat wp_step. set (c2 := EpollCtlAdd _ _ _). set (rp2 := kernel _ c2).
    destruct (Z.eqb_spec (ret rp2) (-1)) as [Hr2|Hr2].
    + repeat wp_step. eapply (Hnext clients); [|done|].
      * eapply (serving_reject hd clients conns st _ _ rp [(c2, rp2)]); try done.
        { right. by do 2 eexists. }
        { intros fd Hne. unfold TcpServer.reset. by rewrite !conn_at_other. }
        unfold TcpServer.reset. rewrite conn_at_same. unfold Tcp.reset_conn.
        assert (Hconn : length (Tcp.frame conn) = 44%nat).
        { unfold Tcp.init_conn in Ei. destruct (_ || _); [done|]. injection Ei as <-. apply Hfr. }
        rewrite conn_at_same. by destruct (_ && _).
      * eapply Nat.le_lt_trans; [apply drain_measure_bound|]. by rewrite 2!drain_bound_other.
    + eapply (Hnext (clients ∪ {[ret rp]})); [|set_solver|].
      * eapply serving_accept; try done. pose proof (kernel_ret ((c, rp) :: h) c2). unfold rp2 in *. lia.
      * eapply Nat.le_lt_trans; [apply drain_measure_bound|]. by rewrite 1!drain_bound_other.
  - repeat wp_step. eapply (Hnext clients); [|done|].
    + eapply (serving_reject hd clients conns st _ _ rp []); try done; by left.
    + eapply Nat.le_lt_trans; [apply drain_measure_bound|]. by rewrite 1!drain_bound_other.
Qed.

(** Data received on a connection. *)
Lemma serving_recv hd clients conns st caps r fd conn st' h :
  serving C L F0 st0 hd clients conns st h -> fd ∈ clients -> 0 < ret r ->
  Tcp.consume_chunks C fd (dg_data <$> r_msgs r) (TcpServer.conn_at conns fd) st = Some (conn, st') ->
  serving C L F0 st0 hd clients (<[fd := conn]> conns) st' ((RecvMmsg fd caps, r) :: h).
Proof.
  intros [(A & W & [H1 H2 H3] & HW) Hf Hfr Hc Hp] Hfd Hr Hcc.
  destruct (Hc fd Hfd) as (Hrange & Hok & Hfdc & Hpend).
  destruct (consume_chunks_spec C fd (dg_data <$> r_msgs r) (TcpServer.conn_at conns fd) st Hok Hrange Hfdc)
    as (conn' & Ecc & Hok' & Hp' & Hfd').
  rewrite Hcc in Ecc. injection Ecc as <- Est.
  assert (Estr : streams ((RecvMmsg fd caps, r) :: h) =
    (<[fd := pending conn]> (streams h).1,
     (streams h).2 ++ (frames_of (pending (TcpServer.conn_at conns fd) ++ concat (dg_data <$> r_msgs r))).1)).
  { cbn [streams stream_step]. rewrite (proj2 (Z.ltb_lt _ _) Hr), Hpend, Hp'. cbn [default id].
    by destruct (frames_of _). }
  split.
  - exists (A ++ r_msgs r), W. split; [|done]. split; [| |done].
    + apply live_use; try done. constructor; [set_solver|constructor].
    + simpl. by rewrite H2, (proj2 (Z.ltb_lt _ _) Hr).
  - done.
  - intros fd'. destruct (decide (fd = fd')) as [<-|]; [rewrite conn_at_same; apply Hok'|].
    rewrite conn_at_other by done. apply Hfr.
  - intros fd' Hfd2. rewrite Estr. cbn [fst]. destruct (decide (fd = fd')) as [<-|].
    + by rewrite conn_at_same, lookup_insert_eq.
    + rewrite conn_at_other, lookup_insert_ne by done. by apply Hc.
  - destruct Hp as (new & En & Enq). rewrite Estr. cbn [snd].
    eexists (new ++ _). rewrite En, <- app_assoc. split; [done|].
    by rewrite enqueue_all_app, <- Enq.
Qed.

(** A receive call that finds nothing. *)
Lemma serving_recv_none hd clients conns st caps r fd h :
  serving C L F0 st0 hd clients conns st h -> fd ∈ clients -> ret r <= 0 ->
  serving C L F0 st0 hd clients conns st ((RecvMmsg fd caps, r) :: h).
Proof.
  intros [(A & W & [H1 H2 H3] & HW) Hf Hfr Hc Hp] Hfd Hr.
  assert (Estr : streams ((RecvMmsg fd caps, r) :: h) = streams h)
    by (cbn [streams stream_step]; by rewrite (proj2 (Z.ltb_ge _ _) Hr)).
  split; try done; try by rewrite Estr.
  exists A, W. split; [|done]. split; [| |done].
  - apply live_use; try done. constructor; [set_solver|constructor].
  - rewrite arrived_quiet; [done|]. simpl. by rewrite (proj2 (Z.ltb_ge _ _) Hr).
Qed.

Lemma recv_loop_tcp_spec fuel hd clients conns st fd h :
  serving C L F0 st0 hd clients conns st h -> fd ∈ clients ->
  (drain_measure (P := P) (B := B) h < fuel)%nat ->
  wp (TcpServer.recv_loop fuel C fd conns st) (fun '(conns', st') h' =>
    exists clients', clients ∖ {[fd]} ⊆ clients' /\ serving C L F0 st0 hd clients' conns' st' h') h.
Proof.
  intros Hs Hfd. revert conns st h Hs. induction fuel as [|fuel IH]; intros conns st h Hs Hm; [lia|].
  cbn [TcpServer.recv_loop]. repeat wp_step. set (c := RecvMmsg _ _). set (rp := kernel h c).
  destruct (Z.ltb_spec 0 (ret rp)) as [Hn|Hn].
  { pose proof Hs as [_ _ _ Hc _]. destruct (Hc fd Hfd) as (Hrange & Hok & Hfdc & _).
    destruct (consume_chunks_spec C fd (dg_data <$> r_msgs rp) (TcpServer.conn_at conns fd) st
      Hok Hrange Hfdc) as (conn & Ecc & _). rewrite Ecc.
    apply IH; [by eapply serving_recv|].
    pose proof (drain_measure_found (P := P) (B := B) h c eq_refl) as Hd. fold rp in Hd.
    specialize (Hd ltac:(simpl; by apply Z.ltb_lt)). lia. }
  assert (Hs' : serving C L F0 st0 hd clients conns st ((c, rp) :: h)) by (by apply serving_recv_none).
  assert (Hclose : wp (_ ← sys (Close fd); mret (TcpServer.reset fd conns, st)) (fun '(conns', st') h' =>
    exists clients', clients ∖ {[fd]} ⊆ clients' /\ serving C L F0 st0 hd clients' conns' st' h')
    ((c, rp) :: h)).
  { repeat wp_step. exists (clients ∖ {[fd]}). split; [done|]. by apply serving_close. }
  assert (Hend : wp (mret (conns, st)) (fun '(conns', st') h' =>
    exists clients', clients ∖ {[fd]} ⊆ clients' /\ serving C L F0 st0 hd clients' conns' st' h')
    ((c, rp) :: h)).
  { wp_step. exists clients. split; [set_solver|done]. }
  destruct (Z.eqb_spec (ret rp) 0) as [Hz|Hz]; [exact Hclose|].
  destruct (_ || _); [exact Hend|].
  destruct (Z.eqb_spec (errno rp) EINTR) as [He|He]; [|exact Hclose].
  apply IH; [done|].
  assert (Hr : ret rp = -1) by (pose proof (kernel_ret h c); unfold rp in *; lia).
  pose proof (drain_measure_eintr (P := P) (B := B) h c eq_refl Hr He) as Hd. fold rp in Hd. lia.
Qed.

(** The events of one [epoll_wait]: each of a descriptor still held. *)
Definition events_ok (hd : TcpServer.Handle) (clients : gset Z) (events : list (Z * Z)) : Prop :=
  NoDup events.*1 /\
  Forall (.∈ {[TcpServer.listen_fd hd; TcpServer.wake_fd hd]} ∪ clients) events.*1.

Lemma events_ok_next hd clients clients' fd evs events :
  events_ok hd clients ((fd, evs) :: events) -> clients ∖ {[fd]} ⊆ clients' ->
  events_ok hd clients' events.
Proof.
  unfold events_ok. cbn [fmap list_fmap fst]. intros [[Hnin Hnd]%NoDup_cons [_ Hall]%Forall_cons_1] Hsub.
  split; [done|]. apply Forall_forall. intros x Hx. rewrite Forall_forall in Hall.
  specialize (Hall x Hx). assert (x <> fd) by (intros ->; done). set_solver.
Qed.

Lemma handle_events_tcp_spec events hd clients conns st h :
  serving C L F0 st0 hd clients conns st h -> events_ok hd clients events ->
  wp (TcpServer.handle_events (drain_fuel (P := P) (B := B)) C events hd conns st)
    (fun '(hd', conns', st') h' => (hd' = hd \/ hd' = TcpServer.set_running false hd) /\
      exists clients', serving C L F0 st0 hd' clients' conns' st' h') h.
Proof.
  set (fuel := drain_fuel). revert hd clients conns st h.
  induction events as [|[fd evs] events IH]; intros hd clients conns st h Hs Hev;
    cbn [TcpServer.handle_events].
  { wp_step. split; [by left|]. by exists clients. }
  pose proof (events_ok_next hd clients) as Hnext.
  assert (Hm : (drain_measure (P := P) (B := B) h < fuel)%nat) by apply drain_measure_fuel.
  destruct (Z.eqb_spec fd (TcpServer.wake_fd hd)) as [Hw|Hw].
  { wp_step. wp_step. set (rp := kernel _ _).
    assert (Hs' : serving C L F0 st0 (TcpServer.set_running false hd) clients conns st
      ((ReadU64 (TcpServer.wake_fd hd), rp) :: h)).
    { apply serving_running, serving_plain; try done.
      constructor; [unfold tcp_fds; set_solver|constructor]. }
    eapply wp_mono; [eapply IH; [exact Hs'|]|].
    { eapply (events_ok_next hd); [exact Hev|set_solver]. }
    intros [[hd' conns'] st'] h' [Hhd' Hres]. split; [|done]. right. by destruct Hhd' as [->| ->]. }
  destruct (Z.eqb_spec fd (TcpServer.listen_fd hd)) as [Hl|Hl].
  { wp_step. eapply wp_mono; [by eapply accept_loop_spec|]. intros conns1 h1 (cl1 & Hsub & Hs1).
    eapply wp_mono; [eapply IH; [exact Hs1|]|done]. eapply events_ok_next; [exact Hev|set_solver]. }
  assert (Hfd : fd ∈ clients).
  { destruct Hev as [_ Hall]. cbn [fmap list_fmap fst] in Hall. apply Forall_cons_1 in Hall as [Hin _].
    set_solver. }
  destruct (negb _).
  { wp_step. wp_step. eapply wp_mono; [eapply IH; [by apply serving_close|]|done].
    by eapply events_ok_next. }
  wp_step. eapply wp_mono; [by eapply recv_loop_tcp_spec|]. intros [conns1 st1] h1 (cl1 & Hsub & Hs1).
  eapply wp_mono; [eapply IH; [exact Hs1|]|done]. by eapply events_ok_next.
Qed.

Lemma event_loop_tcp_spec env hd clients conns st h :
  serving C L F0 st0 hd clients conns st h ->
  wp (TcpServer.event_loop (drain_fuel (P := P) (B := B)) C env hd conns st)
    (fun '(ended, hd', conns', st') h' => (hd' = hd \/ hd' = TcpServer.set_running false hd) /\
      (exists clients', serving C L F0 st0 hd' clients' conns' st' h') /\
      (true ∈ env -> ended = true)) h.
Proof.
  revert hd clients conns st h. induction env as [|stop env IH]; intros hd clients conns st h Hs;
    cbn [TcpServer.event_loop].
  { wp_step. split; [by left|]. split; [by exists clients|set_solver]. }
  destruct stop.
  { cbn [TcpServer.set_running TcpServer.running negb]. wp_step. split; [by right|].
    split; [exists clients; by apply serving_running|done]. }
  assert (Henv : true ∈ false :: env -> true ∈ env) by set_solver.
  destruct (TcpServer.running hd) eqn:Er; cbn [negb].
  2: { wp_step. split; [by left|]. split; [by exists clients|done]. }
  wp_step. wp_step. set (c := EpollWait _ _ _). set (rp := kernel h c).
  assert (Hs' : serving C L F0 st0 hd clients conns st ((c, rp) :: h)).
  { apply serving_plain; try done. constructor; [unfold tcp_fds; set_solver|constructor]. }
  assert (Hgo : wp (TcpServer.event_loop (drain_fuel (P := P) (B := B)) C env hd conns st)
    (fun '(ended, hd', conns', st') h' => (hd' = hd \/ hd' = TcpServer.set_running false hd) /\
      (exists clients', serving C L F0 st0 hd' clients' conns' st' h') /\
      (true ∈ false :: env -> ended = true)) ((c, rp) :: h)).
  { eapply wp_mono; [by eapply IH|]. intros [[[e hd'] conns'] st'] h' (H1 & H2 & H3). by split_and!; auto. }
  destruct (Z.eqb_spec (ret rp) (-1)) as [Hm|Hm].
  { destruct (errno rp =? EINTR); [exact Hgo|]. wp_step. split; [by left|].
    split; [by exists clients|done]. }
  destruct (Z.eqb_spec (ret rp) 0) as [Hz|Hz]; [exact Hgo|]. clear Hgo.
  assert (Hev : events_ok hd clients (take (Z.to_nat (ret rp)) (r_events rp))).
  { pose proof (kernel_ret h c). destruct (kernel_epoll_wait h (TcpServer.epfd hd) TcpServer.MAXEV 500)
      as (_ & Hlen & Hnd & Hall); [unfold rp, c in *; lia|]. fold c rp in Hlen, Hnd, Hall.
    rewrite take_ge by lia. split; [done|]. destruct Hs as [(A & W & [_ _ Hw] & HW) _ _ _ _].
    by rewrite Hw, HW in Hall. }
  wp_step. eapply wp_mono; [by eapply handle_events_tcp_spec|].
  intros [[hd1 conns1] st1] h1 (Hhd1 & cl1 & Hs1).
  eapply wp_mono; [by eapply IH|]. intros [[[e hd'] conns'] st'] h' (H1 & H2 & H3).
  split_and!; [|done|by auto]. destruct Hhd1 as [->| ->], H1 as [->| ->]; auto.
Qed.

(** ** Set-up and shut-down *)

Definition tcp_bare (hd : TcpServer.Handle) : Prop :=
  TcpServer.listen_fd hd = -1 /\ TcpServer.epfd hd = -1 /\ TcpServer.wake_fd hd = -1.

Definition tcp_armed (L' : gset Z) (hd : TcpServer.Handle) : Prop :=
  held3 L L' (TcpServer.listen_fd hd) (TcpServer.epfd hd) (TcpServer.wake_fd hd).

Lemma make_listen_socket_spec port A W h :
  ledger L A W h -> (streams h).2 = F0 ->
  wp (TcpServer.make_listen_socket port) (fun fd h' =>
    (streams h').2 = F0 /\
    ((fd = -1 /\ exists W', ledger L A W' h') \/
     (0 <= fd /\ (fd ∉ L) /\ ledger (L ∪ {[fd]}) A W h'))) h.
Proof.
  intros Hl HF. unfold TcpServer.make_listen_socket. wp_step.
  eapply wp_open_ledger; [done|done|constructor| |].
  { intros r h' -> Hr Hl'. rewrite Hr. split; [done|]. left. split; [done|]. by exists W. }
  intros r h1 -> Hr Hf _ Hl1. rewrite (proj2 (Z.eqb_neq _ _)) by lia.
  assert (Hfail : forall h' W', ledger ((L ∪ {[ret r]}) ∖ {[ret r]}) A W' h' ->
    exists W', ledger L A W' h').
  { intros h' W' Hx. exists W'. by replace ((L ∪ {[ret r]}) ∖ {[ret r]}) with L in Hx by set_solver. }
  repeat ledger_step; subst; (split; [done|]); first [left; split; [done|eauto]|right; eauto].
Qed.

Definition setup_tcp_post (A : list dgram) (hd : TcpServer.Handle)
    (res : bool * TcpServer.Handle) (h' : history) : Prop :=
  let '(ok, hd') := res in
  (streams h').2 = F0 /\
  if ok then TcpServer.running hd' = TcpServer.running hd /\
    exists L' W', tcp_armed L' hd' /\ ledger L' A W' h' /\
      W' (TcpServer.epfd hd') = {[TcpServer.listen_fd hd'; TcpServer.wake_fd hd']}
  else TcpServer.running hd' = false /\ tcp_bare hd' /\ exists W', ledger L A W' h'.

Lemma setup_tcp_failed L' A W hd hd' h' :
  ledger L' A W h' -> L' = L -> (streams h').2 = F0 -> TcpServer.running hd' = false -> tcp_bare hd' ->
  setup_tcp_post A hd (false, hd') h'.
Proof. intros Hl -> HF Hr Hb. split; [done|]. split; [done|]. split; [done|]. by exists W. Qed.

Lemma setup_tcp_spec port hd A W h :
  ledger L A W h -> (streams h).2 = F0 -> tcp_bare hd ->
  wp (TcpServer.setup port hd) (setup_tcp_post A hd) h.
Proof.
  intros Hl HF (Hb1 & Hb2 & Hb3). unfold TcpServer.setup. wp_step.
  eapply wp_mono; [by eapply make_listen_socket_spec|].
  intros fd h1 [HF1 [[-> [W1 Hl1]]|(Hfd & Hf & Hl1)]].
  { cbv zeta. rewrite Z.eqb_refl. wp_step. by eapply setup_tcp_failed; [exact Hl1|..]. }
  cbv zeta. rewrite (proj2 (Z.eqb_neq fd (-1))) by lia.
  wp_step. eapply wp_open_ledger; [exact Hl1|done|constructor| |].
  { intros r h2 -> Hr Hl2. rewrite Hr, Z.eqb_refl. repeat ledger_step; subst.
    eapply setup_tcp_failed; [eassumption|set_solver|done|done|done]. }
  intros r h2 Eh2 Hr Hf2 HWe Hl2. rewrite (proj2 (Z.eqb_neq (ret r) (-1))) by lia.
  wp_step. eapply wp_open_ledger; [exact Hl2|done|constructor| |].
  { intros r3 h3 -> Hr3 Hl3. rewrite Hr3, Z.eqb_refl. repeat ledger_step; subst.
    eapply setup_tcp_failed; [eassumption|set_solver|done|done|done]. }
  intros r3 h3 Eh3 Hr3 Hf3 _ Hl3. rewrite (proj2 (Z.eqb_neq (ret r3) (-1))) by lia.
  repeat ledger_step; subst; try (eapply setup_tcp_failed; [eassumption|set_solver|done|done|done]).
  split; [done|]. split; [done|]. do 2 eexists. split; [|split; [eassumption|]].
  { split; simpl; try lia; set_solver. }
  cbn [TcpServer.epfd TcpServer.listen_fd TcpServer.wake_fd]. rewrite Z.eqb_refl, HWe.
  rewrite !(proj2 (Z.leb_le 0 _)) by lia. cbn [andb]. set_solver.
Qed.

Lemma shutdown_tcp_spec hd L' clients conns st h :
  serving C L F0 st0 hd clients conns st h -> tcp_armed L' hd ->
  wp (TcpServer.shutdown hd) (fun hd' h' => live h' = Some (L ∪ clients) /\ tcp_bare hd' /\
    (streams h').2 = (streams h).2 /\
    forall x, x ∈ clients -> (streams h').1 !! x = (streams h).1 !! x) h.
Proof.
  intros [(A & W & Hl & _) Hf _ _ _] [_ Hfr N1 N2 N3 (P1 & P2 & P3)]. unfold TcpServer.shutdown.
  unfold tcp_fds in *. rewrite !(proj2 (Z.eqb_neq _ (-1))) by lia. cbn [negb].
  repeat ledger_step. subst.
  match goal with H : ledger _ _ _ _ |- _ => destruct H as [Hlive _ _] end.
  split_and!; [rewrite Hlive; f_equal; set_solver|done..|].
  intros x Hx. cbn [streams stream_step fst].
  rewrite !lookup_delete_ne by (intros <-; set_solver). done.
Qed.

End server_proofs.

(** What a session of the server thread promises. *)
Definition tcp_session_post (C : Z) (L : gset Z) (h : history) (st : FramePool.t * Metrics.t)
    (env : list bool) (res : bool * TcpServer.Handle * TcpServer.table * (FramePool.t * Metrics.t))
    (h' : history) : Prop :=
  let '(ended, hd', conns', st') := res in
  (exists new, (streams h').2 = (streams h).2 ++ new /\ st' = handle_batch C (datagram <$> new) st) /\
  (exists clients,
    (forall fd, fd ∈ clients -> Tcp.fd (TcpServer.conn_at conns' fd) = fd /\
      (streams h').1 !! fd = Some (pending (TcpServer.conn_at conns' fd))) /\
    if ended : bool then live h' = Some (L ∪ clients) /\ tcp_bare hd'
    else exists L', tcp_armed L L' hd' /\ clients ## L' /\ live h' = Some (L' ∪ clients)) /\
  (true ∈ env -> ended = true).

Section session.
Context {K : Kernel} {P B : nat} {HP : KernelOk P} {HT : Traffic B}.

(** C15 (TCP server session).  Whatever the kernel answers, as long as the traffic
    leaves gaps, the TCP server thread gets through its set-up and its loop, with
    any number of connections opened, closed, refused and failing in any order:
    the frames the byte streams of all connections spell out go to the pool, each
    once and in the order they are completed; the table holds the unfinished part
    of every open connection; only open descriptors are used.  When the thread has
    returned its own three descriptors are closed, but the connections still open
    stay open: [live] is [L] and those. *)
Theorem tcp_server_session C env port hd conns st L h :
  live h = Some L -> tcp_bare hd ->
  (forall fd, length (Tcp.frame (TcpServer.conn_at conns fd)) = 44%nat) ->
  wp (TcpServer.run_server_loop (drain_fuel (P := P) (B := B)) C env port hd conns st)
    (tcp_session_post C L h st env) h.
Proof.
  intros Hl Hbare Htab. unfold TcpServer.run_server_loop.
  assert (Hled : ledger L (arrived h) (watched h) h) by (by split).
  wp_step. eapply wp_mono; [by eapply (setup_tcp_spec L (streams h).2)|]. intros [ok hd1] h1 [HF Hp].
  destruct ok; cbn [negb].
  2: { destruct Hp as (Hr & Hbare1 & W1 & [H1 H2 H3]). wp_step. split_and!; try done.
       - exists []. by rewrite HF, app_nil_r.
       - exists ∅. split; [set_solver|]. split; [|done]. rewrite H1. f_equal. set_solver. }
  destruct Hp as (Hr & L1 & W1 & Harm & Hl1 & HW1). pose proof Harm as [HL1 Hfr _ _ _ _].
  assert (Hs : serving C L (streams h).2 st hd1 ∅ conns st h1).
  { split.
    - exists (arrived h), W1. split; [|rewrite HW1; set_solver].
      replace (L ∪ tcp_fds hd1 ∪ ∅) with L1; [done|]. unfold tcp_fds. set_solver.
    - set_solver.
    - done.
    - intros fd Hfd. by apply not_elem_of_empty in Hfd.
    - exists []. by rewrite HF, app_nil_r. }
  wp_step. eapply wp_mono; [by eapply event_loop_tcp_spec|].
  intros [[[ended hd2] conns2] st2] h2 (Hhd2 & (clients & Hs2) & Hstop).
  assert (Harm2 : tcp_armed L L1 hd2) by (destruct Hhd2 as [->| ->]; exact Harm).
  pose proof Hs2 as [(A2 & W2 & [Hlive _ _] & _) Hf2 _ Hc2 (new & En & Enq)].
  rewrite enqueue_all_batch in Enq.
  destruct ended.
  - wp_step. eapply wp_mono; [by eapply shutdown_tcp_spec|]. intros hd3 h3 (H1 & H2 & H3 & H4).
    wp_step. split_and!; try done; [exists new; by rewrite H3|]. exists clients. split; [|done].
    intros fd Hfd. destruct (Hc2 fd Hfd) as (_ & _ & Hfdc & Hst). by rewrite H4.
  - wp_step. split_and!; try done; [by exists new|]. exists clients. split.
    { intros fd Hfd. by destruct (Hc2 fd Hfd) as (_ & _ & Hfdc & Hst). }
    exists L1. destruct Harm2 as [E2 ? ? ? ? ?]. rewrite E2. by split_and!.
Qed.

End session.

(** ** A session

    The busy kernel: two connections are accepted, send frames and are still open
    when the server is woken up. *)

Definition sample_tcp_pool : FramePool.t :=
  FramePool.init 4 (FramePool.construct 4 (replicate 4 0) (replicate 4 0)).

Lemma tcp_server_session_witness :
  wp (@TcpServer.run_server_loop busy_kernel 2 4 [false; false; false; false] 8888
        (TcpServer.mkHandle true (-1) (-1) (-1)) ∅ (sample_tcp_pool, Metrics.zero))
    (tcp_session_post 4 ∅ [] (sample_tcp_pool, Metrics.zero) [false; false; false; false]) [].
Proof.
  apply (@tcp_server_session busy_kernel 0 1 busy_kernel_ok busy_kernel_traffic 4
    [false; false; false; false] 8888 (TcpServer.mkHandle true (-1) (-1) (-1)) ∅
    (sample_tcp_pool, Metrics.zero) ∅ []).
  - reflexivity.
  - split; [reflexivity|split; reflexivity].
  - intros fd. reflexivity.
Defined.

(** The connections are not closed when the server returns. *)
Example sample_tcp_session :
  match @TcpServer.run_server_loop busy_kernel 2 4 [false; false; false; false] 8888
          (TcpServer.mkHandle true (-1) (-1) (-1)) ∅ (sample_tcp_pool, Metrics.zero) [] with
  | Some ((ended, hd, conns, st), h) =>
      ended && negb (TcpServer.running hd) && bool_decide (live h = Some {[6; 7]})
      && (length (queued 4 st.1) =? 3)%nat
  | None => false
  end = true.
Proof. vm_compute. reflexivity. Qed.
