(* ===== verification/TcpBlock.v ===== *)
(** * TcpBlock: the blocking TCP server and client

    Models [src/common/net/v1/tcp_server_block.hpp] and
    [src/common/net/v1/tcp_client_block.hpp].  [die] ends the process: a program
    that may call it returns [Exits].  The callback [on_message] is modelled by
    the list of its arguments. *)

From Stdlib Require Import ZArith Lia String.
From stdpp Require Import base numbers list option gmap sets.
From S2P Require Import Prelude Wire Os.

Local Open Scope Z_scope.

Inductive outcome (A : Type) := Returns (a : A) | Exits (code : Z).
Arguments Returns {A}.
Arguments Exits {A}.

Module TcpServerBlock.
Section server.
Context `{Kernel}.

Definition make_listen_socket (port : Z) : M (outcome Z) :=
  rp ← sys (Socket SOCK_STREAM);
  let fd := ret rp in
  if fd =? -1 then mret (Exits 1) else
  rp ← sys (SetSockOpt fd SO_REUSEADDR 1);
  if ret rp =? -1 then mret (Exits 1) else
  rp ← sys (Bind fd (mkAddr INADDR_ANY port));
  if ret rp =? -1 then mret (Exits 1) else
  rp ← sys (Listen fd);
  if ret rp =? -1 then mret (Exits 1) else mret (Returns fd).

(** The [while (true)] never takes a second round. *)
Definition accept_one (listen_fd : Z) : M (outcome Z) :=
  rp ← sys (Accept listen_fd 0);
  if negb (ret rp =? -1) then mret (Returns (ret rp))
  else if (errno rp =? EINTR) || (errno rp =? EBADF) || (errno rp =? EINVAL)
  then mret (Returns (-1)) else mret (Exits 1).

(** [tv_sec] and [tv_usec] of the timeout. *)
Definition timeval_of (ms : Z) : Z * Z := (Z.quot ms 1000, Z.rem ms 1000 * 1000).

(** The option value is the [timeval] in microseconds. *)
Definition set_recv_timeout (fd ms : Z) : M bool :=
  let '(tv_sec, tv_usec) := timeval_of ms in
  rp ← sys (SetSockOpt fd SO_RCVTIMEO (tv_sec * 1000000 + tv_usec));
  mret (ret rp =? 0).

(** What a successful [recv] wrote. *)
Definition received (rp : reply) : list Z :=
  match r_msgs rp with d :: _ => dg_data d | [] => [] end.

Fixpoint recv_exact_loop (fuel : nat) (cfd : Z) (buff : list Z) (total len : Z)
    : M (Z * list Z) :=
  if negb (total <? len) then mret (total, buff) else
  match fuel with
  | O => out_of_fuel
  | S fuel =>
      rp ← sys (Recv cfd (len - total));
      let n := ret rp in
      if 0 <? n then
        recv_exact_loop fuel cfd (memcpy_at buff total (received rp)) (total + n) len
      else if n =? 0 then mret (0, buff)
      else if errno rp =? EINTR then recv_exact_loop fuel cfd buff total len
      else mret (-1, buff)
  end.

Definition recv_exact (fuel : nat) (cfd : Z) (buff : list Z) (len : Z) : M (Z * list Z) :=
  recv_exact_loop fuel cfd buff 0 len.

(** [stops]: what [should_stop] answers, call by call; the first component is
    [None] when the answers are used up while it still waits. *)
Fixpoint recv_exact_until_loop (cfd : Z) (buff : list Z) (total len : Z) (stops : list bool)
    : M (option Z * list Z * list bool) :=
  if negb (total <? len) then mret (Some total, buff, stops) else
  match stops with
  | [] => mret (None, buff, [])
  | stop :: stops =>
      if stop : bool then mret (Some (-2), buff, stops) else
      rp ← sys (Recv cfd (len - total));
      let n := ret rp in
      if 0 <? n then
        recv_exact_until_loop cfd (memcpy_at buff total (received rp)) (total + n) len stops
      else if n =? 0 then mret (Some 0, buff, stops)
      else if errno rp =? EINTR then recv_exact_until_loop cfd buff total len stops
      else if (errno rp =? EAGAIN) || (errno rp =? EWOULDBLOCK)
      then recv_exact_until_loop cfd buff total len stops
      else mret (Some (-1), buff, stops)
  end.

Definition recv_exact_until (cfd : Z) (buff : list Z) (len : Z) (stops : list bool)
    : M (option Z * list Z * list bool) := recv_exact_until_loop cfd buff 0 len stops.

Definition BUFF_SIZE : Z := 4096.

(** The loop of [handle_client]; [rounds] bounds the messages, [None]: it is still
    receiving then. *)
Fixpoint client_loop (rounds fuel : nat) (cfd : Z) (buff : list Z) (msg_len : Z)
    (log : list (list Z)) : M (option bool * list (list Z)) :=
  match rounds with
  | O => mret (None, log)
  | S rounds =>
      '(n, buff) ← recv_exact fuel cfd buff msg_len;
      let log := if 0 <? n then log ++ [mem_read buff 0 n] else log in
      if n =? 0 then mret (Some true, log)
      else if n <? 0 then mret (Some false, log)
      else client_loop rounds fuel cfd buff msg_len log
  end.

Definition handle_client (rounds fuel : nat) (cfd : Z) (buff : list Z) (msg_len : Z)
    : M (option bool * list (list Z)) :=
  if (msg_len =? 0) || (BUFF_SIZE <? msg_len) then mret (Some false, [])
  else client_loop rounds fuel cfd buff msg_len [].

(** [handle_client] with [should_stop]. *)
Fixpoint client_loop_until (rounds : nat) (cfd : Z) (buff : list Z) (msg_len : Z)
    (log : list (list Z)) (stops : list bool) : M (option bool * list (list Z)) :=
  match rounds with
  | O => mret (None, log)
  | S rounds =>
      '(n, buff, stops) ← recv_exact_until cfd buff msg_len stops;
      match n with
      | None => mret (None, log)
      | Some n =>
          let log := if 0 <? n then log ++ [mem_read buff 0 n] else log in
          if n =? 0 then mret (Some true, log)
          else if n =? -2 then mret (Some false, log)
          else if n <? 0 then mret (Some false, log)
          else client_loop_until rounds cfd buff msg_len log stops
      end
  end.

Definition handle_client_until (rounds : nat) (cfd : Z) (buff : list Z) (msg_len : Z)
    (stops : list bool) : M (option bool * list (list Z)) :=
  if (msg_len =? 0) || (BUFF_SIZE <? msg_len) then mret (Some false, [])
  else client_loop_until rounds cfd buff msg_len [] stops.

(** [setup_server] for a number of clients; the loop of the source has no end. *)
Fixpoint serve (clients rounds fuel : nat) (listen_fd : Z) (buff : list Z) (msg_len : Z)
    (log : list (list Z)) : M (outcome (list (list Z))) :=
  match clients with
  | O => mret (Returns log)
  | S clients =>
      acc ← accept_one listen_fd;
      match acc with
      | Exits code => mret (Exits code)
      | Returns cfd =>
          '(_, ms) ← handle_client rounds fuel cfd buff msg_len;
          _ ← sys (Close cfd);
          serve clients rounds fuel listen_fd buff msg_len (log ++ ms)
      end
  end.

Definition setup_server (clients rounds fuel : nat) (port : Z) (buff : list Z) (msg_len : Z)
    : M (outcome (list (list Z))) :=
  l ← make_listen_socket (u16 port);
  match l with
  | Exits code => mret (Exits code)
  | Returns listen_fd => serve clients rounds fuel listen_fd buff msg_len []
  end.

End server.
End TcpServerBlock.

Module TcpClientBlock.
Section client.
Context `{Kernel}.

(** [die(msg, fd)]: close, then exit. *)
Definition die {A} (fd : Z) : M (outcome A) :=
  _ ← (if 0 <=? fd then _ ← sys (Close fd); mret tt else mret tt); mret (Exits 1).

Definition connect_to_server (addr_in : string) (port : Z) : M (outcome Z) :=
  rp ← sys (Socket SOCK_STREAM);
  let fd := ret rp in
  if fd <? 0 then die fd else
  match inet_pton addr_in with
  | None => die fd
  | Some a =>
      rp ← sys (Connect fd (mkAddr a port));
      if ret rp =? -1 then die fd else mret (Returns fd)
  end.

Fixpoint send_loop (fuel : nat) (fd : Z) (data : list Z) (total len : Z) : M bool :=
  if negb (total <? len) then mret true else
  match fuel with
  | O => out_of_fuel
  | S fuel =>
      rp ← sys (Send fd (mem_read data total (len - total)) 0);
      let n := ret rp in
      if 0 <? n then send_loop fuel fd data (total + n) len
      else if (n =? -1) && (errno rp =? EINTR) then send_loop fuel fd data total len
      else mret false
  end.

Definition send_all (fuel : nat) (fd : Z) (data : option (list Z)) (len : Z) : M bool :=
  match data with
  | None => mret true
  | Some bytes => if len =? 0 then mret true else send_loop fuel fd bytes 0 len
  end.

End client.
End TcpClientBlock.

(** ** Byte streams *)

Definition bytes_in (h : history) : list Z := concat (dg_data <$> arrived h).

(** The bytes accepted by [send], in order. *)
Fixpoint bytes_out (h : history) : list Z :=
  match h with
  | [] => []
  | (Send _ data _, r) :: h => bytes_out h ++ take (Z.to_nat (ret r)) data
  | _ :: h => bytes_out h
  end.

(** The last call found the end of the stream. *)
Definition ended (h : history) : Prop :=
  match h with (Recv _ _, r) :: _ => ret r = 0 | _ => False end.

(** The messages of a byte sequence: full ones, and the bytes after the last. *)
Definition spells (len : Z) (bytes : list Z) (msgs : list (list Z)) (rest : list Z) : Prop :=
  bytes = concat msgs ++ rest /\ Forall (fun m => Z.of_nat (length m) = len) msgs /\
  Z.of_nat (length rest) < len.

Section receiving.
Context {P : nat} `{KernelOk P}.

(** The outcome of receiving up to [len] bytes when [total] are in the buffer. *)
Definition exact_post (L : gset Z) (buff : list Z) (total len : Z) (h : history)
    (n : Z) (buff' : list Z) (h' : history) : Prop :=
  live h' = Some L /\ length buff' = length buff /\
  exists bs, bytes_in h' = bytes_in h ++ bs /\
    take (Z.to_nat total + length bs) buff' = take (Z.to_nat total) buff ++ bs /\
    (n = len /\ total + Z.of_nat (length bs) = len \/
     n <= 0 /\ total + Z.of_nat (length bs) < len /\ (n = 0 -> ended h')).

Lemma bytes_in_quiet c r h : received_by c r = [] -> bytes_in ((c, r) :: h) = bytes_in h.
Proof. intros Hq. unfold bytes_in. by rewrite arrived_quiet. Qed.

Lemma exact_none L buff total len h n h' :
  live h' = Some L -> bytes_in h' = bytes_in h -> n <= 0 -> total < len -> 0 <= total ->
  (n = 0 -> ended h') -> exact_post L buff total len h n buff h'.
Proof.
  intros Hl Hb Hn Ht Ht0 He. split_and!; try done. exists []. rewrite !app_nil_r, Nat.add_0_r.
  split_and!; try done. right. simpl. split_and!; [lia|lia|done].
Qed.

(** What one [recv] gives. *)
Lemma recv_data h cfd m L :
  live h = Some L -> cfd ∈ L ->
  let rp := kernel h (Recv cfd m) in
  live ((Recv cfd m, rp) :: h) = Some L /\
  (0 <= ret rp ->
    Z.of_nat (length (TcpServerBlock.received rp)) = ret rp /\ ret rp <= m /\
    bytes_in ((Recv cfd m, rp) :: h) = bytes_in h ++ TcpServerBlock.received rp) /\
  (ret rp < 0 -> bytes_in ((Recv cfd m, rp) :: h) = bytes_in h).
Proof.
  intros Hl Hc. cbv zeta. set (rp := kernel _ _).
  split_and!; [apply live_use; try done; by constructor| |].
  - intros Hr. destruct (kernel_recv h cfd m Hr) as (d & Hd & (Hlen & Hdl & _) & Hret).
    fold rp in Hd, Hret. unfold TcpServerBlock.received. rewrite Hd. split_and!; [lia|lia|].
    unfold bytes_in. cbn [arrived received_by]. rewrite (proj2 (Z.leb_le _ _) Hr), Hd.
    rewrite fmap_app, concat_app. simpl. by rewrite app_nil_r.
  - intros Hr. apply bytes_in_quiet. simpl. by rewrite (proj2 (Z.leb_gt _ _) Hr).
Qed.

(** A successful [recv], then the rest. *)
Lemma exact_more L buff total len h n buff' h' c rp bs :
  0 <= total -> Z.of_nat (length bs) = ret rp -> total + ret rp <= len ->
  len <= Z.of_nat (length buff) -> bytes_in ((c, rp) :: h) = bytes_in h ++ bs ->
  exact_post L (memcpy_at buff total bs) (total + ret rp) len ((c, rp) :: h) n buff' h' ->
  exact_post L buff total len h n buff' h'.
Proof.
  intros Ht Hbs Hle Hlen Hin (Hl & Hlb & bs2 & Hb & Htk & Hres). rewrite length_memcpy_at in Hlb.
  split_and!; try done. exists (bs ++ bs2). rewrite Hb, Hin, app_assoc, length_app.
  split_and!; [done| |].
  - replace (Z.to_nat total + (length bs + length bs2))%nat
      with (Z.to_nat (total + ret rp) + length bs2)%nat by lia.
    rewrite Htk, app_assoc. f_equal.
    rewrite <- (take_drop (Z.to_nat total) buff) at 1.
    rewrite memcpy_at_end; [|rewrite length_take; lia|rewrite length_drop; lia].
    rewrite take_app_le by (rewrite length_app, length_take; lia).
    apply take_ge. rewrite length_app, length_take. lia.
  - destruct Hres as [[-> He]|(Hn & Hlt & He)]; [left|right]; split_and!; try done; lia.
Qed.

Lemma recv_exact_loop_spec fuel cfd buff total len h L :
  live h = Some L -> cfd ∈ L -> 0 <= total <= len -> len <= Z.of_nat (length buff) ->
  (Z.to_nat (len - total) * S P + (P - interrupted h) < fuel)%nat ->
  wp (TcpServerBlock.recv_exact_loop fuel cfd buff total len)
    (fun '(n, buff') h' => exact_post L buff total len h n buff' h') h.
Proof.
  intros Hl Hc. revert buff total h Hl.
  induction fuel as [|fuel IH]; intros buff total h Hl Ht Hlen Hfuel; [lia|].
  cbn [TcpServerBlock.recv_exact_loop].
  destruct (Z.ltb_spec total len) as [Hlt|Hge]; cbn [negb].
  2: { wp_step. split_and!; try done. exists []. rewrite !app_nil_r, Nat.add_0_r. split_and!; try done.
       left. simpl. lia. }
  wp_step. wp_step. set (c := Recv cfd (len - total)). set (rp := kernel h c).
  destruct (recv_data h cfd (len - total) L Hl Hc) as (Hl' & Hok & Hneg). fold c rp in Hl', Hok, Hneg.
  destruct (Z.ltb_spec 0 (ret rp)) as [Hn|Hn].
  { destruct (Hok ltac:(lia)) as (Hbs & Hmax & Hin).
    assert (Hi : interrupted ((c, rp) :: h) = 0%nat)
      by (simpl; rewrite (proj2 (Z.eqb_neq (ret rp) (-1))) by lia; done).
    eapply wp_mono; [apply IH; [done|lia|by rewrite length_memcpy_at|rewrite Hi; nia]|].
    intros [n buff'] h' Hp. by eapply exact_more; [..|exact Hp]; try done; lia. }
  destruct (Z.eqb_spec (ret rp) 0) as [Hz|Hz].
  { destruct (Hok ltac:(lia)) as (Hbs & _ & Hin). wp_step.
    assert (E : TcpServerBlock.received rp = []) by (destruct (TcpServerBlock.received rp); [done|simpl in Hbs; lia]).
    rewrite E, app_nil_r in Hin. by apply exact_none; try done; lia. }
  specialize (Hneg ltac:(lia)).
  destruct (Z.eqb_spec (errno rp) EINTR) as [He|He].
  - assert (Hm : ret rp = -1) by (pose proof (kernel_ret h c); unfold rp in *; lia).
    destruct (interrupted_more h c Hm He) as [Hlt' Hi]. fold rp in Hi.
    eapply wp_mono; [apply IH; [done|done|done|rewrite Hi; lia]|].
    intros [n buff'] h' (H1 & H2 & bs & H3 & H4). rewrite Hneg in H3.
    split_and!; try done. by exists bs.
  - wp_step. by apply exact_none; try done; lia.
Qed.

Lemma recv_exact_until_loop_spec cfd buff total len stops h L :
  live h = Some L -> cfd ∈ L -> 0 <= total <= len -> len <= Z.of_nat (length buff) ->
  wp (TcpServerBlock.recv_exact_until_loop cfd buff total len stops)
    (fun '(n, buff', _) h' => exact_post L buff total len h (default (-1) n) buff' h') h.
Proof.
  intros Hl Hc. revert buff total h Hl.
  induction stops as [|stop stops IH]; intros buff total h Hl Ht Hlen;
    cbn [TcpServerBlock.recv_exact_until_loop];
    destruct (Z.ltb_spec total len) as [Hlt|Hge]; cbn [negb].
  2,4: wp_step; split_and!; try done; exists []; rewrite !app_nil_r, Nat.add_0_r; split_and!; try done;
    left; simpl; lia.
  1: wp_step; by apply exact_none; try done; simpl; lia.
  destruct stop; [wp_step; by apply exact_none; try done; simpl; lia|].
  wp_step. wp_step. set (c := Recv cfd (len - total)). set (rp := kernel h c).
  destruct (recv_data h cfd (len - total) L Hl Hc) as (Hl' & Hok & Hneg). fold c rp in Hl', Hok, Hneg.
  destruct (Z.ltb_spec 0 (ret rp)) as [Hn|Hn].
  { destruct (Hok ltac:(lia)) as (Hbs & Hmax & Hin).
    eapply wp_mono; [apply IH; [done|lia|by rewrite length_memcpy_at]|].
    intros [[n buff'] stops'] h' Hp. by eapply exact_more; [..|exact Hp]; try done; lia. }
  destruct (Z.eqb_spec (ret rp) 0) as [Hz|Hz].
  { destruct (Hok ltac:(lia)) as (Hbs & _ & Hin). wp_step.
    assert (E : TcpServerBlock.received rp = []) by (destruct (TcpServerBlock.received rp); [done|simpl in Hbs; lia]).
    rewrite E, app_nil_r in Hin. by apply exact_none; try done; simpl; lia. }
  specialize (Hneg ltac:(lia)).
  assert (Hgo : wp (TcpServerBlock.recv_exact_until_loop cfd buff total len stops)
    (fun '(n, buff', _) h' => exact_post L buff total len h (default (-1) n) buff' h') ((c, rp) :: h)).
  { eapply wp_mono; [by apply IH|]. intros [[n buff'] stops'] h' (H1 & H2 & bs & H3 & H4).
    rewrite Hneg in H3. split_and!; try done. by exists bs. }
  destruct (errno rp =? EINTR); [exact Hgo|]. destruct (_ || _); [exact Hgo|].
  wp_step. by apply exact_none; try done; simpl; lia.
Qed.

(** What a client's connection amounts to: the messages passed on so far. *)
Definition client_post (L : gset Z) (len : Z) (h : history) (log : list (list Z))
    (res : option bool * list (list Z)) (h' : history) : Prop :=
  let '(r, log') := res in
  live h' = Some L /\ exists new bytes rest, log' = log ++ new /\
    bytes_in h' = bytes_in h ++ bytes /\ spells len bytes new rest /\ (r = Some true -> ended h').

(** One more message, or the end. *)
Lemma client_step L len buff h n buff1 h1 :
  0 < len -> exact_post L buff 0 len h n buff1 h1 ->
  live h1 = Some L /\ length buff1 = length buff /\
  exists bytes, bytes_in h1 = bytes_in h ++ bytes /\
    ((n = len /\ 0 < n /\ bytes = mem_read buff1 0 n /\ Z.of_nat (length bytes) = len) \/
     (n <= 0 /\ spells len bytes [] bytes /\ (n = 0 -> ended h1))).
Proof.
  intros Hlen (Hl & Hlb & bs & Hb & Htk & Hres). split_and!; try done. exists bs. split; [done|].
  rewrite Z.add_0_l in Hres. destruct Hres as [[-> Hbs]|(Hn & Hlt & He)].
  - left. split_and!; try done. unfold mem_read. rewrite <- Hbs, Nat2Z.id.
    change (Z.to_nat 0) with 0%nat in *. rewrite drop_0. cbn [Nat.add take] in Htk. by rewrite Htk.
  - right. by split_and!.
Qed.

Lemma client_post_end L len h log r h1 bytes :
  live h1 = Some L -> bytes_in h1 = bytes_in h ++ bytes -> spells len bytes [] bytes ->
  (r = Some true -> ended h1) -> client_post L len h log (r, log) h1.
Proof.
  intros Hl Hb Hs He. split; [done|]. exists [], bytes, bytes. rewrite app_nil_r. by split_and!.
Qed.

Lemma client_post_more L len h log res h1 h' bytes :
  bytes_in h1 = bytes_in h ++ bytes -> Z.of_nat (length bytes) = len ->
  client_post L len h1 (log ++ [bytes]) res h' -> client_post L len h log res h'.
Proof.
  destruct res as [r log']. intros Hb Hlen (Hl & new & bytes2 & rest & -> & Hb2 & (-> & Hall & Hr) & He).
  split; [done|]. exists (bytes :: new), (bytes ++ concat new ++ rest), rest.
  rewrite <- app_assoc. split_and!; [done|by rewrite Hb2, Hb, <- app_assoc| |done].
  split_and!; [simpl; by rewrite <- app_assoc|by constructor|done].
Qed.

Lemma client_loop_spec rounds fuel cfd buff len log h L :
  live h = Some L -> cfd ∈ L -> 0 < len <= Z.of_nat (length buff) ->
  (Z.to_nat len * S P + P < fuel)%nat ->
  wp (TcpServerBlock.client_loop rounds fuel cfd buff len log) (client_post L len h log) h.
Proof.
  intros Hl Hc Hlen Hfuel. revert buff log h Hl Hlen.
  induction rounds as [|rounds IH]; intros buff log h Hl Hlen; cbn [TcpServerBlock.client_loop].
  { wp_step. eapply (client_post_end _ _ _ _ _ _ []); [done|by rewrite app_nil_r| |done].
    split_and!; [done|constructor|simpl; lia]. }
  wp_step. unfold TcpServerBlock.recv_exact.
  eapply wp_mono; [apply (recv_exact_loop_spec fuel cfd buff 0 len h L); try done; rewrite ?Z.sub_0_r; lia|].
  intros [n buff1] h1 Hp. apply client_step in Hp as (Hl1 & Hlb & bytes & Hb & Hcase); [|lia].
  destruct Hcase as [(-> & Hpos & Hby & Hbl)|(Hn & Hsp & He)].
  - rewrite (proj2 (Z.ltb_lt _ _) Hpos), (proj2 (Z.eqb_neq _ 0)), (proj2 (Z.ltb_ge _ 0)) by lia.
    rewrite <- Hby. eapply wp_mono; [apply IH; [done|rewrite Hlb; lia]|].
    intros res h' Hres. by eapply client_post_more.
  - rewrite (proj2 (Z.ltb_ge _ _) Hn). destruct (Z.eqb_spec n 0) as [->|Hz].
    + wp_step. eapply client_post_end; [done..|auto].
    + rewrite (proj2 (Z.ltb_lt n 0)) by lia. wp_step. by eapply client_post_end.
Qed.

Lemma client_loop_until_spec rounds cfd buff len log stops h L :
  live h = Some L -> cfd ∈ L -> 0 < len <= Z.of_nat (length buff) ->
  wp (TcpServerBlock.client_loop_until rounds cfd buff len log stops) (client_post L len h log) h.
Proof.
  intros Hl Hc. revert buff log stops h Hl.
  induction rounds as [|rounds IH]; intros buff log stops h Hl Hlen; cbn [TcpServerBlock.client_loop_until].
  { wp_step. eapply (client_post_end _ _ _ _ _ _ []); [done|by rewrite app_nil_r| |done].
    split_and!; [done|constructor|simpl; lia]. }
  wp_step. unfold TcpServerBlock.recv_exact_until.
  eapply wp_mono; [apply (recv_exact_until_loop_spec cfd buff 0 len stops h L); done || lia|].
  intros [[n buff1] stops1] h1 Hp. apply client_step in Hp as (Hl1 & Hlb & bytes & Hb & Hcase); [|lia].
  destruct n as [n|]; cbn [default id] in Hcase.
  - destruct Hcase as [(-> & Hpos & Hby & Hbl)|(Hn & Hsp & He)].
    + rewrite (proj2 (Z.ltb_lt _ _) Hpos), (proj2 (Z.eqb_neq _ 0)), (proj2 (Z.eqb_neq _ (-2))),
        (proj2 (Z.ltb_ge _ 0)) by lia.
      rewrite <- Hby. eapply wp_mono; [apply IH; [done|rewrite Hlb; lia]|].
      intros res h' Hres. by eapply client_post_more.
    + rewrite (proj2 (Z.ltb_ge _ _) Hn). destruct (Z.eqb_spec n 0) as [->|Hz];
        [wp_step; eapply client_post_end; [done..|auto]|].
      destruct (n =? -2); [wp_step; by eapply client_post_end|].
      rewrite (proj2 (Z.ltb_lt n 0)) by lia. wp_step. by eapply client_post_end.
  - destruct Hcase as [(Hx & ? & _)|(_ & Hsp & _)]; [lia|]. wp_step. by eapply client_post_end.
Qed.

(** C19 (blocking server: message boundaries).  Whatever pieces the stream arrives
    in and wherever reads are interrupted, both versions of [handle_client] pass on
    exactly the consecutive messages of [msg_len] bytes the connection's bytes
    spell, each once and in order, and report success only at the end of the
    stream; fewer than [msg_len] bytes stay unused (at the end of the stream they
    are silently dropped).  A length that does not fit the buffer is refused
    without reading. *)
Theorem tcp_handle_client rounds fuel cfd buff msg_len stops h L :
  live h = Some L -> cfd ∈ L -> 0 <= msg_len -> Z.of_nat (length buff) = TcpServerBlock.BUFF_SIZE ->
  (4096 * S P + P < fuel)%nat ->
  if decide (0 < msg_len <= 4096) then
    wp (TcpServerBlock.handle_client rounds fuel cfd buff msg_len) (client_post L msg_len h []) h /\
    wp (TcpServerBlock.handle_client_until rounds cfd buff msg_len stops) (client_post L msg_len h []) h
  else
    TcpServerBlock.handle_client rounds fuel cfd buff msg_len h = Some ((Some false, []), h) /\
    TcpServerBlock.handle_client_until rounds cfd buff msg_len stops h = Some ((Some false, []), h).
Proof.
  intros Hl Hc Hpos Hb Hfuel. unfold TcpServerBlock.handle_client, TcpServerBlock.handle_client_until.
  unfold TcpServerBlock.BUFF_SIZE in *. case_decide as Hd.
  - rewrite (proj2 (Z.eqb_neq _ 0)), (proj2 (Z.ltb_ge _ _)) by lia. cbn [orb].
    split; [apply client_loop_spec; try done; [lia|nia]|apply client_loop_until_spec; try done; lia].
  - replace ((msg_len =? 0) || (4096 <? msg_len)) with true; [done|].
    symmetry. apply orb_true_iff. rewrite Z.eqb_eq, Z.ltb_lt. lia.
Qed.

End receiving.

(** The busy kernel delivers twelve bytes one at a time: three messages of four,
    or two of five and two bytes left over. *)
Definition demo_accepted : history := [(Socket SOCK_STREAM, mkReply 3 0 [] [])].

Lemma tcp_handle_client_witness :
  @wp _ (@TcpServerBlock.handle_client busy_kernel 5 5000 3 (replicate 4096 0) 5)
    (client_post {[3]} 5 demo_accepted []) demo_accepted.
Proof.
  assert (HL : live demo_accepted = Some {[3]}) by (vm_compute; reflexivity).
  pose proof (@tcp_handle_client 0 busy_kernel busy_kernel_ok 5 5000 3 (replicate 4096 0) 5 [] demo_accepted
    {[3]} HL ltac:(set_solver) ltac:(lia) ltac:(by rewrite length_replicate) ltac:(lia)) as Hc.
  rewrite decide_True in Hc by lia. exact (proj1 Hc).
Defined.

Example sample_client :
  fst <$> @TcpServerBlock.handle_client busy_kernel 5 100 3 (replicate 4096 0) 5 demo_accepted
  = Some (Some true, [replicate 5 7; replicate 5 7]).
Proof. vm_compute. reflexivity. Qed.

(** ** Sending *)

Section sending.
Context {P : nat} `{KernelOk P}.

(** The first [k] bytes went out; [ok] says whether those are all. *)
Definition sent_prefix (L : gset Z) (data : list Z) (h : history) (ok : bool) (h' : history) : Prop :=
  live h' = Some L /\ exists k, (k <= length data)%nat /\
    bytes_out h' = bytes_out h ++ take k data /\ (ok = true <-> k = length data).

Lemma send_loop_tcp_spec fuel fd pre rest h L :
  live h = Some L -> fd ∈ L ->
  (length rest * S P + (P - interrupted h) < fuel)%nat ->
  wp (TcpClientBlock.send_loop fuel fd (pre ++ rest) (Z.of_nat (length pre)) (Z.of_nat (length (pre ++ rest))))
    (sent_prefix L rest h) h.
Proof.
  intros Hl Hc. revert pre rest h Hl.
  induction fuel as [|fuel IH]; intros pre rest h Hl Hfuel; [lia|].
  cbn [TcpClientBlock.send_loop]. rewrite length_app.
  destruct (Z.ltb_spec (Z.of_nat (length pre)) (Z.of_nat (length pre + length rest))) as [Hlt|Hge]; cbn [negb].
  2: { wp_step. split; [done|]. exists 0%nat. assert (length rest = 0%nat) by lia.
       rewrite app_nil_r. split_and!; [lia|done|by split]. }
  assert (Hm : mem_read (pre ++ rest) (Z.of_nat (length pre))
      (Z.of_nat (length pre + length rest) - Z.of_nat (length pre)) = rest).
  { rewrite <- (app_nil_r rest) at 1. apply mem_read_app; lia. }
  rewrite Hm. wp_step. wp_step. set (c := Send fd rest 0). set (rp := kernel h c).
  pose proof (kernel_send h fd rest 0) as Hmax. fold c rp in Hmax.
  assert (Hl' : live ((c, rp) :: h) = Some L) by (apply live_use; try done; by constructor).
  assert (Hstop : ret rp <= 0 -> sent_prefix L rest h false ((c, rp) :: h)).
  { intros Hn. split; [done|]. exists 0%nat. split; [lia|]. cbn [bytes_out].
    replace (Z.to_nat (ret rp)) with 0%nat by lia. split; [done|]. split; [done|]. lia. }
  destruct (Z.ltb_spec 0 (ret rp)) as [Hn|Hn].
  { assert (Hi : interrupted ((c, rp) :: h) = 0%nat)
      by (simpl; rewrite (proj2 (Z.eqb_neq (ret rp) (-1))) by lia; done).
    set (n := Z.to_nat (ret rp)) in *.
    assert (Hln : length (take n rest) = n) by (rewrite length_take; lia).
    rewrite <- (take_drop n rest) at 1. rewrite app_assoc.
    replace (Z.of_nat (length pre) + ret rp) with (Z.of_nat (length (pre ++ take n rest)))
      by (rewrite length_app; lia).
    replace (Z.of_nat (length pre + length rest)) with
      (Z.of_nat (length ((pre ++ take n rest) ++ drop n rest)))
      by (rewrite !length_app, length_drop; lia).
    eapply wp_mono; [apply IH; [done|rewrite Hi, length_drop; nia]|].
    intros ok h' (HL & k & Hk & Hb & Hok). rewrite length_drop in Hk, Hok. split; [done|].
    exists (n + k)%nat. split_and!; [lia| |rewrite Hok; lia].
    rewrite Hb. cbn [bytes_out c]. fold n. rewrite <- app_assoc. f_equal.
    by rewrite take_take_drop. }
  destruct (Z.eqb_spec (ret rp) (-1)) as [Hr|Hr]; [|cbn [andb]; wp_step; by apply Hstop].
  destruct (Z.eqb_spec (errno rp) EINTR) as [He|He]; cbn [andb]; [|wp_step; by apply Hstop].
  destruct (interrupted_more h c Hr He) as [Hlt' Hi]. fold rp in Hi.
  rewrite <- length_app. eapply wp_mono; [apply IH; [done|rewrite Hi; lia]|].
  intros ok h' (HL & k & Hk & Hb & Hok). cbn [bytes_out c] in Hb. rewrite Hr in Hb.
  change (take (Z.to_nat (-1)) rest) with (@nil Z) in Hb. rewrite app_nil_r in Hb.
  split; [done|]. by exists k.
Qed.

(** C23 (blocking client).  However the kernel cuts the stream into pieces and
    interrupts the calls, [send_all] ends, hands the bytes over in order and
    without gaps or repetition, and answers true exactly when every byte was
    accepted. *)
Theorem tcp_send_all fuel fd data h L :
  live h = Some L -> fd ∈ L -> (length data * S P + P < fuel)%nat ->
  wp (TcpClientBlock.send_all fuel fd (Some data) (Z.of_nat (length data))) (sent_prefix L data h) h.
Proof.
  intros Hl Hf Hfuel. unfold TcpClientBlock.send_all. destruct (Z.eqb_spec (Z.of_nat (length data)) 0).
  - wp_step. split; [done|]. exists 0%nat. rewrite app_nil_r. split_and!; [lia|done|]. split; [lia|done].
  - apply (send_loop_tcp_spec fuel fd [] data); [done|done|lia].
Qed.

(** [connect_to_server] returns with one new descriptor, connected, or ends the
    process with none left open. *)
Lemma tcp_connect_spec addr port h L :
  live h = Some L ->
  wp (TcpClientBlock.connect_to_server addr port) (fun r h' =>
    match r with
    | Returns fd => (fd ∉ L) /\ live h' = Some (L ∪ {[fd]})
    | Exits _ => live h' = Some L
    end) h.
Proof.
  intros Hl. unfold TcpClientBlock.connect_to_server. wp_step.
  assert (Hdie : forall fd h1, fd < 0 /\ live h1 = Some L \/ (0 <= fd /\ (fd ∉ L) /\ live h1 = Some (L ∪ {[fd]})) ->
    wp (TcpClientBlock.die fd) (fun r h' => match r with
      | Returns fd => (fd ∉ L) /\ live h' = Some (L ∪ {[fd]})
      | Exits _ => live h' = Some L end) h1).
  { intros fd h1 Hfd. unfold TcpClientBlock.die.
    eapply (wp_close_owned fd _ _ h1 (L ∪ owned fd)).
    - destruct Hfd as [[Hn ->]|(Hp & _ & ->)]; [rewrite owned_neg by done|rewrite owned_pos by done];
        f_equal; set_solver.
    - set_solver.
    - intros h2 Hl2. wp_step. rewrite Hl2. f_equal.
      destruct Hfd as [[Hn _]|(Hp & Hf & _)]; [rewrite owned_neg by done|rewrite owned_pos by done]; set_solver. }
  eapply wp_open; [exact Hl|done|constructor| |].
  - intros r h1 Hr Hl1. cbv beta zeta. rewrite (proj2 (Z.ltb_lt _ 0)) by lia. apply Hdie. left. split; [lia|done].
  - intros r h1 Hr Hf Hl1. cbv beta zeta. rewrite (proj2 (Z.ltb_ge _ 0)) by lia.
    destruct (inet_pton addr) as [a|]; [|apply Hdie; auto]. wp_step.
    eapply wp_use; [exact Hl1|done|done|constructor; [set_solver|constructor]|]. intros r2 h2 Hl2.
    destruct (ret r2 =? -1); [apply Hdie; auto|]. by wp_step.
Qed.

End sending.

(** The busy kernel takes three bytes at a time. *)
Lemma tcp_send_all_witness :
  @wp _ (@TcpClientBlock.send_all busy_kernel 10 3 (Some [1; 2; 3; 4; 5; 6; 7]) 7)
    (sent_prefix {[3]} [1; 2; 3; 4; 5; 6; 7] demo_accepted) demo_accepted.
Proof.
  apply (@tcp_send_all 0 busy_kernel busy_kernel_ok 10 3 [1; 2; 3; 4; 5; 6; 7] demo_accepted {[3]});
    [vm_compute; reflexivity|set_solver|simpl; lia].
Defined.

(** An interrupted [accept] is not repeated: [accept_one] returns -1, and
    [setup_server] reads from and closes descriptor -1. *)
Lemma serve_interrupted_accept `{Kernel} rounds fuel lfd buff msg_len log h L :
  live h = Some L -> lfd ∈ L -> 0 < msg_len <= TcpServerBlock.BUFF_SIZE ->
  let a := kernel h (Accept lfd 0) in
  let b := kernel ((Accept lfd 0, a) :: h) (Recv (-1) msg_len) in
  ret a = -1 -> errno a = EINTR -> ret b = -1 -> errno b = EBADF ->
  wp (TcpServerBlock.serve 1 (S rounds) (S fuel) lfd buff msg_len log)
    (fun out h' => out = Returns log /\ live h' = None /\
       map fst h' = Close (-1) :: Recv (-1) msg_len :: Accept lfd 0 :: map fst h) h.
Proof.
  unfold TcpServerBlock.BUFF_SIZE. cbv zeta. intros Hl Hf Hlen Ha Hae Hb Hbe.
  cbn [TcpServerBlock.serve]. unfold TcpServerBlock.accept_one. do 3 wp_step. rewrite Ha, Hae.
  rewrite Z.eqb_refl, Z.eqb_refl. cbv beta iota delta [negb orb]. wp_step. wp_step.
  unfold TcpServerBlock.handle_client, TcpServerBlock.BUFF_SIZE.
  rewrite (proj2 (Z.eqb_neq _ 0)), (proj2 (Z.ltb_ge _ _)) by lia. cbn [orb TcpServerBlock.client_loop].
  wp_step. unfold TcpServerBlock.recv_exact. cbn [TcpServerBlock.recv_exact_loop].
  rewrite Z.sub_0_r, (proj2 (Z.ltb_lt _ _)) by lia. cbn [negb]. do 2 wp_step. rewrite Hb, Hbe.
  cbv beta iota delta [Z.ltb Z.eqb Z.compare EINTR EBADF Pos.eqb]. repeat wp_step.
  rewrite app_nil_r. split_and!; [done| |done]. simpl. rewrite Hl. simpl. unfold fd_step.
  rewrite decide_True by (by constructor). cbn [opens]. rewrite Ha. cbn.
  rewrite decide_False; [done|]. intros Hin. apply Forall_cons_1 in Hin as [Hin _].
  pose proof (live_nonneg _ _ Hl _ Hin). lia.
Qed.
