(* ===== verification/Logger.v ===== *)
(** * Logger: the process-wide logger

    Models [src/common/logging/logger.hpp] and [src/common/logging/logger.cpp].
    The console and the files are lists of lines; whether a file opens, the
    clock, the thread's identifier and the rendering of local time are answers of
    the environment.  A call of [log] formats its line before it takes the mutex
    and appends it while holding it; [enable_console] and [set_log_file] hold it
    too.  So a concurrent run is a sequence of these steps and of the atomic
    changes of the level.  Writes to an open stream are taken to succeed. *)

From Stdlib Require Import ZArith Lia String.
From stdpp Require Import base numbers list option gmap strings.
From S2P Require Import Prelude Metrics.

Local Open Scope Z_scope.

Inductive Level := TRACE | DEBUG | INFO | WARN | ERROR | FATAL.

#[global] Instance Level_eq_dec : EqDecision Level.
Proof. solve_decision. Defined.

(** The value of the enumerator. *)
Definition level_num (l : Level) : Z :=
  match l with TRACE => 0 | DEBUG => 1 | INFO => 2 | WARN => 3 | ERROR => 4 | FATAL => 5 end.

(** The [switch] of [level_to_string], on any value the parameter may have. *)
Definition level_name (n : Z) : string :=
  if n =? 0 then "TRACE" else if n =? 1 then "DEBUG" else if n =? 2 then "INFO"
  else if n =? 3 then "WARN" else if n =? 4 then "ERROR" else if n =? 5 then "FATAL"
  else "UNKNOWN".

Definition level_to_string (l : Level) : string := level_name (level_num l).

Module Logger.

(** The members, and what has been written: to the console and to each file. *)
Record t := mk {
  level_ : Level;
  console_enabled_ : bool;
  file_ : option string;
  clog : list string;
  files : gmap string (list string)
}.

Definition construct (files : gmap string (list string)) : t := mk INFO true None [] files.

Definition set_level (level : Level) (l : t) : t :=
  mk level (console_enabled_ l) (file_ l) (clog l) (files l).

Definition level (l : t) : Level := level_ l.

Definition enable_console (enable : bool) (l : t) : t :=
  mk (level_ l) enable (file_ l) (clog l) (files l).

(** [opens]: whether the file can be opened for appending. *)
Definition set_log_file (path : string) (opens : bool) (l : t) : bool * t :=
  if opens then
    (true, mk (level_ l) (console_enabled_ l) (Some path) (clog l)
             (<[path := default [] (files l !! path)]> (files l)))
  else (false, mk (level_ l) (console_enabled_ l) None (clog l) (files l)).

Section format.
(** [std::put_time] of [localtime_r], for a time in seconds. *)
Context (local_time : Z -> string).

(** [std::setfill('0') << std::setw(3)]. *)
Definition setw3 (s : string) : string :=
  String.append (String.concat "" (replicate (3 - String.length s) "0"%string)) s.

Definition timestamp_now (now_ns : Z) : string :=
  String.append (local_time (Z.quot now_ns 1000000000))
    (String.append "." (setw3 (Metrics.decimal (Z.rem (Z.quot now_ns 1000000) 1000)))).

(** The first part of [write]. *)
Definition format (now_ns : Z) (tid : string) (level : Level) (message : string) : string :=
  String.concat "" ["["; timestamp_now now_ns; "]["; level_to_string level; "][tid="; tid; "] "; message]%string.

(** The part of [write] under the mutex. *)
Definition append (line : string) (l : t) : t :=
  mk (level_ l) (console_enabled_ l) (file_ l)
    (if console_enabled_ l then clog l ++ [line] else clog l)
    (match file_ l with
     | Some path => <[path := default [] (files l !! path) ++ [line]]> (files l)
     | None => files l
     end).

Definition write (now_ns : Z) (tid : string) (level : Level) (message : string) (l : t) : t :=
  append (format now_ns tid level message) l.

(** The test at the head of [log]. *)
Definition enabled (level : Level) (l : t) : bool :=
  negb (level_num level <? level_num (level_ l)).

Definition log (now_ns : Z) (tid : string) (level : Level) (message : string) (l : t) : t :=
  if enabled level l then write now_ns tid level message l else l.

(** ** Threads

    [Begin]: a thread's [log], up to the mutex; [Commit]: the rest. *)
Inductive event :=
  | Begin (tid : string) (level : Level) (message : string) (now_ns : Z)
  | Commit (tid : string)
  | SetLevel (level : Level)
  | EnableConsole (enable : bool)
  | SetLogFile (path : string) (opens : bool).

(** The logger and the line each thread is about to write. *)
Definition config : Type := t * gmap string string.

Inductive step : config -> event -> config -> Prop :=
  | step_begin l w tid lv m now : w !! tid = None -> enabled lv l = true ->
      step (l, w) (Begin tid lv m now) (l, <[tid := format now tid lv m]> w)
  | step_skip l w tid lv m now : w !! tid = None -> enabled lv l = false ->
      step (l, w) (Begin tid lv m now) (l, w)
  | step_commit l w tid line : w !! tid = Some line ->
      step (l, w) (Commit tid) (append line l, delete tid w)
  | step_level l w lv : step (l, w) (SetLevel lv) (set_level lv l, w)
  | step_console l w b : step (l, w) (EnableConsole b) (enable_console b l, w)
  | step_file l w path opens :
      step (l, w) (SetLogFile path opens) ((set_log_file path opens l).2, w).

Inductive run (s : config) : list event -> config -> Prop :=
  | run_nil : run s [] s
  | run_snoc evs s1 ev s2 : run s evs s1 -> step s1 ev s2 -> run s (evs ++ [ev]) s2.

End format.
End Logger.

(** ** Specification *)

Section threads.
Context (local_time : Z -> string).

(** The level in force after the events. *)
Fixpoint level_after (lv : Level) (evs : list Logger.event) : Level :=
  match evs with
  | [] => lv
  | Logger.SetLevel lv' :: evs => level_after lv' evs
  | _ :: evs => level_after lv evs
  end.

(** The lines the calls ask for, with the thread that calls. *)
Fixpoint requested (lv : Level) (evs : list Logger.event) : list (string * string) :=
  match evs with
  | [] => []
  | Logger.Begin tid lv' m now :: evs =>
      if level_num lv <=? level_num lv'
      then (tid, Logger.format local_time now tid lv' m) :: requested lv evs
      else requested lv evs
  | Logger.SetLevel lv' :: evs => requested lv' evs
  | _ :: evs => requested lv evs
  end.

(** Where lines go: whether to the console, and to which file. *)
Definition sinks : Type := bool * option string.

Definition sinks_of (l : Logger.t) : sinks := (Logger.console_enabled_ l, Logger.file_ l).

Definition sinks_step (k : sinks) (ev : Logger.event) : sinks :=
  match ev with
  | Logger.EnableConsole b => (b, k.2)
  | Logger.SetLogFile path opens => (k.1, if opens then Some path else None)
  | _ => k
  end.

Definition sinks_after (k : sinks) (evs : list Logger.event) : sinks := foldl sinks_step k evs.

(** The sinks in force at each append. *)
Fixpoint commit_sinks (k : sinks) (evs : list Logger.event) : list sinks :=
  match evs with
  | [] => []
  | ev :: evs =>
      (match ev with Logger.Commit _ => [k] | _ => [] end) ++ commit_sinks (sinks_step k ev) evs
  end.

(** A line written: the thread, the text, and where it went. *)
Record entry := mkEntry { e_tid : string; e_line : string; e_sinks : sinks }.

Definition to_console (es : list entry) : list string :=
  e_line <$> filter (fun e => (e_sinks e).1 = true) es.

Definition to_file (path : string) (es : list entry) : list string :=
  e_line <$> filter (fun e => (e_sinks e).2 = Some path) es.

Definition thread_lines (es : list entry) : list (string * string) :=
  (fun e => (e_tid e, e_line e)) <$> es.

Definition by_thread (tid : string) (ls : list (string * string)) : list string :=
  snd <$> filter (fun x => x.1 = tid) ls.

Lemma by_thread_snoc tid ls x :
  by_thread tid (ls ++ [x]) = by_thread tid ls ++ (if decide (x.1 = tid) then [x.2] else []).
Proof.
  unfold by_thread. rewrite filter_app, fmap_app. f_equal. rewrite filter_cons, filter_nil.
  by case_decide.
Qed.

Lemma level_after_snoc lv evs ev :
  level_after lv (evs ++ [ev]) =
    match ev with Logger.SetLevel lv' => lv' | _ => level_after lv evs end.
Proof. revert lv. induction evs as [|[] evs IH]; intros lv; simpl; [by destruct ev|done..]. Qed.

Lemma requested_snoc lv evs ev :
  requested lv (evs ++ [ev]) = requested lv evs ++
    match ev with
    | Logger.Begin tid lv' m now =>
        if level_num (level_after lv evs) <=? level_num lv'
        then [(tid, Logger.format local_time now tid lv' m)] else []
    | _ => []
    end.
Proof.
  revert lv. induction evs as [|[] evs IH]; intros lv; simpl.
  - by destruct ev.
  - rewrite IH. by destruct (_ <=? _).
  - by rewrite IH.
  - by rewrite IH.
  - by rewrite IH.
  - by rewrite IH.
Qed.

Lemma sinks_after_snoc k evs ev : sinks_after k (evs ++ [ev]) = sinks_step (sinks_after k evs) ev.
Proof. unfold sinks_after. by rewrite foldl_app. Qed.

Lemma commit_sinks_snoc k evs ev :
  commit_sinks k (evs ++ [ev]) = commit_sinks k evs ++
    match ev with Logger.Commit _ => [sinks_after k evs] | _ => [] end.
Proof.
  revert k. induction evs as [|ev0 evs IH]; intros k; simpl.
  - by rewrite app_nil_r.
  - by rewrite IH, app_assoc.
Qed.

Lemma enabled_leb lv l :
  Logger.enabled lv l = (level_num (Logger.level_ l) <=? level_num lv).
Proof. unfold Logger.enabled. by rewrite Z.ltb_antisym, negb_involutive. Qed.

(** What has been written since [l0]. *)
Record logged_inv (l0 : Logger.t) (evs : list Logger.event) (s : Logger.config)
    (es : list entry) : Prop := {
  li_level : Logger.level_ s.1 = level_after (Logger.level_ l0) evs;
  li_sinks : sinks_of s.1 = sinks_after (sinks_of l0) evs;
  li_clog : Logger.clog s.1 = Logger.clog l0 ++ to_console es;
  li_files path : default [] (Logger.files s.1 !! path)
    = default [] (Logger.files l0 !! path) ++ to_file path es;
  li_commits : e_sinks <$> es = commit_sinks (sinks_of l0) evs;
  li_threads tid : by_thread tid (thread_lines es) ++ option_list (s.2 !! tid) =
    by_thread tid (requested (Logger.level_ l0) evs)
}.

Lemma logged_start l0 : logged_inv l0 [] (l0, ∅) [].
Proof.
  split; try done; cbn [fst snd Logger.clog to_console to_file filter fmap list_fmap].
  - by rewrite app_nil_r.
  - intros path. by rewrite app_nil_r.
Qed.

Lemma logged_commit l0 evs l w es tid line :
  logged_inv l0 evs (l, w) es -> w !! tid = Some line ->
  logged_inv l0 (evs ++ [Logger.Commit tid]) (Logger.append line l, delete tid w)
    (es ++ [mkEntry tid line (sinks_of l)]).
Proof.
  intros [Hlv Hk Hcl Hfs Hc Ht] Hw. simpl in *.
  split; cbn [fst snd]; rewrite ?level_after_snoc, ?requested_snoc, ?sinks_after_snoc,
    ?commit_sinks_snoc, ?app_nil_r; try done.
  - cbn [Logger.append Logger.clog]. unfold to_console. rewrite Hcl, filter_app, fmap_app, filter_cons, filter_nil.
    cbn [e_sinks sinks_of fst]. destruct (Logger.console_enabled_ l); simpl;
      by rewrite ?app_nil_r, <- ?app_assoc.
  - intros path. cbn [Logger.append Logger.files]. specialize (Hfs path).
    unfold to_file in *. rewrite filter_app, fmap_app, filter_cons, filter_nil.
    cbn [e_sinks sinks_of snd]. destruct (Logger.file_ l) as [p|].
    + destruct (decide (p = path)) as [->|Hne].
      * rewrite lookup_insert_eq, decide_True by done. simpl. by rewrite Hfs, <- app_assoc.
      * rewrite lookup_insert_ne, decide_False by congruence. by rewrite app_nil_r.
    + rewrite decide_False by done. by rewrite app_nil_r.
  - by rewrite fmap_app, Hc, <- Hk.
  - intros tid'. rewrite <- Ht. unfold thread_lines. rewrite fmap_app.
    rewrite (by_thread_snoc tid' _ (tid, line)). simpl.
    destruct (decide (tid = tid')) as [->|Hne].
    + by rewrite lookup_delete_eq, Hw, app_nil_r.
    + by rewrite lookup_delete_ne, app_nil_r by done.
Qed.

Lemma logged_step l0 evs s es ev s' :
  logged_inv l0 evs s es -> Logger.step local_time s ev s' ->
  exists new, logged_inv l0 (evs ++ [ev]) s' (es ++ new).
Proof.
  intros Hi Hs.
  destruct Hs as [l w tid lv m now Hw He|l w tid lv m now Hw He|l w tid line Hw|l w lv|l w b|l w p op].
  3: { eexists. by apply logged_commit. }
  all: exists []; rewrite app_nil_r; destruct Hi as [Hlv Hk Hcl Hfs Hc Ht]; simpl in *;
    split; cbn [fst snd]; rewrite ?level_after_snoc, ?sinks_after_snoc, ?commit_sinks_snoc, ?app_nil_r;
    try done.
  - intros tid'. rewrite requested_snoc. rewrite enabled_leb, Hlv in He.
    rewrite He, by_thread_snoc, <- Ht. simpl. destruct (decide (tid = tid')) as [->|Hne].
    + by rewrite lookup_insert_eq, Hw, app_nil_r.
    + by rewrite lookup_insert_ne, app_nil_r by done.
  - intros tid'. rewrite requested_snoc, enabled_leb, Hlv in *. by rewrite He, app_nil_r.
  - intros tid'. by rewrite requested_snoc, app_nil_r.
  - unfold sinks_of in *. cbn. by rewrite <- Hk.
  - intros tid'. by rewrite requested_snoc, app_nil_r.
  - by destruct op.
  - unfold sinks_of in *. cbn [sinks_step]. rewrite <- Hk. by destruct op.
  - by destruct op.
  - intros path. rewrite <- Hfs. destruct op; [|done]. cbn.
    destruct (decide (p = path)) as [->|Hne]; [by rewrite lookup_insert_eq|by rewrite lookup_insert_ne].
  - intros tid'. by rewrite requested_snoc, app_nil_r.
Qed.

Lemma logged_run l0 evs s :
  Logger.run local_time (l0, ∅) evs s -> exists es, logged_inv l0 evs s es.
Proof.
  induction 1 as [|evs s1 ev s2 Hr [es IH] Hs].
  - exists []. apply logged_start.
  - destruct (logged_step _ _ _ _ _ _ IH Hs) as [new Hn]. eauto.
Qed.

(** C20 (logging from several threads).  However the threads interleave between
    formatting a line and taking the mutex, and whatever changes of the level, of
    the console and of the file happen meanwhile: what is written is one sequence
    of whole lines, each to the console and to the file that are in force when it
    is written; the console and every file are extended by their part of it and
    nothing else; for each thread the lines are exactly those of its calls at or
    above the level in force, each once and in the order of the calls, except the
    one it is still holding. *)
Theorem logger_interleaving l0 evs l w :
  Logger.run local_time (l0, ∅) evs (l, w) ->
  exists es,
    Logger.clog l = Logger.clog l0 ++ to_console es /\
    (forall path, default [] (Logger.files l !! path)
      = default [] (Logger.files l0 !! path) ++ to_file path es) /\
    e_sinks <$> es = commit_sinks (sinks_of l0) evs /\
    (forall tid, by_thread tid (thread_lines es) ++ option_list (w !! tid) =
      by_thread tid (requested (Logger.level_ l0) evs)).
Proof.
  intros Hr. destruct (logged_run _ _ _ Hr) as [es [_ _ Hcl Hfs Hc Ht]]. by exists es.
Qed.

(** Without changes of the sinks all lines go to the same places. *)
Lemma logger_fixed_sinks l0 evs l w :
  Logger.run local_time (l0, ∅) evs (l, w) ->
  Forall (fun ev => forall k, sinks_step k ev = k) evs ->
  exists lines,
    Logger.clog l = Logger.clog l0 ++ (if Logger.console_enabled_ l0 then snd <$> lines else []) /\
    (forall path, default [] (Logger.files l !! path) = default [] (Logger.files l0 !! path) ++
      (if decide (Logger.file_ l0 = Some path) then snd <$> lines else [])) /\
    (forall tid, by_thread tid lines ++ option_list (w !! tid) =
      by_thread tid (requested (Logger.level_ l0) evs)).
Proof.
  intros Hr Hfix. destruct (logged_run _ _ _ Hr) as [es [_ _ Hcl Hfs Hc Ht]]. cbn [fst snd] in *.
  assert (Hall : Forall (fun e => e_sinks e = sinks_of l0) es).
  { apply Forall_fmap with (f := e_sinks) (P := fun k => k = sinks_of l0). rewrite Hc.
    clear -Hfix. induction Hfix as [|ev evs Hev _ IH]; [done|]. cbn [commit_sinks]. rewrite Hev.
    apply Forall_app. split; [|done]. destruct ev; repeat constructor. }
  assert (Hsnd : snd <$> thread_lines es = e_line <$> es)
    by (unfold thread_lines; by rewrite <- list_fmap_compose).
  exists (thread_lines es). rewrite Hsnd. split_and!; [| |done].
  - rewrite Hcl. f_equal. unfold to_console. clear -Hall.
    induction Hall as [|e es He _ IH]; [by destruct (Logger.console_enabled_ l0)|].
    rewrite filter_cons, He. cbn [sinks_of fst]. destruct (Logger.console_enabled_ l0).
    + rewrite decide_True by done. cbn [fmap list_fmap]. by f_equal.
    + by rewrite decide_False by done.
  - intros path. rewrite Hfs. f_equal. unfold to_file. clear -Hall.
    induction Hall as [|e es He _ IH]; [by case_decide|].
    rewrite filter_cons, He. cbn [sinks_of snd]. case_decide; [|done].
    cbn [fmap list_fmap]. by f_equal.
Qed.

End threads.

(** Two threads; "b" formats its line after "a" but writes first, and a message
    below the level is dropped. *)
Definition demo_time (secs : Z) : string := String.append "T" (Metrics.decimal secs).

Definition demo_logger : Logger.t :=
  snd (Logger.set_log_file "app.log" true (Logger.construct {["app.log" := ["old"]]}))%string.

Definition demo_log_events : list Logger.event :=
  [Logger.Begin "a" ERROR "one" 1005000000; Logger.Begin "b" INFO "two" 1006000000;
   Logger.Commit "b"; Logger.SetLevel ERROR; Logger.EnableConsole false; Logger.Commit "a";
   Logger.Begin "a" WARN "three" 1007000000]%string.

Definition demo_log_end : Logger.t :=
  Logger.enable_console false
    (Logger.set_level ERROR (Logger.append "[T1.006][INFO][tid=b] two" demo_logger)).

Lemma demo_log_run :
  Logger.run demo_time (demo_logger, ∅) demo_log_events
    (Logger.append "[T1.005][ERROR][tid=a] one" demo_log_end, ∅).
Proof.
  assert (E : demo_log_events = (((((([] ++ [Logger.Begin "a" ERROR "one" 1005000000]) ++
    [Logger.Begin "b" INFO "two" 1006000000]) ++ [Logger.Commit "b"]) ++ [Logger.SetLevel ERROR]) ++
    [Logger.EnableConsole false]) ++
    [Logger.Commit "a"]) ++ [Logger.Begin "a" WARN "three" 1007000000]) by reflexivity.
  rewrite E. clear E. repeat eapply Logger.run_snoc; [apply Logger.run_nil| | | | | | |].
  - by apply Logger.step_begin.
  - by apply Logger.step_begin.
  - by apply Logger.step_commit.
  - apply Logger.step_level.
  - apply Logger.step_console.
  - by apply Logger.step_commit.
  - by apply Logger.step_skip.
Qed.

Lemma logger_interleaving_witness :
  exists es,
    Logger.clog (Logger.append "[T1.005][ERROR][tid=a] one" demo_log_end) = [] ++ to_console es /\
    e_sinks <$> es = [(true, Some "app.log"%string); (false, Some "app.log"%string)] /\
    forall tid, by_thread tid (thread_lines es)
      = by_thread tid (requested demo_time INFO demo_log_events).
Proof.
  destruct (logger_interleaving demo_time demo_logger demo_log_events
    (Logger.append "[T1.005][ERROR][tid=a] one" demo_log_end) ∅ demo_log_run)
    as (es & H1 & _ & H2 & H3).
  exists es. split; [exact H1|]. split; [exact H2|]. intros tid. specialize (H3 tid).
  rewrite lookup_empty in H3. simpl in H3. rewrite app_nil_r in H3. exact H3.
Defined.

(** The lines of different threads need not be in the order of their time stamps. *)
Example log_order_differs :
  Logger.files (Logger.append "[T1.005][ERROR][tid=a] one" demo_log_end) !! "app.log"%string
  = Some ["old"; "[T1.006][INFO][tid=b] two"; "[T1.005][ERROR][tid=a] one"]%string.
Proof. reflexivity. Qed.
