(* ===== verification/Config.v ===== *)
(** * Config: reading the programs' configuration from the environment

    Models the functions [env_or_default], [env_u16], [env_int] and [env_bool] of
    [src/engine/main.cpp] and [src/generator/main.cpp], with the part of
    [std::from_chars] they use.  [getenv] is a parameter.  A function returns its
    value and the arguments of the [Logger::log] calls it makes. *)

From Stdlib Require Import ZArith Lia String Ascii Decimal DecimalString DecimalZ.
From stdpp Require Import base numbers list option strings.
From S2P Require Import Prelude Metrics Logger.

Local Open Scope Z_scope.

Definition log_calls : Type := list (Level * string).

(** ** [std::from_chars], base ten *)

Inductive errc := NoError | InvalidArgument | ResultOutOfRange.

#[global] Instance errc_eq_dec : EqDecision errc.
Proof. solve_decision. Defined.

Definition digit_of (c : ascii) : option Z :=
  let n := Z.of_N (N_of_ascii c) in
  if (48 <=? n) && (n <=? 57) then Some (n - 48) else None.

(** The longest prefix of digits, and the rest. *)
Fixpoint span_digits (s : string) : list Z * string :=
  match s with
  | EmptyString => ([], EmptyString)
  | String c s' =>
      match digit_of c with
      | None => ([], s)
      | Some d => let '(ds, rest) := span_digits s' in (d :: ds, rest)
      end
  end.

Definition digits_value (ds : list Z) : Z := foldl (fun acc d => 10 * acc + d) 0 ds.

(** The text from [ptr] on, [ec] and the parsed variable, which keeps its value
    on an error. *)
Definition from_chars_unsigned (w : Z) (first : string) (value : Z) : string * errc * Z :=
  let '(ds, rest) := span_digits first in
  match ds with
  | [] => (first, InvalidArgument, value)
  | _ => if digits_value ds <? 2 ^ w then (rest, NoError, digits_value ds)
         else (rest, ResultOutOfRange, value)
  end.

Definition from_chars_signed (w : Z) (first : string) (value : Z) : string * errc * Z :=
  let '(neg, digits) :=
    match first with
    | String c s => if Ascii.eqb c "-" then (true, s) else (false, first)
    | EmptyString => (false, first)
    end in
  let '(ds, rest) := span_digits digits in
  match ds with
  | [] => (first, InvalidArgument, value)
  | _ =>
      let v := if neg : bool then - digits_value ds else digits_value ds in
      if (- 2 ^ (w - 1) <=? v) && (v <? 2 ^ (w - 1)) then (rest, NoError, v)
      else (rest, ResultOutOfRange, value)
  end.

(** ** The readers *)

Section readers.
Context (getenv : string -> option string).

(** [value != nullptr && value[0] != '\0']. *)
Definition env_value (name : string) : option string :=
  match getenv name with
  | Some (String c s) => Some (String c s)
  | _ => None
  end.

Definition env_or_default (name fallback : string) : string := default fallback (env_value name).

Definition invalid_value (name value fallback : string) : Level * string :=
  (ERROR, String.concat "" ["Invalid value for "; name; ": "; value; "; using default "; fallback]%string).

Definition env_u16 (name : string) (fallback : Z) : Z * log_calls :=
  match env_value name with
  | None => (fallback, [])
  | Some value =>
      let '(rest, ec, parsed) := from_chars_unsigned 32 value 0 in
      if decide (ec = NoError /\ rest = EmptyString) then
        if parsed <=? 65535 then (u16 parsed, [])
        else (fallback, [invalid_value name value (Metrics.decimal fallback)])
      else (fallback, [invalid_value name value (Metrics.decimal fallback)])
  end.

Definition env_int (name : string) (fallback : Z) : Z * log_calls :=
  match env_value name with
  | None => (fallback, [])
  | Some value =>
      let '(rest, ec, parsed) := from_chars_signed 32 value 0 in
      if decide (ec = NoError /\ rest = EmptyString) then (parsed, [])
      else (fallback, [invalid_value name value (Metrics.decimal fallback)])
  end.

(** [std::tolower] in the C locale. *)
Definition tolower (c : ascii) : ascii :=
  let n := N_of_ascii c in
  if ((65 <=? n) && (n <=? 90))%N then ascii_of_N (n + 32) else c.

Fixpoint lower (s : string) : string :=
  match s with EmptyString => EmptyString | String c s => String (tolower c) (lower s) end.

Definition env_bool (name : string) (fallback : bool) : bool * log_calls :=
  match env_value name with
  | None => (fallback, [])
  | Some value =>
      let parsed := lower value in
      if decide (parsed ∈ ["1"; "true"; "yes"; "on"]%string) then (true, [])
      else if decide (parsed ∈ ["0"; "false"; "no"; "off"]%string) then (false, [])
      else (fallback, [invalid_value name value (if fallback then "true" else "false")%string])
  end.

End readers.

(** ** Digit strings *)

(** [s] is a number in decimal digits, nothing else, and its value. *)
Definition numeral (s : string) : option Z :=
  match span_digits s with
  | (d :: ds, EmptyString) => Some (digits_value (d :: ds))
  | _ => None
  end.

(** An optional minus sign in front. *)
Definition signed_numeral (s : string) : option Z :=
  match s with
  | String "-" s' => Z.opp <$> numeral s'
  | _ => numeral s
  end.

Lemma digit_of_range c d : digit_of c = Some d -> 0 <= d <= 9.
Proof.
  unfold digit_of. destruct (_ && _) eqn:E; [|done]. intros [= <-].
  apply andb_true_iff in E as [H1%Z.leb_le H2%Z.leb_le]. lia.
Qed.

Lemma span_digits_range s : Forall (fun d => 0 <= d <= 9) (span_digits s).1.
Proof.
  induction s as [|c s IH]; simpl; [constructor|]. destruct (digit_of c) as [d|] eqn:E; [|constructor].
  destruct (span_digits s) as [ds rest]. simpl in *. constructor; [by eapply digit_of_range|done].
Qed.

Lemma digits_value_nonneg ds : Forall (fun d => 0 <= d <= 9) ds -> 0 <= digits_value ds.
Proof.
  unfold digits_value. intros Hd. assert (Hgen : forall acc, 0 <= acc -> 0 <= foldl (fun acc d => 10 * acc + d) acc ds).
  { induction Hd as [|d ds Hd _ IH]; intros acc Ha; simpl; [done|]. apply IH. lia. }
  by apply Hgen.
Qed.

Lemma numeral_nonneg s v : numeral s = Some v -> 0 <= v.
Proof.
  unfold numeral. pose proof (span_digits_range s) as Hr. destruct (span_digits s) as [[|d ds] [|]]; try done.
  intros [= <-]. by apply digits_value_nonneg.
Qed.

(** ** What the readers accept *)

Lemma env_u16_value getenv name fallback value :
  env_value getenv name = Some value ->
  env_u16 getenv name fallback =
    match numeral value with
    | Some v => if v <=? 65535 then (v, [])
                else (fallback, [invalid_value name value (Metrics.decimal fallback)])
    | None => (fallback, [invalid_value name value (Metrics.decimal fallback)])
    end.
Proof.
  intros Hv. unfold env_u16, from_chars_unsigned, numeral. rewrite Hv.
  pose proof (span_digits_range value) as Hr.
  destruct (span_digits value) as [[|d ds] rest]; [by rewrite decide_False by (by intros [])|].
  pose proof (digits_value_nonneg _ Hr) as Hpos. cbn [fst] in Hpos. set (v := digits_value (d :: ds)) in *.
  destruct (Z.ltb_spec v (2 ^ 32)) as [Hlt|Hge].
  - destruct rest; [|by rewrite decide_False by (by intros [])]. rewrite decide_True by done.
    destruct (Z.leb_spec v 65535); [|done]. by rewrite wrapu_small by (unfold is_u; lia).
  - rewrite decide_False by (by intros []). destruct rest; [|done].
    by rewrite (proj2 (Z.leb_gt v 65535)) by lia.
Qed.

Lemma env_int_value getenv name fallback value :
  env_value getenv name = Some value ->
  env_int getenv name fallback =
    match signed_numeral value with
    | Some v => if (- 2 ^ 31 <=? v) && (v <? 2 ^ 31) then (v, [])
                else (fallback, [invalid_value name value (Metrics.decimal fallback)])
    | None => (fallback, [invalid_value name value (Metrics.decimal fallback)])
    end.
Proof.
  intros Hv. unfold env_int, from_chars_signed. rewrite Hv. clear Hv.
  set (bad := (fallback, _)).
  assert (Hgen : forall (neg : bool) digits first,
    (let '(rest, ec, parsed) :=
       let '(ds, rest) := span_digits digits in
       match ds with
       | [] => (first, InvalidArgument, 0)
       | _ => let v := if neg then - digits_value ds else digits_value ds in
              if (- 2 ^ (32 - 1) <=? v) && (v <? 2 ^ (32 - 1)) then (rest, NoError, v)
              else (rest, ResultOutOfRange, 0)
       end in
     if decide (ec = NoError /\ rest = EmptyString) then (parsed, []) else bad) =
    match (if neg then Z.opp <$> numeral digits else numeral digits) with
    | Some v => if (- 2 ^ 31 <=? v) && (v <? 2 ^ 31) then (v, []) else bad
    | None => bad
    end).
  { intros neg digits first. unfold numeral.
    destruct (span_digits digits) as [[|d ds] rest]; [rewrite decide_False by (by intros []); by destruct neg|].
    set (v := digits_value (d :: ds)). change (32 - 1) with 31.
    destruct rest as [|c rest].
    - destruct neg; cbn [fmap option_fmap option_map];
        destruct (_ && _); [by rewrite decide_True|by rewrite decide_False by (by intros [])|
          by rewrite decide_True|by rewrite decide_False by (by intros [])].
    - destruct (_ && _), neg; by rewrite decide_False by (by intros []). }
  destruct value as [|c s]; [by apply (Hgen false)|].
  destruct (Ascii.eqb_spec c "-") as [->|Hne]; [by apply (Hgen true)|].
  unfold signed_numeral. rewrite (Hgen false).
  replace (match c with "-"%char => Z.opp <$> numeral s | _ => numeral (String c s) end)
    with (numeral (String c s)); [done|].
  destruct c as [[] [] [] [] [] [] [] []]; done.
Qed.

(** ** Printing *)

(** The digits of a [Decimal.uint]. *)
Fixpoint uint_digits (d : Decimal.uint) : list Z :=
  match d with
  | Nil => []
  | D0 d => 0 :: uint_digits d | D1 d => 1 :: uint_digits d | D2 d => 2 :: uint_digits d
  | D3 d => 3 :: uint_digits d | D4 d => 4 :: uint_digits d | D5 d => 5 :: uint_digits d
  | D6 d => 6 :: uint_digits d | D7 d => 7 :: uint_digits d | D8 d => 8 :: uint_digits d
  | D9 d => 9 :: uint_digits d
  end.

Lemma span_digits_uint d : span_digits (NilEmpty.string_of_uint d) = (uint_digits d, EmptyString).
Proof. induction d as [|d IH|d IH|d IH|d IH|d IH|d IH|d IH|d IH|d IH|d IH]; cbn; by rewrite ?IH. Qed.

Lemma of_uint_acc_digits d p :
  Z.pos (Pos.of_uint_acc d p) = foldl (fun acc d => 10 * acc + d) (Z.pos p) (uint_digits d).
Proof.
  revert p. induction d as [|d IH|d IH|d IH|d IH|d IH|d IH|d IH|d IH|d IH|d IH]; intros p;
    cbn [Pos.of_uint_acc uint_digits foldl]; rewrite ?IH; do 2 (f_equal; try lia).
Qed.

Lemma digits_value_uint d : digits_value (uint_digits d) = Z.of_uint d.
Proof.
  unfold digits_value, Z.of_uint. induction d as [|d IH|d _|d _|d _|d _|d _|d _|d _|d _|d _];
    cbn [uint_digits foldl Pos.of_uint Z.of_N]; [done|exact IH|by rewrite of_uint_acc_digits..].
Qed.

Lemma numeral_uint d : numeral (NilZero.string_of_uint d) = Some (Z.of_uint d).
Proof.
  unfold numeral. destruct d; [done|..]; unfold NilZero.string_of_uint; rewrite span_digits_uint;
    cbn [uint_digits]; by rewrite <- digits_value_uint.
Qed.

(** A digit is not a minus sign. *)
Lemma signed_numeral_plain s v : numeral s = Some v -> signed_numeral s = Some v.
Proof.
  intros Hn. destruct s as [|c s]; [done|]. unfold signed_numeral.
  destruct c as [[] [] [] [] [] [] [] []]; try exact Hn. done.
Qed.

Lemma signed_numeral_decimal z : signed_numeral (Metrics.decimal z) = Some z.
Proof.
  unfold Metrics.decimal. rewrite <- (DecimalZ.of_to z) at 2. destruct (Z.to_int z) as [d|d].
  - apply signed_numeral_plain, numeral_uint.
  - cbn [NilZero.string_of_int signed_numeral]. by rewrite numeral_uint.
Qed.

Lemma decimal_value getenv name z :
  getenv name = Some (Metrics.decimal z) -> env_value getenv name = Some (Metrics.decimal z).
Proof.
  intros Hg. unfold env_value. rewrite Hg. pose proof (signed_numeral_decimal z) as Hs.
  by destruct (Metrics.decimal z).
Qed.

Lemma numeral_decimal z : 0 <= z -> numeral (Metrics.decimal z) = Some z.
Proof.
  intros Hz. unfold Metrics.decimal. rewrite <- (DecimalZ.of_to z) at 2.
  destruct z as [|p|p]; [done| |lia]. apply numeral_uint.
Qed.

Lemma numeral_decimal_neg z : z < 0 -> numeral (Metrics.decimal z) = None.
Proof. intros Hz. by destruct z as [|p|p]; [lia|lia|]. Qed.

(** C18 (16-bit settings).  [env_u16] accepts exactly the nonempty strings of
    decimal digits with a value of at most 65535, with that value; an unset or
    empty variable gives the default silently, and anything else (a sign, spaces,
    trailing text, a value that does not fit, however long) gives the default and
    one error line.  So the result is always a 16-bit value: nothing is cut or
    wrapped. *)
Theorem env_u16_exact getenv name fallback :
  0 <= fallback <= 65535 ->
  0 <= (env_u16 getenv name fallback).1 <= 65535 /\
  env_u16 getenv name fallback =
    match env_value getenv name with
    | None => (fallback, [])
    | Some value =>
        match numeral value with
        | Some v => if v <=? 65535 then (v, [])
                    else (fallback, [invalid_value name value (Metrics.decimal fallback)])
        | None => (fallback, [invalid_value name value (Metrics.decimal fallback)])
        end
    end.
Proof.
  intros Hf. destruct (env_value getenv name) as [value|] eqn:Hv; [|by unfold env_u16; rewrite Hv].
  rewrite (env_u16_value _ _ _ _ Hv). split; [|done].
  destruct (numeral value) as [v|] eqn:Hn; [|done]. apply numeral_nonneg in Hn.
  destruct (Z.leb_spec v 65535); simpl; lia.
Qed.

(** C21 (settings round trip).  A variable that holds the decimal form of a number,
    as the programs print it, is read back as that number when it fits the
    setting's type ([uint16_t] or [int], the extremes included), and otherwise is
    reported and replaced by the default; it is never cut to the type's width. *)
Theorem env_roundtrip getenv name z fallback :
  getenv name = Some (Metrics.decimal z) ->
  let bad := (fallback, [invalid_value name (Metrics.decimal z) (Metrics.decimal fallback)]) in
  env_int getenv name fallback = (if decide (- 2 ^ 31 <= z < 2 ^ 31) then (z, []) else bad) /\
  env_u16 getenv name fallback = (if decide (0 <= z <= 65535) then (z, []) else bad).
Proof.
  intros Hg. apply decimal_value in Hg as Hv. cbv zeta. split.
  - rewrite (env_int_value _ _ _ _ Hv), signed_numeral_decimal.
    destruct (Z.leb_spec (- 2 ^ 31) z), (Z.ltb_spec z (2 ^ 31)); cbn [andb]; case_decide; done || lia.
  - rewrite (env_u16_value _ _ _ _ Hv). destruct (Z.ltb_spec z 0) as [Hz|Hz].
    + rewrite numeral_decimal_neg, decide_False by lia. done.
    + rewrite numeral_decimal by lia. destruct (Z.leb_spec z 65535); case_decide; done || lia.
Qed.

(** The spelling of a flag does not depend on the case of its letters. *)
Lemma env_bool_case getenv1 getenv2 name fallback v1 v2 :
  env_value getenv1 name = Some v1 -> env_value getenv2 name = Some v2 -> lower v1 = lower v2 ->
  (env_bool getenv1 name fallback).1 = (env_bool getenv2 name fallback).1.
Proof.
  intros H1 H2 He. unfold env_bool. rewrite H1, H2, He. by repeat case_decide.
Qed.

Definition demo_getenv (name : string) : option string :=
  if decide (name = "PORT"%string) then Some "65535"%string
  else if decide (name = "MIN"%string) then Some "-2147483648"%string
  else if decide (name = "FLAG"%string) then Some "Yes"%string
  else if decide (name = "BIG"%string) then Some "65536"%string else None.

Lemma env_u16_exact_witness :
  env_u16 demo_getenv "PORT" 8888 = (65535, []) /\
  (env_u16 demo_getenv "BIG" 8888).1 = 8888.
Proof.
  split.
  - exact (proj2 (env_u16_exact demo_getenv "PORT" 8888 ltac:(lia))).
  - rewrite (proj2 (env_u16_exact demo_getenv "BIG" 8888 ltac:(lia))). vm_compute. reflexivity.
Defined.

Lemma env_roundtrip_witness : env_int demo_getenv "MIN" 7 = (-2147483648, []).
Proof.
  pose proof (env_roundtrip demo_getenv "MIN" (-2147483648) 7 ltac:(reflexivity)) as [H _].
  rewrite decide_True in H by lia. exact H.
Defined.

Example sample_flags :
  env_bool demo_getenv "FLAG" false = (true, []) /\ env_bool demo_getenv "PORT" false
  = (false, [(ERROR, "Invalid value for PORT: 65535; using default false"%string)]).
Proof. split; vm_compute; reflexivity. Qed.
