(* ===== verification/Programs.v ===== *)
(** * Programs: the two [main] functions

    Models [src/engine/main.cpp] and [src/generator/main.cpp]: the configuration
    read from the environment, the engine v3 over its DPDK source, and the
    generator v2 over the system-call interface.  Whether the log file opens and
    whether the signal handlers can be installed are answers of the environment;
    the calls made to the logger are part of the result. *)

From Stdlib Require Import ZArith Lia String.
From stdpp Require Import base numbers list option gmap sets strings.
From S2P Require Import Prelude Wire Metrics Packet EngineV3 Dpdk Os Sender Generator Logger Config.

Local Open Scope Z_scope.

Inductive logger_call := SetLogFile (path : string) | SetLevel (l : Level) | Log (l : Level) (msg : string).

(** The log lines of the readers. *)
Definition logs (ls : log_calls) : list logger_call := (fun x => Log x.1 x.2) <$> ls.

Definition cat (xs : list string) : string := String.concat "" xs.

Definition bool_name (b : bool) : string := if b then "true" else "false".

Module EngineMain.
Section main.
Context {W : Type} `{DpdkLib W} (getenv : string -> option string).

(** How the process ends; [Exit] carries the engine, which points to its source,
    if it was constructed. *)
Inductive result :=
  | Crash
  | Running (e : EngineV3.t (DpdkRxSource.t W))
  | Exit (code : Z) (log : list logger_call) (e : option (EngineV3.t (DpdkRxSource.t W))).

(** [engine_cfg] and [cfg]. *)
Definition engine_config : EngineV3.Config * log_calls :=
  let '(udp_dst_port, l1) := env_u16 getenv "MD_ENGINE_UDP_PORT" 8888 in
  let '(log_each_packet, l2) := env_bool getenv "MD_ENGINE_LOG_EACH_PACKET" false in
  (EngineV3.mkConfig 32 udp_dst_port log_each_packet true, l1 ++ l2).

Definition source_config : DpdkRxSource.Config * log_calls :=
  let '(port_id, l1) := env_u16 getenv "MD_ENGINE_DPDK_PORT_ID" 0 in
  let '(queue_id, l2) := env_u16 getenv "MD_ENGINE_DPDK_QUEUE_ID" 0 in
  (DpdkRxSource.mkConfig port_id queue_id 1024 8192 256 (-1) true "md_engine_rx", l1 ++ l2).

(** The part of [main] with the engine constructed.  [signals]: the value of
    [g_stop_signal] at each test of the engine's loop, [last] its value after. *)
Definition serve (o : byte_order) (signals : list Z) (last : Z) (log : list logger_call)
    (e : EngineV3.t (DpdkRxSource.t W)) (cfg : DpdkRxSource.Config) (w : W) : result :=
  let rx_source := DpdkRxSource.create cfg w in
  let '(attached, e) := EngineV3.attach rx_source e in
  if negb attached then Exit 1 (log ++ [Log ERROR "Failed to attach v3 DPDK RX source"]) (Some e) else
  let '(opened, rx_source) := DpdkRxSource.open rx_source in
  let e := EngineV3.set_source e rx_source in
  let port := Metrics.decimal (DpdkRxSource.port_id cfg) in
  let queue := Metrics.decimal (DpdkRxSource.queue_id cfg) in
  if negb opened then
    Exit 1 (log ++ [Log ERROR (cat ["Failed to start engine DPDK receiver on port "; port; " queue "; queue])])
      (Some e) else
  let log := log ++ [Log INFO (cat ["Engine DPDK receiver is running on port "; port; " queue "; queue;
    " udp_dst_port "; Metrics.decimal (EngineV3.udp_dst_port (EngineV3.cfg_ e));
    " log_each_packet "; bool_name (EngineV3.log_each_packet (EngineV3.cfg_ e))])] in
  match EngineV3.run o (EngineV3.mkInterference false <$> signals) e with
  | EngineV3.RunFault => Crash
  | EngineV3.StillRunning rs e => Running (EngineV3.set_source e rs)
  | EngineV3.Returned ok e =>
      if negb ok then Exit 1 (log ++ [Log ERROR "Engine v3 run loop exited with failure"]) (Some e) else
      let log := if negb (last =? 0)
        then log ++ [Log INFO (cat ["Termination signal received: "; Metrics.decimal last])] else log in
      Exit 0 (log ++ [Log INFO "Engine stopped!!!"]) (Some e)
  end.

Definition main (o : byte_order) (argc : Z) (log_opens sigint_ok sigterm_ok : bool)
    (signals : list Z) (last : Z) (w : W) : result :=
  let log := [SetLogFile "engine_app.log"] in
  if negb log_opens then
    Exit 1 (log ++ [Log ERROR "Failed to open engine_app.log for writing"]) None else
  let log := log ++ [SetLevel DEBUG; Log INFO "<======== Engine ========>"] in
  if negb sigint_ok || negb sigterm_ok then
    Exit 1 (log ++ [Log ERROR "Failed to install signal handlers for engine shutdown"]) None else
  let '(eal, w) := DpdkRxSource.init_eal argc w in
  if negb eal then Exit 1 (log ++ [Log ERROR "Failed to initialize DPDK for engine v3"]) None else
  let '(engine_cfg, l1) := engine_config in
  let '(cfg, l2) := source_config in
  serve o signals last (log ++ logs l1 ++ logs l2) (EngineV3.construct engine_cfg) cfg w.

End main.
#[global] Arguments result W : clear implicits.
End EngineMain.

Module GeneratorMain.
Section main.
Context `{Kernel} (getenv : string -> option string) (o : byte_order) (fuel : nat).

(** [SignedOverflow]: [rate * duration_s] is not an [int]; the program has no
    defined behaviour from there. *)
Inductive result := SignedOverflow | Exit (code : Z) (log : list logger_call).

Definition sender_config : Sender.Config * log_calls :=
  let local_ip := env_or_default getenv "MD_GENERATOR_LOCAL_IP" "0.0.0.0" in
  let '(local_port, l1) := env_u16 getenv "MD_GENERATOR_LOCAL_PORT" 0 in
  let remote_ip := env_or_default getenv "MD_GENERATOR_REMOTE_IP" "127.0.0.1" in
  let '(remote_port, l2) := env_u16 getenv "MD_GENERATOR_REMOTE_PORT" 8888 in
  let '(sndbuf_bytes, l3) := env_int getenv "MD_GENERATOR_SNDBUF_BYTES" (4 * 1024 * 1024) in
  (Sender.mkConfig (Some local_ip) local_port (Some remote_ip) remote_port sndbuf_bytes true, l1 ++ l2 ++ l3).

(** The arguments of [run]. *)
Record plan := mkPlan {
  rate : Z; duration_s : Z; count : Z; seed : Z; gap_mod : Z; gap_span : Z; burst_size : Z
}.

Definition int_ok (z : Z) : bool := (- 2 ^ 31 <=? z) && (z <? 2 ^ 31).

(** [None]: the default count overflows; it is computed whether or not it is
    used. *)
Definition run_plan : option (plan * log_calls) :=
  let '(rate, l1) := env_int getenv "MD_GENERATOR_RATE" 50000 in
  let '(duration_s, l2) := env_int getenv "MD_GENERATOR_DURATION_S" 600 in
  let default_count := if 0 <? rate then rate * duration_s else 100000 in
  if negb (int_ok default_count) then None else
  let '(count, l3) := env_int getenv "MD_GENERATOR_COUNT" default_count in
  let '(seed, l4) := env_int getenv "MD_GENERATOR_SEED" 42 in
  let '(gap_mod, l5) := env_int getenv "MD_GENERATOR_GAP_MOD" 1000 in
  let '(gap_span, l6) := env_int getenv "MD_GENERATOR_GAP_SPAN" 1 in
  let '(burst_size, l7) := env_int getenv "MD_GENERATOR_BURST_SIZE" 1 in
  Some (mkPlan rate duration_s count seed gap_mod gap_span burst_size,
        l1 ++ l2 ++ l3 ++ l4 ++ l5 ++ l6 ++ l7).

Definition text (s : option string) : string := default EmptyString s.

(** [return code]: [gen] goes out of scope. *)
Definition leave (code : Z) (log : list logger_call) (gen : GeneratorV2.t) : M result :=
  _ ← GeneratorV2.destroy gen; mret (Exit code log).

Definition main (log_opens : bool) : M result :=
  let log := [SetLogFile "generator_app.log"] in
  if negb log_opens then
    mret (Exit 1 (log ++ [Log ERROR "Failed to open generator_app.log for writing"])) else
  let log := log ++ [SetLevel DEBUG; Log INFO "<======== Generator ========>"] in
  let '(cfg, l1) := sender_config in
  let log := log ++ logs l1 in
  '(connected, gen) ← GeneratorV2.open cfg GeneratorV2.construct;
  let destination :=
    [text (Sender.remote_ip cfg); ":"%string; Metrics.decimal (Sender.remote_port cfg)] in
  if negb connected then
    leave 1 (log ++ [Log ERROR (cat ("Failed to configure UDP destination "%string :: destination))]) gen else
  let log := log ++
    [Log INFO (cat ["Generator local bind: "; text (Sender.local_ip cfg); ":";
       Metrics.decimal (Sender.local_port cfg)]%string);
     Log INFO (cat ("UDP destination configured: "%string :: destination))] in
  match run_plan with
  | None => mret SignedOverflow
  | Some (p, l2) =>
      let log := log ++ logs l2 ++
        [Log INFO (cat ["Generator config rate="; Metrics.decimal (rate p);
           " duration_s="; Metrics.decimal (duration_s p); " count="; Metrics.decimal (count p);
           " burst_size="; Metrics.decimal (burst_size p);
           " sndbuf_bytes="; Metrics.decimal (Sender.sndbuf_bytes cfg)]%string)] in
      '(res, gen) ← GeneratorV2.run o fuel (count p) (rate p) (seed p) (gap_mod p) (gap_span p)
                      (burst_size p) gen;
      match res with
      | GeneratorV2.Ok => leave 0 (log ++ [Log INFO "<========== END ==========>"]) gen
      | _ => leave 1 (log ++ [Log ERROR "Generator run failed"]) gen
      end
  end.

End main.
End GeneratorMain.

(** ** The engine program *)

Section engine_main.
Context {W : Type} `{DpdkLibOk W}.

(** An open source stays as it is when opened again. *)
Lemma open_again (s : DpdkRxSource.t W) :
  DpdkRxSource.is_open_ s = true -> DpdkRxSource.open s = (true, s).
Proof. intros Ho. unfold DpdkRxSource.open. by rewrite Ho. Qed.

Lemma signals_stop cfg signals k sig :
  EngineV3.has_stop_signal_flag cfg = true ->
  list_find (fun x => x <> 0) signals = Some (k, sig) ->
  list_find (stops cfg) (EngineV3.mkInterference false <$> signals)
  = Some (k, EngineV3.mkInterference false sig).
Proof.
  intros Hf. revert k. induction signals as [|x xs IH]; intros k; cbn [list_find fmap list_fmap]; [done|].
  case_decide as Hx.
  - intros [= <- <-]. by rewrite decide_True by (by right).
  - rewrite decide_False by (unfold stops; simpl; naive_solver). intros Hk.
    apply fmap_Some in Hk as ([k' y] & Hk & [= -> ->]). by rewrite (IH _ Hk).
Qed.

Lemma serve_spec o signals last log e cfg (w : W) k sig :
  EngineV3.rx_source_ e = None -> EngineV3.stop_requested_ e = false ->
  EngineV3.has_stop_signal_flag (EngineV3.cfg_ e) = true -> 0 <= EngineV3.burst_size (EngineV3.cfg_ e) ->
  list_find (fun x => x <> 0) signals = Some (k, sig) ->
  exists log' e' s', EngineMain.serve o signals last log e cfg w
    = EngineMain.Exit (if (DpdkRxSource.open (DpdkRxSource.create cfg w)).1 then 0 else 1) log' (Some e') /\
    EngineV3.rx_source_ e' = Some s' /\ released s'.
Proof.
  intros Hnone Hstop Hflag Hb Hsig. unfold EngineMain.serve, EngineV3.attach. rewrite Hnone. cbn [negb].
  set (s := DpdkRxSource.create cfg w).
  assert (Hi0 : rx_inv s) by done. assert (Hout0 : rx_outstanding s = []) by done.
  pose proof (rx_open_law s Hi0 Hout0) as Ho. cbn [rx_open DpdkRxSource_RxSource] in Ho.
  destruct (DpdkRxSource.open s) as [opened s1]. destruct Ho as (Hi1 & Ho1 & Hout1).
  destruct opened; cbn [negb fst].
  2: { eexists _, _, s1. split_and!; [done|done|by apply closed_released]. }
  set (e1 := EngineV3.set_source _ s1).
  destruct (run_releases o (EngineV3.mkInterference false <$> signals) s1 e1 k
    (EngineV3.mkInterference false sig)) as (e' & s' & Hr & Hs' & Hrel); try done.
  { by apply signals_stop. }
  rewrite Hr, (open_again s1) by done. cbn [fst negb]. eauto 10.
Qed.

(** C11 (the engine program).  For any environment variables, any behaviour of
    DPDK within its documentation and any schedule that delivers a signal while
    the loop runs, [main] ends: with 0 exactly when the log file opened, both
    signal handlers were installed, the EAL found a port and the receiver opened
    with the configured port and queue, and with 1 otherwise.  Whatever the exit,
    no frame is read out of bounds, and every DPDK resource acquired by the
    source was released in the order DPDK requires; opening the source both in
    [main] and in [run] acquires it once. *)
Theorem engine_main_session getenv o argc log_opens sigint_ok sigterm_ok signals last (w : W) k sig :
  list_find (fun x => x <> 0) signals = Some (k, sig) ->
  let '(eal, w1) := DpdkRxSource.init_eal argc w in
  let ready := log_opens && sigint_ok && sigterm_ok && eal &&
    (DpdkRxSource.open (DpdkRxSource.create (EngineMain.source_config getenv).1 w1)).1 in
  exists log e,
    EngineMain.main getenv o argc log_opens sigint_ok sigterm_ok signals last w
      = EngineMain.Exit (if ready then 0 else 1) log e /\
    forall s, e ≫= EngineV3.rx_source_ = Some s -> released s.
Proof.
  intros Hsig. unfold EngineMain.main. destruct (DpdkRxSource.init_eal argc w) as [eal w1].
  destruct log_opens; cbn [negb andb]; [|by eexists _, None].
  destruct sigint_ok; cbn [negb andb orb]; [|by eexists _, None].
  destruct sigterm_ok; cbn [negb andb]; [|by eexists _, None].
  destruct eal; cbn [negb andb]; [|by eexists _, None].
  destruct (EngineMain.engine_config getenv) as [ecfg l1] eqn:Hec.
  destruct (EngineMain.source_config getenv) as [cfg l2]. cbn [fst].
  assert (Hc : EngineV3.has_stop_signal_flag ecfg = true /\ EngineV3.burst_size ecfg = 32).
  { unfold EngineMain.engine_config in Hec. destruct (env_u16 _ _ _), (env_bool _ _ _). by simplify_eq. }
  destruct Hc as [Hc1 Hc2].
  edestruct (serve_spec o signals last) as (log' & e' & s' & -> & Hs' & Hrel); [..|exact Hsig|].
  - done.
  - done.
  - done.
  - simpl. lia.
  - eexists _, (Some e'). split; [done|]. simpl. rewrite Hs'. by intros s [= <-].
Qed.

End engine_main.

Definition demo_env_vars (name : string) : option string :=
  if decide (name = "MD_ENGINE_UDP_PORT"%string) then Some "8888"%string
  else if decide (name = "MD_GENERATOR_COUNT"%string) then Some "20"%string
  else if decide (name = "MD_GENERATOR_GAP_MOD"%string) then Some "3"%string
  else if decide (name = "MD_GENERATOR_BURST_SIZE"%string) then Some "8"%string else None.

Lemma engine_main_session_witness :
  exists log e, EngineMain.main demo_env_vars little_endian 1 true true true [0; 0; 15] 15
    [[(5, 100); (6, 101)]; [(9, 100)]] = EngineMain.Exit 0 log e /\
    forall s, e ≫= EngineV3.rx_source_ = Some s -> released s.
Proof.
  exact (engine_main_session demo_env_vars little_endian 1 true true true [0; 0; 15] 15
    [[(5, 100); (6, 101)]; [(9, 100)]] 2 15 ltac:(reflexivity)).
Defined.

(** ** The generator program *)

Section generator_main.
Context {P : nat} `{KernelOk P} (getenv : string -> option string).

(** The message slots the configuration asks for. *)
Definition planned (p : GeneratorMain.plan) : list (option MarketDataMsg) :=
  (slots (Z.to_nat (GeneratorMain.count p)) (GeneratorMain.gap_mod p) (GeneratorMain.gap_span p)
    (seeded (GeneratorMain.seed p) (mkGen 1 1 0))).1.

(** What a finished program leaves: no descriptor of its own, and the first [k]
    planned messages sent; all of them when it reports success. *)
Definition main_post (L : gset Z) (xs : list (option MarketDataMsg)) (h : history)
    (res : GeneratorMain.result) (h' : history) : Prop :=
  exists code log k, res = GeneratorMain.Exit code log /\ live h' = Some L /\
    (k <= length (wire xs))%nat /\ datagrams h' = datagrams h ++ take k (wire xs) /\
    (code = 0 /\ k = length (wire xs) \/ code = 1).

Lemma sender_close_quiet s h : wp (Sender.close s) (fun _ h' => datagrams h' = datagrams h) h.
Proof. unfold Sender.close. repeat wp_quiet. Qed.

(** Leaving [main] gives the socket back. *)
Lemma leave_spec code log gen xs k h0 h L :
  live h = Some (L ∪ owned (Sender.fd_ (GeneratorV2.sender_ gen))) ->
  L ## owned (Sender.fd_ (GeneratorV2.sender_ gen)) ->
  (k <= length (wire xs))%nat -> datagrams h = datagrams h0 ++ take k (wire xs) ->
  code = 0 /\ k = length (wire xs) \/ code = 1 ->
  wp (GeneratorMain.leave code log gen) (main_post L xs h0) h.
Proof.
  intros Hl Hdis Hk Hd Hc. unfold GeneratorMain.leave, GeneratorV2.destroy. do 2 wp_step.
  eapply wp_mono; [apply wp_and; [eapply sender_close_spec; [exact Hl|set_solver]|apply sender_close_quiet]|].
  intros s' h' [[Hl' _] Hd']. cbv beta. repeat wp_step. exists code, log, k. rewrite Hd'. split_and!; try done.
  rewrite Hl'. f_equal. set_solver.
Qed.

(** [run], the case of nothing to send included. *)
Lemma run_any o fuel p gen h L :
  live h = Some L -> sender_ready L (GeneratorV2.sender_ gen) ->
  GeneratorV2.stream gen = mkGen 1 1 0 ->
  (Z.to_nat (GeneratorMain.burst_size p) <= fuel)%nat -> (201 * (P + 1) <= fuel)%nat ->
  wp (GeneratorV2.run o fuel (GeneratorMain.count p) (GeneratorMain.rate p) (GeneratorMain.seed p)
        (GeneratorMain.gap_mod p) (GeneratorMain.gap_span p) (GeneratorMain.burst_size p) gen)
    (fun q h' => (live h' = Some L /\ exists k, (k <= length (wire (planned p)))%nat /\
        datagrams h' = datagrams h ++ take k (wire (planned p)) /\
        (q.1 = GeneratorV2.Ok -> k = length (wire (planned p)))) /\ same_fd gen q) h.
Proof.
  intros Hl Hr Hst Hb Hf. apply wp_returns; [|apply v2_run_fd].
  destruct (Z.leb_spec (GeneratorMain.count p) 0) as [Hc|Hc].
  - unfold GeneratorV2.run, planned. destruct Hr as (_ & Hpos & _).
    rewrite (proj2 (Z.ltb_ge _ _) Hpos), (proj2 (Z.leb_le _ _) Hc). wp_step. split; [done|].
    exists 0%nat. replace (Z.to_nat (GeneratorMain.count p)) with 0%nat by lia.
    by rewrite app_nil_r.
  - eapply wp_mono; [by apply v2_run_spec|]. rewrite Hst.
    intros [res g'] h' (Hl' & _ & _ & k & Hk & Hd & Hres). split; [done|]. exists k.
    split_and!; [done|done|]. cbn [fst] in *. intros ->.
    destruct (messages _ !! k) eqn:Hm in Hres; [done|]. apply lookup_ge_None in Hm.
    unfold planned in *. rewrite length_wire in *. lia.
Qed.

(** C12 (the generator program).  For any environment variables whose default count
    fits an [int], and any behaviour of the network: [main] ends; the datagrams it
    put on the network are, in order and each once, the wire encodings of a prefix
    of the message stream that the configured count, seed and gap settings
    describe, and all of them when it exits with 0; the only other exit code is 1;
    on every path the socket it opened is closed. *)
Theorem generator_main_run o fuel log_opens p l2 h L :
  live h = Some L -> GeneratorMain.run_plan getenv = Some (p, l2) ->
  (Z.to_nat (GeneratorMain.burst_size p) <= fuel)%nat -> (201 * (P + 1) <= fuel)%nat ->
  wp (GeneratorMain.main getenv o fuel log_opens) (main_post L (planned p) h) h.
Proof.
  intros Hl Hp Hb Hf. unfold GeneratorMain.main. destruct log_opens; cbn [negb].
  2: { wp_step. exists 1; eexists; exists 0%nat. rewrite app_nil_r. split_and!; try done; [lia|by right]. }
  destruct (GeneratorMain.sender_config getenv) as [cfg l1]. unfold GeneratorV2.open. do 2 wp_step.
  eapply wp_mono; [apply wp_and; [apply (sender_open_spec cfg _ h L); [done|]|apply sender_open_quiet]|].
  { unfold owned. simpl. set_solver. }
  intros [opened s] h1 [(Hl1 & Hok & Hfresh & Hst) Hq]. wp_step.
  change (L ∖ owned _) with (L ∖ ∅) in *. rewrite difference_empty_L in *.
  assert (Hdis : L ## owned (Sender.fd_ s)).
  { unfold owned. rewrite <- Hok. destruct opened; [|set_solver]. specialize (Hfresh eq_refl). set_solver. }
  destruct opened; cbn [negb].
  2: { eapply (leave_spec _ _ _ _ 0); [exact Hl1|done|lia|by rewrite app_nil_r|by right]. }
  rewrite Hp. symmetry in Hok. apply Z.leb_le in Hok. rewrite owned_pos in * by done. wp_step.
  eapply wp_mono; [apply (run_any o fuel p _ h1 (L ∪ {[Sender.fd_ s]})); try done|].
  { split_and!; [set_solver|done|]. cbn [GeneratorV2.sender_]. rewrite Hst. by vm_compute. }
  intros [res gen] h2 [(Hl2 & k & Hk & Hd & Hres) Hfd]. unfold same_fd in Hfd. cbn [fst snd GeneratorV2.sender_] in *.
  rewrite Hq in Hd. destruct res;
    (eapply leave_spec; [rewrite Hfd, owned_pos by done; exact Hl2|by rewrite Hfd, owned_pos by done|
      exact Hk|exact Hd|]); [left|right..]; auto.
Qed.

End generator_main.

Lemma demo_plan :
  GeneratorMain.run_plan demo_env_vars = Some (GeneratorMain.mkPlan 50000 600 20 42 3 1 8, []).
Proof. vm_compute. reflexivity. Qed.

Lemma generator_main_run_witness :
  wp (@GeneratorMain.main demo_kernel demo_env_vars little_endian 402 true)
    (main_post ∅ (planned (GeneratorMain.mkPlan 50000 600 20 42 3 1 8)) []) [].
Proof.
  apply (@generator_main_run 1 demo_kernel demo_kernel_ok demo_env_vars little_endian 402 true _ [] [] ∅);
    [reflexivity|exact demo_plan|simpl; lia|lia].
Defined.

(** A day at the default rate: the default count overflows although the count is
    given. *)
Definition soak_env (name : string) : option string :=
  if decide (name = "MD_GENERATOR_DURATION_S"%string) then Some "86400"%string
  else demo_env_vars name.

Example generator_count_overflows : GeneratorMain.run_plan soak_env = None.
Proof. vm_compute. reflexivity. Qed.
