(* ===== verification/Lifecycle.v ===== *)
(** * Lifecycle: starting and stopping engine v2

    Models [Engine::receive], [Engine::stop], [release_pool] and the destructor of
    [src/engine/v2/engine.cpp]: the frame pool (allocated on a NUMA node or not),
    the receiver's descriptors and the three [std::thread] members.  The results
    of libnuma, of the allocator and of thread creation are answers of the
    environment; the loops the threads run are those of [EngineV2]. *)

From Stdlib Require Import ZArith Lia String.
From stdpp Require Import base numbers list option gmap sets.
From S2P Require Import Prelude Wire Metrics Ring Pool Os Receiver Latency EngineV2.

Local Open Scope Z_scope.

(** [Terminate]: [std::terminate], by assigning to a joinable [std::thread];
    [BadFree]: a pool given back to the wrong allocator. *)
Inductive life (A : Type) := Done (a : A) | Terminate | BadFree.
Arguments Done {A}.
Arguments Terminate {A}.
Arguments BadFree {A}.

Module LifecycleV2.

Definition kPoolCapacity : Z := 16384.

(** The members of [Engine].  A [std::thread] is its [joinable()]; the pool comes
    with how it was allocated, and [allocated] lists the pools not given back. *)
Record t := mk {
  running_ : bool;
  receiver_ : Receiver.t;
  pool_ : option (FramePool.t * bool);
  pool_on_numa_ : bool;
  recv_ready_ns_ : list Z;
  latency : Latency.t;
  seq : tracker;
  m_ : Metrics.t;
  io_thread_ : bool;
  consumer_ : bool;
  reporter_ : bool;
  allocated : list bool
}.

Definition construct : t :=
  mk false Receiver.construct None false (replicate (Z.to_nat kPoolCapacity) 0) Latency.reset
    fresh_tracker Metrics.zero false false false [].

Definition set_running (b : bool) (e : t) : t :=
  mk b (receiver_ e) (pool_ e) (pool_on_numa_ e) (recv_ready_ns_ e) (latency e) (seq e) (m_ e)
    (io_thread_ e) (consumer_ e) (reporter_ e) (allocated e).
Definition set_receiver (r : Receiver.t) (e : t) : t :=
  mk (running_ e) r (pool_ e) (pool_on_numa_ e) (recv_ready_ns_ e) (latency e) (seq e) (m_ e)
    (io_thread_ e) (consumer_ e) (reporter_ e) (allocated e).
Definition set_pool (p : option (FramePool.t * bool)) (numa : bool) (al : list bool) (e : t) : t :=
  mk (running_ e) (receiver_ e) p numa (recv_ready_ns_ e) (latency e) (seq e) (m_ e)
    (io_thread_ e) (consumer_ e) (reporter_ e) al.
Definition set_threads (io consumer reporter : bool) (e : t) : t :=
  mk (running_ e) (receiver_ e) (pool_ e) (pool_on_numa_ e) (recv_ready_ns_ e) (latency e) (seq e)
    (m_ e) io consumer reporter (allocated e).
Definition reset_stamps (e : t) : t :=
  mk (running_ e) (receiver_ e) (pool_ e) (pool_on_numa_ e) (replicate (Z.to_nat kPoolCapacity) 0)
    Latency.reset (seq e) (m_ e) (io_thread_ e) (consumer_ e) (reporter_ e) (allocated e).
Definition reset_seq (e : t) : t :=
  mk (running_ e) (receiver_ e) (pool_ e) (pool_on_numa_ e) (recv_ready_ns_ e) (latency e)
    fresh_tracker (m_ e) (io_thread_ e) (consumer_ e) (reporter_ e) (allocated e).

(** Removes one pool of the kind from the list of allocated pools. *)
Fixpoint give_back (kind : bool) (al : list bool) : list bool :=
  match al with [] => [] | k :: al => if Bool.eqb k kind then al else k :: give_back kind al end.

(** [destroy_frame_pool]: what stays allocated. *)
Definition destroy_frame_pool (pool : option (FramePool.t * bool)) (pool_on_numa : bool) (al : list bool)
    : life (list bool) :=
  match pool with
  | None => Done al
  | Some (_, kind) => if Bool.eqb kind pool_on_numa then Done (give_back kind al) else BadFree
  end.

Definition release_pool (e : t) : life t :=
  match destroy_frame_pool (pool_ e) (pool_on_numa_ e) (allocated e) with
  | Done al => Done (set_pool None false al e)
  | Terminate => Terminate
  | BadFree => BadFree
  end.

(** What the environment answers during one call of [receive]. *)
Record answers := mkAnswers {
  numa_available : Z;
  memory : bool;
  io_created : bool;
  consumer_created : bool;
  reporter_created : bool;
  free_buf : list Z;
  ready_buf : list Z
}.

Section engine.
Context `{Kernel}.

Definition stop (e : t) : M (life t) :=
  let e := set_running false e in
  r ← Receiver.close (receiver_ e);
  let e := set_threads false false false (set_receiver r e) in
  mret (release_pool e).

(** [stop(); return false;]. *)
Definition fail (e : t) : M (life (bool * t)) :=
  r ← stop e;
  mret match r with Done e => Done (false, e) | Terminate => Terminate | BadFree => BadFree end.

(** The creation of the threads; assigning to a joinable thread terminates. *)
Definition start_threads (a : answers) (e : t) : M (life (bool * t)) :=
  if negb (io_created a) then fail e else
  if io_thread_ e then mret Terminate else
  let e := set_threads true (consumer_ e) (reporter_ e) e in
  if negb (consumer_created a) then fail e else
  if consumer_ e then mret Terminate else
  let e := set_threads (io_thread_ e) true (reporter_ e) e in
  if negb (reporter_created a) then fail e else
  if reporter_ e then mret Terminate else
  mret (Done (true, set_threads (io_thread_ e) (consumer_ e) true e)).

Definition receive (cfg : Receiver.Config) (a : answers) (e : t) : M (life (bool * t)) :=
  if running_ e then mret (Done (false, e)) else
  let e := reset_stamps e in
  match create_frame_pool kPoolCapacity (numa_available a) (memory a) (free_buf a) (ready_buf a)
          (pool_on_numa_ e) with
  | (inl _, _) => mret (Done (false, set_pool None false (allocated e) e))
  | (inr pool, on_numa) =>
      let e := reset_seq (set_pool (Some (pool, on_numa)) on_numa (on_numa :: allocated e) e) in
      '(ok, r) ← Receiver.open cfg (receiver_ e);
      let e := set_receiver r e in
      if negb ok then
        mret match release_pool e with
             | Done e => Done (false, e) | Terminate => Terminate | BadFree => BadFree
             end
      else start_threads a (set_running true e)
  end.




End engine.

(** The state the threads share, as [EngineV2] has it. *)
Definition shared (e : t) : option EngineV2.t :=
  '(pool, _) ← pool_ e;
  Some (EngineV2.mk (running_ e) pool (recv_ready_ns_ e) (seq e) (m_ e) (latency e) zero_msg).

End LifecycleV2.

Import LifecycleV2.

(** ** Invariant *)

Inductive phase := Idle | Active | Failed.

Record phase_ok (L : gset Z) (ph : phase) (e : LifecycleV2.t) (h : history) : Prop := {
  ph_holds : holds L (receiver_ e) h;
  ph_running : running_ e = match ph with Active => true | _ => false end;
  ph_threads : (io_thread_ e, consumer_ e, reporter_ e)
    = match ph with Idle => (false, false, false) | _ => (true, true, true) end;
  ph_pool : match ph with
    | Idle => pool_ e = None /\ allocated e = [] /\ live h = Some L
    | _ => exists p, pool_ e = Some (p, pool_on_numa_ e) /\ allocated e = [pool_on_numa_ e]
    end
}.

Section lifecycle.
Context {P : nat} `{KernelOk P}.

(** [stop] with the pool that [allocated] says, on top of pools lost before. *)
Lemma stop_spec L e h lost :
  holds L (receiver_ e) h ->
  match pool_ e with
  | None => allocated e = lost
  | Some (_, k) => pool_on_numa_ e = k /\ allocated e = k :: lost
  end ->
  wp (LifecycleV2.stop e) (fun r h' => exists e', r = Done e' /\ live h' = Some L /\
    holds L (receiver_ e') h' /\ running_ e' = false /\
    (io_thread_ e', consumer_ e', reporter_ e') = (false, false, false) /\
    pool_ e' = None /\ allocated e' = lost /\ m_ e' = m_ e) h.
Proof.
  intros Hh Hp. unfold LifecycleV2.stop. wp_step.
  eapply wp_mono; [by apply receiver_close_spec|]. intros r' h' [Hl ->]. wp_step.
  unfold release_pool, destroy_frame_pool. cbn [pool_ set_threads set_receiver set_running pool_on_numa_ allocated].
  destruct (pool_ e) as [[p k]|].
  - destruct Hp as [-> ->]. rewrite Bool.eqb_reflx. eexists. split; [done|].
    cbn [give_back]. rewrite Bool.eqb_reflx. split_and!; try done. by apply holds_closed.
  - eexists. split; [done|]. split_and!; try done. by apply holds_closed.
Qed.

Lemma fail_spec L e h lost :
  holds L (receiver_ e) h ->
  match pool_ e with
  | None => allocated e = lost
  | Some (_, k) => pool_on_numa_ e = k /\ allocated e = k :: lost
  end ->
  wp (LifecycleV2.fail e) (fun r h' => exists e', r = Done (false, e') /\ live h' = Some L /\
    holds L (receiver_ e') h' /\ running_ e' = false /\
    (io_thread_ e', consumer_ e', reporter_ e') = (false, false, false) /\
    pool_ e' = None /\ allocated e' = lost) h.
Proof.
  intros Hh Hp. unfold LifecycleV2.fail. wp_step. eapply wp_mono; [by apply stop_spec|].
  intros r h' (e' & -> & H1 & H2 & H3 & H4 & H5 & H6 & _). wp_step. by exists e'.
Qed.

(** The threads the engine starts share this state. *)
Definition started (a : answers) (m : Metrics.t) : EngineV2.t :=
  EngineV2.mk true (FramePool.init kPoolCapacity (FramePool.construct kPoolCapacity (free_buf a) (ready_buf a)))
    (replicate (Z.to_nat kPoolCapacity) 0) fresh_tracker m Latency.reset zero_msg.

Definition all_or_nothing (L : gset Z) (a : answers) (m : Metrics.t)
    (r : life (bool * LifecycleV2.t)) (h' : history) : Prop :=
  exists ok e', r = Done (ok, e') /\
    if ok : bool then phase_ok L Active e' h' /\ shared e' = Some (started a m)
    else phase_ok L Idle e' h'.

Lemma start_threads_spec L a e h pool k :
  holds L (receiver_ e) h -> running_ e = true ->
  (io_thread_ e, consumer_ e, reporter_ e) = (false, false, false) ->
  pool_ e = Some (pool, k) -> pool_on_numa_ e = k -> allocated e = [k] ->
  wp (start_threads a e) (fun r h' => exists ok e', r = Done (ok, e') /\
    if ok : bool then e' = set_threads true true true e /\ h' = h else phase_ok L Idle e' h') h.
Proof.
  intros Hh Hr Ht Hp Hn Ha. injection Ht as Ht1 Ht2 Ht3. unfold start_threads.
  assert (Hfail : forall e0, receiver_ e0 = receiver_ e -> pool_ e0 = pool_ e ->
    pool_on_numa_ e0 = pool_on_numa_ e -> allocated e0 = allocated e ->
    wp (LifecycleV2.fail e0) (fun r h' => exists ok e', r = Done (ok, e') /\
      if ok : bool then e' = set_threads true true true e /\ h' = h else phase_ok L Idle e' h') h).
  { intros e0 E1 E2 E3 E4. eapply wp_mono; [apply (fail_spec L e0 h []); [by rewrite E1|]|].
    - by rewrite E2, Hp, E3, E4.
    - intros r h' (e' & -> & ? & ? & ? & ? & ? & ?). exists false, e'. split; [done|]. by split. }
  rewrite Ht1. destruct (io_created a); cbn [negb]; [|by apply Hfail].
  cbn [set_threads consumer_ reporter_ io_thread_]. rewrite Ht2.
  destruct (consumer_created a); cbn [negb]; [|by apply Hfail].
  rewrite Ht3. destruct (reporter_created a); cbn [negb]; [|by apply Hfail].
  wp_step. by exists true, (set_threads true true true e).
Qed.

Lemma receive_idle L cfg a e h :
  phase_ok L Idle e h ->
  wp (LifecycleV2.receive cfg a e) (all_or_nothing L a (m_ e)) h.
Proof.
  intros [Hh Hr Ht (Hp & Ha & Hl)]. unfold LifecycleV2.receive. rewrite Hr.
  destruct (create_frame_pool _ _ _ _ _ _) as [[err|pool] k] eqn:Hc.
  { wp_step. eexists false, _. split; [done|]. by split. }
  assert (pool = FramePool.init kPoolCapacity
    (FramePool.construct kPoolCapacity (free_buf a) (ready_buf a))) as Epool.
  { unfold create_frame_pool, numa_create in Hc.
    destruct (0 <=? _); [destruct (_ <? 0); [done|]|]; (destruct (negb _); [done|]); by injection Hc. }
  wp_step. eapply wp_mono; [by apply (receiver_open_spec L)|]. intros [ok r] h' (Hh' & Hok & _).
  cbn [allocated reset_stamps]. rewrite Ha. destruct ok; cbn [negb].
  2: { wp_step. unfold release_pool, destroy_frame_pool.
       cbn [pool_ pool_on_numa_ allocated set_receiver reset_seq set_pool give_back]. rewrite Bool.eqb_reflx.
       eexists false, _. split; [done|]. split; try done. split_and!; try done.
       destruct Hh' as (Hl' & _ & _ & He). symmetry in Hok. apply Z.leb_gt in Hok. rewrite Hl'.
       rewrite !owned_neg by lia. f_equal. set_solver. }
  eapply wp_mono; [apply (start_threads_spec L a _ h' pool k); done|].
  intros r' h2 (ok & e' & -> & Hcase). exists ok, e'. split; [done|]. destruct ok; [|done].
  destruct Hcase as [-> ->]. split; [split; try done; by exists pool|]. unfold started. by rewrite <- Epool.
Qed.






Lemma construct_idle L h : live h = Some L -> phase_ok L Idle LifecycleV2.construct h.
Proof. intros Hl. split; try done. by apply holds_closed. Qed.

(** Starting engine v2: [receive] on an idle engine, whatever fails (the
    pool's allocation, the socket, any of the three threads): it returns true with
    the three threads, one pool and the receiver's descriptors held and with the
    shared state the loops start from (a fresh pool, tracker, stamps and
    histogram; the counters are kept), or it returns false with the engine idle
    again: no thread, no pool and no descriptor more than before. *)
Theorem v2_receive_all_or_nothing L cfg a e h :
  phase_ok L Idle e h -> wp (LifecycleV2.receive cfg a e) (all_or_nothing L a (m_ e)) h.
Proof. apply receive_idle. Qed.


Lemma start_threads_failed L a e h pool k lost :
  holds L (receiver_ e) h -> io_thread_ e = true ->
  pool_ e = Some (pool, k) -> pool_on_numa_ e = k -> allocated e = k :: lost ->
  wp (start_threads a e) (fun r _ => r = Terminate \/
    exists e', r = Done (false, e') /\ pool_ e' = None /\ allocated e' = lost) h.
Proof.
  intros Hh Ht Hp Hn Ha. unfold start_threads. rewrite Ht. destruct (io_created a); cbn [negb].
  - wp_step. by left.
  - eapply wp_mono; [apply (fail_spec L e h lost); [done|]|]; [by rewrite Hp|].
    intros r h' (e' & -> & _ & _ & _ & _ & ? & ?). right. by exists e'.
Qed.

(** C22 (engine v2: restarting after an I/O error).  When the I/O thread has given
    up and [receive] is called without [stop], it never succeeds: either the
    process is terminated, because the old [io_thread_] is still joinable, or
    [receive] returns false and the previous frame pool is lost, its pointer
    having been overwritten. *)
Theorem v2_restart_after_error L cfg a e h :
  phase_ok L Failed e h ->
  wp (LifecycleV2.receive cfg a e) (fun r _ => r = Terminate \/
    exists e', r = Done (false, e') /\ pool_ e' = None /\ allocated e' = [pool_on_numa_ e]) h.
Proof.
  intros [Hh Hr Ht (p & Hp & Ha)]. injection Ht as Ht1 Ht2 Ht3. unfold LifecycleV2.receive. rewrite Hr.
  destruct (create_frame_pool _ _ _ _ _ _) as [[err|pool] k].
  { wp_step. right. eexists. split; [done|]. done. }
  wp_step. eapply wp_mono; [by apply (receiver_open_spec L)|]. intros [ok r] h' (Hh' & _).
  cbn [allocated reset_stamps]. rewrite Ha. destruct ok; cbn [negb].
  - apply (start_threads_failed L a _ h' pool k); done.
  - wp_step. unfold release_pool, destroy_frame_pool.
    cbn [pool_ pool_on_numa_ allocated set_receiver reset_seq set_pool give_back]. rewrite Bool.eqb_reflx.
    right. by eexists.
Qed.

End lifecycle.

(** ** Sample uses *)

Definition demo_rx_config : Receiver.Config :=
  Receiver.mkConfig None 9000 None 0 0 false.

Definition all_granted : answers := mkAnswers 0 true true true true [] [].



Lemma v2_receive_all_or_nothing_witness :
  wp (@LifecycleV2.receive busy_kernel demo_rx_config all_granted LifecycleV2.construct)
    (all_or_nothing ∅ all_granted Metrics.zero) [].
Proof.
  apply (@v2_receive_all_or_nothing 0 busy_kernel busy_kernel_ok ∅ demo_rx_config all_granted
    LifecycleV2.construct []).
  apply (@construct_idle 0 busy_kernel busy_kernel_ok). reflexivity.
Defined.

(** An engine whose I/O thread has given up, holding descriptor 3. *)
Definition failed_engine : LifecycleV2.t :=
  set_threads true true true
    (set_pool (Some (FramePool.construct 4 [] [], true)) true [true]
      (set_receiver (Receiver.mk 3 (-1) false no_addr (Receiver.mkStats 0 0 0 0)) LifecycleV2.construct)).

Definition one_socket : history := [(Socket SOCK_DGRAM, mkReply 3 0 [] [])].

Lemma failed_engine_phase : phase_ok ∅ Failed failed_engine one_socket.
Proof.
  split; [|reflexivity|reflexivity|eexists; split; reflexivity].
  split; [vm_compute; reflexivity|]. cbn [failed_engine receiver_ set_threads set_pool set_receiver
    Receiver.fd_ Receiver.epfd_]. rewrite owned_pos, owned_neg by lia.
  split; [set_solver|]. split; [set_solver|]. lia.
Qed.

Lemma v2_restart_after_error_witness :
  wp (@LifecycleV2.receive busy_kernel demo_rx_config all_granted failed_engine)
    (fun r _ => r = Terminate \/
      exists e', r = Done (false, e') /\ pool_ e' = None /\ allocated e' = [true]) one_socket.
Proof.
  exact (@v2_restart_after_error 0 busy_kernel busy_kernel_ok ∅ demo_rx_config all_granted failed_engine
    one_socket failed_engine_phase).
Defined.

Example restart_terminates :
  fst <$> @LifecycleV2.receive busy_kernel demo_rx_config all_granted failed_engine one_socket
  = Some Terminate.
Proof. reflexivity. Qed.
