(* ===== verification/Control.v ===== *)
(** * Control: starting and stopping the server threads and engine v1

    Models [start_server] and [stop_server] of [src/common/net/v1/udp_server.hpp]
    and [src/common/net/v1/tcp_server_nonblock_epoll.hpp] (the same code in both)
    as a state machine of two threads, the one that controls the server and the
    server's, at the granularity of their accesses to the shared handle and of the
    reads of the server's loops; what the server does with what it reads is that of
    [UdpServer] and [TcpServer].  On top of it, [Engine::run], [Engine::stop] and the destructor
    of [src/engine/v1/engine.cpp]. *)

From Stdlib Require Import ZArith Lia.
From stdpp Require Import base list option relations.
From S2P Require Import Prelude Pool.

Local Open Scope Z_scope.

Module ServerControl.

(** Where the server thread is in [run_server_loop]. *)
Inductive server_pc :=
  | Absent                     (* before it runs *)
  | SettingUp
  | Testing                    (* about to test [running] *)
  | Waiting                    (* in [epoll_wait] *)
  | Handling (k : nat)      (* at the next of the [k] events to treat *)
  | Draining (k : nat)      (* in a loop of [recvmmsg] or [accept4] calls *)
  | ShuttingDown               (* past the loop *)
  | Finished.

(** The most events [epoll_wait] returns: [MAXEV] is 32 for UDP and 64 for TCP. *)
Definition kMaxEvents : nat := 64.

(** Where the controlling thread is: outside, in [stop_server] after the
    exchange, about to write to the descriptor it read, about to join. *)
Inductive caller_pc := Outside | StopRead | StopWrite | StopJoin.

(** The handle: [wake_open] is [wake_fd != -1], [signalled] whether the event
    descriptor has been written to. *)
Record t := mk {
  running : bool;
  wake_open : bool;
  signalled : bool;
  joinable : bool;
  server : server_pc;
  caller : caller_pc
}.

Definition construct : t := mk false false false false Absent Outside.

Inductive outcome := Next (s : t) (result : bool) | Terminated.

(** [start_server]. *)
Definition start_server (s : t) : outcome :=
  if running s then Next s false else
  if joinable s then Terminated
  else Next (mk true (wake_open s) (signalled s) true SettingUp (caller s)) true.

(** [handle.running.exchange(false)] and the early return. *)
Definition stop_exchange (s : t) : t :=
  if running s then mk false (wake_open s) (signalled s) (joinable s) (server s) StopRead else s.

(** [handle.wake_fd != -1]. *)
Definition stop_read (s : t) : t :=
  mk (running s) (wake_open s) (signalled s) (joinable s) (server s)
    (if wake_open s then StopWrite else StopJoin).

(** The [write]; a descriptor closed in between is not signalled. *)
Definition stop_write (s : t) : t :=
  mk (running s) (wake_open s) (signalled s || wake_open s) (joinable s) (server s) StopJoin.

(** [join] returns when the thread has finished. *)
Definition stop_join (s : t) : option t :=
  if joinable s then
    match server s with
    | Finished => Some (mk (running s) (wake_open s) (signalled s) false (server s) Outside)
    | _ => None
    end
  else Some (mk (running s) (wake_open s) (signalled s) false (server s) Outside).

Definition at_server (s : t) (pc : server_pc) : t :=
  mk (running s) (wake_open s) (signalled s) (joinable s) pc (caller s).

(** What the server thread does next.  [SetupFails], [WakeSeen] and [SocketError]
    clear [running].  [ReadSome] is a call of a drain loop that found something or
    was interrupted, so that the loop goes on; that loop does not test [running]. *)
Inductive server_event :=
  | SetupOk | SetupFails | Test | WaitReturns (n : nat) | WaitFails
  | WakeSeen | SkipEvent | SocketError | DrainStarts | ReadSome | DrainEnds | EventsDone
  | CloseAll.

Definition server_step (ev : server_event) (s : t) : option t :=
  match ev, server s with
  | SetupOk, SettingUp => Some (mk (running s) true false (joinable s) Testing (caller s))
  | SetupFails, SettingUp => Some (mk false false false (joinable s) Finished (caller s))
  | Test, Testing => Some (at_server s (if running s then Waiting else ShuttingDown))
  | WaitReturns n, Waiting =>        (* no event: a timeout or an interruption *)
      if (n <=? kMaxEvents)%nat then Some (at_server s (Handling n)) else None
  | WaitFails, Waiting => Some (at_server s ShuttingDown)
  | WakeSeen, Handling (S k) =>
      if signalled s then Some (mk false (wake_open s) false (joinable s) (Handling k) (caller s))
      else None
  | SkipEvent, Handling (S k) => Some (at_server s (Handling k))
  | SocketError, Handling (S k) =>
      Some (mk false (wake_open s) (signalled s) (joinable s) Testing (caller s))
  | DrainStarts, Handling (S k) => Some (at_server s (Draining k))
  | ReadSome, Draining k => Some s
  | DrainEnds, Draining k => Some (at_server s (Handling k))
  | EventsDone, Handling O => Some (at_server s Testing)
  | CloseAll, ShuttingDown => Some (mk (running s) false false (joinable s) Finished (caller s))
  | _, _ => None
  end.

Inductive event := Start | StopExchange | StopReadFd | StopWriteFd | StopJoins | Server (ev : server_event).

Inductive step (s : t) : event -> outcome -> Prop :=
  | step_start : caller s = Outside -> step s Start (start_server s)
  | step_exchange : caller s = Outside -> step s StopExchange (Next (stop_exchange s) true)
  | step_read : caller s = StopRead -> step s StopReadFd (Next (stop_read s) true)
  | step_write : caller s = StopWrite -> step s StopWriteFd (Next (stop_write s) true)
  | step_join s' : caller s = StopJoin -> stop_join s = Some s' -> step s StopJoins (Next s' true)
  | step_server ev s' : server_step ev s = Some s' -> step s (Server ev) (Next s' true).

Inductive run (s : t) : list event -> outcome -> Prop :=
  | run_nil : run s [] (Next s true)
  | run_snoc evs s1 b ev o : run s evs (Next s1 b) -> step s1 ev o -> run s (evs ++ [ev]) o.

End ServerControl.

(** The TCP server's functions are the same. *)
Module TcpControl.

Definition start_server : ServerControl.t -> ServerControl.outcome := ServerControl.start_server.
Definition stop_exchange : ServerControl.t -> ServerControl.t := ServerControl.stop_exchange.
Definition stop_read : ServerControl.t -> ServerControl.t := ServerControl.stop_read.
Definition stop_write : ServerControl.t -> ServerControl.t := ServerControl.stop_write.
Definition stop_join : ServerControl.t -> option ServerControl.t := ServerControl.stop_join.

End TcpControl.

Import ServerControl.

#[global] Instance server_event_eq_dec : EqDecision server_event.
Proof. solve_decision. Defined.

(** ** Invariants *)

(** In the event loop, or past it with the descriptors still open. *)
Definition in_loop (pc : server_pc) : bool :=
  match pc with Absent | SettingUp | Finished => false | _ => true end.

(** The events still to be treated. *)
Definition events_ok (pc : server_pc) : Prop :=
  match pc with
  | Handling k => (k <= kMaxEvents)%nat
  | Draining k => (k < kMaxEvents)%nat
  | _ => True
  end.

(** A thread that runs is joinable; the wake descriptor is open in the loop only;
    while the server is being stopped [running] is false. *)
Record control_inv (s : ServerControl.t) : Prop := {
  ci_absent : server s = Absent -> joinable s = false;
  ci_joinable : server s <> Absent -> server s <> Finished -> joinable s = true;
  ci_wake : wake_open s = in_loop (server s);
  ci_stopping : caller s <> Outside -> running s = false;
  ci_events : events_ok (server s)
}.

(** The cases of a server step, with the new state written out. *)
Ltac server_cases Hst :=
  unfold server_step, at_server in Hst;
  let sv := fresh "sv" in
  match type of Hst with
  | context [match ?ev with SetupOk => _ | _ => _ end] => destruct ev
  end;
  match type of Hst with
  | context [server ?s] => destruct (server s) as [| | | |[|]| | |] eqn:sv
  end; try discriminate Hst;
  repeat match type of Hst with
  | context [signalled ?s] => destruct (signalled s) eqn:?; try discriminate Hst
  | context [(?n <=? kMaxEvents)%nat] =>
      destruct (Nat.leb_spec n kMaxEvents); try discriminate Hst
  end;
  injection Hst as <-; cbn.

Lemma control_step s ev o :
  control_inv s -> ServerControl.step s ev o ->
  match o with Next s' _ => control_inv s' | Terminated => True end.
Proof.
  intros [Ha Hj Hw Hs He] Hst. destruct Hst as [Hc|Hc|Hc|Hc|s' Hc Hst|ev s' Hst].
  - unfold start_server. destruct (running s) eqn:Hr; [by split|]. destruct (joinable s) eqn:Hjo; [done|].
    assert (Hsv : server s = Absent \/ server s = Finished)
      by (destruct (server s); auto; by specialize (Hj ltac:(done) ltac:(done))).
    split; cbn; [done|done| |by rewrite Hc|done]. rewrite Hw. by destruct Hsv as [-> | ->].
  - unfold stop_exchange. destruct (running s); by split.
  - split; cbn; try done. intros _. apply Hs. by rewrite Hc.
  - split; cbn; try done. intros _. apply Hs. by rewrite Hc.
  - unfold stop_join in Hst. destruct (joinable s) eqn:Hjo.
    + destruct (server s) eqn:Hsv; try done. injection Hst as <-. split; cbn; try done; by rewrite Hsv.
    + injection Hst as <-. by split.
  - server_cases Hst; (split; cbn [server joinable wake_open running caller];
      rewrite ?sv in *; cbn [in_loop events_ok] in *;
      first [assumption|lia|by destruct (running s)|by auto|intros; congruence]).
Qed.

Lemma control_run evs s b :
  ServerControl.run ServerControl.construct evs (Next s b) -> control_inv s.
Proof.
  intros Hr. remember (Next s b) as o eqn:E. revert s b E.
  induction Hr as [|evs s1 b1 ev o Hr IH Hst]; intros s b E.
  - injection E as <- _. split; cbn; naive_solver.
  - subst o. exact (control_step _ _ _ (IH _ _ eq_refl) Hst).
Qed.

(** ** Stopping *)

(** The steps the server thread still takes once [running] is false, apart from
    the calls of its drain loops that find something. *)
Definition to_go (pc : server_pc) : nat :=
  match pc with
  | SettingUp => 3
  | Testing => 2
  | Waiting => 2 * kMaxEvents + 4
  | Handling k => 2 * k + 3
  | Draining k => 2 * k + 4
  | ShuttingDown => 1
  | Absent | Finished => 0
  end.

Lemma to_go_bound s : control_inv s -> (to_go (server s) <= 132)%nat.
Proof.
  intros [_ _ _ _ He]. unfold kMaxEvents in *.
  destruct (server s); cbn in *; unfold kMaxEvents in *; lia.
Qed.

Definition other_steps (evs : list server_event) : nat :=
  length (filter (fun ev => ev <> ReadSome) evs).

Lemma other_steps_cons ev evs :
  other_steps (ev :: evs) = ((if decide (ev = ReadSome) then 0 else 1) + other_steps evs)%nat.
Proof.
  unfold other_steps. rewrite filter_cons. destruct (decide (ev = ReadSome)) as [->|Hne].
  - by rewrite decide_False by naive_solver.
  - by rewrite decide_True by done.
Qed.

Lemma server_step_to_go ev s s' :
  running s = false -> server_step ev s = Some s' ->
  ((if decide (ev = ReadSome) then 0 else 1) + to_go (server s') <= to_go (server s))%nat /\
  running s' = false /\ joinable s' = joinable s /\ caller s' = caller s.
Proof.
  intros Hr Hst. server_cases Hst; rewrite ?Hr, ?sv; cbn; split_and!;
    repeat case_decide; try done; unfold kMaxEvents in *; lia.
Qed.

Lemma server_can_step s :
  (0 < to_go (server s))%nat -> exists ev s', ev <> ReadSome /\ server_step ev s = Some s'.
Proof.
  intros Hg. unfold server_step. destruct (server s) as [| | | |[|k]|k| |] eqn:E; cbn in Hg; try lia.
  - by eexists SetupOk, _.
  - by eexists Test, _.
  - by eexists (WaitReturns 0), _.
  - by eexists EventsDone, _.
  - by eexists SkipEvent, _.
  - by eexists DrainEnds, _.
  - by eexists CloseAll, _.
Qed.

(** The server thread alone. *)
Inductive server_run (s : ServerControl.t) : list server_event -> ServerControl.t -> Prop :=
  | server_run_nil : server_run s [] s
  | server_run_cons ev evs s1 s' :
      server_step ev s = Some s1 -> server_run s1 evs s' -> server_run s (ev :: evs) s'.

Lemma server_run_bound s evs s' :
  running s = false -> server_run s evs s' ->
  (other_steps evs + to_go (server s') <= to_go (server s))%nat /\ running s' = false /\
  joinable s' = joinable s /\ caller s' = caller s.
Proof.
  intros Hr Hrun. revert Hr. induction Hrun as [|s ev evs s1 s' Hst Hrun IH]; intros Hr; [done|].
  destruct (server_step_to_go ev s s1 Hr Hst) as (Hlt & Hr1 & Hj1 & Hc1).
  destruct (IH Hr1) as (Hle & Hr' & Hj' & Hc'). rewrite other_steps_cons.
  split_and!; [lia|congruence..].
Qed.

Lemma server_run_end s :
  (to_go (server s) = 0)%nat \/ exists ev s1, ev <> ReadSome /\ server_step ev s = Some s1.
Proof. destruct (to_go (server s)) eqn:E; [by left|]. right. apply server_can_step. lia. Qed.

(** The traffic leaves a gap after at most [burst] successful reads in a row. *)
Definition gaps (burst : nat) (evs : list server_event) : Prop :=
  forall pre n post, evs = pre ++ replicate n ReadSome ++ post -> (n <= burst)%nat.

(** The reads at the front of a list of events. *)
Fixpoint reads_first (evs : list server_event) : nat :=
  match evs with ReadSome :: evs => S (reads_first evs) | _ => 0 end.

Lemma reads_first_spec evs :
  exists post, evs = replicate (reads_first evs) ReadSome ++ post.
Proof.
  induction evs as [|ev evs [post IH]]; [by exists []|].
  destruct ev; try (by eexists). cbn. exists post. by rewrite <- IH.
Qed.

Lemma gaps_length burst evs :
  gaps burst evs ->
  (length evs <= reads_first evs + other_steps evs * (burst + 1))%nat.
Proof.
  induction evs as [|ev evs IH]; intros Hg; [done|].
  assert (Hg' : gaps burst evs).
  { intros pre n post ->. by apply (Hg (ev :: pre) n post). }
  specialize (IH Hg'). rewrite other_steps_cons.
  destruct (reads_first_spec evs) as [post Hp]. pose proof (Hg' [] _ _ Hp).
  destruct (decide (ev = ReadSome)) as [->|Hne]; cbn; [lia|]. destruct ev; cbn; lia.
Qed.

(** C16 (stopping a server returns).  In every reachable state in which
    [stop_server] has reached [join], whatever the two threads interleaved
    before (the server still in its set-up, the wake-up lost because the
    descriptor was not there yet or was closed again): the server thread takes at
    most 132 more steps other than calls of its receive and accept loops that find
    something, and if never more than [burst] of these calls in a row find
    something, at most [132 + 133 * burst] steps in all.  Until it has finished it
    can take a step, and then [join] returns, leaving the handle without a thread,
    without a wake descriptor and not running, so that the server can be started
    again.  The condition on the traffic is needed: [stop_needs_gap]. *)
Theorem stop_server_returns evs s b server_evs s' burst :
  ServerControl.run ServerControl.construct evs (Next s b) -> caller s = StopJoin ->
  server_run s server_evs s' -> gaps burst server_evs ->
  (other_steps server_evs <= 132)%nat /\ (length server_evs <= 132 + 133 * burst)%nat /\
  ((exists ev s1, ev <> ReadSome /\ server_step ev s' = Some s1) \/
   exists s2, stop_join s' = Some s2 /\ running s2 = false /\ joinable s2 = false /\
     wake_open s2 = false /\ exists s3, start_server s2 = Next s3 true).
Proof.
  intros Hr Hc Hsr Hg. pose proof (control_run _ _ _ Hr) as Hi.
  assert (Hrun : running s = false) by (apply (ci_stopping _ Hi); by rewrite Hc).
  destruct (server_run_bound s server_evs s' Hrun Hsr) as (Hle & Hr' & Hj' & Hc').
  pose proof (to_go_bound s Hi).
  assert (Hi' : control_inv s').
  { clear -Hi Hsr. induction Hsr as [|s ev evs s1 s' Hst _ IH]; [done|]. apply IH.
    exact (control_step s (Server ev) (Next s1 true) Hi (step_server s ev s1 Hst)). }
  split; [lia|]. split.
  { pose proof (gaps_length burst server_evs Hg). destruct (reads_first_spec server_evs) as [post Hp].
    pose proof (Hg [] _ _ Hp). nia. }
  destruct (server_run_end s') as [Hz|Hstep]; [right|by left].
  assert (Hsv : server s' = Absent \/ server s' = Finished)
    by (destruct (server s'); cbn in Hz; auto; lia).
  assert (Hw : wake_open s' = false).
  { rewrite (ci_wake _ Hi'). by destruct Hsv as [-> | ->]. }
  assert (Hjoin : stop_join s' = Some (mk false false (signalled s') false (server s') Outside)).
  { unfold stop_join. rewrite Hr', Hw. destruct Hsv as [E|E]; rewrite E.
    - by rewrite (ci_absent _ Hi' E).
    - by destruct (joinable s'). }
  eexists. split; [exact Hjoin|]. cbn. split_and!; try done. unfold start_server. cbn. by eexists.
Qed.

(** ** Servers that do not stop by themselves *)

(** [running] is cleared by the controlling thread only. *)
Definition benign (ev : ServerControl.event) : bool :=
  match ev with Server SetupFails | Server SocketError => false | _ => true end.

Record control_safe (s : ServerControl.t) : Prop := {
  cs_inv : control_inv s;
  cs_outside : caller s = Outside -> joinable s = running s /\ signalled s = false;
  cs_stopping : caller s <> Outside -> joinable s = true;
  cs_signal : signalled s = true -> wake_open s = true
}.

Lemma safe_server s ev s' :
  control_safe s -> benign (Server ev) = true -> server_step ev s = Some s' -> control_safe s'.
Proof.
  intros [Hi Ho Hst Hsg] Hb Hs.
  assert (Hi' : control_inv s') by exact (control_step s (Server ev) (Next s' true) Hi (step_server s ev s' Hs)).
  pose proof (ci_wake _ Hi) as Hw. split; [done|..]; server_cases Hs; rewrite ?sv in *; naive_solver.
Qed.

Lemma safe_step s ev o :
  control_safe s -> benign ev = true -> ServerControl.step s ev o ->
  exists s' b, o = Next s' b /\ control_safe s'.
Proof.
  intros Hs Hb Hst. pose proof (control_step s ev o (cs_inv _ Hs) Hst) as Hi'.
  destruct Hst as [Hc|Hc|Hc|Hc|s' Hc Hst|ev s' Hst].
  - destruct Hs as [Hi Ho _ Hsg]. destruct (Ho Hc) as [Hj Hg]. unfold start_server in *.
    destruct (running s) eqn:Hr; [exists s, false; split; [done|]; split; try done; naive_solver|].
    rewrite Hj in *. eexists _, _. split; [done|]. split; cbn; try done; rewrite ?Hc, ?Hg; naive_solver.
  - eexists _, _. split; [done|]. destruct Hs as [Hi Ho _ Hsg]. destruct (Ho Hc) as [Hj Hg].
    unfold stop_exchange in *. destruct (running s) eqn:Hr; split; cbn; try done; naive_solver.
  - eexists _, _. split; [done|]. destruct Hs as [Hi _ Hst Hsg].
    split; [done| |intros _; cbn; apply Hst; by rewrite Hc|done]. cbn. by destruct (wake_open s).
  - eexists _, _. split; [done|]. destruct Hs as [Hi _ Hst Hsg].
    split; [done|done|intros _; cbn; apply Hst; by rewrite Hc|]. cbn. destruct (signalled s); auto.
  - eexists _, _. split; [done|]. destruct Hs as [Hi _ Hjo Hsg]. unfold stop_join in Hst.
    rewrite Hjo in Hst by (by rewrite Hc). destruct (server s) eqn:Hsv; try done. injection Hst as <-.
    split; [done|cbn; intros _|cbn; done|done]. split; [symmetry; apply (ci_stopping _ Hi); by rewrite Hc|].
    destruct (signalled s); [|done]. pose proof (ci_wake _ Hi) as Hw.
    by rewrite Hsg, Hsv in Hw.
  - eexists _, _. split; [done|]. by eapply safe_server.
Qed.

(** C17 (controlling a server).  For every interleaving of a thread that starts
    and stops a server any number of times with the server's own steps, in which
    the server does not stop because of an error of its own: the process is never
    terminated, and whenever the controlling thread is outside the two functions
    the thread object is joinable exactly while the server is meant to run. *)
Theorem server_control_sound evs o :
  ServerControl.run ServerControl.construct evs o -> forallb benign evs = true ->
  exists s b, o = Next s b /\ (caller s = Outside -> joinable s = running s).
Proof.
  intros Hr Hb.
  assert (Hsafe : exists s b, o = Next s b /\ control_safe s).
  { induction Hr as [|evs s1 b1 ev o Hr IH Hst].
    - eexists _, _. split; [done|]. split; try done.
    - rewrite forallb_app in Hb. apply andb_true_iff in Hb as [Hb1 Hb2]. cbn in Hb2.
      rewrite andb_true_r in Hb2. destruct (IH Hb1) as (s & b & [= -> ->] & Hs).
      by eapply safe_step. }
  destruct Hsafe as (s & b & -> & Hs). exists s, b. split; [done|]. intros Hc. by apply (cs_outside _ Hs).
Qed.

(** ** Runs *)

(** The step as a function. *)
Definition next (s : ServerControl.t) (ev : ServerControl.event) : option outcome :=
  match ev, caller s with
  | Start, Outside => Some (start_server s)
  | StopExchange, Outside => Some (Next (stop_exchange s) true)
  | StopReadFd, StopRead => Some (Next (stop_read s) true)
  | StopWriteFd, StopWrite => Some (Next (stop_write s) true)
  | StopJoins, StopJoin => (fun s' => Next s' true) <$> stop_join s
  | Server sev, _ => (fun s' => Next s' true) <$> server_step sev s
  | _, _ => None
  end.

Lemma next_step s ev o : next s ev = Some o -> ServerControl.step s ev o.
Proof.
  unfold next. destruct ev, (caller s) eqn:Hc; try done; intros Ho;
    first [injection Ho as <-; by constructor|apply fmap_Some in Ho as (s' & Hs & ->); by constructor].
Qed.

Definition exec (evs : list ServerControl.event) : option outcome :=
  foldl (fun o ev => match o with Some (Next s _) => next s ev | _ => None end)
    (Some (Next ServerControl.construct true)) evs.

Lemma exec_run evs o : exec evs = Some o -> ServerControl.run ServerControl.construct evs o.
Proof.
  revert o. induction evs as [|ev evs IH] using rev_ind; intros o He.
  - injection He as <-. constructor.
  - unfold exec in He. rewrite foldl_app in He. fold (exec evs) in He. cbn in He.
    destruct (exec evs) as [[s b|]|]; try done. by eapply run_snoc; [apply IH|apply next_step].
Qed.

(** The server stops while it still sets up. *)
Definition early_stop : list ServerControl.event :=
  [Start; StopExchange; StopReadFd].

Lemma early_stop_run :
  ServerControl.run ServerControl.construct early_stop (Next (mk false false false true SettingUp StopJoin) true).
Proof. apply exec_run. reflexivity. Qed.

(** The server is reading when it is stopped. *)
Definition busy_stop : list ServerControl.event :=
  [Start; Server SetupOk; Server Test; Server (WaitReturns 1); Server DrainStarts; Server ReadSome;
   StopExchange; StopReadFd; StopWriteFd].

Lemma busy_stop_run :
  ServerControl.run ServerControl.construct busy_stop
    (Next (mk false true true true (Draining 0) StopJoin) true).
Proof. apply exec_run. reflexivity. Qed.

(** Traffic without a gap: the drain loop does not test [running], so for every
    [n] the server thread can make [n] more reads while [stop_server] waits for it. *)
Theorem stop_needs_gap n :
  ServerControl.run ServerControl.construct busy_stop
    (Next (mk false true true true (Draining 0) StopJoin) true) /\
  server_run (mk false true true true (Draining 0) StopJoin) (replicate n ReadSome)
    (mk false true true true (Draining 0) StopJoin).
Proof.
  split; [exact busy_stop_run|]. induction n as [|n IH]; [constructor|].
  cbn. by econstructor.
Qed.

Lemma stop_server_returns_witness :
  exists s2, stop_join (mk false false false true Finished StopJoin) = Some s2 /\ running s2 = false /\
    joinable s2 = false /\ wake_open s2 = false /\ exists s3, start_server s2 = Next s3 true.
Proof.
  destruct (stop_server_returns busy_stop (mk false true true true (Draining 0) StopJoin) true
    [ReadSome; ReadSome; DrainEnds; EventsDone; Test; CloseAll]
    (mk false false false true Finished StopJoin) 6 busy_stop_run eq_refl)
    as (_ & _ & [(ev & s1 & _ & Hev)|Hs]).
  - repeat (econstructor; [reflexivity|]). constructor.
  - intros pre n post E. apply (f_equal length) in E. rewrite !length_app, length_replicate in E.
    simpl in E. lia.
  - destruct ev; discriminate.
  - exact Hs.
Defined.

Lemma server_control_sound_witness :
  exists s b, Next (mk false false false true SettingUp StopJoin) true = Next s b /\
    (caller s = Outside -> joinable s = running s).
Proof. exact (server_control_sound early_stop _ early_stop_run eq_refl). Defined.

(** A server whose set-up fails clears [running] itself: [stop_server] then
    returns without joining, and the next [start_server] assigns to a joinable
    thread. *)
Example setup_failure_then_restart :
  ServerControl.run ServerControl.construct [Start; Server SetupFails; StopExchange; Start] Terminated.
Proof. apply exec_run. reflexivity. Qed.

(** The descriptor [stop_server] is about to write to may be closed already. *)
Example write_after_close :
  ServerControl.run ServerControl.construct
    [Start; Server SetupOk; Server Test; StopExchange; StopReadFd; Server (WaitReturns 0); Server EventsDone;
     Server Test; Server CloseAll]
    (Next (mk false false false true Finished StopWrite) true).
Proof. apply exec_run. reflexivity. Qed.

(** ** Engine v1 *)

Module ControlV1.

(** The members of [Engine] that its life depends on; the threads by their
    [joinable()]. *)
Record t := mk {
  running_ : bool;
  handle_ : ServerControl.t;
  consumer_ : bool;
  reporter_ : bool;
  pool_ : FramePool.t
}.

Definition kPool : Z := 4096.

Definition construct (pool : FramePool.t) : t := mk false ServerControl.construct false false pool.

Inductive result := Returned (ok : bool) (e : t) | Terminates.

(** Thread creation is taken to succeed: an exception is not caught. *)
Definition run (e : t) : result :=
  let pool := FramePool.init kPool (pool_ e) in
  match start_server (handle_ e) with
  | Terminated => Terminates
  | Next hd false => Returned false (mk false hd (consumer_ e) (reporter_ e) pool)
  | Next hd true =>
      if consumer_ e then Terminates
      else if reporter_ e then Terminates
      else Returned true (mk true hd true true pool)
  end.

(** [stop_server], to its return: the early one, or after the join. *)
Inductive stops : ServerControl.t -> ServerControl.t -> Prop :=
  | stops_early hd : running hd = false -> stops hd hd
  | stops_joined hd hd1 sevs hd2 hd3 :
      running hd = true -> stop_read (stop_exchange hd) = hd1 ->
      server_run (if wake_open hd1 then stop_write hd1 else hd1) sevs hd2 ->
      stop_join hd2 = Some hd3 -> stops hd hd3.

Inductive stop (e : t) : t -> Prop :=
  | stop_intro hd : stops (handle_ e) hd -> stop e (mk false hd false false (pool_ e)).

(** The destructor: [stop], then the members; a joinable thread terminates. *)
Inductive destroyed (e : t) : bool -> Prop :=
  | destroyed_intro e' : stop e e' -> destroyed e (negb (joinable (handle_ e'))).

End ControlV1.

Lemma stops_not_running hd hd' :
  control_safe hd -> caller hd = Outside -> ControlV1.stops hd hd' ->
  running hd' = false /\ joinable hd' = false.
Proof.
  intros Hs Hc Hst. destruct Hst as [hd Hr|hd hd1 sevs hd2 hd3 Hr <- Hrun Hj].
  - split; [done|]. rewrite <- Hr. by apply (cs_outside _ Hs).
  - unfold stop_join in Hj. assert (Hr2 : running hd2 = false).
    { apply server_run_bound in Hrun; [by apply Hrun|]. unfold stop_exchange. rewrite Hr.
      cbn. by destruct (wake_open hd). }
    destruct (joinable hd2); [destruct (server hd2); try done|]; injection Hj as <-; done.
Qed.

(** The destructor of an engine whose server has not stopped by itself ends
    without terminating the process. *)
Lemma v1_destructor_safe e survives :
  control_safe (ControlV1.handle_ e) -> caller (ControlV1.handle_ e) = Outside ->
  ControlV1.destroyed e survives -> survives = true.
Proof.
  intros Hs Hc [e' [hd Hst]]. destruct (stops_not_running _ _ Hs Hc Hst) as [_ Hj]. cbn. by rewrite Hj.
Qed.

(** A second [run] of engine v1: [run] on an engine that is running is refused,
    but not without effect: it refills the frame pool that the running threads
    use and clears [running_], so the consumer and the reporter end while the
    server thread keeps receiving. *)
Theorem v1_second_run e e1 :
  ControlV1.run e = ControlV1.Returned true e1 ->
  exists e2, ControlV1.run e1 = ControlV1.Returned false e2 /\
    ControlV1.running_ e2 = false /\ running (ControlV1.handle_ e2) = true /\
    ControlV1.pool_ e2 = FramePool.init ControlV1.kPool (ControlV1.pool_ e1).
Proof.
  unfold ControlV1.run at 1. intros Hr.
  destruct (start_server (ControlV1.handle_ e)) as [hd [|]|] eqn:Hst; try done.
  destruct (ControlV1.consumer_ e); [done|]. destruct (ControlV1.reporter_ e); [done|]. injection Hr as <-.
  assert (Hrun : running hd = true).
  { unfold start_server in Hst. destruct (running (ControlV1.handle_ e)) eqn:E; [done|].
    destruct (joinable _); [done|]. by injection Hst as <-. }
  unfold ControlV1.run, start_server. cbn. rewrite Hrun. by eexists.
Qed.

Lemma v1_second_run_witness :
  exists e2, ControlV1.run (ControlV1.mk true (mk true false false true SettingUp Outside) true true
      (FramePool.init 4096 (FramePool.construct 4 [] []))) = ControlV1.Returned false e2 /\
    ControlV1.running_ e2 = false /\ running (ControlV1.handle_ e2) = true /\
    ControlV1.pool_ e2 = FramePool.init 4096 (FramePool.init 4096 (FramePool.construct 4 [] [])).
Proof. exact (v1_second_run (ControlV1.construct (FramePool.construct 4 [] [])) _ eq_refl). Defined.

(** An engine whose server could not bind its socket: the destructor terminates
    the process. *)
Example v1_destructor_after_setup_failure pool :
  ControlV1.destroyed
    (ControlV1.mk true (mk false false false true Finished Outside) true true pool) false.
Proof.
  apply (ControlV1.destroyed_intro _ (ControlV1.mk false (mk false false false true Finished Outside)
    false false pool)).
  constructor. by constructor.
Qed.
