(* ===== verification/Reporter.v ===== *)
(** * Reporter: the metrics threads of engines v1 and v2

    Models the bodies of the reporter threads in [Engine::run]
    ([src/engine/v1/engine.cpp]) and [Engine::receive] ([src/engine/v2/engine.cpp]),
    which differ in the line they log.  The threads read state that the other
    threads change: a round carries what this one finds at its two tests of
    [running_] and in the counters, and the latencies are those of a snapshot that
    no record overlaps; [LatencyThreads] has the overlaps. *)

From Stdlib Require Import ZArith Lia String.
From stdpp Require Import base numbers list option gmap sets strings.
From S2P Require Import Prelude Metrics Os Latency.

Local Open Scope Z_scope.

Module Reporter.

Record round := mkRound {
  before : bool;      (* the test of the loop *)
  after : bool;       (* the test after the wait *)
  counters : Metrics.t;
  histogram : Latency.t
}.

Definition v1_line (r : round) : string :=
  String.append "Metrics " (Metrics.to_string (Metrics.snapshot (counters r))).

Definition v2_line (r : round) : string :=
  let latency := (Latency.snapshot_latency (histogram r)).1 in
  String.concat "" ["Metrics "; Metrics.to_string (Metrics.snapshot (counters r));
    " latency_ns samples="; Metrics.decimal (Latency.samples latency);
    " p50="; Metrics.decimal (Latency.p50_ns latency); " p99="; Metrics.decimal (Latency.p99_ns latency);
    " p99.9="; Metrics.decimal (Latency.p999_ns latency); " max="; Metrics.decimal (Latency.max_ns latency);
    " overflow="; Metrics.decimal (Latency.overflow latency)]%string.

Section reporter.
Context `{Kernel} (line : round -> string).

(** Without a timer.  The boolean: whether the loop has ended; [false] when the
    rounds are used up. *)
Fixpoint sleep_loop (env : list round) : M (bool * list string) :=
  match env with
  | [] => mret (false, [])
  | r :: env =>
      if negb (before r) then mret (true, []) else
      _ ← sys (SleepFor 5);
      if negb (after r) then mret (true, []) else
      '(ended, lines) ← sleep_loop env;
      mret (ended, line r :: lines)
  end.

Fixpoint timer_loop (tfd : Z) (env : list round) : M (bool * list string) :=
  match env with
  | [] => mret (false, [])
  | r :: env =>
      if negb (before r) then mret (true, []) else
      rp ← sys (ReadU64 tfd);
      if ret rp <? 0 then
        if errno rp =? EINTR then timer_loop tfd env else mret (true, [])
      else
      if negb (after r) then mret (true, []) else
      '(ended, lines) ← timer_loop tfd env;
      mret (ended, line r :: lines)
  end.

Definition body (env : list round) : M (bool * list string) :=
  rp ← sys TimerFd;
  let tfd := ret rp in
  if tfd =? -1 then sleep_loop env else
  _ ← sys (TimerSet tfd 5);
  '(ended, lines) ← timer_loop tfd env;
  if ended : bool then _ ← sys (Close tfd); mret (ended, lines) else mret (ended, lines).

End reporter.
End Reporter.

Section reporter_proofs.
Context {P : nat} `{KernelOk P} (line : Reporter.round -> string).

(** The rounds in which the thread found the engine running both times. *)
Definition reportable (env : list Reporter.round) : list string :=
  line <$> filter (fun r => Reporter.before r && Reporter.after r = true) env.

(** What the loop reports. *)
Definition reports (env : list Reporter.round) (res : bool * list string) : Prop :=
  res.2 `sublist_of` reportable env /\
  (Exists (fun r => Reporter.before r = false) env -> res.1 = true).

Lemma reports_end env : reports env (true, []).
Proof. split; [apply sublist_nil_l|done]. Qed.

Lemma reports_skip r env res : Reporter.before r = true -> reports env res -> reports (r :: env) res.
Proof.
  intros Hb [Hs He]. split.
  - unfold reportable. rewrite filter_cons. case_decide; [by apply sublist_cons|done].
  - intros Hx. apply He. inversion Hx; [congruence|done].
Qed.

Lemma reports_cons r env ended lines :
  Reporter.before r = true -> Reporter.after r = true -> reports env (ended, lines) ->
  reports (r :: env) (ended, line r :: lines).
Proof.
  intros Hb Ha [Hs He]. split.
  - unfold reportable. rewrite filter_cons, decide_True by (by rewrite Hb, Ha).
    cbn. by apply sublist_skip.
  - intros Hx. apply He. inversion Hx; [congruence|done].
Qed.

Lemma sleep_loop_spec env h L :
  live h = Some L ->
  wp (Reporter.sleep_loop line env) (fun res h' => live h' = Some L /\ reports env res) h.
Proof.
  revert h. induction env as [|r env IH]; intros h Hl; cbn [Reporter.sleep_loop].
  { wp_step. split; [done|]. split; [constructor|]. intros Hx. inversion Hx. }
  destruct (Reporter.before r) eqn:Hb; cbn [negb]; [|wp_step; split; [done|apply reports_end]].
  wp_step. eapply wp_use; [exact Hl|done|done|constructor|]. intros _ h1 Hl1.
  destruct (Reporter.after r) eqn:Ha; cbn [negb]; [|wp_step; split; [done|apply reports_end]].
  wp_step. eapply wp_mono; [by apply IH|]. intros [ended lines] h2 [Hl2 Hr]. wp_step.
  split; [done|]. by apply reports_cons.
Qed.

Lemma timer_loop_spec tfd env h L :
  live h = Some L -> tfd ∈ L ->
  wp (Reporter.timer_loop line tfd env) (fun res h' => live h' = Some L /\ reports env res) h.
Proof.
  intros Hl Ht. revert h Hl. induction env as [|r env IH]; intros h Hl; cbn [Reporter.timer_loop].
  { wp_step. split; [done|]. split; [constructor|]. intros Hx. inversion Hx. }
  destruct (Reporter.before r) eqn:Hb; cbn [negb]; [|wp_step; split; [done|apply reports_end]].
  wp_step. eapply wp_use; [exact Hl|done|done|by constructor|]. intros rp h1 Hl1.
  destruct (ret rp <? 0).
  - destruct (errno rp =? EINTR); [|wp_step; split; [done|apply reports_end]].
    eapply wp_mono; [by apply IH|]. intros res h2 [Hl2 Hr]. split; [done|]. by apply reports_skip.
  - destruct (Reporter.after r) eqn:Ha; cbn [negb]; [|wp_step; split; [done|apply reports_end]].
    wp_step. eapply wp_mono; [by apply IH|]. intros [ended lines] h2 [Hl2 Hr]. wp_step.
    split; [done|]. by apply reports_cons.
Qed.

(** The metrics threads.  With or without a timer, and however its reads are
    interrupted or fail: the reporter logs one line for a round only if the
    engine was running both before and after the wait, in order; it ends at the
    latest at the first test that finds [running_] cleared; and when it has
    ended, its timer is closed. *)
Theorem reporter_session env h L :
  live h = Some L ->
  wp (Reporter.body line env) (fun res h' => reports env res /\ (res.1 = true -> live h' = Some L)) h.
Proof.
  intros Hl. unfold Reporter.body. wp_step. eapply wp_open; [exact Hl|done|constructor| |].
  - intros r h1 Hr Hl1. cbv beta zeta. rewrite Hr, Z.eqb_refl.
    eapply wp_mono; [by apply sleep_loop_spec|]. intros res h2 [Hl2 Hp]. by split.
  - intros r h1 Hr Hf Hl1. cbv beta zeta. rewrite (proj2 (Z.eqb_neq _ _)) by lia. wp_step.
    eapply wp_use; [exact Hl1|done|done|constructor; [set_solver|constructor]|]. intros _ h2 Hl2. wp_step.
    eapply wp_mono; [apply (timer_loop_spec _ env h2 _ Hl2); set_solver|].
    intros [ended lines] h3 [Hl3 Hp]. destruct ended; [|by wp_step].
    repeat wp_step. split; [done|]. intros _. rewrite (live_close _ _ _ _ Hl3) by set_solver.
    f_equal. set_solver.
Qed.

End reporter_proofs.

Definition demo_rounds : list Reporter.round :=
  [Reporter.mkRound true true Metrics.zero Latency.reset;
   Reporter.mkRound false false Metrics.zero Latency.reset].

Lemma reporter_session_witness :
  wp (@Reporter.body busy_kernel Reporter.v1_line demo_rounds)
    (fun res h' => reports Reporter.v1_line demo_rounds res /\ (res.1 = true -> live h' = Some ∅)) [].
Proof.
  apply (@reporter_session 0 busy_kernel busy_kernel_ok Reporter.v1_line demo_rounds [] ∅). reflexivity.
Defined.
