(* ===== verification/Affinity.v ===== *)
(** * Affinity: pinning threads

    Models [src/common/thread/affinity.hpp].  libnuma and the scheduler are
    parameters; the result of a function is its return value and the calls that
    changed where the thread may run. *)

From Stdlib Require Import ZArith Lia.
From stdpp Require Import base numbers list option gmap sets.
From S2P Require Import Prelude.

Local Open Scope Z_scope.

Inductive pin_call := SetAffinity (cpus : list Z) (ret : Z) | RunOnNode (node ret : Z).

Class Numa := {
  numa_available : Z;
  numa_node_of_cpu : Z -> Z;
  node_cpus : Z -> gset Z;              (* the processors of a node *)
  pthread_setaffinity_np : list Z -> Z;
  numa_run_on_node : Z -> Z
}.

(** Documented: [numa_node_of_cpu] names the node a processor belongs to, and an
    empty set is refused. *)
Class NumaOk `{Numa} : Prop := {
  node_of_cpu_ok cpu : 0 <= numa_node_of_cpu cpu -> cpu ∈ node_cpus (numa_node_of_cpu cpu);
  empty_set_refused : pthread_setaffinity_np [] <> 0
}.

Module Affinity.
Section affinity.
Context `{Numa}.

Definition CPU_SETSIZE : Z := 1024.

(** [CPU_SET] ignores a processor that the set has no bit for. *)
Definition cpu_set (cpu : Z) : list Z := if cpu <? CPU_SETSIZE then [cpu] else [].

Definition pin_current_thread (cpu_id : Z) : bool * list pin_call :=
  if 0 <=? cpu_id then
    let r := pthread_setaffinity_np (cpu_set cpu_id) in
    (r =? 0, [SetAffinity (cpu_set cpu_id) r])
  else (false, []).

Definition pin_thread_to_node (node : Z) : bool * list pin_call :=
  if node <? 0 then (false, []) else
  if numa_available <? 0 then (false, []) else
  let r := numa_run_on_node node in (r =? 0, [RunOnNode node r]).

Definition pin_current_thread_to_cpu_on_node (node cpu_id : Z) : bool * list pin_call :=
  if (node <? 0) || (cpu_id <? 0) then (false, []) else
  if numa_available <? 0 then pin_current_thread cpu_id else
  let cpu_node := numa_node_of_cpu cpu_id in
  if (cpu_node <? 0) || negb (cpu_node =? node) then (false, []) else
  let '(on_node, calls) := pin_thread_to_node node in
  if negb on_node then (false, calls) else
  let '(pinned, calls') := pin_current_thread cpu_id in (pinned, calls ++ calls').

End affinity.
End Affinity.

(** The processors the thread may run on after the calls that succeeded. *)
Definition allowed `{Numa} (start : gset Z) (calls : list pin_call) : gset Z :=
  foldl (fun s c => match c with
    | SetAffinity cpus r => if r =? 0 then list_to_set cpus else s
    | RunOnNode node r => if r =? 0 then node_cpus node else s
    end) start calls.

Lemma pin_current_thread_spec `{NumaOk} start cpu :
  (Affinity.pin_current_thread cpu).1 = true ->
  0 <= cpu < 1024 /\ allowed start (Affinity.pin_current_thread cpu).2 = {[cpu]}.
Proof.
  unfold Affinity.pin_current_thread, Affinity.cpu_set, Affinity.CPU_SETSIZE.
  destruct (Z.leb_spec 0 cpu); [|done]. destruct (Z.ltb_spec cpu 1024); cbn [fst snd]; intros Hr.
  - split; [lia|]. cbn. rewrite Hr. set_solver.
  - apply Z.eqb_eq in Hr. by apply empty_set_refused in Hr.
Qed.

(** Pinning.  When [pin_current_thread_to_cpu_on_node] reports success, the
    thread may run on exactly the processor asked for, that is a valid processor
    number, and where NUMA is available the processor belongs to the node asked
    for; when it reports failure before changing anything, nothing has changed,
    and otherwise the thread is at most restricted to the node. *)
Lemma pin_to_cpu_on_node `{NumaOk} start node cpu :
  let '(ok, calls) := Affinity.pin_current_thread_to_cpu_on_node node cpu in
  (ok = true -> 0 <= cpu < 1024 /\ allowed start calls = {[cpu]} /\
     (0 <= numa_available -> cpu ∈ node_cpus node)) /\
  (ok = false -> allowed start calls = start \/ allowed start calls = node_cpus node).
Proof.
  unfold Affinity.pin_current_thread_to_cpu_on_node, Affinity.pin_thread_to_node.
  destruct (Z.ltb_spec node 0); [by split; [|left]|]. destruct (Z.ltb_spec cpu 0); [by split; [|left]|].
  cbn [orb].
  assert (Hfail : forall s, (Affinity.pin_current_thread cpu).1 = false ->
    allowed s (Affinity.pin_current_thread cpu).2 = s).
  { intros s. unfold Affinity.pin_current_thread. destruct (0 <=? cpu); [|done]. cbn. by intros ->. }
  pose proof (pin_current_thread_spec start cpu) as Hpin.
  destruct (Z.ltb_spec numa_available 0) as [Hav|Hav].
  { specialize (Hfail start). destruct (Affinity.pin_current_thread cpu) as [ok calls]. cbn in *.
    split; [|auto]. intros Hok. destruct (Hpin Hok). split_and!; try done; lia. }
  destruct (Z.ltb_spec (numa_node_of_cpu cpu) 0) as [|Hnn]; [by split; [|left]|]. cbn [orb].
  destruct (Z.eqb_spec (numa_node_of_cpu cpu) node) as [Hnode|]; cbn [negb]; [|by split; [|left]].
  destruct (Z.eqb_spec (numa_run_on_node node) 0) as [Hrun|Hrun]; cbn [negb].
  2: { split; [done|]. left. cbn. by rewrite (proj2 (Z.eqb_neq _ _) Hrun). }
  specialize (Hfail (node_cpus node)). pose proof (pin_current_thread_spec (node_cpus node) cpu) as Hpin'.
  destruct (Affinity.pin_current_thread cpu) as [ok calls]. cbn in *. rewrite Hrun. cbn. fold (allowed (node_cpus node) calls).
  split; [|auto]. intros Hok. destruct (Hpin' Hok). split_and!; try done; try lia.
  intros _. rewrite <- Hnode. by apply node_of_cpu_ok.
Qed.

(** A machine with two nodes of two processors. *)
Definition two_nodes : Numa := {|
  numa_available := 0;
  numa_node_of_cpu cpu := if (0 <=? cpu) && (cpu <? 4) then Z.quot cpu 2 else -1;
  node_cpus node := if node =? 0 then {[0; 1]} else if node =? 1 then {[2; 3]} else ∅;
  pthread_setaffinity_np cpus := match cpus with [cpu] => if cpu <? 4 then 0 else 22 | _ => 22 end;
  numa_run_on_node node := if (0 <=? node) && (node <? 2) then 0 else -1
|}.

Lemma two_nodes_ok : @NumaOk two_nodes.
Proof.
  split; [|done]. intros cpu Hc. simpl in *.
  destruct (Z.leb_spec 0 cpu), (Z.ltb_spec cpu 4); cbn in *; try lia.
  assert (cpu = 0 \/ cpu = 1 \/ cpu = 2 \/ cpu = 3) as [->|[->|[->| ->]]] by lia; set_solver.
Qed.

Example pin_samples :
  (@Affinity.pin_current_thread_to_cpu_on_node two_nodes 1 2).1 = true /\
  @Affinity.pin_current_thread_to_cpu_on_node two_nodes 0 2 = (false, []).
Proof. split; reflexivity. Qed.
